(* ===== verification/_CoqProject ===== *)
-Q . S2P
Prelude.v
BepTypes.v
Base32.v
StoreKeys.v
Codec.v
Conflict.v
Validate.v
DeviceId.v
Framing.v
EnvFile.v
Credentials.v
Upgrade.v
Retry.v
ProtoConv.v
Kv.v
GcState.v
Store.v
StoreTape.v
StoreWp.v
StoreIndex.v
StoreBlocks.v
ReadOnly.v
Fsck.v
Snapshot.v
Folder.v
Meta.v
ObjectStore.v
Activation.v
ActivationSafety.v
MetaTape.v
Registry.v
Takeover.v
Checkpoints.v
Task.v
Messages.v
Connection.v
ConnectionSafety.v
MessageTape.v
ConnectionFolder.v
ConnectionIndex.v
ConnectionRun.v
Engine.v
Admission.v
Stats.v
Compaction.v
CompactionSafety.v
StoreSlot.v
Lock.v
LockRun.v
LockSafety.v
LockMem.v
LockExclusion.v
LockLive.v
Guard.v
Fencing.v
StorageUri.v
Tls.v
Readers.v
Dav.v
DavSlate.v
Compact.v
Admin.v
Serve.v
Service.v
Fault.v
MemStorage.v
MemAgree.v
Inspect.v
TestServer.v
Cli.v
Harness.v
DavServe.v
CliRun.v
