(* ===== verification/Prelude.v ===== *)
(** * bepository: verification of its storage, lock and protocol core

    bepository (the crates under [src/]) is a peer of the Syncthing Block
    Exchange Protocol that keeps folders in an object store instead of a file
    system. A peer announces files as lists of blocks; the daemon decides by
    version vectors what to accept, receives the missing blocks, deduplicates
    them into a per-folder key-value database (SlateDB) and answers index and
    block requests from it. A lease in the object store makes one process the
    writer, and the compactions of the database collect what is no longer
    referenced.

    ** The parts and where they are modelled

    - [Prelude] (this file): results and the state-and-error monad with its
      weakest preconditions, byte strings and the [str] operations the code
      uses (split, strip, UTF-8 validity, order), machine-width integers.
    - [BepTypes]: errors ([bepository-bep/src/error.rs]), protocol and stored
      messages (the two .proto files), [blocks_equal] and [UpdateResult]
      ([bepository-bep/src/storage.rs]).
    - [Base32]: epochs and their names ([bepository-lock/src/base32.rs],
      [epoch.rs]).
    - [StoreKeys]: the key layout of a folder database
      ([bepository-storage/src/store_keys.rs]).
    - [Codec]: the interface to the protobuf library (encoding, decoding, the
      round-trip law), with an executable instance used by the examples.
    - [Conflict]: version vectors and conflict resolution
      ([bepository-bep/src/conflict.rs] and [TheirsResolver] of
      [bepository-cli/src/main.rs]).
    - [Validate]: [validate_file_info] ([bepository-bep/src/validate.rs]) and
      [validate_file_name] ([bepository-storage/src/api.rs]).
    - [DeviceId]: device ids ([bepository-bep/src/device_id.rs]).
    - [Framing]: message framing and the Hello exchange
      ([bepository-bep/src/framing.rs]).
    - [EnvFile]: environment files ([bepository-cli/src/envfile.rs],
      [load_env_file] of [main.rs]).
    - [Credentials]: the credential paths that the service installer moves from
      the environment file to drop-ins, and back
      ([bepository-cli/src/service/credential_wiring.rs]); [Service]: the unit
      files and systemctl around them ([bepository-cli/src/service.rs]);
      [Upgrade]: the upgrade of the program ([bepository-cli/src/upgrade.rs]).
    - [Retry]: retry policies and the retry loop ([bepository-bep/src/retry.rs]).
    - [ProtoConv]: conversions between protocol and stored files
      ([bepository-storage/src/proto.rs]).
    - [Kv]: the interface to SlateDB (get, put, write batch, scans, flush,
      close; any call may fail) with its laws and an executable instance that
      can be made to fail at a chosen call; [slate_err].
    - [GcState]: [CompactionState] of [bepository-storage/src/store.rs].
    - [Store]: [FolderStore] and [SeqAllocator] of the same file and
      [resolve_block_data] ([block_read.rs]). [StoreTape] instantiates the
      codecs, [StoreWp] has the rules for reasoning about the operations,
      [StoreIndex] the theorems on the file index, [StoreBlocks] those on block
      data and block numbers.
    - [ReadOnly], [Fsck]: a logic for computations that only read, and the
      integrity check ([bepository-storage/src/fsck.rs]) with its theorems.
    - [Snapshot]: listing, metadata and range reads of a snapshot
      ([snapshot.rs], [snapshot_fs.rs]) with their theorems.
    - [Folder]: [SlateFolder], the interface the protocol engine calls
      ([bepository-storage/src/api.rs]).
    - [Meta]: the metadata of a repository and its document
      ([bepository-storage/src/meta.rs]); [ObjectStore]: the interface to the
      object store and to opening a database, with an in-memory instance.
    - [Activation]: [SlateStorage] ([bepository-storage/src/api.rs]): activation
      under an epoch, the meta files, the registry of folders and their
      databases. [ActivationSafety] has the invariant of the system of
      processes that follow one another, [MetaTape] instances for the examples,
      [Registry] the theorems on the registry and the directories, [Takeover]
      those on the meta files.
    - [Checkpoints]: checkpoints and their ages ([api.rs]), the list of snapshots
      ([snapshot_fs.rs]) and the start of the checkpoint tasks ([main.rs]).
    - [Stats], [Compaction], [CompactionSafety]: the statistics, the filter, its
      supplier and the scheduler ([stats.rs], [compaction.rs]), and their
      theorems; [StoreSlot]: how the compactor waits for its store.
    - [Lock]: the lease protocol ([bepository-lock/src/lib.rs]) as programs over
      the operations of the object store. [LockRun] states the contract of the
      store and the rules for runs, [LockSafety] follows [acquire] phase by
      phase, [LockMem] is an in-memory store that satisfies the contract,
      [LockExclusion] and [LockLive] have the theorems. [Guard] is [hold], the
      renewal loop and the release ([bepository-lock/src/guard.rs]). [Fencing]
      composes the lock with the activation of a repository.
    - [Task]: asynchronous tasks as trees of atomic steps over a shared state,
      their interleaving with an environment, and the rules for reasoning about
      every interleaving.
    - [Messages]: the messages of a connection and the two traits of
      [bepository-bep/src/storage.rs] as type classes. [MessageTape] has codecs
      for the examples.
    - [Connection]: a connection to a peer ([bepository-bep/src/connection.rs]):
      the exchange of cluster configs, the message, index and writer tasks, the
      channels between them and the supervisor. [ConnectionSafety] has the
      system of the three tasks and its invariant, [ConnectionIndex] the
      theorems on the handling of announcements and deferred blocks;
      [ConnectionFolder] puts the folder store under the connection and plays
      schedules of the whole; [ConnectionRun] is the life of a connection from the
      Hello to the reason it reports.
    - [Engine]: the engine ([bepository-bep/src/engine.rs]) as a step relation;
      [Admission]: who its listeners let in.
    - [Compact]: compaction on demand and its wait for the compactor ([compact]
      of [api.rs], [fsck_compact] of [main.rs]); [Readers]: the cache of snapshot
      readers ([snapshot_reader] and [close] of [api.rs]) with its concurrent
      callers.
    - [Dav]: the WebDAV server ([bepository-dav/src/lib.rs]) over the trait
      [SnapshotFs] of [snapshot.rs], a type class; [DavSlate] is the instance of
      the storage, [DavServe] the server as it runs.
    - [Tls]: identities, verifiers, [connect] and [accept]
      ([bepository-tls/src/lib.rs]).
    - [StorageUri]: storage URIs, options and credentials; [Admin]: the
      administration commands and their lock; [Serve]: the daemon; [Cli]: the
      settings, the command line and its dispatch; [CliRun]: the commands on a
      storage (all of [bepository-cli/src/main.rs]).
    - [Fault]: fault injection ([bepository-bep/src/fault.rs],
      [bepository-storage/src/fault.rs]); [MemStorage]: the in-memory storage of
      the tests ([bepository-bep/src/test_utils.rs]) and [MemAgree], its agreement
      with the folder store; [Inspect]: the test inspection of a folder ([api.rs]);
      [TestServer]: the test server ([bepository-testserver/src/lib.rs]);
      [Harness]: the harness around Syncthing ([bepository-harness/src/lib.rs]) and
      the environment guard ([bepository-cli/src/test_env.rs]).

    ** How the code is represented

    Pure functions are functions. Operations on the database are computations
    of the monad [SE] over the record [FolderStore] (database, compaction state,
    reserved block numbers): an error keeps the state reached, so partial
    effects are visible. Lock operations are trees ([prog]) whose nodes are
    store requests, so that they can be run whole or interleaved step by step.
    A connection is three tasks ([Task]) over one record (the mutex-protected
    state, the channels, the storage): a step of a task is a critical section, a
    storage call, a queue operation or a wait that retests its condition, and
    between two steps the other tasks, the peer and a shutdown may act. The
    renewal loop of a guard is a step relation with the time as a component, and
    so is the engine: callers, listener, supervisor and connection tasks take
    steps in any order. Operations on a repository are computations of [SE] over
    the record [SlateStorage]; a panic is an error of its own ([Panicked]).
    Strings are lists of byte values; integers are [Z] with the wrap-around,
    saturation or checked failure of their width written out where the code can
    reach it. Libraries (SlateDB, object_store, prost, LZ4, serde_json, chrono,
    the Bloom filters) are type classes with documented laws, each with an
    instance that the examples compute with.

    ** What the theorems show

    - Index ([StoreIndex], [Folder]): an abstract index (a map from names to
      files and a largest sequence number) is refined by the database. Commits
      take the next number and are all or nothing under failing calls; delta and
      full listings are exact; staged files are promoted only complete and in
      the expected version; the handling of an announcement follows the version
      order and never replaces a version by an older one; resolving a conflict
      keeps both sides.
    - Blocks ([StoreBlocks]): over all reachable stores, restarts, failures and
      compactions included, a read returns only data stored for the requested
      hash; every row is of one kind and decodes as its kind has it, so that the
      index is never reported as corrupt; a stored block can be read back; block numbers are not reused;
      inbox collection removes the rows of earlier epochs only.
    - Compaction ([GcState], [CompactionSafety]): the decision for every row;
      rows needed by committed files survive; deletions are forgotten only when
      every device has seen them; the plans of the scheduler; a job that waits for
      its store is woken. It is also shown
      that a block of a file being received in a subdirectory can be lost.
    - Lock ([LockExclusion], [LockLive]): mutual exclusion of uninterrupted runs
      on a store that may fail, leases are never broken, progress when the lock
      is free, release is exact. It is also shown that a suspended process can
      overlap with another owner, and that a huge duration crashes [acquire].
      [Guard]: with bounded delays the guard reports a loss before the lease
      ends; a request that hangs lets the lease run out unreported, and an
      attempt under way can recreate the lease that a release has deleted.
    - Repository ([Registry], [Takeover]): over all sequences of operations of
      processes that follow one another under any epochs, failing calls included,
      the registry
      refines a map from folder ids to labels and a directory is never given to
      a second folder. Activation takes over the metadata of the last epoch and
      leaves one meta file; a failure on the way keeps the metadata readable; a
      store of a newer format is left untouched; a change of the metadata is
      seen whole or not at all. It is also shown that a process that cleans late
      deletes the meta file of its successor, and ([Fencing]) that epochs start
      again at 0 after a release, so that a late write of a process with a higher
      epoch replaces the metadata of the owner.
    - Checkpoints ([Checkpoints]): a task starts when its interval has passed
      since the newest checkpoint; the list of snapshots is exact and ordered.
    - Engine ([Engine]): in every interleaving a device has at most one
      connection that is not cancelled, and the map holds exactly the current
      one.
    - Installer and upgrade ([EnvFile], [Credentials], [Service], [Upgrade]): an
      assignment that is written is read back; uninstalling after installing
      removes the units, gives the settings back and leaves the other files;
      only a payload whose digest the release lists for the asset replaces the
      program, and a failure leaves it as it was.
    - Integrity check ([Fsck]): an empty report of the full check means a sound
      folder; the check terminates and changes nothing. Blocks that are present
      can be reported as missing.
    - Snapshots ([Snapshot], [Readers], [Dav], [DavSlate]): listings and range
      reads are exact; readers are shared and each is cached, in use, about to
      be closed or closed; an open WebDAV file behaves as a cursor over the file,
      what is listed can be entered, and in every interleaving requests are
      handled exactly when they carry the password, nothing being read before. An announced directory is shown as a file, checkpoints
      of one minute hide one another, and a reader in use when the storage is
      closed is never closed.
    - Commands ([StorageUri], [Cli], [CliRun], [Admin], [Compact]): a setting comes
      from the flag, the environment or the settings file, in this order, and the
      WebDAV password reaches nothing else (a settings file with a nameless
      assignment crashes every command); a command that writes does not run beside
      another of its machine and storage; no store is built that would
      look for credentials nobody configured, except through an option that is
      overridden; an administration command runs as one session and leaves no
      epoch file, [init] gives a repository one identity, a compaction on demand
      ends with everything merged. It is also shown that the lease of a command
      can run out under it and that breaking the lock does not help after a
      clock regression.
    - Daemon ([Serve], [Tls]): in every interleaving only the configured device is
      served; a cycle gives the lock back and starts over exactly when it was
      lost. But signatures are not verified, so an impostor with the certificate
      of the master is served, and an interrupted daemon leaves a claim that
      makes the owner lose the lock.
    - Connection ([ConnectionSafety], [ConnectionIndex], [ConnectionFolder]):
      in every interleaving the requests in flight and the bytes queued stay
      within their limits and mutual folders are announced ones; request ids are
      found and fresh; the state of a peer is written last, once every
      announced file is handled; deferred blocks are requested in order as room
      appears; the result of a connection is its worst error, reported once and in
      bounded time after the first task has ended. Three schedules
      show what can go wrong: an early response, a shutdown in the middle of an
      announcement, and a conflict winner whose blocks are never received.
    - Protocol and files ([Framing], [Validate], [Conflict], [DeviceId], [Retry],
      [ProtoConv], [Base32], [StoreKeys]): round trips, bounds on hostile
      input, exact validation, the order of version vectors, agreement of the
      two sides of a conflict, bounded retries, keys that never collide.

    - Test support ([Fault], [MemStorage], [MemAgree], [TestServer], [Harness]):
      a fault layer injects exactly the errors asked for, and retries mask as many
      as the policy allows; an object store with faults is an object store, so
      that what is proved of the storage holds with faults below it; the in-memory
      storage answers like the folder store, except that it completes files whose
      blocks are missing; the test server lets in only allowed devices, but may
      turn away one whose permission it has not read yet; concurrent calls of
      [add_peer] through one handle lose no peer, through two handles they can; an
      instance that does not start leaves nothing behind.

    ** Fuel

    [retry_loop] counts calls of the operation; [retry_storage_op] gives it one
    more than the policy allows and [retry_terminates] shows that is enough.
    [put_loop] counts iterations of the claim loop; without interference one is
    enough ([acquire_respects_leases], [acquire_succeeds]). [drain] and
    [chunks_fuel] of [DeviceId] have their fuel bounded by the bits and bytes
    present, and [device_id_roundtrip] shows it suffices. [dir_loop] of [Fsck]
    counts directories, at most the number of rows left ([fsck_sound] shows that
    it ends); [next_id_loop] counts one more than the requests in flight
    ([next_request_id_fresh]); [strip_all] of [EnvFile] counts the bytes of the
    string, each step removes one at least, and so does [words_from] of [Upgrade].
    [hold] takes a bound on its attempts. [wait_loop] of [Compact] polls at most
    [POLLS] times, more than fit into the timeout ([wait_ends]), and that of
    [Harness] pauses as often as fits ([wait_for_ready_ends]); [compact_loop]
    counts jobs, one more than the segments to merge ([compact_merges_everything]
    shows that it ends with them merged). [run_serve] takes one cycle of its
    surroundings at a time. The loops of the connection are steps of a relation
    and need none. Everything else is
    structural.

    ** Bounds of the model

    Each store operation runs to its end before the next: the per-name locks and
    the sequence lock serialise the conflicting ones, and compactions are steps
    between operations. The requests [release] sends concurrently are issued in
    listing order. Operations on a repository run one after the other (the meta
    lock orders the changes), and a process starts when the one before has
    stopped, except where a theorem says otherwise; a process whose activation
    fails stops. Seconds in floating point are rationals. Sequence numbers are
    assumed below the largest [i64] and block numbers below the largest [u64].

    ** Not modelled, and the plan

    Of the daemon, the work of the connections on the storage while it serves is
    an argument ([ConnectionFolder] has it).
    Argument parsing is the library clap, an interface. Left out for good: the
    settings given to the database library and to its cache, tracing, the
    runtimes, and what is printed beyond its data. *)

From Stdlib Require Import ZArith Lia.
From stdpp Require Import base gmap list strings.

#[export] Set Default Goal Selector "!".

(** ** Results *)

(** Rust's [Result<A, E>]. *)
Inductive result (E A : Type) : Type :=
| Ok (a : A)
| Err (e : E).
Arguments Ok {E A} a.
Arguments Err {E A} e.

Declare Scope bep_scope.
Delimit Scope bep_scope with bep.

(** The [?] operator. *)
Definition rbind {E A B : Type} (m : result E A) (k : A -> result E B) : result E B :=
  match m with Ok a => k a | Err e => Err e end.

(** [Result::map_err]. *)
Definition map_err {E F A : Type} (f : E -> F) (m : result E A) : result F A :=
  match m with Ok a => Ok a | Err e => Err (f e) end.

(** [Option::ok_or]. *)
Definition ok_or {E A : Type} (o : option A) (e : E) : result E A :=
  match o with Some a => Ok a | None => Err e end.

(** [Result::ok]. *)
Definition ok {E A : Type} (m : result E A) : option A :=
  match m with Ok a => Some a | Err _ => None end.

Definition is_ok {E A : Type} (m : result E A) : bool :=
  match m with Ok _ => true | Err _ => false end.

Notation "'try' x <- m ; k" := (rbind m (fun x => k))
  (at level 100, x pattern, m at next level, right associativity) : bep_scope.

(** A computation that threads a state and may fail; on failure the state
    reached so far is kept (nothing rolls back by itself). *)
Definition SE (S E A : Type) : Type := S -> S * result E A.

Definition se_ret {S E A : Type} (a : A) : SE S E A := fun s => (s, Ok a).
Definition se_err {S E A : Type} (e : E) : SE S E A := fun s => (s, Err e).
Definition se_bind {S E A B : Type} (m : SE S E A) (k : A -> SE S E B) : SE S E B :=
  fun s => match m s with
           | (s', Ok a) => k a s'
           | (s', Err e) => (s', Err e)
           end.
Definition se_lift {S E A : Type} (r : result E A) : SE S E A := fun s => (s, r).
Definition se_get {S E : Type} : SE S E S := fun s => (s, Ok s).
Definition se_modify {S E : Type} (f : S -> S) : SE S E unit := fun s => (f s, Ok tt).

Notation "'do!' x <- m ; k" := (se_bind m (fun x => k))
  (at level 100, x pattern, m at next level, right associativity) : bep_scope.
Notation "'run!' m ; k" := (se_bind m (fun _ => k))
  (at level 100, m at next level, right associativity) : bep_scope.

(** Weakest precondition of a state-and-error computation: [Q] holds of the
    state and the result it ends with. *)
Definition wp {S E A : Type} (m : SE S E A) (Q : S -> result E A -> Prop) (s : S) : Prop :=
  Q (fst (m s)) (snd (m s)).

(** ** Bytes and strings *)

(** A byte is an integer in [0, 256); byte slices and UTF-8 strings are lists
    of bytes (a Rust [str] is the list of its UTF-8 bytes). *)
Abbreviation bytes := (list Z).

Definition is_byte (b : Z) : Prop := (0 <= b < 256)%Z.

(** The bytes of an ASCII literal. *)
Fixpoint lit (s : string) : bytes :=
  match s with
  | String.EmptyString => []
  | String.String c s' => Z.of_N (Ascii.N_of_ascii c) :: lit s'
  end.

(** The path separator. *)
Definition SLASH : Z := 47.

(** [slice::strip_prefix] / [str::strip_prefix]. *)
Fixpoint strip_prefix (p s : bytes) : option bytes :=
  match p, s with
  | [], _ => Some s
  | x :: p', y :: s' => if Z.eqb x y then strip_prefix p' s' else None
  | _ :: _, [] => None
  end.

Definition starts_with (p s : bytes) : bool :=
  match strip_prefix p s with Some _ => true | None => false end.

(** [str::strip_suffix] / [str::ends_with]. *)
Definition strip_suffix (p s : bytes) : option bytes :=
  match strip_prefix (rev p) (rev s) with Some r => Some (rev r) | None => None end.

Definition ends_with (p s : bytes) : bool :=
  match strip_suffix p s with Some _ => true | None => false end.

(** [str::split_once]: at the leftmost occurrence of the pattern. *)
Fixpoint split_once (p s : bytes) : option (bytes * bytes) :=
  match strip_prefix p s with
  | Some r => Some ([], r)
  | None =>
      match s with
      | [] => None
      | x :: t => match split_once p t with
                  | Some (a, b) => Some (x :: a, b)
                  | None => None
                  end
      end
  end.

(** [str::rsplit_once]: at the rightmost occurrence of the pattern. *)
Fixpoint rsplit_once (p s : bytes) : option (bytes * bytes) :=
  match s with
  | [] => match strip_prefix p [] with Some r => Some ([], r) | None => None end
  | x :: t =>
      match rsplit_once p t with
      | Some (a, b) => Some (x :: a, b)
      | None => match strip_prefix p s with Some r => Some ([], r) | None => None end
      end
  end.

(** [str::split] on one character: always at least one component. *)
Fixpoint split_char (c : Z) (s : bytes) : list bytes :=
  match s with
  | [] => [[]]
  | x :: t =>
      if Z.eqb x c then [] :: split_char c t
      else match split_char c t with
           | h :: r => (x :: h) :: r
           | [] => [[x]]
           end
  end.

(** Lexicographic order on byte strings: Rust's [Ord] on slices and [str],
    and the key order of the database. *)
Fixpoint bytes_cmp (a b : bytes) : comparison :=
  match a, b with
  | [], [] => Eq
  | [], _ :: _ => Lt
  | _ :: _, [] => Gt
  | x :: a', y :: b' => match Z.compare x y with Eq => bytes_cmp a' b' | c => c end
  end.

Definition bytes_lt (a b : bytes) : Prop := bytes_cmp a b = Lt.

(** [std::str::from_utf8] succeeds exactly on valid UTF-8 (Unicode table 3-7):
    the state is the list of ranges the pending continuation bytes must lie
    in. *)
Definition in_range (lo hi b : Z) : bool := (Z.leb lo b && Z.leb b hi)%bool.

Definition utf8_lead (b : Z) : option (list (Z * Z)) :=
  let cont := (128, 191)%Z in
  if in_range 0 127 b then Some []
  else if in_range 194 223 b then Some [cont]
  else if Z.eqb b 224 then Some [(160, 191)%Z; cont]
  else if in_range 225 236 b then Some [cont; cont]
  else if Z.eqb b 237 then Some [(128, 159)%Z; cont]
  else if in_range 238 239 b then Some [cont; cont]
  else if Z.eqb b 240 then Some [(144, 191)%Z; cont; cont]
  else if in_range 241 243 b then Some [cont; cont; cont]
  else if Z.eqb b 244 then Some [(128, 143)%Z; cont; cont]
  else None.

Fixpoint utf8_from (pending : list (Z * Z)) (s : bytes) : bool :=
  match s with
  | [] => match pending with [] => true | _ :: _ => false end
  | b :: t =>
      match pending with
      | [] => match utf8_lead b with Some p => utf8_from p t | None => false end
      | (lo, hi) :: p => if in_range lo hi b then utf8_from p t else false
      end
  end.

Definition utf8_valid (s : bytes) : bool := utf8_from [] s.

(** [std::str::from_utf8(s).ok()]. *)
Definition from_utf8 (s : bytes) : option bytes := if utf8_valid s then Some s else None.

(** The [n] digits of [v] in base [b], most significant first, and the number
    a list of digits denotes. *)
Fixpoint digits (b : Z) (n : nat) (v : Z) : list Z :=
  match n with
  | O => []
  | S n' => (v / b ^ Z.of_nat n') mod b :: digits b n' v
  end%Z.

Definition undigits (b : Z) (ds : list Z) : Z :=
  fold_left (fun acc d => acc * b + d)%Z ds 0%Z.

(** Big-endian unsigned integers of [n] bytes ([u64::to_be_bytes] and
    [from_be_bytes] with [n = 8], [put_u32]/[get_u32] with [n = 4]...). *)
Definition to_be (n : nat) (v : Z) : bytes := digits 256 n v.
Definition of_be (bs : bytes) : Z := undigits 256 bs.

(** Machine integers. *)
Definition U16_MAX : Z := 65535.
Definition U32_MAX : Z := 4294967295.
Definition U64_MAX : Z := 18446744073709551615.
Definition I32_MAX : Z := 2147483647.
Definition I64_MAX : Z := 9223372036854775807.
Definition I64_MIN : Z := -9223372036854775808.
Definition wrap_u64 (v : Z) : Z := v mod 2 ^ 64.

(** [i64::checked_add] and [u64::checked_add]. *)
Definition checked_add_i64 (a b : Z) : option Z :=
  if ((I64_MIN <=? a + b) && (a + b <=? I64_MAX))%Z%bool then Some (a + b)%Z else None.
Definition checked_add_u64 (a b : Z) : option Z :=
  if (a + b <=? U64_MAX)%Z then Some (a + b)%Z else None.
(** [u64::saturating_sub]. *)
Definition saturating_sub (a b : Z) : Z := Z.max 0 (a - b).

(** ** Facts about results and computations *)

Lemma wp_ret {S E A} (a : A) (Q : S -> result E A -> Prop) s :
  Q s (Ok a) -> wp (se_ret a) Q s.
Proof. done. Qed.

Lemma wp_err {S E A} (e : E) (Q : S -> result E A -> Prop) s :
  Q s (Err e) -> wp (se_err e) Q s.
Proof. done. Qed.

Lemma wp_lift {S E A} (r : result E A) (Q : S -> result E A -> Prop) s :
  Q s r -> wp (se_lift r) Q s.
Proof. done. Qed.

Lemma wp_modify {S E} (f : S -> S) (Q : S -> result E unit -> Prop) s :
  Q (f s) (Ok tt) -> wp (se_modify f) Q s.
Proof. done. Qed.

Lemma wp_get {S E} (Q : S -> result E S -> Prop) s :
  Q s (Ok s) -> wp se_get Q s.
Proof. done. Qed.

Lemma wp_bind {S E A B} (m : SE S E A) (k : A -> SE S E B) (Q : S -> result E B -> Prop) s :
  wp m (fun s' r => match r with Ok a => wp (k a) Q s' | Err e => Q s' (Err e) end) s ->
  wp (se_bind m k) Q s.
Proof. unfold wp, se_bind. destruct (m s) as [s' [a|e]]; done. Qed.

Lemma wp_mono {S E A} (m : SE S E A) (P Q : S -> result E A -> Prop) s :
  (forall s' r, P s' r -> Q s' r) -> wp m P s -> wp m Q s.
Proof. unfold wp. eauto. Qed.

Lemma wp_assoc {S E A B C} (m : SE S E A) (f : A -> SE S E B) (k : B -> SE S E C)
  (Q : S -> result E C -> Prop) s :
  wp (se_bind (se_bind m f) k) Q s -> wp (se_bind m (fun a => se_bind (f a) k)) Q s.
Proof. unfold wp, se_bind. by destruct (m s) as [? [?|?]]. Qed.

Lemma wp_let {S E A} (m : SE S E A) (Q : S -> result E A -> Prop) s :
  wp m Q s -> let '(s', r) := m s in Q s' r.
Proof. unfold wp. by destruct (m s). Qed.

(** ** Facts about byte strings *)

Lemma strip_prefix_app p s : strip_prefix p (p ++ s) = Some s.
Proof. induction p as [|x p IH]; simpl; [done|]. by rewrite Z.eqb_refl. Qed.

Lemma strip_prefix_Some p s r : strip_prefix p s = Some r <-> s = p ++ r.
Proof.
  split; [|intros ->; apply strip_prefix_app].
  revert s. induction p as [|x p IH]; intros s; simpl; [by intros [= ->]|].
  destruct s as [|y s]; [done|]. destruct (Z.eqb_spec x y) as [->|]; [|done].
  intros ?%IH. by subst.
Qed.

Lemma starts_with_true p s : starts_with p s = true <-> exists r, s = p ++ r.
Proof.
  unfold starts_with. destruct (strip_prefix p s) eqn:E.
  - apply strip_prefix_Some in E. naive_solver.
  - split; [done|]. intros [r ->]. by rewrite strip_prefix_app in E.
Qed.

Lemma starts_with_app p s : starts_with p (p ++ s) = true.
Proof. apply starts_with_true. by eexists. Qed.

Lemma strip_suffix_Some p s r : strip_suffix p s = Some r <-> s = r ++ p.
Proof.
  unfold strip_suffix. destruct (strip_prefix (rev p) (rev s)) as [q|] eqn:E.
  - apply strip_prefix_Some in E. apply (f_equal (@rev Z)) in E.
    rewrite rev_app_distr, !rev_involutive in E. subst s. split.
    + by intros [= <-].
    + intros H. apply (app_inv_tail p) in H. by f_equal.
  - split; [done|]. intros ->. rewrite rev_app_distr, strip_prefix_app in E. done.
Qed.

Lemma rsplit_once_Some p s a b : rsplit_once p s = Some (a, b) -> s = a ++ p ++ b.
Proof.
  revert a. induction s as [|x s IH]; intros a; simpl.
  - destruct (strip_prefix p []) eqn:E; [|done]. intros [= <- <-].
    by apply strip_prefix_Some in E.
  - destruct (rsplit_once p s) as [[a' b']|].
    + intros [= <- <-]. by rewrite (IH a') at 1.
    + destruct (strip_prefix p (x :: s)) eqn:E; [|done]. intros [= <- <-].
      by apply strip_prefix_Some in E.
Qed.

Lemma rsplit_once_notin c p s : c ∉ s -> rsplit_once (c :: p) s = None.
Proof.
  induction s as [|x s IH]; intros Hn; simpl; [done|].
  apply not_elem_of_cons in Hn as [Hx Hs]. rewrite (IH Hs).
  destruct (Z.eqb_spec c x); [congruence|done].
Qed.

(** Splitting at the last separator gives back the two parts when the second
    one has none. *)
Lemma rsplit_once_char c a b : c ∉ b -> rsplit_once [c] (a ++ c :: b) = Some (a, b).
Proof.
  intros Hb. induction a as [|x a IH]; simpl.
  - by rewrite rsplit_once_notin, Z.eqb_refl by done.
  - by rewrite IH.
Qed.

Lemma rsplit_once_double c a b :
  c ∉ b -> rsplit_once [c; c] (a ++ c :: c :: b) = Some (a, b).
Proof.
  intros Hb. induction a as [|x a IH]; [|by simpl; rewrite IH].
  assert (rsplit_once [c; c] (c :: b) = None) as Hnone.
  { simpl. rewrite rsplit_once_notin, Z.eqb_refl by done.
    destruct b as [|y b]; [done|]. apply not_elem_of_cons in Hb as [? _].
    destruct (Z.eqb_spec c y); [congruence|done]. }
  change ([] ++ c :: c :: b) with (c :: c :: b).
  cbn [rsplit_once] in *. rewrite Hnone. simpl. by rewrite Z.eqb_refl.
Qed.

Lemma rsplit_once_char_notin c s a b : rsplit_once [c] s = Some (a, b) -> c ∉ b.
Proof.
  revert a. induction s as [|x s IH]; intros a; simpl; [done|].
  destruct (rsplit_once [c] s) as [[a' b']|] eqn:E; [naive_solver|].
  destruct (Z.eqb_spec c x) as [->|]; [|done]. intros [= <- <-] Hin.
  apply list_elem_of_split in Hin as (l1 & l2 & ->).
  clear IH. revert E. induction l1 as [|y l1 IHl]; simpl.
  - destruct (rsplit_once [x] l2) as [[? ?]|]; [done|]. by rewrite Z.eqb_refl.
  - destruct (rsplit_once [x] (l1 ++ x :: l2)) as [[? ?]|]; done.
Qed.

Lemma rsplit_once_char_None c s : rsplit_once [c] s = None -> c ∉ s.
Proof.
  induction s as [|x s IH]; simpl; [intros _; apply not_elem_of_nil|].
  destruct (rsplit_once [c] s) as [[? ?]|]; [done|].
  destruct (Z.eqb_spec c x); [done|]. intros _. apply not_elem_of_cons. auto.
Qed.

(** What [find] finds. *)
Lemma find_first {A : Type} (P : A -> bool) (l : list A) x : x ∈ l -> P x = true ->
  exists l1 y l2, l = l1 ++ y :: l2 /\ find P l = Some y /\ P y = true /\ Forall (fun z => P z = false) l1.
Proof.
  induction l as [|z l IH]; [by intros ?%elem_of_nil|]. intros Hin Hx. cbn. destruct (P z) eqn:Ez.
  - by exists [], z, l.
  - apply elem_of_cons in Hin as [->|Hin]; [congruence|]. destruct (IH Hin Hx) as (l1 & y & l2 & -> & ? & ? & ?).
    exists (z :: l1), y, l2. split; [done|]. split; [done|]. split; [done|]. by constructor.
Qed.

Lemma split_once_Some p s a b : split_once p s = Some (a, b) -> s = a ++ p ++ b.
Proof.
  revert a. induction s as [|x s IH]; intros a; simpl.
  - destruct (strip_prefix p []) eqn:E; [|done]. intros [= <- <-].
    by apply strip_prefix_Some in E.
  - destruct (strip_prefix p (x :: s)) eqn:E.
    + intros [= <- <-]. by apply strip_prefix_Some in E.
    + destruct (split_once p s) as [[a' b']|]; [|done].
      intros [= <- <-]. by rewrite (IH a') at 1.
Qed.

Lemma split_once_char c a b : c ∉ a -> split_once [c] (a ++ c :: b) = Some (a, b).
Proof.
  induction a as [|x a IH]; intros Hn; simpl; [by rewrite Z.eqb_refl|].
  apply not_elem_of_cons in Hn as [Hx Ha]. rewrite (IH Ha). by destruct (Z.eqb_spec c x).
Qed.

Lemma split_once_char_None c s : split_once [c] s = None <-> c ∉ s.
Proof.
  split.
  - intros H Hin. apply list_elem_of_split_l in Hin as (a & b & -> & Ha).
    by rewrite split_once_char in H.
  - intros Hn. destruct (split_once [c] s) as [[a b]|] eqn:E; [|done].
    apply split_once_Some in E as ->. set_solver.
Qed.

Lemma split_once_char_notin c s a b : split_once [c] s = Some (a, b) -> c ∉ a.
Proof.
  revert a b. induction s as [|x s IH]; intros a b; simpl; [done|].
  destruct (Z.eqb_spec c x) as [->|Hx]; [intros [= <- _]; apply not_elem_of_nil|].
  destruct (split_once [c] s) as [[a' b']|]; [|done]. intros [= <- <-].
  apply not_elem_of_cons. eauto.
Qed.

(** *** Order *)

Lemma bytes_cmp_refl a : bytes_cmp a a = Eq.
Proof. induction a; simpl; [done|]. by rewrite Z.compare_refl. Qed.

Lemma bytes_cmp_eq a b : bytes_cmp a b = Eq <-> a = b.
Proof.
  split; [|intros ->; apply bytes_cmp_refl].
  revert b. induction a as [|x a IH]; intros [|y b]; simpl; try done.
  destruct (Z.compare_spec x y) as [->| |]; [|done..]. intros ?%IH. by subst.
Qed.

Lemma bytes_cmp_app p a b : bytes_cmp (p ++ a) (p ++ b) = bytes_cmp a b.
Proof. induction p; simpl; [done|]. by rewrite Z.compare_refl. Qed.

Lemma bytes_cmp_app_len a b x y :
  length a = length b ->
  bytes_cmp (a ++ x) (b ++ y) = match bytes_cmp a b with Eq => bytes_cmp x y | c => c end.
Proof.
  revert b. induction a as [|u a IH]; intros [|v b] Hl; try done.
  simpl. destruct (Z.compare u v); [|done..]. apply IH. simpl in Hl. lia.
Qed.

Lemma bytes_cmp_antisym a b : bytes_cmp b a = CompOpp (bytes_cmp a b).
Proof.
  revert b. induction a as [|x a IH]; intros [|y b]; simpl; try done.
  rewrite (Z.compare_antisym x y). destruct (Z.compare x y); simpl; [apply IH|done..].
Qed.

#[export] Instance bytes_lt_trans : Transitive bytes_lt.
Proof.
  unfold bytes_lt. intros a b c. revert b c.
  induction a as [|x a IH]; intros [|y b] [|z c]; simpl; try done.
  destruct (Z.compare_spec x y) as [->|Hxy|_]; [| |done].
  - destruct (Z.compare y z); [apply IH|done..].
  - intros _. destruct (Z.compare_spec y z) as [->|Hyz|]; [| |done].
    + intros _. by rewrite (proj2 (Z.compare_lt_iff x z)).
    + intros _. rewrite (proj2 (Z.compare_lt_iff x z)); [done|lia].
Qed.

#[export] Instance bytes_lt_irrefl : Irreflexive bytes_lt.
Proof. intros a Ha. unfold bytes_lt in Ha. by rewrite bytes_cmp_refl in Ha. Qed.

(** *** UTF-8 *)

Definition utf8_pending_ok (p : list (Z * Z)) : Prop :=
  Forall (fun r => (128 <= fst r)%Z) p.

Lemma utf8_lead_pending b p : utf8_lead b = Some p -> utf8_pending_ok p.
Proof.
  unfold utf8_lead, utf8_pending_ok. intros H.
  repeat case_match; simplify_eq; repeat constructor; simpl; lia.
Qed.

(** Around an ASCII byte a string is valid exactly when both sides are: this is
    what makes slicing at a slash safe. *)
Lemma utf8_from_app_ascii p c a b :
  (0 <= c <= 127)%Z -> utf8_pending_ok p ->
  utf8_from p (a ++ c :: b) = (utf8_from p a && utf8_valid b)%bool.
Proof.
  intros Hc. revert p. induction a as [|x a IH]; intros p Hp; simpl.
  - destruct p as [|[lo hi] p].
    + unfold utf8_lead. replace (in_range 0 127 c) with true by (unfold in_range; lia). done.
    + inversion_clear Hp. simpl in *.
      replace (in_range lo hi c) with false by (unfold in_range; lia). done.
  - destruct p as [|[lo hi] p].
    + destruct (utf8_lead x) as [q|] eqn:E; [|done]. apply IH. by eapply utf8_lead_pending.
    + inversion_clear Hp. destruct (in_range lo hi x); [|done]. by apply IH.
Qed.

Lemma utf8_valid_app_ascii c a b :
  (0 <= c <= 127)%Z ->
  utf8_valid (a ++ c :: b) = (utf8_valid a && utf8_valid b)%bool.
Proof. intros. by apply utf8_from_app_ascii; [|constructor]. Qed.

Lemma utf8_valid_ascii a :
  Forall (fun b => (0 <= b <= 127)%Z) a -> utf8_valid a = true.
Proof.
  induction 1 as [|b a Hb Ha IH]; [done|].
  change (b :: a) with ([] ++ b :: a). by rewrite utf8_valid_app_ascii, IH.
Qed.

Lemma from_utf8_valid s : utf8_valid s = true -> from_utf8 s = Some s.
Proof. unfold from_utf8. by intros ->. Qed.

(** *** Positional notation *)

Section Digits.
Context (b : Z) (Hb : (1 < b)%Z).

Definition is_digit (d : Z) : Prop := (0 <= d < b)%Z.

Lemma length_digits n v : length (digits b n v) = n.
Proof. induction n; simpl; auto. Qed.

Lemma digits_ok n v : Forall is_digit (digits b n v).
Proof.
  induction n as [|n IH]; simpl; constructor; [|done].
  unfold is_digit. apply Z.mod_pos_bound. lia.
Qed.

Lemma undigits_app xs ys :
  undigits b (xs ++ ys) = (undigits b xs * b ^ Z.of_nat (length ys) + undigits b ys)%Z.
Proof.
  unfold undigits. rewrite fold_left_app. generalize (fold_left (λ acc d, acc * b + d)%Z xs 0%Z).
  induction ys as [|y ys IH] using rev_ind; intros acc; simpl; [lia|].
  rewrite !fold_left_app, length_app; simpl. rewrite IH.
  rewrite Nat2Z.inj_add, Z.pow_add_r by lia. change (Z.of_nat 1) with 1%Z. lia.
Qed.

Lemma undigits_bound ds :
  Forall is_digit ds -> (0 <= undigits b ds < b ^ Z.of_nat (length ds))%Z.
Proof.
  induction ds as [|x ds IH] using rev_ind; intros H; [done|].
  apply Forall_app in H as [Hds Hx]. inversion_clear Hx.
  rewrite undigits_app, length_app, Nat2Z.inj_add, Z.pow_add_r by lia.
  specialize (IH Hds). unfold is_digit in *. change (undigits b [x]) with x.
  change (Z.of_nat (length [x])) with 1%Z. nia.
Qed.

Lemma digits_app n m v :
  digits b (n + m) v = digits b n (v / b ^ Z.of_nat m)%Z ++ digits b m v.
Proof.
  induction n as [|n IH]; simpl; [done|]. rewrite IH. f_equal.
  rewrite Zdiv.Zdiv_Zdiv by (apply Z.pow_nonneg; lia).
  rewrite <- Z.pow_add_r by lia. do 3 f_equal. lia.
Qed.

Lemma undigits_digits n v : undigits b (digits b n v) = (v mod b ^ Z.of_nat n)%Z.
Proof.
  revert v. induction n as [|n IH]; intros v; [by rewrite Z.mod_1_r|].
  replace (S n) with (n + 1)%nat by lia.
  rewrite digits_app, undigits_app, IH, length_digits.
  change (digits b 1 v) with [(v / 1) mod b]%Z. rewrite Z.div_1_r.
  change (undigits b [v mod b]%Z) with (v mod b)%Z.
  rewrite Nat2Z.inj_add, Z.pow_add_r by lia. change (Z.of_nat 1) with 1%Z.
  rewrite Z.pow_1_r. rewrite (Z.mul_comm (b ^ Z.of_nat n)).
  rewrite Z.rem_mul_r by (try apply Z.pow_pos_nonneg; lia). lia.
Qed.

Lemma digits_undigits ds :
  Forall is_digit ds -> digits b (length ds) (undigits b ds) = ds.
Proof.
  induction ds as [|x ds IH] using rev_ind; intros H; [done|].
  apply Forall_app in H as [Hds Hx]. inversion_clear Hx.
  rewrite length_app, undigits_app, digits_app; simpl.
  change (undigits b [x]) with x. unfold is_digit in *. rewrite !Z.pow_1_r.
  rewrite Z.div_add_l, (Z.div_small x b), Z.add_0_r, IH by (done || lia).
  rewrite Z.div_1_r, Z.add_comm, Z.mod_add, Z.mod_small by lia. done.
Qed.

Lemma digits_mod n v : digits b n v = digits b n (v mod b ^ Z.of_nat n)%Z.
Proof.
  rewrite <- undigits_digits. rewrite <- (length_digits n v) at 2. symmetry.
  apply digits_undigits, digits_ok.
Qed.

(** Digit strings of a fixed width compare as the numbers do. *)
Lemma digits_cmp n x y :
  (0 <= x < b ^ Z.of_nat n)%Z -> (0 <= y < b ^ Z.of_nat n)%Z ->
  bytes_cmp (digits b n x) (digits b n y) = Z.compare x y.
Proof.
  revert x y. induction n as [|n IH]; intros x y Hx Hy.
  - simpl in *. symmetry. apply Z.compare_eq_iff. lia.
  - rewrite Nat2Z.inj_succ, Z.pow_succ_r in Hx, Hy by lia.
    assert (0 < b ^ Z.of_nat n)%Z as Hpos by (apply Z.pow_pos_nonneg; lia).
    cbn [digits]. set (P := (b ^ Z.of_nat n)%Z) in *.
    rewrite (digits_mod n x), (digits_mod n y). fold P.
    pose proof (Z.div_mod x P) as Ex. pose proof (Z.div_mod y P) as Ey.
    pose proof (Z.mod_pos_bound x _ Hpos). pose proof (Z.mod_pos_bound y _ Hpos).
    rewrite !Z.mod_small with (b := b) by
      (split; [apply Z.div_pos; lia|apply Z.div_lt_upper_bound; lia]).
    simpl. destruct (Z.compare_spec (x / P) (y / P)) as [H1|H1|H1].
    + rewrite IH by lia. rewrite Ex, Ey at 2 by lia. rewrite H1. by rewrite Z.add_compare_mono_l.
    + symmetry. apply Z.compare_lt_iff. nia.
    + symmetry. apply Z.compare_gt_iff. nia.
Qed.
End Digits.

Lemma length_to_be n v : length (to_be n v) = n.
Proof. apply length_digits. Qed.

Lemma to_be_bytes n v : Forall is_byte (to_be n v).
Proof. by apply (digits_ok 256). Qed.

Lemma of_be_bound bs :
  Forall is_byte bs -> (0 <= of_be bs < 256 ^ Z.of_nat (length bs))%Z.
Proof. by apply (undigits_bound 256). Qed.

Lemma of_be_to_be n v : (0 <= v < 256 ^ Z.of_nat n)%Z -> of_be (to_be n v) = v.
Proof. intros. unfold of_be, to_be. by rewrite undigits_digits, Z.mod_small. Qed.

Lemma to_be_of_be bs : Forall is_byte bs -> to_be (length bs) (of_be bs) = bs.
Proof. by apply (digits_undigits 256). Qed.

Lemma to_be_cmp n x y :
  (0 <= x < 256 ^ Z.of_nat n)%Z -> (0 <= y < 256 ^ Z.of_nat n)%Z ->
  bytes_cmp (to_be n x) (to_be n y) = Z.compare x y.
Proof. by apply digits_cmp. Qed.


(** Or-ing a small value below a shifted one adds it. *)
Lemma lor_shiftl_add a d k :
  (0 <= k)%Z -> (0 <= d < 2 ^ k)%Z -> Z.lor (Z.shiftl a k) d = (a * 2 ^ k + d)%Z.
Proof.
  intros Hk Hd.
  assert (Z.land (Z.shiftl a k) d = 0)%Z as H0.
  { rewrite <- (Z.mod_small d (2 ^ k)), <- Z.land_ones by lia.
    rewrite (Z.land_comm d), Z.land_assoc, Z.land_ones, Z.shiftl_mul_pow2 by lia.
    rewrite Z.mod_mul, Z.land_0_l; lia. }
  rewrite <- Z.shiftl_mul_pow2 by lia. rewrite <- Z.lxor_lor, Z.add_nocarry_lxor; done.
Qed.

(** [Iterator::position] on a byte table. *)
Fixpoint position (c : Z) (l : bytes) : option nat :=
  match l with
  | [] => None
  | x :: l' => if Z.eqb x c then Some O else S <$> position c l'
  end.

Lemma position_Some c l i : position c l = Some i -> l !! i = Some c.
Proof.
  revert i. induction l as [|x l IH]; intros i; simpl; [done|].
  destruct (Z.eqb_spec x c) as [->|]; [by intros [= <-]|].
  destruct (position c l) as [j|]; simpl; [|done]. intros [= <-]. by apply IH.
Qed.

Lemma position_lookup c l i : NoDup l -> l !! i = Some c -> position c l = Some i.
Proof.
  intros Hnd. revert i. induction Hnd as [|x l Hx Hnd IH]; intros i; [done|].
  destruct i as [|i]; simpl.
  - intros [= ->]. by rewrite Z.eqb_refl.
  - intros Hi. destruct (Z.eqb_spec x c) as [->|].
    + by apply list_elem_of_lookup_2 in Hi.
    + by rewrite (IH _ Hi).
Qed.
