(* ===== verification/BepTypes.v ===== *)
(** Shared data of the protocol and the store: error types
    ([bepository-bep/src/error.rs]), the BEP messages
    ([bepository-bep/proto/bep.proto]), the stored messages
    ([bepository-storage/proto/storage.proto]) and the small pure helpers of
    [bepository-bep/src/storage.rs].

    Protobuf scalars are integers, [string] and [bytes] fields are byte lists,
    [repeated] fields are lists and message-typed fields are options, as in the
    Rust structs prost generates. Error payloads keep the fixed part of the
    message text. *)

From Stdlib Require Import ZArith Lia.
From stdpp Require Import base list strings.
From S2P Require Import Prelude.

Local Open Scope Z_scope.

(** ** Errors *)

Module StorageError.

Inductive t :=
| TransientIo (msg : string)
| Corruption (msg : string)
| UnsupportedVersion (found supported : Z)
| NotFound (msg : string)
| Standby (msg : string)
| InvalidInput (msg : string)
| Internal (msg : string).

Definition is_transient (e : t) : bool :=
  match e with TransientIo _ => true | _ => false end.

Definition is_fatal (e : t) : bool :=
  match e with Corruption _ | Internal _ | UnsupportedVersion _ _ => true | _ => false end.

End StorageError.

Module BepError.

Inductive t :=
| TransientIo (msg : string)
| PeerBadHello (msg : string)
| PeerBadMessage (msg : string)
| PeerError (code : Z) (path : bytes)
| Corruption (msg : string)
| UnsupportedVersion (found supported : Z)
| Internal (msg : string)
| Standby (msg : string)
| PeerClosed (msg : string)
| NetworkError (msg : string)
| WriterClosed
| DeviceRejected.

Definition is_transient (e : t) : bool :=
  match e with TransientIo _ | NetworkError _ => true | _ => false end.

Definition is_fatal (e : t) : bool :=
  match e with Corruption _ | Internal _ | UnsupportedVersion _ _ => true | _ => false end.

Definition is_peer_fault (e : t) : bool :=
  match e with PeerBadHello _ | PeerBadMessage _ | PeerError _ _ => true | _ => false end.

End BepError.

(** ** Wire messages *)

Module bep.

Record Counter := mkCounter {
  id : Z;
  value : Z
}.

#[global] Instance Counter_eq_dec : EqDecision Counter.
Proof. solve_decision. Defined.

Record Vector := mkVector {
  counters : list Counter
}.

#[global] Instance Vector_eq_dec : EqDecision Vector.
Proof. solve_decision. Defined.

Record BlockInfo := mkBlockInfo {
  hash : bytes;
  offset : Z;
  bsize : Z
}.

#[global] Instance BlockInfo_eq_dec : EqDecision BlockInfo.
Proof. solve_decision. Defined.

Record UnixData := mkUnixData {
  unix_owner_name : bytes;
  group_name : bytes;
  uid : Z;
  gid : Z
}.

#[global] Instance UnixData_eq_dec : EqDecision UnixData.
Proof. solve_decision. Defined.

Record WindowsData := mkWindowsData {
  win_owner_name : bytes;
  owner_is_group : bool
}.

#[global] Instance WindowsData_eq_dec : EqDecision WindowsData.
Proof. solve_decision. Defined.

Record Xattr := mkXattr {
  xname : bytes;
  xvalue : bytes
}.

#[global] Instance Xattr_eq_dec : EqDecision Xattr.
Proof. solve_decision. Defined.

Record XattrData := mkXattrData {
  xattrs : list Xattr
}.

#[global] Instance XattrData_eq_dec : EqDecision XattrData.
Proof. solve_decision. Defined.

Record PlatformData := mkPlatformData {
  unix : option UnixData;
  windows : option WindowsData;
  linux : option XattrData;
  darwin : option XattrData;
  freebsd : option XattrData;
  netbsd : option XattrData
}.

#[global] Instance PlatformData_eq_dec : EqDecision PlatformData.
Proof. solve_decision. Defined.

Record FileInfo := mkFileInfo {
  name : bytes;
  size : Z;
  modified_s : Z;
  modified_by : Z;
  version : option Vector;
  sequence : Z;
  blocks : list BlockInfo;
  symlink_target : bytes;
  blocks_hash : bytes;
  previous_blocks_hash : bytes;
  encrypted : bytes;
  type_ : Z;
  permissions : Z;
  modified_ns : Z;
  block_size : Z;
  platform : option PlatformData;
  local_flags : Z;
  version_hash : bytes;
  inode_change_ns : Z;
  encryption_trailer_size : Z;
  deleted : bool;
  invalid : bool;
  no_permissions : bool
}.

#[global] Instance FileInfo_eq_dec : EqDecision FileInfo.
Proof. solve_decision. Defined.

End bep.

(** ** Stored messages *)

Module storage.

Record Counter := mkCounter {
  id : Z;
  value : Z
}.

#[global] Instance Counter_eq_dec : EqDecision Counter.
Proof. solve_decision. Defined.

Record Vector := mkVector {
  counters : list Counter
}.

#[global] Instance Vector_eq_dec : EqDecision Vector.
Proof. solve_decision. Defined.

Record BlockInfo := mkBlockInfo {
  hash : bytes;
  offset : Z;
  bsize : Z;
  blockseq : option Z;
  inline_data : option bytes
}.

#[global] Instance BlockInfo_eq_dec : EqDecision BlockInfo.
Proof. solve_decision. Defined.

Record UnixData := mkUnixData {
  unix_owner_name : bytes;
  group_name : bytes;
  uid : Z;
  gid : Z
}.

#[global] Instance UnixData_eq_dec : EqDecision UnixData.
Proof. solve_decision. Defined.

Record WindowsData := mkWindowsData {
  win_owner_name : bytes;
  owner_is_group : bool
}.

#[global] Instance WindowsData_eq_dec : EqDecision WindowsData.
Proof. solve_decision. Defined.

Record Xattr := mkXattr {
  xname : bytes;
  xvalue : bytes
}.

#[global] Instance Xattr_eq_dec : EqDecision Xattr.
Proof. solve_decision. Defined.

Record XattrData := mkXattrData {
  xattrs : list Xattr
}.

#[global] Instance XattrData_eq_dec : EqDecision XattrData.
Proof. solve_decision. Defined.

Record PlatformData := mkPlatformData {
  unix : option UnixData;
  windows : option WindowsData;
  linux : option XattrData;
  darwin : option XattrData;
  freebsd : option XattrData;
  netbsd : option XattrData
}.

#[global] Instance PlatformData_eq_dec : EqDecision PlatformData.
Proof. solve_decision. Defined.

Record FileInfo := mkFileInfo {
  name : bytes;
  size : Z;
  modified_s : Z;
  modified_by : Z;
  version : option Vector;
  sequence : Z;
  blocks : list BlockInfo;
  symlink_target : bytes;
  blocks_hash : bytes;
  previous_blocks_hash : bytes;
  encrypted : bytes;
  type_ : Z;
  permissions : Z;
  modified_ns : Z;
  block_size : Z;
  platform : option PlatformData;
  local_flags : Z;
  version_hash : bytes;
  inode_change_ns : Z;
  encryption_trailer_size : Z;
  deleted : bool;
  invalid : bool;
  no_permissions : bool
}.

#[global] Instance FileInfo_eq_dec : EqDecision FileInfo.
Proof. solve_decision. Defined.

Record BlockRef := mkBlockRef {
  seqno : Z
}.

#[global] Instance BlockRef_eq_dec : EqDecision BlockRef.
Proof. solve_decision. Defined.

Record FolderIndexMeta := mkFolderIndexMeta {
  max_sequence : Z;
  next_blockseq : option Z
}.

#[global] Instance FolderIndexMeta_eq_dec : EqDecision FolderIndexMeta.
Proof. solve_decision. Defined.

Record RemoteIndexState := mkRemoteIndexState {
  index_id : Z;
  remote_max_sequence : Z
}.

#[global] Instance RemoteIndexState_eq_dec : EqDecision RemoteIndexState.
Proof. solve_decision. Defined.

Record File := mkFile {
  file_info : option FileInfo
}.

#[global] Instance File_eq_dec : EqDecision File.
Proof. solve_decision. Defined.

Record Inbox := mkInbox {
  inbox_file_info : option FileInfo
}.

#[global] Instance Inbox_eq_dec : EqDecision Inbox.
Proof. solve_decision. Defined.

(** Struct update [FileInfo { blocks, ..f }] and friends. *)
Definition set_blocks (f : FileInfo) (bs : list BlockInfo) : FileInfo :=
  mkFileInfo (name f) (size f) (modified_s f) (modified_by f) (version f) (sequence f) bs (symlink_target f) (blocks_hash f) (previous_blocks_hash f) (encrypted f) (type_ f) (permissions f) (modified_ns f) (block_size f) (platform f) (local_flags f) (version_hash f) (inode_change_ns f) (encryption_trailer_size f) (deleted f) (invalid f) (no_permissions f).
Definition set_sequence (f : FileInfo) (q : Z) : FileInfo :=
  mkFileInfo (name f) (size f) (modified_s f) (modified_by f) (version f) q (blocks f) (symlink_target f) (blocks_hash f) (previous_blocks_hash f) (encrypted f) (type_ f) (permissions f) (modified_ns f) (block_size f) (platform f) (local_flags f) (version_hash f) (inode_change_ns f) (encryption_trailer_size f) (deleted f) (invalid f) (no_permissions f).

(** [#[derive(Default)]] of the prost messages the store falls back to. *)
Definition FolderIndexMeta_default : FolderIndexMeta := mkFolderIndexMeta 0 None.
Definition RemoteIndexState_default : RemoteIndexState := mkRemoteIndexState 0 0.

End storage.

(** ** Helpers of [storage.rs] *)

(** Same block list: equal hashes and sizes in order. *)
Definition blocks_equal (a b : bep.FileInfo) : bool :=
  Nat.eqb (length (bep.blocks a)) (length (bep.blocks b)) &&
  forallb (fun p => bool_decide (bep.hash (fst p) = bep.hash (snd p)) &&
                    (bep.bsize (fst p) =? bep.bsize (snd p)))
          (combine (bep.blocks a) (bep.blocks b)).

(** Struct updates the folder operations use on wire files. *)
Definition bep_set_name (f : bep.FileInfo) (n : bytes) : bep.FileInfo :=
  bep.mkFileInfo n (bep.size f) (bep.modified_s f) (bep.modified_by f) (bep.version f) (bep.sequence f) (bep.blocks f) (bep.symlink_target f) (bep.blocks_hash f) (bep.previous_blocks_hash f) (bep.encrypted f) (bep.type_ f) (bep.permissions f) (bep.modified_ns f) (bep.block_size f) (bep.platform f) (bep.local_flags f) (bep.version_hash f) (bep.inode_change_ns f) (bep.encryption_trailer_size f) (bep.deleted f) (bep.invalid f) (bep.no_permissions f).
Definition bep_set_sequence (f : bep.FileInfo) (q : Z) : bep.FileInfo :=
  bep.mkFileInfo (bep.name f) (bep.size f) (bep.modified_s f) (bep.modified_by f) (bep.version f) q (bep.blocks f) (bep.symlink_target f) (bep.blocks_hash f) (bep.previous_blocks_hash f) (bep.encrypted f) (bep.type_ f) (bep.permissions f) (bep.modified_ns f) (bep.block_size f) (bep.platform f) (bep.local_flags f) (bep.version_hash f) (bep.inode_change_ns f) (bep.encryption_trailer_size f) (bep.deleted f) (bep.invalid f) (bep.no_permissions f).

(** [UpdateResult]. *)
Inductive UpdateResult :=
| NeedBlocks (f : bep.FileInfo)
| NoAction
| Applied (f : bep.FileInfo)
| UpdateConcurrent (local remote : bep.FileInfo).

Lemma blocks_equal_spec a b :
  blocks_equal a b = true <->
  Forall2 (fun x y => bep.hash x = bep.hash y /\ bep.bsize x = bep.bsize y)
          (bep.blocks a) (bep.blocks b).
Proof.
  unfold blocks_equal. generalize (bep.blocks a) (bep.blocks b). clear a b.
  intros l. induction l as [|x l IH]; intros [|y l']; simpl.
  - split; [constructor|done].
  - split; [done|]. inversion 1.
  - split; [done|]. inversion 1.
  - rewrite Forall2_cons, <- IH. rewrite !andb_true_iff, bool_decide_eq_true, Z.eqb_eq. tauto.
Qed.
