(* ===== verification/Base32.v ===== *)
(** Crockford Base32 and lock epochs
    ([bepository-lock/src/base32.rs], [bepository-lock/src/epoch.rs]).

    Epochs name the lock files, the meta files and the inbox keys; everything
    that orders epochs by their names relies on the encoding being injective,
    of fixed width and order preserving. *)

From Stdlib Require Import ZArith Lia.
From stdpp Require Import base list strings.
From S2P Require Import Prelude.

Local Open Scope Z_scope.
Local Open Scope bep_scope.

Module Base32.

Definition ALPHABET : bytes := lit "0123456789ABCDEFGHJKMNPQRSTVWXYZ".

Definition MAX_VAL : Z := Z.shiftl 1 40 - 1.

Inductive Base32Error := Overflow (val : Z).

(** The loop of [to_base32]: push the low five bits, shift, [n] times. The
    index is below 32, so the table access cannot fail. *)
Fixpoint push_digits (n : nat) (val : Z) : bytes :=
  match n with
  | O => []
  | S n' => nth (Z.to_nat (Z.land val 31)) ALPHABET 0 :: push_digits n' (Z.shiftr val 5)
  end.

Definition to_base32 (val : Z) : result Base32Error bytes :=
  if val >? MAX_VAL then Err (Overflow val) else Ok (rev (push_digits 8 val)).

(** The loop of [from_base32] over the characters, on a [u64] accumulator. *)
Fixpoint decode_digits (val : Z) (s : bytes) : option Z :=
  match s with
  | [] => Some val
  | c :: s' =>
      match position c ALPHABET with
      | Some idx => decode_digits (Z.lor (wrap_u64 (Z.shiftl val 5)) (Z.of_nat idx)) s'
      | None => None
      end
  end.

Definition from_base32 (s : bytes) : option Z :=
  let s := match strip_suffix (lit ".json") s with Some r => r | None => s end in
  if negb (Nat.eqb (length s) 8) then None else decode_digits 0 s.

(** [struct Epoch]: the number and its cached encoding. *)
Record Epoch := mkEpoch { val : Z; base32 : bytes }.

#[global] Instance Epoch_eq_dec : EqDecision Epoch.
Proof. solve_decision. Defined.

Definition new (v : Z) : result Base32Error Epoch :=
  try s <- to_base32 v; Ok (mkEpoch v s).

(** [Epoch::parse]; its [expect] cannot fire (see [parse_expect]). *)
Definition parse (s : bytes) : option Epoch :=
  match from_base32 s with
  | Some v => ok (new v)
  | None => None
  end.

Definition as_u64 (e : Epoch) : Z := val e.
Definition as_base32 (e : Epoch) : bytes := base32 e.
Definition json_filename (e : Epoch) : bytes := as_base32 e ++ lit ".json".

(** [impl Ord for Epoch]. *)
Definition cmp (a b : Epoch) : comparison := Z.compare (val a) (val b).
Definition epoch_ltb (a b : Epoch) : bool := val a <? val b.

(** An epoch that [new] built. *)
Definition wf (e : Epoch) : Prop := new (val e) = Ok e.

(** ** Lemmas *)

Lemma ALPHABET_NoDup : NoDup ALPHABET.
Proof. apply (bool_decide_unpack _). by vm_compute. Qed.

Definition digit_char (d : Z) : Z := nth (Z.to_nat d) ALPHABET 0.

Lemma digit_char_lookup d :
  0 <= d < 32 -> ALPHABET !! Z.to_nat d = Some (digit_char d).
Proof.
  intros. unfold digit_char. rewrite nth_lookup.
  destruct (lookup_lt_is_Some_2 ALPHABET (Z.to_nat d)) as [x Hx]; [vm_compute length; lia|].
  by rewrite Hx.
Qed.

Lemma digit_position d : 0 <= d < 32 -> position (digit_char d) ALPHABET = Some (Z.to_nat d).
Proof. intros. apply position_lookup; [apply ALPHABET_NoDup|by apply digit_char_lookup]. Qed.

Lemma position_digit c i :
  position c ALPHABET = Some i -> c = digit_char (Z.of_nat i) /\ (i < 32)%nat.
Proof.
  intros Hc%position_Some. apply lookup_lt_Some in Hc as Hlt.
  change (length ALPHABET) with 32%nat in Hlt. split; [|done].
  pose proof (digit_char_lookup (Z.of_nat i)) as H. rewrite Nat2Z.id in H.
  rewrite H in Hc by lia. congruence.
Qed.

(** The alphabet is sorted, so characters compare as the digits they encode. *)
Lemma digit_char_cmp a b :
  0 <= a < 32 -> 0 <= b < 32 -> Z.compare (digit_char a) (digit_char b) = Z.compare a b.
Proof.
  intros Ha Hb.
  assert (forallb (fun i => forallb (fun j =>
            bool_decide (Z.compare (digit_char (Z.of_nat i)) (digit_char (Z.of_nat j))
                         = Z.compare (Z.of_nat i) (Z.of_nat j))) (seq 0 32)) (seq 0 32) = true)
    as H by by vm_compute.
  rewrite forallb_forall in H. specialize (H (Z.to_nat a)).
  rewrite forallb_forall in H.
  specialize (H ltac:(apply in_seq; lia) (Z.to_nat b) ltac:(apply in_seq; lia)).
  apply bool_decide_eq_true in H. by rewrite !Z2Nat.id in H by lia.
Qed.

Lemma digit_char_ascii d : 0 <= d < 32 -> 0 <= digit_char d <= 127 /\ digit_char d <> SLASH.
Proof.
  intros Hd.
  assert (Forall (fun c => 0 <= c <= 127 /\ c <> SLASH) ALPHABET) as H.
  { apply (bool_decide_unpack _). by vm_compute. }
  rewrite Forall_lookup in H. eapply H. by apply digit_char_lookup.
Qed.

(** [push_digits] yields the base-32 digits, least significant first. *)
Lemma push_digits_digits n v :
  0 <= v -> rev (push_digits n v) = map digit_char (digits 32 n v).
Proof.
  revert v. induction n as [|n IH]; intros v Hv; [done|].
  replace (S n) with (n + 1)%nat at 2 by lia.
  rewrite (digits_app 32 ltac:(lia)), map_app. cbn [push_digits rev].
  rewrite IH by (apply Z.shiftr_nonneg; lia). f_equal.
  - rewrite Z.shiftr_div_pow2 by lia. change (Z.of_nat 1) with 1. by rewrite Z.pow_1_r.
  - simpl. rewrite Z.div_1_r. change 31 with (Z.ones 5). by rewrite Z.land_ones by lia.
Qed.

(** [decode_digits] accumulates digits in base 32 while they fit in 64 bits. *)
Lemma decode_digits_spec ds acc :
  Forall (is_digit 32) ds -> 0 <= acc -> (acc + 1) * 32 ^ Z.of_nat (length ds) <= 2 ^ 64 ->
  decode_digits acc (map digit_char ds) = Some (acc * 32 ^ Z.of_nat (length ds) + undigits 32 ds).
Proof.
  intros Hds. revert acc. induction Hds as [|d ds Hd Hds IH]; intros acc Hacc Hlt.
  - simpl. f_equal. change (undigits 32 []) with 0. lia.
  - cbn [map decode_digits length] in *. unfold is_digit in Hd.
    rewrite digit_position by done. rewrite Z2Nat.id by lia.
    rewrite Nat2Z.inj_succ, Z.pow_succ_r in Hlt |- * by lia.
    assert (0 < 32 ^ Z.of_nat (length ds)) by (apply Z.pow_pos_nonneg; lia).
    assert (Z.shiftl acc 5 < 2 ^ 64) by (rewrite Z.shiftl_mul_pow2 by lia; nia).
    unfold wrap_u64. rewrite Z.mod_small by (split; [apply Z.shiftl_nonneg|]; lia).
    rewrite lor_shiftl_add by (simpl; lia). change (2 ^ 5) with 32.
    rewrite IH by nia. f_equal.
    change (d :: ds) with ([d] ++ ds). rewrite undigits_app by lia.
    change (undigits 32 [d]) with d. nia.
Qed.

Lemma decode_digits_inv s acc v :
  decode_digits acc s = Some v ->
  exists ds, s = map digit_char ds /\ Forall (is_digit 32) ds.
Proof.
  revert acc. induction s as [|c s IH]; intros acc; cbn [decode_digits]; [by exists []|].
  destruct (position c ALPHABET) as [i|] eqn:E; [|done]. intros (ds & -> & Hds)%IH.
  apply position_digit in E as [-> Hi]. exists (Z.of_nat i :: ds).
  split; [done|]. constructor; [unfold is_digit; lia|done].
Qed.

Lemma to_base32_digits v :
  0 <= v <= MAX_VAL -> to_base32 v = Ok (map digit_char (digits 32 8 v)).
Proof.
  intros Hv. unfold to_base32.
  destruct (Z.gtb_spec v MAX_VAL); [lia|]. by rewrite push_digits_digits by lia.
Qed.

Lemma to_base32_Ok v s :
  0 <= v -> to_base32 v = Ok s -> v <= MAX_VAL /\ s = map digit_char (digits 32 8 v).
Proof.
  intros Hv H. assert (v <= MAX_VAL) as Hle.
  { revert H. unfold to_base32. destruct (Z.gtb_spec v MAX_VAL); [done|lia]. }
  split; [done|]. rewrite to_base32_digits in H by done. congruence.
Qed.

Lemma length_to_base32 v s : 0 <= v -> to_base32 v = Ok s -> length s = 8%nat.
Proof. intros Hv [_ ->]%to_base32_Ok; [|done]. by rewrite length_map, length_digits. Qed.

Lemma to_base32_chars v s :
  0 <= v -> to_base32 v = Ok s -> Forall (fun c => 0 <= c <= 127 /\ c <> SLASH) s.
Proof.
  intros Hv [_ ->]%to_base32_Ok; [|done]. apply Forall_map.
  eapply Forall_impl; [apply (digits_ok 32); lia|]. intros d Hd. by apply digit_char_ascii.
Qed.

Lemma max_val_eq : MAX_VAL + 1 = 32 ^ Z.of_nat 8.
Proof. done. Qed.

(** A canonical encoding does not end in [".json"] (it is too short after the
    suffix, or has no dot). *)
Lemma strip_json_canonical s :
  length s = 8%nat -> Forall (fun c => c <> 46) s -> strip_suffix (lit ".json") s = None.
Proof.
  intros Hlen Hdot. destruct (strip_suffix _ s) as [r|] eqn:E; [|done].
  apply strip_suffix_Some in E. subst s. apply Forall_app in Hdot as [_ Hdot].
  inversion_clear Hdot. done.
Qed.

Lemma digit_char_not_dot d : 0 <= d < 32 -> digit_char d <> 46.
Proof.
  intros Hd. assert (Forall (fun c => c <> 46) ALPHABET) as H.
  { apply (bool_decide_unpack _). by vm_compute. }
  rewrite Forall_lookup in H. eapply H. by apply digit_char_lookup.
Qed.

Lemma decode_canonical v :
  0 <= v <= MAX_VAL -> decode_digits 0 (map digit_char (digits 32 8 v)) = Some v.
Proof.
  intros Hv. rewrite decode_digits_spec by (done || apply digits_ok; lia).
  rewrite undigits_digits by lia. rewrite Z.mod_small by (rewrite <- max_val_eq; lia). done.
Qed.

(** [from_base32] on an encoding, bare or as a file name. *)
Lemma from_base32_encoded v s :
  0 <= v -> to_base32 v = Ok s ->
  from_base32 s = Some v /\ from_base32 (s ++ lit ".json") = Some v.
Proof.
  intros Hv Hs. pose proof (length_to_base32 v s Hv Hs) as Hlen.
  apply to_base32_Ok in Hs as [Hmax ->]; [|done]. unfold from_base32. split.
  - rewrite strip_json_canonical; [|done|].
    + rewrite Hlen. by apply decode_canonical.
    + apply Forall_map. eapply Forall_impl; [apply (digits_ok 32); lia|].
      intros d Hd. by apply digit_char_not_dot.
  - rewrite (proj2 (strip_suffix_Some _ _ _) eq_refl). rewrite Hlen.
    by apply decode_canonical.
Qed.

(** Whatever [from_base32] accepts is the canonical encoding of its value, with
    or without the suffix. *)
Lemma from_base32_canonical s v :
  from_base32 s = Some v ->
  0 <= v <= MAX_VAL /\ exists e, to_base32 v = Ok e /\ (s = e \/ s = e ++ lit ".json").
Proof.
  unfold from_base32. intros H.
  set (s' := match strip_suffix (lit ".json") s with Some r => r | None => s end) in *.
  assert (s = s' \/ s = s' ++ lit ".json") as Hs.
  { subst s'. destruct (strip_suffix _ s) as [r|] eqn:E; [|by left].
    apply strip_suffix_Some in E. by right. }
  clearbody s'. destruct (Nat.eqb_spec (length s') 8) as [Hlen|]; [|done]. simpl in H.
  destruct (decode_digits_inv _ _ _ H) as (ds & -> & Hds). rewrite length_map in Hlen.
  rewrite decode_digits_spec in H by (done || rewrite Hlen; done). injection H as <-.
  pose proof (undigits_bound 32 ltac:(lia) ds Hds) as Hb. rewrite Hlen in Hb.
  assert (0 <= undigits 32 ds <= MAX_VAL) as Hv by (pose proof max_val_eq; lia).
  rewrite Z.add_0_l. split; [done|]. eexists. split; [by apply to_base32_digits|].
  rewrite <- Hlen, digits_undigits by (done || lia). done.
Qed.

(** The [expect] of [Epoch::parse] cannot fire. *)
Lemma parse_expect s v : from_base32 s = Some v -> exists e, new v = Ok e.
Proof.
  intros (? & e & He & _)%from_base32_canonical. unfold new. rewrite He. simpl. by eexists.
Qed.

Lemma new_Ok v e :
  new v = Ok e <-> val e = v /\ to_base32 v = Ok (base32 e).
Proof.
  unfold new. destruct (to_base32 v) as [s|]; simpl; [|split; [done|intros [_ ?]; done]].
  destruct e as [v' s']; simpl. split; [by intros [= -> ->]|by intros [-> [= ->]]].
Qed.

Lemma wf_new v e : new v = Ok e -> wf e.
Proof. intros H. unfold wf. apply new_Ok in H as H'. destruct H' as [-> _]. done. Qed.

Lemma parse_wf s e : parse s = Some e -> wf e /\ 0 <= val e <= MAX_VAL.
Proof.
  unfold parse. destruct (from_base32 s) as [v|] eqn:E; [|done].
  destruct (new v) as [e0|] eqn:Hn; simpl; [|done]. intros [= <-].
  apply from_base32_canonical in E as [Hv _]. split; [by eapply wf_new|].
  apply new_Ok in Hn as [-> _]. done.
Qed.

Lemma wf_base32 e : wf e -> to_base32 (val e) = Ok (base32 e).
Proof. intros [_ H]%new_Ok. done. Qed.

Lemma parse_base32 e : 0 <= val e -> wf e -> parse (base32 e) = Some e.
Proof.
  intros Hv Hwf. pose proof (wf_base32 e Hwf) as Hb.
  destruct (from_base32_encoded _ _ Hv Hb) as [H _]. unfold parse. rewrite H.
  unfold wf in Hwf. by rewrite Hwf.
Qed.

Lemma wf_eq_val a b : wf a -> wf b -> val a = val b -> a = b.
Proof. unfold wf. intros Ha Hb Hv. rewrite Hv in Ha. congruence. Qed.

(** Encodings compare as the epochs do. *)
Lemma base32_cmp a b sa sb :
  0 <= a -> 0 <= b -> to_base32 a = Ok sa -> to_base32 b = Ok sb ->
  bytes_cmp sa sb = Z.compare a b.
Proof.
  intros Ha Hb [Hma ->]%to_base32_Ok [Hmb ->]%to_base32_Ok; [|done..].
  rewrite <- (digits_cmp 32 ltac:(lia) 8) by (rewrite <- max_val_eq; lia).
  pose proof (digits_ok 32 ltac:(lia) 8 a) as Da.
  pose proof (digits_ok 32 ltac:(lia) 8 b) as Db.
  revert Db. generalize (digits 32 8 b). induction Da as [|x l Hx _ IH]; intros l' Db.
  - by destruct l'.
  - destruct Db as [|y l' Hy Db]; [done|]. simpl. rewrite digit_char_cmp by done.
    destruct (Z.compare x y); [by apply IH|done..].
Qed.

(** ** Properties *)

(** Epoch names round trip. The epoch built from any value that fits in 40
    bits is parsed back from its eight characters and from its file name, and a
    larger value is refused with [Overflow]. *)
Theorem epoch_roundtrip (v : Z) (Hv : 0 <= v) :
  (v <= MAX_VAL ->
   exists e, new v = Ok e /\ as_u64 e = v /\ length (as_base32 e) = 8%nat /\
     parse (as_base32 e) = Some e /\ parse (json_filename e) = Some e) /\
  (MAX_VAL < v -> new v = Err (Overflow v)).
Proof.
  split; intros Hm.
  - pose proof (to_base32_digits v ltac:(lia)) as Hs.
    assert (new v = Ok (mkEpoch v (map digit_char (digits 32 8 v)))) as Hn
      by (apply new_Ok; done).
    destruct (from_base32_encoded _ _ Hv Hs) as [H1 H2].
    eexists. split; [exact Hn|]. split; [done|].
    split; [done|].
    unfold parse, json_filename, as_base32; cbn [base32]. by rewrite H1, H2, Hn.
  - unfold new, to_base32. destruct (Z.gtb_spec v MAX_VAL); [done|lia].
Qed.

Lemma epoch_roundtrip_witness :
  0 <= 42 /\ exists e, new 42 = Ok e /\ as_u64 e = 42 /\ length (as_base32 e) = 8%nat /\
     parse (as_base32 e) = Some e /\ parse (json_filename e) = Some e.
Proof. split; [lia|]. apply (epoch_roundtrip 42 ltac:(lia)). vm_compute. discriminate. Defined.

(** What [Epoch::parse] accepts. A string parses to an epoch exactly when
    it is that epoch's eight characters or its file name; so two file names
    never denote the same epoch and every parsed epoch fits in 40 bits. *)
Theorem epoch_parse_canonical (s : bytes) (e : Epoch) :
  parse s = Some e <->
  wf e /\ 0 <= as_u64 e <= MAX_VAL /\ (s = as_base32 e \/ s = json_filename e).
Proof.
  split.
  - intros H. destruct (parse_wf _ _ H) as [Hwf Hv]. split; [done|]. split; [done|].
    unfold parse in H. destruct (from_base32 s) as [v|] eqn:E; [|done].
    apply from_base32_canonical in E as (_ & b & Hb & Hs).
    destruct (new v) as [e'|] eqn:Hn; simpl in H; [|done]. injection H as <-.
    apply new_Ok in Hn as [_ Hn]. rewrite Hn in Hb. injection Hb as <-. done.
  - intros (Hwf & Hv & Hs). pose proof (wf_base32 e Hwf) as Hb.
    destruct (from_base32_encoded _ _ (proj1 Hv) Hb) as [H1 H2].
    unfold parse, json_filename, as_base32, as_u64 in *.
    unfold wf in Hwf. destruct Hs as [->| ->]; [rewrite H1|rewrite H2]; by rewrite Hwf.
Qed.

(** Names order as epochs. Sorting epoch file names (or encodings)
    lexicographically sorts the epochs numerically, which is what listing the
    lock directory and picking the newest meta file rely on. *)
Theorem epoch_names_ordered (a b : Epoch)
  (Ha : wf a) (Hb : wf b) (Hva : 0 <= as_u64 a) (Hvb : 0 <= as_u64 b) :
  bytes_cmp (as_base32 a) (as_base32 b) = cmp a b /\
  bytes_cmp (json_filename a) (json_filename b) = cmp a b.
Proof.
  assert (bytes_cmp (base32 a) (base32 b) = cmp a b) as H.
  { apply base32_cmp; [done|done|by apply wf_base32..]. }
  split; [done|]. unfold json_filename, as_base32. rewrite bytes_cmp_app_len.
  - rewrite H, bytes_cmp_refl. by destruct (cmp a b).
  - by rewrite (length_to_base32 (val a)), (length_to_base32 (val b)) by (done || by apply wf_base32).
Qed.

Lemma epoch_names_ordered_witness :
  exists a b, new 31 = Ok a /\ new 32 = Ok b /\
    bytes_cmp (json_filename a) (json_filename b) = Lt.
Proof.
  eexists (mkEpoch 31 (lit "0000000Z")), (mkEpoch 32 (lit "00000010")).
  split; [by vm_compute|]. split; [by vm_compute|].
  rewrite (proj2 (epoch_names_ordered (mkEpoch 31 (lit "0000000Z")) (mkEpoch 32 (lit "00000010"))
    ltac:(by vm_compute) ltac:(by vm_compute) ltac:(by vm_compute) ltac:(by vm_compute))).
  by vm_compute.
Defined.

End Base32.
