(* ===== verification/StoreKeys.v ===== *)
(** Key layout of the per-folder database
    ([bepository-storage/src/store_keys.rs]): encoders, parsers, the segment and
    filter prefix extractors, and the facts the store relies on: logical keys
    never collide, every parser inverts its encoder and rejects the other
    classes, and the encodings of sequence numbers and epochs sort as the
    numbers do. *)

From Stdlib Require Import ZArith Lia.
From stdpp Require Import base list strings.
From S2P Require Import Prelude BepTypes Base32.

Local Open Scope Z_scope.
Local Open Scope bep_scope.

Module StoreKeys.

Definition HASH_LEN : nat := 32.
Definition DEVID_LEN : nat := 32.
Definition INLINE_BLOCK_THRESHOLD : Z := 4096.

(** [is_inline_block]: a negative [i32] does not convert to [u32]. *)
Definition is_inline_block (size : Z) : bool :=
  (0 <=? size) && (size <? INLINE_BLOCK_THRESHOLD).

Definition FILE_PREFIX : bytes := lit "mn".
Definition SEQ_PREFIX : bytes := lit "ms".
Definition BLOCK_PREFIX : bytes := lit "mb".
Definition BLOCK_REV_PREFIX : bytes := lit "mr".
Definition IX_KEY : bytes := lit "mx".
Definition DEVICE_PREFIX : bytes := lit "md".
Definition INBOX_PREFIX : bytes := lit "mi".
Definition BLOCK_DATA_PREFIX : bytes := lit "bd".
Definition BLOCK_SEGMENT_PREFIX : bytes := lit "b".
Definition METADATA_SEGMENT_PREFIX : bytes := lit "m".

(** ** Names *)

Definition split_name (name : bytes) : bytes * bytes :=
  match rsplit_once [SLASH] name with Some p => p | None => ([], name) end.

Definition dirname (name : bytes) : bytes := fst (split_name name).

Definition join_name (dir basename : bytes) : bytes :=
  match dir with
  | [] => basename
  | _ :: _ => dir ++ [SLASH] ++ basename
  end.

(** ** File keys: mn<dir>//<basename> *)

Definition file_key (name : bytes) : bytes :=
  let '(dir, basename) := split_name name in
  FILE_PREFIX ++ dir ++ lit "//" ++ basename.

Definition parse_file_key (key : bytes) : option bytes :=
  rest ← strip_prefix FILE_PREFIX key;
  s ← from_utf8 rest;
  '(dir, basename) ← rsplit_once (lit "//") s;
  Some (join_name dir basename).

Definition file_key_dir (key : bytes) : option bytes :=
  rest ← strip_prefix FILE_PREFIX key;
  s ← from_utf8 rest;
  '(dir, _) ← rsplit_once (lit "//") s;
  Some dir.

(** ** Sequence keys: ms<seq_be8> *)

Definition SEQ_KEY_LEN : nat := 10.

Definition seq_key (seq : Z) : result StorageError.t bytes :=
  if seq <? 0
  then Err (StorageError.Internal "sequence numbers must be non-negative")
  else Ok (SEQ_PREFIX ++ to_be 8 seq).

Definition parse_seq_key (key : bytes) : option Z :=
  if (negb (Nat.eqb (length key) SEQ_KEY_LEN) || negb (starts_with SEQ_PREFIX key))%bool
  then None
  else Some (of_be (take 8 (drop 2 key))).

Definition SEQ_SCAN_END : bytes := lit "mt".

Definition seq_scan_start (since : Z) : result StorageError.t bytes :=
  try next <- ok_or (checked_add_i64 since 1) (StorageError.Internal "sequence number overflow scanning past");
  seq_key next.

(** ** Block keys *)

(** mb<dir>/<hash_32> *)
Definition block_pointer_key (dir hash : bytes) : bytes :=
  BLOCK_PREFIX ++ dir ++ [SLASH] ++ hash.

Definition BLOCK_DATA_KEY_LEN : nat := 10.

(** bd<blockseq_be8> *)
Definition block_data_seq_key (seq : Z) : bytes := BLOCK_DATA_PREFIX ++ to_be 8 seq.

Definition MIN_BLOCK_SEQ : Z := 1024.

Definition validate_block_seq (seq : Z) : result StorageError.t unit :=
  if seq <? MIN_BLOCK_SEQ
  then Err (StorageError.Corruption "invalid block sequence number")
  else Ok tt.

Definition parse_block_data_seq_key (key : bytes) : option Z :=
  if (negb (Nat.eqb (length key) BLOCK_DATA_KEY_LEN) || negb (starts_with BLOCK_DATA_PREFIX key))%bool
  then None
  else
    let seq := of_be (take 8 (drop 2 key)) in
    if seq <? MIN_BLOCK_SEQ then None else Some seq.

(** mr<hash_32>/<dir>//<basename> *)
Definition block_reverse_key (hash name : bytes) : bytes :=
  let '(dir, basename) := split_name name in
  BLOCK_REV_PREFIX ++ hash ++ [SLASH] ++ dir ++ lit "//" ++ basename.

Definition block_reverse_prefix (hash : bytes) : bytes :=
  BLOCK_REV_PREFIX ++ hash ++ [SLASH].

Definition parse_block_reverse_key (key : bytes) : option (bytes * bytes) :=
  rest ← strip_prefix BLOCK_REV_PREFIX key;
  if Nat.ltb (length rest) (HASH_LEN + 1) then None else
  let hash := take HASH_LEN rest in
  if negb (nth HASH_LEN rest 0 =? SLASH) then None else
  s ← from_utf8 (drop (HASH_LEN + 1) rest);
  '(dir, basename) ← rsplit_once (lit "//") s;
  Some (hash, join_name dir basename).

Definition parse_block_pointer_key (key : bytes) : option bytes :=
  if (Nat.ltb (length key) (length BLOCK_PREFIX + 1 + HASH_LEN) || negb (starts_with BLOCK_PREFIX key))%bool
  then None
  else if negb (nth (length key - HASH_LEN - 1) key 0 =? SLASH) then None
  else Some (drop (length key - HASH_LEN) key).

Definition block_key_dir (key : bytes) : option bytes :=
  if negb (starts_with BLOCK_PREFIX key) then None else
  let suffix_len := (1 + HASH_LEN)%nat in
  let prefix_len := length BLOCK_PREFIX in
  if Nat.ltb (length key) (prefix_len + suffix_len) then None else
  let dir_end := (length key - suffix_len)%nat in
  from_utf8 (take (dir_end - prefix_len) (drop prefix_len key)).

(** ** Inbox and device keys *)

Definition EPOCH_BASE32_LEN : nat := 8.

(** mi<epoch_base32>/<dir>//<basename> *)
Definition inbox_key (epoch : Base32.Epoch) (name : bytes) : bytes :=
  let '(dir, basename) := split_name name in
  INBOX_PREFIX ++ Base32.as_base32 epoch ++ [SLASH] ++ dir ++ lit "//" ++ basename.

Definition parse_inbox_key (key : bytes) : option (Base32.Epoch * bytes) :=
  rest ← strip_prefix INBOX_PREFIX key;
  if Nat.ltb (length rest) (EPOCH_BASE32_LEN + 1) then None else
  epoch_str ← from_utf8 (take EPOCH_BASE32_LEN rest);
  epoch ← Base32.parse epoch_str;
  if negb (nth EPOCH_BASE32_LEN rest 0 =? SLASH) then None else
  s ← from_utf8 (drop (EPOCH_BASE32_LEN + 1) rest);
  '(dir, basename) ← rsplit_once (lit "//") s;
  Some (epoch, join_name dir basename).

Definition DEVICE_KEY_LEN : nat := 34.

(** md<devid_32> *)
Definition device_key (devid : bytes) : bytes := DEVICE_PREFIX ++ devid.

(** ** Prefix extractors *)

Definition BR_FILTER_PREFIX_LEN : nat := length BLOCK_REV_PREFIX + HASH_LEN.

(** [BrPrefixExtractor::prefix_len]. *)
Definition br_prefix_len (key : bytes) : option nat :=
  if (Nat.leb BR_FILTER_PREFIX_LEN (length key) && starts_with BLOCK_REV_PREFIX key)%bool
  then Some BR_FILTER_PREFIX_LEN else None.

(** [BepSegmentExtractor::prefix_len]. *)
Definition segment_prefix_len (key : bytes) : option nat :=
  match key with
  | c :: _ => if (c =? 98) || (c =? 109) then Some 1%nat else None
  | [] => None
  end.

(** ** Logical keys *)

(** The classes of keys the store writes. *)
Inductive Key :=
| KFile (name : bytes)
| KSeq (seq : Z)
| KPointer (dir hash : bytes)
| KData (seq : Z)
| KReverse (hash name : bytes)
| KInbox (epoch : Base32.Epoch) (name : bytes)
| KDevice (devid : bytes)
| KIx.

#[global] Instance Key_eq_dec : EqDecision Key.
Proof. solve_decision. Defined.

(** Names the store accepts: valid UTF-8 and not absolute (the file name
    validation of the folder API implies both). *)
Definition name_ok (n : bytes) : Prop :=
  utf8_valid n = true /\ starts_with [SLASH] n = false.

Definition epoch_ok (e : Base32.Epoch) : Prop :=
  Base32.wf e /\ 0 <= Base32.as_u64 e <= Base32.MAX_VAL.

Definition u64_ok (v : Z) : Prop := 0 <= v < 2 ^ 64.

Definition key_ok (k : Key) : Prop :=
  match k with
  | KFile n => name_ok n
  | KSeq q => u64_ok q
  | KPointer _ h => length h = HASH_LEN
  | KData q => u64_ok q
  | KReverse h n => length h = HASH_LEN /\ name_ok n
  | KInbox e n => epoch_ok e /\ name_ok n
  | KDevice d => length d = DEVID_LEN
  | KIx => True
  end.

Definition encode_key (k : Key) : bytes :=
  match k with
  | KFile n => file_key n
  | KSeq q => SEQ_PREFIX ++ to_be 8 q
  | KPointer d h => block_pointer_key d h
  | KData q => block_data_seq_key q
  | KReverse h n => block_reverse_key h n
  | KInbox e n => inbox_key e n
  | KDevice d => device_key d
  | KIx => IX_KEY
  end.

(** ** Lemmas on names *)

(** The name part shared by the file, reverse and inbox keys. *)
Definition path_of (name : bytes) : bytes :=
  let '(dir, basename) := split_name name in dir ++ lit "//" ++ basename.

Definition parse_path (s : bytes) : option bytes :=
  s ← from_utf8 s;
  '(dir, basename) ← rsplit_once (lit "//") s;
  Some (join_name dir basename).

Lemma file_key_path n : file_key n = FILE_PREFIX ++ path_of n.
Proof. unfold file_key, path_of. by destruct (split_name n). Qed.

Lemma block_reverse_key_path h n :
  block_reverse_key h n = block_reverse_prefix h ++ path_of n.
Proof.
  unfold block_reverse_key, block_reverse_prefix, path_of. destruct (split_name n).
  by rewrite <- !app_assoc.
Qed.

Lemma inbox_key_path e n :
  inbox_key e n = INBOX_PREFIX ++ Base32.as_base32 e ++ [SLASH] ++ path_of n.
Proof. unfold inbox_key, path_of. by destruct (split_name n). Qed.

Lemma split_name_basename n : SLASH ∉ snd (split_name n).
Proof.
  unfold split_name. destruct (rsplit_once [SLASH] n) as [[a b]|] eqn:E; simpl.
  - by eapply rsplit_once_char_notin.
  - by apply rsplit_once_char_None.
Qed.

Lemma join_split n :
  starts_with [SLASH] n = false -> join_name (fst (split_name n)) (snd (split_name n)) = n.
Proof.
  intros Hn. unfold split_name. destruct (rsplit_once [SLASH] n) as [[a b]|] eqn:E; [|done].
  apply rsplit_once_Some in E. subst n. destruct a as [|x a]; [|done].
  change ([] ++ [SLASH] ++ b) with ([SLASH] ++ b) in Hn. by rewrite starts_with_app in Hn.
Qed.

Lemma split_name_utf8 n :
  utf8_valid n = true ->
  utf8_valid (fst (split_name n)) = true /\ utf8_valid (snd (split_name n)) = true.
Proof.
  intros Hn. unfold split_name. destruct (rsplit_once [SLASH] n) as [[a b]|] eqn:E; [|done].
  apply rsplit_once_Some in E. subst n. simpl in Hn |- *.
  rewrite utf8_valid_app_ascii in Hn by (unfold SLASH; lia). by apply andb_true_iff.
Qed.

Lemma path_of_utf8 n : utf8_valid n = true -> utf8_valid (path_of n) = true.
Proof.
  intros Hn. apply split_name_utf8 in Hn. unfold path_of. destruct (split_name n) as [d b].
  change (lit "//" ++ b) with (SLASH :: [] ++ SLASH :: b). simpl in Hn.
  rewrite !utf8_valid_app_ascii by (unfold SLASH; lia). by rewrite (proj1 Hn), (proj2 Hn).
Qed.

Lemma path_of_split n : rsplit_once (lit "//") (path_of n) = Some (split_name n).
Proof.
  pose proof (split_name_basename n) as Hb. unfold path_of. destruct (split_name n) as [d b].
  by apply rsplit_once_double.
Qed.

Lemma parse_path_of n : name_ok n -> parse_path (path_of n) = Some n.
Proof.
  intros [Hu Hs]. unfold parse_path. rewrite from_utf8_valid by by apply path_of_utf8.
  simpl. rewrite path_of_split. pose proof (join_split n Hs) as Hj.
  destruct (split_name n) as [d b]; simpl in *. by rewrite Hj.
Qed.

Lemma path_of_inj m n : name_ok m -> name_ok n -> path_of m = path_of n -> m = n.
Proof.
  intros Hm Hn E. apply (f_equal parse_path) in E.
  rewrite !parse_path_of in E by done. congruence.
Qed.

(** ** Lemmas on parsers *)

Ltac key_len :=
  rewrite ?length_app, ?length_to_be;
  change (length BLOCK_PREFIX) with 2%nat; change (length [SLASH]) with 1%nat;
  unfold HASH_LEN in *; cbn [length]; lia.

Lemma parse_file_key_file n : name_ok n -> parse_file_key (file_key n) = Some n.
Proof.
  intros Hn. rewrite file_key_path. unfold parse_file_key. rewrite strip_prefix_app. simpl.
  by apply parse_path_of.
Qed.

Lemma file_key_dir_file n : utf8_valid n = true -> file_key_dir (file_key n) = Some (dirname n).
Proof.
  intros Hn. rewrite file_key_path. unfold file_key_dir. rewrite strip_prefix_app. simpl.
  rewrite from_utf8_valid by by apply path_of_utf8. simpl. rewrite path_of_split.
  unfold dirname. by destruct (split_name n).
Qed.

Lemma be8_u64 v : u64_ok v -> of_be (to_be 8 v) = v.
Proof. intros H. by apply of_be_to_be. Qed.

Lemma parse_seq_key_seq q :
  u64_ok q -> parse_seq_key (SEQ_PREFIX ++ to_be 8 q) = Some q.
Proof.
  intros Hq. unfold parse_seq_key. rewrite length_app, length_to_be, starts_with_app.
  change (Nat.eqb (length SEQ_PREFIX + 8) SEQ_KEY_LEN) with true. cbn [negb orb].
  change (drop 2 (SEQ_PREFIX ++ to_be 8 q)) with (to_be 8 q).
  rewrite take_ge by (rewrite length_to_be; lia). by rewrite be8_u64.
Qed.

Lemma parse_block_data_seq_key_data q :
  u64_ok q -> parse_block_data_seq_key (block_data_seq_key q) =
              if q <? MIN_BLOCK_SEQ then None else Some q.
Proof.
  intros Hq. unfold parse_block_data_seq_key, block_data_seq_key.
  rewrite length_app, length_to_be, starts_with_app.
  change (Nat.eqb (length BLOCK_DATA_PREFIX + 8) BLOCK_DATA_KEY_LEN) with true. cbn [negb orb].
  change (drop 2 (BLOCK_DATA_PREFIX ++ to_be 8 q)) with (to_be 8 q).
  rewrite take_ge by (rewrite length_to_be; lia). by rewrite be8_u64.
Qed.

Lemma nth_app_len {A} (a b : list A) x d n : length a = n -> nth n (a ++ x :: b) d = x.
Proof. intros <-. by rewrite nth_middle. Qed.

Lemma parse_block_reverse_key_rev h n :
  length h = HASH_LEN -> name_ok n ->
  parse_block_reverse_key (block_reverse_key h n) = Some (h, n).
Proof.
  intros Hh Hn. rewrite block_reverse_key_path. unfold parse_block_reverse_key, block_reverse_prefix.
  rewrite <- !app_assoc, strip_prefix_app. cbn [mbind option_bind].
  rewrite (proj2 (Nat.ltb_ge _ _)) by (rewrite !length_app, Hh; simpl; lia).
  change ([SLASH] ++ path_of n) with (SLASH :: path_of n).
  rewrite nth_app_len, Z.eqb_refl by done. cbn [negb].
  rewrite take_app_length' by done. rewrite (cons_middle SLASH h), app_assoc.
  rewrite drop_app_length' by (rewrite length_app, Hh; done).
  pose proof (parse_path_of n Hn) as Hp. unfold parse_path in Hp.
  destruct (from_utf8 (path_of n)) as [s|]; [|done]. cbn [mbind option_bind] in *.
  destruct (rsplit_once (lit "//") s) as [[d b]|]; [|done]. cbn [mbind option_bind] in *.
  by injection Hp as ->.
Qed.

Lemma parse_block_pointer_key_ptr d h :
  length h = HASH_LEN -> parse_block_pointer_key (block_pointer_key d h) = Some h.
Proof.
  intros Hh. unfold parse_block_pointer_key, block_pointer_key. rewrite starts_with_app.
  rewrite !length_app, Hh. cbn [negb orb]. rewrite orb_false_r.
  rewrite (proj2 (Nat.ltb_ge _ _)) by (simpl; lia).
  rewrite app_assoc. change ([SLASH] ++ h) with (SLASH :: h).
  rewrite nth_app_len by key_len. rewrite Z.eqb_refl. cbn [negb].
  rewrite (cons_middle SLASH), (app_assoc (BLOCK_PREFIX ++ d)).
  by rewrite drop_app_length' by key_len.
Qed.

Lemma block_key_dir_ptr d h :
  length h = HASH_LEN -> utf8_valid d = true -> block_key_dir (block_pointer_key d h) = Some d.
Proof.
  intros Hh Hd. unfold block_key_dir, block_pointer_key. rewrite starts_with_app. cbn [negb].
  rewrite !length_app, Hh. rewrite (proj2 (Nat.ltb_ge _ _)) by (simpl; lia).
  rewrite drop_app_length. rewrite take_app_length' by key_len.
  by apply from_utf8_valid.
Qed.

Lemma epoch_ok_base32 e :
  epoch_ok e -> length (Base32.as_base32 e) = EPOCH_BASE32_LEN /\
                utf8_valid (Base32.as_base32 e) = true /\
                Base32.parse (Base32.as_base32 e) = Some e.
Proof.
  intros [Hwf Hv]. pose proof (Base32.wf_base32 e Hwf) as Hb. destruct Hv as [Hv ?]. split_and!.
  - by apply (Base32.length_to_base32 (Base32.val e)).
  - apply utf8_valid_ascii. eapply Forall_impl; [by eapply Base32.to_base32_chars|]. by intros c [Hc _].
  - by apply Base32.parse_base32.
Qed.

Lemma parse_inbox_key_inbox e n :
  epoch_ok e -> name_ok n -> parse_inbox_key (inbox_key e n) = Some (e, n).
Proof.
  intros (Hl & Hu & Hp)%epoch_ok_base32 Hn. rewrite inbox_key_path. unfold parse_inbox_key.
  rewrite strip_prefix_app. cbn [mbind option_bind].
  rewrite (proj2 (Nat.ltb_ge _ _)) by (rewrite !length_app, Hl; simpl; lia).
  rewrite (take_app_length' (Base32.as_base32 e)) by done.
  rewrite (from_utf8_valid (Base32.as_base32 e)) by done. cbn [mbind option_bind]. rewrite Hp.
  cbn [mbind option_bind]. change ([SLASH] ++ path_of n) with (SLASH :: path_of n).
  rewrite nth_app_len, Z.eqb_refl by done. cbn [negb].
  rewrite (cons_middle SLASH), app_assoc.
  rewrite drop_app_length' by (rewrite length_app, Hl; done).
  pose proof (parse_path_of n Hn) as Hq. unfold parse_path in Hq.
  destruct (from_utf8 (path_of n)) as [s|]; [|done]. cbn [mbind option_bind] in *.
  destruct (rsplit_once (lit "//") s) as [[d b]|]; [|done]. cbn [mbind option_bind] in *.
  by injection Hq as ->.
Qed.

(** ** Key classes *)

Definition tag (k : Key) : bytes :=
  match k with
  | KFile _ => FILE_PREFIX
  | KSeq _ => SEQ_PREFIX
  | KPointer _ _ => BLOCK_PREFIX
  | KData _ => BLOCK_DATA_PREFIX
  | KReverse _ _ => BLOCK_REV_PREFIX
  | KInbox _ _ => INBOX_PREFIX
  | KDevice _ => DEVICE_PREFIX
  | KIx => IX_KEY
  end.

Lemma encode_key_tag k : exists r, encode_key k = tag k ++ r.
Proof.
  destruct k; unfold encode_key, tag, block_pointer_key, block_data_seq_key, device_key;
    rewrite ?file_key_path, ?block_reverse_key_path, ?inbox_key_path;
    unfold block_reverse_prefix; rewrite <- ?app_assoc; try (by eexists).
Qed.

(** Keys of different classes differ in their tag, so no prefix test confuses
    them. *)
Lemma starts_with_tag k k' :
  starts_with (tag k') (encode_key k) = bool_decide (tag k = tag k').
Proof.
  destruct (encode_key_tag k) as [r ->].
  destruct k, k'; cbn [tag]; rewrite ?starts_with_app; try done.
Qed.

Lemma strip_prefix_tag k k' :
  tag k <> tag k' -> strip_prefix (tag k') (encode_key k) = None.
Proof.
  intros Hne. pose proof (starts_with_tag k k') as H. unfold starts_with in H.
  rewrite bool_decide_eq_false_2 in H by done. by destruct (strip_prefix _ _).
Qed.

(** Every parser rejects the keys of the other classes. *)
Lemma parse_file_key_other k : tag k <> FILE_PREFIX -> parse_file_key (encode_key k) = None.
Proof. intros H. unfold parse_file_key. change FILE_PREFIX with (tag (KFile [])). by rewrite strip_prefix_tag. Qed.

Lemma parse_inbox_key_other k : tag k <> INBOX_PREFIX -> parse_inbox_key (encode_key k) = None.
Proof.
  intros H. unfold parse_inbox_key.
  change INBOX_PREFIX with (tag (KInbox (Base32.mkEpoch 0 []) [])). by rewrite strip_prefix_tag.
Qed.

Lemma parse_block_reverse_key_other k :
  tag k <> BLOCK_REV_PREFIX -> parse_block_reverse_key (encode_key k) = None.
Proof.
  intros H. unfold parse_block_reverse_key. change BLOCK_REV_PREFIX with (tag (KReverse [] [])).
  by rewrite strip_prefix_tag.
Qed.

Lemma parse_seq_key_other k : tag k <> SEQ_PREFIX -> parse_seq_key (encode_key k) = None.
Proof.
  intros H. unfold parse_seq_key. change SEQ_PREFIX with (tag (KSeq 0)).
  rewrite starts_with_tag.
  rewrite bool_decide_eq_false_2 by done. by rewrite orb_true_r.
Qed.

Lemma parse_block_pointer_key_other k :
  tag k <> BLOCK_PREFIX -> parse_block_pointer_key (encode_key k) = None.
Proof.
  intros H. unfold parse_block_pointer_key. change BLOCK_PREFIX with (tag (KPointer [] [])).
  rewrite starts_with_tag.
  rewrite bool_decide_eq_false_2 by done. by rewrite orb_true_r.
Qed.

Lemma starts_with_data_other k :
  tag k <> BLOCK_DATA_PREFIX -> starts_with BLOCK_DATA_PREFIX (encode_key k) = false.
Proof.
  intros H. change BLOCK_DATA_PREFIX with (tag (KData 0)).
  by rewrite starts_with_tag, bool_decide_eq_false_2.
Qed.

(** Logical keys never collide. *)
Lemma encode_key_inj k k' :
  key_ok k -> key_ok k' -> encode_key k = encode_key k' -> k = k'.
Proof.
  intros Hk Hk' E.
  assert (tag k = tag k') as Ht.
  { pose proof (starts_with_tag k k') as H. rewrite E, starts_with_tag in H.
    rewrite bool_decide_eq_true_2 in H by done. by symmetry in H; apply bool_decide_eq_true in H. }
  destruct k, k'; try discriminate Ht; clear Ht; cbn [key_ok encode_key] in *.
  - f_equal. rewrite !file_key_path in E. apply app_inv_head in E. by apply path_of_inj.
  - f_equal. apply (f_equal parse_seq_key) in E. rewrite !parse_seq_key_seq in E by done. congruence.
  - assert (hash = hash0) as <-.
    { apply (f_equal parse_block_pointer_key) in E.
      rewrite !parse_block_pointer_key_ptr in E by done. congruence. }
    unfold block_pointer_key in E. apply app_inv_head, app_inv_tail in E. by subst.
  - f_equal. unfold block_data_seq_key in E. apply app_inv_head, (f_equal of_be) in E.
    by rewrite !be8_u64 in E.
  - apply (f_equal parse_block_reverse_key) in E.
    destruct Hk, Hk'. rewrite !parse_block_reverse_key_rev in E by done. congruence.
  - apply (f_equal parse_inbox_key) in E.
    destruct Hk, Hk'. rewrite !parse_inbox_key_inbox in E by done. congruence.
  - f_equal. unfold device_key in E. by apply app_inv_head in E.
  - done.
Qed.

(** ** Order of sequence keys *)

Lemma seq_key_cmp a b :
  u64_ok a -> u64_ok b ->
  bytes_cmp (SEQ_PREFIX ++ to_be 8 a) (SEQ_PREFIX ++ to_be 8 b) = Z.compare a b.
Proof. intros Ha Hb. rewrite bytes_cmp_app. by apply to_be_cmp. Qed.

Lemma seq_key_before_end q : bytes_lt (SEQ_PREFIX ++ to_be 8 q) SEQ_SCAN_END.
Proof. done. Qed.

(** The lexicographic range [start, end) a delta scan reads. *)
Definition in_scan (lo hi key : bytes) : Prop := ~ bytes_lt key lo /\ bytes_lt key hi.

Lemma not_lt_cmp a b : ~ bytes_lt a b <-> bytes_cmp b a <> Gt.
Proof.
  unfold bytes_lt. rewrite (bytes_cmp_antisym b a). destruct (bytes_cmp b a); simpl; naive_solver.
Qed.

Lemma other_class_not_in_scan k lo :
  tag k <> SEQ_PREFIX -> in_scan (SEQ_PREFIX ++ lo) SEQ_SCAN_END (encode_key k) -> False.
Proof.
  intros Ht [Hlo Hhi]. destruct (encode_key_tag k) as [r E]. rewrite E in *.
  destruct k; cbn [tag] in *; try done;
    first [apply Hlo; reflexivity | discriminate Hhi].
Qed.

Lemma seq_scan_start_ok since :
  0 <= since < I64_MAX -> seq_scan_start since = Ok (SEQ_PREFIX ++ to_be 8 (since + 1)).
Proof.
  intros H. unfold seq_scan_start, checked_add_i64, seq_key, I64_MIN, I64_MAX in *.
  replace (_ && _)%bool with true by lia. cbn [ok_or rbind].
  destruct (Z.ltb_spec (since + 1) 0); [lia|done].
Qed.

Lemma in_seq_scan since k :
  0 <= since < I64_MAX -> key_ok k ->
  in_scan (SEQ_PREFIX ++ to_be 8 (since + 1)) SEQ_SCAN_END (encode_key k) <->
  exists q, k = KSeq q /\ since < q.
Proof.
  unfold I64_MAX. intros Hs Hk. split.
  - intros Hin. destruct k as [|q| | | | | |];
      try (exfalso; eapply other_class_not_in_scan; [|exact Hin]; done).
    exists q. split; [done|]. destruct Hin as [Hlo _]. apply not_lt_cmp in Hlo.
    cbn [encode_key key_ok] in *. rewrite seq_key_cmp in Hlo by (done || unfold u64_ok; lia).
    apply (proj1 (Z.compare_le_iff _ _)) in Hlo. lia.
  - intros (q & -> & Hq). split; [|apply seq_key_before_end]. apply not_lt_cmp.
    cbn [encode_key key_ok] in *. rewrite seq_key_cmp by (done || unfold u64_ok; lia).
    apply (proj2 (Z.compare_le_iff _ _)). lia.
Qed.

Lemma inbox_prefix_root e :
  inbox_key e [] = INBOX_PREFIX ++ Base32.as_base32 e ++ [SLASH; SLASH; SLASH].
Proof. done. Qed.

(** Which inbox entries are under the prefix of the empty name. *)
Lemma inbox_prefix_root_iff e n :
  name_ok n -> (starts_with (inbox_key e []) (inbox_key e n) = true <-> dirname n = []).
Proof.
  intros Hn. rewrite inbox_prefix_root, inbox_key_path, starts_with_true. unfold path_of, dirname.
  destruct Hn as [_ Hs]. pose proof (join_split n Hs) as Hj.
  destruct (split_name n) as [d b] eqn:E; cbn [fst snd] in *. split.
  - intros [r Hr]. rewrite <- !app_assoc in Hr. do 2 apply app_inv_head in Hr.
    simpl in Hr. injection Hr as Hr. destruct d as [|x d]; [done|exfalso].
    simpl in Hr. injection Hr as -> _. rewrite <- Hj in Hs. done.
  - intros ->. exists b. by rewrite <- !app_assoc.
Qed.

(** ** Properties *)

(** Key parsers. On every key the store can write, each parser returns
    exactly the contents when the key is of its class and nothing otherwise, so
    the classes are told apart and no content is lost. *)
Theorem key_parsers_roundtrip (k : Key) (Hk : key_ok k) :
  parse_file_key (encode_key k) = match k with KFile n => Some n | _ => None end /\
  parse_seq_key (encode_key k) = match k with KSeq q => Some q | _ => None end /\
  parse_block_pointer_key (encode_key k) = match k with KPointer _ h => Some h | _ => None end /\
  parse_block_reverse_key (encode_key k) = match k with KReverse h n => Some (h, n) | _ => None end /\
  parse_inbox_key (encode_key k) = match k with KInbox e n => Some (e, n) | _ => None end /\
  (starts_with BLOCK_DATA_PREFIX (encode_key k) = match k with KData _ => true | _ => false end) /\
  (forall q, k = KData q -> MIN_BLOCK_SEQ <= q -> parse_block_data_seq_key (encode_key k) = Some q).
Proof.
  split_and!.
  - destruct k; try (by apply parse_file_key_other). by apply parse_file_key_file.
  - destruct k; try (by apply parse_seq_key_other). by apply parse_seq_key_seq.
  - destruct k; try (by apply parse_block_pointer_key_other). by apply parse_block_pointer_key_ptr.
  - destruct k; try (by apply parse_block_reverse_key_other).
    destruct Hk. by apply parse_block_reverse_key_rev.
  - destruct k; try (by apply parse_inbox_key_other). destruct Hk. by apply parse_inbox_key_inbox.
  - destruct k; try (by apply starts_with_data_other). apply starts_with_app.
  - intros q -> Hq. cbn [encode_key]. rewrite parse_block_data_seq_key_data by done.
    destruct (Z.ltb_spec q MIN_BLOCK_SEQ); [lia|done].
Qed.

Lemma key_parsers_roundtrip_witness :
  key_ok (KFile (lit "docs/q3.pdf")) /\
  parse_file_key (encode_key (KFile (lit "docs/q3.pdf"))) = Some (lit "docs/q3.pdf").
Proof.
  split; [by vm_compute|].
  exact (proj1 (key_parsers_roundtrip (KFile (lit "docs/q3.pdf")) ltac:(by vm_compute))).
Defined.

(** No collisions. Two logical keys (of any classes) with the same encoding
    are the same key. *)
Theorem keys_never_collide (k k' : Key) (Hk : key_ok k) (Hk' : key_ok k') :
  encode_key k = encode_key k' <-> k = k'.
Proof. split; [by apply encode_key_inj|by intros ->]. Qed.

Lemma keys_never_collide_witness :
  key_ok (KFile (lit "a/b")) /\ key_ok (KReverse (repeat 7 32) (lit "a/b")) /\
  encode_key (KFile (lit "a/b")) <> encode_key (KReverse (repeat 7 32) (lit "a/b")).
Proof.
  split; [by vm_compute|]. split; [by vm_compute|]. intros E.
  apply (keys_never_collide (KFile (lit "a/b")) (KReverse (repeat 7 32) (lit "a/b"))
           ltac:(by vm_compute) ltac:(by vm_compute)) in E. discriminate E.
Defined.

(** Delta scans. The key range a delta index scans contains exactly the
    sequence mappings above [since], for any mix of keys in the database, and
    the scan of the last sequence number is refused. *)
Theorem delta_scan_range (since : Z) (k : Key)
  (Hs : 0 <= since <= I64_MAX) (Hk : key_ok k) :
  (since < I64_MAX ->
   exists lo, seq_scan_start since = Ok lo /\
     (in_scan lo SEQ_SCAN_END (encode_key k) <-> exists q, k = KSeq q /\ since < q)) /\
  (since = I64_MAX -> exists e, seq_scan_start since = Err e).
Proof.
  split.
  - intros Hlt. exists (SEQ_PREFIX ++ to_be 8 (since + 1)).
    split; [apply seq_scan_start_ok; lia|apply in_seq_scan; [lia|done]].
  - intros ->. unfold seq_scan_start, checked_add_i64. simpl. by eexists.
Qed.

Lemma delta_scan_range_witness :
  0 <= 41 <= I64_MAX /\ key_ok (KSeq 42) /\ 41 < I64_MAX /\
  exists lo, seq_scan_start 41 = Ok lo /\ in_scan lo SEQ_SCAN_END (encode_key (KSeq 42)).
Proof.
  split; [by vm_compute|]. split; [by vm_compute|]. split; [by vm_compute|].
  destruct (proj1 (delta_scan_range 41 (KSeq 42) ltac:(by vm_compute) ltac:(by vm_compute))
              ltac:(by vm_compute)) as (lo & H1 & H2).
  exists lo. split; [exact H1|]. apply H2. exists 42. split; [done|lia].
Defined.

(** The inbox scan prefix of the compaction filter. The prefix
    [inbox_key] of the empty name matches the inbox entry of a file exactly when the
    file lies in the folder root: entries of files in subdirectories are not
    under it. *)
Theorem inbox_prefix_only_root (e : Base32.Epoch) (n : bytes) (Hn : name_ok n) :
  starts_with (inbox_key e []) (inbox_key e n) = true <-> dirname n = [].
Proof. by apply inbox_prefix_root_iff. Qed.

Lemma inbox_prefix_only_root_witness :
  name_ok (lit "docs/readme.txt") /\
  starts_with (inbox_key (Base32.mkEpoch 5 (lit "00000005")) [])
              (inbox_key (Base32.mkEpoch 5 (lit "00000005")) (lit "docs/readme.txt")) = false.
Proof.
  split; [by vm_compute|]. apply not_true_iff_false. intros H.
  apply (inbox_prefix_only_root _ _ ltac:(by vm_compute)) in H. discriminate H.
Defined.

(** Segments. Every key the store writes is routed to one of the two
    segments, and only block data goes to the block segment. *)
Theorem segment_routing (k : Key) :
  segment_prefix_len (encode_key k) = Some 1%nat /\
  take 1 (encode_key k) =
    match k with KData _ => BLOCK_SEGMENT_PREFIX | _ => METADATA_SEGMENT_PREFIX end.
Proof. destruct (encode_key_tag k) as [r ->]. by destruct k. Qed.

End StoreKeys.
