(* ===== verification/Codec.v ===== *)
(** Message codecs. The protobuf encoding of every message is generated by
    prost; the components use it only through [encode_to_vec] and [decode], so
    it is a typeclass with the one law they rely on: decoding what was encoded
    gives the message back.

    [Tape] is a concrete codec family (length-prefixed fields on a tape of
    integers) that shows the law can hold for every message at once; theorems
    never depend on it, only their witnesses do. *)

From Stdlib Require Import ZArith Lia.
From stdpp Require Import base list strings.
From S2P Require Import Prelude BepTypes.

Local Open Scope Z_scope.

Class Codec (A : Type) := {
  encode : A -> bytes;
  decode : bytes -> option A
}.

Class CodecLaws (A : Type) {C : Codec A} : Prop :=
  decode_encode : forall a : A, decode (encode a) = Some a.

(** ** A concrete codec *)

Module Tape.

(** Self-delimiting writers and readers. *)
Record tape (A : Type) := mkTape {
  put : A -> list Z;
  get : list Z -> option (A * list Z);
  get_put : forall a rest, get (put a ++ rest) = Some (a, rest)
}.
Arguments put {A}.
Arguments get {A}.
Arguments get_put {A}.

Program Definition tZ : tape Z :=
  mkTape Z (fun z => [z]) (fun l => match l with z :: r => Some (z, r) | [] => None end) _.
Next Obligation. done. Qed.

Program Definition tmap {A B} (t : tape A) (f : B -> A) (g : A -> B)
  (H : forall b, g (f b) = b) : tape B :=
  mkTape B (fun b => put t (f b))
    (fun l => match get t l with Some (a, r) => Some (g a, r) | None => None end) _.
Next Obligation. intros A B t f g H b rest. simpl. by rewrite get_put, H. Qed.

Program Definition tpair {A B} (ta : tape A) (tb : tape B) : tape (A * B) :=
  mkTape (A * B) (fun p => put ta (fst p) ++ put tb (snd p))
    (fun l => match get ta l with
              | Some (a, r) => match get tb r with Some (b, r') => Some ((a, b), r') | None => None end
              | None => None
              end) _.
Next Obligation. intros A B ta tb [a b] rest. simpl. by rewrite <- app_assoc, !get_put. Qed.

Fixpoint get_n {A} (t : tape A) (n : nat) (l : list Z) : option (list A * list Z) :=
  match n with
  | O => Some ([], l)
  | S n' =>
      match get t l with
      | Some (a, r) => match get_n t n' r with Some (xs, r') => Some (a :: xs, r') | None => None end
      | None => None
      end
  end.

Lemma get_n_put {A} (t : tape A) xs rest :
  get_n t (length xs) (concat (map (put t) xs) ++ rest) = Some (xs, rest).
Proof. induction xs as [|x xs IH]; simpl; [done|]. by rewrite <- app_assoc, get_put, IH. Qed.

Program Definition tlist {A} (t : tape A) : tape (list A) :=
  mkTape (list A) (fun xs => Z.of_nat (length xs) :: concat (map (put t) xs))
    (fun l => match l with n :: r => get_n t (Z.to_nat n) r | [] => None end) _.
Next Obligation. intros A t xs rest. simpl. rewrite Nat2Z.id. apply get_n_put. Qed.

Definition tbytes : tape bytes := tlist tZ.

Program Definition tbool : tape bool :=
  tmap tZ (fun b : bool => if b then 1 else 0) (fun z => Z.eqb z 1) _.
Next Obligation. by intros []. Qed.

Program Definition toption {A} (t : tape A) : tape (option A) :=
  tmap (tlist t) (fun o => match o with Some a => [a] | None => [] end)
    (fun l => match l with a :: _ => Some a | [] => None end) _.
Next Obligation. by intros A t [a|]. Qed.

(** The codec of a tape. *)
Definition codec {A} (t : tape A) : Codec A :=
  {| encode := put t;
     decode l := match get t l with Some (a, []) => Some a | _ => None end |}.

Lemma codec_laws {A} (t : tape A) : @CodecLaws A (codec t).
Proof.
  intros a. unfold decode, encode, codec. simpl.
  by rewrite <- (app_nil_r (put t a)), get_put.
Qed.

End Tape.
