(* ===== verification/Conflict.v ===== *)
(** Version vectors and conflict resolution
    ([bepository-bep/src/conflict.rs], and the resolver the daemon installs in
    [bepository-cli/src/main.rs]).

    [compare] merges the two counter lists after sorting them by id;
    [compare_spec] is what it must compute: the pointwise order of the functions
    from counter ids to values that the vectors denote. *)

From Stdlib Require Import ZArith Lia Sorting.Sorted.
From stdpp Require Import base list strings.
From S2P Require Import Prelude BepTypes.

Local Open Scope Z_scope.
Local Open Scope bep_scope.

Module Conflict.
Import bep.

(** ** Model *)

(** [slice::sort_by_key], which is stable. *)
Fixpoint insert_by_id (c : Counter) (l : list Counter) : list Counter :=
  match l with
  | [] => [c]
  | x :: l' => if id c <=? id x then c :: l else x :: insert_by_id c l'
  end.

Fixpoint sort_by_id (l : list Counter) : list Counter :=
  match l with
  | [] => []
  | c :: l' => insert_by_id c (sort_by_id l')
  end.

(** [sorted.windows(2)] finds two neighbours with the same id. *)
Fixpoint adjacent_dup (l : list Counter) : bool :=
  match l with
  | x :: (y :: _) as t => (id x =? id y) || adjacent_dup t
  | _ => false
  end.

Definition sorted_unique (v : Vector) : result BepError.t (list Counter) :=
  let sorted := sort_by_id (counters v) in
  if adjacent_dup sorted
  then Err (BepError.PeerBadMessage "duplicate counter id in version vector")
  else Ok sorted.

(** [Iterator::sum] of [u64] in the release profile: modulo 2^64. *)
Definition sum_u64 (l : list Z) : Z := fold_left (fun acc v => wrap_u64 (acc + v)) l 0.

Definition total (v : Vector) : result BepError.t Z :=
  try _ <- sorted_unique v;
  Ok (sum_u64 (map value (counters v))).

Inductive Ordering := Greater | Less | Equal | Concurrent.

#[export] Instance Ordering_eq_dec : EqDecision Ordering.
Proof. solve_decision. Defined.

Definition any_positive (l : list Counter) : bool := existsb (fun c => 0 <? value c) l.

(** The two-pointer loop of [compare] with the two trailing loops; [ad] and
    [bd] are the flags [a_dominated] and [b_dominated]. *)
Fixpoint compare_loop (la lb : list Counter) (ad bd : bool) {struct la} : bool * bool :=
  match la with
  | [] => (ad, bd || any_positive lb)
  | ac :: la' =>
      (fix inner (lb : list Counter) (ad bd : bool) {struct lb} : bool * bool :=
         match lb with
         | [] => (ad || any_positive la, bd)
         | bc :: lb' =>
             match Z.compare (id ac) (id bc) with
             | Eq =>
                 let ad' := if value bc <? value ac then true else ad in
                 let bd' := if value bc <? value ac then bd
                            else if value ac <? value bc then true else bd in
                 compare_loop la' lb' ad' bd'
             | Lt => compare_loop la' lb (if 0 <? value ac then true else ad) bd
             | Gt => inner lb' ad (if 0 <? value bc then true else bd)
             end
         end) lb ad bd
  end.

Definition ordering_of (flags : bool * bool) : Ordering :=
  match flags with
  | (false, false) => Equal
  | (true, false) => Greater
  | (false, true) => Less
  | (true, true) => Concurrent
  end.

Definition compare (a b : Vector) : result BepError.t Ordering :=
  try a_sorted <- sorted_unique a;
  try b_sorted <- sorted_unique b;
  Ok (ordering_of (compare_loop a_sorted b_sorted false false)).

(** [a.version.as_ref().map(total).transpose()?.unwrap_or(0)]. *)
Definition total_or_zero (v : option Vector) : result BepError.t Z :=
  match v with Some v => total v | None => Ok 0 end.

(** A device id is its 32 bytes; [DeviceId] derives the lexicographic order. *)
Definition resolve_conflict (a : FileInfo) (a_device : bytes) (b : FileInfo) (b_device : bytes)
  : result BepError.t (FileInfo * FileInfo) :=
  try a_total <- total_or_zero (version a);
  try b_total <- total_or_zero (version b);
  if negb (a_total =? b_total) then Ok (if b_total <? a_total then (a, b) else (b, a))
  else if negb (eqb (deleted a) (deleted b)) then Ok (if negb (deleted a) then (a, b) else (b, a))
  else Ok (match bytes_cmp a_device b_device with Gt => (a, b) | _ => (b, a) end).

Record ConflictResolution := mkResolution {
  winner : FileInfo;
  loser : FileInfo;
  loser_path : option bytes
}.

(** [BackupResolver]. *)
Definition backup_resolve (local : FileInfo) (local_device : bytes)
  (remote : FileInfo) (remote_device : bytes) : result BepError.t ConflictResolution :=
  try (w, l) <- resolve_conflict local local_device remote remote_device;
  Ok (mkResolution w l (Some (name l ++ lit ".sync-conflict"))).

(** [TheirsResolver], the resolver of the daemon. *)
Definition theirs_resolve (local : FileInfo) (local_device : bytes)
  (remote : FileInfo) (remote_device : bytes) : result BepError.t ConflictResolution :=
  Ok (mkResolution remote local None).

(** ** Specification *)

(** The value a vector gives to a counter id; absent counters count as zero. *)
Fixpoint get (l : list Counter) (i : Z) : Z :=
  match l with
  | [] => 0
  | c :: l' => if id c =? i then value c else get l' i
  end.

Definition denote (v : Vector) : Z -> Z := get (counters v).

Definition unique_ids (v : Vector) : Prop := NoDup (map id (counters v)).

Definition values_ok (v : Vector) : Prop := Forall (fun c => 0 <= value c) (counters v).

(** The pointwise order. *)
Definition compare_spec (o : Ordering) (f g : Z -> Z) : Prop :=
  match o with
  | Equal => forall i, f i = g i
  | Greater => (forall i, g i <= f i) /\ exists i, g i < f i
  | Less => (forall i, f i <= g i) /\ exists i, f i < g i
  | Concurrent => (exists i, g i < f i) /\ exists i, f i < g i
  end.

Definition flip (o : Ordering) : Ordering :=
  match o with Greater => Less | Less => Greater | o => o end.

(** ** Sorting *)

Definition id_lt (a b : Counter) : Prop := id a < id b.
Definition id_le (a b : Counter) : Prop := id a <= id b.

Lemma insert_by_id_perm c l : insert_by_id c l ≡ₚ c :: l.
Proof.
  induction l as [|x l IH]; simpl; [done|]. case_match; [done|]. rewrite IH. constructor.
Qed.

Lemma sort_by_id_perm l : sort_by_id l ≡ₚ l.
Proof. induction l as [|c l IH]; simpl; [done|]. by rewrite insert_by_id_perm, IH. Qed.

Lemma insert_by_id_sorted c l :
  StronglySorted id_le l -> StronglySorted id_le (insert_by_id c l).
Proof.
  induction 1 as [|x l Hl IH Hx]; simpl; [repeat constructor|].
  destruct (Z.leb_spec (id c) (id x)).
  - constructor; [by constructor|]. constructor; [done|].
    eapply Forall_impl; [done|]. unfold id_le. lia.
  - constructor; [done|]. rewrite insert_by_id_perm. constructor; [unfold id_le; lia|done].
Qed.

Lemma sort_by_id_sorted l : StronglySorted id_le (sort_by_id l).
Proof. induction l; simpl; [constructor|]. by apply insert_by_id_sorted. Qed.

(** On a sorted list the neighbour test decides uniqueness. *)
Lemma adjacent_dup_false l :
  StronglySorted id_le l -> adjacent_dup l = false <-> StronglySorted id_lt l.
Proof.
  induction 1 as [|x l Hl IH Hx]; [split; [constructor|done]|].
  destruct l as [|y l]; [split; [repeat constructor|done]|].
  change (adjacent_dup (x :: y :: l)) with ((id x =? id y) || adjacent_dup (y :: l)).
  rewrite orb_false_iff, IH, Z.eqb_neq. inversion_clear Hx. unfold id_le in *. split.
  - intros [Hne Hs]. constructor; [done|]. inversion_clear Hs.
    constructor; [unfold id_lt; lia|].
    eapply Forall_impl; [done|]. unfold id_lt. lia.
  - intros Hs. inversion_clear Hs as [|? ? Hyl Hall]. inversion_clear Hall. unfold id_lt in *.
    split; [lia|done].
Qed.

Lemma id_lt_nodup l : StronglySorted id_lt l -> NoDup (map id l).
Proof.
  induction 1 as [|x l Hl IH Hx]; simpl; constructor; [|done].
  intros (y & Hy & Hin)%list_elem_of_fmap. rewrite Forall_forall in Hx.
  apply Hx in Hin. unfold id_lt in Hin. lia.
Qed.

Lemma id_le_nodup l : StronglySorted id_le l -> NoDup (map id l) -> StronglySorted id_lt l.
Proof.
  induction 1 as [|x l Hl IH Hx]; simpl; [constructor|]. inversion_clear 1 as [|? ? Hn Hnd].
  constructor; [by apply IH|]. rewrite Forall_forall in *. intros y Hy.
  assert (id x <> id y) by (intros E; apply Hn; rewrite E; by apply list_elem_of_fmap_2).
  apply Hx in Hy. unfold id_lt, id_le in *. lia.
Qed.

Lemma sorted_unique_ok v s :
  sorted_unique v = Ok s <-> unique_ids v /\ s = sort_by_id (counters v).
Proof.
  unfold sorted_unique, unique_ids. pose proof (sort_by_id_sorted (counters v)) as Hs.
  pose proof (adjacent_dup_false _ Hs) as Hd.
  assert (NoDup (map id (counters v)) <-> StronglySorted id_lt (sort_by_id (counters v))) as ->.
  { rewrite <- (Permutation_map id (sort_by_id_perm (counters v))).
    split; [by apply id_le_nodup|apply id_lt_nodup]. }
  rewrite <- Hd. destruct (adjacent_dup _).
  - by split; [|intros [? _]].
  - split; [by intros [= <-]|by intros [_ ->]].
Qed.

Lemma sorted_unique_err v :
  ~ unique_ids v -> exists m, sorted_unique v = Err (BepError.PeerBadMessage m).
Proof.
  intros Hn. destruct (sorted_unique v) as [s|e] eqn:E.
  - by apply sorted_unique_ok in E as [? _].
  - unfold sorted_unique in E. case_match; naive_solver.
Qed.

(** ** The counter function *)

Lemma get_notin l i : i ∉ map id l -> get l i = 0.
Proof.
  induction l as [|c l IH]; simpl; [done|]. intros [Hc Hl]%not_elem_of_cons.
  destruct (Z.eqb_spec (id c) i); [congruence|auto].
Qed.

Lemma get_perm l l' i : l ≡ₚ l' -> NoDup (map id l) -> get l i = get l' i.
Proof.
  induction 1 as [|x l l' Hp IH|x y l|l1 l2 l3 H1 IH1 H2 IH2]; intros Hnd; [done|..].
  - cbn [map] in Hnd. inversion_clear Hnd. simpl. by rewrite IH.
  - cbn [map] in Hnd. inversion_clear Hnd as [|? ? Hn _]. apply not_elem_of_cons in Hn as [? _].
    simpl. destruct (Z.eqb_spec (id x) i), (Z.eqb_spec (id y) i); congruence.
  - rewrite IH1 by done. apply IH2. by rewrite <- (Permutation_map id H1).
Qed.

Lemma get_nonneg l i : Forall (fun c => 0 <= value c) l -> 0 <= get l i.
Proof. induction 1; simpl; [done|]. by case_match. Qed.

Lemma get_below l i : Forall (fun c => i < id c) l -> get l i = 0.
Proof.
  intros H. apply get_notin. intros (c & -> & Hc)%list_elem_of_fmap.
  rewrite Forall_forall in H. specialize (H _ Hc). simpl in H. lia.
Qed.

Lemma any_positive_spec l :
  NoDup (map id l) -> any_positive l = true <-> exists i, 0 < get l i.
Proof.
  unfold any_positive. induction l as [|c l IH]; simpl; intros Hnd.
  - split; [done|]. intros [i Hi]. lia.
  - inversion_clear Hnd as [|? ? Hn Hnd']. rewrite orb_true_iff, IH, Z.ltb_lt by done. split.
    + intros [Hc|[i Hi]].
      * exists (id c). by rewrite Z.eqb_refl.
      * exists i. destruct (Z.eqb_spec (id c) i) as [<-|]; [|done].
        rewrite get_notin in Hi by done. lia.
    + intros [i Hi]. destruct (Z.eqb_spec (id c) i); [by left|right; by exists i].
Qed.

(** ** The merge loop *)

Lemma compare_loop_nil_r la ad bd : compare_loop la [] ad bd = (ad || any_positive la, bd).
Proof. destruct la; simpl; by rewrite ?orb_false_r. Qed.

Lemma compare_loop_cons ac la bc lb ad bd :
  compare_loop (ac :: la) (bc :: lb) ad bd =
    match Z.compare (id ac) (id bc) with
    | Eq => compare_loop la lb (ad || (value bc <? value ac)) (bd || (value ac <? value bc))
    | Lt => compare_loop la (bc :: lb) (ad || (0 <? value ac)) bd
    | Gt => compare_loop (ac :: la) lb ad (bd || (0 <? value bc))
    end.
Proof.
  cbn [compare_loop]. destruct (Z.compare (id ac) (id bc)).
  - f_equal.
    + destruct (_ <? _), ad; done.
    + destruct (Z.ltb_spec (value bc) (value ac)), (Z.ltb_spec (value ac) (value bc)), bd; (lia || done).
  - f_equal. destruct (_ <? _), ad; done.
  - replace (if 0 <? value bc then true else bd) with (bd || (0 <? value bc))
      by (destruct (_ <? _), bd; done).
    by destruct lb.
Qed.

(** Exchanging the vectors exchanges the flags. *)
Lemma compare_loop_swap la lb ad bd :
  compare_loop lb la bd ad = (snd (compare_loop la lb ad bd), fst (compare_loop la lb ad bd)).
Proof.
  revert lb ad bd. induction la as [|ac la IHa]; intros lb.
  { intros ad bd. by rewrite compare_loop_nil_r. }
  induction lb as [|bc lb IHb]; intros ad bd; [by rewrite compare_loop_nil_r|].
  rewrite !compare_loop_cons, (Z.compare_antisym (id ac) (id bc)).
  destruct (Z.compare (id ac) (id bc)); cbn [CompOpp]; [apply IHa|apply IHa|apply IHb].
Qed.

(** The first flag is raised exactly when the first vector has a greater
    counter. *)
Lemma compare_loop_fst la lb ad bd :
  StronglySorted id_lt la -> StronglySorted id_lt lb ->
  Forall (fun c => 0 <= value c) la -> Forall (fun c => 0 <= value c) lb ->
  fst (compare_loop la lb ad bd) = true <-> ad = true \/ exists i, get lb i < get la i.
Proof.
  intros Hsa. revert lb ad bd. induction Hsa as [|ac la Hsa IHa Hac]; intros lb ad bd Hsb Ha Hb.
  { simpl. split; [auto|]. intros [?|[i Hi]]; [done|]. pose proof (get_nonneg lb i Hb). lia. }
  revert ad bd. induction Hsb as [|bc lb Hsb IHb Hbc]; intros ad bd.
  { rewrite compare_loop_nil_r. cbn [fst]. rewrite orb_true_iff, any_positive_spec; [done|].
    apply id_lt_nodup. by constructor. }
  inversion_clear Ha as [|? ? Hva Ha']. inversion_clear Hb as [|? ? Hvb Hb'].
  rewrite compare_loop_cons. unfold id_lt in *.
  destruct (Z.compare_spec (id ac) (id bc)) as [E|E|E].
  - rewrite IHa, orb_true_iff, Z.ltb_lt by done. rewrite Logic.or_assoc.
    assert (get la (id ac) = 0) as Za by (by apply get_below).
    assert (get lb (id ac) = 0) as Zb by (apply get_below; by rewrite E).
    apply or_iff_compat_l. simpl. rewrite <- E. split.
    + intros [?|[i Hi]]; [exists (id ac); by rewrite Z.eqb_refl|].
      exists i. destruct (Z.eqb_spec (id ac) i) as [<-|]; [lia|done].
    + intros [i Hi]. destruct (Z.eqb_spec (id ac) i); [by left|right; by exists i].
  - assert (get (bc :: lb) (id ac) = 0) as Zb.
    { apply get_below. constructor; [done|]. eapply Forall_impl; [exact Hbc|]. simpl. intros; lia. }
    rewrite IHa, orb_true_iff, Z.ltb_lt by (done || by constructor).
    rewrite Logic.or_assoc. apply or_iff_compat_l. cbn [get] in *. split.
    + intros [?|[i Hi]]; [exists (id ac); rewrite Z.eqb_refl; lia|].
      exists i. destruct (Z.eqb_spec (id ac) i) as [<-|]; [|done].
      rewrite (get_below la) in Hi by done. lia.
    + intros [i Hi]. destruct (Z.eqb_spec (id ac) i) as [E1|]; [left; rewrite <- E1 in Hi; lia|right; by exists i].
  - assert (get (ac :: la) (id bc) = 0) as Za.
    { apply get_below. constructor; [done|]. eapply Forall_impl; [exact Hac|]. simpl. intros; lia. }
    rewrite IHb by done. apply or_iff_compat_l. simpl (get (bc :: lb) _).
    assert (get lb (id bc) = 0) by (by apply get_below).
    split; intros [i Hi]; exists i; destruct (Z.eqb_spec (id bc) i) as [E1|]; try done;
      rewrite <- E1 in *; lia.
Qed.

Lemma Forall_sort_by_id (P : Counter -> Prop) l : Forall P l -> Forall P (sort_by_id l).
Proof. intros. by rewrite sort_by_id_perm. Qed.

(** What the two flags say about well-formed vectors. *)
Lemma compare_flags a b :
  unique_ids a -> unique_ids b -> values_ok a -> values_ok b ->
  let fl := compare_loop (sort_by_id (counters a)) (sort_by_id (counters b)) false false in
  (fst fl = true <-> exists i, denote b i < denote a i) /\
  (snd fl = true <-> exists i, denote a i < denote b i).
Proof.
  intros Ua Ub Va Vb fl. unfold unique_ids, values_ok, denote in *.
  assert (Forall (fun v => StronglySorted id_lt (sort_by_id (counters v)) /\
                           forall i, get (sort_by_id (counters v)) i = get (counters v) i) [a; b])
    as Hs.
  { repeat constructor; try (apply id_le_nodup; [apply sort_by_id_sorted|]);
      rewrite ?(Permutation_map id (sort_by_id_perm _)); try done;
      intros; apply get_perm; rewrite ?sort_by_id_perm; done. }
  inversion_clear Hs as [|? ? [Sa Ga] Hs']. inversion_clear Hs' as [|? ? [Sb Gb] _]. split.
  - unfold fl. rewrite compare_loop_fst by (done || by apply Forall_sort_by_id).
    setoid_rewrite Ga. setoid_rewrite Gb. by split; [intros [?|?]|auto].
  - replace (snd fl) with
      (fst (compare_loop (sort_by_id (counters b)) (sort_by_id (counters a)) false false))
      by (unfold fl; by rewrite (compare_loop_swap (sort_by_id (counters a)))).
    rewrite compare_loop_fst by (done || by apply Forall_sort_by_id).
    setoid_rewrite Ga. setoid_rewrite Gb. by split; [intros [?|?]|auto].
Qed.

Lemma compare_unfold a b o :
  compare a b = Ok o <->
  unique_ids a /\ unique_ids b /\
  o = ordering_of (compare_loop (sort_by_id (counters a)) (sort_by_id (counters b)) false false).
Proof.
  unfold compare. destruct (sorted_unique a) as [sa|e] eqn:Ea; simpl.
  - apply sorted_unique_ok in Ea as [Ha ->]. destruct (sorted_unique b) as [sb|e] eqn:Eb; simpl.
    + apply sorted_unique_ok in Eb as [Hb ->]. split; [by intros [= <-]|by intros (_ & _ & ->)].
    + split; [done|]. intros (_ & Hb & _).
      by rewrite (proj2 (sorted_unique_ok b _) (conj Hb eq_refl)) in Eb.
  - split; [done|]. intros (Ha & _).
    by rewrite (proj2 (sorted_unique_ok a _) (conj Ha eq_refl)) in Ea.
Qed.

Lemma not_exists_lt (f g : Z -> Z) : ~ (exists i, f i < g i) <-> forall i, g i <= f i.
Proof.
  split; [intros H i; destruct (Z.le_gt_cases (g i) (f i)); [done|exfalso; eauto]|].
  intros H [i Hi]. specialize (H i). lia.
Qed.

(** The pointwise order in terms of the two "has a greater counter" facts. *)
Lemma compare_spec_iff o (f g : Z -> Z) :
  compare_spec o f g <->
  ((exists i, g i < f i) <-> o = Greater \/ o = Concurrent) /\
  ((exists i, f i < g i) <-> o = Less \/ o = Concurrent).
Proof.
  pose proof (not_exists_lt f g). pose proof (not_exists_lt g f).
  assert ((forall i, f i = g i) <-> (forall i, f i <= g i) /\ forall i, g i <= f i) as He.
  { split; [intros E; split; intros i; specialize (E i); lia|].
    intros [H1 H2] i. specialize (H1 i). specialize (H2 i). lia. }
  destruct o; simpl; try rewrite He; intuition congruence.
Qed.

Lemma ordering_of_spec fl (f g : Z -> Z) o :
  (fst fl = true <-> exists i, g i < f i) -> (snd fl = true <-> exists i, f i < g i) ->
  o = ordering_of fl <-> compare_spec o f g.
Proof.
  intros H1 H2. rewrite compare_spec_iff.
  destruct fl as [[] []], o; simpl in *; intuition congruence.
Qed.

(** [compare] decides dominance of the denoted functions. *)
Lemma compare_dominance (a b : Vector) (o : Ordering) :
  values_ok a -> values_ok b ->
  compare a b = Ok o <-> unique_ids a /\ unique_ids b /\ compare_spec o (denote a) (denote b).
Proof.
  intros Ha Hb. rewrite compare_unfold. split; intros (Ua & Ub & H); (split; [done|split; [done|]]);
    destruct (compare_flags a b Ua Ub Ha Hb) as [H1 H2];
    by apply (ordering_of_spec _ _ _ o H1 H2).
Qed.

(** ** Properties *)

(** C9: version vectors. [compare] answers exactly when neither vector repeats
    a counter id, and its answer is the pointwise order of the two counter
    functions (absent counters are zero): [Greater] iff the first dominates,
    [Concurrent] iff each has a counter the other has not seen. *)
Theorem compare_is_dominance (a b : Vector) (o : Ordering)
  (Ha : values_ok a) (Hb : values_ok b) :
  compare a b = Ok o <-> unique_ids a /\ unique_ids b /\ compare_spec o (denote a) (denote b).
Proof. by apply compare_dominance. Qed.

Lemma compare_is_dominance_witness :
  let a := mkVector [mkCounter 7 3; mkCounter 2 5] in
  let b := mkVector [mkCounter 2 5; mkCounter 9 0; mkCounter 7 1] in
  values_ok a /\ values_ok b /\ compare a b = Ok Greater /\
  compare_spec Greater (denote a) (denote b).
Proof.
  intros a b.
  assert (values_ok a) as Ha by (by repeat constructor).
  assert (values_ok b) as Hb by (by repeat constructor).
  assert (compare a b = Ok Greater) as E by reflexivity.
  split; [exact Ha|]. split; [exact Hb|]. split; [exact E|].
  exact (proj2 (proj2 (proj1 (compare_is_dominance a b Greater Ha Hb) E))).
Defined.

(** Comparison is a partial order test. Swapping the arguments mirrors
    the answer, every vector without repeated ids equals itself, and a vector
    with a repeated id is refused as a peer's bad message. *)
Theorem compare_antisymmetric (a b : Vector) :
  (forall o, compare a b = Ok o -> compare b a = Ok (flip o)) /\
  (unique_ids a -> compare a a = Ok Equal) /\
  (~ unique_ids a -> exists m, compare a b = Err (BepError.PeerBadMessage m)).
Proof.
  split_and!.
  - intros o (Ha & Hb & ->)%compare_unfold. apply compare_unfold. split_and!; [done..|].
    rewrite (compare_loop_swap (sort_by_id (counters a))).
    by destruct (compare_loop _ _ _ _) as [[] []].
  - intros Ha. apply compare_unfold. split_and!; [done..|].
    assert (forall l, compare_loop l l false false = (false, false)) as ->; [|done].
    intros l. induction l; [done|].
    rewrite compare_loop_cons, Z.compare_refl, Z.ltb_irrefl. done.
  - intros (m & E)%sorted_unique_err. exists m. unfold compare. by rewrite E.
Qed.

Lemma compare_antisymmetric_witness :
  compare (mkVector [mkCounter 1 4]) (mkVector [mkCounter 1 2; mkCounter 3 1]) = Ok Concurrent /\
  compare (mkVector [mkCounter 1 2; mkCounter 3 1]) (mkVector [mkCounter 1 4]) = Ok Concurrent.
Proof.
  split; [reflexivity|]. 
  exact (proj1 (compare_antisymmetric (mkVector [mkCounter 1 4])
           (mkVector [mkCounter 1 2; mkCounter 3 1])) Concurrent eq_refl).
Defined.

Local Ltac elect := do 2 eexists; split_and!; [reflexivity|reflexivity|auto].

(** Tie breaking. On vectors without repeated ids [resolve_conflict]
    answers, the winner and the loser are the two files, and the two devices
    of a conflict elect the same winner whichever of them runs it. *)
Theorem resolve_conflict_agreement (a b : FileInfo) (da db : bytes)
  (Hd : da <> db)
  (Ha : forall v, version a = Some v -> unique_ids v)
  (Hb : forall v, version b = Some v -> unique_ids v) :
  exists w l, resolve_conflict a da b db = Ok (w, l) /\
              resolve_conflict b db a da = Ok (w, l) /\
              ((w = a /\ l = b) \/ (w = b /\ l = a)).
Proof.
  assert (forall f, (forall v, version f = Some v -> unique_ids v) ->
            exists t, total_or_zero (version f) = Ok t) as Ht.
  { intros f Hf. unfold total_or_zero, total. destruct (version f) as [v|]; [|eauto].
    rewrite (proj2 (sorted_unique_ok v _) (conj (Hf v eq_refl) eq_refl)). simpl. eauto. }
  destruct (Ht a Ha) as [ta Ea], (Ht b Hb) as [tb Eb].
  unfold resolve_conflict. rewrite Ea, Eb. simpl.
  rewrite (Z.eqb_sym tb ta), (bytes_cmp_antisym da db).
  destruct (Z.eqb_spec ta tb) as [<-|Hne]; simpl.
  - destruct (deleted a) eqn:Da, (deleted b) eqn:Db; simpl; try elect;
      destruct (bytes_cmp da db) eqn:C; simpl; try (by apply bytes_cmp_eq in C); elect.
  - destruct (Z.ltb_spec tb ta), (Z.ltb_spec ta tb); try lia; elect.
Qed.

Lemma resolve_conflict_agreement_witness :
  let f n v := mkFileInfo n 0 0 0 (Some (mkVector [mkCounter 1 v])) 0 [] [] [] [] [] 0 0 0 0 None
                 0 [] 0 0 false false false in
  exists w l,
    resolve_conflict (f (lit "a") 3) (repeat 1 32) (f (lit "a") 4) (repeat 2 32) = Ok (w, l) /\
    resolve_conflict (f (lit "a") 4) (repeat 2 32) (f (lit "a") 3) (repeat 1 32) = Ok (w, l).
Proof.
  intros f.
  destruct (resolve_conflict_agreement (f (lit "a") 3) (f (lit "a") 4) (repeat 1 32) (repeat 2 32))
    as (w & l & H1 & H2 & _).
  - discriminate.
  - intros v [= <-]. by apply NoDup_singleton.
  - intros v [= <-]. by apply NoDup_singleton.
  - exists w, l. split; [exact H1|exact H2].
Defined.

End Conflict.
