(* ===== verification/Validate.v ===== *)
(** Validation of what peers send: the block list of a [FileInfo]
    ([bepository-bep/src/validate.rs]) and file names
    ([validate_file_name] of [bepository-storage/src/api.rs]). *)

From Stdlib Require Import ZArith Lia.
From stdpp Require Import base list strings.
From S2P Require Import Prelude BepTypes Base32 StoreKeys.

Local Open Scope Z_scope.
Local Open Scope bep_scope.

Module Validate.

(** ** Model *)

Definition MAX_BLOCK_SIZE : Z := 16 * 1024 * 1024.

(** The loop over the blocks with its running [expected_offset]. *)
Fixpoint check_blocks (bs : list bep.BlockInfo) (expected_offset : Z) : result BepError.t Z :=
  match bs with
  | [] => Ok expected_offset
  | block :: bs' =>
      if bep.bsize block <=? 0 then Err (BepError.PeerBadMessage "non-positive block size")
      else if MAX_BLOCK_SIZE <? bep.bsize block
      then Err (BepError.PeerBadMessage "block size exceeds 16 MiB maximum")
      else if negb (Nat.eqb (length (bep.hash block)) 32)
      then Err (BepError.PeerBadMessage "block hash is not 32 bytes")
      else if negb (bep.offset block =? expected_offset)
      then Err (BepError.PeerBadMessage "non-contiguous block list")
      else
        try next <- ok_or (checked_add_i64 expected_offset (bep.bsize block))
                          (BepError.PeerBadMessage "block list size overflows i64");
        check_blocks bs' next
  end.

Definition validate_file_info (file : bep.FileInfo) : result BepError.t unit :=
  if bep.size file <? 0 then Err (BepError.PeerBadMessage "negative file size")
  else
    try expected_offset <- check_blocks (bep.blocks file) 0;
    if (negb (Nat.eqb (length (bep.blocks file)) 0) && negb (expected_offset =? bep.size file))%bool
    then Err (BepError.PeerBadMessage "block list does not cover the file size")
    else Ok tt.

Fixpoint check_components (cs : list bytes) : result StorageError.t unit :=
  match cs with
  | [] => Ok tt
  | component :: cs' =>
      match component with
      | [] => Err (StorageError.InvalidInput "empty path component rejected")
      | _ :: _ =>
          if decide (component = lit "..")
          then Err (StorageError.InvalidInput "path traversal rejected")
          else check_components cs'
      end
  end.

Definition validate_file_name (name : bytes) : result StorageError.t unit :=
  match name with
  | [] => Err (StorageError.InvalidInput "empty file name")
  | _ :: _ =>
      if starts_with [SLASH] name then Err (StorageError.InvalidInput "absolute file path rejected")
      else if existsb (Z.eqb 0) name then Err (StorageError.InvalidInput "null byte in file name")
      else check_components (split_char SLASH name)
  end.

(** ** Specifications *)

Definition sizes (bs : list bep.BlockInfo) : Z := foldr (fun b acc => bep.bsize b + acc) 0 bs.

Definition block_ok (b : bep.BlockInfo) : Prop :=
  0 < bep.bsize b <= MAX_BLOCK_SIZE /\ length (bep.hash b) = 32%nat.

(** The blocks tile [base, base + sizes) in order. *)
Definition tiles (base : Z) (bs : list bep.BlockInfo) : Prop :=
  Forall block_ok bs /\
  forall i b, bs !! i = Some b -> bep.offset b = base + sizes (take i bs).

(** A well-formed file: its size is not negative and its blocks, if it has
    any, tile exactly [0, size). *)
Definition wf_file (f : bep.FileInfo) : Prop :=
  0 <= bep.size f /\ tiles 0 (bep.blocks f) /\
  (bep.blocks f = [] \/ sizes (bep.blocks f) = bep.size f).

(** Lexical resolution of path components below a root directory. *)
Definition walk (root : list bytes) (cs : list bytes) : list bytes :=
  fold_left (fun acc c =>
    if decide (c = lit ".") then acc
    else if decide (c = lit "..") then removelast acc
    else acc ++ [c]) cs root.

(** ** Block lists *)

Lemma sizes_app a b : sizes (a ++ b) = sizes a + sizes b.
Proof. induction a; simpl; lia. Qed.

Lemma sizes_nonneg bs : Forall block_ok bs -> 0 <= sizes bs.
Proof. induction 1 as [|b bs [? _]]; simpl; lia. Qed.

Lemma tiles_cons base b bs :
  tiles base (b :: bs) <-> block_ok b /\ bep.offset b = base /\ tiles (base + bep.bsize b) bs.
Proof.
  unfold tiles. rewrite Forall_cons. split.
  - intros [[Hb Hbs] Ho]. split; [done|]. split.
    { specialize (Ho O b eq_refl). simpl in Ho. lia. }
    split; [done|]. intros i c Hi. rewrite (Ho (S i) c Hi). simpl. lia.
  - intros (Hb & Ho & Hbs & Hi). split; [done|]. intros [|i] c.
    + intros [= <-]. simpl. lia.
    + intros Hc. rewrite (Hi i c Hc). simpl. lia.
Qed.

Lemma check_blocks_err bs off e :
  check_blocks bs off = Err e -> exists m, e = BepError.PeerBadMessage m.
Proof.
  revert off. induction bs as [|b bs IH]; intros off; simpl; [done|].
  repeat (case_match; [intros [= <-]; eauto|]).
  destruct (checked_add_i64 _ _); simpl; [apply IH|intros [= <-]; eauto].
Qed.

(** The loop accepts exactly the tilings that stay within [i64], and returns
    their end. *)
Lemma check_blocks_ok bs off r :
  0 <= off ->
  check_blocks bs off = Ok r <->
  tiles off bs /\ r = off + sizes bs /\ (bs = [] \/ off + sizes bs <= I64_MAX).
Proof.
  revert off. induction bs as [|b bs IH]; intros off Hoff.
  - simpl. split; [intros [= <-]|intros (_ & -> & _); f_equal; lia].
    split; [split; [constructor|done]|]. split; [lia|by left].
  - rewrite tiles_cons. unfold block_ok. cbn [check_blocks sizes foldr].
    change (foldr _ 0 bs) with (sizes bs).
    destruct (Z.leb_spec (bep.bsize b) 0); [split; [done|lia]|].
    destruct (Z.ltb_spec MAX_BLOCK_SIZE (bep.bsize b)); [split; [done|lia]|].
    destruct (Nat.eqb_spec (length (bep.hash b)) 32); [|split; [done|lia]].
    destruct (Z.eqb_spec (bep.offset b) off) as [<-|]; [|split; [done|lia]]. cbn [negb].
    unfold checked_add_i64. assert (I64_MIN <= bep.offset b + bep.bsize b) by (unfold I64_MIN; lia).
    destruct (Z.leb_spec (bep.offset b + bep.bsize b) I64_MAX).
    + replace (_ && _)%bool with true by lia. cbn [ok_or rbind]. rewrite IH by lia.
      split.
      * intros (Ht & -> & Hm). split; [done|]. split; [lia|]. right.
        destruct Hm as [->|]; simpl in *; lia.
      * intros ((_ & _ & Ht) & -> & [?|?]); [done|]. split; [done|]. split; [lia|]. right. lia.
    + replace (_ && _)%bool with false by lia. cbn [ok_or rbind]. split; [done|].
      intros ((_ & _ & [Ht _]) & _ & [?|?]); [done|]. pose proof (sizes_nonneg _ Ht). lia.
Qed.

(** ** Names *)

Lemma check_components_ok cs :
  check_components cs = Ok tt <-> Forall (fun c => c <> [] /\ c <> lit "..") cs.
Proof.
  induction cs as [|c cs IH]; simpl; [by split|]. rewrite Forall_cons, <- IH.
  destruct c as [|x c]; [split; [done|tauto]|]. case_decide; [split; [done|tauto]|].
  split; [|tauto]. intros ?. by split.
Qed.

Lemma check_components_err cs e :
  check_components cs = Err e -> exists m, e = StorageError.InvalidInput m.
Proof.
  induction cs as [|[|x c] cs IH]; simpl; [done|intros [= <-]; eauto|].
  case_decide; [intros [= <-]; eauto|done].
Qed.

Lemma split_char_slash_head n : starts_with [SLASH] n = true -> [] ∈ split_char SLASH n.
Proof.
  intros [r ->]%starts_with_true. simpl. by left.
Qed.

Lemma existsb_zero n : existsb (Z.eqb 0) n = false <-> 0 ∉ n.
Proof.
  rewrite <- not_true_iff_false, existsb_exists. split.
  - intros H Hin. apply H. exists 0. rewrite <- list_elem_of_In. done.
  - intros H (x & Hx & E). apply Z.eqb_eq in E as <-. apply H. by rewrite list_elem_of_In.
Qed.

Lemma walk_inside cs root :
  Forall (fun c => c <> [] /\ c <> lit "..") cs ->
  walk root cs = root ++ filter (fun c => c <> lit ".") cs.
Proof.
  unfold walk. intros H. revert root. induction H as [|c cs [_ Hc] Hcs IH]; intros root; simpl.
  - by rewrite app_nil_r.
  - rewrite IH, filter_cons. case_decide.
    + subst. by rewrite decide_False by auto.
    + rewrite decide_False, decide_True by done. by rewrite <- app_assoc.
Qed.

Lemma validate_name_components n :
  validate_file_name n = Ok tt <->
  n <> [] /\ (0 ∉ n) /\ Forall (fun c => c <> [] /\ c <> lit "..") (split_char SLASH n).
Proof.
  rewrite <- existsb_zero, <- check_components_ok. unfold validate_file_name.
  destruct n as [|x n]; [split; [done|tauto]|].
  destruct (starts_with [SLASH] (x :: n)) eqn:Hs.
  - split; [done|]. intros (_ & _ & Hc). apply check_components_ok in Hc.
    rewrite Forall_forall in Hc. by destruct (Hc [] (split_char_slash_head _ Hs)).
  - destruct (existsb (Z.eqb 0) (x :: n)); [split; [done|]|split; [done|tauto]].
    by intros (_ & ? & _).
Qed.

Lemma tiles_end bs base i b :
  tiles base bs -> bs !! i = Some b -> bep.offset b + bep.bsize b <= base + sizes bs.
Proof.
  intros [Hok Ho] Hi. rewrite (Ho i b Hi).
  rewrite <- (take_drop_middle bs i b Hi) at 2. rewrite sizes_app.
  cbn [sizes foldr]. change (foldr _ 0 (drop (S i) bs)) with (sizes (drop (S i) bs)).
  pose proof (sizes_nonneg (drop (S i) bs) (Forall_drop _ _ _ Hok)). lia.
Qed.

(** ** Properties *)

(** Block lists. A file with an [i64] size passes [validate_file_info]
    exactly when its size is not negative and its blocks (each of 1 byte to
    16 MiB with a 32-byte hash) tile [0, size) in order, or it has no blocks;
    every refusal is blamed on the peer. *)
Theorem validate_file_info_spec (f : bep.FileInfo) (Hsize : bep.size f <= I64_MAX) :
  (validate_file_info f = Ok tt <-> wf_file f) /\
  (forall e, validate_file_info f = Err e -> BepError.is_peer_fault e = true).
Proof.
  unfold validate_file_info, wf_file. split.
  - destruct (Z.ltb_spec (bep.size f) 0); [split; [done|lia]|].
    destruct (check_blocks (bep.blocks f) 0) as [r|e] eqn:E; cbn [rbind].
    + apply check_blocks_ok in E as (Ht & -> & _); [|done]. rewrite Z.add_0_l.
      destruct (bep.blocks f) as [|b bs]; simpl.
      * split; [|done]. intros _. split; [done|]. split; [done|by left].
      * destruct (Z.eqb_spec (bep.bsize b + sizes bs) (bep.size f)); simpl.
        -- split; [|done]. intros _. split; [done|]. split; [done|by right].
        -- split; [done|]. by intros (_ & _ & [?|?]).
    + split; [done|]. intros (_ & Ht & Hs).
      rewrite (proj2 (check_blocks_ok _ 0 (0 + sizes (bep.blocks f)) ltac:(lia))) in E; [done|].
      split; [exact Ht|]. split; [reflexivity|]. destruct Hs; [by left|right; lia].
  - intros e. case_match; [by intros [= <-]|].
    destruct (check_blocks (bep.blocks f) 0) as [r|e'] eqn:E; cbn [rbind].
    + case_match; by intros [= <-].
    + intros [= <-]. by apply check_blocks_err in E as [m ->].
Qed.

Lemma validate_file_info_spec_witness :
  let f := bep.mkFileInfo (lit "a") 5 0 0 None 0
             [bep.mkBlockInfo (repeat 1 32) 0 3; bep.mkBlockInfo (repeat 2 32) 3 2]
             [] [] [] [] 0 0 0 0 None 0 [] 0 0 false false false in
  bep.size f <= I64_MAX /\ validate_file_info f = Ok tt /\ wf_file f.
Proof.
  intros f. assert (bep.size f <= I64_MAX) as H by (by vm_compute).
  split; [exact H|]. split; [reflexivity|].
  exact (proj1 (proj1 (validate_file_info_spec f H)) eq_refl).
Defined.

(** Accepted blocks stay inside the file. After validation every block
    lies within [0, size) and two blocks at different positions do not
    overlap, so writing blocks at their offsets never clobbers another. *)
Theorem validated_blocks_in_bounds (f : bep.FileInfo) (Hsize : bep.size f <= I64_MAX)
  (Hv : validate_file_info f = Ok tt) :
  (forall i b, bep.blocks f !! i = Some b ->
     0 <= bep.offset b /\ bep.offset b + bep.bsize b <= bep.size f) /\
  (forall i j b c, (i < j)%nat -> bep.blocks f !! i = Some b -> bep.blocks f !! j = Some c ->
     bep.offset b + bep.bsize b <= bep.offset c).
Proof.
  assert (wf_file f) as (Hs & Ht & Hend).
  { unfold validate_file_info in Hv. destruct (Z.ltb_spec (bep.size f) 0); [done|].
    destruct (check_blocks (bep.blocks f) 0) as [r|] eqn:E; [|done]. cbn [rbind] in Hv.
    apply check_blocks_ok in E as (Ht & -> & _); [|done].
    split; [done|]. split; [done|]. destruct (bep.blocks f) as [|b bs]; [by left|right].
    rewrite Z.add_0_l in Hv. cbn [length Nat.eqb negb andb] in Hv.
    by destruct (Z.eqb_spec (sizes (b :: bs)) (bep.size f)). }
  split.
  - intros i b Hi. destruct Hend as [Hn|Hend]; [by rewrite Hn in Hi|].
    pose proof (tiles_end _ _ _ _ Ht Hi). destruct Ht as [Hok Ho]. rewrite (Ho i b Hi) in *.
    pose proof (sizes_nonneg (take i (bep.blocks f)) (Forall_take _ _ _ Hok)). lia.
  - intros i j b c Hij Hi Hj. destruct Ht as [Hok Ho].
    assert (take j (bep.blocks f) !! i = Some b) as Hi' by (by rewrite lookup_take_lt).
    assert (tiles 0 (take j (bep.blocks f))) as Ht'.
    { split; [by apply Forall_take|]. intros k d Hk.
      apply lookup_take_Some in Hk as [Hk Hlt]. rewrite (Ho k d Hk), take_take. do 2 f_equal.
      f_equal. lia. }
    pose proof (tiles_end _ _ _ _ Ht' Hi'). rewrite (Ho j c Hj). lia.
Qed.

Lemma validated_blocks_in_bounds_witness :
  let b1 := bep.mkBlockInfo (repeat 1 32) 0 3 in
  let b2 := bep.mkBlockInfo (repeat 2 32) 3 2 in
  let f := bep.mkFileInfo (lit "a") 5 0 0 None 0 [b1; b2] [] [] [] [] 0 0 0 0 None 0 [] 0 0
             false false false in
  bep.size f <= I64_MAX /\ validate_file_info f = Ok tt /\
  bep.offset b1 + bep.bsize b1 <= bep.offset b2.
Proof.
  intros b1 b2 f. assert (bep.size f <= I64_MAX) as H by (by vm_compute).
  split; [exact H|]. split; [reflexivity|].
  exact (proj2 (validated_blocks_in_bounds f H eq_refl) 0%nat 1%nat b1 b2
           ltac:(lia) eq_refl eq_refl).
Defined.

(** File names. [validate_file_name] accepts exactly the non-empty names
    without NUL bytes whose slash-separated components are neither empty nor
    ".."; an accepted name resolves to a path below any root directory it is
    joined to, and (being UTF-8, as every Rust string) is a name the key layout
    can encode. *)
Theorem validate_file_name_safe (n : bytes) (Hutf : utf8_valid n = true) :
  (validate_file_name n = Ok tt <->
   n <> [] /\ (0 ∉ n) /\ Forall (fun c => c <> [] /\ c <> lit "..") (split_char SLASH n)) /\
  (validate_file_name n = Ok tt ->
   StoreKeys.name_ok n /\
   forall root, exists below, walk root (split_char SLASH n) = root ++ below) /\
  (forall e, validate_file_name n = Err e -> exists m, e = StorageError.InvalidInput m).
Proof.
  split; [apply validate_name_components|]. split.
  - intros Hv. split.
    + split; [done|]. unfold validate_file_name in Hv.
      destruct n; [done|]. by destruct (starts_with [SLASH] _).
    + intros root. apply validate_name_components in Hv as (_ & _ & Hc).
      eexists. by apply walk_inside.
  - intros e. unfold validate_file_name. destruct n; [intros [= <-]; eauto|].
    repeat (case_match; [intros [= <-]; eauto|]). apply check_components_err.
Qed.

Lemma validate_file_name_safe_witness :
  utf8_valid (lit "docs/q3.pdf") = true /\ validate_file_name (lit "docs/q3.pdf") = Ok tt /\
  StoreKeys.name_ok (lit "docs/q3.pdf").
Proof.
  split; [reflexivity|]. split; [reflexivity|].
  exact (proj1 (proj1 (proj2 (validate_file_name_safe (lit "docs/q3.pdf") eq_refl)) eq_refl)).
Defined.

End Validate.
