(* ===== verification/DeviceId.v ===== *)
(** Device identifiers ([bepository-bep/src/device_id.rs]): 32 bytes, printed
    as 52 base-32 characters in four groups of 13, each followed by a Luhn
    check character, cut by hyphens into eight chunks of 7.

    Both directions regroup a bit stream through a 64-bit accumulator; the
    invariant of that accumulator ([Stream]) is stated once for any input and
    output widths. *)

From Stdlib Require Import ZArith Lia.
From stdpp Require Import base list strings.
From S2P Require Import Prelude.

Local Open Scope Z_scope.
Local Open Scope bep_scope.

Module DeviceId.

(** ** Model *)

Definition ALPHABET : bytes := lit "ABCDEFGHIJKLMNOPQRSTUVWXYZ234567".

Inductive DeviceIdError :=
| InvalidLength (n : nat)
| InvalidCharacter (c : Z)
| InvalidCheckDigit.

Definition decode_char (c : Z) : option Z :=
  if in_range 65 90 c then Some (c - 65)
  else if in_range 97 122 c then Some (c - 97)
  else if in_range 50 55 c then Some (c - 50 + 26)
  else None.

(** [ALPHABET[i as usize]]. *)
Definition alpha (v : Z) : Z := nth (Z.to_nat v) ALPHABET 0.

(** The sum of [luhn_check]: [f] is the current factor of [[1, 2].cycle()]. *)
Fixpoint luhn_sum (group : bytes) (f : Z) (sum : Z) : result DeviceIdError Z :=
  match group with
  | [] => Ok sum
  | ch :: group' =>
      try val <- ok_or (decode_char ch) (InvalidCharacter ch);
      let a := f * val in
      luhn_sum group' (3 - f) (sum + (a / 32 + a mod 32))
  end.

Definition luhn_check (group : bytes) : result DeviceIdError Z :=
  try sum <- luhn_sum group 1 0;
  let remainder := sum mod 32 in
  Ok (alpha ((32 - remainder) mod 32)).

(** [u8::to_ascii_uppercase]. *)
Definition to_ascii_uppercase (c : Z) : Z := if in_range 97 122 c then c - 32 else c.

(** The inner [while bits >= w] loop of both directions: [store] appends what
    the body writes for the extracted value. *)
Fixpoint drain (fuel : nat) (w : Z) (store : bytes -> Z -> bytes)
  (buffer bits : Z) (out : bytes) : Z * bytes :=
  match fuel with
  | O => (bits, out)
  | S fuel' =>
      if w <=? bits then
        let bits' := bits - w in
        drain fuel' w store buffer bits'
              (store out (Z.land (Z.shiftr buffer bits') (2 ^ w - 1)))
      else (bits, out)
  end.

(** [buffer = (buffer << k) | v] on [u64]. *)
Definition push_bits (buffer k v : Z) : Z := Z.lor (wrap_u64 (Z.shiftl buffer k)) v.

(** [if byte_idx < 32 { bytes[byte_idx] = v; byte_idx += 1 }]. *)
Definition store_byte (out : bytes) (v : Z) : bytes :=
  if Nat.ltb (length out) 32 then out ++ [v] else out.

Fixpoint decode_group (group : bytes) (st : Z * Z * bytes) : result DeviceIdError (Z * Z * bytes) :=
  match group with
  | [] => Ok st
  | c :: group' =>
      let '(buffer, bits, out) := st in
      try val <- ok_or (decode_char c) (InvalidCharacter c);
      let buffer := push_bits buffer 5 val in
      let '(bits, out) := drain 2 8 store_byte buffer (bits + 5) out in
      decode_group group' (buffer, bits, out)
  end.

(** [slice::chunks] and [chunks_exact] (equal here: 14 divides 56). *)
Fixpoint chunks_fuel (fuel n : nat) (l : bytes) : list bytes :=
  match fuel, l with
  | O, _ | _, [] => []
  | S fuel', _ :: _ => take n l :: chunks_fuel fuel' n (drop n l)
  end.
Definition chunks (n : nat) (l : bytes) : list bytes := chunks_fuel (length l) n l.

Fixpoint decode_chunks (cs : list bytes) (st : Z * Z * bytes) : result DeviceIdError (Z * Z * bytes) :=
  match cs with
  | [] => Ok st
  | chunk :: cs' =>
      let group := take 13 chunk in
      let expected_check := nth 13 chunk 0 in
      try check <- luhn_check group;
      if negb (check =? expected_check) then Err InvalidCheckDigit
      else
        try st' <- decode_group group st;
        decode_chunks cs' st'
  end.

(** [FromStr::from_str]. *)
Definition from_str (s : bytes) : result DeviceIdError bytes :=
  let clean := map to_ascii_uppercase (filter (fun b => b <> 45) s) in
  if negb (Nat.eqb (length clean) 56) then Err (InvalidLength (length clean))
  else
    try (_, _, out) <- decode_chunks (chunks 14 clean) (0, 0, []);
    Ok (out ++ repeat 0 (32 - length out)).

(** [DeviceId::parse]. *)
Definition parse (s : bytes) : option bytes := ok (from_str s).

Definition store_char (out : bytes) (v : Z) : bytes := out ++ [alpha v].

Definition encode_byte (st : Z * Z * bytes) (b : Z) : Z * Z * bytes :=
  let '(buffer, bits, out) := st in
  let buffer := push_bits buffer 8 b in
  let '(bits, out) := drain 2 5 store_char buffer (bits + 8) out in
  (buffer, bits, out).

Definition base32_chars (id : bytes) : bytes :=
  let '(buffer, bits, out) := fold_left encode_byte id (0, 0, []) in
  if 0 <? bits
  then out ++ [alpha (Z.land (wrap_u64 (Z.shiftl buffer (5 - bits))) 31)]
  else out.

Fixpoint luhnify (groups : list bytes) : result DeviceIdError bytes :=
  match groups with
  | [] => Ok []
  | g :: groups' =>
      try c <- luhn_check g;
      try rest <- luhnify groups';
      Ok (g ++ [c] ++ rest)
  end.

Fixpoint join_hyphen (cs : list bytes) : bytes :=
  match cs with
  | [] => []
  | [c] => c
  | c :: cs' => c ++ [45] ++ join_hyphen cs'
  end.

(** [Display::fmt]; an error is the panic of [expect("valid alphabet")]. *)
Definition fmt (id : bytes) : result DeviceIdError bytes :=
  let base32 := base32_chars id in
  try luhnified <- luhnify (map (fun i => take 13 (drop (i * 13) base32)) (seq 0 4));
  Ok (join_hyphen (chunks 7 luhnified)).

Definition id_ok (id : bytes) : Prop := length id = 32%nat /\ Forall is_byte id.

(** ** The alphabet *)

Definition is_val (v : Z) : Prop := 0 <= v < 32.

Lemma val_cases (P : Z -> Prop) :
  Forall P (map Z.of_nat (seq 0 32)) -> forall v, is_val v -> P v.
Proof.
  intros HF v Hv. rewrite Forall_forall in HF. apply HF, list_elem_of_fmap.
  exists (Z.to_nat v). unfold is_val in Hv. split; [lia|]. apply elem_of_seq. lia.
Qed.

Lemma alpha_facts v :
  is_val v ->
  decode_char (alpha v) = Some v /\ alpha v <> 45 /\ to_ascii_uppercase (alpha v) = alpha v.
Proof. revert v. apply val_cases. repeat constructor; done. Qed.

Lemma decode_char_val c v : decode_char c = Some v -> is_val v.
Proof.
  unfold decode_char, in_range, is_val. intros H.
  repeat case_match; simplify_eq; lia.
Qed.

Lemma decode_alpha v : is_val v -> decode_char (alpha v) = Some v.
Proof. apply alpha_facts. Qed.

Lemma alpha_inj u v : is_val u -> is_val v -> alpha u = alpha v -> u = v.
Proof.
  intros Hu Hv E. apply (f_equal decode_char) in E.
  rewrite !decode_alpha in E by done. congruence.
Qed.

(** ** The bit stream *)

(** After [V] (the value of the bits read so far) has been pushed, the
    accumulator holds its low 64 bits and the [vals] emitted so far are all of
    it but the last [bits] bits. *)
Record Stream (w V buffer bits : Z) (vals : list Z) : Prop := mkStream {
  st_buffer : buffer = wrap_u64 V;
  st_pos : 0 <= V;
  st_digits : Forall (is_digit (2 ^ w)) vals;
  st_vals : undigits (2 ^ w) vals = V / 2 ^ bits
}.

(** Pushing the next [k] bits. *)
Lemma Stream_push w V buffer bits vals k d :
  0 <= bits -> 0 <= k < 64 -> 0 <= d < 2 ^ k ->
  Stream w V buffer bits vals ->
  Stream w (V * 2 ^ k + d) (push_bits buffer k d) (bits + k) vals.
Proof.
  intros Hbits Hk Hd [Hb Hp Hds Hv]. constructor; [|nia|done|].
  - unfold push_bits, wrap_u64 in *. subst buffer. rewrite Z.shiftl_mul_pow2 by lia.
    rewrite Zmult_mod_idemp_l.
    assert (2 ^ k <= 2 ^ 64) by (apply Z.pow_le_mono_r; lia).
    rewrite (Z.add_mod (V * 2 ^ k)), (Z.mod_small d) by lia.
    replace (2 ^ 64) with (2 ^ (64 - k) * 2 ^ k) by (rewrite <- Z.pow_add_r by lia; f_equal; lia).
    rewrite Z.mul_mod_distr_r by (apply Z.pow_nonzero; lia).
    rewrite <- Z.shiftl_mul_pow2, lor_shiftl_add by lia. rewrite Z.shiftl_mul_pow2 by lia.
    symmetry. apply Z.mod_small.
    pose proof (Z.mod_pos_bound V (2 ^ (64 - k)) ltac:(lia)). nia.
  - rewrite Hv, Z.pow_add_r by lia. rewrite (Z.mul_comm (2 ^ bits)), <- Z.div_div by lia.
    rewrite Z.div_add_l, (Z.div_small d) by lia. f_equal. lia.
Qed.

(** Draining one output digit. *)
Lemma Stream_emit w V buffer bits vals :
  0 < w -> w <= bits <= 64 -> Stream w V buffer bits vals ->
  Stream w V buffer (bits - w)
    (vals ++ [Z.land (Z.shiftr buffer (bits - w)) (2 ^ w - 1)]).
Proof.
  intros Hw Hbits [Hb Hp Hds Hv].
  assert (Z.land (Z.shiftr buffer (bits - w)) (2 ^ w - 1) = (V / 2 ^ (bits - w)) mod 2 ^ w) as E.
  { rewrite Z.sub_1_r, <- Z.ones_equiv, Z.land_ones, Z.shiftr_div_pow2 by lia.
    subst buffer. unfold wrap_u64.
    replace (2 ^ 64) with (2 ^ (bits - w) * (2 ^ w * 2 ^ (64 - bits)))
      by (rewrite <- !Z.pow_add_r by lia; f_equal; lia).
    rewrite Z.rem_mul_r by (try apply Z.pow_nonzero; try apply Z.mul_pos_pos; lia).
    rewrite Z.mul_comm, Z.div_add, (Z.div_small (V mod _)), Z.add_0_l
      by (try apply Z.mod_pos_bound; lia).
    rewrite Z.rem_mul_r by lia. by rewrite Z.mul_comm, Z.mod_add, Z.mod_mod by lia. }
  rewrite E. constructor; [done..| |].
  - apply Forall_app. split; [done|]. constructor; [|done]. apply Z.mod_pos_bound. lia.
  - rewrite undigits_app by lia. change (undigits (2 ^ w) [?x]) with x. simpl.
    rewrite Z.pow_1_r, Hv. replace (2 ^ bits) with (2 ^ (bits - w) * 2 ^ w)
      by (rewrite <- Z.pow_add_r by lia; f_equal; lia).
    rewrite <- Z.div_div by lia. pose proof (Z.div_mod (V / 2 ^ (bits - w)) (2 ^ w)). 
    change (undigits (2 ^ w) [(V / 2 ^ (bits - w)) mod 2 ^ w]) with ((V / 2 ^ (bits - w)) mod 2 ^ w).
    lia.
Qed.

(** The state after [n] bits of value [V]: at most [w - 1] bits pending. *)
Definition Regroup (w : Z) (store : bytes -> Z -> bytes) (n V : Z) (st : Z * Z * bytes) : Prop :=
  let '(buffer, bits, out) := st in
  exists vals, Stream w V buffer bits vals /\ 0 <= bits < w /\
    n = w * Z.of_nat (length vals) + bits /\ out = fold_left store vals [].

Lemma drain_ok fuel w store V buffer bits vals :
  0 < w -> 0 <= bits <= 64 -> bits < w * Z.of_nat (S fuel) ->
  Stream w V buffer bits vals ->
  let '(bits', out) := drain fuel w store buffer bits (fold_left store vals []) in
  Regroup w store (w * Z.of_nat (length vals) + bits) V (buffer, bits', out).
Proof.
  intros Hw. revert bits vals. induction fuel as [|fuel IH]; intros bits vals Hb Hf Hs.
  - simpl. exists vals. split_and!; [done|lia..|lia|done].
  - cbn [drain]. destruct (Z.leb_spec w bits).
    + apply Stream_emit in Hs as Hs'; [|lia..].
      specialize (IH (bits - w) _ ltac:(lia) ltac:(lia) Hs').
      rewrite fold_left_app in IH. cbn [fold_left] in IH.
      destruct (drain _ _ _ _ _ _) as [bits' out]. cbn [Regroup] in *.
      destruct IH as (vals' & ? & ? & Hn & ?). exists vals'. split_and!; try done; try lia.
      rewrite <- Hn, length_app. cbn [length]. lia.
    + exists vals. split_and!; [done|lia..|lia|done].
Qed.

Definition push_val (k w : Z) (store : bytes -> Z -> bytes) (st : Z * Z * bytes) (d : Z)
  : Z * Z * bytes :=
  let '(buffer, bits, out) := st in
  let buffer := push_bits buffer k d in
  let '(bits, out) := drain 2 w store buffer (bits + k) out in
  (buffer, bits, out).

Lemma push_val_ok k w store n V st d :
  0 < w <= 32 -> 0 <= k < 32 -> k <= w * 2 -> 0 <= d < 2 ^ k -> Regroup w store n V st ->
  Regroup w store (n + k) (V * 2 ^ k + d) (push_val k w store st d).
Proof.
  destruct st as [[buffer bits] out]. intros Hw Hk Hkw Hd (vals & Hs & Hb & -> & ->).
  unfold push_val. apply (Stream_push _ _ _ _ _ k d) in Hs; [|lia..].
  apply (drain_ok 2 w store) in Hs as H; [|lia..].
  destruct (drain _ _ _ _ _ _) as [bits' out']. by rewrite <- Z.add_assoc.
Qed.

Lemma push_vals_ok k w store ds :
  0 < w <= 32 -> 0 <= k < 32 -> k <= w * 2 -> Forall (is_digit (2 ^ k)) ds ->
  Regroup w store (k * Z.of_nat (length ds)) (undigits (2 ^ k) ds)
    (fold_left (push_val k w store) ds (0, 0, [])).
Proof.
  intros Hw Hk Hkw. induction ds as [|d ds IH] using rev_ind; intros H.
  - exists []. split; [|simpl; split_and!; lia || done]. constructor; try done.
  - apply Forall_app in H as [Hds Hd]. inversion_clear Hd.
    rewrite fold_left_app, length_app, undigits_app by (destruct (Z.eq_dec k 0); [subst|]; lia).
    cbn [fold_left length]. change (undigits (2 ^ k) [d]) with d.
    replace (k * Z.of_nat (length ds + 1)) with (k * Z.of_nat (length ds) + k) by lia.
    change (Z.of_nat 1) with 1. rewrite Z.pow_1_r. apply push_val_ok; auto.
Qed.

(** ** Printing *)

Lemma fold_store_char vals out : fold_left store_char vals out = out ++ map alpha vals.
Proof.
  revert out. induction vals as [|v vals IH]; intros out; simpl; [by rewrite app_nil_r|].
  rewrite IH. unfold store_char. by rewrite <- app_assoc.
Qed.

Lemma fold_store_byte vals :
  (length vals <= 32)%nat -> fold_left store_byte vals [] = vals.
Proof.
  induction vals as [|v vals IH] using rev_ind; intros H; [done|].
  rewrite length_app in H. simpl in H. rewrite fold_left_app. simpl. rewrite IH by lia.
  unfold store_byte. by rewrite (proj2 (Nat.ltb_lt _ _)) by lia.
Qed.

(** The 52 characters are the base-32 digits of the id followed by four zero
    bits. *)
Lemma base32_chars_spec id :
  id_ok id -> base32_chars id = map alpha (digits 32 52 (of_be id * 16)).
Proof.
  intros [Hlen Hid]. unfold base32_chars.
  pose proof (push_vals_ok 8 5 store_char id ltac:(lia) ltac:(lia) ltac:(lia) Hid) as H.
  change (fold_left encode_byte id) with (fold_left (push_val 8 5 store_char) id).
  destruct (fold_left _ id _) as [[buffer bits] out]. rewrite Hlen in H.
  destruct H as (vals & [Hb Hp Hds Hv] & Hbits & Hn & ->).
  change (undigits (2 ^ 8) id) with (of_be id) in *. change (2 ^ 5) with 32 in *.
  assert (length vals = 51%nat /\ bits = 1) as [Hl ->] by lia. simpl (0 <? 1).
  rewrite fold_store_char. change (5 - 1) with 4. subst buffer.
  set (last := Z.land _ 31).
  assert (last = (of_be id * 16) mod 32) as El.
  { unfold last, wrap_u64. change 31 with (Z.ones 5). rewrite Z.land_ones by lia.
    rewrite Z.shiftl_mul_pow2, Zmult_mod_idemp_l by lia. change (2 ^ 4) with 16.
    change (2 ^ 64) with (32 * 2 ^ 59). rewrite Z.rem_mul_r by lia.
    by rewrite Z.mul_comm, (Z.mul_comm 32), Z.mod_add, Z.mod_mod by lia. }
  change ([] ++ map alpha vals) with (map alpha vals).
  rewrite <- (map_app alpha vals [last] : _ = map alpha vals ++ [alpha last]). f_equal.
  assert (undigits 32 (vals ++ [last]) = of_be id * 16) as <-.
  { rewrite undigits_app by lia. rewrite Hv, El. change (2 ^ 1) with 2. cbn [length].
    change (32 ^ Z.of_nat 1) with 32. change (undigits 32 [?x]) with x.
    change (undigits 32 [(of_be id * 16) mod 32]) with ((of_be id * 16) mod 32).
    pose proof (Z.div_mod (of_be id) 2). pose proof (Z.div_mod (of_be id * 16) 32).
    replace (of_be id * 16 / 32) with (of_be id / 2) in * by
      (change 32 with (2 * 16); rewrite Z.div_mul_cancel_r; lia). lia. }
  assert (52%nat = length (vals ++ [last])) as -> by (rewrite length_app; simpl; lia).
  symmetry. apply (digits_undigits 32); [lia|]. apply Forall_app. split; [done|].
  constructor; [|done]. rewrite El. apply Z.mod_pos_bound. lia.
Qed.

Definition is_char (c : Z) : Prop := exists v, is_val v /\ c = alpha v.

Lemma luhn_sum_alpha vs f sum :
  Forall is_val vs -> exists s, luhn_sum (map alpha vs) f sum = Ok s.
Proof.
  intros H. revert f sum. induction H as [|v vs Hv Hvs IH]; intros f sum; simpl; [eauto|].
  rewrite decode_alpha by done. simpl. apply IH.
Qed.

Lemma luhn_check_alpha vs : Forall is_val vs -> exists c, luhn_check (map alpha vs) = Ok c /\ is_char c.
Proof.
  intros H. destruct (luhn_sum_alpha vs 1 0 H) as [s Hs]. unfold luhn_check. rewrite Hs. simpl.
  eexists. split; [done|]. eexists. split; [|done]. apply Z.mod_pos_bound. lia.
Qed.

Lemma decode_group_alpha vs st :
  Forall is_val vs ->
  decode_group (map alpha vs) st = Ok (fold_left (push_val 5 8 store_byte) vs st).
Proof.
  intros H. revert st. induction H as [|v vs Hv Hvs IH]; intros [[buffer bits] out]; [done|].
  cbn [map decode_group fold_left]. rewrite decode_alpha by done. cbn [ok_or rbind push_val].
  destruct (drain _ _ _ _ _ _) as [bits' out']. apply IH.
Qed.

Lemma chunks_fuel_app fuel n a l :
  length a = n -> (0 < n)%nat -> chunks_fuel (S fuel) n (a ++ l) = a :: chunks_fuel fuel n l.
Proof.
  intros <- Hn. destruct a as [|x a]; [simpl in Hn; lia|].
  transitivity (take (length (x :: a)) ((x :: a) ++ l) ::
                chunks_fuel fuel (length (x :: a)) (drop (length (x :: a)) ((x :: a) ++ l)));
    [done|]. by rewrite take_app_length, drop_app_length.
Qed.

(** Luhnified groups decode, group by group, to the same values. *)
Lemma luhnify_decode gs :
  Forall (fun g => length g = 13%nat /\ Forall is_val g) gs ->
  exists L, luhnify (map (map alpha) gs) = Ok L /\
    length L = (14 * length gs)%nat /\ Forall is_char L /\
    forall fuel st, (length L <= fuel)%nat ->
      decode_chunks (chunks_fuel fuel 14 L) st =
      Ok (fold_left (push_val 5 8 store_byte) (concat gs) st).
Proof.
  induction 1 as [|g gs [Hg Hv] Hgs (L & HL & Hlen & HC & Hdec)]; simpl.
  { exists []. split_and!; [done..|constructor|]. by intros [|fuel] st. }
  destruct (luhn_check_alpha g Hv) as (c & Hc & Hcc). rewrite Hc. cbn [rbind]. rewrite HL.
  cbn [rbind]. eexists. split; [done|]. rewrite !length_app, length_map, Hg. split; [simpl; lia|].
  split.
  { apply Forall_app. split; [|by constructor]. apply Forall_map.
    eapply Forall_impl; [done|]. intros v ?. by exists v. }
  intros [|fuel] st Hf; [simpl in Hf; lia|].
  rewrite (cons_middle c (map alpha g)), app_assoc.
  assert (length (map alpha g ++ [c]) = 14%nat) as Hgc by (by rewrite length_app, length_map, Hg).
  rewrite chunks_fuel_app by (done || lia).
  cbn [decode_chunks]. rewrite take_app_length' by (by rewrite length_map).
  rewrite Hc. cbn [rbind]. rewrite app_nth2 by (rewrite length_map, Hg; lia).
  rewrite length_map, Hg, Nat.sub_diag. cbn [nth]. rewrite Z.eqb_refl. cbn [negb].
  rewrite decode_group_alpha by done. cbn [rbind]. rewrite Hdec by (simpl in Hf; lia).
  by rewrite fold_left_app.
Qed.

(** ** Chunking *)

Lemma chunks_fuel_concat fuel n l :
  (0 < n)%nat -> (length l <= fuel)%nat -> concat (chunks_fuel fuel n l) = l.
Proof.
  intros Hn. revert l. induction fuel as [|fuel IH]; intros [|x l] Hl; try done; [simpl in Hl; lia|].
  cbn [chunks_fuel concat]. rewrite IH; [apply take_drop|]. rewrite length_drop. simpl in *. lia.
Qed.

Lemma chunks_fuel_length fuel n k l :
  (0 < n)%nat -> length l = (n * k)%nat -> (length l <= fuel)%nat ->
  length (chunks_fuel fuel n l) = k.
Proof.
  intros Hn. revert k l. induction fuel as [|fuel IH]; intros k [|x l] Hk Hl;
    try (simpl in *; destruct k; nia).
  cbn [chunks_fuel length]. destruct k as [|k]; [simpl in Hk; lia|]. f_equal.
  rewrite Nat.mul_succ_r in Hk. apply IH; rewrite length_drop; cbn [length] in *; lia.
Qed.

Lemma join_hyphen_filter cs :
  Forall (Forall (fun b => b <> 45)) cs -> filter (fun b => b <> 45) (join_hyphen cs) = concat cs.
Proof.
  assert (forall l : bytes, Forall (fun b => b <> 45) l -> filter (fun b => b <> 45) l = l) as Hid.
  { induction 1; [done|]. rewrite filter_cons_True by done. by f_equal. }
  induction 1 as [|c cs Hc Hcs IH]; [done|]. destruct cs as [|c' cs].
  - simpl. rewrite app_nil_r. by apply Hid.
  - change (join_hyphen (c :: c' :: cs)) with (c ++ [45] ++ join_hyphen (c' :: cs)).
    rewrite !filter_app, IH, Hid by done. done.
Qed.

Lemma join_hyphen_length cs :
  length (join_hyphen cs) = (length (concat cs) + (length cs - 1))%nat.
Proof.
  induction cs as [|c cs IH]; [done|]. destruct cs as [|c' cs]; [simpl; rewrite app_nil_r; lia|].
  change (join_hyphen (c :: c' :: cs)) with (c ++ [45] ++ join_hyphen (c' :: cs)).
  rewrite !length_app, IH. cbn [concat length]. rewrite !length_app. lia.
Qed.

(** ** Properties *)

Lemma groups_ok (vs : list Z) :
  length vs = 52%nat -> Forall is_val vs ->
  let gs := map (fun i => take 13 (drop (i * 13) vs)) (seq 0 4) in
  Forall (fun g => length g = 13%nat /\ Forall is_val g) gs /\ concat gs = vs /\
  map (fun i => take 13 (drop (i * 13) (map alpha vs))) (seq 0 4) = map (map alpha) gs.
Proof.
  intros Hl Hv gs. split_and!.
  - apply Forall_map, Forall_forall. intros i Hi%elem_of_seq. split.
    + rewrite length_take, length_drop. lia.
    + by apply Forall_take, Forall_drop.
  - unfold gs. cbn [seq map concat Nat.mul Nat.add]. rewrite app_nil_r, drop_0.
    etrans; [|apply (take_drop 13)]. f_equal.
    etrans; [|apply (take_drop 13)]. rewrite drop_drop. f_equal.
    etrans; [|apply (take_drop 13)]. rewrite drop_drop. f_equal.
    by apply take_ge; rewrite length_drop, Hl.
  - unfold gs. rewrite map_map. apply map_ext. intros i. by rewrite <- firstn_map, <- skipn_map.
Qed.

Lemma char_facts L :
  Forall is_char L ->
  Forall (fun b => b <> 45) L /\ map to_ascii_uppercase L = L.
Proof.
  induction 1 as [|c L (v & Hv & ->) HL [IH1 IH2]]; [by split|].
  destruct (alpha_facts v Hv) as (_ & H1 & H2). split; [by constructor|].
  cbn [map]. by rewrite IH2, H2.
Qed.

Lemma Forall_chunks (P : Z -> Prop) fuel n l :
  Forall P l -> Forall (Forall P) (chunks_fuel fuel n l).
Proof.
  revert l. induction fuel as [|fuel IH]; intros [|x l] H; try constructor.
  - by apply Forall_take.
  - by apply IH, Forall_drop.
Qed.

(** Printing and parsing device ids. Every 32-byte id prints (the
    [expect] never panics) as 63 characters, eight chunks of 7 separated by
    hyphens, and parsing that text gives the id back. *)
Theorem device_id_roundtrip (id : bytes) (Hid : id_ok id) :
  exists s, fmt id = Ok s /\ length s = 63%nat /\ from_str s = Ok id.
Proof.
  pose proof (base32_chars_spec id Hid) as Hb. destruct Hid as [Hlen Hbytes].
  set (vs := digits 32 52 (of_be id * 16)) in *.
  assert (length vs = 52%nat) as Hl by apply length_digits.
  assert (Forall is_val vs) as Hv by (by apply (digits_ok 32)).
  destruct (groups_ok vs Hl Hv) as (Hgs & Hcat & Hmap). cbv zeta in Hmap, Hcat, Hgs.
  set (gs := map (fun i => take 13 (drop (i * 13) vs)) (seq 0 4)) in *.
  destruct (luhnify_decode gs Hgs) as (L & HL & Hlen' & HC & Hdec).
  change (length L = 56%nat) in Hlen'. apply char_facts in HC as [Hno45 Hup].
  unfold fmt. rewrite Hb, Hmap, HL. cbn [rbind]. eexists. split; [done|]. split.
  { unfold chunks. rewrite join_hyphen_length, chunks_fuel_concat, (chunks_fuel_length _ 7 8) by lia. lia. }
  assert (map to_ascii_uppercase (filter (fun b => b <> 45) (join_hyphen (chunks 7 L))) = L) as Hclean.
  { unfold chunks. rewrite join_hyphen_filter by (by apply Forall_chunks).
    by rewrite chunks_fuel_concat by lia. }
  unfold from_str. rewrite Hclean, Hlen'. cbn [Nat.eqb negb].
  unfold chunks. rewrite Hdec by done. rewrite Hcat. cbn [rbind].
  pose proof (push_vals_ok 5 8 store_byte vs ltac:(lia) ltac:(lia) ltac:(lia) Hv) as H.
  destruct (fold_left _ vs _) as [[buffer bits] out].
  destruct H as (vals & [_ _ Hds Hvals] & Hbits & Hn & ->). rewrite Hl in Hn.
  assert (length vals = 32%nat /\ bits = 4) as [Hl32 ->] by lia.
  rewrite fold_store_byte, Hl32 by lia. cbn [Nat.sub repeat]. rewrite app_nil_r. f_equal.
  change (2 ^ 5) with 32 in Hvals. unfold vs in Hvals. rewrite undigits_digits in Hvals by lia.
  pose proof (of_be_bound id Hbytes) as Hbound. rewrite Hlen in Hbound.
  rewrite Z.mod_small in Hvals
    by (change (32 ^ Z.of_nat 52) with (256 ^ Z.of_nat 32 * 16); lia).
  change (2 ^ 4) with 16 in Hvals. rewrite Z.div_mul in Hvals by lia.
  rewrite <- (to_be_of_be id), <- (to_be_of_be vals) by done.
  rewrite Hl32, Hlen. f_equal. exact Hvals.
Qed.

Lemma device_id_roundtrip_witness :
  id_ok (map Z.of_nat (seq 0 32)) /\
  exists s, fmt (map Z.of_nat (seq 0 32)) = Ok s /\ from_str s = Ok (map Z.of_nat (seq 0 32)).
Proof.
  assert (id_ok (map Z.of_nat (seq 0 32))) as H.
  { split; [done|]. repeat constructor; done. }
  split; [exact H|]. destruct (device_id_roundtrip _ H) as (s & H1 & _ & H2).
  exists s. split; [exact H1|exact H2].
Defined.

(** ** Error detection *)

(** What a character of value [v] adds to the sum under factor [f]. *)
Definition luhn_term (f v : Z) : Z := f * v / 32 + (f * v) mod 32.

Lemma luhn_term_inj f u v :
  f = 1 \/ f = 2 -> is_val u -> is_val v ->
  luhn_term f u mod 32 = luhn_term f v mod 32 -> u = v.
Proof.
  unfold luhn_term, is_val. intros [-> | ->] Hu Hv; Z.to_euclidean_division_equations; lia.
Qed.

Lemma luhn_sum_shift g f s d t : luhn_sum g f s = Ok t -> luhn_sum g f (s + d) = Ok (t + d).
Proof.
  revert f s. induction g as [|c g IH]; intros f s; simpl; [by intros [= ->]|].
  destruct (decode_char c); simpl; [|done]. intros H. rewrite <- (IH _ _ H). f_equal. lia.
Qed.

(** Replacing one character moves the sum by the difference of its terms. *)
Lemma luhn_sum_replace pre c post v f s t :
  f = 1 \/ f = 2 -> decode_char c = Some v -> luhn_sum (pre ++ c :: post) f s = Ok t ->
  exists fp, (fp = 1 \/ fp = 2) /\
    forall c' v', decode_char c' = Some v' ->
      luhn_sum (pre ++ c' :: post) f s = Ok (t + (luhn_term fp v' - luhn_term fp v)).
Proof.
  intros Hf Hc. revert f s Hf. induction pre as [|p pre IH]; intros f s Hf; cbn [app luhn_sum].
  - rewrite Hc. cbn [ok_or rbind]. intros H. exists f. split; [done|]. intros c' v' ->.
    cbn [ok_or rbind]. rewrite <- (luhn_sum_shift _ _ _ _ _ H). f_equal. unfold luhn_term. lia.
  - destruct (decode_char p); cbn [ok_or rbind]; [|done]. intros H.
    eapply IH in H; [exact H|]. destruct Hf; subst; [right|left]; lia.
Qed.

(** Check characters catch typing errors. Two groups that differ in one
    character, replaced by one of another value, never have the same Luhn
    check character, so [from_str] cannot accept both. *)
Theorem luhn_detects_substitution (pre post : bytes) (c c' v v' k k' : Z)
  (Hc : decode_char c = Some v) (Hc' : decode_char c' = Some v') (Hne : v <> v')
  (Hk : luhn_check (pre ++ c :: post) = Ok k) (Hk' : luhn_check (pre ++ c' :: post) = Ok k') :
  k <> k'.
Proof.
  unfold luhn_check in *. destruct (luhn_sum (pre ++ c :: post) 1 0) as [t|] eqn:E; [|done].
  destruct (luhn_sum_replace pre c post v 1 0 t) as (fp & Hfp & Hr); [by left|done..|].
  rewrite (Hr c' v' Hc') in Hk'. cbn [rbind] in *. injection Hk as <-. injection Hk' as <-.
  intros Heq. apply Hne. apply (luhn_term_inj fp); [done|by eapply decode_char_val..|].
  apply alpha_inj in Heq; [|apply Z.mod_pos_bound; lia..].
  Z.to_euclidean_division_equations. lia.
Qed.

Lemma luhn_detects_substitution_witness :
  luhn_check (lit "AAAAAAAAAAAAA") = Ok 65 /\ luhn_check (lit "BAAAAAAAAAAAA") = Ok 55 /\ 65 <> 55.
Proof.
  split; [reflexivity|]. split; [reflexivity|].
  exact (luhn_detects_substitution [] (lit "AAAAAAAAAAAA") 65 66 0 1 65 55
           eq_refl eq_refl ltac:(discriminate) eq_refl eq_refl).
Defined.

End DeviceId.
