(* ===== verification/Framing.v ===== *)
(** Message framing ([bepository-bep/src/framing.rs]): length-prefixed headers
    and bodies, LZ4 bodies, and the Hello exchange.

    A reader is the list of bytes the peer has sent and will ever send (a read
    past its end is the end of the stream); a writer is the bytes accepted so
    far and the number of bytes after which the connection breaks, if any.
    Protobuf and LZ4 are parameters with their round-trip laws. *)

From Stdlib Require Import ZArith Lia.
From stdpp Require Import base list strings.
From S2P Require Import Prelude BepTypes Codec.

Local Open Scope Z_scope.
Local Open Scope bep_scope.

Module Framing.

(** ** Data *)

Definition MAX_MESSAGE_SIZE : Z := 500 * 1024 * 1024.

Record Header := mkHeader { htype : Z; compression : Z }.

Definition COMPRESSION_NONE : Z := 0.
Definition COMPRESSION_LZ4 : Z := 1.

(** [header.compression() == MessageCompression::Lz4]: the accessor maps
    unknown values to the default, None. *)
Definition is_lz4 (h : Header) : bool := compression h =? COMPRESSION_LZ4.

Record RawMessage := mkRaw { header : Header; body : bytes }.

Record Hello := mkHello {
  device_name : bytes;
  client_name : bytes;
  client_version : bytes;
  num_connections : Z;
  timestamp : Z
}.

Record Writer := mkWriter { sent : bytes; limit : option nat }.

Definition R := SE bytes BepError.t.
Definition W := SE Writer BepError.t.

(** [AsyncReadExt::read_exact] with its error mapped as everywhere here. *)
Definition read_exact (n : nat) : R bytes := fun s =>
  if Nat.leb n (length s) then (drop n s, Ok (take n s))
  else ([], Err (BepError.NetworkError "early eof")).

Definition read_u16 : R Z := do! b <- read_exact 2; se_ret (of_be b).
Definition read_u32 : R Z := do! b <- read_exact 4; se_ret (of_be b).

(** [AsyncWriteExt::write_all]. *)
Definition write_all (data : bytes) : W unit := fun w =>
  let out := sent w ++ data in
  match limit w with
  | Some n =>
      if Nat.leb (length out) n then (mkWriter out (limit w), Ok tt)
      else (mkWriter (take n out) (limit w), Err (BepError.NetworkError "broken pipe"))
  | None => (mkWriter out (limit w), Ok tt)
  end.

Definition flush : W unit := se_ret tt.

Section WithCodecs.
Context `{!Codec Header} `{!Codec Hello}.
(** [lz4_flex::compress] and [lz4_flex::decompress] (with the claimed size). *)
Context (lz4_compress : bytes -> bytes) (lz4_decompress : bytes -> nat -> option bytes).
(** [env!("CARGO_PKG_VERSION")]. *)
Context (CLIENT_VERSION : bytes).

(** ** Reading *)

Definition read_header_prefixed : R bytes :=
  do! len <- read_u16;
  if MAX_MESSAGE_SIZE <? len then se_err (BepError.PeerBadMessage "message too large")
  else read_exact (Z.to_nat len).

Definition read_body_prefixed : R bytes :=
  do! len <- read_u32;
  if MAX_MESSAGE_SIZE <? len then se_err (BepError.PeerBadMessage "message too large")
  else read_exact (Z.to_nat len).

Definition decompress_lz4 (data : bytes) : result BepError.t bytes :=
  if Nat.ltb (length data) 4
  then Err (BepError.PeerBadMessage "LZ4 data too short for length prefix")
  else
    let uncompressed_size := of_be (take 4 data) in
    if MAX_MESSAGE_SIZE <? uncompressed_size
    then Err (BepError.PeerBadMessage "claimed uncompressed size exceeds maximum")
    else
      try decompressed <- ok_or (lz4_decompress (drop 4 data) (Z.to_nat uncompressed_size))
                                (BepError.PeerBadMessage "lz4");
      if negb (Z.of_nat (length decompressed) =? uncompressed_size)
      then Err (BepError.PeerBadMessage "decompressed size does not match claimed")
      else Ok decompressed.

Definition read_message : R RawMessage :=
  do! header_buf <- read_header_prefixed;
  do! h <- se_lift (ok_or (decode header_buf) (BepError.PeerBadMessage "protobuf decode error"));
  do! body_buf <- read_body_prefixed;
  do! b <- (if is_lz4 h then se_lift (decompress_lz4 body_buf) else se_ret body_buf);
  se_ret (mkRaw h b).

(** ** Writing *)

Definition write_header_prefixed (data : bytes) : W unit :=
  if U16_MAX <? Z.of_nat (length data)
  then se_err (BepError.Internal "header data too large for u16")
  else
    run! write_all (to_be 2 (Z.of_nat (length data)));
    write_all data.

Definition write_body_prefixed (data : bytes) : W unit :=
  if U32_MAX <? Z.of_nat (length data)
  then se_err (BepError.Internal "body data too large for u32")
  else
    run! write_all (to_be 4 (Z.of_nat (length data)));
    write_all data.

(** The size prefix panics on more than [u32::MAX] bytes ([expect]); the
    prefix is then unspecified here. *)
Definition compress_lz4 (data : bytes) : bytes :=
  to_be 4 (Z.of_nat (length data)) ++ lz4_compress data.

Definition header_to_write (h : Header) (compress : bool) : Header :=
  if compress then mkHeader (htype h) COMPRESSION_LZ4 else h.

Definition write_message (h : Header) (b : bytes) (compress : bool) : W unit :=
  run! write_header_prefixed (encode (header_to_write h compress));
  run! write_body_prefixed (if compress then compress_lz4 b else b);
  flush.

(** ** Hello *)

Definition HELLO_MAGIC : Z := 0x2EA7D90B.
Definition MAX_HELLO_SIZE : Z := 32 * 1024.
Definition CLIENT_NAME : bytes := lit "bepository".

Definition our_hello (name : bytes) (now : Z) : Hello :=
  mkHello name CLIENT_NAME CLIENT_VERSION 1 now.

(** [now] is the time in seconds since the Unix epoch (negative before it).
    The length prefix panics beyond [u16::MAX] bytes ([expect]). *)
Definition send_hello (name : bytes) (now : Z) : W unit :=
  if now <? 0 then se_err (BepError.Internal "failed to get system time")
  else if I64_MAX <? now then se_err (BepError.Internal "timestamp exceeds i64::MAX")
  else
    let encoded := encode (our_hello name now) in
    run! write_all (to_be 4 HELLO_MAGIC ++ to_be 2 (Z.of_nat (length encoded)) ++ encoded);
    flush.

Definition recv_hello : R Hello :=
  do! magic <- read_u32;
  if negb (magic =? HELLO_MAGIC) then se_err (BepError.PeerBadHello "bad magic")
  else
    do! len <- read_u16;
    if MAX_HELLO_SIZE <? len then se_err (BepError.PeerBadHello "hello message too large")
    else
      do! buf <- read_exact (Z.to_nat len);
      do! hello <- se_lift (ok_or (decode buf) (BepError.PeerBadMessage "protobuf decode error"));
      if bool_decide (client_name hello = []) then se_err (BepError.PeerBadHello "peer sent empty client_name")
      else if bool_decide (device_name hello = []) then se_err (BepError.PeerBadHello "peer sent empty device_name")
      else se_ret hello.

(** ** Frames *)

(** The bytes of one framed message. *)
Definition frame (h : Header) (b : bytes) (compress : bool) : bytes :=
  let hb := encode (header_to_write h compress) in
  let bb := if compress then compress_lz4 b else b in
  to_be 2 (Z.of_nat (length hb)) ++ hb ++ to_be 4 (Z.of_nat (length bb)) ++ bb.

(** What may be framed: the header fits its prefix, the body as sent and the
    body itself fit the limit, and an uncompressed message is not marked
    compressed. *)
Definition frameable (h : Header) (b : bytes) (compress : bool) : Prop :=
  Z.of_nat (length (encode (header_to_write h compress))) <= U16_MAX /\
  Z.of_nat (length (if compress then compress_lz4 b else b)) <= MAX_MESSAGE_SIZE /\
  Z.of_nat (length b) <= MAX_MESSAGE_SIZE /\
  (compress = false -> is_lz4 h = false).

(** The messages of a connection, one after the other. *)
Fixpoint write_messages (ms : list (Header * bytes * bool)) : W unit :=
  match ms with
  | [] => se_ret tt
  | (h, b, c) :: ms' => run! write_message h b c; write_messages ms'
  end.

Fixpoint read_messages (n : nat) : R (list RawMessage) :=
  match n with
  | O => se_ret []
  | S n' => do! m <- read_message; do! ms <- read_messages n'; se_ret (m :: ms)
  end.

(** ** Facts *)

Lemma read_exact_app a b : read_exact (length a) (a ++ b) = (b, Ok a).
Proof.
  unfold read_exact. rewrite length_app, (proj2 (Nat.leb_le _ _)) by lia.
  by rewrite drop_app_length, take_app_length.
Qed.

Lemma read_exact_short n s :
  (length s < n)%nat -> read_exact n s = ([], Err (BepError.NetworkError "early eof")).
Proof. intros H. unfold read_exact. by rewrite (proj2 (Nat.leb_gt _ _)) by lia. Qed.

Lemma read_u16_be v s : 0 <= v <= U16_MAX -> read_u16 (to_be 2 v ++ s) = (s, Ok v).
Proof.
  intros Hv. unfold read_u16, se_bind. rewrite <- (length_to_be 2 v), read_exact_app.
  unfold se_ret. do 2 f_equal. rewrite length_to_be. apply of_be_to_be. unfold U16_MAX in *. lia.
Qed.

Lemma read_u32_be v s : 0 <= v <= U32_MAX -> read_u32 (to_be 4 v ++ s) = (s, Ok v).
Proof.
  intros Hv. unfold read_u32, se_bind. rewrite <- (length_to_be 4 v), read_exact_app.
  unfold se_ret. do 2 f_equal. rewrite length_to_be. apply of_be_to_be. unfold U32_MAX in *. lia.
Qed.

Lemma write_all_unlimited data out :
  write_all data (mkWriter out None) = (mkWriter (out ++ data) None, Ok tt).
Proof. done. Qed.

Lemma read_body_prefixed_app b s :
  Z.of_nat (length b) <= MAX_MESSAGE_SIZE ->
  read_body_prefixed (to_be 4 (Z.of_nat (length b)) ++ b ++ s) = (s, Ok b).
Proof.
  intros Hb. unfold read_body_prefixed, se_bind.
  rewrite read_u32_be by (unfold U32_MAX, MAX_MESSAGE_SIZE in *; lia).
  rewrite (proj2 (Z.ltb_ge _ _)) by lia. by rewrite Nat2Z.id, read_exact_app.
Qed.

Lemma read_header_prefixed_app b s :
  Z.of_nat (length b) <= U16_MAX ->
  read_header_prefixed (to_be 2 (Z.of_nat (length b)) ++ b ++ s) = (s, Ok b).
Proof.
  intros Hb. unfold read_header_prefixed, se_bind. rewrite read_u16_be by lia.
  rewrite (proj2 (Z.ltb_ge _ _)) by (unfold U16_MAX, MAX_MESSAGE_SIZE in *; lia).
  by rewrite Nat2Z.id, read_exact_app.
Qed.

Lemma write_message_frame h b c out :
  frameable h b c ->
  write_message h b c (mkWriter out None) = (mkWriter (out ++ frame h b c) None, Ok tt).
Proof.
  intros (Hh & Hb & _). unfold write_message, frame, se_bind, write_header_prefixed, write_body_prefixed.
  rewrite (proj2 (Z.ltb_ge _ _)) by lia. unfold se_bind. rewrite !write_all_unlimited.
  rewrite (proj2 (Z.ltb_ge _ _)) by (unfold MAX_MESSAGE_SIZE, U32_MAX in *; lia).
  rewrite !write_all_unlimited. unfold flush, se_ret. by rewrite <- !app_assoc.
Qed.

(** A well-behaved reader: it consumes a prefix of its input, and ends with a
    result satisfying [Q], a network error or a complaint about the peer. *)
Definition polite {A} (m : R A) (Q : A -> Prop) : Prop :=
  forall s, Forall is_byte s ->
    (exists k, fst (m s) = drop k s) /\
    match snd (m s) with
    | Ok a => Q a
    | Err e => exists msg, e = BepError.NetworkError msg \/ e = BepError.PeerBadMessage msg
    end.

Lemma polite_bind {A B} (m : R A) (k : A -> R B) (P : A -> Prop) (Q : B -> Prop) :
  polite m P -> (forall a, P a -> polite (k a) Q) -> polite (se_bind m k) Q.
Proof.
  intros Hm Hk s Hs. specialize (Hm s Hs) as [[n Hn] Hr]. unfold se_bind.
  destruct (m s) as [s' [a|e]]; cbn [fst snd] in *; [|by split; [exists n|]].
  subst s'. destruct (Hk a Hr (drop n s)) as [[n' Hn'] Hr']; [by apply Forall_drop|].
  split; [|done]. exists (n + n')%nat. by rewrite Hn', drop_drop.
Qed.

Lemma polite_ret {A} (a : A) (Q : A -> Prop) : Q a -> polite (se_ret a) Q.
Proof. intros Ha s _. split; [by exists O|done]. Qed.

Lemma polite_lift {A} (r : result BepError.t A) (Q : A -> Prop) :
  match r with Ok a => Q a | Err e => exists m, e = BepError.PeerBadMessage m end ->
  polite (se_lift r) Q.
Proof.
  intros Hr s _. split; [by exists O|]. unfold se_lift. cbn [snd].
  destruct r; [done|]. destruct Hr as [m ->]. eauto.
Qed.

Lemma polite_read_exact n :
  polite (read_exact n) (fun b => length b = n /\ Forall is_byte b).
Proof.
  intros s Hs. unfold read_exact. destruct (Nat.leb_spec n (length s)); cbn [fst snd].
  - split; [by exists n|]. split; [rewrite length_take; lia|by apply Forall_take].
  - split; [exists (length s); by rewrite drop_all|]. eauto.
Qed.

Lemma polite_read_sized n :
  polite (do! b <- read_exact n; se_ret (of_be b))
         (fun v => 0 <= v < 256 ^ Z.of_nat n).
Proof.
  eapply polite_bind; [apply polite_read_exact|]. intros b [<- Hb].
  by apply polite_ret, of_be_bound.
Qed.

Lemma polite_prefixed (rd : R Z) P :
  polite rd P ->
  polite (do! len <- rd;
          if MAX_MESSAGE_SIZE <? len then se_err (BepError.PeerBadMessage "message too large")
          else read_exact (Z.to_nat len))
         (fun b => Z.of_nat (length b) <= MAX_MESSAGE_SIZE).
Proof.
  intros Hrd. eapply polite_bind; [exact Hrd|]. intros len _. destruct (Z.ltb_spec MAX_MESSAGE_SIZE len).
  - apply (polite_lift (Err _)). by eexists.
  - intros s Hs. destruct (polite_read_exact (Z.to_nat len) s Hs) as [Hd Hr]. split; [done|].
    destruct (snd _); [|done]. destruct Hr as [-> _]. unfold MAX_MESSAGE_SIZE in *. lia.
Qed.

Lemma decompress_lz4_bound data :
  match decompress_lz4 data with
  | Ok b => Z.of_nat (length b) <= MAX_MESSAGE_SIZE
  | Err e => exists m, e = BepError.PeerBadMessage m
  end.
Proof.
  unfold decompress_lz4. destruct (Nat.ltb (length data) 4); [by eexists|].
  destruct (Z.ltb_spec MAX_MESSAGE_SIZE (of_be (take 4 data))); [by eexists|].
  destruct (lz4_decompress _ _) as [d|]; cbn [ok_or rbind]; [|by eexists].
  destruct (Z.eqb_spec (Z.of_nat (length d)) (of_be (take 4 data))); cbn [negb]; [lia|by eexists].
Qed.

Lemma polite_read_message :
  polite read_message (fun m => Z.of_nat (length (body m)) <= MAX_MESSAGE_SIZE).
Proof.
  eapply polite_bind; [eapply polite_prefixed, polite_read_sized|]. intros hb _.
  eapply (polite_bind _ _ (fun _ => True)).
  { apply polite_lift. destruct (decode hb); [done|by eexists]. }
  intros h _. eapply polite_bind; [eapply polite_prefixed, polite_read_sized|]. intros bb Hbb.
  eapply (polite_bind _ _ (fun b => Z.of_nat (length b) <= MAX_MESSAGE_SIZE)).
  { destruct (is_lz4 h); [apply polite_lift, decompress_lz4_bound|by apply polite_ret]. }
  intros b Hb. by apply polite_ret.
Qed.

(** What the code relies on: prost decodes what it encoded, and LZ4
    decompression with the original length inverts compression. *)
Context `{!CodecLaws Header} `{!CodecLaws Hello}.
Context (lz4_roundtrip : forall b, lz4_decompress (lz4_compress b) (length b) = Some b).

Lemma decompress_compress b :
  Z.of_nat (length b) <= MAX_MESSAGE_SIZE -> decompress_lz4 (compress_lz4 b) = Ok b.
Proof.
  intros Hb. unfold decompress_lz4, compress_lz4.
  rewrite length_app, length_to_be. rewrite (proj2 (Nat.ltb_ge _ _)) by lia.
  rewrite take_app_length', drop_app_length' by (by rewrite length_to_be).
  rewrite of_be_to_be by (unfold MAX_MESSAGE_SIZE in *; lia).
  rewrite (proj2 (Z.ltb_ge _ _)) by lia. rewrite Nat2Z.id, lz4_roundtrip. cbn [ok_or rbind].
  by rewrite Z.eqb_refl.
Qed.

Lemma read_message_frame h b c s :
  frameable h b c ->
  read_message (frame h b c ++ s) = (s, Ok (mkRaw (header_to_write h c) b)).
Proof.
  intros (Hh & Hb & Hl & Hc). unfold read_message, frame. rewrite <- !app_assoc.
  unfold se_bind at 1. rewrite read_header_prefixed_app by done.
  unfold se_bind at 1, se_lift at 1. rewrite decode_encode. cbn [ok_or].
  unfold se_bind at 1. rewrite read_body_prefixed_app by done.
  unfold se_bind. destruct c; cbn [header_to_write].
  - change (is_lz4 _) with true. cbv iota. unfold se_lift. by rewrite decompress_compress.
  - by rewrite Hc.
Qed.

(** Either [p] covers [x], or it ends inside it. *)
Lemma prefix_cases (x y p q : bytes) :
  x ++ y = p ++ q -> (exists r, p = x ++ r /\ y = r ++ q) \/ (length p < length x)%nat.
Proof.
  intros E. destruct (decide (length p < length x)%nat); [by right|left].
  apply app_eq_inv in E as [[k [-> ->]]|[k [-> ->]]]; [|by exists k].
  rewrite length_app in *. destruct k; [|simpl in *; lia]. exists []. by rewrite !app_nil_r.
Qed.

Lemma read_header_prefixed_short b p q :
  Z.of_nat (length b) <= U16_MAX -> to_be 2 (Z.of_nat (length b)) ++ b = p ++ q -> q <> [] ->
  read_header_prefixed p = ([], Err (BepError.NetworkError "early eof")).
Proof.
  intros Hb E Hq. unfold read_header_prefixed, se_bind.
  destruct (prefix_cases _ _ _ _ E) as [(r & -> & ->)|Hs].
  - rewrite read_u16_be, Nat2Z.id by lia.
    rewrite (proj2 (Z.ltb_ge _ _)) by (unfold U16_MAX, MAX_MESSAGE_SIZE in *; lia).
    apply read_exact_short. rewrite length_app. destruct q; [done|simpl; lia].
  - rewrite length_to_be in Hs. unfold read_u16, se_bind. by rewrite read_exact_short.
Qed.

Lemma read_body_prefixed_short b p q :
  Z.of_nat (length b) <= MAX_MESSAGE_SIZE -> to_be 4 (Z.of_nat (length b)) ++ b = p ++ q -> q <> [] ->
  read_body_prefixed p = ([], Err (BepError.NetworkError "early eof")).
Proof.
  intros Hb E Hq. unfold read_body_prefixed, se_bind.
  destruct (prefix_cases _ _ _ _ E) as [(r & -> & ->)|Hs].
  - rewrite read_u32_be, Nat2Z.id by (unfold U32_MAX, MAX_MESSAGE_SIZE in *; lia).
    rewrite (proj2 (Z.ltb_ge _ _)) by lia.
    apply read_exact_short. rewrite length_app. destruct q; [done|simpl; lia].
  - rewrite length_to_be in Hs. unfold read_u32, se_bind. by rewrite read_exact_short.
Qed.

(** ** Properties *)


(** Truncated frames. Whatever strict prefix of a frame the peer delivers
    before closing, [read_message] reports a network error: a cut connection is
    never taken for a message. *)
Theorem truncated_frame_rejected (h : Header) (b : bytes) (c : bool) (p q : bytes)
  (Hf : frameable h b c) (Hp : frame h b c = p ++ q) (Hq : q <> []) :
  read_message p = ([], Err (BepError.NetworkError "early eof")).
Proof.
  destruct Hf as (Hh & Hb & _). unfold frame in Hp.
  set (hb := encode _) in *. set (bb := if c then _ else _) in *.
  unfold read_message, se_bind. rewrite app_assoc in Hp.
  destruct (prefix_cases _ _ _ _ Hp) as [(r & -> & E)|Hs].
  - rewrite <- app_assoc, read_header_prefixed_app by done.
    unfold se_lift at 1, hb. rewrite decode_encode. cbn [ok_or].
    by rewrite (read_body_prefixed_short bb r q).
  - symmetry in Hp. destruct (prefix_cases _ _ _ _ Hp) as [(r & E & _)|Hs'].
    + rewrite (read_header_prefixed_short hb p r); [done..|]. intros ->.
      rewrite app_nil_r in E. rewrite E in Hs. lia.
    + lia.
Qed.

(** Hostile input. On any byte stream [read_message] ends with a message
    whose body is at most 500 MiB (also after decompression) or with a network
    or bad-message error, and it leaves a suffix of the input unread. *)
Theorem read_message_bounded (s : bytes) (Hs : Forall is_byte s) :
  (exists k, fst (read_message s) = drop k s) /\
  match snd (read_message s) with
  | Ok m => Z.of_nat (length (body m)) <= MAX_MESSAGE_SIZE
  | Err e => exists m, e = BepError.NetworkError m \/ e = BepError.PeerBadMessage m
  end.
Proof. by apply polite_read_message. Qed.

(** Hello exchange. A Hello with a non-empty device name whose encoding
    fits the receiver's limit is sent at any representable time and received
    by the peer as sent; a stream that does not start with the magic number is
    refused as a bad Hello. *)
Theorem hello_roundtrip (name rest : bytes) (now : Z)
  (Hnow : 0 <= now <= I64_MAX) (Hname : name <> [])
  (Hlen : Z.of_nat (length (encode (our_hello name now))) <= MAX_HELLO_SIZE) :
  (exists w, send_hello name now (mkWriter [] None) = (mkWriter w None, Ok tt) /\
             recv_hello (w ++ rest) = (rest, Ok (our_hello name now))) /\
  (forall magic, 0 <= magic <= U32_MAX -> magic <> HELLO_MAGIC ->
     exists m, snd (recv_hello (to_be 4 magic ++ rest)) = Err (BepError.PeerBadHello m)).
Proof.
  split.
  - unfold send_hello, recv_hello. rewrite (proj2 (Z.ltb_ge _ _)), (proj2 (Z.ltb_ge _ _)) by lia.
    unfold se_bind at 1. rewrite write_all_unlimited. eexists. split; [done|].
    cbn [sent app]. rewrite <- !app_assoc.
    unfold se_bind. rewrite read_u32_be by done. rewrite Z.eqb_refl. cbn [negb].
    rewrite read_u16_be by (unfold MAX_HELLO_SIZE, U16_MAX in *; lia).
    rewrite (proj2 (Z.ltb_ge _ _)) by lia. rewrite Nat2Z.id, read_exact_app.
    unfold se_lift. rewrite decode_encode. cbn [ok_or our_hello client_name device_name].
    rewrite bool_decide_eq_false_2 by done. by rewrite bool_decide_eq_false_2 by done.
  - intros magic Hm Hne. unfold recv_hello, se_bind. rewrite read_u32_be by done.
    rewrite (proj2 (Z.eqb_neq _ _)) by done. by eexists.
Qed.

End WithCodecs.

(** ** Witnesses

    A concrete protobuf stand-in and a store-only LZ4 satisfy the laws. *)

Program Definition header_tape : Tape.tape Header :=
  Tape.tmap (Tape.tpair Tape.tZ Tape.tZ) (fun h => (htype h, compression h))
    (fun p => mkHeader (fst p) (snd p)) _.
Next Obligation. by intros []. Qed.

Program Definition hello_tape : Tape.tape Hello :=
  Tape.tmap (Tape.tpair (Tape.tpair Tape.tbytes Tape.tbytes)
                        (Tape.tpair Tape.tbytes (Tape.tpair Tape.tZ Tape.tZ)))
    (fun h => ((device_name h, client_name h), (client_version h, (num_connections h, timestamp h))))
    (fun p => mkHello (fst (fst p)) (snd (fst p)) (fst (snd p)) (fst (snd (snd p))) (snd (snd (snd p)))) _.
Next Obligation. by intros []. Qed.

Definition store_only (b : bytes) : bytes := b.
Definition store_only_inv (b : bytes) (_ : nat) : option bytes := Some b.


Lemma truncated_frame_rejected_witness :
  let C := Tape.codec header_tape in
  @frameable C store_only (mkHeader 3 0) (lit "request") false /\
  @read_message C store_only_inv (take 9 (@frame C store_only (mkHeader 3 0) (lit "request") false)) =
    ([], Err (BepError.NetworkError "early eof")).
Proof.
  intros C.
  assert (@frameable C store_only (mkHeader 3 0) (lit "request") false) as H
    by (repeat split; by vm_compute).
  split; [exact H|].
  apply (@truncated_frame_rejected C store_only store_only_inv (Tape.codec_laws header_tape)
           (mkHeader 3 0) (lit "request") false _
           (drop 9 (@frame C store_only (mkHeader 3 0) (lit "request") false)) H).
  - symmetry. apply take_drop.
  - by vm_compute.
Defined.

Lemma read_message_bounded_witness :
  Forall is_byte (repeat 255 8) /\
  exists k, fst (@read_message (Tape.codec header_tape) store_only_inv (repeat 255 8)) =
            drop k (repeat 255 8).
Proof.
  assert (Forall is_byte (repeat 255 8)) as H by (repeat constructor; done).
  split; [exact H|].
  exact (proj1 (@read_message_bounded (Tape.codec header_tape) store_only_inv _ H)).
Defined.

Lemma hello_roundtrip_witness :
  let C := Tape.codec hello_tape in
  exists w, @recv_hello C (w ++ lit "next") =
            (lit "next", Ok (our_hello (lit "1.0") (lit "laptop") 1700000000)).
Proof.
  intros C.
  destruct (proj1 (@hello_roundtrip C (lit "1.0") (Tape.codec_laws hello_tape) (lit "laptop")
              (lit "next") 1700000000 ltac:(by vm_compute) ltac:(discriminate) ltac:(by vm_compute)))
    as (w & _ & Hr).
  exists w. exact Hr.
Defined.

End Framing.
