(* ===== verification/EnvFile.v ===== *)
(** The environment file of the service ([bepository-cli/src/envfile.rs], and
    [load_env_file] of [bepository-cli/src/main.rs]): assignments line by line,
    and the rewriting of one of them. *)

From Stdlib Require Import ZArith Lia.
From stdpp Require Import base gmap list strings.
From S2P Require Import Prelude.

Local Open Scope Z_scope.

Module EnvFile.

Definition NL : Z := 10.
Definition CR : Z := 13.
Definition HASH : Z := 35.
Definition EQUALS : Z := 61.
Definition QUOTE : Z := 34.

(** ** Strings *)

(** [str::lines]: a terminated line loses its line feed and a carriage return
    before it; the rest after the last line feed is a line if not empty. *)
Definition strip_cr (l : bytes) : bytes := default l (strip_suffix [CR] l).

Fixpoint lines_of (segments : list bytes) : list bytes :=
  match segments with
  | [] => []
  | [l] => match l with [] => [] | _ => [l] end
  | l :: rest => strip_cr l :: lines_of rest
  end.

Definition lines (text : bytes) : list bytes := lines_of (split_char NL text).

(** The UTF-8 encodings of the characters that are white space. *)
Definition WHITE : list bytes :=
  [[9]; [10]; [11]; [12]; [13]; [32]; [194; 133]; [194; 160]; [225; 154; 128]] ++
  map (fun c => [226; 128; c]) [128; 129; 130; 131; 132; 133; 134; 135; 136; 137; 138; 168; 169; 175] ++
  [[226; 129; 159]; [227; 128; 128]].

(** Remove one of the encodings at the front, as long as there is one. *)
Fixpoint strip_one (encodings : list bytes) (s : bytes) : option bytes :=
  match encodings with
  | [] => None
  | e :: rest => match strip_prefix e s with Some r => Some r | None => strip_one rest s end
  end.

Fixpoint strip_all (fuel : nat) (encodings : list bytes) (s : bytes) : bytes :=
  match fuel with
  | O => s
  | S fuel' => match strip_one encodings s with Some r => strip_all fuel' encodings r | None => s end
  end.

(** [str::trim]. *)
Definition trim_end (s : bytes) : bytes := rev (strip_all (length s) (map (@rev Z) WHITE) (rev s)).
Definition trim_start (s : bytes) : bytes := strip_all (length s) WHITE s.
Definition trim (s : bytes) : bytes := trim_start (trim_end s).

(** ** The file *)

Definition unquote (value : bytes) : bytes :=
  match strip_prefix [QUOTE] value with
  | Some v => default value (strip_suffix [QUOTE] v)
  | None => value
  end.

(** The assignment in a line, before unquoting. *)
Definition assignment (raw : bytes) : option (bytes * bytes) :=
  match trim raw with
  | [] => None
  | c :: line => if c =? HASH then None else split_once [EQUALS] (c :: line)
  end.

Definition unquoted (raw : bytes) : option (bytes * bytes) :=
  match assignment raw with Some (k, v) => Some (k, unquote v) | None => None end.

Definition parse_env_lines (text : bytes) : list (bytes * bytes) := omap unquoted (lines text).

(** The loop of [set_env_assignment]. *)
Definition is_target (key raw : bytes) : bool :=
  match assignment raw with Some (k, _) => bool_decide (k = key) | None => false end.

Fixpoint rewrite_lines (key value : bytes) (replaced : bool) (ls : list bytes) : bytes * bool :=
  match ls with
  | [] => ([], replaced)
  | raw :: ls' =>
      if negb replaced && is_target key raw then
        let '(out, r) := rewrite_lines key value true ls' in (key ++ [EQUALS] ++ value ++ [NL] ++ out, r)
      else
        let '(out, r) := rewrite_lines key value replaced ls' in (raw ++ [NL] ++ out, r)
  end.

Definition set_env_assignment (text key value : bytes) : bytes :=
  let '(out, replaced) := rewrite_lines key value false (lines text) in
  if replaced then out else out ++ key ++ [EQUALS] ++ value ++ [NL].

(** [std::env::set_var] panics ([None]) on an empty name and on a NUL byte; a name
    before an equals sign has none of these. *)
Definition NUL : Z := 0.

Definition set_var (key value : bytes) (env : gmap bytes bytes) : option (gmap bytes bytes) :=
  if bool_decide (key = [] \/ NUL ∈ key \/ NUL ∈ value) then None else Some (<[ key := value ]> env).

(** [load_env_file] on the contents of the file: variables that are set stay. *)
Definition load_env_file (contents : bytes) (env : gmap bytes bytes) : option (gmap bytes bytes) :=
  foldl (fun env kv =>
           match env with
           | Some env => match env !! fst kv with Some _ => Some env | None => set_var (fst kv) (snd kv) env end
           | None => None
           end)
    (Some env) (parse_env_lines contents).

(** ** Specification *)

(** Replace the value of the first assignment to a key, or add one. *)
Fixpoint set_first (key value : bytes) (l : list (bytes * bytes)) : list (bytes * bytes) :=
  match l with
  | [] => [(key, value)]
  | (k, v) :: l' => if decide (k = key) then (key, value) :: l' else (k, v) :: set_first key value l'
  end.

(** A line that reads back as the assignment it was written for. *)
Definition writable (key value : bytes) : Prop :=
  key <> [] /\ head key <> Some HASH /\ EQUALS ∉ key /\ NL ∉ key /\ NL ∉ value /\
  trim (key ++ [EQUALS] ++ value) = key ++ [EQUALS] ++ value.

(** ** Lemmas *)

Lemma trim_end_cr l : trim_end (l ++ [CR]) = trim_end l.
Proof. unfold trim_end. rewrite rev_app_distr, length_app, Nat.add_comm. reflexivity. Qed.

Lemma strip_cr_cases l : strip_cr l = l \/ exists l', l = l' ++ [CR] /\ strip_cr l = l'.
Proof.
  unfold strip_cr. destruct (strip_suffix [CR] l) as [l'|] eqn:E; [right|by left].
  apply strip_suffix_Some in E. by exists l'.
Qed.

Lemma assignment_strip_cr l : assignment (strip_cr l) = assignment l.
Proof.
  destruct (strip_cr_cases l) as [->|(l' & -> & ->)]; [done|]. unfold assignment, trim. by rewrite trim_end_cr.
Qed.

Lemma unquoted_strip_cr l : unquoted (strip_cr l) = unquoted l.
Proof. unfold unquoted. by rewrite assignment_strip_cr. Qed.

Lemma split_char_app (l rest : bytes) : NL ∉ l -> split_char NL (l ++ NL :: rest) = l :: split_char NL rest.
Proof.
  induction l as [|x l IH]; cbn; [done|]. intros [Hx Hl]%not_elem_of_cons. rewrite IH by done.
  destruct (Z.eqb_spec x NL); [congruence|done].
Qed.

Lemma split_char_nonempty (s : bytes) : split_char NL s <> [].
Proof. destruct s as [|x s]; cbn; [done|]. destruct (x =? NL); [done|]. by destruct (split_char NL s). Qed.

Lemma split_char_notin (s l : bytes) : l ∈ split_char NL s -> NL ∉ l.
Proof.
  revert l. induction s as [|x s IH]; intros l; cbn.
  - intros ->%list_elem_of_singleton. apply not_elem_of_nil.
  - destruct (Z.eqb_spec x NL) as [->|Hx].
    + intros [->|?]%elem_of_cons; [apply not_elem_of_nil|auto].
    + destruct (split_char NL s) as [|h r] eqn:E; [by apply split_char_nonempty in E|].
      intros [->|?]%elem_of_cons; [|by apply IH; right]. apply not_elem_of_cons. split; [congruence|apply IH; by left].
Qed.

Lemma strip_cr_notin l : NL ∉ l -> NL ∉ strip_cr l.
Proof. destruct (strip_cr_cases l) as [->|(l' & -> & ->)]; [done|]. rewrite elem_of_app. tauto. Qed.

Lemma lines_notin (text l : bytes) : l ∈ lines text -> NL ∉ l.
Proof.
  unfold lines. assert (forall segs, (forall s, s ∈ segs -> NL ∉ s) -> l ∈ lines_of segs -> NL ∉ l) as H.
  { induction segs as [|s [|s2 segs] IH]; intros Hs; cbn [lines_of]; [by intros []%not_elem_of_nil| |].
    - destruct s; [by intros []%not_elem_of_nil|]. intros ->%list_elem_of_singleton. apply Hs. by left.
    - intros [->|Hin]%elem_of_cons; [apply strip_cr_notin, Hs; by left|]. apply IH; [|done].
      intros s' Hs'. apply Hs. by right. }
  apply H, split_char_notin.
Qed.

(** Lines written one by one are read back, up to a carriage return. *)
Definition emit (ls : list bytes) : bytes := concat (map (fun l => l ++ [NL]) ls).

Lemma lines_emit (ls : list bytes) : (forall l, l ∈ ls -> NL ∉ l) -> lines (emit ls) = map strip_cr ls.
Proof.
  unfold lines, emit. induction ls as [|l ls IH]; intros Hl; cbn [map concat]; [done|].
  rewrite <- app_assoc. cbn [app]. rewrite split_char_app by (apply Hl; by left).
  rewrite <- IH by (intros l' ?; apply Hl; by right).
  destruct (split_char NL _) eqn:E; [by apply split_char_nonempty in E|done].
Qed.

(** The lines that [set_env_assignment] writes. *)
Fixpoint new_lines (key value : bytes) (replaced : bool) (ls : list bytes) : list bytes * bool :=
  match ls with
  | [] => ([], replaced)
  | raw :: ls' =>
      let hit := negb replaced && is_target key raw in
      let '(out, r) := new_lines key value (replaced || hit) ls' in
      ((if hit then key ++ [EQUALS] ++ value else raw) :: out, r)
  end.

Lemma rewrite_new_lines key value replaced ls :
  rewrite_lines key value replaced ls =
    (emit (fst (new_lines key value replaced ls)), snd (new_lines key value replaced ls)).
Proof.
  revert replaced. induction ls as [|raw ls IH]; intros replaced; cbn [rewrite_lines new_lines]; [done|].
  destruct (negb replaced && is_target key raw) eqn:E; rewrite IH.
  - rewrite orb_true_r. destruct (new_lines key value true ls) as [out r]. cbn. unfold emit. cbn.
    by rewrite <- !app_assoc.
  - rewrite orb_false_r. destruct (new_lines key value replaced ls) as [out r]. cbn. unfold emit. cbn.
    by rewrite <- app_assoc.
Qed.

Lemma split_once_key (key value : bytes) : EQUALS ∉ key ->
  split_once [EQUALS] (key ++ EQUALS :: value) = Some (key, value).
Proof.
  induction key as [|x key IH]; cbn -[EQUALS]; [by rewrite Z.eqb_refl|].
  intros [Hx Hk]%not_elem_of_cons. destruct (Z.eqb_spec EQUALS x); [congruence|]. by rewrite (IH Hk).
Qed.

Lemma writable_assignment key value : writable key value ->
  assignment (key ++ [EQUALS] ++ value) = Some (key, value).
Proof.
  intros (Hne & Hh & Heq & _ & _ & Ht). unfold assignment. rewrite Ht. destruct key as [|c key]; [done|]. cbn [app].
  destruct (Z.eqb_spec c HASH) as [->|]; [done|].
  exact (split_once_key (c :: key) value Heq).
Qed.

Lemma new_lines_replaced key value ls : new_lines key value true ls = (ls, true).
Proof. induction ls as [|raw ls IH]; cbn [new_lines]; [done|]. cbn. by rewrite IH. Qed.

Lemma omap_cons_line (l : bytes) (ls : list bytes) :
  omap unquoted (l :: ls) = match unquoted l with Some kv => kv :: omap unquoted ls | None => omap unquoted ls end.
Proof. done. Qed.

Lemma writable_unquoted key value : writable key value ->
  unquoted (key ++ [EQUALS] ++ value) = Some (key, unquote value).
Proof. intros Hw. unfold unquoted. by rewrite writable_assignment. Qed.

(** The assignments in the new lines. *)
Lemma new_lines_spec key value ls : writable key value ->
  let '(out, r) := new_lines key value false ls in
  if r then omap unquoted out = set_first key (unquote value) (omap unquoted ls)
  else omap unquoted out = omap unquoted ls /\
       set_first key (unquote value) (omap unquoted ls) = omap unquoted ls ++ [(key, unquote value)].
Proof.
  intros Hw. induction ls as [|raw ls IH]; cbn [new_lines]; [done|]. cbn [negb andb orb].
  unfold is_target. destruct (assignment raw) as [[k v]|] eqn:Ea.
  - assert (unquoted raw = Some (k, unquote v)) as Hu by (unfold unquoted; by rewrite Ea). case_bool_decide as Hk.
    + subst k. rewrite new_lines_replaced. cbn [fst snd]. rewrite !omap_cons_line, Hu, writable_unquoted by done.
      cbn [set_first]. by rewrite decide_True.
    + destruct (new_lines key value false ls) as [out [|]]; rewrite !omap_cons_line, Hu; cbn [set_first];
        rewrite decide_False by done; [by rewrite IH|]. destruct IH as [-> IH]. split; [done|]. by rewrite IH.
  - assert (unquoted raw = None) as Hu by (unfold unquoted; by rewrite Ea).
    destruct (new_lines key value false ls) as [out [|]]; by rewrite !omap_cons_line, Hu.
Qed.

Lemma omap_strip_cr ls : omap unquoted (map strip_cr ls) = omap unquoted ls.
Proof. induction ls as [|l ls IH]; [done|]. cbn. by rewrite unquoted_strip_cr, IH. Qed.

Lemma omap_app_lines (l1 l2 : list bytes) : omap unquoted (l1 ++ l2) = omap unquoted l1 ++ omap unquoted l2.
Proof. induction l1 as [|x l1 IH]; [done|]. cbn. rewrite IH. by destruct (unquoted x). Qed.

Lemma new_lines_notin key value replaced ls : NL ∉ key -> NL ∉ value -> (forall l, l ∈ ls -> NL ∉ l) ->
  forall l, l ∈ fst (new_lines key value replaced ls) -> NL ∉ l.
Proof.
  intros Hk Hv. revert replaced. induction ls as [|raw ls IH]; intros replaced Hl l; cbn [new_lines]; [by intros []%not_elem_of_nil|].
  specialize (IH (replaced || (negb replaced && is_target key raw))).
  destruct (new_lines key value _ ls) as [out r]. cbn [fst] in *. intros [->|Hin]%elem_of_cons.
  - destruct (negb replaced && is_target key raw); [|apply Hl; by left].
    rewrite !not_elem_of_app. split; [done|]. split; [|done]. by apply not_elem_of_cons; split; [|apply not_elem_of_nil].
  - apply IH; [|done]. intros l' Hl'. apply Hl. by right.
Qed.

(** ** Theorems *)

(** Rewriting an assignment. For a key and a value that can be written on a
    line, the assignments of the rewritten file are those of the file with the
    value of the first assignment to the key replaced (or the assignment added
    at the end when there is none), in the same order; nothing else changes,
    whatever the text is. *)
Theorem set_then_parse (text key value : bytes) (Hw : writable key value) :
  parse_env_lines (set_env_assignment text key value) = set_first key (unquote value) (parse_env_lines text).
Proof.
  pose proof Hw as (_ & _ & _ & Hk & Hv & _).
  unfold parse_env_lines, set_env_assignment. rewrite rewrite_new_lines.
  pose proof (new_lines_spec key value (lines text) Hw) as Hs.
  pose proof (new_lines_notin key value false (lines text) Hk Hv (lines_notin text)) as Hn.
  destruct (new_lines key value false (lines text)) as [out [|]]; cbn [fst snd] in *.
  - by rewrite lines_emit, omap_strip_cr, Hs.
  - destruct Hs as [Hout Hset].
    assert (emit out ++ key ++ [EQUALS] ++ value ++ [NL] = emit (out ++ [key ++ [EQUALS] ++ value])) as ->.
    { unfold emit. rewrite map_app, concat_app. cbn -[EQUALS NL]. by rewrite app_nil_r, <- !app_assoc. }
    rewrite lines_emit, omap_strip_cr, omap_app_lines, Hout, Hset; [f_equal|].
    + by rewrite omap_cons_line, writable_unquoted.
    + intros l [Hin|E%list_elem_of_singleton]%elem_of_app; [by apply Hn|]. subst l. rewrite !not_elem_of_app.
      split; [done|]. split; [|done]. by apply not_elem_of_cons; split; [|apply not_elem_of_nil].
Qed.

(** A file with a comment, a quoted value, a duplicate and Windows line ends. *)
Definition sample : bytes := lit "# uri" ++ [CR; NL] ++ lit "A=" ++ [QUOTE] ++ lit "old" ++ [QUOTE; CR; NL] ++
  lit " B=2" ++ [NL] ++ lit "A=3".

Lemma set_then_parse_witness :
  writable (lit "A") (lit "new") /\
  parse_env_lines (set_env_assignment sample (lit "A") (lit "new")) =
    [(lit "A", lit "new"); (lit "B", lit "2"); (lit "A", lit "3")].
Proof.
  assert (writable (lit "A") (lit "new")) as Hw.
  { split_and!; [done|done|by apply (bool_decide_unpack _); vm_compute..|reflexivity]. }
  split; [done|]. rewrite (set_then_parse sample (lit "A") (lit "new") Hw). reflexivity.
Defined.

End EnvFile.
