(* ===== verification/Credentials.v ===== *)
(** Wiring of credential files into the service
    ([bepository-cli/src/service/credential_wiring.rs], and the part of
    [install_service] in [bepository-cli/src/service.rs] that rewrites the
    environment file): paths in the environment file become credentials of the
    unit through drop-ins, and uninstalling puts the paths back. *)

From Stdlib Require Import ZArith Lia.
From stdpp Require Import base gmap list strings.
From S2P Require Import Prelude EnvFile.

Local Open Scope Z_scope.
Local Open Scope bep_scope.

Module Credentials.
Import EnvFile.

(** ** Files *)

(** The text files the installer sees. Reading fails for a path in [unreadable]
    (also when its contents are not UTF-8), changing it for a path in
    [read_only]. *)
Record Fs := mkFs { files : gmap bytes bytes; unreadable : gset bytes; read_only : gset bytes }.

Inductive Error :=
| FsError (verb : string) (path : bytes)
| RewriteFailed (description : string).

Definition join (dir name : bytes) : bytes := dir ++ [SLASH] ++ name.

(** [fs::read_to_string], [Path::exists], [fs::write], [fs::remove_file]. *)
Definition read_to_string (p : bytes) (fs : Fs) : option bytes :=
  if decide (p ∈ unreadable fs) then None else files fs !! p.
Definition path_exists (p : bytes) (fs : Fs) : bool := bool_decide (is_Some (files fs !! p)).
Definition set_files (fs : Fs) (m : gmap bytes bytes) : Fs := mkFs m (unreadable fs) (read_only fs).
Definition fs_write (p text : bytes) : SE Fs Error unit := fun fs =>
  if decide (p ∈ read_only fs) then (fs, Err (FsError "writing" p))
  else (set_files fs (<[ p := text ]> (files fs)), Ok tt).
Definition remove_file (p : bytes) : SE Fs Error unit := fun fs =>
  if decide (p ∈ read_only fs) then (fs, Err (FsError "removing" p))
  else if path_exists p fs then (set_files fs (delete p (files fs)), Ok tt)
  else (fs, Err (FsError "removing" p)).

(** [fs::create_dir_all]; the directories themselves are not modelled. *)
Definition create_dir_all (dir : bytes) : SE Fs Error unit := fun fs =>
  if decide (dir ∈ read_only fs) then (fs, Err (FsError "creating" dir)) else (fs, Ok tt).

(** [write_env_atomic]: a temporary file, renamed; on a failure the file is as
    it was. *)
Definition write_env_atomic (p text : bytes) : SE Fs Error unit := fun fs =>
  if decide (p ∈ read_only fs) then (fs, Err (FsError "replacing" p))
  else (set_files fs (<[ p := text ]> (files fs)), Ok tt).

(** The library for URLs. *)
Class Url (U : Type) := {
  url_parse : bytes -> option U;
  url_text : U -> bytes;
  scheme : U -> bytes;
  query_pairs : U -> list (bytes * bytes);
  (** [query_pairs_mut], cleared and filled again. *)
  with_pairs : U -> list (bytes * bytes) -> U
}.

(** A text of a URL is read back; its characters are printable ASCII, it begins
    with a letter and does not end in a space. *)
Class UrlLaws (U : Type) `{Url U} : Prop := {
  url_parse_text u : url_parse (url_text u) = Some u;
  url_printable u : Forall (fun b => 32 <= b <= 126) (url_text u);
  url_first u : exists c t, url_text u = c :: t /\ 65 <= c <= 122;
  url_last u : last (url_text u) <> Some 32;
  scheme_with_pairs u ps : scheme (with_pairs u ps) = scheme u;
  query_with_pairs u ps : query_pairs (with_pairs u ps) = ps;
  with_pairs_twice u ps qs : with_pairs (with_pairs u ps) qs = with_pairs u qs
}.

(** ** Constants *)

Definition SERVICE_NAME : bytes := lit "bepository.service".
Definition ENV_DIR : bytes := lit "/etc/bepository".
Definition ENV_PATH : bytes := lit "/etc/bepository/env".
Definition DROPIN_DIR : bytes := lit "/etc/systemd/system/bepository.service.d".
Definition STORAGE_URI : bytes := lit "BEPOSITORY_STORAGE_URI".
Definition GOOGLE : bytes := lit "GOOGLE_APPLICATION_CREDENTIALS".

Definition runtime_credentials_dir : bytes := lit "/run/credentials/" ++ SERVICE_NAME.
Definition runtime_credentials_prefix : bytes := runtime_credentials_dir ++ [SLASH].

(** ** Where a value points *)

Inductive CredentialSource :=
| Absent
| Relative (value : bytes)
| AbsoluteLocal (value : bytes)
| AbsoluteWired (name : bytes)
| AbsoluteForeign.

Definition classify_credential_source (value : option bytes) : CredentialSource :=
  match value with
  | None | Some [] => Absent
  | Some v =>
      match strip_prefix runtime_credentials_prefix v with
      | Some name => AbsoluteWired name
      | None =>
          if starts_with (lit "/run/credentials/") v then AbsoluteForeign
          else if starts_with [SLASH] v then AbsoluteLocal v else Relative v
      end
  end.

(** [lookup_env]: the first assignment. *)
Definition value_of (key : bytes) (l : list (bytes * bytes)) : option bytes :=
  match find (fun kv => bool_decide (fst kv = key)) l with Some (_, v) => Some v | None => None end.
Definition lookup_env (env_text key : bytes) : option bytes := value_of key (parse_env_lines env_text).

(** ** Drop-ins *)

Definition LOAD : bytes := lit "LoadCredential=".
Definition COLON : Z := 58.

Definition dropin_content (name source : bytes) : bytes :=
  lit "# Managed by `bepository install-service` " ++ [226; 128; 148] ++
  lit " do not edit; uninstall-service removes it." ++ [NL] ++ lit "[Service]" ++ [NL] ++
  LOAD ++ name ++ [COLON] ++ source ++ [NL].

Fixpoint find_map {A B : Type} (f : A -> option B) (l : list A) : option B :=
  match l with [] => None | x :: l' => match f x with Some y => Some y | None => find_map f l' end end.

Definition load_credential_line (line : bytes) : option (bytes * bytes) :=
  match strip_prefix LOAD (trim_start line) with Some rest => split_once [COLON] rest | None => None end.

Definition parse_load_credential (content : bytes) : option (bytes * bytes) :=
  find_map load_credential_line (lines content).

(** [Path::extension] of a file name is [conf]. *)
Definition is_conf (name : bytes) : bool :=
  match rsplit_once [46] name with Some (_ :: _, ext) => bool_decide (ext = lit "conf") | _ => false end.

(** [dropin_credential_source], on the names of the directory in the order in
    which they are listed. *)
Definition dropin_credential_source (names : list bytes) (dir name : bytes) (fs : Fs) : option bytes :=
  find_map (fun n =>
      if is_conf n then
        match read_to_string (join dir n) fs with
        | Some content =>
            find_map (fun l => strip_prefix (LOAD ++ name ++ [COLON]) (trim_start l)) (lines content)
        | None => None
        end
      else None) names.

Inductive WiringOutcome :=
| Untouched
| Wired (dropin_changed : bool) (adhoc : option bytes)
| AlreadyWired (adhoc : option bytes)
| Unwired
| RelativeWarned.

Section Wiring.
Context {U : Type} `{!Url U}.

(** ** The two credentials *)

Record Credential := mkCredential {
  name : bytes;
  description : string;
  extract : bytes -> option (option bytes);
  set : bytes -> bytes -> option bytes;
  restore : bytes -> bytes -> bytes -> option bytes;
  adhoc_value : bytes -> bytes -> option bytes
}.

Definition sftp_uri (env_text : bytes) : option U :=
  match lookup_env env_text STORAGE_URI with
  | Some v => match url_parse v with
              | Some u => if bool_decide (scheme u = lit "sftp") then Some u else None
              | None => None
              end
  | None => None
  end.

Definition sftp_key_param (u : U) : option bytes := value_of (lit "key") (query_pairs u).

(** [rewrite_sftp_key]. *)
Definition rekeyed (u : U) (new_path : bytes) : U :=
  with_pairs u (filter (fun kv => fst kv <> lit "key") (query_pairs u) ++ [(lit "key", new_path)]).
Definition rewrite_sftp_key (u : U) (new_path : bytes) : bytes := url_text (rekeyed u new_path).

Definition sftp_extract (env_text : bytes) : option (option bytes) :=
  match sftp_uri env_text with Some u => Some (sftp_key_param u) | None => None end.

Definition sftp_set (env_text new : bytes) : option bytes :=
  match sftp_uri env_text with
  | Some u => Some (set_env_assignment env_text STORAGE_URI (rewrite_sftp_key u new))
  | None => None
  end.

Definition sftp_restore (env_text runtime source : bytes) : option bytes :=
  match sftp_uri env_text with
  | Some u =>
      match sftp_key_param u with
      | Some key => if bool_decide (key = runtime) then sftp_set env_text source else None
      | None => None
      end
  | None => None
  end.

Definition gcs_extract (env_text : bytes) : option (option bytes) := Some (lookup_env env_text GOOGLE).
Definition gcs_set (env_text new : bytes) : option bytes := Some (set_env_assignment env_text GOOGLE new).
Definition gcs_restore (env_text runtime source : bytes) : option bytes :=
  match lookup_env env_text GOOGLE with
  | Some v => if bool_decide (v = runtime) then gcs_set env_text source else None
  | None => None
  end.

Definition sftp_adhoc_value (env_text source : bytes) : option bytes :=
  match sftp_uri env_text with
  | Some u =>
      if bool_decide (sftp_key_param u = Some source) then lookup_env env_text STORAGE_URI
      else Some (rewrite_sftp_key u source)
  | None => None
  end.
Definition gcs_adhoc_value (env_text source : bytes) : option bytes := Some source.

Definition sftp_credential : Credential :=
  mkCredential (lit "sftp-key") "the SFTP key in BEPOSITORY_STORAGE_URI" sftp_extract sftp_set sftp_restore sftp_adhoc_value.
Definition gcs_credential : Credential :=
  mkCredential (lit "gcs-sa-key") "GOOGLE_APPLICATION_CREDENTIALS" gcs_extract gcs_set gcs_restore gcs_adhoc_value.
Definition CREDENTIALS : list Credential := [sftp_credential; gcs_credential].

Definition dropin_path (dir : bytes) (cred : Credential) : bytes := join dir (name cred ++ lit ".conf").
Definition runtime_path (n : bytes) : bytes := runtime_credentials_dir ++ [SLASH] ++ n.

(** ** Wiring *)

Definition write_if_changed (p content : bytes) : SE Fs Error bool :=
  do! fs <- se_get;
  if bool_decide (read_to_string p fs = Some content) then se_ret false
  else run! fs_write p content; se_ret true.

Definition wire_credential (listing : list bytes) (env_text : bytes) (cred : Credential) (dir : bytes) :
  SE Fs Error (bytes * WiringOutcome) :=
  match extract cred env_text with
  | None => se_ret (env_text, Untouched)
  | Some value =>
      match classify_credential_source value with
      | Absent =>
          do! fs <- se_get;
          if path_exists (dropin_path dir cred) fs then
            run! remove_file (dropin_path dir cred); se_ret (env_text, Unwired)
          else se_ret (env_text, Untouched)
      | Relative _ => se_ret (env_text, RelativeWarned)
      | AbsoluteForeign => se_ret (env_text, Untouched)
      | AbsoluteLocal source =>
          run! create_dir_all dir;
          do! dropin_changed <- write_if_changed (dropin_path dir cred) (dropin_content (name cred) source);
          match set cred env_text (runtime_path (name cred)) with
          | Some text => se_ret (text, Wired dropin_changed (adhoc_value cred env_text source))
          | None => se_err (RewriteFailed (description cred))
          end
      | AbsoluteWired n =>
          do! fs <- se_get;
          se_ret (env_text, AlreadyWired (match dropin_credential_source listing dir n fs with
                                          | Some src => adhoc_value cred env_text src
                                          | None => None
                                          end))
      end
  end.

Fixpoint wire_all (listing : list bytes) (text : bytes) (creds : list Credential) (dir : bytes) :
  SE Fs Error (bytes * list (bytes * WiringOutcome)) :=
  match creds with
  | [] => se_ret (text, [])
  | cred :: creds' =>
      do! x <- wire_credential listing text cred dir;
      do! y <- wire_all listing (fst x) creds' dir;
      se_ret (fst y, (name cred, snd x) :: snd y)
  end.

Definition wire_credential_dropins (listing : list bytes) (env_text dir : bytes) :
  SE Fs Error (bytes * list (bytes * WiringOutcome)) := wire_all listing env_text CREDENTIALS dir.

(** The first part of [install_service]: the environment file. *)
Definition install_env (example : bytes) (listing : list bytes) (storage_uri : option bytes) :
  SE Fs Error (list (bytes * WiringOutcome)) :=
  do! fs <- se_get;
  do! text <- (if path_exists ENV_PATH fs then se_lift (ok_or (read_to_string ENV_PATH fs) (FsError "reading" ENV_PATH))
               else run! create_dir_all ENV_DIR; run! fs_write ENV_PATH example; se_ret example);
  do! text <- match storage_uri with
              | Some uri =>
                  run! write_env_atomic ENV_PATH (set_env_assignment text STORAGE_URI uri);
                  se_ret (set_env_assignment text STORAGE_URI uri)
              | None => se_ret text
              end;
  do! wired <- wire_credential_dropins listing text DROPIN_DIR;
  run! (if bool_decide (fst wired = text) then se_ret tt else write_env_atomic ENV_PATH (fst wired));
  se_ret (snd wired).

(** ** Unwiring *)

(** The loop over the drop-ins: the text of the environment file, if it can be
    read, and whether a path was put back. *)
Definition restore_one (dir : bytes) (fs : Fs) (x : option bytes * bool) (cred : Credential) : option bytes * bool :=
  match read_to_string (dropin_path dir cred) fs with
  | None => x
  | Some content =>
      match parse_load_credential content, fst x with
      | Some (n, source), Some text =>
          match restore cred text (runtime_path n) source with
          | Some new => (Some new, true)
          | None => x
          end
      | _, _ => x
      end
  end.

Fixpoint remove_dropins (dir : bytes) (creds : list Credential) : SE Fs Error unit :=
  match creds with
  | [] => se_ret tt
  | cred :: creds' =>
      do! fs <- se_get;
      run! (if path_exists (dropin_path dir cred) fs then remove_file (dropin_path dir cred) else se_ret tt);
      remove_dropins dir creds'
  end.

Definition unwire_credential_dropins (env_path dir : bytes) : SE Fs Error unit :=
  do! fs <- se_get;
  let x := foldl (restore_one dir fs) (read_to_string env_path fs, false) CREDENTIALS in
  run! match x with
       | (Some text, true) => write_env_atomic env_path text
       | _ => se_ret tt
       end;
  remove_dropins dir CREDENTIALS.

(** ** Specification *)

(** The local path that a value of the environment names, if it does. *)
Definition source_of (value : option (option bytes)) : option bytes :=
  match value with
  | Some v => match classify_credential_source v with AbsoluteLocal p => Some p | _ => None end
  | None => None
  end.

Definition not_wired (value : option (option bytes)) : Prop :=
  forall v n, value = Some v -> classify_credential_source v <> AbsoluteWired n.

(** The assignments after a round of wiring and unwiring: the key of an sftp URI
    is moved to its end, everything else is as it was. *)
Definition requoted (l : list (bytes * bytes)) (u : option U) (source : option bytes) : list (bytes * bytes) :=
  match u, source with
  | Some u, Some p => set_first STORAGE_URI (rewrite_sftp_key u p) l
  | _, _ => l
  end.

(** ** Assignments *)

Lemma value_of_cons key k v l :
  value_of key ((k, v) :: l) = if decide (k = key) then Some v else value_of key l.
Proof. unfold value_of. cbn [find fst]. case_bool_decide; [by rewrite decide_True|by rewrite decide_False]. Qed.

Lemma value_of_set_first key key' v l :
  value_of key (set_first key' v l) = if decide (key' = key) then Some v else value_of key l.
Proof.
  induction l as [|[k w] l IH]; cbn [set_first]; [by rewrite value_of_cons|].
  destruct (decide (k = key')) as [->|Hk]; rewrite !value_of_cons; [by destruct (decide (key' = key))|].
  destruct (decide (k = key)) as [->|]; [by rewrite decide_False|done].
Qed.

Lemma set_first_same key v l : value_of key l = Some v -> set_first key v l = l.
Proof.
  induction l as [|[k w] l IH]; cbn [set_first]; [done|]. rewrite value_of_cons.
  destruct (decide (k = key)) as [->|]; [by intros [= ->]|]. intros H. by rewrite IH.
Qed.

Lemma set_first_twice key v w l : set_first key v (set_first key w l) = set_first key v l.
Proof.
  induction l as [|[k x] l IH]; cbn [set_first]; [by rewrite decide_True|].
  destruct (decide (k = key)) as [->|]; cbn [set_first]; [by rewrite decide_True|]. rewrite decide_False by done. by rewrite IH.
Qed.

Lemma set_first_comm k1 k2 v1 v2 l : k1 <> k2 -> is_Some (value_of k1 l) -> is_Some (value_of k2 l) ->
  set_first k1 v1 (set_first k2 v2 l) = set_first k2 v2 (set_first k1 v1 l).
Proof.
  intros Hk. induction l as [|[k x] l IH]; [by intros []|]. rewrite !value_of_cons. cbn [set_first].
  destruct (decide (k = k1)) as [E1|H1], (decide (k = k2)) as [E2|H2]; cbn [set_first]; intros S1 S2.
  - congruence.
  - subst k. rewrite decide_True by done. by rewrite decide_False.
  - subst k. rewrite decide_False by done. by rewrite decide_True.
  - rewrite !decide_False by done. by rewrite IH.
Qed.

(** ** Text that stays as it is *)

Lemma strip_one_None (encodings : list bytes) c s :
  (forall e, e ∈ encodings -> head e <> Some c /\ e <> []) -> strip_one encodings (c :: s) = None.
Proof.
  induction encodings as [|e encodings IH]; intros He; cbn [strip_one]; [done|].
  destruct (He e) as [Hh Hne]; [by left|]. destruct e as [|x e]; [done|]. cbn.
  destruct (Z.eqb_spec x c) as [->|]; [done|]. apply IH. intros e' ?. apply He. by right.
Qed.

Lemma white_edges (encodings : list bytes) (c : Z) : encodings = WHITE \/ encodings = map (@rev Z) WHITE ->
  33 <= c <= 126 -> forall e, e ∈ encodings -> head e <> Some c /\ e <> [].
Proof.
  intros Henc Hc.
  assert (forallb (fun e => match e with [] => false | x :: _ => (x <? 33) || (126 <? x) end) encodings = true) as H.
  { destruct Henc as [->| ->]; vm_compute; reflexivity. }
  intros e He%list_elem_of_In. rewrite forallb_forall in H. specialize (H e He). destruct e as [|x e]; [done|].
  split; [|done]. intros [= ->]. lia.
Qed.

Lemma trim_edges (s : bytes) (a b : Z) (t : bytes) :
  s = a :: t -> last s = Some b -> 33 <= a <= 126 -> 33 <= b <= 126 -> trim s = s /\ trim_start s = s.
Proof.
  intros Hs Hl Ha Hb. assert (trim_start s = s) as Hstart.
  { unfold trim_start. subst s. cbn [length strip_all]. rewrite strip_one_None; [done|]. by apply white_edges; [left|]. }
  split; [|done]. unfold trim. assert (trim_end s = s) as ->; [|done]. unfold trim_end.
  apply last_Some in Hl as [l' ->]. rewrite rev_app_distr, length_app, Nat.add_comm. cbn [rev app length Nat.add strip_all].
  rewrite strip_one_None; [|by apply white_edges; [right|]]. cbn [rev]. by rewrite rev_involutive.
Qed.

Context {UL : UrlLaws U}.

Lemma url_ends (u : U) : exists b, last (url_text u) = Some b /\ 33 <= b <= 126.
Proof.
  destruct (last (url_text u)) as [b|] eqn:El.
  - exists b. split; [done|]. pose proof (url_last u) as Hl. pose proof (url_printable u) as Hp.
    apply last_Some in El as [l' E]. rewrite E in Hp, Hl. rewrite last_snoc in Hl. apply Forall_app in Hp as [_ Hp].
    inversion Hp; subst. assert (b <> 32) by congruence. lia.
  - destruct (url_first u) as (c & t & E & _). rewrite E in El. by apply last_None in El.
Qed.

Lemma url_writable (u : U) : writable STORAGE_URI (url_text u) /\ unquote (url_text u) = url_text u.
Proof.
  destruct (url_first u) as (c & t & E & Hc). destruct (url_ends u) as (b & Hl & Hb).
  pose proof (url_printable u) as Hp. rewrite E in *. split.
  - split_and!; [done|done|by apply (bool_decide_unpack _); vm_compute..| |].
    + intros Hin. rewrite Forall_forall in Hp. specialize (Hp NL Hin). unfold NL in Hp. lia.
    + apply (trim_edges _ 66 b (lit "EPOSITORY_STORAGE_URI=" ++ c :: t)); [done| |lia|done].
      rewrite app_assoc, last_app, Hl. done.
  - unfold unquote. destruct (strip_prefix [QUOTE] (c :: t)) eqn:Es; [|done]. apply strip_prefix_Some in Es.
    injection Es as -> _. unfold QUOTE in Hc. lia.
Qed.

(** A credential as a value inside the assignments. *)
Record lens (cred : Credential) (E : list (bytes * bytes) -> option (option bytes))
  (W : bytes -> list (bytes * bytes) -> list (bytes * bytes)) (fits : bytes -> Prop) : Prop := mkLens {
  lens_extract t : extract cred t = E (parse_env_lines t);
  lens_set t v x : E (parse_env_lines t) = Some (Some x) -> fits v ->
    exists t', set cred t v = Some t' /\ parse_env_lines t' = W v (parse_env_lines t);
  lens_restore t rt src :
    restore cred t rt src = if decide (E (parse_env_lines t) = Some (Some rt)) then set cred t src else None;
  lens_get_set v l x : E l = Some (Some x) -> E (W v l) = Some (Some v);
  lens_set_set v w l x : E l = Some (Some x) -> W v (W w l) = W v l
}.

Definition uri_of (l : list (bytes * bytes)) : option U :=
  match value_of STORAGE_URI l with
  | Some v => match url_parse v with
              | Some u => if bool_decide (scheme u = lit "sftp") then Some u else None
              | None => None
              end
  | None => None
  end.

Definition sftp_get (l : list (bytes * bytes)) : option (option bytes) :=
  match uri_of l with Some u => Some (sftp_key_param u) | None => None end.
Definition sftp_put (v : bytes) (l : list (bytes * bytes)) : list (bytes * bytes) := requoted l (uri_of l) (Some v).
Definition gcs_get (l : list (bytes * bytes)) : option (option bytes) := Some (value_of GOOGLE l).
Definition gcs_put (v : bytes) (l : list (bytes * bytes)) : list (bytes * bytes) := set_first GOOGLE v l.
Definition gcs_fits (v : bytes) : Prop := writable GOOGLE v /\ unquote v = v.

Lemma uri_of_put v l u : uri_of l = Some u -> uri_of (sftp_put v l) = Some (rekeyed u v).
Proof.
  intros Hu. unfold sftp_put. rewrite Hu. cbn [requoted]. unfold uri_of at 1. rewrite value_of_set_first, decide_True by done.
  unfold rewrite_sftp_key. rewrite url_parse_text. unfold rekeyed. rewrite scheme_with_pairs.
  revert Hu. unfold uri_of. destruct (value_of STORAGE_URI l) as [t|]; [|done]. destruct (url_parse t); [|done].
  case_bool_decide; [|done]. intros [= ->]. by rewrite bool_decide_true.
Qed.

Lemma no_key_left (ps : list (bytes * bytes)) :
  value_of (lit "key") (filter (fun kv => fst kv <> lit "key") ps) = None /\
  filter (fun kv => fst kv <> lit "key") (filter (fun kv => fst kv <> lit "key") ps) =
  filter (fun kv => fst kv <> lit "key") ps.
Proof.
  induction ps as [|[k v] ps [IH1 IH2]]; [done|]. destruct (decide (k = lit "key")) as [->|Hk].
  - by rewrite filter_cons_False by (cbn; tauto).
  - rewrite filter_cons_True by done. rewrite filter_cons_True by done. rewrite value_of_cons, decide_False by done.
    by rewrite IH2.
Qed.

Lemma key_rekeyed u v : sftp_key_param (rekeyed u v) = Some v.
Proof.
  unfold sftp_key_param, rekeyed. rewrite query_with_pairs. destruct (no_key_left (query_pairs u)) as [H _]. revert H.
  generalize (filter (fun kv => fst kv <> lit "key") (query_pairs u)). induction l as [|[k w] l IH]; [done|].
  cbn [app]. rewrite !value_of_cons. by destruct (decide (k = lit "key")).
Qed.

Lemma rekeyed_twice u v w : rekeyed (rekeyed u v) w = rekeyed u w.
Proof.
  unfold rekeyed at 1. unfold rekeyed at 1 2. rewrite query_with_pairs, with_pairs_twice. unfold rekeyed. f_equal. f_equal.
  rewrite filter_app. destruct (no_key_left (query_pairs u)) as [_ ->].
  rewrite filter_cons_False by (cbn; tauto). by rewrite filter_nil, app_nil_r.
Qed.

Lemma sftp_lens : lens sftp_credential sftp_get sftp_put (fun _ => True).
Proof.
  split; cbn [extract set restore sftp_credential].
  - done.
  - intros t v x Hx _. unfold sftp_set. change (sftp_uri t) with (uri_of (parse_env_lines t)). unfold sftp_get in Hx.
    destruct (uri_of (parse_env_lines t)) as [u|] eqn:Hu; [|done]. eexists. split; [done|].
    destruct (url_writable (rekeyed u v)) as [Hw Hq]. rewrite set_then_parse by done. unfold rewrite_sftp_key. rewrite Hq.
    unfold sftp_put. by rewrite Hu.
  - intros t rt src. unfold sftp_restore, sftp_get, sftp_set. change (sftp_uri t) with (uri_of (parse_env_lines t)).
    destruct (uri_of (parse_env_lines t)) as [u|]; [|by rewrite decide_False].
    destruct (sftp_key_param u) as [key|]; [|by rewrite decide_False].
    case_bool_decide as Hk; [by rewrite decide_True by congruence|by rewrite decide_False by congruence].
  - intros v l x. unfold sftp_get. destruct (uri_of l) as [u|] eqn:Hu; [|done]. intros _.
    rewrite (uri_of_put v l u Hu). by rewrite key_rekeyed.
  - intros v w l x. unfold sftp_get. destruct (uri_of l) as [u|] eqn:Hu; [|done]. intros _.
    unfold sftp_put at 1. rewrite (uri_of_put w l u Hu). unfold sftp_put. rewrite Hu. cbn [requoted].
    unfold rewrite_sftp_key. by rewrite rekeyed_twice, set_first_twice.
Qed.

Lemma gcs_lens : lens gcs_credential gcs_get gcs_put gcs_fits.
Proof.
  split; cbn [extract set restore gcs_credential].
  - done.
  - intros t v x _ [Hw Hq]. eexists. split; [done|]. unfold gcs_put. by rewrite set_then_parse, Hq by done.
  - intros t rt src. unfold gcs_restore, gcs_get, lookup_env. destruct (value_of GOOGLE _) as [v|]; [|by rewrite decide_False].
    case_bool_decide as Hk; [by rewrite decide_True by congruence|by rewrite decide_False by congruence].
  - intros v l x _. unfold gcs_get, gcs_put. by rewrite value_of_set_first, decide_True.
  - intros v w l x _. apply set_first_twice.
Qed.

(** ** One credential *)

Definition clean (fs : Fs) : Prop := unreadable fs = ∅ /\ read_only fs = ∅.

Lemma read_clean p fs : clean fs -> read_to_string p fs = files fs !! p.
Proof. intros [Hu _]. unfold read_to_string. rewrite decide_False; [done|]. rewrite Hu. apply not_elem_of_empty. Qed.

Lemma wp_fs_write p text Q fs : clean fs -> Q (set_files fs (<[ p := text ]> (files fs))) (Ok tt) -> wp (fs_write p text) Q fs.
Proof. intros [_ Hr] HQ. unfold wp, fs_write. rewrite decide_False; [done|]. rewrite Hr. apply not_elem_of_empty. Qed.

Lemma wp_write_atomic p text Q fs :
  clean fs -> Q (set_files fs (<[ p := text ]> (files fs))) (Ok tt) -> wp (write_env_atomic p text) Q fs.
Proof. intros [_ Hr] HQ. unfold wp, write_env_atomic. rewrite decide_False; [done|]. rewrite Hr. apply not_elem_of_empty. Qed.

Lemma wp_remove p Q fs : clean fs -> path_exists p fs = true ->
  Q (set_files fs (delete p (files fs))) (Ok tt) -> wp (remove_file p) Q fs.
Proof.
  intros [_ Hr] Hp HQ. unfold wp, remove_file. rewrite decide_False, Hp; [done|]. rewrite Hr. apply not_elem_of_empty.
Qed.

Lemma wp_create_dir dir Q fs : clean fs -> Q fs (Ok tt) -> wp (create_dir_all dir) Q fs.
Proof. intros [_ Hr] HQ. unfold wp, create_dir_all. rewrite decide_False; [done|]. rewrite Hr. apply not_elem_of_empty. Qed.

Lemma wp_write_if_changed p content Q fs : clean fs ->
  (forall fs' b, clean fs' -> files fs' !! p = Some content -> (forall q, q <> p -> files fs' !! q = files fs !! q) ->
     Q fs' (Ok b)) ->
  wp (write_if_changed p content) Q fs.
Proof.
  intros Hc HQ. unfold write_if_changed. apply wp_bind, wp_get. case_bool_decide as Hr.
  - rewrite read_clean in Hr by done. apply wp_ret, HQ; [done|done|auto].
  - apply wp_bind, wp_fs_write; [done|]. apply wp_ret, HQ; [done|apply lookup_insert_eq|].
    intros q Hq. by apply lookup_insert_ne.
Qed.

(** Wiring one credential that is not wired yet. *)
Lemma wp_wire_credential cred E W fits listing t dir fs :
  lens cred E W fits -> clean fs -> not_wired (E (parse_env_lines t)) -> fits (runtime_path (name cred)) ->
  let l := parse_env_lines t in
  wp (wire_credential listing t cred dir) (fun fs' r => exists t' out, r = Ok (t', out) /\ clean fs' /\
    (forall q, q <> dropin_path dir cred -> files fs' !! q = files fs !! q) /\
    match source_of (E l) with
    | Some p => parse_env_lines t' = W (runtime_path (name cred)) l /\
                files fs' !! dropin_path dir cred = Some (dropin_content (name cred) p)
    | None => t' = t
    end) fs.
Proof.
  intros Hlens Hc Hn Hfits l. unfold wire_credential. rewrite (lens_extract _ _ _ _ Hlens). fold l. fold l in Hn.
  unfold source_of. destruct (E l) as [v|] eqn:Hv; [|apply wp_ret; eauto 10].
  specialize (Hn v). destruct (classify_credential_source v) as [|x|p|n|] eqn:Hcl.
  - apply wp_bind, wp_get. destruct (path_exists (dropin_path dir cred) fs) eqn:Hp; [|apply wp_ret; eauto 10].
    apply wp_bind, wp_remove; [done|done|]. apply wp_ret. eexists _, _. split; [done|]. split; [done|]. split; [|done].
    intros q Hq. by apply lookup_delete_ne.
  - apply wp_ret. eauto 10.
  - apply wp_bind, wp_create_dir; [done|]. apply wp_bind, wp_write_if_changed; [done|]. intros fs' b Hc' Hd Hq.
    destruct v as [v|]; [|done].
    destruct (lens_set _ _ _ _ Hlens t (runtime_path (name cred)) v Hv Hfits) as (t' & -> & Ht').
    apply wp_ret. eexists _, _. split; [done|]. by split_and!.
  - by destruct (Hn n).
  - apply wp_ret. eauto 10.
Qed.

Lemma parse_dropin n src : COLON ∉ n -> NL ∉ n -> NL ∉ src -> last src <> Some CR ->
  parse_load_credential (dropin_content n src) = Some (n, src).
Proof.
  intros Hn Hnl Hs Hcr.
  set (l1 := lit "# Managed by `bepository install-service` " ++ [226; 128; 148] ++
             lit " do not edit; uninstall-service removes it.").
  set (l3 := LOAD ++ n ++ [COLON] ++ src).
  assert (dropin_content n src = emit [l1; lit "[Service]"; l3]) as ->.
  { unfold dropin_content, emit, l1, l3. cbn [map concat]. by rewrite app_nil_r, <- !app_assoc. }
  unfold parse_load_credential. rewrite lines_emit.
  - assert (strip_cr l3 = l3) as E3.
    { destruct (strip_cr_cases l3) as [->|(l' & E & _)]; [done|]. exfalso. unfold l3 in E.
      destruct src as [|x src] using rev_ind.
      - rewrite app_nil_r in E. rewrite app_assoc in E. by apply app_inj_tail in E as [_ ?].
      - rewrite !app_assoc in E. apply app_inj_tail in E as [_ ->]. by rewrite last_snoc in Hcr. }
    cbn [map find_map]. rewrite E3.
    assert (load_credential_line (strip_cr l1) = None) as -> by (vm_compute; reflexivity).
    assert (load_credential_line (strip_cr (lit "[Service]")) = None) as -> by (vm_compute; reflexivity).
    unfold load_credential_line, trim_start, l3.
    assert (strip_all (length (LOAD ++ n ++ [COLON] ++ src)) WHITE (LOAD ++ n ++ [COLON] ++ src) =
            LOAD ++ n ++ [COLON] ++ src) as ->.
    { cbn [LOAD lit app length strip_all]. by rewrite strip_one_None by (apply white_edges; [by left|done]). }
    rewrite strip_prefix_app. cbn [app]. by rewrite split_once_char.
  - intros l [->|[->|[->|[]%not_elem_of_nil]%elem_of_cons]%elem_of_cons]%elem_of_cons.
    + apply (bool_decide_unpack _). by vm_compute.
    + apply (bool_decide_unpack _). by vm_compute.
    + unfold l3. rewrite !not_elem_of_app. split_and!; [|done| |done]; apply (bool_decide_unpack _); by vm_compute.
Qed.

(** A value that is not wired is not restored. *)
Lemma classify_runtime n : classify_credential_source (Some (runtime_path n)) = AbsoluteWired n.
Proof.
  unfold classify_credential_source, runtime_path.
  destruct (runtime_credentials_dir ++ [SLASH] ++ n) eqn:E; [by cbn in E|]. rewrite <- E.
  change (runtime_credentials_dir ++ [SLASH] ++ n) with (runtime_credentials_prefix ++ n). by rewrite strip_prefix_app.
Qed.

Lemma restore_untouched cred E W fits dir fs t b :
  lens cred E W fits -> not_wired (E (parse_env_lines t)) -> restore_one dir fs (Some t, b) cred = (Some t, b).
Proof.
  intros Hlens Hn. unfold restore_one. destruct (read_to_string _ fs) as [content|]; [|done].
  destruct (parse_load_credential content) as [[n src]|]; [|done]. cbn [fst].
  rewrite (lens_restore _ _ _ _ Hlens), decide_False; [done|]. intros H. apply (Hn _ n H), classify_runtime.
Qed.

Lemma restore_wired cred E W fits dir fs t b src :
  lens cred E W fits -> clean fs -> COLON ∉ name cred -> NL ∉ name cred -> NL ∉ src -> last src <> Some CR -> fits src ->
  E (parse_env_lines t) = Some (Some (runtime_path (name cred))) ->
  files fs !! dropin_path dir cred = Some (dropin_content (name cred) src) ->
  exists t', restore_one dir fs (Some t, b) cred = (Some t', true) /\ parse_env_lines t' = W src (parse_env_lines t).
Proof.
  intros Hlens Hc Hn Hnl Hs Hcr Hfits HE Hd. unfold restore_one. rewrite read_clean, Hd, parse_dropin by done. cbn [fst].
  rewrite (lens_restore _ _ _ _ Hlens), decide_True by done.
  destruct (lens_set _ _ _ _ Hlens t src _ HE Hfits) as (t' & -> & Ht'). by exists t'.
Qed.

(** ** Both credentials *)

Lemma independent_gcs v l : gcs_get (sftp_put v l) = gcs_get l.
Proof.
  unfold gcs_get, sftp_put. destruct (uri_of l); cbn [requoted]; [|done]. by rewrite value_of_set_first, decide_False.
Qed.

Lemma independent_uri v l : uri_of (gcs_put v l) = uri_of l.
Proof. unfold uri_of, gcs_put. by rewrite value_of_set_first, decide_False. Qed.

Lemma independent_sftp v l : sftp_get (gcs_put v l) = sftp_get l.
Proof. unfold sftp_get. by rewrite independent_uri. Qed.

Lemma uri_of_value l u : uri_of l = Some u -> is_Some (value_of STORAGE_URI l).
Proof. unfold uri_of. destruct (value_of STORAGE_URI l); [by eexists|done]. Qed.

Lemma put_comm v w l g : value_of GOOGLE l = Some g -> sftp_put v (gcs_put w l) = gcs_put w (sftp_put v l).
Proof.
  intros Hg. unfold sftp_put. rewrite independent_uri. destruct (uri_of l) as [u|] eqn:Hu; [|done].
  apply set_first_comm; [done|by eapply uri_of_value|by eexists].
Qed.

Lemma source_get (x : option (option bytes)) p : source_of x = Some p -> x = Some (Some p) /\ exists t, p = SLASH :: t.
Proof.
  unfold source_of, classify_credential_source. destruct x as [[[|c v]|]|]; try done.
  destruct (strip_prefix runtime_credentials_prefix (c :: v)); [done|].
  destruct (starts_with (lit "/run/credentials/") (c :: v)); [done|].
  destruct (starts_with [SLASH] (c :: v)) eqn:Es; [|done]. intros [= <-]. split; [done|].
  apply starts_with_true in Es as [r ->]. by exists r.
Qed.

Definition SFTP_CONF : bytes := dropin_path DROPIN_DIR sftp_credential.
Definition GCS_CONF : bytes := dropin_path DROPIN_DIR gcs_credential.
Definition SFTP_RUNTIME : bytes := runtime_path (name sftp_credential).
Definition GCS_RUNTIME : bytes := runtime_path (name gcs_credential).

Lemma distinct_paths : SFTP_CONF <> GCS_CONF /\ ENV_PATH <> SFTP_CONF /\ ENV_PATH <> GCS_CONF.
Proof. split_and!; apply (bool_decide_unpack _); by vm_compute. Qed.

Lemma gcs_runtime_fits : gcs_fits GCS_RUNTIME.
Proof. split; [split_and!; [done|done|by apply (bool_decide_unpack _); vm_compute..|]|]; vm_compute; reflexivity. Qed.

(** The assignments while the service is installed. *)
Definition wired (l : list (bytes * bytes)) : list (bytes * bytes) :=
  let l1 := match source_of (sftp_get l) with Some _ => sftp_put SFTP_RUNTIME l | None => l end in
  match source_of (gcs_get l) with Some _ => gcs_put GCS_RUNTIME l1 | None => l1 end.

Lemma wp_install example listing t fs : clean fs -> files fs !! ENV_PATH = Some t ->
  let l := parse_env_lines t in
  not_wired (sftp_get l) -> not_wired (gcs_get l) ->
  wp (install_env example listing None) (fun fs' r => is_ok r = true /\ clean fs' /\
    (exists t', files fs' !! ENV_PATH = Some t' /\ parse_env_lines t' = wired l) /\
    (forall p, source_of (sftp_get l) = Some p -> files fs' !! SFTP_CONF = Some (dropin_content (name sftp_credential) p)) /\
    (forall p, source_of (gcs_get l) = Some p -> files fs' !! GCS_CONF = Some (dropin_content (name gcs_credential) p)) /\
    (forall q, q <> SFTP_CONF -> q <> GCS_CONF -> q <> ENV_PATH -> files fs' !! q = files fs !! q)) fs.
Proof.
  intros Hc Ht l Hns Hng. destruct distinct_paths as (D1 & D2 & D3). unfold install_env. apply wp_bind, wp_get.
  assert (path_exists ENV_PATH fs = true) as -> by (unfold path_exists; rewrite Ht; by rewrite bool_decide_true).
  apply wp_bind, wp_lift. rewrite read_clean, Ht by done. cbn [ok_or]. apply wp_bind, wp_ret.
  unfold wire_credential_dropins, CREDENTIALS. cbn [wire_all]. apply wp_bind. apply wp_bind.
  eapply wp_mono; [|by apply (wp_wire_credential _ _ _ _ listing t DROPIN_DIR fs sftp_lens)].
  intros fs1 r (t1 & o1 & -> & Hc1 & Hf1 & H1). cbn [fst snd].
  assert (parse_env_lines t1 = match source_of (sftp_get l) with Some _ => sftp_put SFTP_RUNTIME l | None => l end /\
          gcs_get (parse_env_lines t1) = gcs_get l) as [Hp1 Hg1].
  { fold l in H1. destruct (source_of (sftp_get l)) as [p|]; [destruct H1 as [-> _]|by subst t1].
    split; [done|]. apply independent_gcs. }
  apply wp_bind. apply wp_bind. eapply wp_mono; [|apply (wp_wire_credential _ _ _ _ listing t1 DROPIN_DIR fs1 gcs_lens Hc1)].
  2: by rewrite Hg1. 2: apply gcs_runtime_fits.
  intros fs2 r (t2 & o2 & -> & Hc2 & Hf2 & H2). cbn [fst snd]. apply wp_bind, wp_ret. apply wp_ret. apply wp_bind. cbn [fst snd].
  rewrite Hg1 in H2.
  assert (parse_env_lines t2 = wired l) as Hp2.
  { unfold wired. rewrite <- Hp1. destruct (source_of (gcs_get l)) as [p|]; [by destruct H2 as [-> _]|by subst t2]. }
  assert (files fs2 !! ENV_PATH = Some t) as He by (rewrite Hf2, Hf1, Ht; done).
  assert (forall p, source_of (sftp_get l) = Some p -> files fs2 !! SFTP_CONF = Some (dropin_content (name sftp_credential) p)) as Hs2.
  { intros p Hp. fold l in H1. rewrite Hp in H1. rewrite Hf2 by done. apply H1. }
  assert (forall p, source_of (gcs_get l) = Some p -> files fs2 !! GCS_CONF = Some (dropin_content (name gcs_credential) p)) as Hg2.
  { intros p Hp. rewrite Hp in H2. apply H2. }
  assert (forall q, q <> SFTP_CONF -> q <> GCS_CONF -> files fs2 !! q = files fs !! q) as Hq by (intros; by rewrite Hf2, Hf1).
  case_bool_decide as Hsame; [apply wp_ret|apply wp_write_atomic; [done|]]; apply wp_ret; cbn [set_files files].
  - split_and!; [done|done|by exists t; subst t2|done|done|auto].
  - split_and!; [done|done| | | |].
    + exists t2. by rewrite lookup_insert_eq.
    + intros p Hp. rewrite lookup_insert_ne by done. auto.
    + intros p Hp. rewrite lookup_insert_ne by done. auto.
    + intros q ? ? ?. rewrite lookup_insert_ne by done. auto.
Qed.

Lemma wp_remove_dropins Q fs : clean fs ->
  Q (set_files fs (delete GCS_CONF (delete SFTP_CONF (files fs)))) (Ok tt) -> wp (remove_dropins DROPIN_DIR CREDENTIALS) Q fs.
Proof.
  intros Hc HQ.
  assert (forall cred creds Q fs, clean fs ->
    wp (remove_dropins DROPIN_DIR creds) Q (set_files fs (delete (dropin_path DROPIN_DIR cred) (files fs))) ->
    wp (remove_dropins DROPIN_DIR (cred :: creds)) Q fs) as Hone.
  { clear. intros cred creds Q fs Hc HQ. cbn [remove_dropins]. apply wp_bind, wp_get. apply wp_bind.
    destruct (path_exists (dropin_path DROPIN_DIR cred) fs) eqn:Hp; [by apply wp_remove|]. apply wp_ret.
    unfold path_exists in Hp. apply bool_decide_eq_false in Hp.
    destruct fs as [m u ro]. cbn [set_files files] in *. by rewrite delete_id in HQ by by apply eq_None_not_Some. }
  apply Hone; [done|]. apply Hone; [done|]. by apply wp_ret.
Qed.

(** A line that reads back does not end in a carriage return. *)
Lemma strip_all_length fuel encodings s : (length (strip_all fuel encodings s) <= length s)%nat.
Proof.
  revert s. induction fuel as [|fuel IH]; intros s; cbn [strip_all]; [done|].
  destruct (strip_one encodings s) as [r|] eqn:E; [|done]. etrans; [apply IH|]. clear IH.
  induction encodings as [|e encodings IHe]; cbn [strip_one] in E; [done|].
  destruct (strip_prefix e s) eqn:Es; [|by apply IHe]. injection E as ->.
  apply strip_prefix_Some in Es as ->. rewrite length_app. lia.
Qed.

Lemma trim_length s : (length (trim s) <= length s)%nat.
Proof.
  unfold trim, trim_start. etrans; [apply strip_all_length|]. unfold trim_end. rewrite length_rev.
  etrans; [apply strip_all_length|]. by rewrite length_rev.
Qed.

Lemma writable_no_cr key v : writable key v -> last v <> Some CR.
Proof.
  intros (_ & _ & _ & _ & _ & Ht) [v' ->]%last_Some. rewrite !app_assoc in Ht. rewrite <- (app_assoc key) in Ht.
  pose proof (trim_length (key ++ [EQUALS] ++ v')) as Hle. unfold trim in Hle, Ht. rewrite <- trim_end_cr in Hle.
  rewrite <- !app_assoc in Ht, Hle. rewrite Ht in Hle. rewrite !length_app in Hle. cbn in Hle. lia.
Qed.

Lemma wired_sftp l : sftp_get (wired l) =
  match source_of (sftp_get l) with Some _ => Some (Some SFTP_RUNTIME) | None => sftp_get l end.
Proof.
  unfold wired. destruct (source_of (gcs_get l)); rewrite ?independent_sftp;
    (destruct (source_of (sftp_get l)) as [p|] eqn:Hp; [|done]; apply source_get in Hp as [Hp _];
     by apply (lens_get_set _ _ _ _ sftp_lens _ _ _ Hp)).
Qed.

Lemma wired_gcs l : gcs_get (wired l) =
  match source_of (gcs_get l) with Some _ => Some (Some GCS_RUNTIME) | None => gcs_get l end.
Proof.
  unfold wired. set (l1 := match source_of (sftp_get l) with Some _ => _ | None => _ end).
  assert (gcs_get l1 = gcs_get l) as H1 by (unfold l1; destruct (source_of (sftp_get l)); [apply independent_gcs|done]).
  destruct (source_of (gcs_get l)) as [p|] eqn:Hp; [|done]. apply source_get in Hp as [Hp _]. rewrite <- H1 in Hp.
  by apply (lens_get_set _ _ _ _ gcs_lens _ _ _ Hp).
Qed.

(** What is put back, on the level of assignments. *)
Lemma unwired l :
  let l2 := match source_of (sftp_get l) with Some p => sftp_put p (wired l) | None => wired l end in
  match source_of (gcs_get l) with Some p => gcs_put p l2 | None => l2 end =
  requoted l (uri_of l) (source_of (sftp_get l)).
Proof.
  unfold wired. destruct (source_of (sftp_get l)) as [p|] eqn:Hp.
  - apply source_get in Hp as [Hp _].
    destruct (source_of (gcs_get l)) as [g|] eqn:Hg.
    + apply source_get in Hg as [Hg _]. assert (value_of GOOGLE (sftp_put SFTP_RUNTIME l) = Some g) as Hv.
      { pose proof (independent_gcs SFTP_RUNTIME l) as H. unfold gcs_get in H, Hg. congruence. }
      rewrite (put_comm _ _ _ g Hv), (lens_set_set _ _ _ _ sftp_lens _ _ _ _ Hp). unfold gcs_put. rewrite set_first_twice.
      change (requoted l (uri_of l) (Some p)) with (sftp_put p l).
      apply set_first_same. pose proof (independent_gcs p l) as H. unfold gcs_get in H, Hg. congruence.
    + by apply (lens_set_set _ _ _ _ sftp_lens _ _ _ _ Hp).
  - unfold requoted. destruct (source_of (gcs_get l)) as [g|] eqn:Hg; [|by destruct (uri_of l)].
    apply source_get in Hg as [Hg _]. unfold gcs_put. rewrite set_first_twice, set_first_same; [by destruct (uri_of l)|].
    unfold gcs_get in Hg. congruence.
Qed.

(** The loop of unwiring on a wired file. *)
Lemma restored fs1 t1 l : clean fs1 -> parse_env_lines t1 = wired l ->
  not_wired (sftp_get l) -> not_wired (gcs_get l) ->
  (forall p, source_of (sftp_get l) = Some p -> NL ∉ p /\ last p <> Some CR) ->
  (forall p, source_of (gcs_get l) = Some p -> writable GOOGLE p) ->
  (forall p, source_of (sftp_get l) = Some p -> files fs1 !! SFTP_CONF = Some (dropin_content (name sftp_credential) p)) ->
  (forall p, source_of (gcs_get l) = Some p -> files fs1 !! GCS_CONF = Some (dropin_content (name gcs_credential) p)) ->
  exists t2 b, foldl (restore_one DROPIN_DIR fs1) (Some t1, false) CREDENTIALS = (Some t2, b) /\
    parse_env_lines t2 = requoted l (uri_of l) (source_of (sftp_get l)) /\ (b = false -> t2 = t1).
Proof.
  intros Hc Hp1 Hns Hng Hkey Hfile Hsc Hgc. cbn [CREDENTIALS foldl]. rewrite <- unwired.
  assert (exists t2 b, restore_one DROPIN_DIR fs1 (Some t1, false) sftp_credential = (Some t2, b) /\
    parse_env_lines t2 = match source_of (sftp_get l) with Some p => sftp_put p (wired l) | None => wired l end /\
    gcs_get (parse_env_lines t2) = gcs_get (wired l) /\ (b = false -> t2 = t1)) as (t2 & b & -> & Hp2 & Hg2 & Hb).
  { pose proof (wired_sftp l) as Hw. rewrite <- Hp1 in Hw. destruct (source_of (sftp_get l)) as [p|].
    - destruct (Hkey p eq_refl) as [Hnl Hcr].
      destruct (restore_wired _ _ _ _ DROPIN_DIR fs1 t1 false p sftp_lens Hc) as (t2 & Ht2 & Hp2);
        [by apply (bool_decide_unpack _); vm_compute..|done|done|done|done|by apply Hsc|].
      exists t2, true. split; [done|]. rewrite Hp2, Hp1. split; [done|]. split; [apply independent_gcs|done].
    - exists t1, false. rewrite (restore_untouched _ _ _ _ DROPIN_DIR fs1 t1 false sftp_lens) by by rewrite Hw. by rewrite Hp1. }
  pose proof (wired_gcs l) as Hw. rewrite <- Hg2 in Hw. rewrite <- Hp2. destruct (source_of (gcs_get l)) as [p|] eqn:Hp.
  - pose proof (Hfile p eq_refl) as Hwr. pose proof Hwr as (_ & _ & _ & _ & Hnl & _).
    apply source_get in Hp as [_ [p' Ep]].
    destruct (restore_wired _ _ _ _ DROPIN_DIR fs1 t2 b p gcs_lens Hc) as (t3 & Ht3 & Hp3);
      [by apply (bool_decide_unpack _); vm_compute..|done|by eapply writable_no_cr| |done|by apply Hgc|].
    { split; [done|]. by subst p. }
    exists t3, true. by rewrite Ht3.
  - exists t2, b. rewrite (restore_untouched _ _ _ _ DROPIN_DIR fs1 t2 b gcs_lens) by by rewrite Hw. done.
Qed.

Lemma wp_unwire fs1 t1 l : clean fs1 -> files fs1 !! ENV_PATH = Some t1 -> parse_env_lines t1 = wired l ->
  not_wired (sftp_get l) -> not_wired (gcs_get l) ->
  (forall p, source_of (sftp_get l) = Some p -> NL ∉ p /\ last p <> Some CR) ->
  (forall p, source_of (gcs_get l) = Some p -> writable GOOGLE p) ->
  (forall p, source_of (sftp_get l) = Some p -> files fs1 !! SFTP_CONF = Some (dropin_content (name sftp_credential) p)) ->
  (forall p, source_of (gcs_get l) = Some p -> files fs1 !! GCS_CONF = Some (dropin_content (name gcs_credential) p)) ->
  wp (unwire_credential_dropins ENV_PATH DROPIN_DIR) (fun fs2 r => r = Ok tt /\ clean fs2 /\
    (exists t2, files fs2 !! ENV_PATH = Some t2 /\
       parse_env_lines t2 = requoted l (uri_of l) (source_of (sftp_get l))) /\
    files fs2 !! SFTP_CONF = None /\ files fs2 !! GCS_CONF = None /\
    forall q, q <> SFTP_CONF -> q <> GCS_CONF -> q <> ENV_PATH -> files fs2 !! q = files fs1 !! q) fs1.
Proof.
  intros Hc1 He1 Hp1 Hsftp Hgcs Hkey Hfile Hs1 Hg1. destruct distinct_paths as (D1 & D2 & D3).
  destruct (restored fs1 t1 l Hc1) as (t2 & b & Hfold & Hp2 & Hb); [done..|].
  unfold unwire_credential_dropins. apply wp_bind, wp_get. rewrite read_clean, He1, Hfold by done.
  assert (wp (if b then write_env_atomic ENV_PATH t2 else se_ret tt) (fun fs' r => r = Ok tt /\ clean fs' /\
    files fs' = <[ ENV_PATH := t2 ]> (files fs1)) fs1) as Hw.
  { destruct b; [by apply wp_write_atomic|]. apply wp_ret. split; [done|]. split; [done|].
    rewrite Hb by done. by rewrite insert_id. }
  apply wp_bind. match goal with |- wp ?m _ _ => replace m with (if b then write_env_atomic ENV_PATH t2 else se_ret tt) by by destruct b end.
  eapply wp_mono; [|apply Hw]. intros fs' r (-> & Hc' & Hf'). apply wp_remove_dropins; [done|].
  cbn [set_files files]. rewrite Hf'. split_and!; [done|done| | | |].
  - exists t2. split; [|done]. by rewrite !lookup_delete_ne, lookup_insert_eq by done.
  - by rewrite lookup_delete_ne, lookup_delete_eq by done.
  - by rewrite lookup_delete_eq.
  - intros q ? ? ?. by rewrite !lookup_delete_ne, lookup_insert_ne by done.
Qed.

End Wiring.

(** ** Examples *)

(** URLs with a scheme and a query; the query is written in binary. *)
Definition ToyUrl : Type := bool * list (bytes * bytes).

Fixpoint pos_text (p : positive) : bytes :=
  match p with xH => [] | xO p' => 48 :: pos_text p' | xI p' => 49 :: pos_text p' end.
Fixpoint text_pos (t : bytes) : option positive :=
  match t with
  | [] => Some xH
  | c :: t' => match text_pos t' with
               | Some p => if c =? 48 then Some (xO p) else if c =? 49 then Some (xI p) else None
               | None => None
               end
  end.

Definition toy_scheme (u : ToyUrl) : bytes := if fst u then lit "sftp" else lit "http".

#[export] Instance ToyUrl_Url : Url ToyUrl := {
  url_parse t :=
    let query rest := match text_pos rest with Some p => countable.decode p | None => None end in
    match strip_prefix (lit "sftp:") t with
    | Some rest => (pair true) <$> query rest
    | None => match strip_prefix (lit "http:") t with Some rest => (pair false) <$> query rest | None => None end
    end;
  url_text u := toy_scheme u ++ [COLON] ++ pos_text (countable.encode (snd u));
  scheme := toy_scheme;
  query_pairs := snd;
  with_pairs u ps := (fst u, ps)
}.

Lemma text_pos_text p : text_pos (pos_text p) = Some p.
Proof. induction p as [p IH|p IH|]; cbn; by rewrite ?IH. Qed.

Lemma pos_text_digits p : Forall (fun b => 48 <= b <= 49) (pos_text p).
Proof. induction p; cbn; constructor; lia || done. Qed.

#[export] Instance ToyUrl_Laws : UrlLaws ToyUrl.
Proof.
  split; cbn [url_parse url_text scheme query_pairs with_pairs ToyUrl_Url].
  - intros [[] ps]; unfold toy_scheme; cbn [fst snd].
    + change (lit "sftp" ++ [COLON] ++ pos_text (countable.encode ps)) with (lit "sftp:" ++ pos_text (countable.encode ps)).
      by rewrite strip_prefix_app, text_pos_text, countable.decode_encode.
    + change (lit "http" ++ [COLON] ++ pos_text (countable.encode ps)) with (lit "http:" ++ pos_text (countable.encode ps)).
      rewrite strip_prefix_app, text_pos_text, countable.decode_encode. done.
  - intros u. apply Forall_app. split; [destruct u as [[] ?]; cbn; repeat (apply Forall_cons; split; [lia|]); done|].
    apply Forall_app. split; [apply Forall_cons; split; [unfold COLON; lia|done]|].
    eapply Forall_impl; [apply pos_text_digits|]. cbn. lia.
  - intros [[] ps]; eexists _, _; (split; [reflexivity|cbn; lia]).
  - intros u. rewrite last_app. destruct (last ([COLON] ++ _)) as [b|] eqn:El.
    + intros [= ->]. apply last_Some in El as [l' E].
      assert (Forall (fun b => 48 <= b <= 58) ([COLON] ++ pos_text (countable.encode (snd u)))) as Hd.
      { constructor; [unfold COLON; lia|]. eapply Forall_impl; [apply pos_text_digits|]. cbn. lia. }
      rewrite E in Hd. apply Forall_app in Hd as [_ Hd]. inversion Hd. lia.
    + by apply last_None in El.
  - done.
  - done.
  - done.
Qed.

(** An environment file with a key in an sftp URI and a quoted key for Google
    storage, and a drop-in of the administrator. *)
Definition toy_uri : ToyUrl := (true, [(lit "key", lit "/k"); (lit "a", [])]).
Definition toy_env : bytes :=
  lit "# config" ++ [NL] ++ GOOGLE ++ [EQUALS; QUOTE] ++ lit "/g" ++ [QUOTE; CR; NL] ++
  STORAGE_URI ++ [EQUALS] ++ url_text toy_uri ++ [NL] ++ lit "X=1".
Definition own_dropin : bytes := join DROPIN_DIR (lit "override.conf").
Definition toy_fs : Fs := mkFs {[ ENV_PATH := toy_env; own_dropin := lit "[Service]" ]} ∅ ∅.

End Credentials.
