(* ===== verification/Upgrade.v ===== *)
(** The self-upgrade ([bepository-cli/src/upgrade.rs]): which release is newer,
    which of its files is for this machine, and the check of the download before
    the running binary is replaced. *)

From Stdlib Require Import ZArith Lia.
From stdpp Require Import base gmap list strings.
From S2P Require Import Prelude EnvFile.

Local Open Scope Z_scope.
Local Open Scope bep_scope.

Module Upgrade.
Import EnvFile.

(** ** Strings *)

(** [str::to_ascii_lowercase]. *)
Definition to_ascii_lowercase (s : bytes) : bytes := map (fun c => if in_range 65 90 c then c + 32 else c) s.

(** [str::split_whitespace]: the words between white space; the fuel is the
    length of the string. *)
Definition flush (word : bytes) (words : list bytes) : list bytes :=
  match word with [] => words | _ => word :: words end.

Fixpoint words_from (fuel : nat) (word s : bytes) : list bytes :=
  match fuel, s with
  | _, [] => flush word []
  | O, _ => flush word []
  | S fuel', c :: s' =>
      match strip_one WHITE s with
      | Some rest => flush word (words_from fuel' [] rest)
      | None => words_from fuel' (word ++ [c]) s'
      end
  end.

Definition split_whitespace (s : bytes) : list bytes := words_from (length s) [] s.

(** [hex_encode]. *)
Definition HEX : bytes := lit "0123456789abcdef".
Definition hex_digit (d : Z) : Z := default 0 (HEX !! Z.to_nat d).
Definition hex_encode (bs : bytes) : bytes :=
  concat (map (fun b => [hex_digit (Z.shiftr b 4); hex_digit (Z.land b 15)]) bs).

(** ** Releases *)

Record Asset := mkAsset { asset_name : bytes; url : bytes }.
Record Release := mkRelease { tag_name : bytes; assets : list Asset }.

Definition pick_asset (release : Release) (target : bytes) : option Asset :=
  find (fun a => ends_with (lit "-" ++ target) (asset_name a)) (assets release).

(** [checksum_for]. *)
Fixpoint checksum_in (ls : list bytes) (name : bytes) : option bytes :=
  match ls with
  | [] => None
  | l :: ls' =>
      match split_whitespace (trim l) with
      | [hash; n] => if bool_decide (n = name) then Some (to_ascii_lowercase hash) else checksum_in ls' name
      | _ => checksum_in ls' name
      end
  end.
Definition checksum_for (sums name : bytes) : option bytes := checksum_in (lines sums) name.

(** Versions: the library for semantic versioning. *)
Class Semver (V : Type) := {
  version_parse : bytes -> option V;
  version_le : V -> V -> bool
}.

Section Versions.
Context {V : Type} `{!Semver V}.

Definition parse_tag (tag : bytes) : option V := version_parse (default tag (strip_prefix (lit "v") tag)).

End Versions.

(** ** The machine *)

(** An answer to an HTTP request: its status, and the body unless reading it
    fails. *)
Record Response := mkResponse { status : Z; body : option bytes }.
Definition is_success (r : Response) : bool := in_range 200 299 (status r).

(** What the program asks of the machine: HTTP requests, files (the path of the
    staging file depends on the place of the binary and the process), the
    replacement of the running binary by a file, and a restart of a unit. [exe]
    is the running binary on disk, [staged] the contents of another file. *)
Class Host (H : Type) := {
  http_get : bytes -> H -> H * option Response;
  staging_path : H -> bytes;
  create_new : bytes -> H -> H * bool;
  write_all : bytes -> bytes -> H -> H * bool;
  set_executable : bytes -> H -> H * bool;
  self_replace : bytes -> H -> H * bool;
  remove_staged : bytes -> H -> H;
  try_restart : bytes -> H -> H;
  exe : H -> bytes;
  staged : H -> bytes -> option bytes
}.

(** A file that is created anew is not the binary. Replacing is atomic: on a
    failure the binary is the old one. *)
Class HostLaws (H : Type) `{Host H} : Prop := {
  http_get_law u h : exe (fst (http_get u h)) = exe h;
  create_law p h : exe (fst (create_new p h)) = exe h;
  write_law p b h h1 : create_new p h = (h1, true) ->
    exe (fst (write_all p b h1)) = exe h1 /\
    (snd (write_all p b h1) = true -> staged (fst (write_all p b h1)) p = Some b);
  executable_law p h : exe (fst (set_executable p h)) = exe h /\ staged (fst (set_executable p h)) p = staged h p;
  replace_law p h : if snd (self_replace p h) then staged h p = Some (exe (fst (self_replace p h)))
                    else exe (fst (self_replace p h)) = exe h;
  remove_law p h : exe (remove_staged p h) = exe h;
  restart_law u h : exe (try_restart u h) = exe h
}.

Inductive Error :=
| RequestFailed | BadStatus | BadBody | BadJson
| BadTag | NoAsset | NoSums | SumsNotUtf8 | NotListed | ChecksumMismatch
| StageFailed | ReplaceFailed.

Section Run.
Context {H V : Type} `{!Host H} `{!Semver V}.
(** The library functions for SHA-256 and JSON; the version of the program, the
    target it was built for and the address of the releases. *)
Context (sha256 : bytes -> bytes) (release_of_json : bytes -> option Release).
Context (current : V) (target base_url : bytes).
Abbreviation M := (SE H Error).

(** [verify_hash]. *)
Definition verify_hash (bs expected_hex : bytes) : result Error unit :=
  if bool_decide (hex_encode (sha256 bs) = to_ascii_lowercase expected_hex) then Ok tt else Err ChecksumMismatch.

(** A request with a successful answer. *)
Definition get (u : bytes) : M (option bytes) := fun h =>
  match http_get u h with
  | (h', None) => (h', Err RequestFailed)
  | (h', Some r) => (h', if is_success r then Ok (body r) else Err BadStatus)
  end.

Definition latest_release : M Release :=
  do! b <- get (base_url ++ lit "/releases/latest");
  se_lift (ok_or (match b with Some b => release_of_json b | None => None end) BadJson).

Definition download_asset (u : bytes) : M bytes := do! b <- get u; se_lift (ok_or b BadBody).

Definition download_text_asset (release : Release) (name : bytes) : M bytes :=
  match find (fun a => bool_decide (asset_name a = name)) (assets release) with
  | None => se_err NoSums
  | Some a => do! b <- download_asset (url a); se_lift (ok_or (from_utf8 b) SumsNotUtf8)
  end.

Definition download_and_verify (release : Release) (asset : Asset) : M bytes :=
  do! bs <- download_asset (url asset);
  do! sums <- download_text_asset release (lit "SHA256SUMS");
  do! expected <- se_lift (ok_or (checksum_for sums (asset_name asset)) NotListed);
  run! se_lift (verify_hash bs expected);
  se_ret bs.

(** [stage_binary]; what was written stays when a later step fails. *)
Definition stage_binary (bs : bytes) : M bytes := fun h =>
  let p := staging_path h in
  match create_new p h with
  | (h1, false) => (h1, Err StageFailed)
  | (h1, true) =>
      match write_all p bs h1 with
      | (h2, false) => (h2, Err StageFailed)
      | (h2, true) =>
          match set_executable p h2 with
          | (h3, false) => (h3, Err StageFailed)
          | (h3, true) => (h3, Ok p)
          end
      end
  end.

(** The staging and the replacement of [run]. *)
Definition replace_binary (bs : bytes) : M unit := fun h =>
  match stage_binary bs h with
  | (h', Err e) => (h', Err e)
  | (h', Ok p) =>
      match self_replace p h' with
      | (h2, true) => (h2, Ok tt)
      | (h2, false) => (remove_staged p h2, Err ReplaceFailed)
      end
  end.

Definition run (restart_unit : option bytes) (dry_run : bool) : M unit :=
  do! latest <- latest_release;
  do! latest_version <- se_lift (ok_or (parse_tag (tag_name latest)) BadTag);
  if version_le latest_version current then se_ret tt
  else
    do! asset <- se_lift (ok_or (pick_asset latest target) NoAsset);
    if dry_run then se_ret tt
    else
      do! bs <- download_and_verify latest asset;
      run! replace_binary bs;
      match restart_unit with
      | Some unit => se_modify (try_restart unit)
      | None => se_ret tt
      end.

(** ** Specification *)

(** A line of the sums names the file with this digest. *)
Definition listed (sums name digest : bytes) : Prop :=
  exists l hash, l ∈ lines sums /\ split_whitespace (trim l) = [hash; name] /\ to_ascii_lowercase hash = digest.

(** What makes up a verified download of a release. *)
Record verified (latest : Release) (h0 : H) (asset : Asset) (bs : bytes) : Prop := mkVerified {
  ver_target : ends_with (lit "-" ++ target) (asset_name asset) = true;
  ver_asset : asset ∈ assets latest;
  ver_sums : exists h1 h2 sums, download_asset (url asset) h0 = (h1, Ok bs) /\
    download_text_asset latest (lit "SHA256SUMS") h1 = (h2, Ok sums) /\
    listed sums (asset_name asset) (hex_encode (sha256 bs))
}.

Context {HL : HostLaws H}.

Lemma lowercase_twice s : to_ascii_lowercase (to_ascii_lowercase s) = to_ascii_lowercase s.
Proof.
  unfold to_ascii_lowercase. rewrite map_map. apply map_ext. intros c. unfold in_range.
  destruct (65 <=? c) eqn:E1, (c <=? 90) eqn:E2; cbn [andb]; try by rewrite E1. 2: by rewrite E1, E2.
  destruct (65 <=? c + 32) eqn:E3, (c + 32 <=? 90) eqn:E4; cbn [andb]; lia || done.
Qed.

Lemma checksum_listed sums name digest : checksum_for sums name = Some digest ->
  listed sums name digest /\ to_ascii_lowercase digest = digest.
Proof.
  unfold checksum_for, listed. induction (lines sums) as [|l ls IH]; cbn [checksum_in]; [done|]. intros Hc.
  assert (checksum_in ls name = Some digest -> (exists l0 hash, l0 ∈ l :: ls /\ split_whitespace (trim l0) = [hash; name] /\
    to_ascii_lowercase hash = digest) /\ to_ascii_lowercase digest = digest) as Hskip.
  { intros Hc'. destruct (IH Hc') as [(l0 & hash & ? & ? & ?) ?]. split; [|done]. exists l0, hash. by split; [right|]. }
  destruct (split_whitespace (trim l)) as [|hash [|n [|]]] eqn:Es; [by apply Hskip..| |by apply Hskip].
  case_bool_decide as Hn; [|by apply Hskip]. injection Hc as <-. subst n. split; [|apply lowercase_twice].
  exists l, hash. by split; [left|].
Qed.

Lemma get_exe u h : exe (fst (get u h)) = exe h.
Proof.
  unfold get. pose proof (http_get_law u h) as Hl. by destruct (http_get u h) as [h' [r|]].
Qed.

Lemma download_exe u h : exe (fst (download_asset u h)) = exe h.
Proof. unfold download_asset, se_bind. pose proof (get_exe u h). destruct (get u h) as [h' [b|e]]; [|done]. done. Qed.

Lemma latest_exe h : exe (fst (latest_release h)) = exe h.
Proof.
  unfold latest_release, se_bind. pose proof (get_exe (base_url ++ lit "/releases/latest") h). by destruct (get _ h) as [h' [b|e]].
Qed.

Lemma sums_exe release name h : exe (fst (download_text_asset release name h)) = exe h.
Proof.
  unfold download_text_asset. destruct (find _ _) as [a|]; [|done]. unfold se_bind. pose proof (download_exe (url a) h).
  by destruct (download_asset (url a) h) as [h' [b|e]].
Qed.

(** A download that is accepted is verified, and changes nothing. *)
Lemma wp_download latest asset h :
  wp (download_and_verify latest asset) (fun h' r => exe h' = exe h /\ forall bs, r = Ok bs ->
    exists h1 h2 sums, download_asset (url asset) h = (h1, Ok bs) /\
      download_text_asset latest (lit "SHA256SUMS") h1 = (h2, Ok sums) /\
      listed sums (asset_name asset) (hex_encode (sha256 bs))) h.
Proof.
  unfold download_and_verify. apply wp_bind. unfold wp at 1. pose proof (download_exe (url asset) h) as H1.
  destruct (download_asset (url asset) h) as [h1 [bs|e]]; cbn [fst snd] in *; [|done].
  apply wp_bind. unfold wp at 1. pose proof (sums_exe latest (lit "SHA256SUMS") h1) as H2.
  destruct (download_text_asset latest (lit "SHA256SUMS") h1) as [h2 [sums|e]] eqn:Es; cbn [fst snd] in *; [|split; [congruence|done]].
  assert (exe h2 = exe h) as H3 by congruence.
  apply wp_bind, wp_lift. destruct (checksum_for sums (asset_name asset)) as [digest|] eqn:Ec; cbn [ok_or]; [|done].
  apply checksum_listed in Ec as [Hlisted Hlow]. apply wp_bind, wp_lift. unfold verify_hash. case_bool_decide as Hh; [|done].
  apply wp_ret. split; [done|]. intros bs' [= <-]. exists h1, h2, sums. rewrite Hlow in Hh. by rewrite Hh.
Qed.

Lemma wp_stage_binary bs h : wp (stage_binary bs) (fun h' r => exe h' = exe h /\ forall p, r = Ok p -> staged h' p = Some bs) h.
Proof.
  unfold wp, stage_binary. pose proof (create_law (staging_path h) h) as Hc.
  destruct (create_new (staging_path h) h) as [h1 [|]] eqn:Ec; [|done]. cbn [fst snd] in *.
  destruct (write_law _ bs _ _ Ec) as [Hw Hs]. destruct (write_all (staging_path h) bs h1) as [h2 [|]]; cbn [fst snd] in *;
    [|split; [congruence|done]]. specialize (Hs eq_refl).
  destruct (executable_law (staging_path h) h2) as [Hx Hk]. destruct (set_executable _ h2) as [h3 [|]]; cbn [fst snd] in *;
    (split; [congruence|]); [|done]. intros p [= <-]. congruence.
Qed.

Lemma wp_replace bs h : wp (replace_binary bs) (fun h' r => exe h' = if is_ok r then bs else exe h) h.
Proof.
  unfold wp, replace_binary. pose proof (wp_stage_binary bs h) as [Hs Hp]. destruct (stage_binary bs h) as [h1 [p|e]]; [|done].
  cbn [fst snd] in *. specialize (Hp p eq_refl). pose proof (replace_law p h1) as Hr.
  destruct (self_replace p h1) as [h2 [|]]; cbn [fst snd is_ok] in *; [congruence|]. rewrite remove_law. congruence.
Qed.

(** C38: an upgrade installs only what it has verified. Whatever the network, the
    file system and the other parts of the machine answer: when [run] fails, the
    binary is the old one. When it succeeds, the latest release was fetched and
    its version understood; if that version is not newer, or on a dry run, the
    binary is the old one; otherwise it is a file of that release for this
    target, downloaded as it is, whose SHA-256 sum is the one that the list of
    sums of the same release has for it. *)
Theorem upgrade_installs_verified (restart_unit : option bytes) (dry_run : bool) (h : H) :
  let '(h', r) := run restart_unit dry_run h in
  match r with
  | Err _ => exe h' = exe h
  | Ok _ => exists h0 latest v, latest_release h = (h0, Ok latest) /\ parse_tag (tag_name latest) = Some v /\
      if version_le v current || dry_run then exe h' = exe h
      else exists asset bs, verified latest h0 asset bs /\ exe h' = bs
  end.
Proof.
  apply wp_let. unfold run. apply wp_bind. unfold wp at 1. pose proof (latest_exe h) as Hl.
  destruct (latest_release h) as [h0 [latest|e]]; cbn [fst snd] in *; [|done].
  apply wp_bind, wp_lift. destruct (parse_tag (tag_name latest)) as [v|] eqn:Ev; cbn [ok_or]; [|done].
  destruct (version_le v current) eqn:Ele; [apply wp_ret; by exists h0, latest, v; rewrite Ele|].
  apply wp_bind, wp_lift. destruct (pick_asset latest target) as [asset|] eqn:Ep; cbn [ok_or]; [|done].
  destruct dry_run; [apply wp_ret; by exists h0, latest, v; rewrite Ele|].
  apply wp_bind. eapply wp_mono; [|apply wp_download]. intros h1 [bs|e] [He1 Hv]; [|congruence].
  apply wp_bind. eapply wp_mono; [|apply wp_replace]. intros h2 [[]|e] He2; cbn [is_ok] in He2; [|congruence].
  apply List.find_some in Ep as [Hin Hend].
  destruct restart_unit as [u|]; [apply wp_modify|apply wp_ret]; exists h0, latest, v; rewrite Ele; (split; [done|]);
    (split; [done|]); exists asset, bs; (split; [split; [done|by apply list_elem_of_In|by apply Hv]|]).
  - by rewrite restart_law.
  - done.
Qed.

End Run.

(** ** Example *)

(** A machine with the pages it can fetch, its binary and its staging file. *)
Record Machine := mkMachine { pages : gmap bytes bytes; m_exe : bytes; m_staged : gmap bytes bytes }.

Definition STAGING : bytes := lit ".bepository-upgrade-staging".

#[export] Instance Machine_Host : Host Machine := {
  http_get u h := (h, match pages h !! u with Some b => Some (mkResponse 200 (Some b)) | None => Some (mkResponse 404 None) end);
  staging_path h := STAGING;
  create_new p h := match m_staged h !! p with
                    | Some _ => (h, false)
                    | None => (mkMachine (pages h) (m_exe h) (<[ p := [] ]> (m_staged h)), true)
                    end;
  write_all p b h := (mkMachine (pages h) (m_exe h) (<[ p := b ]> (m_staged h)), true);
  set_executable p h := (h, true);
  self_replace p h := match m_staged h !! p with
                      | Some b => (mkMachine (pages h) b (m_staged h), true)
                      | None => (h, false)
                      end;
  remove_staged p h := mkMachine (pages h) (m_exe h) (delete p (m_staged h));
  try_restart u h := h;
  exe := m_exe;
  staged h p := m_staged h !! p
}.

#[export] Instance Machine_Laws : HostLaws Machine.
Proof.
  split; cbn.
  - done.
  - intros p h. by destruct (m_staged h !! p).
  - intros p b h h1 _. split; [done|]. intros _. apply lookup_insert_eq.
  - done.
  - intros p h. by destruct (m_staged h !! p).
  - done.
  - done.
Qed.

(** Versions of one digit. *)
#[export] Instance Digit_Semver : Semver Z := {
  version_parse t := match t with [d] => Some d | _ => None end;
  version_le := Z.leb
}.

Definition toy_sum (bs : bytes) : bytes := [foldr Z.add 0 bs mod 256].
Definition toy_release : Release :=
  mkRelease (lit "v2") [mkAsset (lit "SHA256SUMS") (lit "u/sums"); mkAsset (lit "bepository-x86") (lit "u/bin")].
Definition toy_json (b : bytes) : option Release := if bool_decide (b = lit "json") then Some toy_release else None.
Definition machine : Machine :=
  mkMachine {[ lit "u/releases/latest" := lit "json"; lit "u/bin" := [1; 2];
               lit "u/sums" := lit "ff  other" ++ [NL] ++ lit "03 bepository-x86" ++ [CR; NL] ]} [0] ∅.

Lemma upgrade_installs_verified_witness :
  let '(h', r) := run toy_sum toy_json (lit "1" !!! 0%nat) (lit "x86") (lit "u") None false machine in
  r = Ok tt /\ exists asset bs h0 latest, verified toy_sum (lit "x86") latest h0 asset bs /\ exe h' = bs /\ bs = [1; 2].
Proof.
  pose proof (upgrade_installs_verified toy_sum toy_json (lit "1" !!! 0%nat) (lit "x86") (lit "u") None false machine) as H.
  assert (run toy_sum toy_json (lit "1" !!! 0%nat) (lit "x86") (lit "u") None false machine =
    (mkMachine (pages machine) [1; 2] {[ STAGING := [1; 2] ]}, Ok tt)) as E by (vm_compute; reflexivity).
  rewrite E in *. split; [done|]. destruct H as (h0 & latest & v & Hl & Hv & H).
  assert (latest = toy_release) as -> by (revert Hl; vm_compute; congruence).
  assert (v = 50) as -> by (revert Hv; vm_compute; congruence).
  destruct H as (asset & bs & Hver & He). exists asset, bs, h0, toy_release. split; [done|]. split; [done|]. by rewrite <- He.
Defined.

End Upgrade.
