(* ===== verification/Retry.v ===== *)
(** Retrying storage operations ([bepository-bep/src/retry.rs]).

    A policy is a record of its two methods. The loop threads the state of the
    storage behind the operation; [cancelled i] says whether the shutdown token
    fires during the sleep that follows the [i]-th failure. Durations are
    nanoseconds; the [f64] arithmetic of the backoff is done on exact
    rationals. *)

From Stdlib Require Import ZArith Lia QArith Qround Qpower Lqa.
From stdpp Require Import base list strings.
From S2P Require Import Prelude BepTypes.

Local Open Scope Z_scope.
Local Open Scope bep_scope.

Module Retry.

(** ** Model *)

Definition standard_map_error (error : StorageError.t) : BepError.t :=
  match error with
  | StorageError.TransientIo msg => BepError.TransientIo msg
  | StorageError.Corruption msg => BepError.Corruption msg
  | StorageError.UnsupportedVersion found supported => BepError.UnsupportedVersion found supported
  | StorageError.Standby msg => BepError.Standby msg
  | StorageError.NotFound msg => BepError.Corruption ("not found: " +:+ msg)
  | StorageError.InvalidInput msg => BepError.PeerBadMessage ("invalid input: " +:+ msg)
  | StorageError.Internal msg => BepError.Internal msg
  end.

(** The trait [RetryPolicy]. *)
Record RetryPolicy := mkPolicy {
  next_delay : Z -> StorageError.t -> option Z;
  map_error : StorageError.t -> BepError.t
}.

Record ExponentialBackoff := mkBackoff {
  base : Z;
  multiplier : Q;
  max_delay : Z;
  max_attempts : Z
}.

Definition NANOS : positive := 1000000000.

(** [Duration::as_secs_f64] and [Duration::from_secs_f64] (rounding to the
    nearest nanosecond). *)
Definition as_secs (d : Z) : Q := d # NANOS.
Definition from_secs (q : Q) : Z := Qfloor (q * inject_Z (Zpos NANOS) + (1 # 2)).

Definition matches_transient (e : StorageError.t) : bool :=
  match e with StorageError.TransientIo _ => true | _ => false end.

Definition Qmin (a b : Q) : Q := if Qle_bool a b then a else b.

Definition exponential_next_delay (p : ExponentialBackoff) (attempt : Z) (error : StorageError.t)
  : option Z :=
  if negb (matches_transient error) then None
  else if max_attempts p <=? attempt then None
  else
    let base_secs := (as_secs (base p) * multiplier p ^ attempt)%Q in
    let capped := Qmin base_secs (as_secs (max_delay p)) in
    Some (from_secs capped).

Definition exponential (p : ExponentialBackoff) : RetryPolicy :=
  mkPolicy (exponential_next_delay p) standard_map_error.

(** [ExponentialBackoff::default]. *)
Definition default_backoff : ExponentialBackoff :=
  mkBackoff (1 * Zpos NANOS) 2 (60 * Zpos NANOS) 10.

Definition NoRetry : RetryPolicy := mkPolicy (fun _ _ => None) standard_map_error.

Definition immediate_next_delay (max_attempts attempt : Z) (error : StorageError.t) : option Z :=
  if negb (matches_transient error) then None
  else if attempt <? max_attempts then Some 0 else None.

Definition ImmediateRetry (max_attempts : Z) : RetryPolicy :=
  mkPolicy (immediate_next_delay max_attempts) standard_map_error.

(** [retry_storage_op]: one unit of fuel per call of the operation; [None] is
    out of fuel. *)
Fixpoint retry_loop {S A : Type} (fuel : nat) (policy : RetryPolicy) (cancelled : Z -> bool)
  (f : SE S StorageError.t A) (attempt : Z) (s : S) : option (S * result BepError.t A) :=
  match fuel with
  | O => None
  | Datatypes.S fuel' =>
      match f s with
      | (s', Ok val) => Some (s', Ok val)
      | (s', Err err) =>
          match next_delay policy attempt err with
          | Some delay =>
              if delay =? 0 then retry_loop fuel' policy cancelled f (attempt + 1) s'
              else if cancelled attempt
              then Some (s', Err (BepError.TransientIo "shutdown requested during retry"))
              else retry_loop fuel' policy cancelled f (attempt + 1) s'
          | None => Some (s', Err (map_error policy err))
          end
      end
  end.

(** The loop of a policy that gives up at the [max]-th failure needs one more
    call than that; [retry_terminates] shows this fuel is enough. *)
Definition retry_storage_op {S A : Type} (max : Z) (policy : RetryPolicy) (cancelled : Z -> bool)
  (f : SE S StorageError.t A) (s : S) : option (S * result BepError.t A) :=
  retry_loop (Datatypes.S (Z.to_nat max)) policy cancelled f 0 s.

(** ** Specification *)

(** A policy retries exactly the transient errors of the first [max]
    failures. *)
Definition retries_transient (policy : RetryPolicy) (max : Z) : Prop :=
  0 <= max /\
  forall attempt e, 0 <= attempt ->
    (exists d, next_delay policy attempt e = Some d) <->
    (attempt < max /\ matches_transient e = true).

(** The state after [n] failed calls. *)
Fixpoint fails_transiently {S A : Type} (f : SE S StorageError.t A) (n : nat) (s s' : S) : Prop :=
  match n with
  | O => s = s'
  | Datatypes.S n' => exists s1 m, f s = (s1, Err (StorageError.TransientIo m)) /\
                                   fails_transiently f n' s1 s'
  end.

(** ** Policies *)

Lemma exponential_retries_transient p :
  0 <= max_attempts p -> retries_transient (exponential p) (max_attempts p).
Proof.
  intros Hm. split; [done|]. intros attempt e Ha. simpl. unfold exponential_next_delay.
  destruct (matches_transient e); simpl; [|split; [by intros [? ?]|by intros [_ ?]]].
  destruct (Z.leb_spec (max_attempts p) attempt).
  - split; [by intros [? ?]|lia].
  - split; [done|]. intros _. by eexists.
Qed.

Lemma immediate_retries_transient n : 0 <= n -> retries_transient (ImmediateRetry n) n.
Proof.
  intros Hn. split; [done|]. intros attempt e Ha. simpl. unfold immediate_next_delay.
  destruct (matches_transient e); simpl; [|split; [by intros [? ?]|by intros [_ ?]]].
  destruct (Z.ltb_spec attempt n).
  - split; [done|]. intros _. by eexists.
  - split; [by intros [? ?]|lia].
Qed.

Lemma no_retry_retries_transient : retries_transient NoRetry 0.
Proof. split; [done|]. intros attempt e Ha. split; [by intros [? ?]|lia]. Qed.

Lemma next_delay_None policy max attempt e :
  retries_transient policy max -> 0 <= attempt ->
  next_delay policy attempt e = None <-> (max <= attempt \/ matches_transient e = false).
Proof.
  intros [_ H] Ha. specialize (H attempt e Ha).
  destruct (next_delay policy attempt e) as [d|] eqn:E.
  - split; [done|]. intros Hor. destruct (proj1 H) as [Hlt Ht]; [by eexists|].
    destruct Hor; [lia|congruence].
  - split; [|done]. intros _. destruct (matches_transient e); [left|by right].
    destruct (Z.le_gt_cases max attempt) as [|Hgt]; [done|].
    by destruct (proj2 H) as [d Hd].
Qed.

Lemma retry_loop_terminates {S A} policy max cancelled (f : SE S StorageError.t A) fuel attempt s :
  retries_transient policy max -> 0 <= attempt <= max -> max - attempt < Z.of_nat fuel ->
  is_Some (retry_loop fuel policy cancelled f attempt s).
Proof.
  intros Hp. revert attempt s. induction fuel as [|fuel IH]; intros attempt s Ha Hf; [lia|].
  cbn [retry_loop]. destruct (f s) as [s' [v|e]]; [by eexists|].
  destruct (next_delay policy attempt e) as [d|] eqn:E; [|by eexists].
  destruct (proj1 (proj2 Hp attempt e ltac:(lia))) as [Hlt _]; [by eexists|].
  destruct (d =? 0); [apply IH; lia|]. destruct (cancelled attempt); [by eexists|apply IH; lia].
Qed.

(** The loop after [k] transient failures that no shutdown interrupted. *)
Lemma retry_loop_skip {S A} policy max cancelled (f : SE S StorageError.t A) k fuel attempt s s' :
  retries_transient policy max -> 0 <= attempt -> attempt + Z.of_nat k <= max ->
  fails_transiently f k s s' ->
  (forall i, attempt <= i < attempt + Z.of_nat k -> cancelled i = false) ->
  retry_loop (k + fuel) policy cancelled f attempt s =
  retry_loop fuel policy cancelled f (attempt + Z.of_nat k) s'.
Proof.
  intros Hp. revert attempt s. induction k as [|k IH]; intros attempt s Ha Hk Hf Hc.
  - simpl in Hf. subst. by rewrite Z.add_0_r.
  - destruct Hf as (s1 & m & E & Hf). cbn [Nat.add retry_loop]. rewrite E.
    destruct (proj2 (proj2 Hp attempt (StorageError.TransientIo m) Ha)) as [d ->]; [split; [lia|done]|].
    rewrite (Hc attempt) by lia. rewrite (IH (attempt + 1) s1); [|lia..|done|intros; apply Hc; lia].
    replace (attempt + 1 + Z.of_nat k) with (attempt + Z.of_nat (Datatypes.S k)) by lia.
    by destruct (d =? 0).
Qed.

(** ** Properties *)

(** Retries are bounded. Under any policy that retries only the transient
    errors of the first [max] failures, whatever the operation does and
    whenever shutdown fires, the loop returns after at most [max + 1] calls of
    the operation. *)
Theorem retry_terminates {S A : Type} (policy : RetryPolicy) (max : Z) (cancelled : Z -> bool)
  (f : SE S StorageError.t A) (s : S) (Hp : retries_transient policy max) :
  exists s' r, retry_storage_op max policy cancelled f s = Some (s', r).
Proof.
  destruct (retry_loop_terminates policy max cancelled f (Datatypes.S (Z.to_nat max)) 0 s Hp)
    as [[s' r] H].
  - destruct Hp. lia.
  - destruct Hp. lia.
  - exists s', r. exact H.
Qed.

Lemma retry_terminates_witness :
  exists s' r, retry_storage_op 10 (exponential default_backoff) (fun _ => false)
    (fun n : nat => (S n, Err (A := nat) (StorageError.TransientIo "flaky"))) 0%nat = Some (s', r).
Proof.
  exact (retry_terminates _ 10 _ _ 0%nat
           (exponential_retries_transient default_backoff ltac:(by vm_compute))).
Defined.

(** What a retried operation returns. After [k <= max] transient failures
    without shutdown, the result of the next call is final when it is a
    success (returned as it is), an error that is not transient (mapped at
    once, never retried) or the failure number [max] (mapped); the storage is
    left in the state that call produced. *)
Theorem retry_result {S A : Type} (policy : RetryPolicy) (max : Z) (cancelled : Z -> bool)
  (f : SE S StorageError.t A) (k : nat) (s s1 s2 : S) (r : result StorageError.t A)
  (Hp : retries_transient policy max) (Hk : Z.of_nat k <= max)
  (Hfail : fails_transiently f k s s1) (Hcall : f s1 = (s2, r))
  (Hc : forall i, 0 <= i < Z.of_nat k -> cancelled i = false)
  (Hfinal : forall e, r = Err e -> Z.of_nat k = max \/ matches_transient e = false) :
  retry_storage_op max policy cancelled f s =
    Some (s2, match r with Ok v => Ok v | Err e => Err (map_error policy e) end).
Proof.
  unfold retry_storage_op.
  replace (Datatypes.S (Z.to_nat max)) with (k + Datatypes.S (Z.to_nat max - k))%nat by lia.
  rewrite (retry_loop_skip _ max _ _ _ _ _ _ s1) by (done || lia).
  cbn [retry_loop]. rewrite Hcall. destruct r as [v|e]; [done|].
  rewrite (proj2 (next_delay_None policy max (0 + Z.of_nat k) e Hp ltac:(lia))); [done|].
  destruct (Hfinal e eq_refl); [left; lia|by right].
Qed.

Lemma retry_result_witness :
  let f : SE nat StorageError.t nat := fun n =>
    (S n, if Nat.ltb n 2 then Err (StorageError.TransientIo "flaky") else Ok n) in
  retry_storage_op 10 (exponential default_backoff) (fun _ => false) f 0%nat = Some (3%nat, Ok 2%nat).
Proof.
  intros f.
  apply (retry_result (exponential default_backoff) 10 (fun _ => false) f 2 0%nat 2%nat 3%nat (Ok 2%nat)).
  - apply (exponential_retries_transient default_backoff). by vm_compute.
  - lia.
  - exists 1%nat, "flaky"%string. split; [reflexivity|].
    exists 2%nat, "flaky"%string. split; reflexivity.
  - reflexivity.
  - reflexivity.
  - discriminate.
Defined.

Lemma Qmin_le_r a b : (Qmin a b <= b)%Q.
Proof.
  unfold Qmin. destruct (Qle_bool a b) eqn:E; [by apply Qle_bool_iff|]. apply Qle_refl.
Qed.

Lemma Qmin_mono a a' b : (a <= a')%Q -> (Qmin a b <= Qmin a' b)%Q.
Proof.
  intros H. unfold Qmin.
  destruct (Qle_bool a b) eqn:E, (Qle_bool a' b) eqn:E';
    rewrite ?Qle_bool_iff, <- ?not_true_iff_false in *; try lra.
  exfalso. apply E. rewrite Qle_bool_iff. lra.
Qed.

Lemma from_secs_mono a b : (a <= b)%Q -> from_secs a <= from_secs b.
Proof.
  intros H. unfold from_secs. apply Qfloor_resp_le. unfold NANOS. 
  assert (a * inject_Z 1000000000 <= b * inject_Z 1000000000)%Q by (apply Qmult_le_compat_r; done).
  lra.
Qed.

Lemma from_as_secs d : from_secs (as_secs d) = d.
Proof.
  unfold from_secs, as_secs.
  assert ((d # NANOS) * inject_Z (Z.pos NANOS) == inject_Z d)%Q as E.
  { unfold Qeq, inject_Z. simpl. unfold NANOS. lia. }
  rewrite E. unfold Qfloor, Qplus, inject_Z. simpl.
  Z.to_euclidean_division_equations. lia.
Qed.

(** Backoff delays. The delay before a retry never exceeds the cap of the
    policy, is never negative, and (with a multiplier of at least one) never
    shrinks from one attempt to the next. *)
Theorem backoff_delays (p : ExponentialBackoff) (attempt : Z) (e : StorageError.t) (d d' : Z)
  (Hb : 0 <= base p) (Hcap : 0 <= max_delay p) (Hm : (1 <= multiplier p)%Q) (Ha : 0 <= attempt)
  (Hd : next_delay (exponential p) attempt e = Some d)
  (Hd' : next_delay (exponential p) (attempt + 1) e = Some d') :
  0 <= d <= max_delay p /\ d <= d'.
Proof.
  simpl in *. unfold exponential_next_delay in *. destruct (negb _); [done|].
  destruct (max_attempts p <=? attempt); [done|]. destruct (max_attempts p <=? attempt + 1); [done|].
  injection Hd as <-. injection Hd' as <-.
  assert (0 <= as_secs (base p))%Q as Hb' by (unfold as_secs, Qle; simpl; lia).
  assert (0 <= as_secs (max_delay p))%Q as Hc' by (unfold as_secs, Qle; simpl; lia).
  assert (0 <= as_secs (base p) * multiplier p ^ attempt)%Q as Hp.
  { apply Qmult_le_0_compat; [done|]. apply Qpower_0_le. lra. }
  split; [split|].
  - replace 0 with (from_secs (as_secs 0)) at 1 by apply from_as_secs. apply from_secs_mono.
    apply (Qle_trans _ 0); [by unfold as_secs, Qle|]. unfold Qmin. by destruct (Qle_bool _ _).
  - rewrite <- (from_as_secs (max_delay p)) at 2. apply from_secs_mono, Qmin_le_r.
  - apply from_secs_mono, Qmin_mono. rewrite !(Qmult_comm (as_secs (base p))).
    apply Qmult_le_compat_r; [|done]. apply Qpower_le_compat_l; [lia|done].
Qed.

Lemma backoff_delays_witness :
  0 <= 4000000000 <= max_delay default_backoff /\ 4000000000 <= 8000000000.
Proof.
  apply (backoff_delays default_backoff 2 (StorageError.TransientIo "")); try (by vm_compute).
Defined.

(** Error mapping. A storage error keeps its class when it becomes a
    connection error: transient stays transient, standby stays standby, fatal
    stays fatal (a missing object becomes a fatal corruption) and only invalid
    input is blamed on the peer. *)
Theorem error_mapping (e : StorageError.t) :
  BepError.is_transient (standard_map_error e) = StorageError.is_transient e /\
  BepError.is_fatal (standard_map_error e) =
    (StorageError.is_fatal e || match e with StorageError.NotFound _ => true | _ => false end)%bool /\
  BepError.is_peer_fault (standard_map_error e) =
    match e with StorageError.InvalidInput _ => true | _ => false end.
Proof. by destruct e. Qed.

End Retry.
