(* ===== verification/ProtoConv.v ===== *)
(** Conversions between wire and stored messages
    ([bepository-storage/src/proto.rs]). Stored blocks carry two fields wire
    blocks do not have; file types are renumbered. *)

From Stdlib Require Import ZArith Lia.
From stdpp Require Import base list strings.
From S2P Require Import Prelude BepTypes.

Local Open Scope Z_scope.
Local Open Scope bep_scope.

Module ProtoConv.

(** ** File types *)

Inductive BepType := BFile | BDirectory | BSymlinkFile | BSymlinkDirectory | BSymlink.
Inductive StorageType := SUnspecified | SFile | SDirectory | SSymlink.

Definition bep_type_code (t : BepType) : Z :=
  match t with
  | BFile => 0 | BDirectory => 1 | BSymlinkFile => 2 | BSymlinkDirectory => 3 | BSymlink => 4
  end.

Definition storage_type_code (t : StorageType) : Z :=
  match t with SUnspecified => 0 | SFile => 1 | SDirectory => 2 | SSymlink => 3 end.

(** The generated [TryFrom<i32>]. *)
Definition bep_type_of (z : Z) : option BepType :=
  if z =? 0 then Some BFile else if z =? 1 then Some BDirectory
  else if z =? 2 then Some BSymlinkFile else if z =? 3 then Some BSymlinkDirectory
  else if z =? 4 then Some BSymlink else None.

Definition storage_type_of (z : Z) : option StorageType :=
  if z =? 0 then Some SUnspecified else if z =? 1 then Some SFile
  else if z =? 2 then Some SDirectory else if z =? 3 then Some SSymlink else None.

Definition bep_type_to_storage (bep_type : Z) : Z :=
  storage_type_code
    match match bep_type_of bep_type with Some t => t | None => BFile end with
    | BFile => SFile
    | BDirectory => SDirectory
    | BSymlinkFile => SSymlink
    | BSymlinkDirectory => SSymlink
    | BSymlink => SSymlink
    end.

Definition storage_type_to_bep (stor_type : Z) : result StorageError.t Z :=
  try variant <- ok_or (storage_type_of stor_type)
                       (StorageError.Corruption "invalid storage FileInfoType value");
  match variant with
  | SUnspecified => Err (StorageError.Corruption "storage FileInfoType is UNSPECIFIED")
  | SFile => Ok (bep_type_code BFile)
  | SDirectory => Ok (bep_type_code BDirectory)
  | SSymlink => Ok (bep_type_code BSymlink)
  end.

(** ** Records *)

Definition counter_to_storage (b : bep.Counter) : storage.Counter :=
  storage.mkCounter (bep.id b) (bep.value b).
Definition counter_to_bep (s : storage.Counter) : bep.Counter :=
  bep.mkCounter (storage.id s) (storage.value s).

Definition vector_to_storage (b : bep.Vector) : storage.Vector :=
  storage.mkVector (map counter_to_storage (bep.counters b)).
Definition vector_to_bep (s : storage.Vector) : bep.Vector :=
  bep.mkVector (map counter_to_bep (storage.counters s)).

Definition block_to_storage (b : bep.BlockInfo) : storage.BlockInfo :=
  storage.mkBlockInfo (bep.hash b) (bep.offset b) (bep.bsize b) None None.
Definition block_to_bep (s : storage.BlockInfo) : bep.BlockInfo :=
  bep.mkBlockInfo (storage.hash s) (storage.offset s) (storage.bsize s).

Definition unix_to_storage (b : bep.UnixData) : storage.UnixData :=
  storage.mkUnixData (bep.unix_owner_name b) (bep.group_name b) (bep.uid b) (bep.gid b).
Definition unix_to_bep (s : storage.UnixData) : bep.UnixData :=
  bep.mkUnixData (storage.unix_owner_name s) (storage.group_name s) (storage.uid s) (storage.gid s).

Definition windows_to_storage (b : bep.WindowsData) : storage.WindowsData :=
  storage.mkWindowsData (bep.win_owner_name b) (bep.owner_is_group b).
Definition windows_to_bep (s : storage.WindowsData) : bep.WindowsData :=
  bep.mkWindowsData (storage.win_owner_name s) (storage.owner_is_group s).

Definition xattr_to_storage (b : bep.Xattr) : storage.Xattr :=
  storage.mkXattr (bep.xname b) (bep.xvalue b).
Definition xattr_to_bep (s : storage.Xattr) : bep.Xattr :=
  bep.mkXattr (storage.xname s) (storage.xvalue s).

Definition xattrs_to_storage (b : bep.XattrData) : storage.XattrData :=
  storage.mkXattrData (map xattr_to_storage (bep.xattrs b)).
Definition xattrs_to_bep (s : storage.XattrData) : bep.XattrData :=
  bep.mkXattrData (map xattr_to_bep (storage.xattrs s)).

Definition platform_to_storage (b : bep.PlatformData) : storage.PlatformData :=
  storage.mkPlatformData (unix_to_storage <$> bep.unix b) (windows_to_storage <$> bep.windows b)
    (xattrs_to_storage <$> bep.linux b) (xattrs_to_storage <$> bep.darwin b)
    (xattrs_to_storage <$> bep.freebsd b) (xattrs_to_storage <$> bep.netbsd b).
Definition platform_to_bep (s : storage.PlatformData) : bep.PlatformData :=
  bep.mkPlatformData (unix_to_bep <$> storage.unix s) (windows_to_bep <$> storage.windows s)
    (xattrs_to_bep <$> storage.linux s) (xattrs_to_bep <$> storage.darwin s)
    (xattrs_to_bep <$> storage.freebsd s) (xattrs_to_bep <$> storage.netbsd s).

(** [From<bep::FileInfo> for storage::FileInfo]. *)
Definition file_to_storage (b : bep.FileInfo) : storage.FileInfo :=
  storage.mkFileInfo (bep.name b) (bep.size b) (bep.modified_s b) (bep.modified_by b)
    (vector_to_storage <$> bep.version b) (bep.sequence b) (map block_to_storage (bep.blocks b))
    (bep.symlink_target b) (bep.blocks_hash b) (bep.previous_blocks_hash b) (bep.encrypted b)
    (bep_type_to_storage (bep.type_ b)) (bep.permissions b) (bep.modified_ns b) (bep.block_size b)
    (platform_to_storage <$> bep.platform b) (bep.local_flags b) (bep.version_hash b)
    (bep.inode_change_ns b) (bep.encryption_trailer_size b) (bep.deleted b) (bep.invalid b)
    (bep.no_permissions b).

(** [TryFrom<storage::FileInfo> for bep::FileInfo]. *)
Definition file_to_bep (s : storage.FileInfo) : result StorageError.t bep.FileInfo :=
  try ty <- storage_type_to_bep (storage.type_ s);
  Ok (bep.mkFileInfo (storage.name s) (storage.size s) (storage.modified_s s) (storage.modified_by s)
    (vector_to_bep <$> storage.version s) (storage.sequence s) (map block_to_bep (storage.blocks s))
    (storage.symlink_target s) (storage.blocks_hash s) (storage.previous_blocks_hash s)
    (storage.encrypted s) ty (storage.permissions s) (storage.modified_ns s) (storage.block_size s)
    (platform_to_bep <$> storage.platform s) (storage.local_flags s) (storage.version_hash s)
    (storage.inode_change_ns s) (storage.encryption_trailer_size s) (storage.deleted s)
    (storage.invalid s) (storage.no_permissions s)).

(** ** Specification *)

(** What a stored file type reads back as: the deprecated symlink kinds merge
    and unknown codes become regular files. *)
Definition normal_type (t : Z) : Z :=
  if t =? 1 then 1 else if (2 <=? t) && (t <=? 4) then 4 else 0.

Definition set_type (f : bep.FileInfo) (t : Z) : bep.FileInfo :=
  bep.mkFileInfo (bep.name f) (bep.size f) (bep.modified_s f) (bep.modified_by f) (bep.version f)
    (bep.sequence f) (bep.blocks f) (bep.symlink_target f) (bep.blocks_hash f)
    (bep.previous_blocks_hash f) (bep.encrypted f) t (bep.permissions f) (bep.modified_ns f)
    (bep.block_size f) (bep.platform f) (bep.local_flags f) (bep.version_hash f)
    (bep.inode_change_ns f) (bep.encryption_trailer_size f) (bep.deleted f) (bep.invalid f)
    (bep.no_permissions f).

(** ** Lemmas *)

Lemma map_inv {A B} (f : A -> B) (g : B -> A) (l : list A) :
  (forall a, g (f a) = a) -> map g (map f l) = l.
Proof. intros H. rewrite map_map. rewrite <- (map_id l) at 2. by apply map_ext. Qed.

Lemma fmap_inv {A B} (f : A -> B) (g : B -> A) (o : option A) :
  (forall a, g (f a) = a) -> g <$> (f <$> o) = o.
Proof. intros H. destruct o; simpl; [by rewrite H|done]. Qed.

Lemma vector_roundtrip v : vector_to_bep (vector_to_storage v) = v.
Proof. destruct v. unfold vector_to_bep. simpl. f_equal. apply map_inv. by intros []. Qed.

Lemma xattrs_roundtrip x : xattrs_to_bep (xattrs_to_storage x) = x.
Proof. destruct x. unfold xattrs_to_bep. simpl. f_equal. apply map_inv. by intros []. Qed.

Lemma platform_roundtrip p : platform_to_bep (platform_to_storage p) = p.
Proof.
  destruct p. unfold platform_to_bep. simpl.
  rewrite !(fmap_inv xattrs_to_storage xattrs_to_bep) by apply xattrs_roundtrip.
  rewrite (fmap_inv unix_to_storage), (fmap_inv windows_to_storage); [done|by intros []..].
Qed.

Lemma type_roundtrip t : storage_type_to_bep (bep_type_to_storage t) = Ok (normal_type t).
Proof.
  unfold bep_type_to_storage, bep_type_of, normal_type.
  destruct (Z.eqb_spec t 0) as [->|]; [done|]. destruct (Z.eqb_spec t 1) as [->|]; [done|].
  destruct (Z.eqb_spec t 2) as [->|]; [done|]. destruct (Z.eqb_spec t 3) as [->|]; [done|].
  destruct (Z.eqb_spec t 4) as [->|]; [done|].
  replace ((2 <=? t) && (t <=? 4)) with false by lia. done.
Qed.

Lemma file_conv f :
  file_to_bep (file_to_storage f) = Ok (set_type f (normal_type (bep.type_ f))).
Proof.
  unfold file_to_bep. simpl (storage.type_ _). rewrite type_roundtrip. cbn [rbind].
  unfold set_type. f_equal. simpl.
  rewrite (fmap_inv vector_to_storage) by apply vector_roundtrip.
  rewrite (fmap_inv platform_to_storage) by apply platform_roundtrip.
  by rewrite (map_inv block_to_storage) by (by intros []).
Qed.

Lemma file_to_bep_Ok s f : file_to_bep s = Ok f ->
  bep.name f = storage.name s /\ bep.sequence f = storage.sequence s /\
  bep.version f = vector_to_bep <$> storage.version s /\
  bep.deleted f = storage.deleted s /\
  bep.blocks f = map block_to_bep (storage.blocks s).
Proof.
  unfold file_to_bep. destruct (storage_type_to_bep _); simpl; [|done]. by intros [= <-].
Qed.

(** ** Properties *)

(** Nothing is lost in the store. Converting a file to its stored form and
    back gives the same file, field by field, except that the file type is
    normalised (directories stay directories, the three symlink kinds become
    one, unknown kinds become regular files); normalising twice changes
    nothing. A stored type the code never writes is reported as corruption. *)
Theorem file_info_roundtrip (f : bep.FileInfo) :
  file_to_bep (file_to_storage f) = Ok (set_type f (normal_type (bep.type_ f))) /\
  (0 <= bep.type_ f <= 1 \/ bep.type_ f = 4 -> file_to_bep (file_to_storage f) = Ok f) /\
  normal_type (normal_type (bep.type_ f)) = normal_type (bep.type_ f).
Proof.
  split; [apply file_conv|]. split.
  - intros H. rewrite file_conv. f_equal.
    replace (normal_type (bep.type_ f)) with (bep.type_ f); [by destruct f|].
    unfold normal_type. destruct (Z.eqb_spec (bep.type_ f) 1); [done|].
    destruct ((2 <=? bep.type_ f) && (bep.type_ f <=? 4)) eqn:E; lia.
  - unfold normal_type at 2 3. destruct (_ =? 1); [done|]. by destruct (_ && _).
Qed.

Lemma file_info_roundtrip_witness :
  let f := bep.mkFileInfo (lit "a") 5 0 0 None 0 [bep.mkBlockInfo (repeat 1 32) 0 5]
             [] [] [] [] 1 0 0 0 None 0 [] 0 0 false false false in
  file_to_bep (file_to_storage f) = Ok f.
Proof.
  intros f. apply (proj1 (proj2 (file_info_roundtrip f))). left. by vm_compute.
Defined.

End ProtoConv.
