(* ===== verification/Kv.v ===== *)
(** The database behind a folder. SlateDB is a library: the store uses it
    through point reads, ordered scans, puts, atomic batches and flushes, so it
    is a typeclass. Its laws are the documented contract and no more: reads
    change nothing and return what is there, scans yield the live keys of the
    range in key order, a batch applies entirely or not at all, and an
    operation that succeeds has taken effect. Any operation may fail at any
    time (after a failed write the batch may or may not be there) unless the
    database is [db_healthy].

    [MapDb] is a database that satisfies the laws, with a switch for
    failures. *)

From Stdlib Require Import ZArith Lia Sorting.Sorted.
From stdpp Require Import base gmap list sorting strings.
From S2P Require Import Prelude BepTypes.

Local Open Scope Z_scope.
Local Open Scope bep_scope.

Module Kv.

(** ** Data *)

(** [slatedb::ErrorKind], as far as the store tells kinds apart. *)
Inductive SlateError :=
| ClosedFenced
| ClosedOther
| Data
| Invalid
| OtherKind.

(** [slate_err]. *)
Definition slate_err (e : SlateError) : StorageError.t :=
  match e with
  | ClosedFenced => StorageError.Standby "slatedb fenced"
  | Data => StorageError.Corruption "slatedb data error"
  | Invalid => StorageError.InvalidInput "slatedb invalid"
  | _ => StorageError.TransientIo "slatedb"
  end.

(** The operations of a [WriteBatch]. *)
Inductive BatchOp :=
| BPut (k v : bytes)
| BDelete (k : bytes).

Abbreviation contents := (gmap bytes bytes).

Definition apply_op (m : contents) (o : BatchOp) : contents :=
  match o with
  | BPut k v => <[k := v]> m
  | BDelete k => delete k m
  end.

Definition apply_batch (b : list BatchOp) (m : contents) : contents := fold_left apply_op b m.

(** An iterator: the entries it yields, then its end or an error. *)
Record Scan := mkScan {
  scan_items : list (bytes * bytes);
  scan_error : option SlateError
}.

(** The entries of a map whose key satisfies a test, in key order. *)
Definition key_le (a b : bytes * bytes) : Prop := bytes_cmp (fst a) (fst b) <> Gt.

#[export] Instance key_le_dec a b : Decision (key_le a b).
Proof. unfold key_le. destruct (bytes_cmp _ _); (left; discriminate) || (right; congruence). Defined.

Definition entries (P : bytes -> bool) (m : contents) : list (bytes * bytes) :=
  merge_sort key_le (filter (fun kv => P (fst kv) = true) (map_to_list m)).

(** Half-open range test of [Db::scan(lo..hi)]. *)
Definition in_key_range (lo hi k : bytes) : bool :=
  match bytes_cmp k lo with
  | Lt => false
  | _ => match bytes_cmp k hi with Lt => true | _ => false end
  end.

(** ** Interface *)

Class SlateDb (Db : Type) := {
  db_get : bytes -> SE Db SlateError (option bytes);
  db_put : bytes -> bytes -> SE Db SlateError unit;
  db_write : list BatchOp -> SE Db SlateError unit;
  db_scan_prefix : bytes -> SE Db SlateError Scan;
  db_scan : bytes -> bytes -> SE Db SlateError Scan;
  db_flush : SE Db SlateError unit;
  db_close : SE Db SlateError unit;
  (** What the database holds and whether it will not fail (for the laws
      only). *)
  db_contents : Db -> contents;
  db_healthy : Db -> Prop
}.

(** An operation that only reads: the contents stay, a success satisfies [Q],
    and a healthy database succeeds and stays healthy. *)
Definition reads {Db A} `{SlateDb Db} (m : SE Db SlateError A) (Q : contents -> A -> Prop) : Prop :=
  forall db,
    db_contents (fst (m db)) = db_contents db /\
    (db_healthy db -> db_healthy (fst (m db)) /\ is_ok (snd (m db)) = true) /\
    (forall a, snd (m db) = Ok a -> Q (db_contents db) a).

(** An operation that writes a batch atomically. *)
Definition writes {Db} `{SlateDb Db} (m : SE Db SlateError unit) (b : list BatchOp) : Prop :=
  forall db,
    (db_contents (fst (m db)) = apply_batch b (db_contents db) \/
     (db_contents (fst (m db)) = db_contents db /\ is_ok (snd (m db)) = false)) /\
    (db_healthy db -> db_healthy (fst (m db)) /\ is_ok (snd (m db)) = true).

(** A scan yields a prefix of the entries of its range, all of them when it
    does not end in an error, and on a healthy database it does not. *)
Definition scans {Db} `{SlateDb Db} (m : SE Db SlateError Scan) (P : bytes -> bool) : Prop :=
  reads m (fun c sc => exists rest, entries P c = scan_items sc ++ rest /\
                                    (scan_error sc = None -> rest = [])) /\
  forall db sc, db_healthy db -> snd (m db) = Ok sc -> scan_error sc = None.

Class SlateDbLaws (Db : Type) `{SlateDb Db} : Prop := {
  db_get_reads k : reads (db_get k) (fun c v => v = c !! k);
  db_put_writes k v : writes (db_put k v) [BPut k v];
  db_write_writes b : writes (db_write b) b;
  db_scan_prefix_scans p : scans (db_scan_prefix p) (starts_with p);
  db_scan_scans lo hi : scans (db_scan lo hi) (in_key_range lo hi);
  db_flush_reads : reads db_flush (fun _ _ => True)
}.

(** ** Facts about entries and batches *)

#[export] Instance key_le_total : Total key_le.
Proof.
  intros a b. unfold key_le. rewrite (bytes_cmp_antisym (fst a) (fst b)).
  destruct (bytes_cmp _ _); simpl; auto.
Qed.

#[export] Instance key_le_trans : Transitive key_le.
Proof.
  intros a b c. unfold key_le.
  destruct (bytes_cmp (fst a) (fst b)) eqn:E1; [|intros _|congruence].
  { apply bytes_cmp_eq in E1. by rewrite E1. }
  destruct (bytes_cmp (fst b) (fst c)) eqn:E2; [intros _|intros _|congruence].
  { apply bytes_cmp_eq in E2. rewrite <- E2, E1. congruence. }
  enough (bytes_cmp (fst a) (fst c) = Lt) as -> by congruence. by eapply bytes_lt_trans.
Qed.

Lemma elem_of_entries (P : bytes -> bool) (m : contents) (k v : bytes) :
  (k, v) ∈ entries P m <-> m !! k = Some v /\ P k = true.
Proof.
  unfold entries. rewrite merge_sort_Permutation, list_elem_of_filter, elem_of_map_to_list. simpl. tauto.
Qed.

Lemma entries_nodup (P : bytes -> bool) (m : contents) : NoDup (map fst (entries P m)).
Proof.
  unfold entries. rewrite merge_sort_Permutation. 
  pose proof (NoDup_fst_map_to_list m) as H. revert H. generalize (map_to_list m).
  intros l. induction l as [|[k v] l IH]; intros Hnd; [constructor|].
  cbn [fmap list_fmap] in Hnd. apply NoDup_cons in Hnd as [Hn Hnd]. rewrite filter_cons. simpl in *.
  case_decide; [|auto]. cbn [map]. constructor; [|auto].
  intros ((k' & v') & E & Hin)%list_elem_of_fmap. apply list_elem_of_filter in Hin as [_ Hin].
  simpl in E. subst. apply Hn. by apply (list_elem_of_fmap_2 fst) in Hin.
Qed.

(** Entries come in strictly increasing key order. *)
Lemma entries_sorted (P : bytes -> bool) (m : contents) :
  StronglySorted (fun a b => bytes_lt (fst a) (fst b)) (entries P m).
Proof.
  assert (StronglySorted key_le (entries P m)) as Hs.
  { unfold entries. apply Sorted_StronglySorted; [apply key_le_trans|].
    apply Sorted_merge_sort. apply _. }
  pose proof (entries_nodup P m) as Hnd. revert Hs Hnd. generalize (entries P m).
  intros l. induction 1 as [|x l Hl IH Hx]; simpl; intros Hnd; [constructor|].
  apply NoDup_cons in Hnd as [Hn Hnd]. constructor; [auto|].
  rewrite Forall_forall in *. intros y Hy. specialize (Hx y Hy). unfold key_le in Hx.
  unfold bytes_lt. destruct (bytes_cmp (fst x) (fst y)) eqn:E; [|done|done].
  apply bytes_cmp_eq in E. exfalso. apply Hn. rewrite E. by apply (list_elem_of_fmap_2 fst) in Hy.
Qed.

Lemma apply_batch_app b1 b2 m : apply_batch (b1 ++ b2) m = apply_batch b2 (apply_batch b1 m).
Proof. apply fold_left_app. Qed.

(** An entry after a batch was put by it or was there before. *)
Lemma apply_batch_inv (b : list BatchOp) (m : contents) (k v : bytes) :
  apply_batch b m !! k = Some v -> BPut k v ∈ b \/ m !! k = Some v.
Proof.
  revert m. induction b as [|o b IH]; intros m; [by right|].
  cbn. change (fold_left apply_op b (apply_op m o)) with (apply_batch b (apply_op m o)).
  intros [Hin|H]%IH; [left; by right|]. destruct o as [k' v'|k']; simpl in H.
  - apply lookup_insert_Some in H as [[-> ->]|[_ H]]; [left; by left|by right].
  - apply lookup_delete_Some in H as [_ H]. by right.
Qed.

(** Keys a batch does not mention keep their value. *)
Definition op_key (o : BatchOp) : bytes := match o with BPut k _ | BDelete k => k end.

Lemma apply_batch_other (b : list BatchOp) (m : contents) (k : bytes) :
  k ∉ map op_key b -> apply_batch b m !! k = m !! k.
Proof.
  revert m. induction b as [|o b IH]; intros m; [done|].
  cbn. intros [Hne Hn]%not_elem_of_cons.
  change (fold_left apply_op b (apply_op m o)) with (apply_batch b (apply_op m o)).
  rewrite IH by done. destruct o; simpl in *; by (rewrite lookup_insert_ne || rewrite lookup_delete_ne).
Qed.

(** ** A concrete database *)

(** A map in memory whose fuse, if it has one, burns one unit per operation;
    when it is burnt every operation fails. *)
Record MapDb := mkMapDb { mdata : contents; fuse : option nat }.

Definition burn (db : MapDb) : MapDb * bool :=
  match fuse db with
  | None => (db, true)
  | Some O => (db, false)
  | Some (S n) => (mkMapDb (mdata db) (Some n), true)
  end.

Definition map_op {A} (f : contents -> contents * A) : SE MapDb SlateError A := fun db =>
  match burn db with
  | (db', true) => let '(m, a) := f (mdata db') in (mkMapDb m (fuse db'), Ok a)
  | (db', false) => (db', Err OtherKind)
  end.

#[export] Instance MapDb_SlateDb : SlateDb MapDb := {
  db_get k := map_op (fun m => (m, m !! k));
  db_put k v := map_op (fun m => (<[k := v]> m, tt));
  db_write b := map_op (fun m => (apply_batch b m, tt));
  db_scan_prefix p := map_op (fun m => (m, mkScan (entries (starts_with p) m) None));
  db_scan lo hi := map_op (fun m => (m, mkScan (entries (in_key_range lo hi) m) None));
  db_flush := map_op (fun m => (m, tt));
  db_close := map_op (fun m => (m, tt));
  db_contents := mdata;
  db_healthy db := fuse db = None
}.

Lemma map_op_cases {A} (f : contents -> contents * A) db :
  (map_op f db = (mkMapDb (fst (f (mdata db))) (fuse (fst (map_op f db))), Ok (snd (f (mdata db)))) /\
   (fuse db = None -> fuse (fst (map_op f db)) = None)) \/
  (map_op f db = (db, Err OtherKind) /\ fuse db <> None).
Proof.
  unfold map_op, burn. destruct db as [m [[|n]|]]; cbn [fuse mdata]; [by right|left..].
  - by destruct (f m).
  - by destruct (f m).
Qed.

Lemma map_op_reads {A} (f : contents -> contents * A) (Q : contents -> A -> Prop) :
  (forall m, fst (f m) = m /\ Q m (snd (f m))) -> reads (map_op f) Q.
Proof.
  intros Hf db. destruct (Hf (mdata db)) as [Hm HQ].
  destruct (map_op_cases f db) as [[E Hh]|[E Hh]]; rewrite E in *; cbn [fst snd] in *.
  - split; [exact Hm|]. split; [intros H; by split; [apply Hh|]|]. by intros a [= <-].
  - split; [done|]. split; [intros H; by destruct Hh|]. done.
Qed.

Lemma map_op_writes f b :
  (forall m, fst (f m) = apply_batch b m) -> writes (map_op (A := unit) f) b.
Proof.
  intros Hf db. destruct (map_op_cases f db) as [[E Hh]|[E Hh]]; rewrite E in *; cbn [fst snd] in *.
  - split; [left; apply Hf|]. intros H. split; [by apply Hh|done].
  - split; [by right|]. intros H. by destruct Hh.
Qed.

Lemma map_op_scans P :
  scans (map_op (fun m => (m, mkScan (entries P m) None))) P.
Proof.
  split.
  - apply map_op_reads. intros m. split; [done|]. exists []. by rewrite app_nil_r.
  - intros db sc H. destruct (map_op_cases (fun m => (m, mkScan (entries P m) None)) db) as [[E _]|[E _]];
      rewrite E; simpl; [by intros [= <-]|done].
Qed.

#[export] Instance MapDb_laws : SlateDbLaws MapDb.
Proof.
  split.
  - intros k. by apply map_op_reads.
  - intros k v. by apply map_op_writes.
  - intros b. by apply map_op_writes.
  - intros p. apply map_op_scans.
  - intros lo hi. apply map_op_scans.
  - by apply map_op_reads.
Qed.

End Kv.
