(* ===== verification/GcState.v ===== *)
(** The state the store shares with running compactions
    ([CompactionState] of [bepository-storage/src/store.rs]).

    The Bloom filters (fastbloom) are a typeclass with the two laws that make a
    filter usable: what was inserted is contained, and insertions never remove
    anything. False positives are allowed. *)

From Stdlib Require Import ZArith Lia.
From stdpp Require Import base gmap list strings.
From S2P Require Import Prelude.

Local Open Scope Z_scope.

Class Bloom (K F : Type) := {
  bf_insert : K -> F -> F;
  bf_contains : K -> F -> bool
}.

Class BloomLaws (K F : Type) {B : Bloom K F} : Prop := {
  bf_contains_insert (k : K) (f : F) : bf_contains k (bf_insert k f) = true;
  bf_contains_mono (k j : K) (f : F) : bf_contains k f = true -> bf_contains k (bf_insert j f) = true
}.

Module GcState.

Section GcState.
Context {HF SF : Type} `{!Bloom bytes HF} `{!Bloom Z SF}.

(** ** Model *)

Record CompactionJobState := mkJob {
  known_live_hashes : HF;
  known_live_seqs : SF
}.

Record CompactionState := mkState {
  jobs : gmap Z CompactionJobState;
  next_job : Z
}.

Definition new : CompactionState := mkState ∅ 1.

(** [register]; the job handle is its id. *)
Definition register (gc : CompactionState) (hashes : HF) (seqs : SF) : CompactionState * Z :=
  let job_id := next_job gc in
  (mkState (<[job_id := mkJob hashes seqs]> (jobs gc)) (wrap_u64 (job_id + 1)), job_id).

(** [unregister], also what dropping the job handle does. *)
Definition unregister (gc : CompactionState) (job_id : Z) : CompactionState :=
  mkState (delete job_id (jobs gc)) (next_job gc).

Definition record_in_job (hash : bytes) (seq : option Z) (job : CompactionJobState)
  : CompactionJobState :=
  mkJob (bf_insert hash (known_live_hashes job))
        (match seq with
         | Some s => bf_insert s (known_live_seqs job)
         | None => known_live_seqs job
         end).

Definition record_block_write (hash : bytes) (seq : option Z) (gc : CompactionState)
  : CompactionState :=
  mkState (record_in_job hash seq <$> jobs gc) (next_job gc).

(** [jobs.values().all(...)]. *)
Definition all_jobs (P : CompactionJobState -> bool) (gc : CompactionState) : bool :=
  forallb (fun p => P (snd p)) (map_to_list (jobs gc)).

Definition is_block_safe (gc : CompactionState) (hash : bytes) : bool :=
  if decide (jobs gc = ∅) then true
  else all_jobs (fun job => bf_contains hash (known_live_hashes job)) gc.

Definition known_live_hash_contains (gc : CompactionState) (job_id : Z) (hash : bytes) : bool :=
  match jobs gc !! job_id with
  | Some job => bf_contains hash (known_live_hashes job)
  | None => true
  end.

Definition known_live_seq_contains (gc : CompactionState) (job_id seq : Z) : bool :=
  match jobs gc !! job_id with
  | Some job => bf_contains seq (known_live_seqs job)
  | None => true
  end.

(** ** Lemmas *)

Lemma all_jobs_true P gc :
  all_jobs P gc = true <-> forall i job, jobs gc !! i = Some job -> P job = true.
Proof.
  unfold all_jobs. rewrite forallb_forall. split.
  - intros H i job Hi. apply (H (i, job)). rewrite <- list_elem_of_In. by apply elem_of_map_to_list.
  - intros H [i job] Hin. rewrite <- list_elem_of_In in Hin. apply elem_of_map_to_list in Hin.
    by eapply H.
Qed.

Lemma is_block_safe_true gc hash :
  is_block_safe gc hash = true <-> forall i, known_live_hash_contains gc i hash = true.
Proof.
  unfold is_block_safe, known_live_hash_contains. case_decide as E.
  - rewrite E. split; [|done]. intros _ i. by rewrite lookup_empty.
  - rewrite all_jobs_true. split.
    + intros H i. destruct (jobs gc !! i) eqn:Hi; [by eapply H|done].
    + intros H i job Hi. specialize (H i). by rewrite Hi in H.
Qed.

Context `{!BloomLaws bytes HF} `{!BloomLaws Z SF}.

Lemma record_hash_known gc hash seq i :
  known_live_hash_contains (record_block_write hash seq gc) i hash = true.
Proof.
  unfold known_live_hash_contains. simpl. rewrite lookup_fmap.
  destruct (jobs gc !! i); simpl; [apply bf_contains_insert|done].
Qed.

Lemma record_hash_mono gc hash seq i h :
  known_live_hash_contains gc i h = true ->
  known_live_hash_contains (record_block_write hash seq gc) i h = true.
Proof.
  unfold known_live_hash_contains. simpl. rewrite lookup_fmap.
  destruct (jobs gc !! i); simpl; [apply bf_contains_mono|done].
Qed.

Lemma record_seq_known gc hash s i :
  known_live_seq_contains (record_block_write hash (Some s) gc) i s = true.
Proof.
  unfold known_live_seq_contains. simpl. rewrite lookup_fmap.
  destruct (jobs gc !! i); simpl; [apply bf_contains_insert|done].
Qed.

Lemma record_seq_mono gc hash seq i s :
  known_live_seq_contains gc i s = true ->
  known_live_seq_contains (record_block_write hash seq gc) i s = true.
Proof.
  unfold known_live_seq_contains. simpl. rewrite lookup_fmap.
  destruct (jobs gc !! i); simpl; [|done]. destruct seq; [apply bf_contains_mono|done].
Qed.

(** ** Property *)

(** Writes during a compaction are protected. After a block write is
    recorded, every running compaction considers its hash and its data
    sequence live and the block counts as safe to reuse; nothing known live
    before is forgotten; and a compaction that ended constrains nothing. *)
Theorem recorded_block_is_live (gc : CompactionState) (hash : bytes) (s : Z) :
  let gc' := record_block_write hash (Some s) gc in
  is_block_safe gc' hash = true /\
  (forall i, known_live_hash_contains gc' i hash = true /\
             known_live_seq_contains gc' i s = true) /\
  (forall i h, known_live_hash_contains gc i h = true -> known_live_hash_contains gc' i h = true) /\
  (forall i q, known_live_seq_contains gc i q = true -> known_live_seq_contains gc' i q = true) /\
  (forall i h, known_live_hash_contains (unregister gc i) i h = true).
Proof.
  intros gc'. split_and!.
  - apply is_block_safe_true. intros i. apply record_hash_known.
  - intros i. split; [apply record_hash_known|apply record_seq_known].
  - intros i h. apply record_hash_mono.
  - intros i q. apply record_seq_mono.
  - intros i h. unfold known_live_hash_contains. simpl. by rewrite lookup_delete_eq.
Qed.

End GcState.

Arguments CompactionState : clear implicits.
Arguments CompactionJobState : clear implicits.

(** ** A concrete filter: a list, without false positives *)

Definition ListFilter (K : Type) : Type := list K.

#[global] Instance ListFilter_Bloom (K : Type) `{EqDecision K} : Bloom K (ListFilter K) := {
  bf_insert k f := k :: f;
  bf_contains k f := bool_decide (k ∈ (f : list K))
}.

#[global] Instance ListFilter_laws (K : Type) `{EqDecision K} : BloomLaws K (ListFilter K).
Proof.
  split.
  - intros k f. apply bool_decide_eq_true. by left.
  - intros k j f H. apply bool_decide_eq_true in H. apply bool_decide_eq_true. by right.
Qed.

Lemma recorded_block_is_live_witness :
  let gc0 : CompactionState (ListFilter bytes) (ListFilter Z) := fst (register new [] []) in
  is_block_safe gc0 (lit "h") = false /\
  is_block_safe (record_block_write (lit "h") (Some 1024) gc0) (lit "h") = true.
Proof.
  intros gc0. split; [reflexivity|].
  exact (proj1 (recorded_block_is_live gc0 (lit "h") 1024)).
Defined.

End GcState.
