(* ===== verification/Store.v ===== *)
(** The per-folder store ([bepository-storage/src/store.rs] and
    [block_read.rs]): file index, inbox, blocks, sequence numbers.

    A store is the database, the state shared with compactions and the
    allocator's reserved range. The per-name locks and [seq_lock] serialise
    operations on the same entries, so an operation is one state-passing
    function. It keeps the state reached when it fails: nothing is rolled back
    but what the database does not apply. *)

From Stdlib Require Import ZArith Lia.
From stdpp Require Import base gmap list strings.
From S2P Require Import Prelude BepTypes Base32 StoreKeys Codec ProtoConv Kv GcState.

Local Open Scope Z_scope.
Local Open Scope bep_scope.

(** The protobuf messages the store writes. *)
Class StoreCodecs := {
  file_codec :: Codec storage.File;
  inbox_codec :: Codec storage.Inbox;
  block_ref_codec :: Codec storage.BlockRef;
  index_meta_codec :: Codec storage.FolderIndexMeta;
  remote_state_codec :: Codec storage.RemoteIndexState
}.

Class StoreCodecLaws `{StoreCodecs} : Prop := {
  file_laws :: CodecLaws storage.File;
  inbox_laws :: CodecLaws storage.Inbox;
  block_ref_laws :: CodecLaws storage.BlockRef;
  index_meta_laws :: CodecLaws storage.FolderIndexMeta;
  remote_state_laws :: CodecLaws storage.RemoteIndexState
}.

Module Store.
Import Kv.

(** [i64] addition in the release profile. *)
Definition wrap_i64 (v : Z) : Z := (v - I64_MIN) mod 2 ^ 64 + I64_MIN.

(** ** Block pointers *)

Definition has_pointer (b : storage.BlockInfo) : bool :=
  bool_decide (is_Some (storage.blockseq b)) || bool_decide (is_Some (storage.inline_data b)).

(** The first pointer-carrying block of each hash ([entry().or_insert()]). *)
Fixpoint find_pointer (hash : bytes) (bs : list storage.BlockInfo) : option storage.BlockInfo :=
  match bs with
  | [] => None
  | b :: bs' =>
      if has_pointer b && bool_decide (storage.hash b = hash) then Some b else find_pointer hash bs'
  end.

Definition set_pointer (b : storage.BlockInfo) (seq : option Z) (inline : option bytes)
  : storage.BlockInfo :=
  storage.mkBlockInfo (storage.hash b) (storage.offset b) (storage.bsize b) seq inline.

Definition carry_block (old : list storage.BlockInfo) (b : storage.BlockInfo) : storage.BlockInfo :=
  if has_pointer b then b
  else match find_pointer (storage.hash b) old with
       | Some src => set_pointer b (storage.blockseq src) (storage.inline_data src)
       | None => b
       end.

Definition carry_block_pointers (new old : storage.FileInfo) : storage.FileInfo :=
  storage.set_blocks new (map (carry_block (storage.blocks old)) (storage.blocks new)).

(** The loop [for block in &mut file_info.blocks] of [store_block] and
    [reuse_block], with its [updated_any] flag. *)
Definition update_blocks (hash : bytes) (seq : option Z) (inline : option bytes)
  (f : storage.FileInfo) : storage.FileInfo * bool :=
  (storage.set_blocks f
     (map (fun b => if bool_decide (storage.hash b = hash) then set_pointer b seq inline else b)
          (storage.blocks f)),
   existsb (fun b => bool_decide (storage.hash b = hash)) (storage.blocks f)).

(** ** State *)

Record SeqRange := mkRange { next : Z; rend : Z }.

Definition RESERVATION_N : Z := 256.

Section Store.
Context {Db : Type} `{!SlateDb Db} {SC : StoreCodecs}.
Context {HF SF : Type} `{!Bloom bytes HF} `{!Bloom Z SF}.

Record FolderStore := mkStore {
  db : Db;
  gc : GcState.CompactionState HF SF;
  blockseq : SeqRange
}.

Definition M := SE FolderStore StorageError.t.

(** A database call with [.map_err(slate_err)?]. *)
Definition on_db {A} (m : SE Db SlateError A) : M A := fun s =>
  let '(d, r) := m (db s) in (mkStore d (gc s) (blockseq s), map_err slate_err r).

Definition get (k : bytes) : M (option bytes) := on_db (db_get k).
Definition put_non_durable (k v : bytes) : M unit := on_db (db_put k v).
Definition write_non_durable (b : list BatchOp) : M unit := on_db (db_write b).
Definition corrupt {A} (msg : string) (o : option A) : M A :=
  se_lift (ok_or o (StorageError.Corruption msg)).
Definition record_block_write (hash : bytes) (seq : option Z) : M unit :=
  se_modify (fun s => mkStore (db s) (GcState.record_block_write hash seq (gc s)) (blockseq s)).

(** [while let Some(kv) = iter.next().await?] over a scan. *)
Fixpoint for_each {A} (items : list (bytes * bytes)) (acc : A) (body : A -> bytes * bytes -> M A) : M A :=
  match items with
  | [] => se_ret acc
  | kv :: items' => do! acc' <- body acc kv; for_each items' acc' body
  end.

Definition end_of_scan (sc : Scan) : M unit :=
  match scan_error sc with
  | Some e => se_err (slate_err e)
  | None => se_ret tt
  end.

Definition iterate {A} (sc : Scan) (acc : A) (body : A -> bytes * bytes -> M A) : M A :=
  do! r <- for_each (scan_items sc) acc body;
  run! end_of_scan sc;
  se_ret r.

(** ** Allocator *)

(** [SeqAllocator::load]. *)
Definition seq_allocator_load (d : Db) : Db * result StorageError.t SeqRange :=
  let '(d', r) := db_get StoreKeys.IX_KEY d in
  (d', try ix_bytes <- map_err slate_err r;
       try persisted <- match ix_bytes with
                        | Some b =>
                            try meta <- ok_or (decode b) (StorageError.Corruption "decode FolderIndexMeta");
                            Ok (default 0 (storage.next_blockseq meta))
                        | None => Ok 0
                        end;
       Ok (mkRange persisted persisted)).

(** [FolderStore::new]. *)
Definition new (d : Db) (g : GcState.CompactionState HF SF) : Db * result StorageError.t FolderStore :=
  let '(d', r) := seq_allocator_load d in
  (d', try range <- r; Ok (mkStore d' g range)).

Definition set_range (r : SeqRange) : M unit :=
  se_modify (fun s => mkStore (db s) (gc s) r).

(** [SeqAllocator::allocate]. The double check under the lock repeats the fast
    path, which a single caller cannot see change. *)
Definition allocate : M Z :=
  do! s <- se_get;
  let st := blockseq s in
  if next st <? rend st then
    run! set_range (mkRange (next st + 1) (rend st));
    se_ret (next st)
  else
    do! ix_bytes <- get StoreKeys.IX_KEY;
    do! meta <- match ix_bytes with
                | Some b => corrupt "decode FolderIndexMeta" (decode b)
                | None => se_ret storage.FolderIndexMeta_default
                end;
    let base := Z.max (default 0 (storage.next_blockseq meta)) StoreKeys.MIN_BLOCK_SEQ in
    let next_limit := wrap_u64 (base + RESERVATION_N) in
    let meta' := storage.mkFolderIndexMeta (storage.max_sequence meta) (Some next_limit) in
    run! put_non_durable StoreKeys.IX_KEY (encode meta');
    run! on_db db_flush;
    run! set_range (mkRange (wrap_u64 (base + 1)) next_limit);
    se_ret base.

(** ** Index metadata and peers *)

Definition get_index_meta : M storage.FolderIndexMeta :=
  do! v <- get StoreKeys.IX_KEY;
  match v with
  | Some b => corrupt "decode FolderIndexMeta" (decode b)
  | None => se_ret storage.FolderIndexMeta_default
  end.

Definition get_remote_state (device : bytes) : M storage.RemoteIndexState :=
  do! v <- get (StoreKeys.device_key device);
  match v with
  | Some b => corrupt "decode RemoteIndexState" (decode b)
  | None => se_ret storage.RemoteIndexState_default
  end.

Definition put_remote_state (device : bytes) (state : storage.RemoteIndexState) : M unit :=
  put_non_durable (StoreKeys.device_key device) (encode state).

(** ** File index *)

Definition decode_file (msg : string) (b : bytes) : M storage.FileInfo :=
  do! file <- corrupt "decode File" (decode b);
  corrupt msg (storage.file_info file).

Definition get_file_proto (name : bytes) : M (option storage.FileInfo) :=
  do! v <- get (StoreKeys.file_key name);
  match v with
  | Some b => do! fi <- decode_file "missing file_info in File" b; se_ret (Some fi)
  | None => se_ret None
  end.

Definition get_file (name : bytes) : M (option bep.FileInfo) :=
  do! v <- get_file_proto name;
  match v with
  | Some fi => do! f <- se_lift (ProtoConv.file_to_bep fi); se_ret (Some f)
  | None => se_ret None
  end.

(** The part of [commit_with_new_seq] that reads the prior entry: the stored
    file with its carried pointers and the batch that drops the old sequence
    entry. *)
Definition carry_prior (name : bytes) (stored : storage.FileInfo) (batch : list BatchOp)
  : M (storage.FileInfo * list BatchOp) :=
  do! prior <- get_file_proto name;
  match prior with
  | Some old =>
      let stored := carry_block_pointers stored old in
      if 0 <? storage.sequence old then
        do! k <- se_lift (StoreKeys.seq_key (storage.sequence old));
        se_ret (stored, batch ++ [BDelete k])
      else se_ret (stored, batch)
  | None => se_ret (stored, batch)
  end.

Definition commit_with_new_seq (name : bytes) (stored : storage.FileInfo) (batch : list BatchOp)
  : M (Z * bep.FileInfo) :=
  do! (stored, batch) <- carry_prior name stored batch;
  do! meta <- get_index_meta;
  let seq := wrap_i64 (storage.max_sequence meta + 1) in
  let meta := storage.mkFolderIndexMeta seq (storage.next_blockseq meta) in
  let stored := storage.set_sequence stored seq in
  do! sk <- se_lift (StoreKeys.seq_key seq);
  let batch := batch ++ [BPut StoreKeys.IX_KEY (encode meta);
                         BPut (StoreKeys.file_key name) (encode (storage.mkFile (Some stored)));
                         BPut sk name] in
  run! write_non_durable batch;
  do! committed_bep <- se_lift (ProtoConv.file_to_bep stored);
  se_ret (seq, committed_bep).

Definition put_file (file : bep.FileInfo) : M Z :=
  do! (seq, _) <- commit_with_new_seq (bep.name file) (ProtoConv.file_to_storage file) [];
  se_ret seq.

(** The blocks [put_file_with_carry] writes reverse references for. *)
Definition carried_blocks (f : storage.FileInfo) : list (bytes * Z) :=
  omap (fun b => match storage.blockseq b with
                 | Some seq => if Nat.eqb (length (storage.hash b)) StoreKeys.HASH_LEN
                               then Some (storage.hash b, seq) else None
                 | None => None
                 end) (storage.blocks f).

Fixpoint record_all (l : list (bytes * Z)) : M unit :=
  match l with
  | [] => se_ret tt
  | (hash, seq) :: l' => run! record_block_write hash (Some seq); record_all l'
  end.

Definition put_file_with_carry (file : bep.FileInfo) (carry_from : bytes) : M Z :=
  let stored := ProtoConv.file_to_storage file in
  do! src <- get_file_proto carry_from;
  let stored := match src with Some src => carry_block_pointers stored src | None => stored end in
  let carried := match src with Some _ => carried_blocks stored | None => [] end in
  let batch := map (fun p => BPut (StoreKeys.block_reverse_key (fst p) (bep.name file)) []) carried in
  do! (seq, _) <- commit_with_new_seq (bep.name file) stored batch;
  run! record_all carried;
  se_ret seq.

Definition all_files : M (list bep.FileInfo) :=
  do! sc <- on_db (db_scan_prefix StoreKeys.FILE_PREFIX);
  iterate sc [] (fun files kv =>
    do! fi <- decode_file "missing file_info in File index entry" (snd kv);
    do! f <- se_lift (ProtoConv.file_to_bep fi);
    se_ret (files ++ [f])).

Definition files_since (since : Z) : M (list bep.FileInfo) :=
  do! start <- se_lift (StoreKeys.seq_scan_start since);
  do! sc <- on_db (db_scan start StoreKeys.SEQ_SCAN_END);
  iterate sc [] (fun files kv =>
    do! name <- corrupt "invalid name in seq entry" (from_utf8 (snd kv));
    do! f <- get_file name;
    match f with
    | Some fi => se_ret (files ++ [fi])
    | None => se_ret files
    end).

(** ** Inbox *)

Definition stage_file (epoch : Base32.Epoch) (file : bep.FileInfo) : M unit :=
  put_non_durable (StoreKeys.inbox_key epoch (bep.name file))
    (encode (storage.mkInbox (Some (ProtoConv.file_to_storage file)))).

Definition incomplete (f : storage.FileInfo) : bool :=
  existsb (fun b => bool_decide (storage.inline_data b = None) && bool_decide (storage.blockseq b = None))
          (storage.blocks f).

Definition complete_file (epoch : Base32.Epoch) (name : bytes) (expected_version : option bep.Vector)
  : M (option bep.FileInfo) :=
  let inbox_key := StoreKeys.inbox_key epoch name in
  do! v <- get inbox_key;
  match v with
  | None => se_ret None
  | Some b =>
      do! inbox <- corrupt "decode staged Inbox" (decode b);
      do! staged <- corrupt "missing file_info in staged Inbox" (storage.inbox_file_info inbox);
      if negb (bool_decide (ProtoConv.vector_to_bep <$> storage.version staged = expected_version))
      then se_ret None
      else
        do! prior <- get_file_proto name;
        let completed := match prior with
                         | Some old => carry_block_pointers staged old
                         | None => staged
                         end in
        if incomplete completed
        then se_err (StorageError.Internal "staged file has blocks with neither inline data nor blockseq")
        else
          do! (_, committed) <- commit_with_new_seq name staged [BDelete inbox_key];
          se_ret (Some committed)
  end.

Definition gc_inbox (current_epoch : Base32.Epoch) : M nat :=
  do! sc <- on_db (db_scan_prefix StoreKeys.INBOX_PREFIX);
  do! (batch, count) <- iterate sc ([], O) (fun acc kv =>
    se_ret (match StoreKeys.parse_inbox_key (fst kv) with
            | Some (epoch, _) =>
                if Base32.epoch_ltb epoch current_epoch
                then (fst acc ++ [BDelete (fst kv)], S (snd acc)) else acc
            | None => acc
            end));
  run! (if Nat.ltb 0 count then write_non_durable batch else se_ret tt);
  se_ret count.

(** [compute_peer_floor]; [NonZeroI64::new] drops a floor of zero. *)
Definition compute_peer_floor : M (option Z) :=
  do! sc <- on_db (db_scan_prefix StoreKeys.DEVICE_PREFIX);
  do! floor <- iterate sc None (fun floor kv =>
    do! state <- corrupt "decode RemoteIndexState" (decode (snd kv));
    se_ret (Some (match floor with
                  | Some f => Z.min f (storage.remote_max_sequence state)
                  | None => storage.remote_max_sequence state
                  end)));
  se_ret (match floor with
          | Some f => if f =? 0 then None else Some f
          | None => None
          end).

(** ** Blocks *)

Definition find_file_entry (epoch : option Base32.Epoch) (name : bytes)
  : M (storage.FileInfo * bytes * bool) :=
  do! staged <- match epoch with
                | Some ep =>
                    let key := StoreKeys.inbox_key ep name in
                    do! v <- get key;
                    match v with
                    | Some b =>
                        do! inbox <- corrupt "decode staged Inbox" (decode b);
                        se_ret (match storage.inbox_file_info inbox with
                                | Some fi => Some (fi, key, true)
                                | None => None
                                end)
                    | None => se_ret None
                    end
                | None => se_ret None
                end;
  match staged with
  | Some r => se_ret r
  | None =>
      let key := StoreKeys.file_key name in
      do! v <- get key;
      match v with
      | Some b =>
          do! file <- corrupt "decode File" (decode b);
          match storage.file_info file with
          | Some fi => se_ret (fi, key, false)
          | None => se_err (StorageError.NotFound "file not found in inbox or main index")
          end
      | None => se_err (StorageError.NotFound "file not found in inbox or main index")
      end
  end.

(** [find_block_dir]: the loop over the reverse references. *)
Fixpoint find_block_loop (hash : bytes) (items : list (bytes * bytes))
  : M (option (bytes * storage.BlockRef)) :=
  match items with
  | [] => se_ret None
  | kv :: items' =>
      match StoreKeys.parse_block_reverse_key (fst kv) with
      | Some (_, name) =>
          let dir := StoreKeys.dirname name in
          do! v <- get (StoreKeys.block_pointer_key dir hash);
          match v with
          | Some ref_bytes =>
              do! block_ref <- corrupt "decode BlockRef" (decode ref_bytes);
              run! se_lift (StoreKeys.validate_block_seq (storage.seqno block_ref));
              do! data <- get (StoreKeys.block_data_seq_key (storage.seqno block_ref));
              match data with
              | Some _ => se_ret (Some (dir, block_ref))
              | None => find_block_loop hash items'
              end
          | None => find_block_loop hash items'
          end
      | None => find_block_loop hash items'
      end
  end.

Definition find_block_dir (hash : bytes) : M (option (bytes * storage.BlockRef)) :=
  do! s <- se_get;
  if negb (GcState.is_block_safe (gc s) hash) then se_ret None
  else
    do! sc <- on_db (db_scan_prefix (StoreKeys.block_reverse_prefix hash));
    do! r <- find_block_loop hash (scan_items sc);
    match r with
    | Some d => se_ret (Some d)
    | None => run! end_of_scan sc; se_ret None
    end.

Definition check_hash (hash : bytes) : M unit :=
  if Nat.eqb (length hash) StoreKeys.HASH_LEN then se_ret tt
  else se_err (StorageError.InvalidInput "block hash must be 32 bytes").

(** The end of [store_block] and [reuse_block]: update the entry that lists the
    block and write the batch. *)
Definition update_entry (epoch : option Base32.Epoch) (name hash : bytes)
  (seq : option Z) (inline : option bytes) (batch : list BatchOp) : M unit :=
  do! (file_info, key_to_update, is_inbox) <- find_file_entry epoch name;
  let '(file_info, updated_any) := update_blocks hash seq inline file_info in
  if negb updated_any then se_err (StorageError.NotFound "block not found in file")
  else
    write_non_durable (batch ++
      [BPut key_to_update (if is_inbox : bool then encode (storage.mkInbox (Some file_info))
                           else encode (storage.mkFile (Some file_info)))]).

Definition store_block (epoch : option Base32.Epoch) (name hash data : bytes) : M unit :=
  run! check_hash hash;
  let dir := StoreKeys.dirname name in
  if Z.of_nat (length data) <? StoreKeys.INLINE_BLOCK_THRESHOLD then
    update_entry epoch name hash None (Some data) []
  else
    do! existing <- find_block_dir hash;
    do! (seq, batch) <- match existing with
      | Some (canonical_dir, block_ref) =>
          se_ret (storage.seqno block_ref,
                  if bool_decide (canonical_dir = dir) then []
                  else [BPut (StoreKeys.block_pointer_key dir hash) (encode block_ref)])
      | None =>
          do! seq <- allocate;
          se_ret (seq, [BPut (StoreKeys.block_data_seq_key seq) data;
                        BPut (StoreKeys.block_pointer_key dir hash) (encode (storage.mkBlockRef seq))])
      end;
    run! update_entry epoch name hash (Some seq) None
           (batch ++ [BPut (StoreKeys.block_reverse_key hash name) []]);
    record_block_write hash (Some seq).

Definition reuse_block (epoch : option Base32.Epoch) (name hash : bytes) : M bool :=
  run! check_hash hash;
  do! existing <- find_block_dir hash;
  match existing with
  | None => se_ret false
  | Some (canonical_dir, block_ref) =>
      let dir := StoreKeys.dirname name in
      let batch := if bool_decide (canonical_dir = dir) then []
                   else [BPut (StoreKeys.block_pointer_key dir hash) (encode block_ref)] in
      run! update_entry epoch name hash (Some (storage.seqno block_ref)) None
             (batch ++ [BPut (StoreKeys.block_reverse_key hash name) []]);
      run! record_block_write hash (Some (storage.seqno block_ref));
      se_ret true
  end.

(** [resolve_block_data] of [block_read.rs]. *)
Definition resolve_block_data (b : storage.BlockInfo) : M (option bytes) :=
  match storage.inline_data b with
  | Some d => se_ret (Some d)
  | None =>
      match storage.blockseq b with
      | Some seq =>
          run! se_lift (StoreKeys.validate_block_seq seq);
          get (StoreKeys.block_data_seq_key seq)
      | None => se_ret None
      end
  end.

Fixpoint read_loop (hash : bytes) (bs : list storage.BlockInfo) : M (option bytes) :=
  match bs with
  | [] => se_ret None
  | b :: bs' =>
      if bool_decide (storage.hash b = hash) then
        do! d <- resolve_block_data b;
        match d with
        | Some data => se_ret (Some data)
        | None => read_loop hash bs'
        end
      else read_loop hash bs'
  end.

Definition read_block (name hash : bytes) : M bytes :=
  run! check_hash hash;
  do! v <- get (StoreKeys.file_key name);
  do! found <- match v with
               | Some b =>
                   do! file <- corrupt "decode File" (decode b);
                   match storage.file_info file with
                   | Some fi => read_loop hash (storage.blocks fi)
                   | None => se_ret None
                   end
               | None => se_ret None
               end;
  match found with
  | Some d => se_ret d
  | None => se_err (StorageError.NotFound "block not found")
  end.

Definition has_block (hash : bytes) : M bool :=
  if negb (Nat.eqb (length hash) StoreKeys.HASH_LEN) then se_ret false
  else
    do! sc <- on_db (db_scan_prefix (StoreKeys.block_reverse_prefix hash));
    match scan_items sc with
    | [] => run! end_of_scan sc; se_ret false
    | _ :: _ => do! s <- se_get; se_ret (GcState.is_block_safe (gc s) hash)
    end.

Definition close : M unit := on_db db_close.

End Store.

Arguments FolderStore : clear implicits.

End Store.
