(* ===== verification/StoreTape.v ===== *)
(** A concrete protobuf stand-in for the stored messages, built from [Tape]. It
    shows that the codec laws of the store can hold, and lets the store run in
    the witnesses. *)

From Stdlib Require Import ZArith Lia.
From stdpp Require Import base gmap list strings.
From S2P Require Import Prelude BepTypes Codec GcState Kv Store.

Local Open Scope Z_scope.

Module StoreTape.
Import Tape storage.

Program Definition t_counter : tape Counter :=
  tmap (tpair tZ tZ) (fun c => (id c, value c)) (fun p => mkCounter (fst p) (snd p)) _.
Next Obligation. by intros []. Qed.

Program Definition t_vector : tape Vector :=
  tmap (tlist t_counter) counters mkVector _.
Next Obligation. by intros []. Qed.

Program Definition t_block : tape BlockInfo :=
  tmap (tpair (tpair tbytes (tpair tZ tZ)) (tpair (toption tZ) (toption tbytes)))
    (fun b => ((hash b, (offset b, bsize b)), (blockseq b, inline_data b)))
    (fun p => mkBlockInfo (fst (fst p)) (fst (snd (fst p))) (snd (snd (fst p)))
                (fst (snd p)) (snd (snd p))) _.
Next Obligation. by intros []. Qed.

Program Definition t_unix : tape UnixData :=
  tmap (tpair (tpair tbytes tbytes) (tpair tZ tZ))
    (fun u => ((unix_owner_name u, group_name u), (uid u, gid u)))
    (fun p => mkUnixData (fst (fst p)) (snd (fst p)) (fst (snd p)) (snd (snd p))) _.
Next Obligation. by intros []. Qed.

Program Definition t_windows : tape WindowsData :=
  tmap (tpair tbytes tbool) (fun w => (win_owner_name w, owner_is_group w))
    (fun p => mkWindowsData (fst p) (snd p)) _.
Next Obligation. by intros []. Qed.

Program Definition t_xattrs : tape XattrData :=
  tmap (tlist (tmap (tpair tbytes tbytes) (fun x => (xname x, xvalue x))
                 (fun p => mkXattr (fst p) (snd p)) _)) xattrs mkXattrData _.
Next Obligation. by intros []. Qed.
Next Obligation. by intros []. Qed.

Program Definition t_platform : tape PlatformData :=
  tmap (tpair (tpair (toption t_unix) (toption t_windows))
              (tpair (tpair (toption t_xattrs) (toption t_xattrs))
                     (tpair (toption t_xattrs) (toption t_xattrs))))
    (fun d => ((unix d, windows d), ((linux d, darwin d), (freebsd d, netbsd d))))
    (fun p => mkPlatformData (fst (fst p)) (snd (fst p)) (fst (fst (snd p))) (snd (fst (snd p)))
                (fst (snd (snd p))) (snd (snd (snd p)))) _.
Next Obligation. by intros []. Qed.

(** The fields of a file in three groups. *)
Program Definition t_file_info : tape FileInfo :=
  tmap (tpair
         (tpair (tpair tbytes (tpair tZ (tpair tZ tZ)))
                (tpair (toption t_vector) (tpair tZ (tpair (tlist t_block) tbytes))))
         (tpair
           (tpair (tpair tbytes (tpair tbytes (tpair tbytes tZ)))
                  (tpair tZ (tpair tZ (tpair tZ (toption t_platform)))))
           (tpair (tpair tZ (tpair tbytes (tpair tZ tZ)))
                  (tpair tbool (tpair tbool tbool)))))
    (fun f =>
      (((name f, (size f, (modified_s f, modified_by f))),
        (version f, (sequence f, (blocks f, symlink_target f)))),
       (((blocks_hash f, (previous_blocks_hash f, (encrypted f, type_ f))),
         (permissions f, (modified_ns f, (block_size f, platform f)))),
        ((local_flags f, (version_hash f, (inode_change_ns f, encryption_trailer_size f))),
         (deleted f, (invalid f, no_permissions f))))))
    (fun '(((a, (b, (c, d))), (e, (g, (h, i)))),
           (((j, (k, (l, m))), (n, (o, (p, q)))), ((r, (s, (t, u))), (v, (w, x))))) =>
      mkFileInfo a b c d e g h i j k l m n o p q r s t u v w x) _.
Next Obligation. by intros []. Qed.

Program Definition t_file : tape File :=
  tmap (toption t_file_info) file_info mkFile _.
Next Obligation. by intros []. Qed.

Program Definition t_inbox : tape Inbox :=
  tmap (toption t_file_info) inbox_file_info mkInbox _.
Next Obligation. by intros []. Qed.

Program Definition t_block_ref : tape BlockRef := tmap tZ seqno mkBlockRef _.
Next Obligation. by intros []. Qed.

Program Definition t_index_meta : tape FolderIndexMeta :=
  tmap (tpair tZ (toption tZ)) (fun m => (max_sequence m, next_blockseq m))
    (fun p => mkFolderIndexMeta (fst p) (snd p)) _.
Next Obligation. by intros []. Qed.

Program Definition t_remote_state : tape RemoteIndexState :=
  tmap (tpair tZ tZ) (fun m => (index_id m, remote_max_sequence m))
    (fun p => mkRemoteIndexState (fst p) (snd p)) _.
Next Obligation. by intros []. Qed.

Definition codecs : StoreCodecs :=
  Build_StoreCodecs (codec t_file) (codec t_inbox) (codec t_block_ref) (codec t_index_meta)
    (codec t_remote_state).

Definition laws : @StoreCodecLaws codecs.
Proof. split; apply codec_laws. Defined.

(** An empty in-memory store. *)
Abbreviation HFilter := (GcState.ListFilter bytes).
Abbreviation SFilter := (GcState.ListFilter Z).

Definition empty_store : Store.FolderStore Kv.MapDb HFilter SFilter :=
  Store.mkStore (Kv.mkMapDb ∅ None) GcState.new (Store.mkRange 0 0).

(** A small wire file: name, version counter and blocks. *)
Definition sample (n : bytes) (v : Z) (bs : list bep.BlockInfo) : bep.FileInfo :=
  bep.mkFileInfo n (Z.of_nat (length bs)) 0 0 (Some (bep.mkVector [bep.mkCounter 1 v])) 0 bs [] [] [] []
    0 0 0 0 None 0 [] 0 0 false false false.

End StoreTape.
