(* ===== verification/StoreWp.v ===== *)
(** Reasoning about store operations: what a read-only operation returns as a
    function of the contents ([reads_as]), the effect of a write, and the rules
    that compose them. Database failures are part of every rule. *)

From Stdlib Require Import ZArith Lia.
From stdpp Require Import base gmap list strings.
From S2P Require Import Prelude BepTypes Base32 StoreKeys Codec ProtoConv Kv GcState Store.

Local Open Scope Z_scope.
Local Open Scope bep_scope.

Module StoreWp.
Import Kv Store.

Section Wp.
Context {Db : Type} `{!SlateDb Db} {SC : StoreCodecs}.
Context {HF SF : Type} `{!Bloom bytes HF} `{!Bloom Z SF}.
Abbreviation FS := (FolderStore Db HF SF).
Abbreviation GC := (GcState.CompactionState HF SF).

(** ** Observations *)

Definition cts (s : FS) : contents := db_contents (db s).
Definition healthy (s : FS) : Prop := db_healthy (db s).

(** [s'] is [s] after reads: the same contents and memory state. *)
Record sim (s s' : FS) : Prop := mkSim {
  sim_cts : cts s' = cts s;
  sim_gc : gc s' = gc s;
  sim_blockseq : blockseq s' = blockseq s;
  sim_healthy : healthy s -> healthy s'
}.

#[export] Instance sim_preorder : PreOrder sim.
Proof.
  split.
  - intros s. by constructor.
  - intros a b c [] []. constructor; [congruence..|auto].
Qed.

(** The operation only reads, and returns [F] of the contents unless the
    database fails. *)
Record reads_as {A} (m : M A) (F : contents -> GC -> result StorageError.t A) : Prop := mkReads {
  reads_run : forall s : FS, sim s (fst (m s)) /\
    (snd (m s) = F (cts s) (gc s) \/ (~ healthy s /\ is_ok (snd (m s)) = false))
}.

Lemma reads_as_ext {A} (m : M A) (F G : contents -> GC -> result StorageError.t A) :
  (forall c g, F c g = G c g) -> reads_as m F -> reads_as m G.
Proof. intros E [H]. constructor. intros s. destruct (H s) as [? [?|?]]; split; auto. left. by rewrite <- E. Qed.

Lemma reads_as_ret {A} (a : A) : reads_as (se_ret a) (fun _ _ => Ok a).
Proof. constructor. intros s. split; [done|by left]. Qed.

Lemma reads_as_lift {A} (r : result StorageError.t A) : reads_as (se_lift r) (fun _ _ => r).
Proof. constructor. intros s. split; [done|by left]. Qed.

Lemma reads_as_err {A} e : reads_as (A := A) (se_err e) (fun _ _ => Err e).
Proof. constructor. intros s. split; [done|by left]. Qed.

Lemma reads_as_bind {A B} (m : M A) (k : A -> M B) F G :
  reads_as m F -> (forall a, reads_as (k a) (G a)) ->
  reads_as (se_bind m k) (fun c g => try a <- F c g; G a c g).
Proof.
  intros [Hm] Hk. constructor. intros s. destruct (Hm s) as [Hs Hr]. unfold se_bind. destruct (m s) as [s1 r].
  cbn [fst snd] in *. destruct Hr as [->|[Hh He]].
  - destruct (F (cts s) (gc s)) as [a|e]; cbn [rbind]; [|by split; [|left]].
    destruct (Hk a) as [Hka]. destruct (Hka s1) as [Hs' Hr']. split; [by etrans|].
    destruct Hr' as [->|[Hh He]]; [left; by rewrite (sim_cts _ _ Hs), (sim_gc _ _ Hs)|right].
    split; [|done]. intros Hh'. by apply Hh, Hs.
  - destruct r; [done|]. split; [done|by right].
Qed.

Lemma reads_as_option {A B} (o : option A) (k : A -> M B) (m0 : M B)
  (F : A -> contents -> GC -> result StorageError.t B) F0 :
  (forall a, reads_as (k a) (F a)) -> reads_as m0 F0 ->
  reads_as (match o with Some a => k a | None => m0 end)
           (fun c g => match o with Some a => F a c g | None => F0 c g end).
Proof. intros Hk H0. destruct o; [apply Hk|apply H0]. Qed.

Lemma reads_as_if {B} (b : bool) (m1 m2 : M B) (F1 F2 : contents -> GC -> result StorageError.t B) :
  reads_as m1 F1 -> reads_as m2 F2 ->
  reads_as (if b then m1 else m2) (fun c g => if b then F1 c g else F2 c g).
Proof. by destruct b. Qed.

(** The pure fold of [for_each]. *)
Fixpoint rfold {A} (items : list (bytes * bytes)) (acc : A)
  (body : A -> bytes * bytes -> result StorageError.t A) : result StorageError.t A :=
  match items with
  | [] => Ok acc
  | kv :: items' => try acc' <- body acc kv; rfold items' acc' body
  end.

Lemma reads_as_for_each {A} (items : list (bytes * bytes)) (acc : A) (body : A -> bytes * bytes -> M A)
  (G : A -> bytes * bytes -> contents -> GC -> result StorageError.t A) :
  (forall a kv, reads_as (body a kv) (G a kv)) ->
  reads_as (for_each items acc body) (fun c g => rfold items acc (fun a kv => G a kv c g)).
Proof.
  intros Hb. revert acc. induction items as [|kv items IH]; intros acc; cbn [for_each rfold].
  - apply reads_as_ret.
  - apply (reads_as_bind _ _ _ (fun a c g => rfold items a (fun a kv => G a kv c g))); auto.
Qed.

(** ** Weakest preconditions *)

Lemma wp_reads {A} (m : M A) F (Q : FS -> result StorageError.t A -> Prop) s :
  reads_as m F ->
  (forall s', sim s s' -> Q s' (F (cts s) (gc s))) ->
  (forall s' e, sim s s' -> ~ healthy s -> Q s' (Err e)) ->
  wp m Q s.
Proof.
  intros [Hm] H1 H2. unfold wp. destruct (Hm s) as [Hs [->|[Hh He]]]; [auto|].
  destruct (snd (m s)); [done|auto].
Qed.

(** A read followed by a continuation. *)
Lemma wp_reads_bind {A B} (m : M A) (k : A -> M B) F (Q : FS -> result StorageError.t B -> Prop) s :
  reads_as m F ->
  (forall s', sim s s' ->
     match F (cts s) (gc s) with Ok a => wp (k a) Q s' | Err e => Q s' (Err e) end) ->
  (forall s' e, sim s s' -> ~ healthy s -> Q s' (Err e)) ->
  wp (se_bind m k) Q s.
Proof.
  intros Hm H1 H2. apply wp_bind. eapply wp_reads; [exact Hm| |]; [|auto].
  intros s' Hs. by apply H1.
Qed.

(** The state after a write of batch [b] from [s]. *)
Record wrote (b : list BatchOp) (s s' : FS) : Prop := mkWrote {
  wrote_cts : cts s' = apply_batch b (cts s);
  wrote_gc : gc s' = gc s;
  wrote_blockseq : blockseq s' = blockseq s;
  wrote_healthy : healthy s -> healthy s'
}.

Lemma sim_wrote b s s1 s2 : sim s s1 -> wrote b s1 s2 -> wrote b s s2.
Proof. intros [E1 E2 E3 H] [F1 F2 F3 H']. constructor; [congruence..|auto]. Qed.

Context `{!SlateDbLaws Db}.

Lemma get_reads k : reads_as (get k) (fun c _ => Ok (c !! k)).
Proof.
  constructor. intros s. destruct (db_get_reads k (db s)) as (Hc & Hh & Hr).
  unfold get, on_db. destruct (db_get k (db s)) as [d [v|e]]; cbn [fst snd map_err] in *.
  - split; [constructor; try done; intros H; by apply Hh|]. left. by rewrite (Hr v eq_refl).
  - split; [constructor; try done; intros H; by apply Hh|]. right. split; [|done].
    intros H. by apply Hh in H as [_ ?].
Qed.

Lemma flush_reads : reads_as (on_db db_flush) (fun _ _ => Ok tt).
Proof.
  constructor. intros s. destruct (db_flush_reads (db s)) as (Hc & Hh & Hr).
  unfold on_db. destruct (db_flush (db s)) as [d [[]|e]]; cbn [fst snd map_err] in *.
  - split; [constructor; try done; intros H; by apply Hh|]. by left.
  - split; [constructor; try done; intros H; by apply Hh|]. right. split; [|done].
    intros H. by apply Hh in H as [_ ?].
Qed.

Lemma corrupt_reads {A} msg (o : option A) :
  reads_as (corrupt msg o) (fun _ _ => ok_or o (StorageError.Corruption msg)).
Proof. apply reads_as_lift. Qed.

(** A scan that runs to its end reads exactly the entries of its range. *)
Lemma scan_iterate_reads {A : Type} (m : SE Db SlateError Scan) (P : bytes -> bool) (acc : A)
  (body : A -> bytes * bytes -> M A) (G : A -> bytes * bytes -> contents -> GC -> result StorageError.t A) :
  scans m P -> (forall a kv, reads_as (body a kv) (G a kv)) ->
  forall s : FS,
    let m' := se_bind (on_db m) (fun sc => iterate sc acc body) in
    sim s (fst (m' s)) /\
    (snd (m' s) = rfold (entries P (cts s)) acc (fun a kv => G a kv (cts s) (gc s)) \/
     (exists e items rest, entries P (cts s) = items ++ rest /\
        rfold items acc (fun a kv => G a kv (cts s) (gc s)) = Err e /\ snd (m' s) = Err e) \/
     (~ healthy s /\ is_ok (snd (m' s)) = false)).
Proof.
  intros [Hread Hend] Hb s m'. destruct (Hread (db s)) as (Hc & Hh & Hr).
  unfold m', se_bind, on_db. clear m'. specialize (Hend (db s)).
  destruct (m (db s)) as [d [sc|e]]; cbn [fst snd map_err] in *.
  2:{ split; [constructor; try done; intros H; by apply Hh|]. right. right. split; [|done].
      intros H. by apply Hh in H as [_ ?]. }
  destruct (Hr sc eq_refl) as (rest & E & Hrest). unfold cts, healthy in *.
  set (s1 := mkStore d (gc s) (blockseq s) : FS).
  assert (sim s s1) as Hs1 by (constructor; try done; intros H; by apply Hh).
  pose proof (reads_run _ _ (reads_as_for_each (scan_items sc) acc body G Hb) s1) as [Hs2 Hr2].
  unfold iterate, se_bind. fold s1. destruct (for_each _ _ _ s1) as [s2 r2]. cbn [fst snd] in *.
  assert (sim s s2) as Hss2 by (by etrans). unfold cts, s1 in Hr2. cbn [db gc] in Hr2. rewrite Hc in Hr2.
  destruct Hr2 as [->|[Hh2 He2]].
  - destruct (rfold (scan_items sc) _ _) as [a|e] eqn:Ef.
    + unfold end_of_scan, se_ret, se_err.
      destruct (scan_error sc) as [e|] eqn:Es; cbn [fst snd].
      * split; [done|]. right. right. split; [|done]. intros H. specialize (Hend sc H eq_refl). congruence.
      * split; [done|]. left. rewrite E, Hrest, app_nil_r by done. by rewrite Ef.
    + cbn [fst snd]. split; [done|]. right. left. exists e, (scan_items sc), rest. done.
  - destruct r2; [done|]. cbn [fst snd]. split; [done|]. right. right. split; [|done].
    intros H. apply Hh2. by apply Hs1.
Qed.

Lemma rfold_rows {A B : Type} (R : bytes * bytes -> B -> Prop) (g : B -> A) items (l : list B) acc
  (body : list A -> bytes * bytes -> result StorageError.t (list A)) :
  Forall2 R items l ->
  (forall acc kv x, R kv x -> body acc kv = Ok (acc ++ [g x])) ->
  rfold items acc body = Ok (acc ++ map g l).
Proof.
  intros Hl Hb. revert acc. induction Hl as [|kv x items l Hkv Hl IH]; intros acc; cbn [rfold map].
  - by rewrite app_nil_r.
  - rewrite (Hb acc kv x Hkv). cbn [rbind]. rewrite IH. by rewrite <- app_assoc.
Qed.

(** A scan whose rows all decode collects them in key order. *)
Lemma scan_rows {A B : Type} (m : SE Db SlateError Scan) (P : bytes -> bool)
  (body : list A -> bytes * bytes -> M (list A))
  (G : list A -> bytes * bytes -> contents -> GC -> result StorageError.t (list A))
  (R : bytes * bytes -> B -> Prop) (g : B -> A) (s : FS) (l : list B) :
  scans m P -> (forall a kv, reads_as (body a kv) (G a kv)) ->
  Forall2 R (entries P (cts s)) l ->
  (forall acc kv x, R kv x -> G acc kv (cts s) (gc s) = Ok (acc ++ [g x])) ->
  wp (se_bind (on_db m) (fun sc => iterate sc [] body))
     (fun s' r => sim s s' /\ (r = Ok (map g l) \/ (~ healthy s /\ is_ok r = false))) s.
Proof.
  intros Hm Hb Hl HG. unfold wp.
  destruct (scan_iterate_reads m P [] body G Hm Hb s) as [Hs [E|[(e & items & rest & E & Ef & _)|Hf]]].
  - split; [done|left]. rewrite E. by rewrite (rfold_rows R g _ l).
  - rewrite E in Hl. apply Forall2_app_inv_l in Hl as (l1 & l2 & Hl1 & _ & _).
    by rewrite (rfold_rows R g _ l1) in Ef.
  - split; [done|by right].
Qed.

Lemma wp_write b (Q : FS -> result StorageError.t unit -> Prop) s :
  (forall s', wrote b s s' -> Q s' (Ok tt)) ->
  (forall s' e, sim s s' \/ wrote b s s' -> ~ healthy s -> Q s' (Err e)) ->
  wp (write_non_durable b) Q s.
Proof.
  intros H1 H2. destruct (db_write_writes b (db s)) as (Hc & Hh).
  unfold wp, write_non_durable, on_db. destruct (db_write b (db s)) as [d [[]|e]];
    cbn [fst snd map_err] in *.
  - apply H1. destruct Hc as [Hc|[_ ?]]; [|done]. constructor; try done. intros H. by apply Hh.
  - apply H2; [|intros H; by apply Hh in H as [_ ?]].
    destruct Hc as [Hc|[Hc _]]; [right|left]; constructor; try done; intros H; by apply Hh.
Qed.

Lemma wp_put k v (Q : FS -> result StorageError.t unit -> Prop) s :
  (forall s', wrote [BPut k v] s s' -> Q s' (Ok tt)) ->
  (forall s' e, sim s s' \/ wrote [BPut k v] s s' -> ~ healthy s -> Q s' (Err e)) ->
  wp (put_non_durable k v) Q s.
Proof.
  intros H1 H2. destruct (db_put_writes k v (db s)) as (Hc & Hh).
  unfold wp, put_non_durable, on_db. destruct (db_put k v (db s)) as [d [[]|e]];
    cbn [fst snd map_err] in *.
  - apply H1. destruct Hc as [Hc|[_ ?]]; [|done]. constructor; try done. intros H. by apply Hh.
  - apply H2; [|intros H; by apply Hh in H as [_ ?]].
    destruct Hc as [Hc|[Hc _]]; [right|left]; constructor; try done; intros H; by apply Hh.
Qed.

End Wp.

(** Decomposes a read-only operation; the function it leaves is compared with
    the stated one by computation. *)
Ltac reads_step :=
  first
    [ apply get_reads | apply flush_reads | apply corrupt_reads | apply reads_as_ret
    | apply reads_as_lift | apply reads_as_err
    | assumption
    | eapply reads_as_bind; [|intros ?]
    | eapply reads_as_option; [intros ?|]
    | apply reads_as_if ].

Ltac reads :=
  eapply reads_as_ext; [|solve [repeat (cbv beta; reads_step)]]; intros; try reflexivity.

End StoreWp.
