(* ===== verification/StoreIndex.v ===== *)
(** The file index of the store refines an abstract index.

    The abstract index is a map from names to files and the highest sequence
    number; a commit puts a file under the next number, a delta query returns
    the files above a number in number order. [Index] relates it to the rows of
    the database: one [mn] row per file, one [ms] row per sequence number in
    use, the [mx] row. The operations of [Store] are proved to implement the
    abstract ones, also when the database fails. *)

From Stdlib Require Import ZArith Lia Sorting.Sorted.
From stdpp Require Import base gmap list strings.
From S2P Require Import Prelude BepTypes Base32 StoreKeys Codec ProtoConv Kv GcState Store StoreTape StoreWp.

Local Open Scope Z_scope.
Local Open Scope bep_scope.

Module StoreIndex.
Import Kv StoreKeys Store StoreWp.

(** ** Logical rows *)

Lemma lookup_put (m : contents) (K K' : Key) (v : bytes) :
  key_ok K -> key_ok K' ->
  <[encode_key K := v]> m !! encode_key K' = if decide (K = K') then Some v else m !! encode_key K'.
Proof.
  intros HK HK'. case_decide as E; [subst; apply lookup_insert_eq|].
  apply lookup_insert_ne. intros E'. by apply E, encode_key_inj.
Qed.

Lemma lookup_del (m : contents) (K K' : Key) :
  key_ok K -> key_ok K' ->
  delete (encode_key K) m !! encode_key K' = if decide (K = K') then None else m !! encode_key K'.
Proof.
  intros HK HK'. case_decide as E; [subst; apply lookup_delete_eq|].
  apply lookup_delete_ne. intros E'. by apply E, encode_key_inj.
Qed.

(** Every key of the database is the encoding of a logical key. *)
Definition keys_wf (m : contents) : Prop :=
  forall k v, m !! k = Some v -> exists K, key_ok K /\ k = encode_key K.

(** A batch on logical keys that satisfy [P]. *)
Definition ops_on (P : Key -> Prop) (b : list BatchOp) : Prop :=
  Forall (fun o => exists K, key_ok K /\ P K /\ op_key o = encode_key K) b.

Lemma ops_on_other (P : Key -> Prop) (b : list BatchOp) (m : contents) (K : Key) :
  ops_on P b -> key_ok K -> ~ P K -> apply_batch b m !! encode_key K = m !! encode_key K.
Proof.
  intros Hb HK HP. apply apply_batch_other. intros (o & E & Ho)%list_elem_of_fmap.
  unfold ops_on in Hb. rewrite Forall_forall in Hb. destruct (Hb o Ho) as (K' & HK' & HP' & E').
  rewrite E' in E. apply encode_key_inj in E; [|done..]. by subst.
Qed.

Lemma keys_wf_batch (P : Key -> Prop) (b : list BatchOp) (m : contents) : ops_on P b -> keys_wf m -> keys_wf (apply_batch b m).
Proof.
  intros Hb Hm k v [Hin|H]%apply_batch_inv; [|by eapply Hm].
  unfold ops_on in Hb. rewrite Forall_forall in Hb. destruct (Hb _ Hin) as (K & ? & _ & E).
  by exists K.
Qed.

Lemma ops_on_app (P : Key -> Prop) (b1 b2 : list BatchOp) : ops_on P b1 -> ops_on P b2 -> ops_on P (b1 ++ b2).
Proof. intros. by apply Forall_app. Qed.

Lemma ops_on_mono (P Q : Key -> Prop) (b : list BatchOp) : (forall K, P K -> Q K) -> ops_on P b -> ops_on Q b.
Proof.
  intros H Hb. eapply Forall_impl; [exact Hb|]. simpl. intros o (K & ? & ? & ?). exists K. auto.
Qed.

(** Rows that are not part of the index. *)
Definition foreign (K : Key) : Prop :=
  match K with KFile _ | KSeq _ | KIx => False | _ => True end.

Section Index.
Context {Db : Type} `{!SlateDb Db} {SC : StoreCodecs}.
Context {HF SF : Type} `{!Bloom bytes HF} `{!Bloom Z SF}.
Context `{!SlateDbLaws Db} {SL : StoreCodecLaws}.

Abbreviation idx_t := (gmap bytes storage.FileInfo).

Definition file_bytes (f : storage.FileInfo) : bytes := encode (storage.mkFile (Some f)).

Definition meta_of (m : contents) : storage.FolderIndexMeta :=
  match m !! IX_KEY with
  | Some b => default storage.FolderIndexMeta_default (decode b)
  | None => storage.FolderIndexMeta_default
  end.

Record Index (m : contents) (max : Z) (idx : idx_t) : Prop := mkIndex {
  ix_keys : keys_wf m;
  ix_file : forall n, name_ok n -> m !! encode_key (KFile n) = file_bytes <$> idx !! n;
  ix_seq : forall q n, u64_ok q ->
    m !! encode_key (KSeq q) = Some n <-> exists f, idx !! n = Some f /\ storage.sequence f = q;
  ix_idx : forall n f, idx !! n = Some f ->
    name_ok n /\ storage.name f = n /\ 0 < storage.sequence f <= max /\
    is_ok (ProtoConv.file_to_bep f) = true;
  ix_meta : (forall b, m !! IX_KEY = Some b -> exists meta : storage.FolderIndexMeta, b = encode meta) /\
            storage.max_sequence (meta_of m) = max;
  ix_max : 0 <= max <= I64_MAX
}.

Lemma Index_empty : Index ∅ 0 ∅.
Proof.
  constructor; try done.
  intros q n _. split; [by rewrite lookup_empty|]. intros (f & H & _). by rewrite lookup_empty in H.
Qed.

Lemma seq_u64 q max : 0 < q <= max -> max <= I64_MAX -> u64_ok q.
Proof. unfold u64_ok, I64_MAX. lia. Qed.

(** Two files never share a sequence number. *)
Lemma Index_seq_inj (m : contents) (max : Z) (idx : idx_t) (n n' : bytes) (f f' : storage.FileInfo) :
  Index m max idx -> idx !! n = Some f -> idx !! n' = Some f' ->
  storage.sequence f = storage.sequence f' -> n = n'.
Proof.
  intros H Hn Hn' E. destruct (ix_idx _ _ _ H n f Hn) as (_ & _ & Hq & _).
  pose proof (seq_u64 _ _ Hq (proj2 (ix_max _ _ _ H))) as Hu.
  assert (m !! encode_key (KSeq (storage.sequence f)) = Some n) as E1
    by (apply (ix_seq _ _ _ H); eauto).
  assert (m !! encode_key (KSeq (storage.sequence f)) = Some n') as E2
    by (apply (ix_seq _ _ _ H); [done|exists f'; by split]).
  congruence.
Qed.

(** ** Effect of batches on the index *)

Lemma Index_foreign (b : list BatchOp) (m : contents) (max : Z) (idx : idx_t) :
  ops_on foreign b -> Index m max idx -> Index (apply_batch b m) max idx.
Proof.
  intros Hb H.
  assert (forall K, key_ok K -> ~ foreign K ->
            apply_batch b m !! encode_key K = m !! encode_key K) as Hk
    by (intros; by eapply ops_on_other).
  constructor.
  - eapply keys_wf_batch; [done|apply H].
  - intros n Hn. rewrite Hk by (done || (intros [])). by apply H.
  - intros q n Hq. rewrite Hk by (done || (intros [])). by apply H.
  - apply H.
  - unfold meta_of. change IX_KEY with (encode_key KIx). rewrite Hk by (done || (intros [])). apply H.
  - apply H.
Qed.

(** A new [mx] row with the same maximum. *)
Lemma Index_meta (m : contents) (max : Z) (idx : idx_t) (meta : storage.FolderIndexMeta) :
  Index m max idx -> storage.max_sequence meta = max ->
  Index (<[IX_KEY := encode meta]> m) max idx.
Proof.
  intros H Hm. change IX_KEY with (encode_key KIx). constructor.
  - intros k v [[<- _]|[_ ?]]%lookup_insert_Some; [by exists KIx|by eapply H].
  - intros n Hn. rewrite lookup_put by done. rewrite decide_False by done. by apply H.
  - intros q n Hq. rewrite lookup_put by done. rewrite decide_False by done. by apply H.
  - apply H.
  - unfold meta_of. change IX_KEY with (encode_key KIx). rewrite lookup_insert_eq. split.
    + intros b [= <-]. by exists meta.
    + by rewrite decode_encode.
  - apply H.
Qed.

(** A file row rewritten with the same name, number and type. *)
Lemma Index_update (m : contents) (max : Z) (idx : idx_t) (n : bytes) (f f' : storage.FileInfo) :
  Index m max idx -> idx !! n = Some f ->
  storage.name f' = storage.name f -> storage.sequence f' = storage.sequence f ->
  storage.type_ f' = storage.type_ f ->
  Index (<[encode_key (KFile n) := file_bytes f']> m) max (<[n := f']> idx).
Proof.
  intros H Hn E1 E2 E3. destruct (ix_idx _ _ _ H n f Hn) as (Hok & Hname & Hq & Ht). constructor.
  - intros k v [[<- _]|[_ ?]]%lookup_insert_Some; [by exists (KFile n)|by eapply H].
  - intros n' Hn'. rewrite lookup_put by done. destruct (decide (n = n')) as [<-|Hne].
    + by rewrite decide_True, lookup_insert_eq.
    + rewrite decide_False, lookup_insert_ne by congruence. by apply H.
  - intros q n' Hu. rewrite lookup_put by done. rewrite decide_False by done.
    rewrite (ix_seq _ _ _ H q n' Hu). destruct (decide (n = n')) as [<-|Hne].
    + rewrite lookup_insert_eq, Hn. split; intros (g & [= <-] & <-); eauto.
    + by rewrite lookup_insert_ne.
  - intros n' g [[<- <-]|[_ ?]]%lookup_insert_Some; [|by apply H].
    split; [done|]. split; [congruence|]. split; [by rewrite E2|].
    revert Ht. unfold ProtoConv.file_to_bep. rewrite E3. by destruct (ProtoConv.storage_type_to_bep _).
  - unfold meta_of. change IX_KEY with (encode_key KIx).
    rewrite lookup_put by done. rewrite decide_False by done. apply H.
  - apply H.
Qed.

(** The row of the prior version's number. *)
Definition drop_old (prior : option storage.FileInfo) : list BatchOp :=
  match prior with
  | Some old => [BDelete (encode_key (KSeq (storage.sequence old)))]
  | None => []
  end.

Definition commit_rows (n : bytes) (f : storage.FileInfo) (meta : storage.FolderIndexMeta)
  (prior : option storage.FileInfo) : list BatchOp :=
  drop_old prior ++
  [BPut (encode_key KIx) (encode meta);
   BPut (encode_key (KFile n)) (file_bytes f);
   BPut (encode_key (KSeq (storage.sequence f))) n].

Lemma drop_old_lookup (m : contents) (max : Z) (idx : idx_t) (n : bytes) (K : Key) :
  Index m max idx -> key_ok K ->
  apply_batch (drop_old (idx !! n)) m !! encode_key K =
    match K, idx !! n with
    | KSeq q, Some old => if decide (q = storage.sequence old) then None else m !! encode_key K
    | _, _ => m !! encode_key K
    end.
Proof.
  intros H HK. destruct (idx !! n) as [old|] eqn:Hn; [|by destruct K].
  cbn [drop_old apply_batch fold_left apply_op].
  destruct (ix_idx _ _ _ H n old Hn) as (_ & _ & Hq & _).
  pose proof (seq_u64 _ _ Hq (proj2 (ix_max _ _ _ H))) as Hu.
  rewrite lookup_del by done. destruct K; try (by rewrite decide_False).
  destruct (decide (seq = storage.sequence old)) as [->|]; [by rewrite decide_True|].
  by rewrite decide_False by congruence.
Qed.

(** The heart of the refinement: the rows of a commit implement the abstract
    commit. *)
Lemma Index_commit (m : contents) (max : Z) (idx : idx_t) (n : bytes) (f : storage.FileInfo)
  (meta : storage.FolderIndexMeta) :
  Index m max idx -> name_ok n -> storage.name f = n -> storage.sequence f = max + 1 ->
  max < I64_MAX -> is_ok (ProtoConv.file_to_bep f) = true -> storage.max_sequence meta = max + 1 ->
  Index (apply_batch (commit_rows n f meta (idx !! n)) m) (max + 1) (<[n := f]> idx).
Proof.
  intros H Hok Hname Hseq Hmax Ht Hmeta.
  pose proof (ix_max _ _ _ H) as Hm.
  assert (u64_ok (max + 1)) as Hu by (unfold u64_ok, I64_MAX in *; lia).
  unfold commit_rows. rewrite apply_batch_app. set (m0 := apply_batch (drop_old _) m).
  unfold apply_batch. cbn [fold_left apply_op]. rewrite Hseq.
  assert (forall K, key_ok K ->
    <[encode_key (KSeq (max + 1)) := n]>
      (<[encode_key (KFile n) := file_bytes f]> (<[encode_key KIx := encode meta]> m0)) !! encode_key K =
    if decide (K = KSeq (max + 1)) then Some n
    else if decide (K = KFile n) then Some (file_bytes f)
    else if decide (K = KIx) then Some (encode meta) else m0 !! encode_key K) as Hl.
  { intros K HK. rewrite !lookup_put by done.
    repeat (case_decide; subst; try done). }
  constructor.
  - intros k v Hk.
    apply lookup_insert_Some in Hk as [[<- _]|[_ Hk]]; [by exists (KSeq (max + 1))|].
    apply lookup_insert_Some in Hk as [[<- _]|[_ Hk]]; [by exists (KFile n)|].
    apply lookup_insert_Some in Hk as [[<- _]|[_ Hk]]; [by exists KIx|].
    unfold m0 in Hk. apply apply_batch_inv in Hk as [Hin|Hk]; [|by eapply H].
    destruct (idx !! n); simpl in Hin; [|by apply not_elem_of_nil in Hin].
    by apply list_elem_of_singleton in Hin.
  - intros n' Hn'. rewrite Hl by done. rewrite decide_False by done.
    destruct (decide (n = n')) as [<-|Hne].
    + by rewrite decide_True, lookup_insert_eq.
    + rewrite decide_False by congruence. rewrite decide_False by done.
      rewrite lookup_insert_ne by done. unfold m0. rewrite (drop_old_lookup m max idx) by done. by apply H.
  - intros q n' Hq. rewrite Hl by done. destruct (decide (q = max + 1)) as [->|Hqm].
    + rewrite decide_True by done. split.
      * intros [= <-]. exists f. by rewrite lookup_insert_eq.
      * intros (g & [[<- <-]|[Hne Hg]]%lookup_insert_Some & Hg'); [done|].
        destruct (ix_idx _ _ _ H n' g Hg) as (_ & _ & ? & _). lia.
    + rewrite decide_False by congruence. rewrite !decide_False by done.
      unfold m0. rewrite (drop_old_lookup m max idx) by done. destruct (idx !! n) as [old|] eqn:Hn.
      * case_decide as Eq; subst.
        -- split; [done|]. intros (g & [[<- <-]|[Hne Hg]]%lookup_insert_Some & Hg'); [congruence|].
           exfalso. apply Hne. by eapply (Index_seq_inj m max idx).
        -- rewrite (ix_seq _ _ _ H q n' Hq). split.
           ++ intros (g & Hg & Hgq). exists g. split; [|done]. rewrite lookup_insert_ne; [done|].
              intros <-. congruence.
           ++ intros (g & [[<- <-]|[Hne Hg]]%lookup_insert_Some & Hg'); [congruence|eauto].
      * rewrite (ix_seq _ _ _ H q n' Hq). split.
        -- intros (g & Hg & Hgq). exists g. split; [|done]. rewrite lookup_insert_ne; [done|].
           intros <-. congruence.
        -- intros (g & [[<- <-]|[Hne Hg]]%lookup_insert_Some & Hg'); [congruence|eauto].
  - intros n' g [[<- <-]|[Hne Hg]]%lookup_insert_Some.
    + rewrite Hseq. split_and!; try done; lia.
    + destruct (ix_idx _ _ _ H n' g Hg) as (? & ? & ? & ?). split_and!; try done; lia.
  - unfold meta_of. change IX_KEY with (encode_key KIx). rewrite Hl by done.
    rewrite decide_False by done. rewrite decide_False by done. rewrite decide_True by done. split.
    + intros b [= <-]. by exists meta.
    + by rewrite decode_encode.
  - lia.
Qed.

(** ** Reads *)

Abbreviation FS := (FolderStore Db HF SF).

Definition pure_meta (c : contents) : result StorageError.t storage.FolderIndexMeta :=
  match c !! IX_KEY with
  | Some b => ok_or (decode b) (StorageError.Corruption "decode FolderIndexMeta")
  | None => Ok storage.FolderIndexMeta_default
  end.

Definition pure_decode_file (msg : string) (b : bytes) : result StorageError.t storage.FileInfo :=
  try file <- ok_or (decode b) (StorageError.Corruption "decode File");
  ok_or (storage.file_info file) (StorageError.Corruption msg).

Definition pure_file_proto (n : bytes) (c : contents) : result StorageError.t (option storage.FileInfo) :=
  match c !! file_key n with
  | Some b => try fi <- pure_decode_file "missing file_info in File" b; Ok (Some fi)
  | None => Ok None
  end.

Definition pure_file (n : bytes) (c : contents) : result StorageError.t (option bep.FileInfo) :=
  try v <- pure_file_proto n c;
  match v with
  | Some fi => try f <- ProtoConv.file_to_bep fi; Ok (Some f)
  | None => Ok None
  end.

Lemma get_index_meta_reads :
  reads_as (Db := Db) (HF := HF) (SF := SF) get_index_meta (fun c _ => pure_meta c).
Proof. unfold get_index_meta. reads. Qed.

Lemma decode_file_reads msg b :
  reads_as (Db := Db) (HF := HF) (SF := SF) (decode_file msg b) (fun _ _ => pure_decode_file msg b).
Proof. unfold decode_file. reads. Qed.

Lemma get_file_proto_reads n :
  reads_as (Db := Db) (HF := HF) (SF := SF) (get_file_proto n) (fun c _ => pure_file_proto n c).
Proof. unfold get_file_proto, decode_file. reads. Qed.

Lemma get_file_reads n :
  reads_as (Db := Db) (HF := HF) (SF := SF) (get_file n) (fun c _ => pure_file n c).
Proof. pose proof (get_file_proto_reads n). unfold get_file. reads. Qed.

(** What they return on an index. *)
Lemma pure_meta_Index c max idx : Index c max idx -> pure_meta c = Ok (meta_of c).
Proof.
  intros H. unfold pure_meta, meta_of. destruct (c !! IX_KEY) as [b|] eqn:E; [|done].
  destruct (proj1 (ix_meta _ _ _ H) b E) as [meta ->]. by rewrite decode_encode.
Qed.

Lemma pure_decode_file_bytes msg f : pure_decode_file msg (file_bytes f) = Ok f.
Proof. unfold pure_decode_file, file_bytes. by rewrite decode_encode. Qed.

Lemma pure_file_proto_Index c max idx n :
  Index c max idx -> name_ok n -> pure_file_proto n c = Ok (idx !! n).
Proof.
  intros H Hn. unfold pure_file_proto. change (file_key n) with (encode_key (KFile n)).
  rewrite (ix_file _ _ _ H) by done. destruct (idx !! n) as [f|]; simpl; [|done].
  by rewrite pure_decode_file_bytes.
Qed.

(** The wire form of an indexed file. *)
Definition wire (f : storage.FileInfo) : bep.FileInfo :=
  match ProtoConv.file_to_bep f with
  | Ok b => b
  | Err _ => bep.mkFileInfo [] 0 0 0 None 0 [] [] [] [] [] 0 0 0 0 None 0 [] 0 0 false false false
  end.

Lemma wire_ok f : is_ok (ProtoConv.file_to_bep f) = true -> ProtoConv.file_to_bep f = Ok (wire f).
Proof. unfold wire. by destruct (ProtoConv.file_to_bep f). Qed.

Lemma pure_file_Index c max idx n :
  Index c max idx -> name_ok n -> pure_file n c = Ok (wire <$> idx !! n).
Proof.
  intros H Hn. unfold pure_file. rewrite (pure_file_proto_Index c max idx) by done. cbn [rbind].
  destruct (idx !! n) as [f|] eqn:E; [|done].
  destruct (ix_idx _ _ _ H n f E) as (_ & _ & _ & Ht). by rewrite (wire_ok f Ht).
Qed.

(** ** Commits *)

Definition carried (stored : storage.FileInfo) (prior : option storage.FileInfo) : storage.FileInfo :=
  match prior with Some old => carry_block_pointers stored old | None => stored end.

(** The file and the batch of a commit from index [idx] with maximum [max]. *)
Definition commit_file (stored : storage.FileInfo) (prior : option storage.FileInfo) (max : Z)
  : storage.FileInfo := storage.set_sequence (carried stored prior) (max + 1).

Definition commit_batch (n : bytes) (stored : storage.FileInfo) (b : list BatchOp)
  (c : contents) (idx : idx_t) (max : Z) : list BatchOp :=
  b ++ commit_rows n (commit_file stored (idx !! n) max)
         (storage.mkFolderIndexMeta (max + 1) (storage.next_blockseq (meta_of c))) (idx !! n).

Lemma wrap_i64_small v : I64_MIN <= v <= I64_MAX -> wrap_i64 v = v.
Proof. unfold wrap_i64, I64_MIN, I64_MAX. intros H. rewrite Z.mod_small; lia. Qed.

Lemma seq_key_ok q : u64_ok q -> seq_key q = Ok (encode_key (KSeq q)).
Proof. unfold seq_key, u64_ok. intros H. destruct (Z.ltb_spec q 0); [lia|done]. Qed.

(** The prior entry is carried and its number dropped. *)
Lemma carry_prior_reads n stored b :
  reads_as (Db := Db) (HF := HF) (SF := SF) (carry_prior n stored b)
    (fun c _ => try prior <- pure_file_proto n c;
                match prior with
                | Some old => if 0 <? storage.sequence old
                              then try k <- seq_key (storage.sequence old);
                                   Ok (carry_block_pointers stored old, b ++ [BDelete k])
                              else Ok (carry_block_pointers stored old, b)
                | None => Ok (stored, b)
                end).
Proof.
  pose proof (get_file_proto_reads n). unfold carry_prior. reads.
Qed.

Lemma wp_commit (n : bytes) (stored : storage.FileInfo) (b : list BatchOp) (s : FS) (max : Z) (idx : idx_t) :
  Index (cts s) max idx -> name_ok n -> max < I64_MAX ->
  is_ok (ProtoConv.file_to_bep stored) = true ->
  wp (commit_with_new_seq n stored b) (fun s' r =>
    let batch := commit_batch n stored b (cts s) idx max in
    match r with
    | Ok (seq, f) => seq = max + 1 /\ f = wire (commit_file stored (idx !! n) max) /\ wrote batch s s'
    | Err _ => ~ healthy s /\ (sim s s' \/ wrote batch s s')
    end) s.
Proof.
  intros H Hn Hmax Ht. pose proof (ix_max _ _ _ H) as Hm.
  unfold commit_with_new_seq. eapply wp_reads_bind; [apply carry_prior_reads| |by auto].
  intros s1 Hs1. cbv beta. rewrite (pure_file_proto_Index _ max idx) by done. cbn [rbind].
  assert (u64_ok (max + 1)) as Hu by (unfold u64_ok, I64_MAX in *; lia).
  assert (match idx !! n with
          | Some old => if 0 <? storage.sequence old
                        then try k <- seq_key (storage.sequence old);
                             Ok (carry_block_pointers stored old, b ++ [BDelete k])
                        else Ok (carry_block_pointers stored old, b)
          | None => Ok (stored, b)
          end = Ok (carried stored (idx !! n), b ++ drop_old (idx !! n))) as ->.
  { destruct (idx !! n) as [old|] eqn:E; [|by rewrite app_nil_r].
    destruct (ix_idx _ _ _ H n old E) as (_ & _ & Hq & _).
    destruct (Z.ltb_spec 0 (storage.sequence old)); [|lia].
    by rewrite seq_key_ok by (by eapply seq_u64; [|apply Hm]). }
  cbv iota beta. eapply wp_reads_bind; [apply get_index_meta_reads| |].
  2:{ intros s2 e Hs2 Hh. split; [|left; by etrans]. intros Hh'. by apply Hh, Hs1. }
  intros s2 Hs2. cbv beta. assert (sim s s2) as Hss2 by (by etrans).
  rewrite (sim_cts _ _ Hs1), (pure_meta_Index _ max idx) by done.
  rewrite (proj2 (ix_meta _ _ _ H)), wrap_i64_small by (unfold I64_MIN in *; lia).
  rewrite seq_key_ok by done. apply wp_bind, wp_lift. apply wp_bind.
  rewrite <- app_assoc. apply wp_write.
  - intros s3 Hw. apply wp_bind, wp_lift.
    replace (ProtoConv.file_to_bep _) with
      (Ok (E := StorageError.t) (wire (commit_file stored (idx !! n) max))).
    + apply wp_ret. split; [done|]. split; [done|]. eapply sim_wrote; [exact Hss2|exact Hw].
    + symmetry. apply wire_ok. revert Ht. unfold ProtoConv.file_to_bep, carried.
      destruct (idx !! n); simpl; by destruct (ProtoConv.storage_type_to_bep _).
  - intros s3 e Hor Hh. split; [intros Hh'; by apply Hh, Hss2|].
    destruct Hor as [Hor|Hor]; [left; by etrans|right; by eapply sim_wrote].
Qed.

(** ** Scans *)

Lemma Forall2_exists {A B : Type} (R : A -> B -> Prop) (l : list A) :
  (forall a, a ∈ l -> exists b, R a b) -> exists l', Forall2 R l l'.
Proof.
  induction l as [|a l IH]; intros H; [by exists []|].
  destruct (H a) as [b Hb]; [by left|]. destruct IH as [l' Hl']; [intros; apply H; by right|].
  exists (b :: l'). by constructor.
Qed.

(** The rows of the two scans. *)
Definition file_row (idx : idx_t) (kv : bytes * bytes) (f : storage.FileInfo) : Prop :=
  idx !! storage.name f = Some f /\ kv = (encode_key (KFile (storage.name f)), file_bytes f).

Definition seq_row (idx : idx_t) (kv : bytes * bytes) (f : storage.FileInfo) : Prop :=
  idx !! storage.name f = Some f /\ kv = (encode_key (KSeq (storage.sequence f)), storage.name f).

Lemma file_rows (c : contents) (max : Z) (idx : idx_t) :
  Index c max idx ->
  exists l, Forall2 (file_row idx) (entries (starts_with FILE_PREFIX) c) l /\
    NoDup (map storage.name l) /\ forall f, f ∈ l <-> idx !! storage.name f = Some f.
Proof.
  intros H. destruct (Forall2_exists (file_row idx) (entries (starts_with FILE_PREFIX) c)) as [l Hl].
  { intros [k v] [Hk Hp]%elem_of_entries. destruct (ix_keys _ _ _ H k v Hk) as (K & HK & ->).
    change FILE_PREFIX with (tag (KFile [])) in Hp. rewrite starts_with_tag in Hp.
    apply bool_decide_eq_true in Hp. destruct K as [n| | | | | | |]; try discriminate Hp.
    rewrite (ix_file _ _ _ H) in Hk by done. destruct (idx !! n) as [f|] eqn:E; [|done].
    simpl in Hk. injection Hk as <-. exists f.
    destruct (ix_idx _ _ _ H n f E) as (_ & <- & _). by split. }
  exists l. split; [done|]. split.
  - assert (map fst (entries (starts_with FILE_PREFIX) c) =
            map (fun f => encode_key (KFile (storage.name f))) l) as E.
    { clear -Hl. induction Hl as [|kv f items l [_ ->] _ IH]; simpl; [done|]. by rewrite IH. }
    pose proof (entries_nodup (starts_with FILE_PREFIX) c) as Hnd. rewrite E in Hnd.
    rewrite <- (map_map storage.name (fun n => encode_key (KFile n))) in Hnd.
    by apply NoDup_fmap_1 in Hnd.
  - intros f. split.
    + intros (i & Hi)%list_elem_of_lookup. by destruct (Forall2_lookup_r _ _ _ _ _ Hl Hi) as (kv & _ & [? _]).
    + intros Hf. destruct (ix_idx _ _ _ H _ f Hf) as (Hn & _ & _ & _).
      assert ((encode_key (KFile (storage.name f)), file_bytes f) ∈ entries (starts_with FILE_PREFIX) c)
        as Hin.
      { apply elem_of_entries. rewrite (ix_file _ _ _ H) by done. rewrite Hf. split; [done|].
        change FILE_PREFIX with (tag (KFile [])). by rewrite starts_with_tag, bool_decide_eq_true_2. }
      apply list_elem_of_lookup in Hin as [i Hi].
      destruct (Forall2_lookup_l _ _ _ _ _ Hl Hi) as (f' & Hi' & [Hf' E]).
      injection E as E _.
      apply (encode_key_inj (KFile _) (KFile _)) in E; [|done|by apply (ix_idx _ _ _ H _ f' Hf')].
      injection E as E. assert (f = f') as -> by congruence. by eapply list_elem_of_lookup_2.
Qed.

Lemma in_key_range_scan lo hi k : in_key_range lo hi k = true <-> in_scan lo hi k.
Proof.
  unfold in_key_range, in_scan, bytes_lt. destruct (bytes_cmp k lo), (bytes_cmp k hi); intuition congruence.
Qed.

Lemma seq_rows (c : contents) (max : Z) (idx : idx_t) (since : Z) :
  Index c max idx -> 0 <= since < I64_MAX ->
  exists l, Forall2 (seq_row idx)
      (entries (in_key_range (SEQ_PREFIX ++ to_be 8 (since + 1)) SEQ_SCAN_END) c) l /\
    StronglySorted (fun f g => storage.sequence f < storage.sequence g) l /\
    forall f, f ∈ l <-> idx !! storage.name f = Some f /\ since < storage.sequence f.
Proof.
  intros H Hs. set (P := in_key_range _ _).
  assert (forall K, key_ok K -> P (encode_key K) = true <-> exists q, K = KSeq q /\ since < q) as HP.
  { intros K HK. unfold P. rewrite in_key_range_scan. by apply in_seq_scan. }
  destruct (Forall2_exists (seq_row idx) (entries P c)) as [l Hl].
  { intros [k v] [Hk Hp]%elem_of_entries. destruct (ix_keys _ _ _ H k v Hk) as (K & HK & ->).
    apply HP in Hp as (q & -> & Hq); [|done]. apply (ix_seq _ _ _ H) in Hk as (f & Hf & <-); [|done].
    exists f. destruct (ix_idx _ _ _ H v f Hf) as (_ & <- & _). by split. }
  assert (forall f, idx !! storage.name f = Some f -> u64_ok (storage.sequence f)) as Hu.
  { intros f Hf. destruct (ix_idx _ _ _ H _ f Hf) as (_ & _ & Hq & _).
    eapply seq_u64; [exact Hq|apply H]. }
  exists l. split; [done|]. split.
  - pose proof (entries_sorted P c) as Hsort. revert Hsort. clear -Hl Hu. 
    induction Hl as [|kv f items l [Hf ->] Hl IH]; [constructor|]. intros Hsort.
    apply StronglySorted_inv in Hsort as [Hsort' Hall]. constructor; [auto|].
    apply Forall_forall. intros g (i & Hi)%list_elem_of_lookup.
    destruct (Forall2_lookup_r _ _ _ _ _ Hl Hi) as (kv & Hkv & [Hg ->]).
    pose proof (Forall_lookup_1 _ _ _ _ Hall Hkv) as Hlt. cbn [fst] in Hlt. unfold bytes_lt in Hlt.
    cbn [encode_key] in Hlt. rewrite seq_key_cmp in Hlt by auto. by apply Z.compare_lt_iff in Hlt.
  - intros f. split.
    + intros (i & Hi)%list_elem_of_lookup.
      destruct (Forall2_lookup_r _ _ _ _ _ Hl Hi) as (kv & Hkv & [Hf ->]). split; [done|].
      apply list_elem_of_lookup_2, elem_of_entries in Hkv as [_ Hp].
      apply HP in Hp as (q & [= ->] & Hq); [done|]. by apply Hu.
    + intros [Hf Hq].
      assert ((encode_key (KSeq (storage.sequence f)), storage.name f) ∈ entries P c) as Hin.
      { apply elem_of_entries. split; [apply (ix_seq _ _ _ H); eauto|].
        apply HP; [by apply Hu|]. eauto. }
      apply list_elem_of_lookup in Hin as [i Hi].
      destruct (Forall2_lookup_l _ _ _ _ _ Hl Hi) as (f' & Hi' & [Hf' E]).
      injection E as _ E. assert (f = f') as -> by congruence. by eapply list_elem_of_lookup_2.
Qed.

(** ** Operations *)

Lemma Index_commit_batch (c : contents) (max : Z) (idx : idx_t) (n : bytes) (stored : storage.FileInfo)
  (b : list BatchOp) :
  Index c max idx -> name_ok n -> storage.name stored = n -> max < I64_MAX ->
  is_ok (ProtoConv.file_to_bep stored) = true -> ops_on foreign b ->
  Index (apply_batch (commit_batch n stored b c idx max) c) (max + 1)
        (<[n := commit_file stored (idx !! n) max]> idx).
Proof.
  intros H Hn Hname Hmax Ht Hb. unfold commit_batch. rewrite apply_batch_app.
  apply Index_commit; try done.
  - by apply Index_foreign.
  - unfold commit_file, carried. by destruct (idx !! n).
  - revert Ht. unfold ProtoConv.file_to_bep, commit_file, carried.
    destruct (idx !! n); simpl; by destruct (ProtoConv.storage_type_to_bep _).
Qed.

Lemma file_to_storage_type f : is_ok (ProtoConv.file_to_bep (ProtoConv.file_to_storage f)) = true.
Proof. by rewrite ProtoConv.file_conv. Qed.

Lemma commit_rows_keys n f meta prior :
  name_ok n -> u64_ok (storage.sequence f) ->
  (forall old, prior = Some old -> u64_ok (storage.sequence old)) ->
  ops_on (fun K => ~ foreign K) (commit_rows n f meta prior).
Proof.
  intros Hn Hf Hp. unfold commit_rows. apply ops_on_app.
  - destruct prior as [old|]; simpl; [|constructor]. constructor; [|constructor].
    exists (KSeq (storage.sequence old)). split_and!; [by apply Hp|tauto|done].
  - repeat constructor; [exists KIx|exists (KFile n)|exists (KSeq (storage.sequence f))];
      split_and!; try done; tauto.
Qed.

(** A block without data is one without a pointer. *)
Lemma incomplete_pointers f : incomplete f = negb (forallb has_pointer (storage.blocks f)).
Proof.
  unfold incomplete. induction (storage.blocks f) as [|b bs IH]; [done|]. cbn [existsb forallb].
  rewrite IH, negb_andb. f_equal. unfold has_pointer.
  by destruct (storage.inline_data b), (storage.blockseq b).
Qed.

(** The inbox row of a staged file. *)
Definition inbox_bytes (f : storage.FileInfo) : bytes := encode (storage.mkInbox (Some f)).

Lemma commit_batch_inbox (c : contents) (max : Z) (idx : idx_t) (e : Base32.Epoch) (n : bytes)
  (stored : storage.FileInfo) :
  Index c max idx -> name_ok n -> epoch_ok e -> max < I64_MAX ->
  apply_batch (commit_batch n stored [BDelete (inbox_key e n)] c idx max) c !! inbox_key e n = None.
Proof.
  intros H Hn He Hmax. pose proof (ix_max _ _ _ H) as Hm. unfold commit_batch.
  rewrite apply_batch_app. change (inbox_key e n) with (encode_key (KInbox e n)).
  rewrite (ops_on_other (fun K => ~ foreign K)); [apply lookup_delete_eq| |done|intros Hf; by apply Hf].
  apply commit_rows_keys; [done| |].
  - unfold commit_file, u64_ok, I64_MAX in *. simpl. lia.
  - intros old Hold. destruct (ix_idx _ _ _ H n old Hold) as (_ & _ & Hq & _).
    eapply seq_u64; [exact Hq|apply Hm].
Qed.

Lemma inbox_foreign e n : epoch_ok e -> name_ok n -> ops_on foreign [BDelete (inbox_key e n)].
Proof. intros He Hn. constructor; [|constructor]. by exists (KInbox e n). Qed.

(** Committing a file, from a database that holds an index: the rows that are
    written. *)
Lemma wp_put_file_rows (file : bep.FileInfo) (s : FS) (max : Z) (idx : idx_t) :
  Index (cts s) max idx -> name_ok (bep.name file) -> max < I64_MAX ->
  wp (put_file file) (fun s' r =>
    let rows := commit_batch (bep.name file) (ProtoConv.file_to_storage file) [] (cts s) idx max in
    match r with
    | Ok seq => seq = max + 1 /\ cts s' = apply_batch rows (cts s)
    | Err _ => ~ healthy s /\ (cts s' = cts s \/ cts s' = apply_batch rows (cts s))
    end) s.
Proof.
  intros Hidx Hn Hmax. unfold put_file. apply wp_bind.
  eapply wp_mono; [|by apply (wp_commit _ _ _ s max idx); [..|apply file_to_storage_type]].
  intros s1 [[seq fb]|e]; cbn beta iota zeta.
  - intros (-> & _ & Hw). apply wp_ret. split; [done|]. by rewrite (wrote_cts _ _ _ Hw).
  - intros [Hh [Hs|Hw]]; (split; [done|]);
      [left; by rewrite (sim_cts _ _ Hs)|right; by rewrite (wrote_cts _ _ _ Hw)].
Qed.

Lemma put_rows_Index (file : bep.FileInfo) (c : contents) (max : Z) (idx : idx_t) :
  Index c max idx -> name_ok (bep.name file) -> max < I64_MAX ->
  Index (apply_batch (commit_batch (bep.name file) (ProtoConv.file_to_storage file) [] c idx max) c) (max + 1)
    (<[bep.name file := commit_file (ProtoConv.file_to_storage file) (idx !! bep.name file) max]> idx).
Proof. intros. apply Index_commit_batch; try done; [apply file_to_storage_type|constructor]. Qed.

Lemma wp_put_file (file : bep.FileInfo) (s : FS) (max : Z) (idx : idx_t) :
  Index (cts s) max idx -> name_ok (bep.name file) -> max < I64_MAX ->
  wp (put_file file) (fun s' r =>
    let f := commit_file (ProtoConv.file_to_storage file) (idx !! bep.name file) max in
    match r with
    | Ok seq => seq = max + 1 /\ Index (cts s') (max + 1) (<[bep.name file := f]> idx)
    | Err _ => ~ healthy s /\
               (Index (cts s') max idx \/ Index (cts s') (max + 1) (<[bep.name file := f]> idx))
    end) s.
Proof.
  intros Hidx Hn Hmax. pose proof (put_rows_Index file _ _ _ Hidx Hn Hmax) as Hnew.
  eapply wp_mono; [|by apply (wp_put_file_rows file s max idx)].
  intros s1 [seq|e]; cbv zeta; [intros [-> ->]; done|]. intros [Hh [-> | ->]]; (split; [done|]); [by left|by right].
Qed.

(** ** Properties *)

(** C3: committing a file. From a database that holds an index, [put_file]
    either succeeds with the next sequence number and the database holds the
    index with the file under its name and that number (block pointers of the
    previous version kept, its old number freed), or it fails, which happens
    only if the database fails, and leaves the old index or the complete new
    one: never a mixture. *)
Theorem put_file_refines (file : bep.FileInfo) (s : FS) (max : Z) (idx : idx_t)
  (Hidx : Index (cts s) max idx) (Hn : name_ok (bep.name file)) (Hmax : max < I64_MAX) :
  let f := commit_file (ProtoConv.file_to_storage file) (idx !! bep.name file) max in
  let '(s', r) := put_file file s in
  match r with
  | Ok seq => seq = max + 1 /\ Index (cts s') (max + 1) (<[bep.name file := f]> idx)
  | Err _ => ~ healthy s /\
             (Index (cts s') max idx \/ Index (cts s') (max + 1) (<[bep.name file := f]> idx))
  end.
Proof. apply wp_let. by apply wp_put_file. Qed.

(** Promoting a staged file: the rows that are written. *)
Lemma wp_complete_file_rows (epoch : Base32.Epoch) (n : bytes) (v : option bep.Vector)
  (staged : option storage.FileInfo) (s : FS) (max : Z) (idx : idx_t) :
  Index (cts s) max idx -> name_ok n -> epoch_ok epoch -> max < I64_MAX ->
  (forall f, staged = Some f -> storage.name f = n /\ is_ok (ProtoConv.file_to_bep f) = true) ->
  cts s !! inbox_key epoch n = inbox_bytes <$> staged ->
  wp (complete_file epoch n v) (fun s' r =>
    match staged with
    | None => cts s' = cts s /\ (r = Ok None \/ (~ healthy s /\ is_ok r = false))
    | Some st =>
        let same_version := ProtoConv.vector_to_bep <$> storage.version st = v in
        let f := commit_file st (idx !! n) max in
        let new := apply_batch (commit_batch n st [BDelete (inbox_key epoch n)] (cts s) idx max) (cts s) in
        match r with
        | Ok None => ~ same_version /\ cts s' = cts s
        | Ok (Some fb) => same_version /\ fb = wire f /\ forallb has_pointer (storage.blocks f) = true /\ cts s' = new
        | Err _ => (same_version /\ forallb has_pointer (storage.blocks f) = false /\ cts s' = cts s) \/
                   (~ healthy s /\ (cts s' = cts s \/ cts s' = new))
        end
    end) s.
Proof.
  intros Hidx Hn He Hmax Hst Hrow. unfold complete_file. eapply wp_reads_bind; [apply get_reads| |].
  2:{ intros s1 e Hs1 Hh. destruct staged; [right|]; rewrite (sim_cts _ _ Hs1); auto. }
  intros s1 Hs1. cbv beta iota. rewrite Hrow. destruct staged as [st|]; cbn [fmap option_fmap option_map].
  2:{ apply wp_ret. rewrite (sim_cts _ _ Hs1). auto. }
  destruct (Hst st eq_refl) as [Hname Ht]. unfold inbox_bytes. rewrite decode_encode.
  apply wp_bind, wp_lift. cbn [ok_or storage.inbox_file_info]. apply wp_bind, wp_lift. cbn [ok_or].
  case_bool_decide as Hv; cbn [negb]; [|apply wp_ret; by rewrite (sim_cts _ _ Hs1)].
  eapply wp_reads_bind; [apply get_file_proto_reads| |].
  2:{ intros s2 e Hs2 Hh. right. rewrite (sim_cts _ _ Hs2), (sim_cts _ _ Hs1).
      split; [intros Hh'; by apply Hh, Hs1|by left]. }
  intros s2 Hs2. cbv beta. assert (sim s s2) as Hss2 by (by etrans).
  rewrite (sim_cts _ _ Hs1), (pure_file_proto_Index _ max idx) by done.
  change (match idx !! n with Some old => carry_block_pointers st old | None => st end)
    with (carried st (idx !! n)).
  rewrite incomplete_pointers.
  change (storage.blocks (carried st (idx !! n))) with (storage.blocks (commit_file st (idx !! n) max)).
  destruct (forallb has_pointer _) eqn:Hp; cbn [negb].
  2:{ apply wp_err. left. by rewrite (sim_cts _ _ Hss2). }
  apply wp_bind. eapply wp_mono; [|apply (wp_commit n st _ s2 max idx); try done].
  2:{ by rewrite (sim_cts _ _ Hss2). }
  rewrite (sim_cts _ _ Hss2).
  intros s3 [[seq fb]|e]; cbn beta iota zeta.
  - intros (-> & -> & Hw). apply wp_ret. by rewrite (wrote_cts _ _ _ Hw), (sim_cts _ _ Hss2).
  - intros [Hh [Hs|Hw]]; right; (split; [intros Hh'; by apply Hh, Hss2|]).
    + left. by rewrite (sim_cts _ _ Hs), (sim_cts _ _ Hss2).
    + right. by rewrite (wrote_cts _ _ _ Hw), (sim_cts _ _ Hss2).
Qed.

Lemma complete_rows_Index (epoch : Base32.Epoch) (n : bytes) (st : storage.FileInfo) (c : contents) (max : Z)
  (idx : idx_t) :
  Index c max idx -> name_ok n -> epoch_ok epoch -> max < I64_MAX ->
  storage.name st = n -> is_ok (ProtoConv.file_to_bep st) = true ->
  Index (apply_batch (commit_batch n st [BDelete (inbox_key epoch n)] c idx max) c) (max + 1)
    (<[n := commit_file st (idx !! n) max]> idx).
Proof. intros. apply Index_commit_batch; try done. by apply inbox_foreign. Qed.


(** The delta index, for use by clients. *)
Lemma wp_files_since (since : Z) (s : FS) (max : Z) (idx : idx_t) :
  Index (cts s) max idx -> 0 <= since < I64_MAX ->
  exists l,
    StronglySorted (fun f g => storage.sequence f < storage.sequence g) l /\
    (forall f, f ∈ l <-> idx !! storage.name f = Some f /\ since < storage.sequence f) /\
    wp (files_since since) (fun s' r =>
      cts s' = cts s /\ (r = Ok (map wire l) \/ (~ healthy s /\ is_ok r = false))) s.
Proof.
  intros Hidx Hsince. destruct (seq_rows _ _ _ since Hidx Hsince) as (l & Hl & Hsort & Hmem).
  exists l. split; [done|]. split; [done|].
  unfold files_since. rewrite seq_scan_start_ok by done. apply wp_bind, wp_lift.
  eapply wp_mono; [|eapply (scan_rows _ _ _ _ (seq_row idx) wire s l);
    [apply db_scan_scans| |exact Hl|]].
  - intros s' r [Hs Hr]. by rewrite (sim_cts _ _ Hs).
  - intros files kv. pose proof (get_file_reads (snd kv)) as Hg.
    eapply (reads_as_ext _ (fun c g => try name <- ok_or (from_utf8 (snd kv))
              (StorageError.Corruption "invalid name in seq entry");
              try f <- pure_file name c;
              match f with Some fi => Ok (files ++ [fi]) | None => Ok files end)); [done|].
    eapply reads_as_bind; [apply corrupt_reads|]. intros name.
    eapply reads_as_bind; [apply get_file_reads|]. intros [f|]; apply reads_as_ret.
  - intros acc kv f [Hf ->]. cbn [snd].
    destruct (ix_idx _ _ _ Hidx _ f Hf) as (Hn & _). rewrite from_utf8_valid by apply Hn.
    cbn [ok_or rbind]. rewrite (pure_file_Index _ max idx) by done. by rewrite Hf.
Qed.


(** Full index. [all_files] returns every file of the index once, without
    changing the database; it fails only if the database fails. *)
Theorem all_files_exact (s : FS) (max : Z) (idx : idx_t) (Hidx : Index (cts s) max idx) :
  exists l,
    NoDup (map storage.name l) /\
    (forall f, f ∈ l <-> idx !! storage.name f = Some f) /\
    let '(s', r) := all_files s in
    cts s' = cts s /\ (r = Ok (map wire l) \/ (~ healthy s /\ is_ok r = false)).
Proof.
  destruct (file_rows _ _ _ Hidx) as (l & Hl & Hnd & Hmem).
  exists l. split; [done|]. split; [done|]. apply wp_let. unfold all_files.
  eapply wp_mono; [|eapply (scan_rows _ _ _ _ (file_row idx) wire s l);
    [apply db_scan_prefix_scans| |exact Hl|]].
  - intros s' r [Hs Hr]. by rewrite (sim_cts _ _ Hs).
  - intros files kv.
    eapply reads_as_bind; [apply decode_file_reads|]. intros fi.
    eapply reads_as_bind; [apply reads_as_lift|]. intros f. apply reads_as_ret.
  - intros acc kv f [Hf ->]. cbn [snd]. rewrite pure_decode_file_bytes. cbn [rbind].
    destruct (ix_idx _ _ _ Hidx _ f Hf) as (_ & _ & _ & Ht). by rewrite (wire_ok f Ht).
Qed.
End Index.

(** ** Witnesses *)

Abbreviation TStore := (FolderStore MapDb StoreTape.HFilter StoreTape.SFilter).
#[local] Existing Instance StoreTape.codecs.
#[local] Existing Instance StoreTape.laws.

Lemma put_file_refines_witness :
  Index (cts StoreTape.empty_store) 0 ∅ /\
  snd (put_file (StoreTape.sample (lit "docs/a") 1 []) StoreTape.empty_store) = Ok 1.
Proof.
  split; [apply Index_empty|].
  pose proof (put_file_refines (StoreTape.sample (lit "docs/a") 1 []) StoreTape.empty_store 0 ∅
                Index_empty ltac:(by vm_compute) ltac:(by vm_compute)) as H.
  cbv zeta in H.
  destruct (put_file (StoreTape.sample (lit "docs/a") 1 []) StoreTape.empty_store) as [s' [q|e]].
  - destruct H as [-> _]. reflexivity.
  - destruct H as [Hh _]. destruct Hh. reflexivity.
Defined.

(** A store with one committed file. *)
Definition one_file : TStore := fst (put_file (StoreTape.sample (lit "docs/a") 1 []) StoreTape.empty_store).
Definition one_idx : gmap bytes storage.FileInfo :=
  {[ lit "docs/a" := commit_file (ProtoConv.file_to_storage (StoreTape.sample (lit "docs/a") 1 [])) None 0 ]}.

Lemma one_file_Index : Index (cts one_file) 1 one_idx.
Proof.
  pose proof (Index_commit_batch ∅ 0 ∅ (lit "docs/a")
    (ProtoConv.file_to_storage (StoreTape.sample (lit "docs/a") 1 [])) [] Index_empty
    ltac:(by vm_compute) eq_refl ltac:(by vm_compute) eq_refl ltac:(constructor)) as H.
  exact H.
Qed.


Lemma all_files_exact_witness :
  exists l, (forall f, f ∈ l <-> one_idx !! storage.name f = Some f) /\
            snd (all_files one_file) = Ok (map wire l).
Proof.
  destruct (all_files_exact one_file 1 one_idx one_file_Index) as (l & _ & Hm & Hr).
  exists l. split; [exact Hm|]. destruct (all_files one_file) as [s' r].
  destruct Hr as [_ [->|[Hh _]]]; [reflexivity|]. destruct Hh. reflexivity.
Defined.

Definition epoch5 : Base32.Epoch := Base32.mkEpoch 5 (lit "00000005").

(** The store of [one_file] with a newer version of it staged. *)
Definition staged_file : bep.FileInfo := StoreTape.sample (lit "docs/a") 2 [].
Definition staged_store : TStore := fst (stage_file epoch5 staged_file one_file).


End StoreIndex.
