(* ===== verification/StoreBlocks.v ===== *)
(** Integrity of block data.

    [good h d] says that the data [d] may be stored under the hash [h] (the
    callers check that it is the SHA-256 of the data before storing it). The
    invariant [Blocks] ties every reference of the database (file and inbox
    blocks, directory pointers) to data that is good for its hash, although
    data rows are shared between files, numbered by an allocator that survives
    restarts, and removed by compactions. Every operation preserves it, in
    every outcome; so reads never return bytes of another block. *)

From Stdlib Require Import ZArith Lia.
From stdpp Require Import base gmap list strings.
From S2P Require Import Prelude BepTypes Base32 StoreKeys Codec ProtoConv.
From S2P Require Import Kv GcState Store StoreTape StoreWp StoreIndex.

Local Open Scope Z_scope.
Local Open Scope bep_scope.

Module StoreBlocks.
Import Kv StoreKeys Store StoreWp StoreIndex.

Section Blocks.
Context {Db : Type} `{!SlateDb Db} {SC : StoreCodecs}.
Context {HF SF : Type} `{!Bloom bytes HF} `{!Bloom Z SF}.
Context `{!SlateDbLaws Db} {SL : StoreCodecLaws}.
Context (good : bytes -> bytes -> Prop).

Abbreviation FS := (FolderStore Db HF SF).

(** ** Invariant *)

Definition data_row (m : contents) (q : Z) : option bytes := m !! encode_key (KData q).

(** A reference to data row [q] below the allocator's mark [nx]. *)
Definition ref_ok (m : contents) (nx : Z) (h : bytes) (q : Z) : Prop :=
  MIN_BLOCK_SEQ <= q < nx /\ forall d, data_row m q = Some d -> good h d.

Definition block_ok (m : contents) (nx : Z) (b : storage.BlockInfo) : Prop :=
  (forall d, storage.inline_data b = Some d -> good (storage.hash b) d) /\
  (forall q, storage.blockseq b = Some q -> ref_ok m nx (storage.hash b) q).

Definition file_ok (m : contents) (nx : Z) (f : storage.FileInfo) : Prop :=
  Forall (block_ok m nx) (storage.blocks f).

(** The entry of a file, committed or staged, is filed under its name and has a
    type of the protocol. *)
Definition filed_as (n : bytes) (f : storage.FileInfo) : Prop :=
  storage.name f = n /\ is_ok (ProtoConv.file_to_bep f) = true.
Definition entry_ok (m : contents) (nx : Z) (n : bytes) (f : storage.FileInfo) : Prop :=
  file_ok m nx f /\ filed_as n f.

(** The rows no reference depends on. *)
Definition plain_row (K : Key) (v : bytes) : Prop :=
  match K with
  | KReverse _ _ => v = []
  | KSeq _ => name_ok v
  | KDevice _ => exists st : storage.RemoteIndexState, v = encode st
  | _ => False
  end.

Definition row_ok (m : contents) (nx : Z) (K : Key) (v : bytes) : Prop :=
  match K with
  | KFile n => exists f, v = file_bytes f /\ entry_ok m nx n f
  | KInbox e n => exists f, v = inbox_bytes f /\ entry_ok m nx n f
  | KPointer d h => exists q, v = encode (storage.mkBlockRef q) /\ ref_ok m nx h q
  | KData q => 0 <= q < nx
  | KIx => exists meta : storage.FolderIndexMeta, v = encode meta
  | _ => plain_row K v
  end.

Definition persisted (m : contents) : Z := default 0 (storage.next_blockseq (meta_of m)).

(** The range in memory lies below the persisted mark, and what it hands out
    next is not one of the reserved low numbers. *)
Definition range_ok (r : SeqRange) (m : contents) : Prop :=
  (0 <= next r <= rend r /\ (next r = rend r \/ MIN_BLOCK_SEQ <= next r)) /\
  rend r <= persisted m <= U64_MAX.

Record Blocks (r : SeqRange) (m : contents) : Prop := mkBlocks {
  bl_keys : keys_wf m;
  bl_range : range_ok r m;
  bl_rows : forall K v, key_ok K -> m !! encode_key K = Some v -> row_ok m (next r) K v
}.

Definition Good (s : FS) : Prop := Blocks (blockseq s) (cts s).

(** ** Monotonicity *)

(** [m'] has no data row below [nx] that [m] does not have. *)
Definition data_below (nx : Z) (m m' : contents) : Prop :=
  forall q d, 0 <= q < nx -> data_row m' q = Some d -> data_row m q = Some d.

Lemma ref_ok_mono m m' nx nx' h q :
  nx <= nx' -> data_below nx m m' -> ref_ok m nx h q -> ref_ok m' nx' h q.
Proof.
  intros Hle Hd [Hq Hg]. split; [lia|]. intros d Hdq.
  apply Hg, Hd; [unfold MIN_BLOCK_SEQ in *; lia|done].
Qed.

Lemma file_ok_mono m m' nx nx' f :
  nx <= nx' -> data_below nx m m' -> file_ok m nx f -> file_ok m' nx' f.
Proof.
  intros Hle Hd Hf. eapply Forall_impl; [exact Hf|]. intros b [H1 H2]. split; [done|].
  intros q Hq. eapply ref_ok_mono; eauto.
Qed.

Lemma entry_ok_mono m m' nx nx' n f :
  nx <= nx' -> data_below nx m m' -> entry_ok m nx n f -> entry_ok m' nx' n f.
Proof. intros Hle Hd [Hf Hn]. split; [by eapply file_ok_mono|done]. Qed.

Lemma row_ok_mono m m' nx nx' K v :
  nx <= nx' -> data_below nx m m' -> row_ok m nx K v -> row_ok m' nx' K v.
Proof.
  intros Hle Hd. destruct K; simpl; try done; try lia.
  - intros (f & -> & Hf). exists f. split; [done|]. by eapply entry_ok_mono.
  - intros (q & -> & Hq). exists q. split; [done|]. by eapply ref_ok_mono.
  - intros (f & -> & Hf). exists f. split; [done|]. by eapply entry_ok_mono.
Qed.

(** What a batch may put: rows that are fine afterwards, and data only at
    numbers handed out since [nx]. *)
Definition puts_ok (b : list BatchOp) (m' : contents) (nx nx' : Z) : Prop :=
  forall k v, BPut k v ∈ b -> exists K, key_ok K /\ k = encode_key K /\ row_ok m' nx' K v /\
                                         forall q, K = KData q -> nx <= q.

Lemma Blocks_batch (r r' : SeqRange) (m : contents) (b : list BatchOp) :
  Blocks r m -> next r <= next r' -> range_ok r' (apply_batch b m) ->
  puts_ok b (apply_batch b m) (next r) (next r') ->
  Blocks r' (apply_batch b m).
Proof.
  intros H Hle Hr Hp. constructor; [|done|].
  - intros k v [Hin|Hk]%apply_batch_inv; [|by eapply H].
    destruct (Hp k v Hin) as (K & ? & ? & _). by exists K.
  - assert (data_below (next r) m (apply_batch b m)) as Hd.
    { intros q d Hq [Hin|?]%apply_batch_inv; [|done].
      destruct (Hp _ _ Hin) as (K & HK & E & _ & Hdata).
      destruct (bl_range _ _ H) as [Hr1 Hr2].
      apply encode_key_inj in E; [|unfold key_ok, u64_ok, U64_MAX in *; lia|done]. subst K.
      specialize (Hdata q eq_refl). lia. }
    intros K v HK Hl. apply apply_batch_inv in Hl as [Hin|Hl].
    + destruct (Hp _ _ Hin) as (K' & HK' & E & Hrow & _). apply encode_key_inj in E; [|done..].
      by subst.
    + eapply row_ok_mono; [exact Hle|exact Hd|]. by apply H.
Qed.

(** Batches that leave the [mx] row alone leave the mark alone. *)
Lemma persisted_other (b : list BatchOp) (m : contents) :
  IX_KEY ∉ map op_key b -> persisted (apply_batch b m) = persisted m.
Proof. intros H. unfold persisted, meta_of. by rewrite apply_batch_other. Qed.

(** A compaction (or anything else) that only removes rows, the [mx] row
    excepted. *)
Lemma Blocks_drop (r : SeqRange) (m m' : contents) :
  Blocks r m -> m' ⊆ m -> m' !! IX_KEY = m !! IX_KEY -> Blocks r m'.
Proof.
  intros H Hsub Hix. assert (forall k v, m' !! k = Some v -> m !! k = Some v) as Hl
    by (intros k v Hk; by eapply lookup_weaken).
  constructor.
  - intros k v Hk. eapply H. by apply Hl.
  - pose proof (bl_range _ _ H) as Hr. unfold range_ok, persisted, meta_of in *. by rewrite Hix.
  - intros K v HK Hk. eapply row_ok_mono; [reflexivity| |by apply H, Hl].
    intros q d _ Hd. by apply Hl.
Qed.

(** A restart continues from the persisted mark. *)
Lemma Blocks_restart (r : SeqRange) (m : contents) :
  Blocks r m -> Blocks (mkRange (persisted m) (persisted m)) m.
Proof.
  intros H. destruct (bl_range _ _ H) as [H1 H2]. apply (Blocks_batch r _ m []); [done|simpl; lia| |].
  - unfold range_ok. simpl. change (apply_batch [] m) with m. lia.
  - intros k v Hin. by apply not_elem_of_nil in Hin.
Qed.

(** ** Carried pointers *)

Lemma filed_blocks n f bs : filed_as n f -> filed_as n (storage.set_blocks f bs).
Proof. intros [Hn Ht]. split; [done|]. unfold ProtoConv.file_to_bep in *. cbn. by destruct (ProtoConv.storage_type_to_bep _). Qed.

Lemma filed_sequence n f q : filed_as n f -> filed_as n (storage.set_sequence f q).
Proof. intros [Hn Ht]. split; [done|]. unfold ProtoConv.file_to_bep in *. cbn. by destruct (ProtoConv.storage_type_to_bep _). Qed.

Lemma find_pointer_ok m nx h bs b :
  Forall (block_ok m nx) bs -> find_pointer h bs = Some b -> block_ok m nx b /\ storage.hash b = h.
Proof.
  induction 1 as [|x bs Hx Hbs IH]; simpl; [done|].
  destruct (has_pointer x && bool_decide (storage.hash x = h)) eqn:E; [|done].
  intros [= ->]. apply andb_true_iff in E as [_ E]. apply bool_decide_eq_true in E. by split.
Qed.

Lemma carry_ok m nx n new old :
  entry_ok m nx n new -> file_ok m nx old -> entry_ok m nx n (carry_block_pointers new old).
Proof.
  intros [Hn Hname] Ho. split; [|by apply filed_blocks]. unfold file_ok, carry_block_pointers. simpl. apply Forall_map.
  eapply Forall_impl; [exact Hn|]. intros b Hb. unfold carry_block.
  destruct (has_pointer b); [done|]. destruct (find_pointer _ _) as [src|] eqn:E; [|done].
  eapply find_pointer_ok in E as [[H1 H2] Eh]; [|exact Ho]. split; simpl.
  - intros d Hd. rewrite <- Eh. by apply H1.
  - intros q Hq. rewrite <- Eh. by apply H2.
Qed.

Lemma wire_file_ok m nx f : entry_ok m nx (bep.name f) (ProtoConv.file_to_storage f).
Proof.
  split; [|by split; [|apply file_to_storage_type]].
  unfold file_ok. simpl. apply Forall_map, Forall_forall. intros b _. by split.
Qed.

Lemma update_blocks_ok m nx n h seq inline f :
  entry_ok m nx n f ->
  (forall d, inline = Some d -> good h d) -> (forall q, seq = Some q -> ref_ok m nx h q) ->
  entry_ok m nx n (fst (update_blocks h seq inline f)).
Proof.
  intros [Hf Hn] Hi Hq. split; [|by apply filed_blocks]. unfold file_ok. simpl. apply Forall_map. eapply Forall_impl; [exact Hf|].
  intros b Hb. case_bool_decide as E; [|done]. split; simpl; by rewrite E.
Qed.

(** ** Reading the rows *)

Lemma Blocks_file r m n o :
  Blocks r m -> name_ok n -> pure_file_proto n m = Ok o ->
  forall f, o = Some f -> entry_ok m (next r) n f.
Proof.
  intros H Hn. unfold pure_file_proto. destruct (m !! file_key n) as [v|] eqn:E; [|by intros [= <-]].
  change (file_key n) with (encode_key (KFile n)) in E.
  apply (bl_rows _ _ H) in E as (f & -> & Hf); [|done]. rewrite pure_decode_file_bytes. simpl.
  by intros [= <-] f' [= <-].
Qed.

Lemma Blocks_meta r m : Blocks r m -> pure_meta m = Ok (meta_of m).
Proof.
  intros H. unfold pure_meta, meta_of. destruct (m !! IX_KEY) as [b|] eqn:E; [|done].
  change IX_KEY with (encode_key KIx) in E. apply (bl_rows _ _ H) in E as (meta & ->); [|done].
  by rewrite decode_encode.
Qed.

(** ** Rules *)

Lemma Good_sim (s s' : FS) : sim s s' -> Good s -> Good s'.
Proof. intros [Hc _ Hr _]. unfold Good. by rewrite Hc, Hr. Qed.

Lemma Good_reads_bind {A B : Type} (m : M A) (k : A -> M B) F (s : FS) :
  reads_as m F -> Good s ->
  (forall a s', sim s s' -> Good s' -> F (cts s) (gc s) = Ok a -> wp (k a) (fun s' _ => Good s') s') ->
  wp (se_bind m k) (fun s' _ => Good s') s.
Proof.
  intros Hm HG Hk. eapply wp_reads_bind; [exact Hm| |].
  - intros s' Hs. pose proof (Good_sim _ _ Hs HG) as HG'.
    destruct (F (cts s) (gc s)) as [a|e] eqn:E; [by apply Hk|done].
  - intros s' e Hs _. by eapply Good_sim.
Qed.

Lemma Good_wrote (b : list BatchOp) (s s' : FS) :
  Good s -> range_ok (blockseq s) (apply_batch b (cts s)) ->
  puts_ok b (apply_batch b (cts s)) (next (blockseq s)) (next (blockseq s)) ->
  wrote b s s' -> Good s'.
Proof.
  intros HG Hr Hp [Hc _ Hb _]. unfold Good. rewrite Hc, Hb. by apply (Blocks_batch (blockseq s)).
Qed.

Lemma Good_write (b : list BatchOp) (s : FS) :
  Good s -> range_ok (blockseq s) (apply_batch b (cts s)) ->
  puts_ok b (apply_batch b (cts s)) (next (blockseq s)) (next (blockseq s)) ->
  wp (write_non_durable b) (fun s' _ => Good s') s.
Proof.
  intros HG Hr Hp. apply wp_write.
  - intros s' Hw. by eapply Good_wrote.
  - intros s' e [Hs|Hw] _; [by eapply Good_sim|by eapply Good_wrote].
Qed.

Lemma Good_put (k v : bytes) (s : FS) :
  Good s -> range_ok (blockseq s) (apply_batch [BPut k v] (cts s)) ->
  puts_ok [BPut k v] (apply_batch [BPut k v] (cts s)) (next (blockseq s)) (next (blockseq s)) ->
  wp (put_non_durable k v) (fun s' _ => Good s') s.
Proof.
  intros HG Hr Hp. apply wp_put.
  - intros s' Hw. by eapply Good_wrote.
  - intros s' e [Hs|Hw] _; [by eapply Good_sim|by eapply Good_wrote].
Qed.

(** The mark survives batches that do not touch the [mx] row. *)
Lemma range_other (b : list BatchOp) (s : FS) :
  Good s -> ops_on (fun K => K <> KIx) b -> range_ok (blockseq s) (apply_batch b (cts s)).
Proof.
  intros HG Hb. unfold range_ok, persisted, meta_of. change IX_KEY with (encode_key KIx).
  rewrite (ops_on_other (fun K => K <> KIx)) by (done || tauto). apply (bl_range _ _ HG).
Qed.

Lemma plain_row_ok m nx K v : plain_row K v -> row_ok m nx K v /\ forall q, K = KData q -> nx <= q.
Proof. by destruct K. Qed.

(** A batch that puts no other rows. *)
Definition plain_puts (b : list BatchOp) : Prop :=
  forall k v, BPut k v ∈ b -> exists K, key_ok K /\ k = encode_key K /\ plain_row K v.

(** ** Commits *)

Lemma seq_key_inv q k : seq_key q = Ok k -> 0 <= q /\ k = encode_key (KSeq q).
Proof. unfold seq_key. destruct (Z.ltb_spec q 0); [done|]. by intros [= <-]. Qed.

Lemma wrap_i64_range v : I64_MIN <= wrap_i64 v <= I64_MAX.
Proof.
  unfold wrap_i64, I64_MIN, I64_MAX. pose proof (Z.mod_pos_bound (v - -9223372036854775808) (2 ^ 64)). lia.
Qed.

(** The last three rows of a commit on top of any contents. *)
Lemma commit_tail_ok (r : SeqRange) (m m0 : contents) (b : list BatchOp) n f q nb :
  Blocks r m -> apply_batch b m = m0 -> name_ok n -> u64_ok q ->
  entry_ok m (next r) n f -> nb = storage.next_blockseq (meta_of m) ->
  plain_puts b ->
  let tail := [BPut IX_KEY (encode (storage.mkFolderIndexMeta q nb));
               BPut (file_key n) (file_bytes f); BPut (encode_key (KSeq q)) n] in
  Blocks r (apply_batch (b ++ tail) m).
Proof.
  intros H Hm0 Hn Hq Hf -> Hb tail. set (m' := apply_batch (b ++ tail) m).
  assert (m' !! IX_KEY = Some (encode (storage.mkFolderIndexMeta q (storage.next_blockseq (meta_of m)))))
    as Hix.
  { unfold m'. rewrite apply_batch_app. unfold tail, apply_batch at 1. cbn [fold_left apply_op].
    change IX_KEY with (encode_key KIx). change (file_key n) with (encode_key (KFile n)).
    rewrite !lookup_put by done. rewrite !decide_False by done. by rewrite decide_True by done. }
  assert (data_below (next r) m m') as Hd.
  { intros q' d Hq' [Hin|?]%apply_batch_inv; [|done].
    destruct (bl_range _ _ H) as [Hr1 Hr2].
    assert (key_ok (KData q')) as Hk by (unfold key_ok, u64_ok, U64_MAX in *; lia).
    apply elem_of_app in Hin as [Hin|Hin].
    - destruct (Hb _ _ Hin) as (K & HK & E & Ht). apply encode_key_inj in E; [|done..]. by subst.
    - unfold tail in Hin. exfalso. repeat (apply elem_of_cons in Hin as [Hin|Hin]);
        [| | |by apply not_elem_of_nil in Hin];
        apply (f_equal op_key) in Hin as E; cbn [op_key] in E.
      + change IX_KEY with (encode_key KIx) in E. by apply encode_key_inj in E.
      + change (file_key n) with (encode_key (KFile n)) in E. by apply encode_key_inj in E.
      + by apply (encode_key_inj (KData _) (KSeq _)) in E. }
  apply (Blocks_batch r); [done|lia| |].
  - fold m'. unfold range_ok, persisted, meta_of. rewrite Hix, decode_encode. apply (bl_range _ _ H).
  - fold m'. intros k v [Hin|Hin]%elem_of_app.
    + destruct (Hb _ _ Hin) as (K & HK & E & Ht). exists K.
      destruct (plain_row_ok m' (next r) K v Ht). by split_and!.
    + unfold tail in Hin. repeat (apply elem_of_cons in Hin as [Hin|Hin]);
        [| | |by apply not_elem_of_nil in Hin]; injection Hin as -> ->.
      * exists KIx. split_and!; try done. simpl. eauto.
      * exists (KFile n). split_and!; try done. exists f. split; [done|]. by eapply entry_ok_mono.
      * by exists (KSeq q).
Qed.

Lemma Good_commit (n : bytes) (stored : storage.FileInfo) (b : list BatchOp) (s : FS) :
  Good s -> name_ok n -> entry_ok (cts s) (next (blockseq s)) n stored ->
  plain_puts b ->
  wp (commit_with_new_seq n stored b) (fun s' _ => Good s') s.
Proof.
  intros HG Hn Hf Hb. unfold commit_with_new_seq.
  eapply Good_reads_bind; [apply carry_prior_reads|done|]. intros [st b1] s1 Hs1 HG1 E. cbv beta in E.
  assert (entry_ok (cts s1) (next (blockseq s1)) n st /\ plain_puts b1) as [Hst Hb1].
  { rewrite (sim_cts _ _ Hs1), (sim_blockseq _ _ Hs1).
    destruct (pure_file_proto n (cts s)) as [prior|] eqn:Ep; [|done]. cbn [rbind] in E.
    pose proof (Blocks_file _ _ _ _ HG Hn Ep) as Hp.
    destruct prior as [old|]; [|by injection E as <- <-].
    assert (entry_ok (cts s) (next (blockseq s)) n (carry_block_pointers stored old)) as Hc
      by (apply carry_ok; [done|by apply (Hp old)]).
    destruct (0 <? storage.sequence old); [|by injection E as <- <-].
    destruct (seq_key (storage.sequence old)) as [k|]; [|done]. injection E as <- <-.
    split; [done|]. intros k' v [Hin|Hin]%elem_of_app; [eauto|].
    by apply list_elem_of_singleton in Hin. }
  eapply Good_reads_bind; [apply get_index_meta_reads|done|]. intros meta s2 Hs2 HG2 Em.
  cbv beta in Em. rewrite (Blocks_meta _ _ HG1) in Em. injection Em as <-.
  set (q := wrap_i64 _). eapply Good_reads_bind; [apply reads_as_lift|done|].
  intros sk s3 Hs3 HG3 Esk. apply seq_key_inv in Esk as [Hq ->].
  assert (sim s1 s3) as Hs13 by (by etrans).
  assert (wp (write_non_durable (b1 ++ [BPut IX_KEY (encode (storage.mkFolderIndexMeta q
            (storage.next_blockseq (meta_of (cts s1)))));
            BPut (file_key n) (encode (storage.mkFile (Some (storage.set_sequence st q))));
            BPut (encode_key (KSeq q)) n])) (fun s' _ => Good s') s3) as Hw.
  { assert (Blocks (blockseq s3) (apply_batch (b1 ++ [BPut IX_KEY (encode (storage.mkFolderIndexMeta q
            (storage.next_blockseq (meta_of (cts s1)))));
            BPut (file_key n) (file_bytes (storage.set_sequence st q));
            BPut (encode_key (KSeq q)) n]) (cts s3))) as HB.
    { eapply commit_tail_ok; try done.
      - pose proof (wrap_i64_range (storage.max_sequence (meta_of (cts s1)) + 1)).
        unfold q, u64_ok, I64_MAX in *. lia.
      - rewrite (sim_cts _ _ Hs13), (sim_blockseq _ _ Hs13). destruct Hst. split; [done|by apply filed_sequence].
      - by rewrite (sim_cts _ _ Hs13). }
    apply wp_write.
    - intros s' [Hc _ Hbs _]. unfold Good. by rewrite Hc, Hbs.
    - intros s' e [Hs|[Hc _ Hbs _]] _; [by eapply Good_sim|]. unfold Good. by rewrite Hc, Hbs. }
  apply wp_bind. eapply wp_mono; [|exact Hw]. intros s4 [[]|e] HG4; [|done].
  eapply Good_reads_bind; [apply reads_as_lift|done|]. intros cb s5 Hs5 HG5 _. by apply wp_ret.
Qed.

(** ** Operations on files *)

Lemma no_puts : plain_puts [].
Proof. intros k v H. by apply not_elem_of_nil in H. Qed.

Lemma Good_put_file file (s : FS) :
  Good s -> name_ok (bep.name file) -> wp (put_file file) (fun s' _ => Good s') s.
Proof.
  intros HG Hn. unfold put_file. apply wp_bind.
  eapply wp_mono; [|apply Good_commit; [done..|apply wire_file_ok|apply no_puts]].
  by intros s' [[seq f]|e] HG'.
Qed.

Lemma carried_blocks_keys f n :
  name_ok n -> plain_puts (map (fun p => BPut (block_reverse_key (fst p) n) []) (carried_blocks f)).
Proof.
  intros Hn k v ([h q] & [= -> ->] & Hin)%list_elem_of_fmap. exists (KReverse h n). split; [|done].
  split; [|done]. unfold carried_blocks in Hin. apply list_elem_of_omap in Hin as (b & _ & Hb).
  destruct (storage.blockseq b); [|done].
  destruct (Nat.eqb_spec (length (storage.hash b)) HASH_LEN); [|done]. by injection Hb as <- _.
Qed.

Lemma Good_record_all l (s : FS) : Good s -> wp (record_all l) (fun s' _ => Good s') s.
Proof.
  revert s. induction l as [|[h q] l IH]; intros s HG; cbn [record_all]; [by apply wp_ret|].
  apply wp_bind, wp_modify. by apply IH.
Qed.

Lemma Good_put_file_with_carry file from (s : FS) :
  Good s -> name_ok (bep.name file) -> name_ok from ->
  wp (put_file_with_carry file from) (fun s' _ => Good s') s.
Proof.
  intros HG Hn Hf. unfold put_file_with_carry.
  eapply Good_reads_bind; [apply get_file_proto_reads|done|]. intros src s1 Hs1 HG1 E. cbv beta in E.
  apply wp_bind. eapply wp_mono; [|apply Good_commit; [done..| |]].
  - intros s2 [[seq fb]|e] HG2; [|done]. apply wp_bind.
    eapply wp_mono; [|by apply Good_record_all]. intros s3 [[]|e] HG3; [by apply wp_ret|done].
  - rewrite (sim_cts _ _ Hs1), (sim_blockseq _ _ Hs1).
    pose proof (Blocks_file _ _ _ _ HG Hf E) as Hsrc.
    destruct src as [src|]; [|apply wire_file_ok]. apply carry_ok; [apply wire_file_ok|by apply (Hsrc src)].
  - destruct src; [by apply carried_blocks_keys|apply no_puts].
Qed.

Lemma Good_one_put (K : Key) v (s : FS) :
  Good s -> key_ok K -> K <> KIx -> (forall q, K <> KData q) ->
  (forall m', data_below (next (blockseq s)) (cts s) m' -> row_ok m' (next (blockseq s)) K v) ->
  wp (put_non_durable (encode_key K) v) (fun s' _ => Good s') s.
Proof.
  intros HG HK Hix Hdata Hrow. apply Good_put; [done| |].
  - apply range_other; [done|]. constructor; [|constructor]. by exists K.
  - intros k v' Hin. apply list_elem_of_singleton in Hin as [= -> ->]. exists K.
    split_and!; [done..| |intros q ->; by destruct (Hdata q)]. apply Hrow.
    intros q d Hq Hl. unfold data_row in *. cbn [apply_batch fold_left apply_op] in Hl.
    destruct (bl_range _ _ HG) as [Hr1 Hr2].
    rewrite lookup_put in Hl by (done || (unfold key_ok, u64_ok, U64_MAX in *; lia)).
    by rewrite decide_False in Hl.
Qed.

Lemma Good_stage_file e file (s : FS) :
  Good s -> epoch_ok e -> name_ok (bep.name file) ->
  wp (stage_file e file) (fun s' _ => Good s') s.
Proof.
  intros HG He Hn. apply (Good_one_put (KInbox e (bep.name file))); try done.
  intros m' _. eexists. split; [done|]. apply wire_file_ok.
Qed.

Lemma Good_put_remote_state dev st (s : FS) :
  Good s -> length dev = DEVID_LEN -> wp (put_remote_state dev st) (fun s' _ => Good s') s.
Proof. intros HG Hd. apply (Good_one_put (KDevice dev)); try done. intros m' _. by exists st. Qed.

Lemma Blocks_inbox r m e n v :
  Blocks r m -> epoch_ok e -> name_ok n -> m !! inbox_key e n = Some v ->
  exists f, v = inbox_bytes f /\ entry_ok m (next r) n f.
Proof.
  intros H He Hn E. change (inbox_key e n) with (encode_key (KInbox e n)) in E.
  by apply (bl_rows _ _ H) in E.
Qed.

Lemma Good_complete_file e n v (s : FS) :
  Good s -> epoch_ok e -> name_ok n -> wp (complete_file e n v) (fun s' _ => Good s') s.
Proof.
  intros HG He Hn. unfold complete_file.
  eapply Good_reads_bind; [apply get_reads|done|]. intros row s1 Hs1 HG1 [= E].
  destruct row as [b|]; [|by apply wp_ret].
  destruct (Blocks_inbox _ _ _ _ _ HG He Hn E) as (f & -> & Hf).
  unfold inbox_bytes. rewrite decode_encode. apply wp_bind, wp_lift. cbn [ok_or storage.inbox_file_info].
  apply wp_bind, wp_lift. cbn [ok_or]. case_bool_decide; cbn [negb]; [|by apply wp_ret].
  eapply Good_reads_bind; [apply get_file_proto_reads|done|]. intros prior s2 Hs2 HG2 _.
  destruct (incomplete _); [by apply wp_err|]. apply wp_bind.
  eapply wp_mono; [|apply Good_commit; [done..| |]].
  - intros s3 [[q fb]|err] HG3; [by apply wp_ret|done].
  - assert (sim s s2) as Hss2 by (by etrans). by rewrite (sim_cts _ _ Hss2), (sim_blockseq _ _ Hss2).
  - intros k v' Hin. by apply list_elem_of_singleton in Hin.
Qed.

(** ** Inbox collection *)

(** The inbox rows of earlier epochs. *)
Definition stale (cur : Base32.Epoch) (kv : bytes * bytes) : bool :=
  match parse_inbox_key (fst kv) with
  | Some (e, _) => Base32.epoch_ltb e cur
  | None => false
  end.

Definition gc_batch (cur : Base32.Epoch) (items : list (bytes * bytes)) : list BatchOp :=
  map (fun kv => BDelete (fst kv)) (filter (fun kv => stale cur kv = true) items).

Definition gc_body (cur : Base32.Epoch) (acc : list BatchOp * nat) (kv : bytes * bytes) : list BatchOp * nat :=
  match parse_inbox_key (fst kv) with
  | Some (epoch, _) =>
      if Base32.epoch_ltb epoch cur then (fst acc ++ [BDelete (fst kv)], S (snd acc)) else acc
  | None => acc
  end.

Lemma gc_fold cur items acc :
  rfold items acc (fun a kv => Ok (gc_body cur a kv)) =
    Ok (fst acc ++ gc_batch cur items, (snd acc + length (gc_batch cur items))%nat).
Proof.
  revert acc. induction items as [|kv items IH]; intros [b n]; cbn [rfold rbind fst snd].
  - rewrite app_nil_r, Nat.add_0_r. done.
  - rewrite IH. unfold gc_batch, gc_body. rewrite filter_cons.
    destruct (parse_inbox_key (fst kv)) as [[e n']|] eqn:E.
    + destruct (Base32.epoch_ltb e cur) eqn:El; cbn [fst snd].
      * rewrite decide_True by (unfold stale; by rewrite E). cbn [map length].
        rewrite <- app_assoc. f_equal. apply pair_equal_spec. split; [done|lia].
      * by rewrite decide_False by (unfold stale; rewrite E; congruence).
    + by rewrite decide_False by (unfold stale; rewrite E; congruence).
Qed.

(** Reading the stale rows, then one batch that removes them. *)
Lemma wp_gc_inbox cur (s : FS) (Q : FS -> result StorageError.t nat -> Prop) :
  let b := gc_batch cur (entries (starts_with INBOX_PREFIX) (cts s)) in
  (forall s', sim s s' \/ wrote b s s' -> forall e, ~ healthy s -> Q s' (Err e)) ->
  (forall s', (wrote b s s' \/ (b = [] /\ sim s s')) -> Q s' (Ok (length b))) ->
  wp (gc_inbox cur) Q s.
Proof.
  intros b Herr Hok. unfold gc_inbox.
  assert (wp (do! sc <- on_db (db_scan_prefix INBOX_PREFIX);
              iterate sc ([], O) (fun acc kv => se_ret (gc_body cur acc kv)))
            (fun s' r => sim s s' /\ (r = Ok (b, length b) \/ (~ healthy s /\ is_ok r = false))) s) as Hw.
  { unfold wp.
    destruct (scan_iterate_reads (HF := HF) (SF := SF) (db_scan_prefix INBOX_PREFIX) (starts_with INBOX_PREFIX) ([], O)
      (fun acc kv => se_ret (gc_body cur acc kv)) (fun acc kv _ _ => Ok (gc_body cur acc kv)))
      with (s := s) as [Hs Hr]; [apply db_scan_prefix_scans|intros; apply reads_as_ret|].
    split; [exact Hs|]. destruct Hr as [Hr|[(e & items & rest & _ & Hr & _)|Hr]]; [left|exfalso|by right].
    - by rewrite gc_fold in Hr.
    - by rewrite gc_fold in Hr. }
  apply wp_assoc, wp_bind. eapply wp_mono; [|exact Hw].
  intros s1 r [Hs [->|[Hh He]]]; [|destruct r; [done|by apply Herr; [left|]]].
  apply wp_bind. destruct (Nat.ltb_spec 0 (length b)).
  - apply wp_write.
    + intros s2 Hw2. apply wp_ret. apply Hok. left. by eapply sim_wrote.
    + intros s2 e Hor Hh. apply Herr; [|intros Hh'; by apply Hh, Hs].
      destruct Hor; [left; by etrans|right; by eapply sim_wrote].
  - apply wp_ret, wp_ret. apply Hok. right. split; [|done]. destruct b; [done|simpl in *; lia].
Qed.

Lemma gc_batch_keys cur items o :
  o ∈ gc_batch cur items -> exists kv, kv ∈ items /\ stale cur kv = true /\ o = BDelete (fst kv).
Proof.
  intros (kv & -> & Hin)%list_elem_of_fmap. apply list_elem_of_filter in Hin as [Hs Hin]. eauto.
Qed.

Lemma Good_gc_inbox cur (s : FS) : Good s -> wp (gc_inbox cur) (fun s' _ => Good s') s.
Proof.
  intros HG. set (b := gc_batch cur (entries (starts_with INBOX_PREFIX) (cts s))).
  assert (forall s', wrote b s s' -> Good s') as Hw.
  { intros s'. apply Good_wrote; [done| |].
    - unfold range_ok. rewrite persisted_other; [apply (bl_range _ _ HG)|].
      intros (o & E & (kv & _ & Hst & ->)%gc_batch_keys)%list_elem_of_fmap. simpl in E.
      unfold stale in Hst. rewrite <- E in Hst. done.
    - intros k v (kv & _ & _ & ?)%gc_batch_keys. done. }
  apply wp_gc_inbox; fold b.
  - intros s' [Hs|Hs] e _; [by eapply Good_sim|auto].
  - intros s' [Hs|[_ Hs]]; [auto|by eapply Good_sim].
Qed.

(** ** Allocation *)

(** The persisted mark is far from the end of [u64]. *)
Definition room (m : contents) : Prop := persisted m + RESERVATION_N <= U64_MAX.

(** The store after handing out [q]: everything it holds was there before and
    refers to numbers below [q], and the next number is above it. *)
Definition handed_out (q : Z) (s s' : FS) : Prop :=
  Blocks (mkRange q q) (cts s') /\ range_ok (blockseq s') (cts s') /\
  next (blockseq s) <= q < next (blockseq s') /\ MIN_BLOCK_SEQ <= q /\
  (forall K, key_ok K -> K <> KIx -> cts s' !! encode_key K = cts s !! encode_key K).

Lemma Blocks_raise (r r' : SeqRange) (m : contents) :
  Blocks r m -> next r <= next r' -> range_ok r' m -> Blocks r' m.
Proof.
  intros H Hle Hr. apply (Blocks_batch r r' m []); try done.
  intros k v Hin. by apply not_elem_of_nil in Hin.
Qed.

Lemma handed_out_Good q s s' : handed_out q s s' -> Good s'.
Proof. intros (H & Hr & Hq & _). eapply Blocks_raise; [exact H|simpl; lia|done]. Qed.

Lemma set_mark (s s' : FS) meta :
  Good s -> persisted (cts s) <= default 0 (storage.next_blockseq meta) <= U64_MAX ->
  wrote [BPut IX_KEY (encode meta)] s s' ->
  Good s' /\ persisted (cts s') = default 0 (storage.next_blockseq meta).
Proof.
  intros HG Hm Hw. pose proof (bl_range _ _ HG) as [Hr1 Hr2].
  assert (persisted (apply_batch [BPut IX_KEY (encode meta)] (cts s)) =
          default 0 (storage.next_blockseq meta)) as Hp.
  { unfold persisted, meta_of. cbn [apply_batch fold_left apply_op].
    by rewrite lookup_insert_eq, decode_encode. }
  split; [|by rewrite (wrote_cts _ _ _ Hw)].
  eapply Good_wrote; [exact HG| | |exact Hw].
  - unfold range_ok. rewrite Hp. lia.
  - intros k v Hin. apply list_elem_of_singleton in Hin as [= -> ->]. exists KIx.
    split_and!; try done. simpl. eauto.
Qed.

Lemma wrap_u64_small v : 0 <= v <= U64_MAX -> wrap_u64 v = v.
Proof. unfold wrap_u64, U64_MAX. intros H. apply Z.mod_small. lia. Qed.

(** [allocate] hands out fresh numbers; failing, it leaves a good store. *)
Lemma wp_allocate (s : FS) :
  Good s -> room (cts s) ->
  wp allocate (fun s' r =>
    match r with
    | Ok q => handed_out q s s' /\ (healthy s -> healthy s')
    | Err _ => Good s' /\ ~ healthy s
    end) s.
Proof.
  intros HG Hroom. pose proof (bl_range _ _ HG) as [Hr1 Hr2]. unfold allocate.
  apply wp_bind, wp_get. destruct (Z.ltb_spec (next (blockseq s)) (rend (blockseq s))).
  { apply wp_bind, wp_modify, wp_ret. split; [|done]. unfold handed_out.
    change (cts (mkStore (db s) _ _)) with (cts s). cbn [blockseq]. split; [|split].
    - eapply Blocks_raise; [exact HG|simpl; lia|]. unfold range_ok. cbn [next rend]. lia.
    - unfold range_ok. cbn [next rend]. lia.
    - split; [simpl; lia|]. split; [lia|done]. }
  eapply wp_reads_bind; [apply get_reads| |].
  2:{ intros s1 e Hs1 Hh. split; [by eapply Good_sim|done]. }
  intros s1 Hs1. cbv beta iota. apply wp_bind.
  assert (wp (match cts s !! IX_KEY with
              | Some b => corrupt "decode FolderIndexMeta" (decode b)
              | None => se_ret storage.FolderIndexMeta_default
              end) (fun s' r => r = Ok (meta_of (cts s)) /\ s' = s1) s1) as Hmeta.
  { pose proof (Blocks_meta _ _ HG) as Em. unfold pure_meta in Em.
    destruct (cts s !! IX_KEY); [|apply wp_ret; by rewrite <- Em]. apply wp_lift. by rewrite <- Em. }
  eapply wp_mono; [|exact Hmeta]. intros ? ? [-> ->].
  set (base := Z.max (default 0 (storage.next_blockseq (meta_of (cts s)))) MIN_BLOCK_SEQ).
  fold (persisted (cts s)) in base. unfold room, RESERVATION_N in *.
  assert (base + 256 <= U64_MAX) as Hb by (unfold base, MIN_BLOCK_SEQ, U64_MAX in *; lia).
  rewrite !wrap_u64_small by (unfold base, MIN_BLOCK_SEQ in *; lia).
  set (meta' := storage.mkFolderIndexMeta _ _).
  assert (forall s2, wrote [BPut IX_KEY (encode meta')] s1 s2 ->
            Good s2 /\ persisted (cts s2) = base + 256) as Hmark.
  { intros s2 Hw. apply (set_mark s1 s2 meta'); [by eapply Good_sim| |done].
    rewrite (sim_cts _ _ Hs1). simpl. unfold base in *. lia. }
  apply wp_bind, wp_put.
  2:{ intros s2 e Hor Hh. split; [|intros Hh'; by apply Hh, Hs1].
      destruct Hor as [Hs|Hw]; [eapply Good_sim; [exact Hs|by eapply Good_sim]|by apply Hmark]. }
  intros s2 Hw. destruct (Hmark s2 Hw) as [HG2 Hp2].
  assert (healthy s -> healthy s2) as Hh2 by (intros; by apply Hw, Hs1).
  eapply wp_reads_bind; [apply flush_reads| |].
  2:{ intros s3 e Hs3 Hh. split; [by eapply Good_sim|]. auto. }
  intros s3 Hs3. cbv beta iota. apply wp_bind, wp_modify, wp_ret.
  split; [|intros; by apply Hs3, Hh2].
  unfold handed_out. cbn [blockseq next rend]. change (cts (mkStore (db s3) _ _)) with (cts s3).
  rewrite (sim_cts _ _ Hs3). unfold Good in HG2.
  rewrite (wrote_blockseq _ _ _ Hw), (sim_blockseq _ _ Hs1) in HG2.
  assert (rend (blockseq s) <= base) by (unfold base; lia). split_and!; try lia; try (unfold base; lia).
  - eapply Blocks_raise; [exact HG2|simpl; lia|]. unfold range_ok. cbn [next rend]. rewrite Hp2. lia.
  - unfold range_ok. cbn [next rend]. rewrite Hp2. unfold base in *. lia.
  - intros K HK Hne. rewrite (wrote_cts _ _ _ Hw), (sim_cts _ _ Hs1).
    change IX_KEY with (encode_key KIx). cbn [apply_batch fold_left apply_op].
    rewrite lookup_put by done. by rewrite decide_False.
Qed.

(** ** Finding entries and blocks *)

Definition pure_staged (epoch : option Base32.Epoch) (n : bytes) (c : contents)
  : result StorageError.t (option (storage.FileInfo * bytes * bool)) :=
  match epoch with
  | Some ep =>
      match c !! inbox_key ep n with
      | Some b =>
          try inbox <- ok_or (decode b) (StorageError.Corruption "decode staged Inbox");
          Ok (match storage.inbox_file_info inbox with
              | Some fi => Some (fi, inbox_key ep n, true)
              | None => None
              end)
      | None => Ok None
      end
  | None => Ok None
  end.

Definition pure_entry (epoch : option Base32.Epoch) (n : bytes) (c : contents)
  : result StorageError.t (storage.FileInfo * bytes * bool) :=
  try staged <- pure_staged epoch n c;
  match staged with
  | Some r => Ok r
  | None =>
      match c !! file_key n with
      | Some b =>
          try file <- ok_or (decode b) (StorageError.Corruption "decode File");
          match storage.file_info file with
          | Some fi => Ok (fi, file_key n, false)
          | None => Err (StorageError.NotFound "file not found in inbox or main index")
          end
      | None => Err (StorageError.NotFound "file not found in inbox or main index")
      end
  end.

Lemma find_file_entry_reads epoch n :
  reads_as (Db := Db) (HF := HF) (SF := SF) (find_file_entry epoch n) (fun c _ => pure_entry epoch n c).
Proof. unfold find_file_entry. reads. Qed.

(** The entry to update: a good file and the row it came from. *)
Lemma pure_entry_ok r c epoch n f k ib :
  Blocks r c -> name_ok n -> (forall e, epoch = Some e -> epoch_ok e) ->
  pure_entry epoch n c = Ok (f, k, ib) ->
  entry_ok c (next r) n f /\
  exists K, key_ok K /\ k = encode_key K /\
    match K with KFile n' => n' = n /\ ib = false | KInbox _ n' => n' = n /\ ib = true | _ => False end.
Proof.
  intros H Hn He. unfold pure_entry.
  assert (forall o, pure_staged epoch n c = Ok o -> forall f k ib, o = Some (f, k, ib) ->
            entry_ok c (next r) n f /\ exists e, epoch_ok e /\ k = encode_key (KInbox e n) /\ ib = true) as Hst.
  { intros o E f0 k0 ib0 ->. unfold pure_staged in E. destruct epoch as [e|]; [|done].
    specialize (He e eq_refl). destruct (c !! inbox_key e n) as [b|] eqn:Eb; [|done].
    destruct (Blocks_inbox _ _ _ _ _ H He Hn Eb) as (g & -> & Hg).
    unfold inbox_bytes in E. rewrite decode_encode in E. cbn [ok_or rbind storage.inbox_file_info] in E.
    injection E as <- <- <-. split; [done|]. by exists e. }
  destruct (pure_staged epoch n c) as [[[[f0 k0] ib0]|]|]; [| |done]; cbn [rbind].
  - intros [= <- <- <-]. destruct (Hst _ eq_refl _ _ _ eq_refl) as (Hf & e & ? & -> & ->).
    split; [done|]. by exists (KInbox e n).
  - destruct (c !! file_key n) as [b|] eqn:Eb; [|done].
    change (file_key n) with (encode_key (KFile n)) in Eb.
    apply (bl_rows _ _ H) in Eb as (g & -> & Hg); [|done]. unfold file_bytes. rewrite decode_encode.
    cbn [ok_or rbind storage.file_info]. intros [= <- <- <-]. split; [done|]. by exists (KFile n).
Qed.

(** A candidate found by the reverse-reference scan: a pointer row for the hash
    whose data row is there. *)
Definition found (c : contents) (h : bytes) (dir : bytes) (ref : storage.BlockRef) : Prop :=
  exists v, c !! block_pointer_key dir h = Some v /\ decode v = Some ref /\
            is_Some (c !! block_data_seq_key (storage.seqno ref)) /\ MIN_BLOCK_SEQ <= storage.seqno ref.

Definition found_result (s : FS) (h : bytes) (s' : FS)
  (r : result StorageError.t (option (bytes * storage.BlockRef))) : Prop :=
  sim s s' /\
  match r with
  | Ok (Some (dir, ref)) => found (cts s) h dir ref
  | Ok None => True
  | Err _ => ~ healthy s
  end.

Lemma found_sim s s1 h s' r : sim s s1 -> found_result s1 h s' r -> found_result s h s' r.
Proof.
  intros Hs [Hs' Hr]. split; [by etrans|]. destruct r as [[[dir ref]|]|e]; [|done|].
  - unfold found in *. by rewrite (sim_cts _ _ Hs) in Hr.
  - intros Hh. by apply Hr, Hs.
Qed.

Lemma wp_find_block_loop h items (s : FS) :
  Good s -> length h = HASH_LEN -> wp (find_block_loop h items) (found_result s h) s.
Proof.
  intros HG Hh. revert s HG. induction items as [|kv items IH]; intros s HG; cbn [find_block_loop].
  { apply wp_ret. by split. }
  assert (forall s1, sim s s1 -> wp (find_block_loop h items) (found_result s h) s1) as IH'.
  { intros s1 Hs1. eapply wp_mono; [|apply IH; by eapply Good_sim]. intros s' r. by apply found_sim. }
  destruct (parse_block_reverse_key (fst kv)) as [[h' name]|]; [|by apply IH'].
  eapply wp_reads_bind; [apply get_reads| |by split]. intros s1 Hs1. cbv beta iota.
  change (block_pointer_key (dirname name) h) with (encode_key (KPointer (dirname name) h)).
  destruct (cts s !! encode_key (KPointer (dirname name) h)) as [v|] eqn:Ev; [|by apply IH'].
  destruct (bl_rows _ _ HG _ _ (Hh : key_ok (KPointer (dirname name) h)) Ev) as (q & -> & [Hq _]).
  rewrite decode_encode. apply wp_bind, wp_lift. cbn [ok_or storage.seqno].
  unfold validate_block_seq. destruct (Z.ltb_spec q MIN_BLOCK_SEQ); [lia|]. apply wp_bind, wp_lift.
  eapply wp_reads_bind; [apply get_reads| |].
  2:{ intros s2 e Hs2 Hh2. split; [by etrans|]. intros Hh'. by apply Hh2, Hs1. }
  intros s2 Hs2. cbv beta iota. assert (sim s s2) as Hss2 by (by etrans).
  rewrite (sim_cts _ _ Hs1). destruct (cts s !! block_data_seq_key q) as [d|] eqn:Ed; [|by apply IH'].
  apply wp_ret. split; [done|]. exists (encode (storage.mkBlockRef q)).
  split_and!; [done|apply decode_encode|cbn [storage.seqno]; rewrite Ed; eauto|done].
Qed.

Lemma wp_find_block_dir h (s : FS) :
  Good s -> length h = HASH_LEN -> wp (find_block_dir h) (found_result s h) s.
Proof.
  intros HG Hlen. unfold find_block_dir. apply wp_bind, wp_get.
  destruct (negb _); [apply wp_ret; by split|]. apply wp_bind.
  destruct (db_scan_prefix_scans (block_reverse_prefix h)) as [Hscan Hend].
  unfold wp at 1, on_db. destruct (Hscan (db s)) as (Hc & Hh & _). specialize (Hend (db s)).
  destruct (db_scan_prefix (block_reverse_prefix h) (db s)) as [d [sc|e]]; cbn [fst snd map_err] in *.
  2:{ split; [constructor; try done; intros H; by apply Hh|]. intros H. by apply Hh in H as [_ ?]. }
  set (s1 := mkStore d (gc s) (blockseq s) : FS).
  assert (sim s s1) as Hs1 by (constructor; try done; intros H; by apply Hh).
  apply wp_bind. eapply wp_mono; [|apply wp_find_block_loop; [by eapply Good_sim|done]].
  intros s2 r Hr. apply (found_sim s) in Hr as [Hs2 Hr]; [|done].
  destruct r as [[[dir ref]|]|e]; [apply wp_ret; by split| |by split].
  apply wp_bind. unfold end_of_scan. destruct (scan_error sc) eqn:Es; [|by apply wp_ret, wp_ret].
  apply wp_err. split; [done|]. intros H. specialize (Hend sc H eq_refl). congruence.
Qed.

Lemma found_ref_ok r c h dir ref :
  Blocks r c -> length h = HASH_LEN -> found c h dir ref -> ref_ok c (next r) h (storage.seqno ref).
Proof.
  intros H Hh (v & Hv & Hd & _). change (block_pointer_key dir h) with (encode_key (KPointer dir h)) in Hv.
  apply (bl_rows _ _ H) in Hv as (q & -> & Hq); [|done]. rewrite decode_encode in Hd.
  by injection Hd as <-.
Qed.

(** ** Storing blocks *)

(** The batch of a block write: rows other than files, inbox entries and [mx],
    good in the contents it produces, data only at numbers from [nx] on; and
    the pointer that goes into the entry. *)
Definition block_batch_ok (b : list BatchOp) (h : bytes) (seq : option Z) (nx nx' : Z) (c : contents) : Prop :=
  ops_on (fun K => match K with KPointer _ _ | KData _ | KReverse _ _ => True | _ => False end) b /\
  forall k v, (forall K, key_ok K -> k = encode_key K ->
                 match K with KFile _ | KInbox _ _ => True | _ => False end) ->
    let m' := apply_batch (b ++ [BPut k v]) c in
    puts_ok b m' nx nx' /\ forall q, seq = Some q -> ref_ok m' nx' h q.

Lemma wp_update_entry (r0 : SeqRange) epoch n h seq inline b (s : FS) :
  Blocks r0 (cts s) -> next r0 <= next (blockseq s) -> range_ok (blockseq s) (cts s) ->
  name_ok n -> (forall e, epoch = Some e -> epoch_ok e) ->
  (forall d, inline = Some d -> good h d) ->
  block_batch_ok b h seq (next r0) (next (blockseq s)) (cts s) ->
  wp (update_entry epoch n h seq inline b) (fun s' _ => Good s') s.
Proof.
  intros H Hle Hr Hn He Hin [Hb1 Hb2].
  assert (Good s) as HG by (by eapply Blocks_raise).
  unfold update_entry. eapply Good_reads_bind; [apply find_file_entry_reads|done|].
  intros [[f k] ib] s1 Hs1 HG1 E. cbv beta in E.
  destruct (pure_entry_ok _ _ _ _ _ _ _ H Hn He E) as (Hf & K & HK & -> & HKib).
  destruct (update_blocks h seq inline f) as [f' up] eqn:Eu. destruct up; cbn [negb]; [|by apply wp_err].
  set (v := if ib then _ else _).
  assert (forall K', key_ok K' -> encode_key K = encode_key K' ->
            match K' with KFile _ | KInbox _ _ => True | _ => False end) as HKe.
  { intros K' HK' EK. apply encode_key_inj in EK; [|done..]. subst K'. by destruct K. }
  destruct (Hb2 (encode_key K) v HKe) as [Hp Href]. set (m' := apply_batch _ _) in Hp, Href.
  assert (data_below (next r0) (cts s) m') as Hd.
  { intros q d Hq [Hput|?]%apply_batch_inv; [|done]. exfalso.
    assert (key_ok (KData q)) as Hkq
      by (destruct (bl_range _ _ H); unfold key_ok, u64_ok, U64_MAX in *; lia).
    apply elem_of_app in Hput as [Hput|Hput].
    - destruct (Hp _ _ Hput) as (K' & HK' & EK & _ & Hnx). apply encode_key_inj in EK; [|done..].
      specialize (Hnx q (eq_sym EK)). lia.
    - apply list_elem_of_singleton in Hput. apply (f_equal op_key) in Hput. cbn [op_key] in Hput.
      by apply (HKe (KData q) Hkq). }
  assert (entry_ok m' (next (blockseq s)) n f') as Hf'.
  { replace f' with (fst (update_blocks h seq inline f)) by (by rewrite Eu).
    apply update_blocks_ok; [|done|done]. by eapply entry_ok_mono. }
  assert (Blocks (blockseq s) m') as HB.
  { apply (Blocks_batch r0); [done|done| |].
    - unfold range_ok. rewrite persisted_other; [done|].
      intros (o & Eo & Ho)%list_elem_of_fmap. change IX_KEY with (encode_key KIx) in Eo.
      apply elem_of_app in Ho as [Ho|Ho].
      + unfold ops_on in Hb1. rewrite Forall_forall in Hb1. destruct (Hb1 o Ho) as (K' & HK' & Hc & E').
        rewrite E' in Eo. apply encode_key_inj in Eo; [|done..]. by subst.
      + apply list_elem_of_singleton in Ho. subst o. cbn [op_key] in Eo. by apply (HKe KIx).
    - intros k0 v0 [Hput|Hput]%elem_of_app; [by apply Hp|].
      apply list_elem_of_singleton in Hput as [= -> ->]. exists K.
      destruct K; try done; destruct HKib as [-> ->]; (split_and!; [done..| |done]); by exists f'. }
  apply wp_write.
  - intros s2 Hw. unfold Good. rewrite (wrote_cts _ _ _ Hw), (wrote_blockseq _ _ _ Hw).
    by rewrite (sim_cts _ _ Hs1), (sim_blockseq _ _ Hs1).
  - intros s2 e [Hs|Hw] _; [by eapply Good_sim|].
    unfold Good. rewrite (wrote_cts _ _ _ Hw), (wrote_blockseq _ _ _ Hw).
    by rewrite (sim_cts _ _ Hs1), (sim_blockseq _ _ Hs1).
Qed.

Definition entry_key (k : bytes) : Prop :=
  forall K, key_ok K -> k = encode_key K -> match K with KFile _ | KInbox _ _ => True | _ => False end.

Lemma entry_put_data (b : list BatchOp) (k v : bytes) (c : contents) (q : Z) :
  entry_key k -> key_ok (KData q) ->
  data_row (apply_batch (b ++ [BPut k v]) c) q = data_row (apply_batch b c) q.
Proof.
  intros Hk Hq. unfold data_row. rewrite apply_batch_app. cbn [apply_batch fold_left apply_op].
  apply lookup_insert_ne. intros E. by apply (Hk (KData q)).
Qed.

(** The rows of a block that is already stored. *)
Definition reuse_rows (h n : bytes) (canonical : bytes) (ref : storage.BlockRef) : list BatchOp :=
  (if bool_decide (canonical = dirname n) then []
   else [BPut (block_pointer_key (dirname n) h) (encode ref)]) ++ [BPut (block_reverse_key h n) []].

Lemma reuse_rows_puts h n dir ref k v :
  length h = HASH_LEN -> name_ok n -> BPut k v ∈ reuse_rows h n dir ref ->
  exists K, key_ok K /\ k = encode_key K /\
    ((exists d, K = KPointer d h /\ v = encode ref) \/ (K = KReverse h n /\ v = [])).
Proof.
  intros Hh Hn [Hin|Hin]%elem_of_app.
  - case_bool_decide; [by apply not_elem_of_nil in Hin|].
    apply list_elem_of_singleton in Hin as [= -> ->]. exists (KPointer (dirname n) h). eauto 6.
  - apply list_elem_of_singleton in Hin as [= -> ->]. exists (KReverse h n). split; [by split|]. auto.
Qed.

Lemma reuse_rows_keys h n dir ref :
  length h = HASH_LEN -> name_ok n ->
  ops_on (fun K => match K with KPointer _ _ | KReverse _ _ => True | _ => False end)
    (reuse_rows h n dir ref).
Proof.
  intros Hh Hn. apply ops_on_app.
  - case_bool_decide; [constructor|]. constructor; [|constructor]. by exists (KPointer (dirname n) h).
  - constructor; [|constructor]. exists (KReverse h n). split; [by split|]. by split.
Qed.

Lemma reuse_batch_ok (r : SeqRange) (c : contents) (h n dir : bytes) (ref : storage.BlockRef) :
  Blocks r c -> length h = HASH_LEN -> name_ok n -> ref_ok c (next r) h (storage.seqno ref) ->
  block_batch_ok (reuse_rows h n dir ref) h (Some (storage.seqno ref)) (next r) (next r) c.
Proof.
  intros H Hh Hn Href. split.
  { eapply ops_on_mono; [|by apply reuse_rows_keys]. by intros []. }
  intros k v Hk m'. assert (ref_ok m' (next r) h (storage.seqno ref)) as Href'.
  { eapply ref_ok_mono; [reflexivity| |exact Href]. intros q d Hq.
    assert (key_ok (KData q)) as Hkq
      by (destruct (bl_range _ _ H); unfold key_ok, u64_ok, U64_MAX in *; lia).
    unfold m'. rewrite entry_put_data by done. unfold data_row.
    by rewrite (ops_on_other _ _ _ _ (reuse_rows_keys h n dir ref Hh Hn)) by (done || (intros [])). }
  split; [|by intros q [= <-]]. intros k' v' Hin.
  destruct (reuse_rows_puts _ _ _ _ _ _ Hh Hn Hin) as (K & HK & -> & [(d & -> & ->)|[-> ->]]).
  - exists (KPointer d h). split_and!; try done. exists (storage.seqno ref). by destruct ref.
  - by exists (KReverse h n).
Qed.

(** The rows of a new block. *)
Definition new_rows (h n data : bytes) (q : Z) : list BatchOp :=
  [BPut (block_data_seq_key q) data;
   BPut (block_pointer_key (dirname n) h) (encode (storage.mkBlockRef q))] ++
  [BPut (block_reverse_key h n) []].

Lemma new_batch_ok (c : contents) (h n data : bytes) (q nx' : Z) :
  length h = HASH_LEN -> name_ok n -> good h data -> MIN_BLOCK_SEQ <= q < nx' -> nx' <= U64_MAX ->
  block_batch_ok (new_rows h n data q) h (Some q) q nx' c.
Proof.
  intros Hh Hn Hgood Hq Hu.
  assert (key_ok (KData q)) as Hkq by (unfold key_ok, u64_ok, U64_MAX, MIN_BLOCK_SEQ in *; lia).
  assert (key_ok (KReverse h n)) as Hkr by (by split). split.
  { repeat constructor; [exists (KData q)|exists (KPointer (dirname n) h)|exists (KReverse h n)];
      by split_and!. }
  intros k v Hk m'. assert (ref_ok m' nx' h q) as Href.
  { split; [done|]. intros d. unfold m'. rewrite entry_put_data by done.
    unfold data_row, new_rows. cbn [app apply_batch fold_left apply_op].
    change (block_data_seq_key q) with (encode_key (KData q)).
    change (block_pointer_key (dirname n) h) with (encode_key (KPointer (dirname n) h)).
    change (block_reverse_key h n) with (encode_key (KReverse h n)).
    rewrite !lookup_put by done. rewrite !decide_False by done. rewrite decide_True by done.
    by intros [= <-]. }
  split; [|by intros q' [= <-]]. intros k' v' Hin. unfold new_rows in Hin. cbn [app] in Hin.
  repeat (apply elem_of_cons in Hin as [Hin|Hin]); [| | |by apply not_elem_of_nil in Hin];
    injection Hin as -> ->.
  - exists (KData q). split_and!; try done; [simpl; unfold MIN_BLOCK_SEQ in *; lia|].
    intros q' [= <-]. lia.
  - exists (KPointer (dirname n) h). split_and!; try done. by exists q.
  - by exists (KReverse h n).
Qed.

Lemma inline_batch_ok (c : contents) (h : bytes) (nx : Z) : block_batch_ok [] h None nx nx c.
Proof.
  split; [constructor|]. intros k v _ m'. split; [|done].
  intros k' v' Hin. by apply not_elem_of_nil in Hin.
Qed.

Lemma wp_check_hash h {A : Type} (k : M A) (Q : FS -> result StorageError.t A -> Prop) s :
  (length h = HASH_LEN -> wp k Q s) -> (length h <> HASH_LEN -> forall e, Q s (Err e)) ->
  wp (se_bind (check_hash h) (fun _ => k)) Q s.
Proof.
  intros H1 H2. unfold check_hash. apply wp_bind.
  destruct (Nat.eqb_spec (length h) HASH_LEN); [apply wp_ret|apply wp_err]; auto.
Qed.

Lemma Good_record h q (s : FS) : Good s -> wp (record_block_write h q) (fun s' _ => Good s') s.
Proof. intros HG. by apply wp_modify. Qed.

Lemma wp_found_Good h (s : FS) :
  Good s -> length h = HASH_LEN ->
  wp (find_block_dir h) (fun s' r => sim s s' /\ Good s' /\
    forall dir ref, r = Ok (Some (dir, ref)) -> found (cts s') h dir ref) s.
Proof.
  intros HG Hh. eapply wp_mono; [|by apply wp_find_block_dir]. intros s' r [Hs Hr].
  split; [done|]. split; [by eapply Good_sim|]. intros dir ref ->. by rewrite (sim_cts _ _ Hs).
Qed.

Lemma Good_store_block epoch n h data (s : FS) :
  Good s -> room (cts s) -> name_ok n -> (forall e, epoch = Some e -> epoch_ok e) ->
  (length h = HASH_LEN -> good h data) ->
  wp (store_block epoch n h data) (fun s' _ => Good s') s.
Proof.
  intros HG Hroom Hn He Hgood. unfold store_block. apply wp_check_hash; [intros Hh|by intros].
  specialize (Hgood Hh). destruct (Z.of_nat (length data) <? INLINE_BLOCK_THRESHOLD).
  { eapply (wp_update_entry (blockseq s)); try done; [apply HG|by intros d [= <-]|apply inline_batch_ok]. }
  apply wp_bind. eapply wp_mono; [|by apply wp_found_Good]. intros s1 r (Hs1 & HG1 & Hfound).
  destruct r as [[[dir ref]|]|e]; [| |done].
  - apply wp_bind, wp_ret. apply wp_bind.
    change ((if bool_decide (dir = dirname n) then [] else _) ++ _) with (reuse_rows h n dir ref).
    eapply wp_mono; [|apply (wp_update_entry (blockseq s1)); try done; [apply HG1|]].
    + intros s2 [[]|e] HG2; [by apply Good_record|done].
    + apply reuse_batch_ok; try done. by eapply found_ref_ok, Hfound.
  - apply wp_bind, wp_bind. eapply wp_mono; [|apply wp_allocate; [done|by rewrite (sim_cts _ _ Hs1)]].
    intros s2 [q|e]; [|by intros [? _]]. intros [Hout _]. destruct Hout as (HB & Hr & Hq & Hmin & _).
    apply wp_ret. apply wp_bind.
    change ([BPut (block_data_seq_key q) data; _] ++ _) with (new_rows h n data q).
    eapply wp_mono; [|apply (wp_update_entry (mkRange q q)); try done; [simpl; lia|]].
    + intros s3 [[]|e] HG3; [by apply Good_record|done].
    + destruct Hr as [? ?], (bl_range _ _ HG1) as [? ?]. simpl. apply new_batch_ok; try done; lia.
Qed.

Lemma Good_reuse_block epoch n h (s : FS) :
  Good s -> name_ok n -> (forall e, epoch = Some e -> epoch_ok e) ->
  wp (reuse_block epoch n h) (fun s' _ => Good s') s.
Proof.
  intros HG Hn He. unfold reuse_block. apply wp_check_hash; [intros Hh|by intros].
  apply wp_bind. eapply wp_mono; [|by apply wp_found_Good]. intros s1 r (Hs1 & HG1 & Hfound).
  destruct r as [[[dir ref]|]|e]; [|by apply wp_ret|done]. apply wp_bind.
  change ((if bool_decide (dir = dirname n) then [] else _) ++ _) with (reuse_rows h n dir ref).
  eapply wp_mono; [|apply (wp_update_entry (blockseq s1)); try done; [apply HG1|]].
  - intros s2 [[]|e] HG2; [|done]. apply wp_bind, wp_modify, wp_ret. exact HG2.
  - apply reuse_batch_ok; try done. by eapply found_ref_ok, Hfound.
Qed.

(** ** Reading blocks *)

Lemma wp_read_loop h bs (s : FS) :
  Forall (block_ok (cts s) (next (blockseq s))) bs ->
  wp (read_loop h bs) (fun s' r => sim s s' /\ forall d, r = Ok (Some d) -> good h d) s.
Proof.
  revert s. induction bs as [|b bs IH]; intros s Hbs; cbn [read_loop]; [apply wp_ret; by split|].
  apply Forall_cons in Hbs as [[Hi Hq] Hbs].
  assert (forall s1, sim s s1 -> wp (read_loop h bs)
            (fun s' r => sim s s' /\ forall d, r = Ok (Some d) -> good h d) s1) as IH'.
  { intros s1 Hs1. eapply wp_mono; [|apply IH; by rewrite (sim_cts _ _ Hs1), (sim_blockseq _ _ Hs1)].
    intros s' r [Hs' ?]. split; [by etrans|done]. }
  case_bool_decide as Eh; [|by apply IH']. subst h. unfold resolve_block_data.
  apply wp_bind. destruct (storage.inline_data b) as [d|].
  { apply wp_ret, wp_ret. split; [done|]. intros d' [= <-]. by apply Hi. }
  destruct (storage.blockseq b) as [q|]; [|by apply wp_ret, IH'].
  destruct (Hq q eq_refl) as [_ Hg]. unfold validate_block_seq.
  destruct (q <? MIN_BLOCK_SEQ); apply wp_bind, wp_lift; [by split|].
  eapply wp_reads; [apply get_reads| |by split]. intros s1 Hs1. cbv beta iota.
  destruct (cts s !! block_data_seq_key q) as [d|] eqn:E; [|by apply IH'].
  apply wp_ret. split; [done|]. intros d' [= <-]. by apply Hg.
Qed.

Lemma wp_read_block n h (s : FS) :
  Good s -> name_ok n ->
  wp (read_block n h) (fun s' r => sim s s' /\ forall d, r = Ok d -> good h d) s.
Proof.
  intros HG Hn. unfold read_block. apply wp_check_hash; [intros Hh|by intros].
  eapply wp_reads_bind; [apply get_reads| |by split]. intros s1 Hs1. cbv beta iota.
  change (file_key n) with (encode_key (KFile n)). apply wp_bind.
  destruct (cts s !! encode_key (KFile n)) as [b|] eqn:E.
  - apply (bl_rows _ _ HG) in E as (f & -> & Hf & _); [|done]. unfold file_bytes. rewrite decode_encode.
    apply wp_bind, wp_lift. cbn [ok_or storage.file_info].
    eapply wp_mono; [|apply wp_read_loop]; [|by rewrite (sim_cts _ _ Hs1), (sim_blockseq _ _ Hs1)].
    intros s2 r [Hs2 Hr]. assert (sim s s2) by (by etrans).
    destruct r as [[d|]|e]; [apply wp_ret|apply wp_err|]; (split; [done|]); intros d' [= <-]; auto.
  - apply wp_ret, wp_err. by split.
Qed.

(** ** Effect of storing a block *)

Lemma wp_update_entry_effect epoch n h seq inline b (s : FS) f k (ib : bool) :
  pure_entry epoch n (cts s) = Ok (f, k, ib) -> h ∈ map storage.hash (storage.blocks f) ->
  let f' := fst (update_blocks h seq inline f) in
  wp (update_entry epoch n h seq inline b) (fun s' r =>
    match r with
    | Ok _ => wrote (b ++ [BPut k (if ib then inbox_bytes f' else file_bytes f')]) s s'
    | Err _ => ~ healthy s
    end) s.
Proof.
  intros E Hin f'. unfold update_entry.
  eapply wp_reads_bind; [apply find_file_entry_reads| |by intros]. intros s1 Hs1. cbv beta. rewrite E.
  assert (update_blocks h seq inline f = (f', true)) as ->.
  { unfold f', update_blocks. cbn [fst]. f_equal. apply existsb_exists.
    apply list_elem_of_fmap in Hin as (b0 & Eb & Hin). exists b0.
    split; [by apply list_elem_of_In|]. by apply bool_decide_eq_true. }
  cbn [negb]. apply wp_write.
  - intros s2 Hw. eapply sim_wrote; [exact Hs1|]. destruct ib; exact Hw.
  - intros s2 e _ Hh Hh'. by apply Hh, Hs1.
Qed.

Lemma data_after_rows (P : Key -> Prop) (b : list BatchOp) (m : contents) k v q :
  ops_on P b -> ~ P (KData q) -> key_ok (KData q) -> entry_key k ->
  data_row (apply_batch (b ++ [BPut k v]) m) q = data_row m q.
Proof. intros Hb HP Hq Hk. rewrite entry_put_data by done. by eapply ops_on_other. Qed.

(** A block of [f] whose data can be read back. *)
Definition readable (m : contents) (b : storage.BlockInfo) : Prop :=
  is_Some (storage.inline_data b) \/
  exists q d, storage.inline_data b = None /\ storage.blockseq b = Some q /\
              MIN_BLOCK_SEQ <= q /\ data_row m q = Some d.

Lemma update_blocks_readable (m : contents) h seq inline f :
  (forall b, readable m (set_pointer b seq inline)) ->
  Forall (fun b => storage.hash b = h -> readable m b)
         (storage.blocks (fst (update_blocks h seq inline f))).
Proof.
  intros Hr. simpl. apply Forall_map, Forall_forall. intros b _.
  case_bool_decide as E; [by intros _|done].
Qed.

Lemma new_rows_data (m : contents) (h n data : bytes) (q : Z) :
  length h = HASH_LEN -> name_ok n -> key_ok (KData q) ->
  data_row (apply_batch (new_rows h n data q) m) q = Some data.
Proof.
  intros Hh Hn Hq. assert (key_ok (KReverse h n)) as Hkr by (by split).
  unfold data_row, new_rows. cbn [app apply_batch fold_left apply_op].
  change (block_data_seq_key q) with (encode_key (KData q)).
  change (block_pointer_key (dirname n) h) with (encode_key (KPointer (dirname n) h)).
  change (block_reverse_key h n) with (encode_key (KReverse h n)).
  rewrite !lookup_put by done. rewrite !decide_False by done. by rewrite decide_True by done.
Qed.

(** Entries do not depend on the [mx] row. *)
Lemma pure_entry_other (epoch : option Base32.Epoch) (n : bytes) (c c' : contents) :
  name_ok n -> (forall e, epoch = Some e -> epoch_ok e) ->
  (forall K, key_ok K -> K <> KIx -> c' !! encode_key K = c !! encode_key K) ->
  pure_entry epoch n c' = pure_entry epoch n c.
Proof.
  intros Hn He Hk. unfold pure_entry, pure_staged.
  change (file_key n) with (encode_key (KFile n)). rewrite (Hk (KFile n)) by done.
  destruct epoch as [e|]; [|done]. specialize (He e eq_refl).
  change (inbox_key e n) with (encode_key (KInbox e n)).
  by rewrite (Hk (KInbox e n)) by (done || by split).
Qed.

(** Storing a block of an entry makes it readable there. *)
Lemma wp_store_block_effect epoch n h data (s : FS) f k (ib : bool) :
  Good s -> room (cts s) -> name_ok n -> (forall e, epoch = Some e -> epoch_ok e) ->
  length h = HASH_LEN ->
  pure_entry epoch n (cts s) = Ok (f, k, ib) -> h ∈ map storage.hash (storage.blocks f) ->
  wp (store_block epoch n h data) (fun s' r =>
    match r with
    | Ok _ => (healthy s -> healthy s') /\
        exists seq inline, let f' := fst (update_blocks h seq inline f) in
          cts s' !! k = Some (if ib then inbox_bytes f' else file_bytes f') /\
          Forall (fun b => storage.hash b = h -> readable (cts s') b) (storage.blocks f')
    | Err _ => ~ healthy s
    end) s.
Proof.
  intros HG Hroom Hn He Hh E Hin.
  destruct (pure_entry_ok _ _ _ _ _ _ _ HG Hn He E) as (_ & K & HK & Ek & HKib).
  assert (entry_key k) as Hke.
  { intros K' HK' EK. rewrite Ek in EK. apply encode_key_inj in EK; [|done..]. subst K'. by destruct K. }
  assert (K <> KIx) as HKix by (by intros ->).
  assert (forall b v m, apply_batch (b ++ [BPut k v]) m !! k = Some v) as Hlast
    by (intros b0 v0 m0; rewrite apply_batch_app; apply lookup_insert_eq).
  unfold store_block. apply wp_check_hash; [intros _|done].
  destruct (Z.of_nat (length data) <? INLINE_BLOCK_THRESHOLD).
  { eapply wp_mono; [|by eapply wp_update_entry_effect]. intros s' [[]|e]; [|done].
    intros Hw. split; [apply Hw|]. exists None, (Some data). rewrite (wrote_cts _ _ _ Hw).
    split; [apply Hlast|]. apply update_blocks_readable. intros b. left. by eexists. }
  apply wp_bind. eapply wp_mono; [|by apply wp_find_block_dir]. intros s1 r [Hs1 Hfound].
  assert (pure_entry epoch n (cts s1) = Ok (f, k, ib)) as E1 by (by rewrite (sim_cts _ _ Hs1)).
  destruct r as [[[dir ref]|]|e]; [| |done].
  - apply wp_bind, wp_ret, wp_bind.
    change ((if bool_decide (dir = dirname n) then [] else _) ++ _) with (reuse_rows h n dir ref).
    eapply wp_mono; [|by eapply wp_update_entry_effect].
    intros s2 [[]|e]; [|intros Hh' Hh''; by apply Hh', Hs1]. intros Hw. apply wp_modify.
    split; [intros; by apply Hw, Hs1|]. exists (Some (storage.seqno ref)), None.
    change (cts (mkStore (db s2) _ _)) with (cts s2). rewrite (wrote_cts _ _ _ Hw).
    split; [apply Hlast|]. apply update_blocks_readable. intros b. right.
    destruct (found_ref_ok _ _ _ _ _ HG Hh Hfound) as [Hq _]. destruct Hfound as (_ & _ & _ & [d Hd] & Hm).
    exists (storage.seqno ref), d. split_and!; try done.
    rewrite (data_after_rows _ _ _ _ _ _ (reuse_rows_keys h n dir ref Hh Hn)), (sim_cts _ _ Hs1);
      [done|by intros []| |done].
    destruct (bl_range _ _ HG). unfold key_ok, u64_ok, U64_MAX, MIN_BLOCK_SEQ in *. lia.
  - apply wp_bind, wp_bind.
    eapply wp_mono; [|apply wp_allocate; [by eapply Good_sim|by rewrite (sim_cts _ _ Hs1)]].
    intros s2 [q|e]; [|intros [_ Hh'] Hh''; by apply Hh', Hs1].
    intros [(HB & Hr & Hq & Hmin & Hrows) Hh2]. apply wp_ret, wp_bind.
    change ([BPut (block_data_seq_key q) data; _] ++ _) with (new_rows h n data q).
    assert (pure_entry epoch n (cts s2) = Ok (f, k, ib)) as E2.
    { rewrite <- E1. by apply pure_entry_other. }
    eapply wp_mono; [|by eapply wp_update_entry_effect].
    intros s3 [[]|e]; [|intros Hh' Hh''; by apply Hh', Hh2, Hs1]. intros Hw. apply wp_modify.
    split; [intros; by apply Hw, Hh2, Hs1|]. exists (Some q), None.
    change (cts (mkStore (db s3) _ _)) with (cts s3). rewrite (wrote_cts _ _ _ Hw).
    split; [apply Hlast|]. apply update_blocks_readable. intros b. right. exists q, data.
    assert (key_ok (KData q)) as Hkq.
    { destruct Hr as [? ?]. unfold key_ok, u64_ok, U64_MAX, MIN_BLOCK_SEQ in *. lia. }
    split_and!; try done. rewrite entry_put_data by done. by apply new_rows_data.
Qed.

(** Reading a readable block of a healthy store succeeds. *)
Lemma wp_read_loop_ok h bs (s : FS) :
  healthy s -> Forall (fun b => storage.hash b = h -> readable (cts s) b) bs ->
  h ∈ map storage.hash bs ->
  wp (read_loop h bs) (fun _ r => exists d, r = Ok (Some d)) s.
Proof.
  intros Hs Hbs. induction Hbs as [|b bs Hb Hbs IH]; intros Hin; [by apply not_elem_of_nil in Hin|].
  cbn [read_loop map] in *. case_bool_decide as E.
  2:{ apply elem_of_cons in Hin as [->|Hin]; [done|]. by apply IH. }
  unfold resolve_block_data. apply wp_bind.
  destruct (Hb E) as [[d ->]|(q & d & -> & -> & Hq & Hd)]; [apply wp_ret, wp_ret; by eexists|].
  unfold validate_block_seq. destruct (Z.ltb_spec q MIN_BLOCK_SEQ); [lia|]. apply wp_bind, wp_lift.
  eapply wp_reads; [apply get_reads| |done]. intros s1 _. cbv beta iota.
  change (block_data_seq_key q) with (encode_key (KData q)). unfold data_row in Hd. rewrite Hd.
  apply wp_ret. by eexists.
Qed.

(** ** Reachable stores *)

(** One step of a store's life: an operation with arguments the folder accepts
    (block data checked against its hash), reads, a compaction that removes any
    rows but [mx], a restart on the same database. A crash that loses recent
    writes is a restart of an earlier reachable store. *)
Inductive step (s : FS) : FS -> Prop :=
| step_put_file file : name_ok (bep.name file) -> step s (fst (put_file file s))
| step_put_file_with_carry file from :
    name_ok (bep.name file) -> name_ok from -> step s (fst (put_file_with_carry file from s))
| step_stage_file e file : epoch_ok e -> name_ok (bep.name file) -> step s (fst (stage_file e file s))
| step_complete_file e n v : epoch_ok e -> name_ok n -> step s (fst (complete_file e n v s))
| step_gc_inbox e : step s (fst (gc_inbox e s))
| step_put_remote_state dev st : length dev = DEVID_LEN -> step s (fst (put_remote_state dev st s))
| step_store_block epoch n h data :
    room (cts s) -> name_ok n -> (forall e, epoch = Some e -> epoch_ok e) ->
    (length h = HASH_LEN -> good h data) -> step s (fst (store_block epoch n h data s))
| step_reuse_block epoch n h :
    name_ok n -> (forall e, epoch = Some e -> epoch_ok e) -> step s (fst (reuse_block epoch n h s))
| step_read s' : sim s s' -> step s s'
| step_compact s' : cts s' ⊆ cts s -> cts s' !! IX_KEY = cts s !! IX_KEY ->
    blockseq s' = blockseq s -> step s s'
| step_restart d s' g : new (db s) g = (d, Ok s') -> step s s'.

Definition initial (s : FS) : Prop := cts s = ∅ /\ blockseq s = mkRange 0 0.

Lemma initial_Good s : initial s -> Good s.
Proof.
  intros [Hc Hr]. unfold Good. rewrite Hc, Hr. constructor.
  - intros k v Hk. by rewrite lookup_empty in Hk.
  - unfold range_ok, persisted, meta_of. rewrite lookup_empty. simpl. unfold U64_MAX. lia.
  - intros K v _ Hk. by rewrite lookup_empty in Hk.
Qed.

Lemma restart_Good (s : FS) g d s' : Good s -> new (db s) g = (d, Ok s') -> Good s'.
Proof.
  intros HG. unfold new, seq_allocator_load.
  destruct (db_get_reads IX_KEY (db s)) as (Hc & _ & Hr).
  destruct (db_get IX_KEY (db s)) as [d' [v|e]]; cbn [fst snd map_err] in *; [|done].
  specialize (Hr v eq_refl). pose proof (Blocks_meta _ _ HG) as Em.
  pose proof (Blocks_restart _ _ HG) as HR.
  unfold pure_meta, persisted, meta_of, cts in *. rewrite Hr.
  destruct (db_contents (db s) !! IX_KEY) as [b|]; cbn [rbind].
  - destruct (decode b) as [meta|]; cbn [ok_or rbind default] in *; [|done].
    intros [= _ <-]. unfold Good, cts. cbn [db blockseq]. by rewrite Hc.
  - intros [= _ <-]. unfold Good, cts. cbn [db blockseq]. by rewrite Hc.
Qed.

Lemma step_Good s s' : Good s -> step s s' -> Good s'.
Proof.
  intros HG [].
  - by apply Good_put_file.
  - by apply Good_put_file_with_carry.
  - by apply Good_stage_file.
  - by apply Good_complete_file.
  - by apply Good_gc_inbox.
  - by apply Good_put_remote_state.
  - by apply Good_store_block.
  - by apply Good_reuse_block.
  - by eapply Good_sim.
  - unfold Good. rewrite H1. by eapply Blocks_drop.
  - by eapply restart_Good.
Qed.

Definition reachable (s : FS) : Prop := exists s0, initial s0 /\ rtc step s0 s.

Lemma reachable_Good s : reachable s -> Good s.
Proof.
  intros (s0 & Hi & Hs). apply initial_Good in Hi. induction Hs; [done|].
  apply IHHs. by eapply step_Good.
Qed.

(** ** The batch of [gc_inbox] *)

Lemma apply_deletes (ks : list bytes) (m : contents) (k : bytes) :
  apply_batch (map BDelete ks) m !! k = if decide (k ∈ ks) then None else m !! k.
Proof.
  revert m. induction ks as [|k' ks IH]; intros m; [done|]. cbn [map apply_batch fold_left apply_op].
  change (fold_left apply_op (map BDelete ks) (delete k' m)) with (apply_batch (map BDelete ks) (delete k' m)).
  rewrite IH. destruct (decide (k ∈ ks)).
  - by rewrite decide_True by (by right).
  - destruct (decide (k = k')) as [->|Hne].
    + rewrite decide_True by (by left). apply lookup_delete_eq.
    + rewrite decide_False by (by intros [?|?]%elem_of_cons). by apply lookup_delete_ne.
Qed.

Lemma gc_batch_lookup (cur : Base32.Epoch) (c : contents) (K : Key) :
  key_ok K ->
  apply_batch (gc_batch cur (entries (starts_with INBOX_PREFIX) c)) c !! encode_key K =
    match K with
    | KInbox e _ => if Base32.epoch_ltb e cur then None else c !! encode_key K
    | _ => c !! encode_key K
    end.
Proof.
  intros HK. unfold gc_batch. set (items := filter _ _).
  replace (map (fun kv => BDelete (fst kv)) items) with (map BDelete (map fst items)) by apply map_map.
  rewrite apply_deletes.
  assert (encode_key K ∈ map fst items <->
          (exists e n, K = KInbox e n /\ Base32.epoch_ltb e cur = true) /\ is_Some (c !! encode_key K)) as Hin.
  { rewrite list_elem_of_fmap. split.
    - intros ([k v] & E & Hkv). simpl in E. subst k. apply list_elem_of_filter in Hkv as [Hst Hkv].
      apply elem_of_entries in Hkv as [Hl Hp]. split; [|by eexists].
      change INBOX_PREFIX with (tag (KInbox (Base32.mkEpoch 0 []) [])) in Hp.
      rewrite starts_with_tag in Hp. apply bool_decide_eq_true in Hp.
      destruct K as [| | | | |e n| |]; try discriminate Hp. exists e, n. split; [done|].
      unfold stale in Hst. cbn [fst encode_key] in Hst. destruct HK.
      by rewrite parse_inbox_key_inbox in Hst.
    - intros [(e & n & -> & Hlt) [v Hv]]. exists (encode_key (KInbox e n), v). split; [done|].
      apply list_elem_of_filter. split.
      + unfold stale. cbn [fst encode_key]. destruct HK. by rewrite parse_inbox_key_inbox.
      + apply elem_of_entries. split; [done|].
        change INBOX_PREFIX with (tag (KInbox (Base32.mkEpoch 0 []) [])).
        by rewrite starts_with_tag, bool_decide_eq_true_2. }
  destruct (decide (encode_key K ∈ map fst items)) as [Hd|Hd].
  - apply Hin in Hd as [(e & n & -> & ->) _]. done.
  - destruct K as [| | | | |e n| |]; try done. destruct (Base32.epoch_ltb e cur) eqn:El; [|done].
    destruct (c !! encode_key (KInbox e n)) eqn:Ec; [|done]. exfalso. apply Hd, Hin. eauto 6.
Qed.

(** ** Properties *)

(** C1: block integrity. In every store reachable from an empty one by any
    sequence of operations (successful or failing at any database call),
    compactions that remove any rows, and restarts, [read_block] returns only
    data that was stored as good for the requested hash, although blocks are
    shared between files and directories by number. *)
Theorem block_integrity (s : FS) (n h d : bytes) (Hs : reachable s) (Hn : name_ok n)
  (Hread : snd (read_block n h s) = Ok d) : good h d.
Proof.
  pose proof (wp_read_block n h s (reachable_Good s Hs) Hn) as [_ Hr]. by apply Hr.
Qed.

(** The type of a row: what its value decodes to, by the kind of its key. *)
Definition refs_below (nx : Z) (f : storage.FileInfo) : Prop :=
  Forall (fun b => forall q, storage.blockseq b = Some q -> MIN_BLOCK_SEQ <= q < nx) (storage.blocks f).

Definition typed (nx : Z) (K : Key) (v : bytes) : Prop :=
  match K with
  | KFile n => exists f, decode v = Some (storage.mkFile (Some f)) /\ filed_as n f /\ refs_below nx f
  | KInbox _ n => exists f, decode v = Some (storage.mkInbox (Some f)) /\ filed_as n f /\ refs_below nx f
  | KPointer _ _ => exists q, decode v = Some (storage.mkBlockRef q) /\ MIN_BLOCK_SEQ <= q < nx
  | KData q => q < nx
  | KReverse _ _ => v = []
  | KSeq _ => name_ok v
  | KDevice _ => exists st : storage.RemoteIndexState, decode v = Some st
  | KIx => exists meta : storage.FolderIndexMeta, decode v = Some meta
  end.

Lemma row_typed m nx K v : row_ok m nx K v -> typed nx K v.
Proof.
  assert (forall f, file_ok m nx f -> refs_below nx f) as Hrefs.
  { intros f Hf. eapply Forall_impl; [exact Hf|]. intros b [_ Hq] q Eq. by destruct (Hq q Eq). }
  destruct K; cbn; try done.
  - intros (f & -> & Hf & Hn). exists f. unfold file_bytes. rewrite decode_encode. auto.
  - intros (q & -> & Hq & _). exists q. by rewrite decode_encode.
  - lia.
  - intros (f & -> & Hf & Hn). exists f. unfold inbox_bytes. rewrite decode_encode. auto.
  - intros (st & ->). exists st. by rewrite decode_encode.
  - intros (meta & ->). exists meta. by rewrite decode_encode.
Qed.

Lemma pure_file_typed r c n : Blocks r c -> name_ok n ->
  match c !! encode_key (KFile n) with
  | Some _ => exists f, pure_file n c = Ok (Some f) /\ bep.name f = n
  | None => pure_file n c = Ok None
  end.
Proof.
  intros H Hn. unfold pure_file, pure_file_proto. change (file_key n) with (encode_key (KFile n)).
  destruct (c !! encode_key (KFile n)) as [v|] eqn:E; [|done].
  apply (bl_rows _ _ H) in E as (f & -> & _ & <- & Ht); [|done].
  rewrite pure_decode_file_bytes. cbn [rbind]. revert Ht.
  unfold ProtoConv.file_to_bep. destruct (ProtoConv.storage_type_to_bep _); [|done]. intros _. by eexists.
Qed.

Lemma get_file_typed (s : FS) : Good s -> forall n, name_ok n ->
  match snd (get_file n s) with
  | Ok (Some f) => bep.name f = n
  | Ok None => cts s !! encode_key (KFile n) = None
  | Err _ => ~ healthy s
  end.
Proof.
  intros HG n Hn.
  assert (wp (get_file n) (fun _ r => match r with
            | Ok (Some f) => bep.name f = n
            | Ok None => cts s !! encode_key (KFile n) = None
            | Err _ => ~ healthy s
            end) s) as Hw; [|by unfold wp in Hw].
  eapply wp_reads; [apply get_file_reads| |done]. intros s' _. pose proof (pure_file_typed _ _ n HG Hn) as Hp.
  destruct (cts s !! encode_key (KFile n)); [by destruct Hp as (f & -> & Hf)|by rewrite Hp].
Qed.

(** C2: the folder database is well typed. In every store reachable from an
    empty one by any sequence of operations (successful or failing at any
    database call), compactions and restarts: the key of every row is of
    exactly one kind, and its value decodes as that kind of row has it (a
    committed or staged file under its own name, of a known type, with block
    numbers that were handed out; a pointer to such a number; a sequence row
    with a valid file name; the state of a device; the index metadata). So the
    index is never reported as corrupt: reading a file fails with the database
    only. *)
Theorem rows_typed (s : FS) (Hs : reachable s) :
  (forall k v, cts s !! k = Some v ->
     exists K, key_ok K /\ k = encode_key K /\ typed (next (blockseq s)) K v /\
       forall K', key_ok K' -> k = encode_key K' -> K' = K) /\
  (forall n, name_ok n ->
     match snd (get_file n s) with
     | Ok (Some f) => bep.name f = n
     | Ok None => cts s !! encode_key (KFile n) = None
     | Err _ => ~ healthy s
     end).
Proof.
  pose proof (reachable_Good s Hs) as HG. split.
  - intros k v Hk. destruct (bl_keys _ _ HG _ _ Hk) as (K & HK & ->). exists K. split_and!; [done..| |].
    + by eapply row_typed, (bl_rows _ _ HG).
    + intros K' HK' E. symmetry. by apply encode_key_inj.
  - by apply get_file_typed.
Qed.

(** Block numbers are never handed out twice. In a reachable store with
    room in the number space, [allocate] fails only with the database; the
    number it returns is not reserved, no data row has it, it is at least every
    number handed out before and below every number handed out after, also
    when the process restarts from the persisted mark. *)
Theorem allocate_fresh (s : FS) (Hs : reachable s) (Hroom : room (cts s)) :
  let '(s', r) := allocate s in
  match r with
  | Ok q =>
      MIN_BLOCK_SEQ <= q /\ data_row (cts s') q = None /\
      next (blockseq s) <= q < next (blockseq s') /\ q < persisted (cts s')
  | Err _ => ~ healthy s
  end.
Proof.
  apply wp_let. eapply wp_mono; [|by apply wp_allocate; [apply reachable_Good|]].
  intros s' [q|e]; [|by intros [_ ?]]. intros [(HB & Hr & Hq & Hmin & _) _].
  destruct Hr as [Hr1 Hr2]. split_and!; try lia.
  destruct (data_row (cts s') q) as [d|] eqn:E; [|done]. exfalso.
  apply (bl_rows _ _ HB) in E; [simpl in E; lia|].
  unfold key_ok, u64_ok, U64_MAX, MIN_BLOCK_SEQ in *. lia.
Qed.

(** A stored block can be read. In a reachable store whose database works,
    storing a block that the committed file lists succeeds (inline, shared with
    an identical block, or new), and reading it back from the resulting store
    succeeds with good data. *)
Theorem store_then_read (s : FS) (n h data : bytes) (f : storage.FileInfo)
  (Hs : reachable s) (Hroom : room (cts s)) (Hh : healthy s) (Hn : name_ok n)
  (Hlen : length h = HASH_LEN) (Hgood : good h data)
  (Hrow : cts s !! file_key n = Some (file_bytes f))
  (Hin : h ∈ map storage.hash (storage.blocks f)) :
  let '(s', r) := store_block None n h data s in
  r = Ok tt /\ exists d, snd (read_block n h s') = Ok d /\ good h d.
Proof.
  apply wp_let. pose proof (reachable_Good s Hs) as HG.
  assert (pure_entry None n (cts s) = Ok (f, file_key n, false)) as E.
  { unfold pure_entry, pure_staged. cbn [rbind]. rewrite Hrow. unfold file_bytes.
    by rewrite decode_encode. }
  pose proof (Good_store_block None n h data s HG Hroom Hn ltac:(done) (fun _ => Hgood)) as HG'.
  pose proof (wp_store_block_effect None n h data s f _ _ HG Hroom Hn ltac:(done) Hlen E Hin) as Heff.
  unfold wp in *. destruct (store_block None n h data s) as [s' [[]|e]]; cbn [fst snd] in *; [|done].
  destruct Heff as (Hh' & seq & inline & Hk & Hread). split; [done|].
  assert (exists d, snd (read_block n h s') = Ok d) as [d Hd].
  2:{ exists d. split; [done|]. pose proof (wp_read_block n h s' HG' Hn) as [_ Hg]. by apply Hg. }
  change (wp (read_block n h) (fun _ r => exists d, r = Ok d) s').
  unfold read_block. apply wp_check_hash; [intros _|done].
  eapply wp_reads_bind; [apply get_reads| |intros ? ? _ []; auto].
  intros s1 Hs1. cbv beta iota. rewrite Hk. unfold file_bytes. rewrite decode_encode.
  apply wp_bind, wp_bind, wp_lift. cbn [ok_or storage.file_info].
  eapply wp_mono; [|apply wp_read_loop_ok].
  - intros s2 r [d ->]. apply wp_ret. by eexists.
  - by apply Hs1, Hh'.
  - by rewrite (sim_cts _ _ Hs1).
  - simpl. rewrite map_map. apply list_elem_of_fmap in Hin as (b & -> & Hb).
    apply list_elem_of_fmap. exists b. split; [|done]. by case_bool_decide.
Qed.

(** Inbox collection. [gc_inbox] removes the
    inbox rows of earlier epochs and nothing else, in one batch, and reports
    how many; when it fails (only with the database) all or none are gone. *)
Theorem gc_inbox_exact (cur : Base32.Epoch) (s : FS) :
  let collected (m : contents) := forall K, key_ok K ->
    m !! encode_key K = match K with
                        | KInbox e _ => if Base32.epoch_ltb e cur then None else cts s !! encode_key K
                        | _ => cts s !! encode_key K
                        end in
  let '(s', r) := gc_inbox cur s in
  match r with
  | Ok count =>
      collected (cts s') /\
      count = length (filter (fun kv => stale cur kv = true) (entries (starts_with INBOX_PREFIX) (cts s)))
  | Err _ => ~ healthy s /\ (cts s' = cts s \/ collected (cts s'))
  end.
Proof.
  intros collected. set (b := gc_batch cur (entries (starts_with INBOX_PREFIX) (cts s))).
  assert (collected (apply_batch b (cts s))) as Hb by (intros K HK; by apply gc_batch_lookup).
  apply wp_let. apply wp_gc_inbox; fold b.
  - intros s' [Hs|Hw] e Hh; (split; [done|]);
      [left; apply Hs|right; by rewrite (wrote_cts _ _ _ Hw)].
  - intros s' Hor. split; [|unfold b, gc_batch; by rewrite length_map].
    destruct Hor as [Hw|[E Hs]]; [by rewrite (wrote_cts _ _ _ Hw)|].
    rewrite (sim_cts _ _ Hs). by rewrite E in Hb.
Qed.

End Blocks.

(** ** Witnesses *)

Abbreviation TStore := (FolderStore MapDb StoreTape.HFilter StoreTape.SFilter).
#[local] Existing Instance StoreTape.codecs.
#[local] Existing Instance StoreTape.laws.

(** A toy hash: the length of the data, 32 times. *)
Definition toy_good (h d : bytes) : Prop := h = repeat (Z.of_nat (length d)) 32.

Definition block3 : bep.BlockInfo := bep.mkBlockInfo (repeat 3 32) 0 3.
Definition with_block : TStore :=
  fst (put_file (StoreTape.sample (lit "a") 1 [block3]) StoreTape.empty_store).
Definition stored : TStore := fst (store_block None (lit "a") (repeat 3 32) [7; 8; 9] with_block).

Lemma with_block_reachable : reachable toy_good with_block.
Proof.
  exists StoreTape.empty_store. split; [done|]. apply rtc_once.
  apply (step_put_file toy_good StoreTape.empty_store). by vm_compute.
Qed.

Lemma with_block_room : room (cts with_block).
Proof. by vm_compute. Qed.

Lemma stored_reachable : reachable toy_good stored.
Proof.
  destruct with_block_reachable as (s0 & Hi & Hs). exists s0. split; [exact Hi|].
  apply (rtc_r _ with_block); [exact Hs|].
  exact (step_store_block toy_good with_block None (lit "a") (repeat 3 32) [7; 8; 9]
           with_block_room ltac:(by vm_compute) ltac:(discriminate) (fun _ => eq_refl)).
Qed.

Lemma block_integrity_witness :
  snd (read_block (lit "a") (repeat 3 32) stored) = Ok [7; 8; 9] /\
  toy_good (repeat 3 32) [7; 8; 9].
Proof.
  assert (name_ok (lit "a")) as Hn by (by vm_compute).
  assert (snd (read_block (lit "a") (repeat 3 32) stored) = Ok [7; 8; 9]) as E
    by (vm_compute; reflexivity).
  split; [exact E|].
  exact (block_integrity toy_good stored (lit "a") (repeat 3 32) [7; 8; 9] stored_reachable Hn E).
Defined.

Lemma rows_typed_witness :
  (exists v, cts stored !! encode_key (KFile (lit "a")) = Some v /\ typed (next (blockseq stored)) (KFile (lit "a")) v) /\
  exists f, snd (get_file (lit "a") stored) = Ok (Some f) /\ bep.name f = lit "a".
Proof.
  destruct (rows_typed toy_good stored stored_reachable) as [Hrows Hfile].
  assert (key_ok (KFile (lit "a"))) as Hk by (by vm_compute). split.
  - assert (is_Some (cts stored !! encode_key (KFile (lit "a")))) as [v Hv] by (vm_compute; eexists; reflexivity).
    exists v. split; [exact Hv|]. destruct (Hrows _ _ Hv) as (K & _ & _ & Ht & Hone).
    rewrite (Hone (KFile (lit "a")) Hk eq_refl). exact Ht.
  - specialize (Hfile (lit "a") Hk).
    assert (match snd (get_file (lit "a") stored) with Ok (Some _) => true | _ => false end = true) as E by (by vm_compute).
    destruct (snd (get_file (lit "a") stored)) as [[f|]|]; [|done|done]. by exists f.
Defined.

Lemma allocate_fresh_witness :
  room (cts with_block) /\ exists q, snd (allocate with_block) = Ok q /\ MIN_BLOCK_SEQ <= q.
Proof.
  split; [by vm_compute|].
  pose proof (allocate_fresh toy_good with_block with_block_reachable ltac:(by vm_compute)) as H.
  destruct (allocate with_block) as [s' [q|e]].
  - exists q. split; [reflexivity|]. exact (proj1 H).
  - destruct H. vm_compute. reflexivity.
Defined.

Lemma store_then_read_witness :
  exists d, snd (read_block (lit "a") (repeat 3 32) stored) = Ok d /\ toy_good (repeat 3 32) d.
Proof.
  pose proof (store_then_read toy_good with_block (lit "a") (repeat 3 32) [7; 8; 9]
    (commit_file (ProtoConv.file_to_storage (StoreTape.sample (lit "a") 1 [block3])) None 0)
    with_block_reachable ltac:(by vm_compute) ltac:(by vm_compute) ltac:(by vm_compute) eq_refl eq_refl
    ltac:(vm_compute; reflexivity) ltac:(by left)) as H.
  unfold stored. destruct (store_block _ _ _ _ _) as [s' r]. exact (proj2 H).
Defined.

Definition two_epochs : TStore :=
  fst (stage_file (Base32.mkEpoch 4 (lit "00000004")) (StoreTape.sample (lit "d/x") 1 [])
    (fst (stage_file epoch5 (StoreTape.sample (lit "y") 1 []) StoreTape.empty_store))).

Lemma gc_inbox_exact_witness : snd (gc_inbox epoch5 two_epochs) = Ok 1%nat.
Proof.
  pose proof (gc_inbox_exact epoch5 two_epochs) as H. cbv zeta in H.
  destruct (gc_inbox epoch5 two_epochs) as [s' [count|e]].
  - destruct H as [_ ->]. vm_compute. reflexivity.
  - destruct H as [Hh _]. destruct Hh. reflexivity.
Defined.

End StoreBlocks.
