(* ===== verification/ReadOnly.v ===== *)
(** Operations that only read. [answers c m Q] says that on a database with
    contents [c] that does not fail, [m] changes nothing and its result
    satisfies [Q]; the rules follow the structure of the code. The integrity
    check runs on a [FolderStore], the snapshot file system on a database
    reader: both are a [View]. *)

From Stdlib Require Import ZArith.
From stdpp Require Import base gmap list strings.
From S2P Require Import Prelude BepTypes Codec Kv GcState Store StoreWp.

Local Open Scope bep_scope.

Module ReadOnly.
Import Kv Store StoreWp.

(** What can be observed of a state: the contents, and that it will not fail. *)
Class View (S : Type) := {
  view : S -> contents;
  fine : S -> Prop
}.

(** A primitive read: the contents stay, and without failures the result is
    [F] of the contents. *)
Definition pure_as {S E A : Type} `{View S} (m : SE S E A) (F : contents -> result E A) : Prop :=
  forall s, view (fst (m s)) = view s /\
            (fine s -> fine (fst (m s)) /\ snd (m s) = F (view s)).

Definition answers {S E A : Type} `{View S} (c : contents) (m : SE S E A)
  (Q : result E A -> Prop) : Prop :=
  forall s, view s = c -> fine s ->
    view (fst (m s)) = c /\ fine (fst (m s)) /\ Q (snd (m s)).

(** A caught error: [match op.await { Ok(..) => .., Err(e) => .. }]. *)
Definition se_catch {S E F A : Type} (m : SE S E A) : SE S F (result E A) :=
  fun s => let '(s', r) := m s in (s', Ok r).

(** [.map_err(f)] on an operation. *)
Definition se_map_err {S E F A : Type} (f : E -> F) (m : SE S E A) : SE S F A :=
  fun s => let '(s', r) := m s in (s', map_err f r).

Section Rules.
Context {S : Type} `{!View S}.

Lemma answers_pure {E A : Type} (c : contents) (m : SE S E A) (F : contents -> result E A)
  (Q : result E A -> Prop) :
  pure_as m F -> Q (F c) -> answers c m Q.
Proof.
  intros Hm HQ s <- Hs. destruct (Hm s) as [Hv Hf]. destruct (Hf Hs) as [H1 ->]. done.
Qed.

Lemma answers_lift {E A : Type} (c : contents) (r : result E A) (Q : result E A -> Prop) :
  Q r -> answers (S := S) c (se_lift r) Q.
Proof. by intros HQ s. Qed.

Lemma answers_ret {E A : Type} (c : contents) (a : A) (Q : result E A -> Prop) :
  Q (Ok a) -> answers (S := S) c (se_ret a) Q.
Proof. by intros HQ s. Qed.

Lemma answers_err {E A : Type} (c : contents) (e : E) (Q : result E A -> Prop) :
  Q (Err e) -> answers (S := S) c (se_err e) Q.
Proof. by intros HQ s. Qed.

Lemma answers_mono {E A : Type} (c : contents) (m : SE S E A) (P Q : result E A -> Prop) :
  answers c m P -> (forall r, P r -> Q r) -> answers c m Q.
Proof. intros Hm HPQ s Hv Hs. destruct (Hm s Hv Hs) as (? & ? & ?). auto. Qed.

Lemma answers_bind {E A B : Type} (c : contents) (m : SE S E A) (k : A -> SE S E B)
  (Q : result E B -> Prop) :
  answers c m (fun r => match r with Ok a => answers c (k a) Q | Err e => Q (Err e) end) ->
  answers c (se_bind m k) Q.
Proof.
  intros Hm s Hv Hs. destruct (Hm s Hv Hs) as (Hv' & Hs' & Hr). unfold se_bind.
  destruct (m s) as [s1 [a|e]]; cbn [fst snd] in *; [by apply Hr|done].
Qed.

Lemma answers_catch {E F A : Type} (c : contents) (m : SE S E A) (Q : result F (result E A) -> Prop) :
  answers c m (fun r => Q (Ok r)) -> answers c (se_catch m) Q.
Proof.
  intros Hm s Hv Hs. destruct (Hm s Hv Hs) as (Hv' & Hs' & Hr). unfold se_catch.
  by destruct (m s) as [s1 r].
Qed.

Lemma answers_map_err {E F A : Type} (c : contents) (f : E -> F) (m : SE S E A)
  (Q : result F A -> Prop) :
  answers c m (fun r => Q (map_err f r)) -> answers c (se_map_err f m) Q.
Proof.
  intros Hm s Hv Hs. destruct (Hm s Hv Hs) as (Hv' & Hs' & Hr). unfold se_map_err.
  by destruct (m s) as [s1 r].
Qed.

Lemma answers_assoc {E A B C : Type} (c : contents) (m : SE S E A) (f : A -> SE S E B)
  (k : B -> SE S E C) (Q : result E C -> Prop) :
  answers c (se_bind (se_bind m f) k) Q -> answers c (se_bind m (fun a => se_bind (f a) k)) Q.
Proof.
  intros H s Hv Hs. specialize (H s Hv Hs). unfold se_bind in *. by destruct (m s) as [? [?|?]].
Qed.

(** An operation that always answers: the continuation gets a value. *)
Lemma answers_ok {E A B : Type} (c : contents) (m : SE S E A) (k : A -> SE S E B)
  (P : A -> Prop) (Q : result E B -> Prop) :
  answers c m (fun r => exists a, r = Ok a /\ P a) ->
  (forall a, P a -> answers c (k a) Q) ->
  answers c (se_bind m k) Q.
Proof.
  intros Hm Hk. apply answers_bind. eapply answers_mono; [exact Hm|].
  intros r (a & -> & Ha). auto.
Qed.

End Rules.

(** ** The two views *)

Section Views.
Context {Db : Type} `{!SlateDb Db} `{!SlateDbLaws Db}.

#[export] Instance db_view : View Db := {| view := db_contents; fine := db_healthy |}.

Lemma db_get_pure k : pure_as (db_get k) (fun c => Ok (c !! k)).
Proof.
  intros d. destruct (db_get_reads k d) as (Hc & Hh & Hr). split; [done|].
  intros H. destruct (Hh H) as [H1 H2]. split; [done|].
  destruct (snd (db_get k d)) as [v|e]; [|done]. by rewrite (Hr v eq_refl).
Qed.

(** A scan of a database that does not fail yields the rows of its range. *)
Lemma scans_pure (m : SE Db SlateError Scan) (P : bytes -> bool) : scans m P -> pure_as m (fun c => Ok (mkScan (entries P c) None)).
Proof.
  intros [Hm Hend] d. destruct (Hm d) as (Hc & Hh & Hr). split; [done|].
  intros H. destruct (Hh H) as [H1 H2]. split; [done|].
  destruct (snd (m d)) as [[items er]|e] eqn:Es; [|done].
  destruct (Hr _ eq_refl) as (rest & E & Hrest). pose proof (Hend d _ H Es) as Hn.
  cbn [scan_items scan_error] in *. subst er.
  cbn [view db_view]. rewrite E, Hrest by done. by rewrite app_nil_r.
Qed.

Lemma db_scan_prefix_pure p :
  pure_as (db_scan_prefix p) (fun c => Ok (mkScan (entries (starts_with p) c) None)).
Proof. apply scans_pure, db_scan_prefix_scans. Qed.

Context {SC : StoreCodecs} {HF SF : Type} `{!Bloom bytes HF} `{!Bloom Z SF}.
Abbreviation FS := (FolderStore Db HF SF).

#[export] Instance store_view : View FS := {| view := cts; fine := healthy |}.

Lemma on_db_pure {A : Type} (m : SE Db SlateError A) (F : contents -> result SlateError A) :
  pure_as m F -> pure_as (S := FS) (on_db m) (fun c => map_err slate_err (F c)).
Proof.
  intros Hm s. destruct (Hm (db s)) as [Hv Hf]. unfold on_db. destruct (m (db s)) as [d r].
  cbn [fst snd] in *. split; [done|]. intros H. destruct (Hf H) as [? ->]. done.
Qed.

Lemma get_pure k : pure_as (S := FS) (get k) (fun c => Ok (c !! k)).
Proof. apply (on_db_pure (db_get k) _ (db_get_pure k)). Qed.

Lemma scan_prefix_pure p :
  pure_as (S := FS) (on_db (db_scan_prefix p)) (fun c => Ok (mkScan (entries (starts_with p) c) None)).
Proof. apply (on_db_pure _ _ (db_scan_prefix_pure p)). Qed.

(** A loop over the rows of a scan: the invariant [I] relates the rows seen to
    the accumulator. *)
Lemma answers_for_each {A : Type} (c : contents) (body : A -> bytes * bytes -> M A)
  (I : list (bytes * bytes) -> A -> Prop) (items pre : list (bytes * bytes)) (acc : A) :
  I pre acc ->
  (forall pre acc kv, kv ∈ items -> I pre acc ->
     answers (S := FS) c (body acc kv) (fun r => exists a, r = Ok a /\ I (pre ++ [kv]) a)) ->
  answers (S := FS) c (for_each items acc body) (fun r => exists a, r = Ok a /\ I (pre ++ items) a).
Proof.
  revert pre acc. induction items as [|kv items IH]; intros pre acc HI Hb; cbn [for_each].
  - apply answers_ret. rewrite app_nil_r. eauto.
  - eapply answers_ok; [apply Hb; [by left|exact HI]|]. intros a Ha.
    rewrite (cons_middle kv pre items), app_assoc. apply IH; [done|].
    intros pre' acc' kv' Hin. apply Hb. by right.
Qed.

Lemma answers_scan {A : Type} (c : contents) (p : bytes) (acc : A) (body : A -> bytes * bytes -> M A)
  (I : list (bytes * bytes) -> A -> Prop) :
  I [] acc ->
  (forall pre acc kv, kv ∈ entries (starts_with p) c -> I pre acc ->
     answers (S := FS) c (body acc kv) (fun r => exists a, r = Ok a /\ I (pre ++ [kv]) a)) ->
  answers (S := FS) c (do! sc <- on_db (db_scan_prefix p); iterate sc acc body)
    (fun r => exists a, r = Ok a /\ I (entries (starts_with p) c) a).
Proof.
  intros HI Hb. apply answers_bind. eapply answers_pure; [apply scan_prefix_pure|].
  cbn beta match. unfold iterate. cbn [scan_items].
  eapply answers_ok; [apply (answers_for_each c body I _ [] acc HI Hb)|].
  intros a Ha. apply answers_bind. apply answers_ret. apply answers_ret. eauto.
Qed.

End Views.

End ReadOnly.
