(* ===== verification/Fsck.v ===== *)
(** The integrity check of a folder ([bepository-storage/src/fsck.rs]).

    The check reads the database of a store and collects what it finds wrong.
    A message is a [Finding] (its kind and the values it shows), and a function
    that pushes to [errors] returns what it pushes. The two iterators that are
    merged directory by directory are [DirGroupIter]s over the rows of a scan;
    the merge loop has one unit of fuel per row. [Sha256] is a parameter. *)

From Stdlib Require Import ZArith Lia.
From stdpp Require Import base gmap list strings.
From S2P Require Import Prelude BepTypes Base32 StoreKeys Codec Kv GcState Store.
From S2P Require Import StoreTape StoreWp StoreIndex StoreBlocks ReadOnly.

Local Open Scope Z_scope.
Local Open Scope bep_scope.

Module Fsck.
Import Kv Store StoreWp ReadOnly.

Inductive FsckLevel := Quick | Structural | Full.

#[export] Instance FsckLevel_eq_dec : EqDecision FsckLevel.
Proof. solve_decision. Defined.

(** [level >= FsckLevel::Structural] *)
Definition at_least_structural (level : FsckLevel) : bool :=
  match level with Quick => false | _ => true end.

Definition is_full (level : FsckLevel) : bool := bool_decide (level = Full).

(** The messages, in the order of the source. *)
Inductive Finding :=
| InboxUndecodable (key : bytes)
| InboxNoInfo (key : bytes)
| MetaUndecodable
| DeviceUndecodable (key : bytes)
| BadSeqKey (key : bytes)
| SeqNotUtf8 (seq : Z)
| SeqMissingFile (seq : Z) (name : bytes)
| SeqFileUndecodable (seq : Z) (name : bytes)
| FileNoInfo (name : bytes)
| SeqMismatch (name : bytes) (seq fseq : Z)
| FileNoSeqEntry (name : bytes) (seq : Z)
| FileBadSeq (name : bytes) (seq : Z)
| MaxBelowSeqKeys (stored observed : Z)
| MaxBelowFiles (stored observed : Z)
| BadFileKey (key : bytes)
| FileUndecodable (name : bytes)
| BadHashLength (name : bytes) (len : nat)
| BlockFails (hash name : bytes)
| BlockUnresolved (hash name : bytes)
| SizeMismatch (hash name : bytes) (size : Z) (len : nat)
| ChecksumMismatch (hash name : bytes)
| MissingReverse (hash name : bytes)
| RefUndecodable (hash dir : bytes)
| RefBadSeq (hash dir : bytes)
| RefMissingData (hash dir : bytes) (seqno : Z)
| RefChecksum (hash dir : bytes) (seqno : Z)
| UnexpectedBlockKey (dir key : bytes)
| MissingBlock (dir hash : bytes).

#[export] Instance Finding_eq_dec : EqDecision Finding.
Proof. solve_decision. Defined.

Abbreviation kv_t := (bytes * bytes)%type.

(** ** Grouping rows by directory *)

Record DirGroupIter := mkIter {
  iter : Scan;
  pending : option kv_t;
  dir_fn : bytes -> option bytes
}.

(** [iter.next().await.map_err(slate_err)?] *)
Definition iter_next (sc : Scan) : result StorageError.t (option kv_t * Scan) :=
  match scan_items sc with
  | kv :: items => Ok (Some kv, mkScan items (scan_error sc))
  | [] => match scan_error sc with
          | Some e => Err (slate_err e)
          | None => Ok (None, sc)
          end
  end.

Definition iter_new (sc : Scan) (dir_fn : bytes -> option bytes) : result StorageError.t DirGroupIter :=
  try (pending, sc') <- iter_next sc;
  Ok (mkIter sc' pending dir_fn).

Definition peek_dir (it : DirGroupIter) : option bytes :=
  match pending it with Some kv => dir_fn it (fst kv) | None => None end.

(** The loop of [take_dir] over the pending row and the rows behind it. *)
Fixpoint take_rows (dir_fn : bytes -> option bytes) (dir : bytes) (kv : kv_t) (items : list kv_t)
  (er : option SlateError) : result StorageError.t (list kv_t * option kv_t * list kv_t) :=
  if bool_decide (dir_fn (fst kv) = Some dir) then
    match items with
    | kv' :: items' =>
        try (batch, p, rest) <- take_rows dir_fn dir kv' items' er;
        Ok (kv :: batch, p, rest)
    | [] => match er with
            | Some e => Err (slate_err e)
            | None => Ok ([kv], None, [])
            end
    end
  else Ok ([], Some kv, items).

Definition take_dir (it : DirGroupIter) (dir : bytes) : result StorageError.t (list kv_t * DirGroupIter) :=
  match pending it with
  | None => Ok ([], it)
  | Some kv =>
      try (batch, p, rest) <- take_rows (dir_fn it) dir kv (scan_items (iter it)) (scan_error (iter it));
      Ok (batch, mkIter (mkScan rest (scan_error (iter it))) p (dir_fn it))
  end.

(** The rows an iterator has left. *)
Definition rows_left (it : DirGroupIter) : list kv_t :=
  match pending it with Some kv => kv :: scan_items (iter it) | None => [] end.

(** The directory the merge handles next: [std::cmp::min] of the two. *)
Definition next_dir (files blocks : DirGroupIter) : option bytes :=
  match peek_dir files, peek_dir blocks with
  | None, None => None
  | Some f, None => Some f
  | None, Some b => Some b
  | Some f, Some b => Some (match bytes_cmp f b with Gt => b | _ => f end)
  end.

Section Fsck.
Context {Db : Type} `{!SlateDb Db} {SC : StoreCodecs}.
Context {HF SF : Type} `{!Bloom bytes HF} `{!Bloom Z SF}.
Context (sha256 : bytes -> bytes).
Abbreviation FS := (FolderStore Db HF SF).
Abbreviation FM := (SE FS StorageError.t).

Definition check_inbox : FM (list Finding) :=
  do! sc <- on_db (db_scan_prefix StoreKeys.INBOX_PREFIX);
  iterate sc [] (fun errors kv =>
    se_ret (errors ++
      match decode (A := storage.Inbox) (snd kv) with
      | None => [InboxUndecodable (fst kv)]
      | Some inbox =>
          match storage.inbox_file_info inbox with
          | None => [InboxNoInfo (fst kv)]
          | Some _ => []
          end
      end)).

Definition check_metadata : FM (list Finding * option Z) :=
  do! v <- get StoreKeys.IX_KEY;
  let '(errors, max_sequence) :=
    match v with
    | Some val => match decode (A := storage.FolderIndexMeta) val with
                  | Some meta => ([], Some (storage.max_sequence meta))
                  | None => ([MetaUndecodable], None)
                  end
    | None => ([], None)
    end in
  do! sc <- on_db (db_scan_prefix StoreKeys.DEVICE_PREFIX);
  do! errors <- iterate sc errors (fun errors kv =>
    se_ret (errors ++ match decode (A := storage.RemoteIndexState) (snd kv) with
                      | None => [DeviceUndecodable (fst kv)]
                      | Some _ => []
                      end));
  se_ret (errors, max_sequence).

(** The body of the loop over the [ms] rows after the key was parsed. *)
Definition check_seq_row (seq : Z) (value : bytes) : FM (list Finding) :=
  match from_utf8 value with
  | None => se_ret [SeqNotUtf8 seq]
  | Some name =>
      do! file_val <- get (StoreKeys.file_key name);
      match file_val with
      | None => se_ret [SeqMissingFile seq name]
      | Some b =>
          match decode (A := storage.File) b with
          | None => se_ret [SeqFileUndecodable seq name]
          | Some file =>
              match storage.file_info file with
              | None => se_ret [FileNoInfo name]
              | Some fi =>
                  (* [u64::try_from(fi.sequence).ok() != Some(seq)] *)
                  if (0 <=? storage.sequence fi) && (storage.sequence fi =? seq) then se_ret []
                  else se_ret [SeqMismatch name seq (storage.sequence fi)]
              end
          end
      end
  end.

(** The body of the loop over the [mn] rows. *)
Definition check_file_seq (acc : list Finding * Z) (kv : kv_t) : FM (list Finding * Z) :=
  let '(errors, max_file_seq) := acc in
  match StoreKeys.parse_file_key (fst kv) with
  | None => se_ret acc
  | Some name =>
      match decode (A := storage.File) (snd kv) with
      | None => se_ret acc
      | Some file =>
          match storage.file_info file with
          | None => se_ret acc
          | Some fi =>
              let max_file_seq := Z.max max_file_seq (storage.sequence fi) in
              match StoreKeys.seq_key (storage.sequence fi) with
              | Ok seq_key =>
                  do! v <- get seq_key;
                  se_ret (errors ++ match v with
                                    | None => [FileNoSeqEntry name (storage.sequence fi)]
                                    | Some _ => []
                                    end, max_file_seq)
              | Err _ => se_ret (errors ++ [FileBadSeq name (storage.sequence fi)], max_file_seq)
              end
          end
      end
  end.

Definition check_max (max_sequence : option Z) (level : FsckLevel) (max_seq max_file_seq : Z) :
  list Finding :=
  match max_sequence with
  | None => []
  | Some stored_max =>
      (if (stored_max <? 0) || (stored_max <? max_seq) then [MaxBelowSeqKeys stored_max max_seq] else [])
      ++ (if is_full level && (stored_max <? max_file_seq)
          then [MaxBelowFiles stored_max max_file_seq] else [])
  end.

Definition check_sequences (max_sequence : option Z) (level : FsckLevel) : FM (list Finding) :=
  do! sc <- on_db (db_scan_prefix StoreKeys.SEQ_PREFIX);
  do! (errors, max_seq) <- iterate sc ([], 0) (fun '(errors, max_seq) kv =>
    match StoreKeys.parse_seq_key (fst kv) with
    | None => se_ret (errors ++ [BadSeqKey (fst kv)], max_seq)
    | Some seq =>
        do! e <- check_seq_row seq (snd kv);
        se_ret (errors ++ e, Z.max max_seq seq)
    end);
  do! (errors, max_file_seq) <-
    (if is_full level then
       do! sc <- on_db (db_scan_prefix StoreKeys.FILE_PREFIX);
       iterate sc (errors, 0) check_file_seq
     else se_ret (errors, 0));
  se_ret (errors ++ check_max max_sequence level max_seq max_file_seq).

(** ** Blocks *)

(** The outcome of [resolve_block_data] in [collect_expected_blocks]. *)
Definition judge_block (level : FsckLevel) (name : bytes) (b : storage.BlockInfo)
  (r : result StorageError.t (option bytes)) : list Finding :=
  match r with
  | Err _ => [BlockFails (storage.hash b) name]
  | Ok None => [BlockUnresolved (storage.hash b) name]
  | Ok (Some data) =>
      if is_full level then
        (if storage.bsize b =? Z.of_nat (length data) then []
         else [SizeMismatch (storage.hash b) name (storage.bsize b) (length data)]) ++
        (if bool_decide (sha256 data = storage.hash b) then []
         else [ChecksumMismatch (storage.hash b) name])
      else []
  end.

(** The body of the loop over the blocks of a file: what it pushes and the
    hash it expects a pointer for. *)
Definition check_block (level : FsckLevel) (name : bytes) (b : storage.BlockInfo) :
  FM (list Finding * gset bytes) :=
  if negb (Nat.eqb (length (storage.hash b)) 32) then
    se_ret ([BadHashLength name (length (storage.hash b))], ∅)
  else
    do! r <- se_catch (resolve_block_data b);
    let e := judge_block level name b r in
    match storage.inline_data b with
    | Some _ => se_ret (e, ∅)
    | None =>
        do! v <- get (StoreKeys.block_reverse_key (storage.hash b) name);
        se_ret (e ++ match v with None => [MissingReverse (storage.hash b) name] | Some _ => [] end,
                {[ storage.hash b ]})
    end.

Fixpoint check_blocks (level : FsckLevel) (name : bytes) (bs : list storage.BlockInfo) :
  FM (list Finding * gset bytes) :=
  match bs with
  | [] => se_ret ([], ∅)
  | b :: bs' =>
      do! (e, x) <- check_block level name b;
      do! (e', x') <- check_blocks level name bs';
      se_ret (e ++ e', x ∪ x')
  end.

(** The body of the loop over the files of a directory. *)
Definition check_file (level : FsckLevel) (kv : kv_t) : FM (list Finding * gset bytes) :=
  match StoreKeys.parse_file_key (fst kv) with
  | None => se_ret ([BadFileKey (fst kv)], ∅)
  | Some name =>
      match decode (A := storage.File) (snd kv) with
      | None => se_ret ([FileUndecodable name], ∅)
      | Some file =>
          match storage.file_info file with
          | None => se_ret ([FileNoInfo name], ∅)
          | Some file_info =>
              if storage.deleted file_info then se_ret ([], ∅)
              else check_blocks level name (storage.blocks file_info)
          end
      end
  end.

Fixpoint collect_expected_blocks (level : FsckLevel) (file_kvs : list kv_t) :
  FM (list Finding * gset bytes) :=
  match file_kvs with
  | [] => se_ret ([], ∅)
  | kv :: kvs =>
      do! (e, x) <- check_file level kv;
      do! (e', x') <- collect_expected_blocks level kvs;
      se_ret (e ++ e', x ∪ x')
  end.

(** The body of the loop of [check_block_entries]; [continue] skips the removal
    of the hash from [expected]. *)
Definition check_block_entry (dir : bytes) (level : FsckLevel) (expected : gset bytes) (kv : kv_t) :
  FM (list Finding * gset bytes) :=
  match StoreKeys.parse_block_pointer_key (fst kv) with
  | None => se_ret ([UnexpectedBlockKey dir (fst kv)], expected)
  | Some hash =>
      match decode (A := storage.BlockRef) (snd kv) with
      | None => se_ret ([RefUndecodable hash dir], expected)
      | Some block_ref =>
          match StoreKeys.validate_block_seq (storage.seqno block_ref) with
          | Err _ => se_ret ([RefBadSeq hash dir], expected)
          | Ok _ =>
              do! v <- get (StoreKeys.block_data_seq_key (storage.seqno block_ref));
              se_ret (match v with
                      | None => [RefMissingData hash dir (storage.seqno block_ref)]
                      | Some data =>
                          if is_full level && negb (bool_decide (sha256 data = hash))
                          then [RefChecksum hash dir (storage.seqno block_ref)] else []
                      end, expected ∖ {[ hash ]})
          end
      end
  end.

Fixpoint check_block_entries (dir : bytes) (level : FsckLevel) (expected : gset bytes)
  (block_kvs : list kv_t) : FM (list Finding * gset bytes) :=
  match block_kvs with
  | [] => se_ret ([], expected)
  | kv :: kvs =>
      do! (e, expected) <- check_block_entry dir level expected kv;
      do! (e', expected) <- check_block_entries dir level expected kvs;
      se_ret (e ++ e', expected)
  end.

(** The merge loop; [None] is out of fuel. *)
Fixpoint dir_loop (fuel : nat) (level : FsckLevel) (files blocks : DirGroupIter) :
  FM (option (list Finding)) :=
  match next_dir files blocks with
  | None => se_ret (Some [])
  | Some dir =>
      match fuel with
      | O => se_ret None
      | S fuel' =>
          do! (file_kvs, files) <- se_lift (take_dir files dir);
          do! (block_kvs, blocks) <- se_lift (take_dir blocks dir);
          do! (e1, expected) <- collect_expected_blocks level file_kvs;
          do! (e2, expected) <- check_block_entries dir level expected block_kvs;
          do! rest <- dir_loop fuel' level files blocks;
          se_ret (match rest with
                  | Some e3 => Some (e1 ++ e2 ++ map (MissingBlock dir) (elements expected) ++ e3)
                  | None => None
                  end)
      end
  end.

Definition check_directory_blocks (level : FsckLevel) : FM (option (list Finding)) :=
  do! sc <- on_db (db_scan_prefix StoreKeys.FILE_PREFIX);
  do! files <- se_lift (iter_new sc StoreKeys.file_key_dir);
  do! sc <- on_db (db_scan_prefix StoreKeys.BLOCK_PREFIX);
  do! blocks <- se_lift (iter_new sc StoreKeys.block_key_dir);
  dir_loop (length (rows_left files) + length (rows_left blocks)) level files blocks.

Definition check_folder_integrity (level : FsckLevel) : FM (option (list Finding)) :=
  do! errors <- check_inbox;
  if at_least_structural level then
    do! (e1, max_sequence) <- check_metadata;
    do! e2 <- check_sequences max_sequence level;
    do! e3 <- check_directory_blocks level;
    se_ret (match e3 with Some e3 => Some (errors ++ e1 ++ e2 ++ e3) | None => None end)
  else se_ret (Some errors).

(** ** What a clean report means *)

(** The data readers get for a block. *)
Definition resolves (c : contents) (b : storage.BlockInfo) (d : bytes) : Prop :=
  storage.inline_data b = Some d \/
  (storage.inline_data b = None /\ exists q, storage.blockseq b = Some q /\
     StoreKeys.MIN_BLOCK_SEQ <= q /\ c !! StoreKeys.block_data_seq_key q = Some d).

(** The pointer that deduplication follows for a hash in a directory. *)
Definition pointer_sound (c : contents) (dir h : bytes) : Prop :=
  exists v ref d, c !! StoreKeys.block_pointer_key dir h = Some v /\ decode v = Some ref /\
    StoreKeys.MIN_BLOCK_SEQ <= storage.seqno ref /\
    c !! StoreKeys.block_data_seq_key (storage.seqno ref) = Some d /\ sha256 d = h.

Definition block_sound (c : contents) (name : bytes) (b : storage.BlockInfo) : Prop :=
  (exists d, resolves c b d /\ Z.of_nat (length d) = storage.bsize b /\ sha256 d = storage.hash b) /\
  (storage.inline_data b = None ->
   is_Some (c !! StoreKeys.block_reverse_key (storage.hash b) name) /\
   pointer_sound c (StoreKeys.dirname name) (storage.hash b)).

(** A row of the file index decodes, and the blocks of a live file are sound. *)
Definition file_sound (c : contents) (name v : bytes) : Prop :=
  exists file fi, decode v = Some file /\ storage.file_info file = Some fi /\
    (storage.deleted fi = false -> forall b, b ∈ storage.blocks fi -> block_sound c name b).

(** The row of sequence number [q] names a file with that number. *)
Definition seq_points (c : contents) (q : Z) (n : bytes) : Prop :=
  exists v file fi, c !! StoreKeys.file_key n = Some v /\ decode v = Some file /\
    storage.file_info file = Some fi /\ storage.sequence fi = q.

(** The sequence number of a stored file has a row. *)
Definition has_seq_row (c : contents) (v : bytes) : Prop :=
  forall file fi, decode v = Some file -> storage.file_info file = Some fi ->
    exists k, StoreKeys.seq_key (storage.sequence fi) = Ok k /\ is_Some (c !! k).

(** The two directions between sequence rows and files, and the persisted
    maximum above the numbers in use. *)
Definition seqs_sound (c : contents) : Prop :=
  (forall q n, StoreKeys.u64_ok q -> c !! StoreKeys.encode_key (StoreKeys.KSeq q) = Some n ->
     seq_points c q n) /\
  (forall n v, StoreKeys.name_ok n -> c !! StoreKeys.file_key n = Some v -> has_seq_row c v) /\
  (forall b meta, c !! StoreKeys.IX_KEY = Some b -> decode b = Some meta ->
     forall q n, StoreKeys.u64_ok q -> c !! StoreKeys.encode_key (StoreKeys.KSeq q) = Some n ->
       q <= storage.max_sequence meta).

(** ** Lemmas *)

Context `{!SlateDbLaws Db}.

(** *** Iterators *)

Lemma take_rows_spec (df : bytes -> option bytes) (dir : bytes) (items : list kv_t) (kv : kv_t) :
  exists batch p rest, take_rows df dir kv items None = Ok (batch, p, rest) /\
    kv :: items = batch ++ (match p with Some kv' => kv' :: rest | None => [] end) /\
    Forall (fun kv => df (fst kv) = Some dir) batch /\
    (df (fst kv) = Some dir -> batch <> []).
Proof.
  revert kv. induction items as [|kv' items IH]; intros kv; cbn [take_rows]; case_bool_decide as E.
  - exists [kv], None, []. split_and!; [done|done|by constructor|done].
  - exists [], (Some kv), []. split_and!; [done|done|done|by intros ?].
  - destruct (IH kv') as (batch & p & rest & -> & Hr & Hb & _). cbn [rbind].
    exists (kv :: batch), p, rest. split; [done|]. split_and!; [by rewrite Hr|by constructor|done].
  - exists [], (Some kv), (kv' :: items). split_and!; [done|done|done|by intros ?].
Qed.

Record same_rows (df : bytes -> option bytes) (dir : bytes) (it it' : DirGroupIter)
  (batch : list kv_t) : Prop := {
  sr_rows : rows_left it = batch ++ rows_left it';
  sr_dir : Forall (fun kv => df (fst kv) = Some dir) batch;
  sr_error : scan_error (iter it') = None;
  sr_fn : dir_fn it' = df;
  sr_peek : peek_dir it = Some dir -> batch <> []
}.

Lemma take_dir_spec (df : bytes -> option bytes) (dir : bytes) (it : DirGroupIter) :
  scan_error (iter it) = None -> dir_fn it = df ->
  exists batch it', take_dir it dir = Ok (batch, it') /\ same_rows df dir it it' batch.
Proof.
  intros He <-. unfold take_dir. destruct (pending it) as [kv|] eqn:Ep.
  - rewrite He. destruct (take_rows_spec (dir_fn it) dir (scan_items (iter it)) kv)
      as (batch & p & rest & -> & Hr & Hb & Hne). cbn [rbind].
    eexists _, _. split; [reflexivity|]. constructor; try done.
    + unfold rows_left. rewrite Ep. cbn. by destruct p.
    + unfold peek_dir. by rewrite Ep.
  - exists [], it. split; [done|]. constructor; try done. unfold peek_dir. by rewrite Ep.
Qed.

Lemma iter_new_spec (df : bytes -> option bytes) (l : list kv_t) :
  exists it, iter_new (mkScan l None) df = Ok it /\ rows_left it = l /\
    scan_error (iter it) = None /\ dir_fn it = df.
Proof. destruct l as [|kv l]; (eexists; split; [reflexivity|]; auto). Qed.

(** *** Rows of one block *)

Lemma answers_resolve (c : contents) (b : storage.BlockInfo) :
  answers (S := FS) c (resolve_block_data b) (fun r => forall d, r = Ok (Some d) -> resolves c b d).
Proof.
  unfold resolve_block_data. destruct (storage.inline_data b) as [d0|] eqn:Ei.
  { apply answers_ret. intros d [= <-]. by left. }
  destruct (storage.blockseq b) as [q|] eqn:Eq; [|by apply answers_ret].
  apply answers_bind, answers_lift. unfold StoreKeys.validate_block_seq.
  destruct (Z.ltb_spec q StoreKeys.MIN_BLOCK_SEQ); [done|].
  eapply answers_pure; [apply get_pure|]. intros d [= Hd]. right. split; [done|]. eauto.
Qed.

(** What a block without findings has, but for the pointer in its directory. *)
Definition block_checked (c : contents) (name : bytes) (x : gset bytes) (b : storage.BlockInfo) : Prop :=
  (exists d, resolves c b d /\ Z.of_nat (length d) = storage.bsize b /\ sha256 d = storage.hash b) /\
  (storage.inline_data b = None ->
   is_Some (c !! StoreKeys.block_reverse_key (storage.hash b) name) /\ storage.hash b ∈ x).

Lemma block_checked_mono c name x y b : x ⊆ y -> block_checked c name x b -> block_checked c name y b.
Proof. intros Hxy [H1 H2]. split; [done|]. intros Hi. destruct (H2 Hi). set_solver. Qed.

Lemma judge_block_clean c name b r :
  (forall d, r = Ok (Some d) -> resolves c b d) -> judge_block Full name b r = [] ->
  exists d, resolves c b d /\ Z.of_nat (length d) = storage.bsize b /\ sha256 d = storage.hash b.
Proof.
  intros Hr Hj. unfold judge_block in Hj. destruct r as [[d|]|]; try done.
  cbn [is_full] in Hj. change (is_full Full) with true in Hj. cbn match in Hj.
  apply app_eq_nil in Hj as [H1 H2].
  destruct (Z.eqb_spec (storage.bsize b) (Z.of_nat (length d))); [|done].
  case_bool_decide; [|done]. exists d. auto.
Qed.

Lemma answers_check_block (c : contents) (name : bytes) (b : storage.BlockInfo) :
  answers (S := FS) c (check_block Full name b)
    (fun r => exists e x, r = Ok (e, x) /\ (e = [] -> block_checked c name x b)).
Proof.
  unfold check_block. destruct (Nat.eqb (length (storage.hash b)) 32); cbn [negb].
  2:{ apply answers_ret. eexists _, _. by split. }
  apply answers_bind, answers_catch. eapply answers_mono; [apply answers_resolve|].
  intros r Hr. cbn beta match. destruct (storage.inline_data b) as [d0|] eqn:Ei.
  - apply answers_ret. eexists _, _. split; [done|]. intros He. split.
    + eapply judge_block_clean; [exact Hr|exact He].
    + by rewrite Ei.
  - apply answers_bind. eapply answers_pure; [apply get_pure|]. cbn beta match.
    apply answers_ret. eexists _, _. split; [done|]. intros [H1 H2]%app_eq_nil. split.
    + eapply judge_block_clean; [exact Hr|exact H1].
    + intros _. split; [|set_solver].
      by destruct (c !! _); [eexists|done].
Qed.

Lemma answers_check_blocks (c : contents) (name : bytes) (bs : list storage.BlockInfo) :
  answers (S := FS) c (check_blocks Full name bs)
    (fun r => exists e x, r = Ok (e, x) /\
       (e = [] -> forall b, b ∈ bs -> block_checked c name x b)).
Proof.
  induction bs as [|b bs IH]; cbn [check_blocks].
  { apply answers_ret. eexists _, _. split; [done|]. intros _ b Hb. by apply elem_of_nil in Hb. }
  apply answers_bind. eapply answers_mono; [apply answers_check_block|].
  intros r (e & x & -> & Hb). cbn beta match.
  apply answers_bind. eapply answers_mono; [apply IH|].
  intros r (e' & x' & -> & Hbs). cbn beta match. apply answers_ret.
  eexists _, _. split; [done|]. intros [-> ->]%app_eq_nil b' [->|Hin]%elem_of_cons.
  - eapply block_checked_mono; [|by apply Hb]. set_solver.
  - eapply block_checked_mono; [|by apply Hbs]. set_solver.
Qed.

(** *** Files and block rows *)

(** A row of a scan over well-formed keys has a key of the scanned class. *)
Lemma scanned_key (c : contents) (K0 : StoreKeys.Key) (kv : kv_t) :
  StoreIndex.keys_wf c -> kv ∈ entries (starts_with (StoreKeys.tag K0)) c ->
  exists K, StoreKeys.key_ok K /\ fst kv = StoreKeys.encode_key K /\
    StoreKeys.tag K = StoreKeys.tag K0 /\ c !! fst kv = Some (snd kv).
Proof.
  intros Hwf Hin. destruct kv as [k v]. apply elem_of_entries in Hin as [Hk Hp].
  destruct (Hwf k v Hk) as (K & HK & ->). rewrite StoreKeys.starts_with_tag in Hp.
  apply bool_decide_eq_true in Hp. by exists K.
Qed.

Lemma file_entry (c : contents) (kv : kv_t) :
  StoreIndex.keys_wf c -> kv ∈ entries (starts_with StoreKeys.FILE_PREFIX) c ->
  exists n, StoreKeys.name_ok n /\ fst kv = StoreKeys.file_key n /\ c !! fst kv = Some (snd kv).
Proof.
  intros Hwf Hin. destruct (scanned_key c (StoreKeys.KFile []) kv Hwf Hin) as (K & HK & E & Ht & Hc).
  destruct K as [n| | | | | | |]; try discriminate Ht. by exists n.
Qed.

Lemma pointer_entry (c : contents) (kv : kv_t) :
  StoreIndex.keys_wf c -> kv ∈ entries (starts_with StoreKeys.BLOCK_PREFIX) c ->
  exists d h, length h = StoreKeys.HASH_LEN /\ fst kv = StoreKeys.block_pointer_key d h /\
    c !! fst kv = Some (snd kv).
Proof.
  intros Hwf Hin.
  destruct (scanned_key c (StoreKeys.KPointer [] []) kv Hwf Hin) as (K & HK & E & Ht & Hc).
  destruct K as [|?|d h| | | | |]; try discriminate Ht. by exists d, h.
Qed.

Lemma seq_entry (c : contents) (kv : kv_t) :
  StoreIndex.keys_wf c -> kv ∈ entries (starts_with StoreKeys.SEQ_PREFIX) c ->
  exists q, StoreKeys.u64_ok q /\ fst kv = StoreKeys.encode_key (StoreKeys.KSeq q) /\
    c !! fst kv = Some (snd kv).
Proof.
  intros Hwf Hin. destruct (scanned_key c (StoreKeys.KSeq 0) kv Hwf Hin) as (K & HK & E & Ht & Hc).
  destruct K as [|q| | | | | |]; try discriminate Ht. by exists q.
Qed.

(** The directory of a pointer row, when it has one. *)
Lemma block_key_dir_inv (d h dir : bytes) :
  length h = StoreKeys.HASH_LEN ->
  StoreKeys.block_key_dir (StoreKeys.block_pointer_key d h) = Some dir -> d = dir.
Proof.
  intros Hh. unfold StoreKeys.block_key_dir, StoreKeys.block_pointer_key.
  rewrite starts_with_app. cbn [negb]. rewrite !length_app, Hh.
  rewrite (proj2 (Nat.ltb_ge _ _)) by (simpl; lia).
  rewrite drop_app_length. rewrite take_app_length' by StoreKeys.key_len.
  unfold from_utf8. by destruct (utf8_valid d) as [|]; [intros [= ->]|].
Qed.

Definition file_checked (c : contents) (x : gset bytes) (kv : kv_t) : Prop :=
  exists n file fi, StoreKeys.name_ok n /\ fst kv = StoreKeys.file_key n /\
    decode (snd kv) = Some file /\ storage.file_info file = Some fi /\
    (storage.deleted fi = false -> forall b, b ∈ storage.blocks fi -> block_checked c n x b).

Lemma file_checked_mono c x y kv : x ⊆ y -> file_checked c x kv -> file_checked c y kv.
Proof.
  intros Hxy (n & file & fi & H1 & H2 & H3 & H4 & H5). exists n, file, fi. split_and!; try done.
  intros Hd b Hb. eapply block_checked_mono; [exact Hxy|auto].
Qed.

Lemma answers_check_file (c : contents) (kv : kv_t) (n : bytes) :
  StoreKeys.name_ok n -> fst kv = StoreKeys.file_key n ->
  answers (S := FS) c (check_file Full kv)
    (fun r => exists e x, r = Ok (e, x) /\ (e = [] -> file_checked c x kv)).
Proof.
  intros Hn Hk. unfold check_file. rewrite Hk, StoreKeys.parse_file_key_file by done.
  destruct (decode (snd kv)) as [file|] eqn:Ed; [|apply answers_ret; eexists _, _; by split].
  destruct (storage.file_info file) as [fi|] eqn:Ef; [|apply answers_ret; eexists _, _; by split].
  destruct (storage.deleted fi) eqn:Edel.
  - apply answers_ret. eexists _, _. split; [done|]. intros _. exists n, file, fi. split_and!; try done.
    by rewrite Edel.
  - eapply answers_mono; [apply answers_check_blocks|]. intros r (e & x & -> & Hb).
    eexists _, _. split; [done|]. intros He. exists n, file, fi. split_and!; auto.
Qed.

Lemma answers_collect (c : contents) (kvs : list kv_t) :
  StoreIndex.keys_wf c -> (forall kv, kv ∈ kvs -> kv ∈ entries (starts_with StoreKeys.FILE_PREFIX) c) ->
  answers (S := FS) c (collect_expected_blocks Full kvs)
    (fun r => exists e x, r = Ok (e, x) /\ (e = [] -> forall kv, kv ∈ kvs -> file_checked c x kv)).
Proof.
  intros Hwf. induction kvs as [|kv kvs IH]; intros Hin; cbn [collect_expected_blocks].
  { apply answers_ret. eexists _, _. split; [done|]. intros _ kv Hkv. by apply elem_of_nil in Hkv. }
  destruct (file_entry c kv Hwf) as (n & Hn & Hk & _); [apply Hin; by left|].
  apply answers_bind. eapply answers_mono; [by eapply answers_check_file|].
  intros r (e & x & -> & Hf). cbn beta match.
  apply answers_bind. eapply answers_mono; [apply IH; intros kv' Hkv'; apply Hin; by right|].
  intros r (e' & x' & -> & Hfs). cbn beta match. apply answers_ret.
  eexists _, _. split; [done|]. intros [-> ->]%app_eq_nil kv' [->|Hkv]%elem_of_cons.
  - eapply file_checked_mono; [|by apply Hf]. set_solver.
  - eapply file_checked_mono; [|by apply Hfs]. set_solver.
Qed.

Lemma answers_block_entry (c : contents) (dir : bytes) (x : gset bytes) (kv : kv_t) :
  StoreIndex.keys_wf c -> kv ∈ entries (starts_with StoreKeys.BLOCK_PREFIX) c ->
  StoreKeys.block_key_dir (fst kv) = Some dir ->
  answers (S := FS) c (check_block_entry dir Full x kv)
    (fun r => exists e y, r = Ok (e, y) /\
       (e = [] -> forall h, h ∈ x -> h ∉ y -> pointer_sound c dir h)).
Proof.
  intros Hwf Hin Hdir. destruct (pointer_entry c kv Hwf Hin) as (d & h & Hh & Hk & Hc).
  rewrite Hk in Hdir. apply block_key_dir_inv in Hdir as ->; [|done].
  unfold check_block_entry. rewrite Hk in Hc |- *. rewrite StoreKeys.parse_block_pointer_key_ptr by done.
  destruct (decode (snd kv)) as [ref|] eqn:Ed; [|apply answers_ret; eexists _, _; by split].
  unfold StoreKeys.validate_block_seq.
  destruct (Z.ltb_spec (storage.seqno ref) StoreKeys.MIN_BLOCK_SEQ).
  { apply answers_ret. eexists _, _. by split. }
  apply answers_bind. eapply answers_pure; [apply get_pure|]. cbn beta match. apply answers_ret.
  eexists _, _. split; [done|]. intros He h' Hx Hy.
  destruct (c !! StoreKeys.block_data_seq_key (storage.seqno ref)) as [data|] eqn:Edata; [|done].
  change (is_full Full) with true in He. cbn [andb] in He. case_bool_decide as Esha; [|done].
  assert (h' = h) as -> by (destruct (decide (h' = h)); [done|exfalso; set_solver]).
  exists (snd kv), ref, data. auto.
Qed.

Lemma answers_block_entries (c : contents) (dir : bytes) (kvs : list kv_t) (x : gset bytes) :
  StoreIndex.keys_wf c -> (forall kv, kv ∈ kvs -> kv ∈ entries (starts_with StoreKeys.BLOCK_PREFIX) c) ->
  Forall (fun kv => StoreKeys.block_key_dir (fst kv) = Some dir) kvs ->
  answers (S := FS) c (check_block_entries dir Full x kvs)
    (fun r => exists e y, r = Ok (e, y) /\
       (e = [] -> forall h, h ∈ x -> h ∉ y -> pointer_sound c dir h)).
Proof.
  intros Hwf. revert x. induction kvs as [|kv kvs IH]; intros x Hin Hdir; cbn [check_block_entries].
  { apply answers_ret. eexists _, _. by split. }
  apply Forall_cons in Hdir as [Hd Hdir].
  apply answers_bind. eapply answers_mono; [apply answers_block_entry; [done|apply Hin; by left|done]|].
  intros r (e & y & -> & He). cbn beta match.
  apply answers_bind. eapply answers_mono; [apply IH; [intros kv' Hkv'; apply Hin; by right|done]|].
  intros r (e' & z & -> & He'). cbn beta match. apply answers_ret.
  eexists _, _. split; [done|]. intros [-> ->]%app_eq_nil h Hx Hz.
  destruct (decide (h ∈ y)); [by apply He'|by apply He].
Qed.

(** *** The merge *)

Definition row_sound (c : contents) (kv : kv_t) : Prop :=
  exists n, StoreKeys.name_ok n /\ fst kv = StoreKeys.file_key n /\ file_sound c n (snd kv).

(** A checked file whose expected pointers were all found is sound. *)
Lemma file_checked_sound (c : contents) (x : gset bytes) (dir : bytes) (kv : kv_t) :
  StoreKeys.file_key_dir (fst kv) = Some dir -> (forall h, h ∈ x -> pointer_sound c dir h) ->
  file_checked c x kv -> row_sound c kv.
Proof.
  intros Hdir Hx (n & file & fi & Hn & Hk & Hd & Hf & Hb). exists n. split_and!; [done..|].
  exists file, fi. split_and!; [done..|]. intros Hlive b Hin.
  destruct (Hb Hlive b Hin) as [H1 H2]. split; [done|]. intros Hi.
  destruct (H2 Hi) as [H3 H4]. split; [done|].
  rewrite Hk, StoreKeys.file_key_dir_file in Hdir by apply Hn. injection Hdir as ->. auto.
Qed.

(** An iterator over rows of a scan that cannot fail. *)
Definition healthy_iter (c : contents) (p : bytes) (df : bytes -> option bytes) (it : DirGroupIter) : Prop :=
  scan_error (iter it) = None /\ dir_fn it = df /\
  forall kv, kv ∈ rows_left it -> kv ∈ entries (starts_with p) c.

Lemma healthy_take (c : contents) (p dir : bytes) (df : bytes -> option bytes) (it : DirGroupIter) :
  healthy_iter c p df it ->
  exists batch it', take_dir it dir = Ok (batch, it') /\ same_rows df dir it it' batch /\
    healthy_iter c p df it' /\ (forall kv, kv ∈ batch -> kv ∈ entries (starts_with p) c) /\
    (length (rows_left it') + length batch = length (rows_left it))%nat.
Proof.
  intros (He & Hf & Hin). destruct (take_dir_spec df dir it He Hf) as (batch & it' & E & Hs).
  exists batch, it'. pose proof (sr_rows _ _ _ _ _ Hs) as Hr. split_and!; [done|done| | |].
  - split_and!; [apply Hs|apply Hs|]. intros kv Hkv. apply Hin. rewrite Hr. set_solver.
  - intros kv Hkv. apply Hin. rewrite Hr. set_solver.
  - rewrite Hr, length_app. lia.
Qed.

(** A file iterator always has a directory while it has rows. *)
Lemma files_peek (c : contents) (it : DirGroupIter) :
  StoreIndex.keys_wf c -> healthy_iter c StoreKeys.FILE_PREFIX StoreKeys.file_key_dir it ->
  peek_dir it = None -> rows_left it = [].
Proof.
  intros Hwf (_ & Hf & Hin). unfold peek_dir, rows_left in *.
  destruct (pending it) as [kv|]; [|done]. intros Hp. exfalso.
  destruct (file_entry c kv Hwf) as (n & [Hn _] & Hk & _); [apply Hin; by left|].
  by rewrite Hf, Hk, StoreKeys.file_key_dir_file in Hp.
Qed.

Lemma next_dir_peek files blocks dir :
  next_dir files blocks = Some dir -> peek_dir files = Some dir \/ peek_dir blocks = Some dir.
Proof.
  unfold next_dir. destruct (peek_dir files), (peek_dir blocks); try (intros [= <-]; auto).
  destruct (bytes_cmp _ _); auto.
Qed.

Lemma answers_dir_loop (c : contents) (fuel : nat) (files blocks : DirGroupIter) :
  StoreIndex.keys_wf c ->
  healthy_iter c StoreKeys.FILE_PREFIX StoreKeys.file_key_dir files ->
  healthy_iter c StoreKeys.BLOCK_PREFIX StoreKeys.block_key_dir blocks ->
  (length (rows_left files) + length (rows_left blocks) <= fuel)%nat ->
  answers (S := FS) c (dir_loop fuel Full files blocks)
    (fun r => exists e, r = Ok (Some e) /\ (e = [] -> forall kv, kv ∈ rows_left files -> row_sound c kv)).
Proof.
  intros Hwf. revert files blocks. induction fuel as [|fuel IH]; intros files blocks Hfi Hbl Hfuel;
    cbn [dir_loop]; destruct (next_dir files blocks) as [dir|] eqn:En.
  2, 4: apply answers_ret; eexists; split; [done|]; intros _ kv Hkv;
    rewrite (files_peek c files) in Hkv by (done || unfold next_dir in En; by destruct (peek_dir files), (peek_dir blocks));
    by apply elem_of_nil in Hkv.
  { exfalso. destruct (next_dir_peek _ _ _ En) as [Hp|Hp]; unfold peek_dir, rows_left in *;
      destruct (pending files), (pending blocks); cbn in Hfuel; by (lia || discriminate Hp). }
  destruct (healthy_take c _ dir _ files Hfi) as (fb & files' & Ef & Hsf & Hfi' & Hfin & Hlf).
  destruct (healthy_take c _ dir _ blocks Hbl) as (bb & blocks' & Eb & Hsb & Hbl' & Hbin & Hlb).
  apply answers_bind, answers_lift. rewrite Ef. cbn beta match.
  apply answers_bind, answers_lift. rewrite Eb. cbn beta match.
  apply answers_bind. eapply answers_mono; [by apply answers_collect|].
  intros r (e1 & x & -> & H1). cbn beta match.
  apply answers_bind. eapply answers_mono; [apply answers_block_entries; [done|done|apply Hsb]|].
  intros r (e2 & y & -> & H2). cbn beta match.
  apply answers_bind. eapply answers_mono.
  { apply IH; [done|done|]. destruct (next_dir_peek _ _ _ En) as [Hp|Hp].
    - pose proof (sr_peek _ _ _ _ _ Hsf Hp). destruct fb; [done|]. cbn in Hlf. lia.
    - pose proof (sr_peek _ _ _ _ _ Hsb Hp). destruct bb; [done|]. cbn in Hlb. lia. }
  intros r (e3 & -> & H3). cbn beta match. apply answers_ret. eexists. split; [done|].
  intros [-> [-> [Hy ->]%app_eq_nil]%app_eq_nil]%app_eq_nil kv Hkv.
  apply fmap_nil_inv, elements_empty_iff in Hy.
  rewrite (sr_rows _ _ _ _ _ Hsf) in Hkv. apply elem_of_app in Hkv as [Hkv|Hkv]; [|by apply H3].
  eapply (file_checked_sound c x dir); [|intros h Hh; apply H2; [done|done|set_solver]|by apply H1].
  pose proof (sr_dir _ _ _ _ _ Hsf) as Hd. rewrite Forall_forall in Hd. by apply Hd.
Qed.

Lemma answers_directory_blocks (c : contents) :
  StoreIndex.keys_wf c ->
  answers (S := FS) c (check_directory_blocks Full)
    (fun r => exists e, r = Ok (Some e) /\
       (e = [] -> forall n v, StoreKeys.name_ok n -> c !! StoreKeys.file_key n = Some v -> file_sound c n v)).
Proof.
  intros Hwf. unfold check_directory_blocks.
  apply answers_bind. eapply answers_pure; [apply scan_prefix_pure|]. cbn beta match.
  destruct (iter_new_spec StoreKeys.file_key_dir (entries (starts_with StoreKeys.FILE_PREFIX) c))
    as (files & Ef & Hfr & Hfe & Hff).
  apply answers_bind, answers_lift. rewrite Ef. cbn beta match.
  apply answers_bind. eapply answers_pure; [apply scan_prefix_pure|]. cbn beta match.
  destruct (iter_new_spec StoreKeys.block_key_dir (entries (starts_with StoreKeys.BLOCK_PREFIX) c))
    as (blocks & Eb & Hbr & Hbe & Hbf).
  apply answers_bind, answers_lift. rewrite Eb. cbn beta match.
  eapply answers_mono; [apply answers_dir_loop; [done|split_and!; [done..|]|split_and!; [done..|]|lia]|].
  - by rewrite Hfr.
  - by rewrite Hbr.
  - intros r (e & -> & He). eexists. split; [done|]. intros -> n v Hn Hv.
    destruct (He eq_refl (StoreKeys.file_key n, v)) as (n' & Hn' & Hk & Hs).
    + rewrite Hfr. apply elem_of_entries. split; [done|].
      change (StoreKeys.file_key n) with (StoreKeys.encode_key (StoreKeys.KFile n)).
      change StoreKeys.FILE_PREFIX with (StoreKeys.tag (StoreKeys.KFile [])).
      rewrite StoreKeys.starts_with_tag. by apply bool_decide_eq_true.
    + cbn [fst snd] in *. change (StoreKeys.encode_key (StoreKeys.KFile n) =
        StoreKeys.encode_key (StoreKeys.KFile n')) in Hk.
      apply StoreKeys.encode_key_inj in Hk as [= ->]; done.
Qed.

(** *** Sequences and metadata *)

Lemma answers_seq_row (c : contents) (seq : Z) (value : bytes) :
  answers (S := FS) c (check_seq_row seq value)
    (fun r => exists e, r = Ok e /\ (e = [] -> seq_points c seq value)).
Proof.
  unfold check_seq_row. unfold from_utf8. destruct (utf8_valid value); [|apply answers_ret; by eexists].
  apply answers_bind. eapply answers_pure; [apply get_pure|]. cbn beta match.
  destruct (c !! StoreKeys.file_key value) as [b|] eqn:Eb; [|apply answers_ret; by eexists].
  destruct (decode b) as [file|] eqn:Ed; [|apply answers_ret; by eexists].
  destruct (storage.file_info file) as [fi|] eqn:Ef; [|apply answers_ret; by eexists].
  destruct (_ && _) eqn:Et; apply answers_ret; eexists; (split; [done|]); [|done].
  intros _. apply andb_true_iff in Et as [_ <-%Z.eqb_eq]. exists b, file, fi. auto.
Qed.

(** What the two loops of [check_sequences] know about the rows seen. *)
Definition seq_rows_ok (c : contents) (pre : list kv_t) (acc : list Finding * Z) : Prop :=
  fst acc = [] -> forall kv, kv ∈ pre -> exists q,
    StoreKeys.parse_seq_key (fst kv) = Some q /\ q <= snd acc /\ seq_points c q (snd kv).

Definition file_seqs_ok (c : contents) (e0 : list Finding) (pre : list kv_t) (acc : list Finding * Z) : Prop :=
  fst acc = [] -> e0 = [] /\ forall kv, kv ∈ pre -> has_seq_row c (snd kv).

Lemma answers_file_seq (c : contents) (e0 : list Finding) (pre : list kv_t) (acc : list Finding * Z)
  (kv : kv_t) :
  StoreIndex.keys_wf c -> kv ∈ entries (starts_with StoreKeys.FILE_PREFIX) c -> file_seqs_ok c e0 pre acc ->
  answers (S := FS) c (check_file_seq acc kv)
    (fun r => exists a, r = Ok a /\ file_seqs_ok c e0 (pre ++ [kv]) a).
Proof.
  intros Hwf Hin HI. destruct (file_entry c kv Hwf Hin) as (n & Hn & Hk & _).
  assert (forall e m, (e = [] -> fst acc = [] /\ has_seq_row c (snd kv)) ->
            file_seqs_ok c e0 (pre ++ [kv]) (e, m)) as Hstep.
  { intros e m He H. destruct (He H) as [Ha Hr]. destruct (HI Ha) as [He0 Hpre]. split; [done|].
    intros kv' [Hkv|Hkv%list_elem_of_singleton]%elem_of_app; [auto|by subst kv']. }
  unfold check_file_seq. destruct acc as [errors mx]. rewrite Hk, StoreKeys.parse_file_key_file by done.
  destruct (decode (snd kv)) as [file|] eqn:Ed.
  2:{ apply answers_ret. eexists. split; [done|]. apply Hstep. intros ->. split; [done|].
      intros file fi Hd. by rewrite Ed in Hd. }
  destruct (storage.file_info file) as [fi|] eqn:Ef.
  2:{ apply answers_ret. eexists. split; [done|]. apply Hstep. intros ->. split; [done|].
      intros file' fi Hd. rewrite Ed in Hd. injection Hd as <-. by rewrite Ef. }
  destruct (StoreKeys.seq_key (storage.sequence fi)) as [sk|er] eqn:Es.
  - apply answers_bind. eapply answers_pure; [apply get_pure|]. cbn beta match.
    apply answers_ret. eexists. split; [done|]. apply Hstep. intros [-> Hv]%app_eq_nil. split; [done|].
    intros file' fi' Hd Hf'. rewrite Ed in Hd. injection Hd as <-. rewrite Ef in Hf'. injection Hf' as <-.
    exists sk. split; [done|]. by destruct (c !! sk); [eexists|].
  - apply answers_ret. eexists. split; [done|]. apply Hstep. by intros [_ ?]%app_eq_nil.
Qed.

Lemma answers_sequences (c : contents) (mx : option Z) :
  StoreIndex.keys_wf c ->
  answers (S := FS) c (check_sequences mx Full)
    (fun r => exists e, r = Ok e /\ (e = [] ->
       (forall q n, StoreKeys.u64_ok q -> c !! StoreKeys.encode_key (StoreKeys.KSeq q) = Some n ->
          seq_points c q n /\ forall m, mx = Some m -> q <= m) /\
       forall n v, StoreKeys.name_ok n -> c !! StoreKeys.file_key n = Some v -> has_seq_row c v)).
Proof.
  intros Hwf. unfold check_sequences. apply answers_assoc.
  eapply answers_ok; [apply (answers_scan c _ _ _ (seq_rows_ok c))|].
  { intros _ kv Hkv. by apply elem_of_nil in Hkv. }
  { intros pre [errors mq] kv Hin HI. destruct (seq_entry c kv Hwf Hin) as (q & Hq & Hk & _).
    rewrite Hk. change (StoreKeys.encode_key (StoreKeys.KSeq q)) with (StoreKeys.SEQ_PREFIX ++ to_be 8 q).
    rewrite StoreKeys.parse_seq_key_seq by done.
    eapply answers_ok; [apply answers_seq_row|]. intros e He. apply answers_ret. eexists. split; [done|].
    intros [-> ->]%app_eq_nil kv' [Hkv|Hkv%list_elem_of_singleton]%elem_of_app.
    - destruct (HI eq_refl kv' Hkv) as (q' & ? & ? & ?). exists q'. cbn [fst snd] in *. split_and!; [done|lia|done].
    - subst kv'. exists q. rewrite Hk. cbn [fst snd].
      change (StoreKeys.encode_key (StoreKeys.KSeq q)) with (StoreKeys.SEQ_PREFIX ++ to_be 8 q).
      rewrite StoreKeys.parse_seq_key_seq by done. split_and!; [done|lia|auto]. }
  intros [errors mq] Hseq. change (is_full Full) with true. cbn match.
  eapply answers_ok; [apply (answers_scan c _ _ _ (file_seqs_ok c errors))|].
  { intros H. split; [done|]. intros kv Hkv. by apply elem_of_nil in Hkv. }
  { intros pre acc kv Hin HI. by apply answers_file_seq. }
  intros [errors' mf] Hfile. apply answers_ret. eexists. split; [done|].
  intros [-> Hmax]%app_eq_nil. destruct (Hfile eq_refl) as [-> Hf]. split.
  - intros q n Hq Hn.
    destruct (Hseq eq_refl (StoreKeys.encode_key (StoreKeys.KSeq q), n)) as (q' & Hp & Hle & Hpt).
    { apply elem_of_entries. split; [done|]. change StoreKeys.SEQ_PREFIX with (StoreKeys.tag (StoreKeys.KSeq 0)).
      rewrite StoreKeys.starts_with_tag. by apply bool_decide_eq_true. }
    cbn [fst snd] in *. change (StoreKeys.encode_key (StoreKeys.KSeq q)) with (StoreKeys.SEQ_PREFIX ++ to_be 8 q) in Hp.
    rewrite StoreKeys.parse_seq_key_seq in Hp by done. injection Hp as <-. split; [done|].
    intros m ->. unfold check_max in Hmax. apply app_eq_nil in Hmax as [Hmax _].
    destruct (Z.ltb_spec m 0); [done|]. destruct (Z.ltb_spec m mq); [done|]. lia.
  - intros n v Hn Hv. apply (Hf (StoreKeys.file_key n, v)). apply elem_of_entries. split; [done|].
    change (StoreKeys.file_key n) with (StoreKeys.encode_key (StoreKeys.KFile n)).
    change StoreKeys.FILE_PREFIX with (StoreKeys.tag (StoreKeys.KFile [])).
    rewrite StoreKeys.starts_with_tag. by apply bool_decide_eq_true.
Qed.

Lemma answers_metadata (c : contents) :
  answers (S := FS) c check_metadata
    (fun r => exists e m, r = Ok (e, m) /\ (e = [] ->
       forall b meta, c !! StoreKeys.IX_KEY = Some b -> decode b = Some meta ->
         m = Some (storage.max_sequence meta))).
Proof.
  unfold check_metadata. apply answers_bind. eapply answers_pure; [apply get_pure|]. cbn beta match.
  set (v := match c !! StoreKeys.IX_KEY with Some _ => _ | None => _ end).
  destruct v as [e0 m0] eqn:Ev. apply answers_assoc.
  eapply answers_ok; [apply (answers_scan c _ _ _ (fun _ e => e = [] -> e0 = []))|].
  { done. }
  { intros pre acc kv _ HI. apply answers_ret. eexists. split; [done|]. intros [-> _]%app_eq_nil. auto. }
  intros e He. apply answers_ret. eexists _, _. split; [done|]. intros Hnil b meta Hb Hd.
  unfold v in Ev. rewrite Hb, Hd in Ev. by injection Ev as _ <-.
Qed.

Lemma answers_inbox (c : contents) :
  answers (S := FS) c check_inbox
    (fun r => exists e, r = Ok e /\ (e = [] ->
       forall k v, c !! k = Some v -> starts_with StoreKeys.INBOX_PREFIX k = true ->
         exists inbox fi, decode v = Some inbox /\ storage.inbox_file_info inbox = Some fi)).
Proof.
  unfold check_inbox. eapply answers_mono.
  { apply (answers_scan c _ _ _ (fun pre e => e = [] -> forall kv, kv ∈ pre ->
      exists inbox fi, decode (snd kv) = Some inbox /\ storage.inbox_file_info inbox = Some fi)).
    - intros _ kv Hkv. by apply elem_of_nil in Hkv.
    - intros pre acc kv _ HI. apply answers_ret. eexists. split; [done|].
      intros [-> Hkv]%app_eq_nil kv' [Hkv'|Hkv'%list_elem_of_singleton]%elem_of_app; [auto|subst kv'].
      destruct (decode (snd kv)) as [inbox|]; [|done].
      destruct (storage.inbox_file_info inbox) eqn:E; [|done]. eauto. }
  intros r (e & -> & He). eexists. split; [done|]. intros -> k v Hk Hp.
  apply (He eq_refl (k, v)). by apply elem_of_entries.
Qed.

End Fsck.

(** ** Properties *)

Section Properties.
Context {Db : Type} `{!SlateDb Db} `{!SlateDbLaws Db} {SC : StoreCodecs}.
Context {HF SF : Type} `{!Bloom bytes HF} `{!Bloom Z SF}.
Context (sha256 : bytes -> bytes).

(** C13: what a clean report means. On a database that does not fail and whose
    keys the store wrote, the full check always ends with a report and changes
    nothing. If the report is empty, every file entry decodes; every block of a
    file that is not deleted resolves, for readers, to data of the declared size
    with the declared hash; a block stored apart has its reverse reference and a
    pointer in its directory that leads to data with that hash; sequence rows
    and files refer to each other, below the persisted maximum; every inbox
    entry decodes. *)
Theorem fsck_sound (s : FolderStore Db HF SF)
  (Hwf : StoreIndex.keys_wf (cts s)) (Hh : healthy s) :
  let '(s', r) := check_folder_integrity sha256 Full s in
  cts s' = cts s /\
  exists errors, r = Ok (Some errors) /\ (errors = [] ->
    (forall n v, StoreKeys.name_ok n -> cts s !! StoreKeys.file_key n = Some v ->
       file_sound sha256 (cts s) n v) /\
    seqs_sound (cts s) /\
    (forall k v, cts s !! k = Some v -> starts_with StoreKeys.INBOX_PREFIX k = true ->
       exists inbox fi, decode v = Some inbox /\ storage.inbox_file_info inbox = Some fi)).
Proof.
  cut (answers (S := FolderStore Db HF SF) (cts s) (check_folder_integrity sha256 Full)
         (fun r => exists errors, r = Ok (Some errors) /\ (errors = [] ->
    (forall n v, StoreKeys.name_ok n -> cts s !! StoreKeys.file_key n = Some v ->
       file_sound sha256 (cts s) n v) /\
    seqs_sound (cts s) /\
    (forall k v, cts s !! k = Some v -> starts_with StoreKeys.INBOX_PREFIX k = true ->
       exists inbox fi, decode v = Some inbox /\ storage.inbox_file_info inbox = Some fi)))).
  { intros H. destruct (H s eq_refl Hh) as (Hc & _ & Hr).
    by destruct (check_folder_integrity sha256 Full s). }
  unfold check_folder_integrity. cbn [at_least_structural].
  eapply answers_ok; [apply answers_inbox|]. intros e0 H0.
  apply answers_bind. eapply answers_mono; [apply answers_metadata|].
  intros r (e1 & m & -> & H1). cbn beta match.
  eapply answers_ok; [by apply answers_sequences|]. intros e2 H2.
  apply answers_bind. eapply answers_mono; [by apply answers_directory_blocks|].
  intros r (e3 & -> & H3). cbn beta match. apply answers_ret. eexists. split; [done|].
  intros [-> [-> [-> ->]%app_eq_nil]%app_eq_nil]%app_eq_nil. specialize (H2 eq_refl) as [Hs Hf].
  split_and!; [by apply H3| |by apply H0]. split_and!.
  - intros q n Hq Hn. by apply Hs.
  - done.
  - intros b meta Hb Hd q n Hq Hn. eapply (proj2 (Hs q n Hq Hn)). by apply (H1 eq_refl b).
Qed.

End Properties.

(** ** Examples *)

#[local] Existing Instance StoreTape.codecs.
#[local] Existing Instance StoreTape.laws.

(** A toy hash: the first byte of the data, 32 times. *)
Definition toy_sha (d : bytes) : bytes := repeat (hd 0 d) 32.
Definition toy_good (h d : bytes) : Prop := h = toy_sha d.

(** Commit a file with one block of 4096 bytes [b] and store the block. *)
Definition add_file (n : bytes) (b : Z) (s : FolderStore MapDb StoreTape.HFilter StoreTape.SFilter) :
  FolderStore MapDb StoreTape.HFilter StoreTape.SFilter :=
  fst (store_block None n (repeat b 32) (repeat b 4096)
    (fst (put_file (StoreTape.sample n 1 [bep.mkBlockInfo (repeat b 32) 0 4096]) s))).

Lemma add_file_reachable n b s :
  StoreKeys.name_ok n ->
  StoreBlocks.room (cts (fst (put_file (StoreTape.sample n 1 [bep.mkBlockInfo (repeat b 32) 0 4096]) s))) ->
  StoreBlocks.reachable toy_good s -> StoreBlocks.reachable toy_good (add_file n b s).
Proof.
  intros Hn Hroom (s0 & Hi & Hs). exists s0. split; [exact Hi|].
  unfold add_file. set (f := StoreTape.sample n 1 _) in *.
  apply (rtc_r _ (fst (put_file f s))); [apply (rtc_r _ s); [exact Hs|]|].
  - exact (StoreBlocks.step_put_file toy_good s f Hn).
  - by apply StoreBlocks.step_store_block.
Qed.

Definition one_dir : FolderStore MapDb StoreTape.HFilter StoreTape.SFilter :=
  add_file (lit "a/x") 200 StoreTape.empty_store.
Definition nested_dirs : FolderStore MapDb StoreTape.HFilter StoreTape.SFilter :=
  add_file (lit "a/b/y") 3 one_dir.

Lemma one_dir_reachable : StoreBlocks.reachable toy_good one_dir.
Proof.
  apply add_file_reachable; [by vm_compute..|]. by exists StoreTape.empty_store.
Qed.

Lemma fsck_sound_witness :
  exists v, cts one_dir !! StoreKeys.file_key (lit "a/x") = Some v /\
    file_sound toy_sha (cts one_dir) (lit "a/x") v /\ seqs_sound (cts one_dir).
Proof.
  pose proof (fsck_sound toy_sha one_dir
    (StoreBlocks.bl_keys _ _ _ (StoreBlocks.reachable_Good _ _ one_dir_reachable)) eq_refl) as H.
  assert (snd (check_folder_integrity toy_sha Full one_dir) = Ok (Some [])) as E
    by (vm_compute; reflexivity).
  destruct (check_folder_integrity toy_sha Full one_dir) as [s' r]. cbn [snd] in E. subst r.
  destruct H as (_ & errors & [= <-] & H). destruct (H eq_refl) as (Hf & Hs & _).
  assert (StoreKeys.name_ok (lit "a/x")) as Hn by (by vm_compute).
  assert (is_Some (cts one_dir !! StoreKeys.file_key (lit "a/x"))) as [v Ev]
    by (eexists; vm_compute; reflexivity).
  exists v. exact (conj Ev (conj (Hf (lit "a/x") v Hn Ev) Hs)).
Defined.

(** The check can report blocks that are there as missing. It merges the
    files and the block pointers directory by directory and takes the smaller
    of the two directory names, but the rows come in the order of the keys, in
    which the pointers of a directory can follow those of its subdirectories
    (the hash is compared with the name of the subdirectory). Two committed
    files, in a directory and in its subdirectory, whose blocks are stored and
    readable: the full check reports the block of the first as missing although
    its pointer is there and leads to the right data. *)
Theorem fsck_false_alarm :
  StoreBlocks.reachable toy_good nested_dirs /\
  snd (check_folder_integrity toy_sha Full nested_dirs) =
    Ok (Some [MissingBlock (lit "a") (repeat 200 32)]) /\
  pointer_sound toy_sha (cts nested_dirs) (lit "a") (repeat 200 32) /\
  snd (read_block (lit "a/x") (repeat 200 32) nested_dirs) = Ok (repeat 200 4096) /\
  snd (read_block (lit "a/b/y") (repeat 3 32) nested_dirs) = Ok (repeat 3 4096).
Proof.
  split; [|split; [vm_compute; reflexivity|split]].
  - apply add_file_reachable; [by vm_compute..|]. apply one_dir_reachable.
  - eexists _, _, _. split_and!; [vm_compute; reflexivity|vm_compute; reflexivity|by vm_compute|..];
      vm_compute; reflexivity.
  - split; vm_compute; reflexivity.
Qed.

End Fsck.
