(* ===== verification/Snapshot.v ===== *)
(** The read-only file system of a checkpoint
    ([bepository-storage/src/snapshot_fs.rs]; the types are those of
    [snapshot.rs]).

    The functions run on the reader that [snapshot_reader] opens for a
    checkpoint. SlateDB's [DbReader] offers the reads of the database pinned to
    the checkpoint, so a reader is a [SlateDb] of which only the reads are used.
    [DateTime::from_timestamp] is a parameter. *)

From Stdlib Require Import ZArith Lia.
From stdpp Require Import base gmap list strings.
From S2P Require Import Prelude BepTypes Base32 StoreKeys Codec ProtoConv Kv GcState Store.
From S2P Require Import StoreTape StoreWp StoreIndex ReadOnly Fsck.

Local Open Scope Z_scope.
Local Open Scope bep_scope.

Module Snapshot.
Import Kv Store StoreWp ReadOnly.

Inductive SnapshotError := NotFound | NotAFile | NotADir | Io (msg : string).

(** ** Names *)

(** The prefix of the rows to scan for a directory; the root is the empty
    path. *)
Definition read_dir_prefix (path : bytes) : bytes :=
  match path with
  | [] => StoreKeys.FILE_PREFIX
  | _ => StoreKeys.FILE_PREFIX ++ path ++ [SLASH]
  end.

Definition relative_under (dir full_name : bytes) : option bytes :=
  match dir with
  | [] => Some full_name
  | _ => s ← strip_prefix dir full_name; strip_prefix [SLASH] s
  end.

(** [path.rsplit('/').next().unwrap_or(path)] *)
Definition last_component (path : bytes) : bytes :=
  match rsplit_once [SLASH] path with Some (_, b) => b | None => path end.

Section Snapshot.
Context {Time : Type} (from_timestamp : Z -> Z -> option Time).

Inductive FsEntry :=
| EFile (name : bytes) (size : Z) (modified : Time)
| EDir (name : bytes).

Definition entry_name (e : FsEntry) : bytes :=
  match e with EFile n _ _ | EDir n => n end.

Definition is_dir (e : FsEntry) : bool :=
  match e with EDir _ => true | EFile _ _ _ => false end.

Definition fs_entry_from_file_info (name : bytes) (fi : storage.FileInfo) : result SnapshotError FsEntry :=
  let ns := Z.max (storage.modified_ns fi) 0 in
  if negb (ns <=? U32_MAX) then Err (Io "invalid timestamp in file info")
  else
    try modified <- ok_or (from_timestamp (storage.modified_s fi) ns) (Io "invalid timestamp in file info");
    if storage.size fi <? 0 then Err (Io "negative file size")
    else Ok (EFile name (storage.size fi) modified).

Context {Db : Type} `{!SlateDb Db} {SC : StoreCodecs}.
Abbreviation RM := (SE Db SnapshotError).

Definition decode_live_file_info (raw : bytes) : result SnapshotError (option storage.FileInfo) :=
  try file <- ok_or (decode (A := storage.File) raw) (Io "decode file proto");
  Ok (match storage.file_info file with
      | Some fi => if storage.deleted fi then None else Some fi
      | None => None
      end).

(** ** Listing *)

(** The loop of [read_dir] over the rows of the scan. *)
Fixpoint list_rows (path : bytes) (items : list (bytes * bytes)) (seen_dirs : gset bytes) :
  result SnapshotError (list FsEntry) :=
  match items with
  | [] => Ok []
  | kv :: items' =>
      match StoreKeys.parse_file_key (fst kv) with
      | None => list_rows path items' seen_dirs
      | Some full_name =>
          match decode_live_file_info (snd kv) with
          | Ok (Some fi) =>
              match relative_under path full_name with
              | None => list_rows path items' seen_dirs
              | Some relative =>
                  match split_once [SLASH] relative with
                  | Some (dir_part, _) =>
                      if bool_decide (dir_part ∈ seen_dirs) then list_rows path items' seen_dirs
                      else
                        try es <- list_rows path items' ({[ dir_part ]} ∪ seen_dirs);
                        Ok (EDir dir_part :: es)
                  | None =>
                      try e <- fs_entry_from_file_info relative fi;
                      try es <- list_rows path items' seen_dirs;
                      Ok (e :: es)
                  end
              end
          | _ => list_rows path items' seen_dirs
          end
      end
  end.

Definition read_dir (path : bytes) : RM (list FsEntry) :=
  do! sc <- se_map_err (fun _ => Io "scan snapshot prefix") (db_scan_prefix (read_dir_prefix path));
  do! entries <- se_lift (list_rows path (scan_items sc) ∅);
  match scan_error sc with
  | Some _ => se_err (Io "iterate snapshot")
  | None => se_ret entries
  end.

Definition file_metadata (path : bytes) : RM FsEntry :=
  do! v <- se_map_err (fun _ => Io "read snapshot key") (db_get (StoreKeys.file_key path));
  match v with
  | Some raw =>
      do! live <- se_lift (decode_live_file_info raw);
      match live with
      | Some fi => se_lift (fs_entry_from_file_info (last_component path) fi)
      | None => se_err NotFound
      end
  | None =>
      do! sc <- se_map_err (fun _ => Io "scan snapshot prefix")
                  (db_scan_prefix (StoreKeys.FILE_PREFIX ++ path ++ [SLASH]));
      match scan_items sc with
      | _ :: _ => se_ret (EDir (last_component path))
      | [] => match scan_error sc with
              | Some _ => se_err (Io "iterate snapshot")
              | None => se_err NotFound
              end
      end
  end.

(** ** Reading *)

(** [resolve_block_data] of [block_read.rs] on a reader. *)
Definition resolve_block_data (b : storage.BlockInfo) : SE Db StorageError.t (option bytes) :=
  match storage.inline_data b with
  | Some d => se_ret (Some d)
  | None =>
      match storage.blockseq b with
      | Some seq =>
          run! se_lift (StoreKeys.validate_block_seq seq);
          se_map_err slate_err (db_get (StoreKeys.block_data_seq_key seq))
      | None => se_ret None
      end
  end.

Definition read_block_from_reader (b : storage.BlockInfo) : RM bytes :=
  do! d <- se_map_err (fun _ => Io "resolve block") (resolve_block_data b);
  se_lift (ok_or d (Io "block not found")).

(** [data.get(skip..skip + take)] *)
Definition get_slice (data : bytes) (skip take : Z) : option bytes :=
  if skip + take <=? Z.of_nat (length data)
  then Some (list.take (Z.to_nat take) (drop (Z.to_nat skip) data)) else None.

Definition saturating_add_u64 (a b : Z) : Z := Z.min (a + b) U64_MAX.

(** The loop of [copy_range_from_blocks]. *)
Fixpoint copy_loop (offset end_offset : Z) (bs : list storage.BlockInfo) (out : bytes) (remaining : Z) :
  RM bytes :=
  match bs with
  | [] => se_ret out
  | b :: bs' =>
      if storage.offset b <? 0 then se_err (Io "negative block offset")
      else if storage.bsize b <? 0 then se_err (Io "negative block size")
      else
        let blk_start := storage.offset b in
        let blk_size := storage.bsize b in
        let blk_end := saturating_add_u64 blk_start blk_size in
        if blk_end <=? offset then copy_loop offset end_offset bs' out remaining
        else if end_offset <=? blk_start then se_ret out
        else
          let skip := saturating_sub offset blk_start in
          let take := Z.min (saturating_sub blk_size skip) remaining in
          do! data <- read_block_from_reader b;
          do! slice <- se_lift (ok_or (get_slice data skip take) (Io "block declares another size"));
          let out := out ++ slice in
          let remaining := remaining - take in
          if remaining =? 0 then se_ret out
          else copy_loop offset end_offset bs' out remaining
  end.

Definition copy_range_from_blocks (fi : storage.FileInfo) (offset len : Z) : RM bytes :=
  copy_loop offset (saturating_add_u64 offset len) (storage.blocks fi) [] len.

Definition read_bytes (path : bytes) (offset len : Z) : RM bytes :=
  if len =? 0 then se_ret []
  else
    do! v <- se_map_err (fun _ => Io "read snapshot key") (db_get (StoreKeys.file_key path));
    do! raw <- se_lift (ok_or v NotFound);
    do! live <- se_lift (decode_live_file_info raw);
    do! fi <- se_lift (ok_or live NotFound);
    if storage.size fi <? 0 then se_err (Io "negative file size")
    else
      let len := Z.min (saturating_sub (storage.size fi) offset) len in
      if len =? 0 then se_ret [] else copy_range_from_blocks fi offset len.

(** ** Specification *)

(** The blocks of a file tile it from [base] on, and [ds] is their data. *)
Fixpoint laid_out (c : contents) (base : Z) (bs : list storage.BlockInfo) (ds : list bytes) : Prop :=
  match bs, ds with
  | [], [] => True
  | b :: bs', d :: ds' =>
      storage.offset b = base /\ storage.bsize b = Z.of_nat (length d) /\ Fsck.resolves c b d /\
      laid_out c (base + Z.of_nat (length d)) bs' ds'
  | _, _ => False
  end.

(** The live file at [path] and its contents. *)
Definition holds_file (c : contents) (path : bytes) (fi : storage.FileInfo) (ds : list bytes) : Prop :=
  (exists v file, c !! StoreKeys.file_key path = Some v /\ decode v = Some file /\
     storage.file_info file = Some fi /\ storage.deleted fi = false) /\
  laid_out c 0 (storage.blocks fi) ds /\ storage.size fi = Z.of_nat (length (concat ds)) /\
  storage.size fi <= I64_MAX.

(** ** Reading a range *)

Context `{!SlateDbLaws Db}.

Lemma answers_read_block (c : contents) (b : storage.BlockInfo) (d : bytes) :
  Fsck.resolves c b d -> answers (S := Db) c (read_block_from_reader b) (fun r => r = Ok d).
Proof.
  intros Hb. unfold read_block_from_reader, resolve_block_data. apply answers_bind, answers_map_err.
  destruct Hb as [->|(-> & q & -> & Hq & Hd)].
  - apply answers_ret. cbn. by apply answers_lift.
  - apply answers_bind, answers_lift. unfold StoreKeys.validate_block_seq.
    rewrite (proj2 (Z.ltb_ge _ _)) by done. apply answers_map_err.
    eapply answers_pure; [apply db_get_pure|]. cbn beta. rewrite Hd. by apply answers_lift.
Qed.

Lemma drop_skip (d rest : bytes) (n : Z) :
  Z.of_nat (length d) <= n ->
  drop (Z.to_nat n) (d ++ rest) = drop (Z.to_nat (n - Z.of_nat (length d))) rest.
Proof. intros H. rewrite drop_app_ge by lia. f_equal. lia. Qed.

Lemma answers_copy_loop (c : contents) (o e : Z) (bs : list storage.BlockInfo) :
  forall (ds : list bytes) (p : Z) (out : bytes) (rem : Z),
  laid_out c p bs ds -> 0 <= p -> 0 <= o -> p + Z.of_nat (length (concat ds)) <= I64_MAX ->
  rem = e - Z.max o p -> 0 < rem ->
  answers (S := Db) c (copy_loop o e bs out rem)
    (fun r => r = Ok (out ++ take (Z.to_nat rem) (drop (Z.to_nat (Z.max 0 (o - p))) (concat ds)))).
Proof.
  induction bs as [|b bs IH]; intros ds p out rem Hl Hp Ho Hmax Hrem Hpos; destruct ds as [|d ds];
    cbn [laid_out] in Hl; try done; cbn [copy_loop concat] in *.
  { apply answers_ret. by rewrite drop_nil, take_nil, app_nil_r. }
  destruct Hl as (Hoff & Hsz & Hres & Hl). rewrite length_app in Hmax. rewrite Hoff, Hsz.
  rewrite (proj2 (Z.ltb_ge p 0)), (proj2 (Z.ltb_ge _ 0)) by lia.
  unfold saturating_add_u64, saturating_sub, I64_MAX, U64_MAX in *. rewrite Z.min_l by lia.
  set (n := Z.of_nat (length d)) in *.
  destruct (Z.leb_spec (p + n) o) as [Hle|Hlt].
  { rewrite drop_skip by lia. fold n.
    replace (Z.max 0 (o - p) - n) with (Z.max 0 (o - (p + n))) by lia. apply IH; [done|lia..]. }
  rewrite (proj2 (Z.leb_gt e p)) by lia. set (skip := Z.max 0 (o - p)).
  apply answers_bind. eapply answers_mono; [by apply answers_read_block|]. intros r ->. cbn beta match.
  apply answers_bind, answers_lift. unfold get_slice. fold n.
  rewrite (proj2 (Z.leb_le _ _)) by lia. cbn [ok_or].
  rewrite drop_app_le by (subst n; lia).
  destruct (Z.eqb_spec (rem - Z.min (Z.max 0 (n - skip)) rem) 0) as [Hz|Hnz].
  - apply answers_ret. f_equal. f_equal. rewrite Z.min_r by lia.
    rewrite take_app_le; [done|]. rewrite length_drop. lia.
  - rewrite Z.min_l by lia. eapply answers_mono.
    { apply (IH ds (p + n)); [done|lia..]. }
    intros r ->. f_equal. rewrite <- app_assoc. f_equal.
    rewrite take_ge by (rewrite length_drop; lia).
    rewrite (take_app_ge (drop _ d)) by (rewrite length_drop; lia). f_equal.
    rewrite length_drop. replace (Z.max 0 (o - (p + n))) with 0 by lia. rewrite drop_0. f_equal. lia.
Qed.

(** ** Listing a directory *)

(** The name of [rel] below the directory [path]. *)
Definition join_path (path rel : bytes) : bytes :=
  match path with [] => rel | _ => path ++ SLASH :: rel end.

Lemma relative_under_join path n rel :
  relative_under path n = Some rel <-> n = join_path path rel.
Proof.
  unfold relative_under, join_path. destruct path as [|x path]; [naive_solver|].
  destruct (strip_prefix (x :: path) n) as [s|] eqn:E; cbn [mbind option_bind option_ret].
  - apply strip_prefix_Some in E as ->. rewrite strip_prefix_Some. split; [by intros ->|].
    intros H. by apply app_inv_head in H.
  - split; [done|]. intros ->. by rewrite strip_prefix_app in E.
Qed.

(** The scan of [read_dir] covers every file below the directory. *)
Lemma prefix_covers path rel :
  starts_with (read_dir_prefix path) (StoreKeys.file_key (join_path path rel)) = true.
Proof.
  apply starts_with_true. rewrite StoreKeys.file_key_path. unfold read_dir_prefix, join_path.
  destruct path as [|x path]; [by eexists|]. set (p := x :: path).
  enough (exists r, StoreKeys.path_of (p ++ SLASH :: rel) = p ++ [SLASH] ++ r) as [r ->].
  { exists r. by rewrite <- !app_assoc. }
  unfold StoreKeys.path_of, StoreKeys.split_name.
  destruct (rsplit_once [SLASH] rel) as [[a b]|] eqn:E.
  - pose proof (rsplit_once_char_notin _ _ _ _ E) as Hb. apply rsplit_once_Some in E as ->.
    replace (p ++ SLASH :: a ++ [SLASH] ++ b) with ((p ++ SLASH :: a) ++ SLASH :: b)
      by (by rewrite <- app_assoc).
    rewrite rsplit_once_char by done. eexists. by rewrite <- !app_assoc.
  - apply rsplit_once_char_None in E. rewrite rsplit_once_char by done. by eexists.
Qed.

(** The children of a directory in an index: files, and directories implied by
    the names of files below. *)
Definition child_file (idx : gmap bytes storage.FileInfo) (path base : bytes) (f : storage.FileInfo) : Prop :=
  idx !! join_path path base = Some f /\ storage.deleted f = false /\ SLASH ∉ base.

Definition child_dir (idx : gmap bytes storage.FileInfo) (path d : bytes) : Prop :=
  SLASH ∉ d /\ exists rest f, idx !! join_path path (d ++ SLASH :: rest) = Some f /\ storage.deleted f = false.

(** The entries due for the files [l], when the directories [seen] are listed. *)
Definition due (path : bytes) (seen : gset bytes) (l : list storage.FileInfo) (e : FsEntry) : Prop :=
  (exists f rel, f ∈ l /\ storage.deleted f = false /\ storage.name f = join_path path rel /\
     SLASH ∉ rel /\ fs_entry_from_file_info rel f = Ok e) \/
  (exists f d rest, f ∈ l /\ storage.deleted f = false /\
     storage.name f = join_path path (d ++ SLASH :: rest) /\ SLASH ∉ d /\ d ∉ seen /\ e = EDir d).

Definition dir_names (es : list FsEntry) : list bytes := map entry_name (List.filter is_dir es).

Context {SL : StoreCodecLaws}.

Definition row_of (kv : bytes * bytes) (f : storage.FileInfo) : Prop :=
  StoreKeys.name_ok (storage.name f) /\
  kv = (StoreKeys.file_key (storage.name f), StoreIndex.file_bytes f).

Lemma decode_live_bytes f :
  decode_live_file_info (StoreIndex.file_bytes f) = Ok (if storage.deleted f then None else Some f).
Proof. unfold decode_live_file_info, StoreIndex.file_bytes. by rewrite decode_encode. Qed.

Lemma due_skip path seen f l e :
  (storage.deleted f = true \/ relative_under path (storage.name f) = None \/
   exists d rest, relative_under path (storage.name f) = Some (d ++ SLASH :: rest) /\ SLASH ∉ d /\ d ∈ seen) ->
  due path seen (f :: l) e <-> due path seen l e.
Proof.
  intros Hskip. unfold due. split.
  - intros [(f' & rel & Hf & Hd & Hn & Hs & He)|(f' & d & rest & Hf & Hd & Hn & Hs & Hseen & ->)];
      apply elem_of_cons in Hf as [->|Hf]; [exfalso|left; by exists f', rel|exfalso|right; by exists f', d, rest].
    + apply relative_under_join in Hn. destruct Hskip as [?|[?|(d & rest & E & _ & _)]]; [congruence..|].
      rewrite Hn in E. injection E as ->. set_solver.
    + apply relative_under_join in Hn. destruct Hskip as [?|[?|(d' & rest' & E & Hs' & Hin)]]; [congruence..|].
      rewrite Hn in E. injection E as E. apply (f_equal (split_once [SLASH])) in E.
      rewrite !split_once_char in E by done. by injection E as -> _.
  - intros [(f' & rel & ? & ?)|(f' & d & rest & ? & ?)]; [left; exists f', rel|right; exists f', d, rest];
      (split; [by right|done]).
Qed.

Definition bad_child (path : bytes) (l : list storage.FileInfo) (er : SnapshotError) : Prop :=
  exists f rel, f ∈ l /\ storage.deleted f = false /\ storage.name f = join_path path rel /\
    SLASH ∉ rel /\ fs_entry_from_file_info rel f = Err er.

Definition listed (path : bytes) (seen : gset bytes) (l : list storage.FileInfo)
  (r : result SnapshotError (list FsEntry)) : Prop :=
  match r with
  | Ok es => (forall e, e ∈ es <-> due path seen l e) /\ NoDup (dir_names es)
  | Err er => bad_child path l er
  end.

Lemma bad_child_cons path f l er : bad_child path l er -> bad_child path (f :: l) er.
Proof. intros (f' & rel & Hin & H). exists f', rel. split; [by right|done]. Qed.

Lemma listed_skip path seen f l r :
  (storage.deleted f = true \/ relative_under path (storage.name f) = None \/
   exists d rest, relative_under path (storage.name f) = Some (d ++ SLASH :: rest) /\ SLASH ∉ d /\ d ∈ seen) ->
  listed path seen l r -> listed path seen (f :: l) r.
Proof.
  intros Hs. unfold listed. destruct r as [es|er]; [|apply bad_child_cons].
  intros [He Hd]. split; [|done]. intros e. rewrite He. by rewrite due_skip.
Qed.

(** A file in the directory adds its entry. *)
Lemma due_file path seen f l e rel :
  storage.deleted f = false -> storage.name f = join_path path rel -> SLASH ∉ rel ->
  forall e', fs_entry_from_file_info rel f = Ok e ->
  due path seen (f :: l) e' <-> e' = e \/ due path seen l e'.
Proof.
  intros Hd Hn Hs e' He. unfold due. split.
  - intros [(f' & rel' & [->|Hf]%elem_of_cons & Hd' & Hn' & Hs' & He')|
            (f' & d & rest & [->|Hf]%elem_of_cons & Hd' & Hn' & Hs' & Hseen & ->)].
    + apply relative_under_join in Hn, Hn'. left. congruence.
    + right. left. by exists f', rel'.
    + apply relative_under_join in Hn, Hn'. exfalso. rewrite Hn in Hn'. injection Hn' as ->. set_solver.
    + right. right. by exists f', d, rest.
  - intros [->|[(f' & rel' & ? & ?)|(f' & d & rest & ? & ?)]].
    + left. exists f, rel. split; [by left|done].
    + left. exists f', rel'. split; [by right|done].
    + right. exists f', d, rest. split; [by right|done].
Qed.

(** A file further below adds the entry of a directory not seen yet. *)
Lemma due_dir path seen f l d rest :
  storage.deleted f = false -> storage.name f = join_path path (d ++ SLASH :: rest) -> SLASH ∉ d -> d ∉ seen ->
  forall e', due path seen (f :: l) e' <-> e' = EDir d \/ due path ({[ d ]} ∪ seen) l e'.
Proof.
  intros Hd Hn Hs Hseen e'. unfold due. split.
  - intros [(f' & rel' & [->|Hf]%elem_of_cons & Hd' & Hn' & Hs' & He')|
            (f' & d' & rest' & [->|Hf]%elem_of_cons & Hd' & Hn' & Hs' & Hseen' & ->)].
    + apply relative_under_join in Hn, Hn'. exfalso. rewrite Hn in Hn'. injection Hn' as <-. set_solver.
    + right. left. by exists f', rel'.
    + apply relative_under_join in Hn, Hn'. rewrite Hn in Hn'. injection Hn' as E. left.
      apply (f_equal (split_once [SLASH])) in E. rewrite !split_once_char in E by done. by injection E as -> _.
    + destruct (decide (d' = d)) as [->|Hne]; [by left|]. right. right. exists f', d', rest'.
      split_and!; try done. set_solver.
  - intros [->|[(f' & rel' & ? & ?)|(f' & d' & rest' & ? & ? & ? & ? & ? & ?)]].
    + right. exists f, d, rest. split; [by left|done].
    + left. exists f', rel'. split; [by right|done].
    + right. exists f', d', rest'. split_and!; [by right|done..|set_solver|done].
Qed.

Lemma fs_entry_is_file name fi e : fs_entry_from_file_info name fi = Ok e -> is_dir e = false.
Proof.
  unfold fs_entry_from_file_info. destruct (negb _); [done|]. destruct (from_timestamp _ _); [|done].
  cbn [ok_or rbind]. destruct (_ <? 0); [done|]. by intros [= <-].
Qed.

Lemma list_rows_spec path items l seen :
  Forall2 row_of items l -> listed path seen l (list_rows path items seen).
Proof.
  intros Hl. revert seen. induction Hl as [|kv f items l [Hn ->] Hl IH]; intros seen; cbn [list_rows].
  { split; [|constructor]. intros e. split; [by intros ?%elem_of_nil|].
    intros [(f & rel & Hf & _)|(f & d & rest & Hf & _)]; by apply elem_of_nil in Hf. }
  cbn [fst snd]. rewrite StoreKeys.parse_file_key_file, decode_live_bytes by done.
  destruct (storage.deleted f) eqn:Ed; [apply listed_skip; auto|].
  destruct (relative_under path (storage.name f)) as [rel|] eqn:Er; [|apply listed_skip; auto].
  pose proof (proj1 (relative_under_join _ _ _) Er) as Hj.
  destruct (split_once [SLASH] rel) as [[d rest]|] eqn:Es.
  - pose proof (split_once_char_notin _ _ _ _ Es) as Hs. apply split_once_Some in Es as ->.
    case_bool_decide as Hin; [apply listed_skip; [right; right; by exists d, rest|done]|].
    specialize (IH ({[ d ]} ∪ seen)). destruct (list_rows path items ({[ d ]} ∪ seen)) as [es|er]; cbn [rbind listed] in *.
    2:{ by apply bad_child_cons. }
    destruct IH as [He Hnd]. split.
    + intros e. rewrite elem_of_cons, He. by rewrite due_dir.
    + unfold dir_names. cbn. constructor; [|done].
      intros (e & E & Hf)%list_elem_of_fmap. apply list_elem_of_In, List.filter_In in Hf as [Hf Hdir].
      apply list_elem_of_In, He in Hf. destruct e as [|d']; [done|]. cbn in E. subst d'.
      destruct Hf as [(? & ? & _ & _ & _ & _ & Hfe)|(? & ? & ? & _ & _ & _ & _ & Hns & [= <-])]; [|set_solver].
      by apply fs_entry_is_file in Hfe.
  - apply split_once_char_None in Es. destruct (fs_entry_from_file_info rel f) as [e|er] eqn:Ee; cbn [rbind].
    2:{ exists f, rel. split; [by left|done]. }
    specialize (IH seen). destruct (list_rows path items seen) as [es|er]; cbn [rbind listed] in *.
    2:{ by apply bad_child_cons. }
    destruct IH as [He Hnd]. split.
    + intros e'. rewrite elem_of_cons, He. by rewrite (due_file path seen f l e rel).
    + unfold dir_names in *. cbn. by rewrite (fs_entry_is_file _ _ _ Ee).
Qed.

(** The rows of the scan, for an index. *)
Lemma dir_rows (c : contents) (max : Z) (idx : gmap bytes storage.FileInfo) (path : bytes) :
  StoreIndex.Index c max idx ->
  exists l, Forall2 row_of (entries (starts_with (read_dir_prefix path)) c) l /\
    (forall f, f ∈ l -> idx !! storage.name f = Some f) /\
    (forall rel f, idx !! join_path path rel = Some f -> f ∈ l).
Proof.
  intros H. set (rows := entries _ c).
  destruct (StoreIndex.Forall2_exists
    (fun kv f => row_of kv f /\ idx !! storage.name f = Some f) rows) as [l Hl].
  { intros [k v] [Hk Hp]%elem_of_entries. destruct (StoreIndex.ix_keys _ _ _ H k v Hk) as (K & HK & ->).
    assert (starts_with StoreKeys.FILE_PREFIX (StoreKeys.encode_key K) = true) as Hf.
    { apply starts_with_true in Hp as [r ->]. unfold read_dir_prefix.
      destruct path; rewrite <- ?app_assoc; apply starts_with_app. }
    change StoreKeys.FILE_PREFIX with (StoreKeys.tag (StoreKeys.KFile [])) in Hf.
    rewrite StoreKeys.starts_with_tag in Hf. apply bool_decide_eq_true in Hf.
    destruct K as [n| | | | | | |]; try discriminate Hf.
    rewrite (StoreIndex.ix_file _ _ _ H) in Hk by done. destruct (idx !! n) as [f|] eqn:E; [|done].
    simpl in Hk. injection Hk as <-. exists f.
    destruct (StoreIndex.ix_idx _ _ _ H n f E) as (_ & <- & _). by split; [split|]. }
  exists l. split_and!.
  - eapply Forall2_impl; [exact Hl|]. by intros kv f [? _].
  - intros f (i & Hi)%list_elem_of_lookup. by destruct (Forall2_lookup_r _ _ _ _ _ Hl Hi) as (kv & _ & _ & ?).
  - intros rel f Hf. destruct (StoreIndex.ix_idx _ _ _ H _ f Hf) as (Hn & Hname & _).
    assert ((StoreKeys.file_key (join_path path rel), StoreIndex.file_bytes f) ∈ rows) as Hin.
    { apply elem_of_entries. split; [|apply prefix_covers].
      change (StoreKeys.file_key (join_path path rel)) with
        (StoreKeys.encode_key (StoreKeys.KFile (join_path path rel))).
      rewrite (StoreIndex.ix_file _ _ _ H) by done. by rewrite Hf. }
    apply list_elem_of_lookup in Hin as [i Hi].
    destruct (Forall2_lookup_l _ _ _ _ _ Hl Hi) as (f' & Hi' & [[Hn' E] Hf']).
    injection E as E _. change (StoreKeys.encode_key (StoreKeys.KFile (join_path path rel)) =
      StoreKeys.encode_key (StoreKeys.KFile (storage.name f'))) in E.
    apply StoreKeys.encode_key_inj in E as [= Ename]; [|done..]. rewrite <- Ename, Hf in Hf'.
    injection Hf' as ->. by eapply list_elem_of_lookup_2.
Qed.

(** Listing a directory of a snapshot. On a reader that does not fail whose
    contents hold an index, [read_dir] returns exactly an entry for every file
    of the directory that is not deleted, and one entry for every directory
    that a file further below implies, none twice. It fails only when a file of
    the directory has attributes that cannot be shown. *)
Theorem read_dir_exact (d : Db) (path : bytes) (max : Z) (idx : gmap bytes storage.FileInfo)
  (Hidx : StoreIndex.Index (db_contents d) max idx) (Hh : db_healthy d) :
  match snd (read_dir path d) with
  | Ok es =>
      (forall e, e ∈ es <->
         (exists base f, child_file idx path base f /\ fs_entry_from_file_info base f = Ok e) \/
         (exists dn, child_dir idx path dn /\ e = EDir dn)) /\
      NoDup (dir_names es)
  | Err er => exists base f, child_file idx path base f /\ fs_entry_from_file_info base f = Err er
  end.
Proof.
  destruct (dir_rows (db_contents d) max idx path Hidx) as (l & Hl & Hsound & Hcomplete).
  assert (answers (S := Db) (db_contents d) (read_dir path) (listed path ∅ l)) as H.
  { apply answers_bind, answers_map_err. eapply answers_pure; [apply db_scan_prefix_pure|].
    cbn beta match. cbn [map_err scan_items scan_error]. apply answers_bind, answers_lift.
    pose proof (list_rows_spec path _ l ∅ Hl) as Hr. destruct (list_rows _ _ _) as [es|er]; [|done].
    by apply answers_ret. }
  destruct (H d eq_refl Hh) as (_ & _ & Hr). unfold listed in Hr.
  destruct (snd (read_dir path d)) as [es|er].
  - destruct Hr as [He Hnd]. split; [|done]. intros e. rewrite He. unfold due. split.
    + intros [(f & rel & Hf & Hd & Hn & Hs & Hfe)|(f & dn & rest & Hf & Hd & Hn & Hs & _ & ->)].
      * left. exists rel, f. split; [|done]. split_and!; [|done|done]. rewrite <- Hn. auto.
      * right. exists dn. split; [|done]. split; [done|]. exists rest, f. rewrite <- Hn. auto.
    + intros [(base & f & (Hf & Hd & Hs) & Hfe)|(dn & (Hs & rest & f & Hf & Hd) & ->)].
      * left. exists f, base. pose proof (StoreIndex.ix_idx _ _ _ Hidx _ _ Hf) as (_ & Hn & _).
        split_and!; try done. by eapply Hcomplete.
      * right. exists f, dn, rest. pose proof (StoreIndex.ix_idx _ _ _ Hidx _ _ Hf) as (_ & Hn & _).
        split_and!; try done. by eapply Hcomplete.
  - destruct Hr as (f & rel & Hf & Hd & Hn & Hs & Hfe). exists rel, f. split; [|done].
    split_and!; [|done|done]. rewrite <- Hn. auto.
Qed.

(** [file_metadata] of a live file. *)
Lemma answers_file_metadata (c : contents) (path : bytes) (fi : storage.FileInfo) (ds : list bytes) :
  holds_file c path fi ds ->
  answers (S := Db) c (file_metadata path) (fun r => r = fs_entry_from_file_info (last_component path) fi).
Proof.
  intros ((v & file & Hv & Hd & Hfi & Hlive) & _). unfold file_metadata.
  apply answers_bind, answers_map_err. eapply answers_pure; [apply db_get_pure|]. cbn beta. rewrite Hv. cbn [map_err].
  apply answers_bind, answers_lift. unfold decode_live_file_info. rewrite Hd. cbn [ok_or rbind].
  rewrite Hfi, Hlive. by apply answers_lift.
Qed.

Lemma answers_read_bytes (c : contents) (path : bytes) (offset len : Z) (fi : storage.FileInfo) (ds : list bytes) :
  holds_file c path fi ds -> 0 <= offset -> 0 <= len ->
  answers (S := Db) c (read_bytes path offset len)
    (fun r => r = Ok (take (Z.to_nat len) (drop (Z.to_nat offset) (concat ds)))).
Proof.
  intros ((v & file & Hv & Hd & Hfi & Hlive) & Hl & Hsize & Hmax) Hoff Hlen.
  unfold read_bytes. destruct (Z.eqb_spec len 0) as [->|Hne]; [by apply answers_ret|].
  apply answers_bind, answers_map_err. eapply answers_pure; [apply db_get_pure|]. cbn beta.
  rewrite Hv. cbn [map_err]. apply answers_bind, answers_lift. cbn [ok_or].
  apply answers_bind, answers_lift. unfold decode_live_file_info. rewrite Hd. cbn [ok_or rbind].
  rewrite Hfi, Hlive. apply answers_bind, answers_lift. cbn [ok_or].
  rewrite (proj2 (Z.ltb_ge _ _)) by lia. unfold saturating_sub.
  destruct (Z.eqb_spec (Z.min (Z.max 0 (storage.size fi - offset)) len) 0) as [Hz|Hnz].
  - apply answers_ret. rewrite drop_ge by lia. by rewrite take_nil.
  - unfold copy_range_from_blocks. eapply answers_mono.
    { apply (answers_copy_loop _ offset _ _ ds 0); [done|lia|lia|lia| |lia].
      unfold saturating_add_u64, U64_MAX, I64_MAX in *. lia. }
    intros r ->. cbn [app]. rewrite !(Z.max_r 0) by lia. rewrite ?Z.sub_0_r, ?(Z.max_r 0) by lia.
    destruct (Z.le_ge_cases len (storage.size fi - offset)).
    + by rewrite Z.min_r by lia.
    + by rewrite !take_ge by (rewrite length_drop; lia).
Qed.

(** Reading a range of a file in a snapshot. For a live file whose blocks
    tile it and resolve to data of their declared sizes, [read_bytes] returns
    the requested range of the concatenated data, cut at the end of the file,
    for any offset and length; it reads nothing else into the answer and never
    fails on a reader that does not fail. *)
Theorem read_bytes_exact (d : Db) (path : bytes) (offset len : Z) (fi : storage.FileInfo) (ds : list bytes)
  (Hfile : holds_file (db_contents d) path fi ds) (Hh : db_healthy d)
  (Hoff : 0 <= offset) (Hlen : 0 <= len) :
  snd (read_bytes path offset len d) =
    Ok (take (Z.to_nat len) (drop (Z.to_nat offset) (concat ds))).
Proof. by destruct (answers_read_bytes _ path offset len fi ds Hfile Hoff Hlen d eq_refl Hh) as (_ & _ & ?). Qed.

End Snapshot.

(** ** Concrete snapshots *)

#[local] Existing Instance StoreTape.codecs.
#[local] Existing Instance StoreTape.laws.

(** Time stamps of the examples: any pair is shown as it is. *)
Definition stamp (s ns : Z) : option (Z * Z) := Some (s, ns).

Lemma read_dir_exact_witness :
  snd (read_dir stamp [] (Store.db StoreIndex.one_file)) = Ok [EDir (lit "docs")] /\
  EDir (Time := Z * Z) (lit "docs") ∈ [EDir (lit "docs")].
Proof.
  split; [vm_compute; reflexivity|].
  pose proof (read_dir_exact stamp (Store.db StoreIndex.one_file) [] 1 StoreIndex.one_idx
    StoreIndex.one_file_Index eq_refl) as H.
  assert (snd (read_dir stamp [] (Store.db StoreIndex.one_file)) = Ok [EDir (lit "docs")]) as E
    by (vm_compute; reflexivity).
  rewrite E in H. apply (proj2 (proj1 H _)). right. exists (lit "docs"). split; [|reflexivity].
  split; [apply (bool_decide_unpack (SLASH ∉ lit "docs")); by vm_compute|]. exists (lit "a"). eexists. split.
  - vm_compute. reflexivity.
  - vm_compute. reflexivity.
Defined.

(** A file of two blocks, one kept in its row and one behind a number. *)
Definition two_blocks : storage.FileInfo :=
  storage.mkFileInfo (lit "f") 5 0 0 None 1
    [storage.mkBlockInfo [1] 0 3 None (Some [10; 11; 12]); storage.mkBlockInfo [2] 3 2 (Some 1024) None]
    [] [] [] [] 0 0 0 0 None 0 [] 0 0 false false false.
Definition two_blocks_db : MapDb :=
  mkMapDb (<[ StoreKeys.file_key (lit "f") := encode (storage.mkFile (Some two_blocks)) ]>
          {[ StoreKeys.block_data_seq_key 1024 := [13; 14] ]}) None.

Lemma two_blocks_held :
  holds_file (db_contents two_blocks_db) (lit "f") two_blocks [[10; 11; 12]; [13; 14]].
Proof.
  split.
  - exists (encode (storage.mkFile (Some two_blocks))), (storage.mkFile (Some two_blocks)).
    split; [apply lookup_insert_eq|]. split; [apply decode_encode|]. split; reflexivity.
  - split; [|by vm_compute]. cbn [laid_out storage.blocks two_blocks].
    split_and!; try reflexivity; [by left|right]. split; [reflexivity|]. exists 1024.
    split; [reflexivity|]. split; [by vm_compute|]. vm_compute. reflexivity.
Qed.

Lemma read_bytes_exact_witness :
  snd (read_bytes (lit "f") 2 10 two_blocks_db) = Ok [12; 13; 14].
Proof.
  exact (read_bytes_exact two_blocks_db (lit "f") 2 10 two_blocks [[10; 11; 12]; [13; 14]]
    two_blocks_held eq_refl ltac:(lia) ltac:(lia)).
Defined.

(** The index of a folder in which a peer has announced a directory and a file
    in it. *)
Definition announced_dir : FolderStore MapDb StoreTape.HFilter StoreTape.SFilter :=
  fst (put_file (ProtoConv.set_type (StoreTape.sample (lit "docs") 1 []) 1) StoreIndex.one_file).

(** Directories in a snapshot. A directory that a peer has announced (its
    entry has the directory type) is shown as a file of size zero; listing its
    parent shows its name twice, as a file and as a directory, and its metadata
    are those of a file, although there are files below it. *)
Theorem announced_directory_is_a_file :
  (exists f, StoreIndex.Index (cts announced_dir) 2 (<[ lit "docs" := f ]> StoreIndex.one_idx) /\
             storage.type_ f = ProtoConv.storage_type_code ProtoConv.SDirectory) /\
  snd (read_dir stamp [] (Store.db announced_dir)) = Ok [EFile (lit "docs") 0 (0, 0); EDir (lit "docs")] /\
  snd (file_metadata stamp (lit "docs") (Store.db announced_dir)) = Ok (EFile (lit "docs") 0 (0, 0)) /\
  snd (read_dir stamp (lit "docs") (Store.db announced_dir)) = Ok [EFile (lit "a") 0 (0, 0)].
Proof.
  split; [|split_and!; vm_compute; reflexivity].
  eexists. split; [|shelve].
  exact (StoreIndex.Index_commit_batch (cts StoreIndex.one_file) 1 StoreIndex.one_idx (lit "docs")
    (ProtoConv.file_to_storage (ProtoConv.set_type (StoreTape.sample (lit "docs") 1 []) 1)) []
    StoreIndex.one_file_Index ltac:(by vm_compute) eq_refl ltac:(by vm_compute) eq_refl ltac:(constructor)).
  Unshelve. reflexivity.
Qed.

End Snapshot.
