(* ===== verification/Folder.v ===== *)
(** The folder handle of the storage backend (the [StorageFolder]
    implementation of [SlateFolder] in [bepository-storage/src/api.rs]): how an
    update announced by a peer is validated, compared with the local version
    and turned into a transfer, a commit, a conflict or nothing. *)

From Stdlib Require Import ZArith Lia.
From stdpp Require Import base gmap list strings.
From S2P Require Import Prelude BepTypes Base32 StoreKeys Codec Conflict Validate.
From S2P Require Import ProtoConv Kv GcState Store StoreTape StoreWp StoreIndex.

Local Open Scope Z_scope.
Local Open Scope bep_scope.

Module Folder.
Import StoreKeys Kv Store StoreWp StoreIndex.

(** ** The handle *)

(** [SlateFolder]; its store is the state of the operations. *)
Record SlateFolder := mkFolder {
  id : bytes;
  label : bytes;
  epoch : option Base32.Epoch
}.

Section Folder.
Context {Db : Type} `{!SlateDb Db} {SC : StoreCodecs}.
Context {HF SF : Type} `{!Bloom bytes HF} `{!Bloom Z SF}.
Abbreviation FS := (FolderStore Db HF SF).
Abbreviation FM := (SE (FolderStore Db HF SF) StorageError.t).

Definition require_epoch (f : SlateFolder) : result StorageError.t Base32.Epoch :=
  ok_or (epoch f) (StorageError.Standby "epoch not set: call activate() before this operation").

Definition stage_and_request_blocks (ep : Base32.Epoch) (remote_file : bep.FileInfo) : FM UpdateResult :=
  run! stage_file ep remote_file;
  se_ret (NeedBlocks remote_file).

(** [index]; [Sequence::ZERO] asks for everything. *)
Definition index (since : Z) : FM (list bep.FileInfo) :=
  if since =? 0 then all_files else files_since since.

Definition folder_read_block (name : bytes) (offset size : Z) (hash : bytes) : FM bytes :=
  read_block name hash.

Definition apply_update (f : SlateFolder) (remote_file : bep.FileInfo) (remote_device : bytes)
  : FM UpdateResult :=
  run! se_lift (Validate.validate_file_name (bep.name remote_file));
  run! se_lift (map_err (fun _ => StorageError.InvalidInput "invalid file info")
                  (Validate.validate_file_info remote_file));
  do! ep <- se_lift (require_epoch f);
  do! local_file <- get_file (bep.name remote_file);
  match local_file with
  | None => stage_and_request_blocks ep remote_file
  | Some local =>
      match bep.version local, bep.version remote_file with
      | Some lv, Some rv =>
          do! o <- se_lift (map_err (fun _ => StorageError.Corruption "version vector")
                              (Conflict.compare lv rv));
          match o with
          | Conflict.Greater | Conflict.Equal => se_ret NoAction
          | Conflict.Concurrent => se_ret (UpdateConcurrent local remote_file)
          | Conflict.Less =>
              if blocks_equal local remote_file then
                do! seq <- put_file remote_file;
                se_ret (Applied (bep_set_sequence remote_file seq))
              else stage_and_request_blocks ep remote_file
          end
      | _, _ => stage_and_request_blocks ep remote_file
      end
  end.

Definition folder_complete_file (f : SlateFolder) (name : bytes) (expected_version : option bep.Vector)
  : FM (option bep.FileInfo) :=
  do! ep <- se_lift (require_epoch f);
  complete_file ep name expected_version.

Definition folder_resolve_conflict (winner loser : bep.FileInfo) (loser_path : option bytes) : FM unit :=
  run! match loser_path with
       | Some path =>
           do! _ <- put_file_with_carry (bep_set_name loser path) (bep.name loser); se_ret tt
       | None => se_ret tt
       end;
  do! _ <- put_file winner;
  se_ret tt.

Definition local_sequence : FM Z :=
  do! meta <- get_index_meta; se_ret (storage.max_sequence meta).

Definition remote_state (device : bytes) : FM storage.RemoteIndexState := get_remote_state device.

Definition set_remote_state (device : bytes) (state : storage.RemoteIndexState) : FM unit :=
  put_remote_state device state.

Definition folder_store_block (f : SlateFolder) (name : bytes) (offset : Z) (hash data : bytes) : FM unit :=
  store_block (epoch f) name hash data.

Definition folder_reuse_block (f : SlateFolder) (name : bytes) (offset : Z) (hash : bytes) (size : Z)
  : FM bool :=
  if StoreKeys.is_inline_block size then se_ret false
  else reuse_block (epoch f) name hash.

(** ** Specification *)

(** What an update means, given the committed version. *)
Inductive Verdict :=
| Request
| Ignore
| Conflicts (local : bep.FileInfo)
| Commit
| Malformed.

Definition verdict (local : option bep.FileInfo) (remote : bep.FileInfo) : Verdict :=
  match local with
  | None => Request
  | Some local =>
      match bep.version local, bep.version remote with
      | Some lv, Some rv =>
          match Conflict.compare lv rv with
          | Ok Conflict.Greater | Ok Conflict.Equal => Ignore
          | Ok Conflict.Concurrent => Conflicts local
          | Ok Conflict.Less => if blocks_equal local remote then Commit else Request
          | Err _ => Malformed
          end
      | _, _ => Request
      end
  end.

Context `{!SlateDbLaws Db} {SL : StoreCodecLaws}.

(** The rows of a staged file. *)
Definition staged_in (ep : Base32.Epoch) (remote : bep.FileInfo) (c : contents) : contents :=
  <[inbox_key ep (bep.name remote) := inbox_bytes (ProtoConv.file_to_storage remote)]> c.

Lemma wp_stage (ep : Base32.Epoch) (remote : bep.FileInfo) (s : FS) :
  wp (stage_and_request_blocks ep remote) (fun s' r =>
    (r = Ok (NeedBlocks remote) /\ cts s' = staged_in ep remote (cts s)) \/
    (~ healthy s /\ is_ok r = false /\ (cts s' = cts s \/ cts s' = staged_in ep remote (cts s)))) s.
Proof.
  unfold stage_and_request_blocks, stage_file. apply wp_bind, wp_put.
  - intros s1 Hw. apply wp_ret. left. split; [done|]. by rewrite (wrote_cts _ _ _ Hw).
  - intros s1 e [Hs|Hw] Hh; right; (split; [done|]); (split; [done|]).
    + left. apply Hs.
    + right. by rewrite (wrote_cts _ _ _ Hw).
Qed.

Lemma Index_staged (ep : Base32.Epoch) (remote : bep.FileInfo) (c : contents) (max : Z)
  (idx : gmap bytes storage.FileInfo) :
  epoch_ok ep -> name_ok (bep.name remote) -> Index c max idx -> Index (staged_in ep remote c) max idx.
Proof.
  intros He Hn Hi.
  apply (Index_foreign [BPut (inbox_key ep (bep.name remote))
                          (inbox_bytes (ProtoConv.file_to_storage remote))]); [|done].
  constructor; [|constructor]. by exists (KInbox ep (bep.name remote)).
Qed.

Lemma valid_name_ok (n : bytes) :
  utf8_valid n = true -> Validate.validate_file_name n = Ok tt -> name_ok n.
Proof.
  intros Hu Hv. split; [done|]. unfold Validate.validate_file_name in Hv.
  destruct n; [done|]. by destruct (starts_with [SLASH] _).
Qed.

(** The effect of an update on a store that holds the index [idx], as its
    verdict has it. *)
Definition update_effect (ep : Base32.Epoch) (remote : bep.FileInfo) (max : Z)
  (idx : gmap bytes storage.FileInfo) (s s' : FS) (v : Verdict)
  (r : result StorageError.t UpdateResult) : Prop :=
  let n := bep.name remote in
  let new := commit_file (ProtoConv.file_to_storage remote) (idx !! n) max in
  match r with
  | Ok out =>
      match v with
      | Request => out = NeedBlocks remote /\ cts s' = staged_in ep remote (cts s)
      | Ignore => out = NoAction /\ cts s' = cts s
      | Conflicts local => out = UpdateConcurrent local remote /\ cts s' = cts s
      | Commit => out = Applied (bep_set_sequence remote (max + 1)) /\
                  Index (cts s') (max + 1) (<[n := new]> idx) /\
                  cts s' = apply_batch (commit_batch n (ProtoConv.file_to_storage remote) [] (cts s) idx max) (cts s)
      | Malformed => False
      end
  | Err _ =>
      (v = Malformed /\ cts s' = cts s) \/
      (~ healthy s /\
       (Index (cts s') max idx \/ (v = Commit /\ Index (cts s') (max + 1) (<[n := new]> idx))))
  end.

Lemma wp_stage_effect (ep : Base32.Epoch) (remote : bep.FileInfo) (max : Z)
  (idx : gmap bytes storage.FileInfo) (s s1 : FS) :
  sim s s1 -> Index (cts s) max idx -> epoch_ok ep -> name_ok (bep.name remote) ->
  wp (stage_and_request_blocks ep remote) (fun s' r => update_effect ep remote max idx s s' Request r) s1.
Proof.
  intros Hs1 Hidx He Hn. eapply wp_mono; [|apply wp_stage]. rewrite (sim_cts _ _ Hs1).
  intros s2 r [[-> ?]|(Hh & Hr & Hc)]; [done|]. destruct r; [done|]. right.
  split; [intros Hh'; by apply Hh, Hs1|]. left.
  destruct Hc as [->| ->]; [done|by apply Index_staged].
Qed.

Lemma wp_apply_update (f : SlateFolder) (ep : Base32.Epoch) (remote : bep.FileInfo) (dev : bytes)
  (s : FS) (max : Z) (idx : gmap bytes storage.FileInfo) :
  Index (cts s) max idx -> max < I64_MAX -> name_ok (bep.name remote) ->
  epoch f = Some ep -> epoch_ok ep ->
  Validate.validate_file_name (bep.name remote) = Ok tt ->
  Validate.validate_file_info remote = Ok tt ->
  wp (apply_update f remote dev) (fun s' r =>
    update_effect ep remote max idx s s' (verdict (wire <$> idx !! bep.name remote) remote) r) s.
Proof.
  intros Hidx Hmax Hn Hep Heok Hvn Hvi. unfold apply_update.
  apply wp_bind, wp_lift. rewrite Hvn. apply wp_bind, wp_lift. rewrite Hvi. cbn [map_err].
  apply wp_bind, wp_lift. unfold require_epoch. rewrite Hep. cbn [ok_or].
  eapply wp_reads_bind; [apply get_file_reads| |].
  2: { intros s1 e Hs1 Hh. right. split; [done|]. left. by rewrite (sim_cts _ _ Hs1). }
  intros s1 Hs1. cbv beta. rewrite (pure_file_Index _ max idx) by done.
  pose proof (wp_stage_effect ep remote max idx s s1 Hs1 Hidx Heok Hn) as Hstage.
  destruct (wire <$> idx !! bep.name remote) as [local|]; cbn [verdict]; [|exact Hstage].
  destruct (bep.version local) as [lv|]; [|exact Hstage].
  destruct (bep.version remote) as [rv|]; [|exact Hstage].
  apply wp_bind, wp_lift. destruct (Conflict.compare lv rv) as [o|e]; cbn [map_err].
  2: { left. split; [done|]. apply Hs1. }
  destruct o; [apply wp_ret; split; [done|apply Hs1]| |apply wp_ret; split; [done|apply Hs1]..].
  destruct (blocks_equal local remote); [|exact Hstage].
  apply wp_bind. eapply wp_mono; [|apply (wp_put_file_rows remote s1 max idx); [|done|done]].
  2: by rewrite (sim_cts _ _ Hs1).
  rewrite (sim_cts _ _ Hs1). pose proof (put_rows_Index remote _ _ _ Hidx Hn Hmax) as Hnew.
  intros s2 [seq|e]; cbv zeta.
  - intros [-> Hc]. apply wp_ret. unfold update_effect. cbv zeta iota. by rewrite Hc.
  - intros [Hh Hc]. unfold update_effect. right. split; [intros Hh'; by apply Hh, Hs1|]. destruct Hc as [-> | ->]; auto.
Qed.

(** *** Resolving a conflict *)

Lemma carried_ops (f : storage.FileInfo) (n : bytes) :
  name_ok n ->
  ops_on foreign (map (fun p => BPut (block_reverse_key (fst p) n) []) (carried_blocks f)).
Proof.
  intros Hn. apply Forall_forall. intros o ([h q] & -> & Hin)%list_elem_of_fmap.
  exists (KReverse h n). split; [|done]. split; [|done].
  unfold carried_blocks in Hin. apply list_elem_of_omap in Hin as (b & _ & Hb).
  destruct (storage.blockseq b); [|done].
  destruct (Nat.eqb_spec (length (storage.hash b)) HASH_LEN); [|done]. by injection Hb as <- _.
Qed.

Lemma wp_record_all (l : list (bytes * Z)) (s : FS) :
  wp (record_all l) (fun s' r => r = Ok tt /\ cts s' = cts s /\ (healthy s -> healthy s')) s.
Proof.
  revert s. induction l as [|[h q] l IH]; intros s; cbn [record_all]; [by apply wp_ret|].
  apply wp_bind, wp_modify. eapply wp_mono; [|apply IH]. intros s' r (-> & Hc & Hh).
  split; [done|]. by split.
Qed.

(** The copy that [put_file_with_carry] commits: pointers from the source entry,
    then from a prior entry under the new name. *)
Definition copy_of (file : bep.FileInfo) (from : bytes) (idx : gmap bytes storage.FileInfo) (max : Z)
  : storage.FileInfo :=
  commit_file (carried (ProtoConv.file_to_storage file) (idx !! from)) (idx !! bep.name file) max.

Lemma wp_put_file_with_carry (file : bep.FileInfo) (from : bytes) (s : FS) (max : Z)
  (idx : gmap bytes storage.FileInfo) :
  Index (cts s) max idx -> name_ok (bep.name file) -> name_ok from -> max < I64_MAX ->
  wp (put_file_with_carry file from) (fun s' r =>
    let new := Index (cts s') (max + 1) (<[bep.name file := copy_of file from idx max]> idx) in
    match r with
    | Ok seq => seq = max + 1 /\ new /\ (healthy s -> healthy s')
    | Err _ => ~ healthy s /\ (Index (cts s') max idx \/ new)
    end) s.
Proof.
  intros Hidx Hn Hfrom Hmax. unfold put_file_with_carry.
  eapply wp_reads_bind; [apply get_file_proto_reads| |].
  2: { intros s1 e Hs1 Hh. split; [done|]. left. by rewrite (sim_cts _ _ Hs1). }
  intros s1 Hs1. cbv beta. rewrite (pure_file_proto_Index _ max idx) by done.
  change (match idx !! from with Some src => carry_block_pointers _ src | None => _ end)
    with (carried (ProtoConv.file_to_storage file) (idx !! from)).
  set (stored := carried _ _).
  assert (is_ok (ProtoConv.file_to_bep stored) = true) as Ht.
  { subst stored. pose proof (file_to_storage_type file) as H. revert H.
    unfold ProtoConv.file_to_bep, carried.
    destruct (idx !! from); simpl; by destruct (ProtoConv.storage_type_to_bep _). }
  assert (storage.name stored = bep.name file) as Hname by (subst stored; unfold carried; by destruct (idx !! from)).
  set (batch := map _ _).
  assert (ops_on foreign batch) as Hb.
  { subst batch. destruct (idx !! from); [by apply carried_ops|constructor]. }
  assert (Index (cts s1) max idx) as Hidx1 by by rewrite (sim_cts _ _ Hs1).
  pose proof (Index_commit_batch _ _ _ _ stored batch Hidx1 Hn Hname Hmax Ht Hb) as Hnew.
  apply wp_bind. eapply wp_mono; [|by apply (wp_commit _ _ batch s1 max idx)].
  intros s2 [[seq fb]|e]; cbn beta iota zeta.
  - intros (-> & _ & Hw). apply wp_bind. eapply wp_mono; [|apply wp_record_all].
    intros s3 r (-> & Hc & Hh). apply wp_ret. split; [done|]. rewrite Hc, (wrote_cts _ _ _ Hw).
    split; [exact Hnew|]. intros Hh0. by apply Hh, Hw, Hs1.
  - intros [Hh [Hs|Hw]]; (split; [intros Hh'; by apply Hh, Hs1|]).
    + left. by rewrite (sim_cts _ _ Hs).
    + right. by rewrite (wrote_cts _ _ _ Hw).
Qed.

(** ** Properties *)

(** C4: what an update does. On a store that holds an index, a valid
    announcement of a peer is handled by the verdict on the committed version:
    a new or dominating version with other blocks is staged and its blocks are
    requested; a dominating version with the same blocks is committed under the
    next sequence number; an older or equal one changes nothing; a concurrent
    one is reported with both versions and changes nothing; a malformed version
    vector is an error that changes nothing. Otherwise the call fails only if
    the database fails, and leaves the old index or the new one. *)
Theorem apply_update_refines (f : SlateFolder) (ep : Base32.Epoch) (remote : bep.FileInfo)
  (dev : bytes) (s : FS) (max : Z) (idx : gmap bytes storage.FileInfo)
  (Hidx : Index (cts s) max idx) (Hmax : max < I64_MAX) (Hutf : utf8_valid (bep.name remote) = true)
  (Hep : epoch f = Some ep) (Heok : epoch_ok ep)
  (Hname : Validate.validate_file_name (bep.name remote) = Ok tt)
  (Hinfo : Validate.validate_file_info remote = Ok tt) :
  let '(s', r) := apply_update f remote dev s in
  update_effect ep remote max idx s s' (verdict (wire <$> idx !! bep.name remote) remote) r /\
  (verdict (wire <$> idx !! bep.name remote) remote <> Commit -> healthy s ->
   Index (cts s') max idx).
Proof.
  apply wp_let. pose proof (valid_name_ok _ Hutf Hname) as Hn.
  eapply wp_mono; [|by apply (wp_apply_update f ep remote dev s max idx)].
  intros s' r He. split; [exact He|]. intros Hv Hh.
  unfold update_effect in He. destruct r as [out|er].
  - destruct (verdict _ _); [destruct He as [_ ->]; by apply Index_staged|..];
      [by destruct He as [_ ->]|by destruct He as [_ ->]|done|done].
  - destruct He as [[_ ->]|[? _]]; done.
Qed.

(** What is rejected. An announcement with an unsafe name or a malformed
    block list is refused as invalid input, and one that arrives before the
    folder is activated as standby; the store is not touched. *)
Theorem apply_update_rejects (f : SlateFolder) (remote : bep.FileInfo) (dev : bytes) (s : FS) :
  (Validate.validate_file_name (bep.name remote) <> Ok tt \/
   Validate.validate_file_info remote <> Ok tt ->
   exists e, apply_update f remote dev s = (s, Err e)) /\
  (Validate.validate_file_name (bep.name remote) = Ok tt ->
   Validate.validate_file_info remote = Ok tt -> epoch f = None ->
   exists m, apply_update f remote dev s = (s, Err (StorageError.Standby m))).
Proof.
  unfold apply_update, se_bind, se_lift, require_epoch. split.
  - intros Hbad. destruct (Validate.validate_file_name (bep.name remote)) as [[]|e]; [|by eexists].
    destruct (Validate.validate_file_info remote) as [[]|e]; [|by eexists]. by destruct Hbad.
  - intros -> -> ->. by eexists.
Qed.

(** C10: commits never go back. When [apply_update] commits an announcement
    directly, the committed version existed, its blocks are those announced, and
    the announced version strictly dominates it counter by counter. *)
Theorem applied_is_newer (f : SlateFolder) (ep : Base32.Epoch) (remote out : bep.FileInfo)
  (dev : bytes) (s s' : FS) (max : Z) (idx : gmap bytes storage.FileInfo)
  (Hidx : Index (cts s) max idx) (Hmax : max < I64_MAX) (Hutf : utf8_valid (bep.name remote) = true)
  (Hep : epoch f = Some ep) (Heok : epoch_ok ep)
  (Hvers : forall g v, (g = remote \/ Some g = wire <$> idx !! bep.name remote) ->
     bep.version g = Some v -> Conflict.values_ok v)
  (Hrun : apply_update f remote dev s = (s', Ok (Applied out))) :
  exists stored lv rv,
    idx !! bep.name remote = Some stored /\
    bep.version (wire stored) = Some lv /\ bep.version remote = Some rv /\
    Forall2 (fun x y => bep.hash x = bep.hash y /\ bep.bsize x = bep.bsize y)
      (bep.blocks (wire stored)) (bep.blocks remote) /\
    (forall i, Conflict.denote lv i <= Conflict.denote rv i) /\
    exists i, Conflict.denote lv i < Conflict.denote rv i.
Proof.
  assert (Validate.validate_file_name (bep.name remote) = Ok tt /\
          Validate.validate_file_info remote = Ok tt) as [Hname Hinfo].
  { unfold apply_update, se_bind, se_lift in Hrun.
    destruct (Validate.validate_file_name _) as [[]|]; [|done].
    by destruct (Validate.validate_file_info remote) as [[]|]. }
  pose proof (wp_apply_update f ep remote dev s max idx Hidx Hmax (valid_name_ok _ Hutf Hname)
    Hep Heok Hname Hinfo) as Hwp.
  unfold wp in Hwp. rewrite Hrun in Hwp. cbn [fst snd] in Hwp. unfold update_effect in Hwp.
  destruct (verdict _ remote) eqn:Hv; [by destruct Hwp..| |done]. clear Hwp.
  destruct (idx !! bep.name remote) as [stored|]; cbn in Hv; [|done].
  destruct (bep.version (wire stored)) as [lv|] eqn:Elv; [|done].
  destruct (bep.version remote) as [rv|] eqn:Erv; [|done].
  destruct (Conflict.compare lv rv) as [[]|] eqn:Ec; [done| |done..].
  destruct (blocks_equal (wire stored) remote) eqn:Eb; [|done].
  exists stored, lv, rv. do 3 (split; [done|]). split; [by apply blocks_equal_spec|].
  apply Conflict.compare_dominance in Ec as (_ & _ & Hspec); [exact Hspec| |];
    [by eapply (Hvers (wire stored)); [right|]|by eapply (Hvers remote); [left|]].
Qed.

(** C34: resolving a conflict keeps both sides. When [resolve_conflict] is given
    a path for the loser and succeeds, the index holds the loser under that path,
    with the block pointers of the entry that was committed under its name, and
    the winner under its own name, with two new sequence numbers in that order.
    It fails only if the database fails. *)
Theorem resolve_conflict_keeps_both (winner loser : bep.FileInfo) (path : bytes) (s : FS) (max : Z)
  (idx : gmap bytes storage.FileInfo)
  (Hidx : Index (cts s) max idx) (Hmax : max + 1 < I64_MAX)
  (Hw : name_ok (bep.name winner)) (Hl : name_ok (bep.name loser)) (Hp : name_ok path) :
  let copy := copy_of (bep_set_name loser path) (bep.name loser) idx max in
  let idx1 := <[path := copy]> idx in
  let won := commit_file (ProtoConv.file_to_storage winner) (idx1 !! bep.name winner) (max + 1) in
  let '(s', r) := folder_resolve_conflict winner loser (Some path) s in
  match r with
  | Ok _ => Index (cts s') (max + 2) (<[bep.name winner := won]> idx1)
  | Err _ => ~ healthy s
  end.
Proof.
  intros copy idx1 won. apply wp_let. unfold folder_resolve_conflict. apply wp_bind, wp_bind.
  eapply wp_mono; [|apply (wp_put_file_with_carry (bep_set_name loser path) (bep.name loser) s max idx);
    [done|done|done|lia]].
  intros s1 [seq|e]; cbv zeta; [|by intros [? _]]. intros (_ & Hi1 & Hh1). apply wp_ret, wp_bind.
  eapply wp_mono; [|apply (wp_put_file winner s1 (max + 1) idx1); [exact Hi1|done|lia]].
  intros s2 [seq2|e]; cbv zeta.
  - intros [_ Hi2]. apply wp_ret. by replace (max + 2) with (max + 1 + 1) by lia.
  - intros [Hh _] Hh0. by apply Hh, Hh1.
Qed.

End Folder.

(** ** Witnesses *)

Abbreviation TStore := (FolderStore MapDb StoreTape.HFilter StoreTape.SFilter).
#[local] Existing Instance StoreTape.codecs.
#[local] Existing Instance StoreTape.laws.

Definition epoch5 : Base32.Epoch := Base32.mkEpoch 5 (lit "00000005").
Definition folder5 : SlateFolder := mkFolder (lit "id") (lit "label") (Some epoch5).

(** The store of [StoreIndex] holds ["docs/a"] at version 1; the peer announces
    version 2. *)
Definition newer : bep.FileInfo := StoreTape.sample (lit "docs/a") 2 [].

Lemma apply_update_refines_witness :
  verdict (wire <$> one_idx !! bep.name newer) newer = Commit /\
  snd (apply_update folder5 newer [] one_file) = Ok (Applied (bep_set_sequence newer 2)).
Proof.
  assert (verdict (wire <$> one_idx !! bep.name newer) newer = Commit) as Hv by (vm_compute; reflexivity).
  split; [exact Hv|].
  pose proof (apply_update_refines folder5 epoch5 newer [] one_file 1 one_idx one_file_Index
    ltac:(by vm_compute) eq_refl eq_refl ltac:(by vm_compute) eq_refl eq_refl) as H.
  destruct (apply_update folder5 newer [] one_file) as [s' r]. destruct H as [H _].
  rewrite Hv in H. unfold update_effect in H. destruct r as [out|e].
  - destruct H as [-> _]. reflexivity.
  - destruct H as [[? _]|[Hh _]]; [discriminate|]. destruct Hh. reflexivity.
Defined.

Lemma applied_is_newer_witness :
  exists stored lv rv,
    one_idx !! lit "docs/a" = Some stored /\ bep.version (wire stored) = Some lv /\
    bep.version newer = Some rv /\ exists i, Conflict.denote lv i < Conflict.denote rv i.
Proof.
  destruct (applied_is_newer folder5 epoch5 newer (bep_set_sequence newer 2) [] one_file
    (fst (apply_update folder5 newer [] one_file)) 1 one_idx one_file_Index
    ltac:(by vm_compute) eq_refl eq_refl ltac:(by vm_compute)) as (st & lv & rv & H1 & H2 & H3 & _ & _ & H6).
  - intros g v [->|Hg] Hv.
    + vm_compute in Hv. injection Hv as <-. repeat constructor; simpl; lia.
    + vm_compute in Hg. injection Hg as ->. vm_compute in Hv. injection Hv as <-.
      repeat constructor; simpl; lia.
  - vm_compute. reflexivity.
  - exists st, lv, rv. split; [exact H1|]. split; [exact H2|]. split; [exact H3|exact H6].
Defined.

Lemma resolve_conflict_keeps_both_witness :
  is_ok (snd (folder_resolve_conflict newer (StoreTape.sample (lit "docs/a") 1 [])
    (Some (lit "docs/a.sync-conflict")) one_file)) = true.
Proof.
  pose proof (resolve_conflict_keeps_both newer (StoreTape.sample (lit "docs/a") 1 [])
    (lit "docs/a.sync-conflict") one_file 1 one_idx one_file_Index ltac:(by vm_compute)
    ltac:(by vm_compute) ltac:(by vm_compute) ltac:(by vm_compute)) as H.
  cbv zeta in H. destruct (folder_resolve_conflict _ _ _ _) as [s' r]. destruct r as [[]|e]; [reflexivity|].
  destruct H. reflexivity.
Defined.

End Folder.
