(* ===== verification/Meta.v ===== *)
(** The meta file of a repository ([bepository-storage/src/meta.rs]): its
    fields, the folder registry and the checkpoint schedules in it, its
    conversion to and from a TOML document, and the identity it carries
    ([Identity::from_der] of [bepository-tls/src/lib.rs]).

    The toml, humantime, base64 and SHA-256 libraries are interfaces. A [String]
    key of a [BTreeMap] is a byte list; the map is a [gmap] iterated in key
    order. Durations are integers counting nanoseconds. *)

From Stdlib Require Import ZArith Lia Sorting.Sorted.
From stdpp Require Import base gmap list sorting strings.
From S2P Require Import Prelude BepTypes Base32.

Local Open Scope Z_scope.
Local Open Scope bep_scope.

Module Meta.
Import Base32.

(** ** Iteration of ordered maps *)

(** [BTreeMap<String, A>::iter]. *)
Definition name_le {A : Type} (a b : bytes * A) : Prop := bytes_cmp (fst a) (fst b) <> Gt.

#[export] Instance name_le_dec {A : Type} (a b : bytes * A) : Decision (name_le a b).
Proof. unfold name_le. destruct (bytes_cmp _ _); (left; discriminate) || (right; congruence). Defined.

Definition iter {A : Type} (m : gmap bytes A) : list (bytes * A) := merge_sort name_le (map_to_list m).

(** [BTreeMap<Duration, A>::iter]. *)
Definition time_le {A : Type} (a b : Z * A) : Prop := fst a <= fst b.

#[export] Instance time_le_dec {A : Type} (a b : Z * A) : Decision (time_le a b).
Proof. unfold time_le. apply _. Defined.

Definition iter_durations {A : Type} (m : gmap Z A) : list (Z * A) := merge_sort time_le (map_to_list m).

(** ** Libraries *)

(** [humantime]: durations as text ("1h"). *)
Class HumanTime := {
  format_duration : Z -> bytes;
  parse_duration : bytes -> option Z
}.

(** A [std::time::Duration]. *)
Definition is_duration (d : Z) : Prop := 0 <= d < 2 ^ 64 * 1000000000.

Class HumanTimeLaws `{HumanTime} : Prop :=
  parse_format : forall d, is_duration d -> parse_duration (format_duration d) = Some d.

(** [base64] (the standard alphabet). *)
Class Base64 := {
  base64_encode : bytes -> bytes;
  base64_decode : bytes -> option bytes
}.

Class Base64Laws `{Base64} : Prop :=
  base64_decode_encode : forall b, base64_decode (base64_encode b) = Some b.

(** ** Data *)

Record FolderEntry := mkFolderEntry { entry_id : bytes; entry_label : bytes }.
Record CheckpointSchedule := mkSchedule { ttl : Z }.
(** The certificate and the key in base64. *)
Record MetaIdentity := mkMetaIdentity { cert_der : bytes; key_der : bytes }.

#[global] Instance FolderEntry_eq_dec : EqDecision FolderEntry.
Proof. solve_decision. Defined.
#[global] Instance CheckpointSchedule_eq_dec : EqDecision CheckpointSchedule.
Proof. solve_decision. Defined.
#[global] Instance MetaIdentity_eq_dec : EqDecision MetaIdentity.
Proof. solve_decision. Defined.

(** [struct Meta]. *)
Record Meta := mkMeta {
  format_version : Z;
  next_folder_key : Z;
  identity : option MetaIdentity;
  folders : gmap bytes FolderEntry;
  checkpoint : gmap Z CheckpointSchedule
}.

#[global] Instance Meta_eq_dec : EqDecision Meta.
Proof. solve_decision. Defined.

Definition SUPPORTED_FORMAT_VERSION : Z := 1.
Definition default_format_version : Z := 1.

(** [Meta::default]. *)
Definition default_meta : Meta := mkMeta SUPPORTED_FORMAT_VERSION 0 None ∅ ∅.

Definition META_PREFIX : bytes := lit "bepository-".
Definition META_SUFFIX : bytes := lit ".toml".

(** [Meta::has_folder] and [Meta::folder_ids]. *)
Definition has_folder (m : Meta) (id : bytes) : bool :=
  existsb (fun ke => bool_decide (entry_id (snd ke) = id)) (iter (folders m)).

Definition folder_ids (m : Meta) : list bytes := map (fun ke => entry_id (snd ke)) (iter (folders m)).

(** [Meta::default_checkpoints]: hourly for a day, daily for a week. *)
Definition SECOND : Z := 1000000000.
Definition default_checkpoints : gmap Z CheckpointSchedule :=
  <[ 3600 * SECOND := mkSchedule (24 * 3600 * SECOND) ]>
    (<[ 24 * 3600 * SECOND := mkSchedule (7 * 24 * 3600 * SECOND) ]> ∅).

(** [folder_key]; [None] is the panic of its [expect]. *)
Definition folder_key (id : Z) : option bytes := ok (to_base32 id).

(** ** The document *)

(** The tables and values that serde reads and writes: a field that is absent
    is [None]. *)
Record MetaDoc := mkDoc {
  doc_format_version : option Z;
  doc_next_folder_key : option Z;
  doc_identity : option MetaIdentity;
  doc_folders : option (gmap bytes FolderEntry);
  doc_checkpoint : option (gmap bytes bytes)
}.

(** [toml]: printing can fail, what it prints is UTF-8 text that parses back. *)
Class Toml := {
  to_string_pretty : MetaDoc -> option bytes;
  from_str : bytes -> option MetaDoc
}.

Class TomlLaws `{Toml} : Prop := {
  toml_utf8 : forall d b, to_string_pretty d = Some b -> utf8_valid b = true;
  toml_roundtrip : forall d b, to_string_pretty d = Some b -> from_str b = Some d
}.

Section Document.
Context `{HumanTime}.

(** [checkpoint_map::serialize] ([ttl] is written by [humantime_serde]). *)
Definition serialize_checkpoints (m : gmap Z CheckpointSchedule) : gmap bytes bytes :=
  foldl (fun res kv => <[ format_duration (fst kv) := format_duration (ttl (snd kv)) ]> res)
    ∅ (iter_durations m).

(** [checkpoint_map::deserialize]. *)
Fixpoint deserialize_checkpoints (l : list (bytes * bytes)) (res : gmap Z CheckpointSchedule) :
  option (gmap Z CheckpointSchedule) :=
  match l with
  | [] => Some res
  | (k, t) :: l' =>
      match parse_duration t, parse_duration k with
      | Some v, Some dur =>
          match res !! dur with
          | Some _ => None
          | None => deserialize_checkpoints l' (<[ dur := mkSchedule v ]> res)
          end
      | _, _ => None
      end
  end.

(** The derived [Serialize] and [Deserialize] of [Meta]. *)
Definition meta_to_doc (m : Meta) : MetaDoc :=
  mkDoc (Some (format_version m)) (Some (next_folder_key m)) (identity m) (Some (folders m))
    (if bool_decide (checkpoint m = ∅) then None else Some (serialize_checkpoints (checkpoint m))).

Definition meta_of_doc (d : MetaDoc) : option Meta :=
  match match doc_checkpoint d with
        | Some c => deserialize_checkpoints (iter c) ∅
        | None => Some ∅
        end with
  | Some c => Some (mkMeta (default default_format_version (doc_format_version d))
                      (default 0 (doc_next_folder_key d)) (doc_identity d)
                      (default ∅ (doc_folders d)) c)
  | None => None
  end.

Context `{Toml}.

(** [toml::to_string_pretty(&m)] and [toml::from_str(text)]. *)
Definition print_meta (m : Meta) : option bytes := to_string_pretty (meta_to_doc m).
Definition parse_meta (text : bytes) : option Meta :=
  match from_str text with Some d => meta_of_doc d | None => None end.

End Document.

(** ** The identity *)

(** [Identity] of the TLS crate: the certificate, the key and the device id
    (the digest of the certificate). *)
Record Identity := mkIdentity { id_cert : bytes; id_key : bytes; device_id : bytes }.

Section Identity.
Context (sha256 : bytes -> bytes) `{Base64}.

(** [Identity::from_der]; it has no error of its own. *)
Definition identity_from_der (cert key : bytes) : Identity := mkIdentity cert key (sha256 cert).

(** [MetaIdentity::from_der], [cert_der_bytes] and [key_der_bytes]. *)
Definition meta_identity_from_der (cert key : bytes) : MetaIdentity :=
  mkMetaIdentity (base64_encode cert) (base64_encode key).
Definition cert_der_bytes (i : MetaIdentity) : option bytes := base64_decode (cert_der i).
Definition key_der_bytes (i : MetaIdentity) : option bytes := base64_decode (key_der i).

(** [SlateStorage::extract_identity]. *)
Definition extract_identity (m : Meta) : result StorageError.t (option Identity) :=
  match identity m with
  | Some i =>
      try cert <- ok_or (cert_der_bytes i) (StorageError.Corruption "decode cert base64");
      try key <- ok_or (key_der_bytes i) (StorageError.Corruption "decode key base64");
      Ok (Some (identity_from_der cert key))
  | None => Ok None
  end.

End Identity.

(** ** Lemmas *)

#[export] Instance name_le_total {A : Type} : Total (@name_le A).
Proof.
  intros a b. unfold name_le. rewrite (bytes_cmp_antisym (fst a) (fst b)).
  destruct (bytes_cmp _ _); simpl; auto.
Qed.

Lemma elem_of_iter {A : Type} (m : gmap bytes A) (k : bytes) (a : A) :
  (k, a) ∈ iter m <-> m !! k = Some a.
Proof. unfold iter. by rewrite merge_sort_Permutation, elem_of_map_to_list. Qed.

Lemma iter_nodup {A : Type} (m : gmap bytes A) : NoDup (map fst (iter m)).
Proof. unfold iter. rewrite merge_sort_Permutation. apply NoDup_fst_map_to_list. Qed.

Lemma elem_of_iter_durations {A : Type} (m : gmap Z A) (k : Z) (a : A) :
  (k, a) ∈ iter_durations m <-> m !! k = Some a.
Proof. unfold iter_durations. by rewrite merge_sort_Permutation, elem_of_map_to_list. Qed.

Lemma iter_durations_nodup {A : Type} (m : gmap Z A) : NoDup (map fst (iter_durations m)).
Proof. unfold iter_durations. rewrite merge_sort_Permutation. apply NoDup_fst_map_to_list. Qed.

Lemma has_folder_true (m : Meta) (id : bytes) :
  has_folder m id = true <-> exists k e, folders m !! k = Some e /\ entry_id e = id.
Proof.
  unfold has_folder. rewrite existsb_exists. split.
  - intros ([k e] & Hin & He%bool_decide_eq_true). apply list_elem_of_In, elem_of_iter in Hin. eauto.
  - intros (k & e & Hk & He). exists (k, e). split; [by apply list_elem_of_In, elem_of_iter|by apply bool_decide_eq_true].
Qed.

Section DocumentFacts.
Context `{HumanTimeLaws}.

Definition durations_ok (m : gmap Z CheckpointSchedule) : Prop :=
  forall d s, m !! d = Some s -> is_duration d /\ is_duration (ttl s).

Lemma format_inj d1 d2 : is_duration d1 -> is_duration d2 -> format_duration d1 = format_duration d2 -> d1 = d2.
Proof. intros H1 H2 E. apply parse_format in H1, H2. rewrite E in H1. congruence. Qed.

(** What [serialize_checkpoints] writes. *)
Lemma serialize_lookup (l : list (Z * CheckpointSchedule)) (res : gmap bytes bytes) (k t : bytes) :
  NoDup (map fst l) -> Forall (fun kv => is_duration (fst kv)) l ->
  (forall kv, kv ∈ l -> res !! format_duration (fst kv) = None) ->
  foldl (fun res kv => <[ format_duration (fst kv) := format_duration (ttl (snd kv)) ]> res) res l !! k = Some t <->
  res !! k = Some t \/ exists d s, (d, s) ∈ l /\ k = format_duration d /\ t = format_duration (ttl s).
Proof.
  revert res. induction l as [|[d s] l IH]; intros res Hnd Hdur Hfree; cbn [foldl].
  { split; [by left|]. intros [?|(? & ? & []%not_elem_of_nil & _)]; done. }
  inversion Hnd as [|?? Hn Hnd']; subst. inversion Hdur as [|?? Hd Hdur']; subst. cbn [fst snd] in *.
  rewrite IH; [|done|done|].
  - rewrite lookup_insert_Some. split.
    + intros [[[<- <-]|[_ Hk]]|(d' & s' & Hin & Hks)]; [|by left|].
      * right. exists d, s. split; [by left|done].
      * right. exists d', s'. split; [by right|done].
    + intros [Hk|(d' & s' & [[= -> ->]|Hin]%elem_of_cons & -> & ->)].
      * left. right. split; [|done]. intros <-. pose proof (Hfree (d, s)) as Hn'. cbn [fst] in Hn'. rewrite Hn' in Hk; [done|by left].
      * left. left. done.
      * right. eauto.
  - intros kv Hin. rewrite lookup_insert_ne; [apply Hfree; by right|].
    intros E. apply Hn. apply format_inj in E; [|done|by eapply Forall_forall in Hdur'].
    rewrite E. by apply (list_elem_of_fmap_2 fst) in Hin.
Qed.

(** What [deserialize_checkpoints] reads back. *)
Lemma deserialize_lookup (l : list (bytes * bytes)) (m res : gmap Z CheckpointSchedule) :
  NoDup (map fst l) -> durations_ok m ->
  (forall k t, (k, t) ∈ l -> exists d s, m !! d = Some s /\ k = format_duration d /\ t = format_duration (ttl s)) ->
  (forall d, is_duration d -> format_duration d ∈ map fst l -> res !! d = None) ->
  exists res', deserialize_checkpoints l res = Some res' /\
    forall d, res' !! d = if decide (is_Some (m !! d) /\ format_duration d ∈ map fst l) then m !! d else res !! d.
Proof.
  revert res. induction l as [|[k t] l IH]; intros res Hnd Hok Hl Hfree; cbn [deserialize_checkpoints].
  { exists res. split; [done|]. intros d. case_decide as Hd; [|done]. by destruct Hd as [_ []%not_elem_of_nil]. }
  inversion Hnd as [|?? Hn Hnd']; subst. cbn [fst] in *.
  destruct (Hl k t) as (d & s & Hds & -> & ->); [by left|]. destruct (Hok d s Hds) as [Hd Hs].
  rewrite !parse_format, (Hfree d Hd) by (done || by left).
  destruct (IH (<[ d := mkSchedule (ttl s) ]> res)) as (res' & -> & Hres'); [done|done| | |].
  - intros k t Hin. apply Hl. by right.
  - intros d' Hd' Hin. rewrite lookup_insert_ne; [apply Hfree; [done|by right]|]. by intros <-.
  - exists res'. split; [done|]. intros d'. rewrite Hres'. destruct (decide (d = d')) as [<-|Hne].
    + rewrite lookup_insert_eq. rewrite decide_False by (intros [_ ?]; done).
      rewrite decide_True by (split; [by eexists|by left]). rewrite Hds. by destruct s.
    + rewrite lookup_insert_ne by done. destruct (decide (is_Some (m !! d') /\ format_duration d' ∈ map fst l)) as [[Hm Hin]|Hno].
      * rewrite decide_True by (split; [done|by right]). done.
      * rewrite decide_False; [done|]. intros [[s' Hs'] [E|?]%elem_of_cons]; [|apply Hno; split; [by eexists|done]].
        apply Hne. symmetry. apply format_inj; [by eapply Hok|done|done].
Qed.

Lemma checkpoints_roundtrip (m : gmap Z CheckpointSchedule) :
  durations_ok m -> deserialize_checkpoints (iter (serialize_checkpoints m)) ∅ = Some m.
Proof.
  intros Hok. assert (forall k t, serialize_checkpoints m !! k = Some t <->
    exists d s, m !! d = Some s /\ k = format_duration d /\ t = format_duration (ttl s)) as Hser.
  { intros k t. unfold serialize_checkpoints. rewrite serialize_lookup.
    - rewrite lookup_empty. setoid_rewrite elem_of_iter_durations. naive_solver.
    - apply iter_durations_nodup.
    - apply Forall_forall. intros [d s] Hin%elem_of_iter_durations. by eapply Hok.
    - intros. apply lookup_empty. }
  destruct (deserialize_lookup (iter (serialize_checkpoints m)) m ∅) as (res' & -> & Hres').
  - apply iter_nodup.
  - done.
  - intros k t Hin%elem_of_iter. by apply Hser.
  - intros. apply lookup_empty.
  - f_equal. apply map_eq. intros d. rewrite Hres'. case_decide as Hd; [done|]. rewrite lookup_empty.
    destruct (m !! d) as [s|] eqn:E; [|done]. destruct Hd. split; [by eexists|].
    change (format_duration d) with (fst (format_duration d, format_duration (ttl s))).
    apply (list_elem_of_fmap_2 fst). apply elem_of_iter, Hser. eauto.
Qed.

Context `{TomlLaws}.

(** What is printed is read back. *)
Lemma parse_print (m : Meta) (b : bytes) :
  durations_ok (checkpoint m) -> print_meta m = Some b -> utf8_valid b = true /\ parse_meta b = Some m.
Proof.
  unfold print_meta, parse_meta. intros Hok Hp. split; [by eapply toml_utf8|].
  erewrite toml_roundtrip by done. unfold meta_of_doc. cbn.
  destruct m as [v n i f c]; cbn in *. case_bool_decide as Hc; subst; [done|].
  by rewrite checkpoints_roundtrip.
Qed.

End DocumentFacts.

End Meta.
