(* ===== verification/ObjectStore.v ===== *)
(** The object store behind a repository, and the library calls that open a
    database in it. object_store and SlateDB are libraries: the storage uses
    them through listings, gets, puts, deletes and [Db::builder(path).build()],
    so they are type classes whose laws are the documented contract. Any request
    may fail; a write that fails may or may not have taken effect. Locations are
    the text of a path.

    [MemStore] is a store that satisfies the laws, with a switch for failures. *)

From Stdlib Require Import ZArith Lia.
From stdpp Require Import base gmap list strings.
From S2P Require Import Prelude Kv.

Local Open Scope Z_scope.
Local Open Scope bep_scope.

Module ObjectStore.
Import Kv.

(** [object_store::Error], as far as the storage tells variants apart. *)
Inductive OsError := NotFound | OtherError.

(** A location at the root, and one below a directory. *)
Definition at_root (l : bytes) : Prop := SLASH ∉ l.
Definition below (dir l : bytes) : Prop := exists r, l = dir ++ [SLASH] ++ r.

#[export] Instance at_root_dec l : Decision (at_root l).
Proof. unfold at_root. apply _. Defined.

(** [Path::filename]: the last segment. *)
Definition filename (l : bytes) : option bytes :=
  match l with
  | [] => None
  | _ => Some (match rsplit_once [SLASH] l with Some (_, b) => b | None => l end)
  end.

(** The characters that [Path::from] leaves as they are. *)
Definition plain_char (c : Z) : bool :=
  in_range 48 57 c || in_range 65 90 c || in_range 97 122 c || (c =? 45) || (c =? 46) || (c =? 95).

Class ObjectStore (OS : Type) := {
  path_from : bytes -> bytes;
  (** [list_with_delimiter(None)]: the objects at the root. *)
  os_list_root : SE OS OsError (list bytes);
  (** [list(Some(prefix))]: a stream whose items may be errors. *)
  os_list : bytes -> OS -> OS * list (result OsError bytes);
  (** [get]: the body may itself fail to arrive. *)
  os_get : bytes -> SE OS OsError (result OsError bytes);
  os_put : bytes -> bytes -> SE OS OsError unit;
  os_delete : bytes -> SE OS OsError unit;
  (** What the store holds and whether it will not fail (for the laws only). *)
  os_objects : OS -> gmap bytes bytes;
  os_healthy : OS -> Prop
}.

(** [Db::builder(path, store)...build()]. *)
Class OpenDb (OS Db : Type) := open_db : bytes -> SE OS SlateError Db.

(** Only objects below [dir] can differ. *)
Definition same_but {OS : Type} `{ObjectStore OS} (dir : bytes) (o o' : OS) : Prop :=
  forall l, ~ below dir l -> os_objects o' !! l = os_objects o !! l.

Class ObjectStoreLaws (OS : Type) `{ObjectStore OS} : Prop := {
  path_from_plain : forall s, forallb plain_char s = true -> s <> lit "." -> s <> lit ".." -> path_from s = s;
  list_root_law : forall o, let '(o', r) := os_list_root o in
    os_objects o' = os_objects o /\ (os_healthy o -> os_healthy o' /\ is_ok r = true) /\
    (forall ls, r = Ok ls -> NoDup ls /\ forall l, l ∈ ls <-> at_root l /\ is_Some (os_objects o !! l));
  list_law : forall dir o, let '(o', items) := os_list dir o in
    os_objects o' = os_objects o /\
    (forall l, Ok l ∈ items -> below dir l /\ is_Some (os_objects o !! l)) /\
    (os_healthy o -> os_healthy o' /\ forallb is_ok items = true /\
       forall l, below dir l -> is_Some (os_objects o !! l) -> Ok l ∈ items);
  get_law : forall l o, let '(o', r) := os_get l o in
    os_objects o' = os_objects o /\
    (forall b, r = Ok (Ok b) -> os_objects o !! l = Some b) /\
    (r = Err NotFound -> os_objects o !! l = None) /\
    (os_healthy o -> os_healthy o' /\
       r = match os_objects o !! l with Some b => Ok (Ok b) | None => Err NotFound end);
  put_law : forall l b o, let '(o', r) := os_put l b o in
    (os_objects o' = <[ l := b ]> (os_objects o) \/ (os_objects o' = os_objects o /\ is_ok r = false)) /\
    (os_healthy o -> os_healthy o' /\ is_ok r = true);
  delete_law : forall l o, let '(o', r) := os_delete l o in
    (os_objects o' = delete l (os_objects o) \/ (os_objects o' = os_objects o /\ is_ok r = false)) /\
    (os_healthy o -> is_Some (os_objects o !! l) -> os_healthy o' /\ is_ok r = true)
}.

Class OpenDbLaws (OS Db : Type) `{ObjectStore OS, OpenDb OS Db} : Prop :=
  open_db_law : forall dir o, same_but dir o (fst (open_db (Db := Db) dir o)).

(** ** A concrete store *)

(** A map in memory. Its fuse, if it has one, burns one unit per request; when
    it is burnt every request fails, the writes among them after they took
    effect if [late] is set. *)
Record MemStore := mkMem { mobjects : gmap bytes bytes; mfuse : option nat; late : bool }.

Definition mburn (o : MemStore) : MemStore * bool :=
  match mfuse o with
  | None => (o, true)
  | Some O => (o, false)
  | Some (S n) => (mkMem (mobjects o) (Some n) (late o), true)
  end.

Definition mem_read {A : Type} (f : gmap bytes bytes -> result OsError A) : SE MemStore OsError A := fun o =>
  match mburn o with
  | (o', true) => (o', f (mobjects o))
  | (o', false) => (o', Err OtherError)
  end.

Definition mem_write (f : gmap bytes bytes -> gmap bytes bytes) : SE MemStore OsError unit := fun o =>
  match mburn o with
  | (o', true) => (mkMem (f (mobjects o)) (mfuse o') (late o), Ok tt)
  | (o', false) => (if late o then mkMem (f (mobjects o)) (mfuse o) (late o) else o, Err OtherError)
  end.

Definition root_locations (m : gmap bytes bytes) : list bytes :=
  filter at_root (map fst (map_to_list m)).

Definition locations_below (dir : bytes) (m : gmap bytes bytes) : list bytes :=
  filter (fun l => starts_with (dir ++ [SLASH]) l = true) (map fst (map_to_list m)).

#[export] Instance MemStore_ObjectStore : ObjectStore MemStore := {
  path_from s := s;
  os_list_root := mem_read (fun m => Ok (root_locations m));
  os_list dir o := match mem_read (fun m => Ok (locations_below dir m)) o with
                   | (o', Ok ls) => (o', map Ok ls)
                   | (o', Err e) => (o', [Err e])
                   end;
  os_get l := mem_read (fun m => match m !! l with Some b => Ok (Ok b) | None => Err NotFound end);
  os_put l b := mem_write (fun m => <[ l := b ]> m);
  os_delete l := mem_write (fun m => delete l m);
  os_objects := mobjects;
  os_healthy o := mfuse o = None
}.

(** A database starts empty; opening one leaves a manifest below its path. *)
#[export] Instance MemStore_OpenDb : OpenDb MemStore MapDb := fun dir o =>
  match mem_write (fun m => <[ dir ++ [SLASH] ++ lit "manifest" := [] ]> m) o with
  | (o', Ok _) => (o', Ok (mkMapDb ∅ None))
  | (o', Err _) => (o', Err OtherKind)
  end.

Lemma mem_read_cases {A : Type} (f : gmap bytes bytes -> result OsError A) (o : MemStore) :
  exists n, (mem_read f o = (mkMem (mobjects o) n (late o), f (mobjects o)) /\ (mfuse o = None -> n = None)) \/
            (mem_read f o = (o, Err OtherError) /\ mfuse o <> None).
Proof.
  unfold mem_read, mburn. destruct o as [m [[|n]|] b]; cbn; [|exists (Some n)|exists None]; [|by left..].
  exists None. by right.
Qed.

Lemma mem_write_cases (f : gmap bytes bytes -> gmap bytes bytes) (o : MemStore) :
  exists n, (mem_write f o = (mkMem (f (mobjects o)) n (late o), Ok tt) /\ (mfuse o = None -> n = None)) \/
            (exists o', mem_write f o = (o', Err OtherError) /\ mfuse o <> None /\
                        (mobjects o' = f (mobjects o) \/ mobjects o' = mobjects o)).
Proof.
  unfold mem_write, mburn. destruct o as [m [[|n]|] b]; cbn; [|exists (Some n)|exists None]; [|by left..].
  exists None. right. destruct b; eexists; split; try done; cbn; auto.
Qed.

Lemma elem_of_keys (m : gmap bytes bytes) (l : bytes) : l ∈ map fst (map_to_list m) <-> is_Some (m !! l).
Proof.
  rewrite list_elem_of_fmap. split.
  - intros ([k v] & -> & H%elem_of_map_to_list). by eexists.
  - intros [v Hv]. exists (l, v). split; [done|by apply elem_of_map_to_list].
Qed.

Lemma starts_below (dir l : bytes) : starts_with (dir ++ [SLASH]) l = true <-> below dir l.
Proof.
  rewrite starts_with_true. unfold below. split; intros [r ->]; exists r; by rewrite <- app_assoc.
Qed.

#[export] Instance MemStore_laws : ObjectStoreLaws MemStore.
Proof.
  split; cbn [path_from os_list_root os_list os_get os_put os_delete os_objects os_healthy MemStore_ObjectStore].
  - done.
  - intros o. destruct (mem_read_cases (fun m => Ok (root_locations m)) o) as (n & [[-> Hn]|[-> Hn]]).
    + split; [done|]. split; [auto|]. intros ls [= <-]. unfold root_locations. split.
      * apply NoDup_filter, NoDup_fst_map_to_list.
      * intros l. by rewrite list_elem_of_filter, elem_of_keys.
    + by split; [|split].
  - intros dir o. destruct (mem_read_cases (fun m => Ok (locations_below dir m)) o) as (n & [[-> Hn]|[-> Hn]]).
    + assert (forall l, Ok l ∈ map (Ok (E := OsError)) (locations_below dir (mobjects o)) <->
                below dir l /\ is_Some (mobjects o !! l)) as H.
      { intros l. unfold locations_below. rewrite list_elem_of_fmap. setoid_rewrite list_elem_of_filter.
        setoid_rewrite elem_of_keys. setoid_rewrite starts_below. naive_solver. }
      split; [done|]. split; [intros l; apply H|]. intros Ho. split; [auto|]. split; [|intros l; rewrite H; auto].
      apply forallb_forall. intros x (l & <- & _)%in_map_iff. done.
    + split; [done|]. split; [|done]. by intros l ?%list_elem_of_singleton.
  - intros l o. match goal with |- context [mem_read ?f o] => destruct (mem_read_cases f o) as (n & [[-> Hn]|[-> Hn]]) end;
      [|done].
    cbn [mobjects mfuse]. destruct (mobjects o !! l); naive_solver.
  - intros l b o. destruct (mem_write_cases (fun m : gmap bytes bytes => <[ l := b ]> m) o) as (n & [[-> Hn]|(o' & -> & Hn & Ho)]).
    + split; [by left|auto].
    + split; [|done]. destruct Ho as [Ho|Ho]; auto.
  - intros l o. destruct (mem_write_cases (fun m : gmap bytes bytes => delete l m) o) as (n & [[-> Hn]|(o' & -> & Hn & Ho)]).
    + split; [by left|auto].
    + split; [|done]. destruct Ho as [Ho|Ho]; auto.
Qed.

#[export] Instance MemStore_open_laws : OpenDbLaws MemStore MapDb.
Proof.
  intros dir o l Hl. unfold open_db, MemStore_OpenDb.
  set (f := fun m : gmap bytes bytes => <[ dir ++ [SLASH] ++ lit "manifest" := [] ]> m).
  assert (forall m : gmap bytes bytes, f m !! l = m !! l) as Hf.
  { intros m. unfold f. apply lookup_insert_ne. intros <-. apply Hl. by eexists. }
  destruct (mem_write_cases f o) as (n & [[-> _]|(o' & -> & _ & [E|E])]); cbn; rewrite ?E; auto.
Qed.

End ObjectStore.
