(* ===== verification/Activation.v ===== *)
(** A repository in an object store ([SlateStorage] of
    [bepository-storage/src/api.rs]): activation under a lock epoch, the cached
    meta file and its atomic update, the registry of folders and the databases
    opened for them.

    The state is the object store, the activation (if any) and the directories
    for which a database was opened, a history that the code does not read. An
    operation keeps the state it has reached when it fails. [meta_lock]
    serialises the updates of the meta file, and the lock on [stores] the
    openings, so operations run one after the other; the databases themselves
    are [FolderStore]s, one per open folder. *)

From Stdlib Require Import ZArith Lia.
From stdpp Require Import base gmap list sorting strings.
From S2P Require Import Prelude BepTypes Base32 Codec Kv GcState Store ReadOnly Fsck Folder.
From S2P Require Import Meta ObjectStore.

Local Open Scope Z_scope.
Local Open Scope bep_scope.

Module Activation.
Import Base32 Kv Store Meta ObjectStore.

(** A call can also panic ([expect] in [folder_key]). *)
Inductive Failure := Failed (e : StorageError.t) | Panicked.

(** ** The registry *)

(** [LinearMap]: insertion replaces in place, or appends. *)
Fixpoint lm_insert {A : Type} (k : bytes) (a : A) (l : list (bytes * A)) : list (bytes * A) :=
  match l with
  | [] => [(k, a)]
  | (k', a') :: l' => if decide (k = k') then (k, a) :: l' else (k', a') :: lm_insert k a l'
  end.

Fixpoint lm_get {A : Type} (k : bytes) (l : list (bytes * A)) : option A :=
  match l with
  | [] => None
  | (k', a) :: l' => if decide (k = k') then Some a else lm_get k l'
  end.

(** [SlateStorage::folder_storage_key]. *)
Definition folder_storage_key (key : bytes) : bytes := lit "folder_" ++ key.

Record MetaState := mkState {
  st_meta : Meta;
  registry : list (bytes * (bytes * bytes))
}.

(** [MetaState::from_meta]. *)
Definition from_meta (m : Meta) : MetaState :=
  mkState m (foldl (fun reg ke => lm_insert (entry_id (snd ke))
                                    (folder_storage_key (fst ke), entry_label (snd ke)) reg)
               [] (iter (folders m))).

(** [sort_by_key(|(id, _, _)| *id)] on (id, label, storage key). *)
Definition triple_le (a b : bytes * bytes * bytes) : Prop := bytes_cmp (fst (fst a)) (fst (fst b)) <> Gt.

#[export] Instance triple_le_dec a b : Decision (triple_le a b).
Proof. unfold triple_le. destruct (bytes_cmp _ _); (left; discriminate) || (right; congruence). Defined.

(** [folder_triples_from_meta]. *)
Definition folder_triples_from_meta (m : Meta) : list (bytes * bytes * bytes) :=
  merge_sort triple_le
    (map (fun ke => (entry_id (snd ke), entry_label (snd ke), folder_storage_key (fst ke))) (iter (folders m))).

(** ** Updates of the meta *)

Definition set_format_version (m : Meta) (v : Z) : Meta :=
  mkMeta v (next_folder_key m) (identity m) (folders m) (checkpoint m).
Definition set_identity (m : Meta) (i : option MetaIdentity) : Meta :=
  mkMeta (format_version m) (next_folder_key m) i (folders m) (checkpoint m).
Definition set_folders (m : Meta) (next : Z) (f : gmap bytes FolderEntry) : Meta :=
  mkMeta (format_version m) next (identity m) f (checkpoint m).
Definition set_checkpoint (m : Meta) (c : gmap Z CheckpointSchedule) : Meta :=
  mkMeta (format_version m) (next_folder_key m) (identity m) (folders m) c.

(** The entry of a folder id that an iteration meets first, with its key. *)
Definition find_entry (m : Meta) (id : bytes) : option (bytes * FolderEntry) :=
  find (fun ke => bool_decide (entry_id (snd ke) = id)) (iter (folders m)).

(** A new entry under the next key. *)
Definition add_folder (m : Meta) (id label : bytes) : result Failure (Meta * bytes) :=
  match folder_key (next_folder_key m) with
  | Some key => Ok (set_folders m (next_folder_key m + 1) (<[ key := mkFolderEntry id label ]> (folders m)), key)
  | None => Err Panicked
  end.

(** The closure of [register_folder]. *)
Definition register_in (id label : bytes) (m : Meta) : result Failure (Meta * bytes) :=
  if has_folder m id then Err (Failed (StorageError.InvalidInput "folder already registered"))
  else try (m', key) <- add_folder m id label; Ok (m', folder_storage_key key).

(** The closure of [ensure_folders]: labels of known folders are updated, new
    folders are added; one flag per folder says which. *)
Fixpoint ensure_in (l : list (bytes * bytes)) (m : Meta) : result Failure (Meta * list bool) :=
  match l with
  | [] => Ok (m, [])
  | (id, label) :: l' =>
      match find_entry m id with
      | Some (key, e) =>
          try (m', created) <- ensure_in l'
            (set_folders m (next_folder_key m) (<[ key := mkFolderEntry (entry_id e) label ]> (folders m)));
          Ok (m', false :: created)
      | None =>
          try (m1, _) <- add_folder m id label;
          try (m', created) <- ensure_in l' m1;
          Ok (m', true :: created)
      end
  end.

(** The closure of [remove_folder]. *)
Definition remove_in (id : bytes) (m : Meta) : result Failure (Meta * unit) :=
  Ok (match find_entry m id with
      | Some (k, _) => set_folders m (next_folder_key m) (delete k (folders m))
      | None => m
      end, tt).

(** The closures of [set_default_checkpoints], [update_checkpoint_schedule]
    and [put_identity]. *)
Definition default_checkpoints_in (m : Meta) : result Failure (Meta * unit) :=
  Ok (if bool_decide (checkpoint m = ∅) then set_checkpoint m default_checkpoints else m, tt).

Definition schedule_in (interval : Z) (schedule : option CheckpointSchedule) (m : Meta) :
  result Failure (Meta * unit) :=
  Ok (set_checkpoint m (match schedule with
                        | Some s => <[ interval := s ]> (checkpoint m)
                        | None => delete interval (checkpoint m)
                        end), tt).

Definition identity_in (i : MetaIdentity) (m : Meta) : result Failure (Meta * unit) :=
  Ok (set_identity m (Some i), tt).

(** ** Meta files *)

(** The names [read_meta_unlocked] and [clean_meta] look for. *)
Definition is_meta_name (location : bytes) : bool :=
  match filename location with
  | Some name => starts_with META_PREFIX name && ends_with META_SUFFIX name
  | None => false
  end.

(** The loop of [read_meta_unlocked]: the largest location. *)
Definition pick (last : option bytes) (location : bytes) : option bytes :=
  if is_meta_name location then
    Some (match last with
          | Some prev => match bytes_cmp prev location with Gt => prev | _ => location end
          | None => location
          end)
  else last.

Section Storage.
Context {OS Db : Type} `{!ObjectStore OS} `{!SlateDb Db} `{!OpenDb OS Db} {SC : StoreCodecs}.
Context {HF SF : Type} `{!Bloom bytes HF} `{!Bloom Z SF}.
Context {HT : HumanTime} {TM : Toml} {B64 : Base64} (sha256 : bytes -> bytes).
Abbreviation FS := (FolderStore Db HF SF).

(** The path of the meta file of an epoch. *)
Definition meta_path (e : Epoch) : bytes :=
  path_from (META_PREFIX ++ as_base32 e ++ META_SUFFIX).

(** [struct Activated]. [db_cache] is the directory of the shared block cache
    once it is made. *)
Record Activated := mkActivated {
  epoch : Epoch;
  stores : gmap bytes FS;
  state : MetaState;
  db_cache : option (option bytes)
}.

(** [struct SlateStorageInner], and the history of opened databases. *)
Record SlateStorage := mkStorage {
  object_store : OS;
  cache_provider : option (bytes -> option bytes);
  act : option Activated;
  opened : list bytes
}.

Abbreviation M := (SE SlateStorage Failure).

Definition set_os (s : SlateStorage) (o : OS) : SlateStorage :=
  mkStorage o (cache_provider s) (act s) (opened s).
Definition set_act (s : SlateStorage) (a : option Activated) : SlateStorage :=
  mkStorage (object_store s) (cache_provider s) a (opened s).
Definition set_stores (a : Activated) (m : gmap bytes FS) : Activated :=
  mkActivated (epoch a) m (state a) (db_cache a).
Definition set_state (a : Activated) (st : MetaState) : Activated :=
  mkActivated (epoch a) (stores a) st (db_cache a).
Definition set_db_cache (a : Activated) (c : option (option bytes)) : Activated :=
  mkActivated (epoch a) (stores a) (state a) c.

(** [SlateStorage::new]. *)
Definition new (o : OS) (provider : option (bytes -> option bytes)) : SlateStorage :=
  mkStorage o provider None [].

Definition fail {A : Type} (e : StorageError.t) : M A := se_err (Failed e).

(** A request to the object store whose error is a transient one. *)
Definition on_os {A E : Type} (msg : string) (m : SE OS E A) : M A := fun s =>
  let '(o, r) := m (object_store s) in
  (set_os s o, map_err (fun _ => Failed (StorageError.TransientIo msg)) r).

Definition lift {A : Type} (r : result StorageError.t A) : M A := se_lift (map_err Failed r).

(** [SlateStorage::activated]. *)
Definition activated : M Activated := fun s =>
  (s, ok_or (act s) (Failed (StorageError.Standby "epoch not set: call activate() before this operation"))).

Definition change (f : Activated -> Activated) : M unit :=
  se_modify (fun s => set_act s (match act s with Some a => Some (f a) | None => None end)).

(** *** Reading the meta *)

Definition parse_meta_result (body : result OsError bytes) : M Meta :=
  match body with
  | Ok text =>
      if utf8_valid text then
        match parse_meta text with
        | Some m => se_ret m
        | None => fail (StorageError.Corruption "parse meta TOML")
        end
      else fail (StorageError.Corruption "meta not valid UTF-8")
  | Err _ => fail (StorageError.TransientIo "read meta")
  end.

(** [read_meta_at]: a missing file is the default. *)
Definition read_meta_at (location : bytes) : M Meta := fun s =>
  let '(o, r) := os_get location (object_store s) in
  match r with
  | Ok body => parse_meta_result body (set_os s o)
  | Err NotFound => (set_os s o, Ok default_meta)
  | Err _ => (set_os s o, Err (Failed (StorageError.TransientIo "read meta")))
  end.

Definition read_meta_unlocked : M Meta :=
  do! listing <- on_os "list meta files" os_list_root;
  match foldl pick None listing with
  | Some location => read_meta_at location
  | None => se_ret default_meta
  end.

(** [Activated::read_meta] behind [SlateStorage::read_meta]. *)
Definition read_meta : M Meta := do! a <- activated; se_ret (st_meta (state a)).

(** *** Writing the meta *)

Definition write_meta_to_disk (a : Activated) (m : Meta) : M unit :=
  match print_meta (set_format_version m SUPPORTED_FORMAT_VERSION) with
  | Some content => on_os "write meta" (os_put (meta_path (epoch a)) content)
  | None => fail (StorageError.Internal "serialize meta")
  end.

Definition modify_meta {A : Type} (f : Meta -> result Failure (Meta * A)) : M A :=
  do! a <- activated;
  do! (new_meta, result) <- se_lift (f (st_meta (state a)));
  run! write_meta_to_disk a new_meta;
  run! change (fun a => set_state a (from_meta new_meta));
  se_ret result.

(** The loop of [clean_meta] over the listing. *)
Fixpoint delete_others (current : bytes) (listing : list bytes) : M unit :=
  match listing with
  | [] => se_ret tt
  | location :: listing' =>
      if negb (bool_decide (location = current)) && is_meta_name location then
        run! on_os "delete old meta" (os_delete location);
        delete_others current listing'
      else delete_others current listing'
  end.

Definition clean_meta : M unit :=
  do! a <- activated;
  do! listing <- on_os "list meta files" os_list_root;
  delete_others (meta_path (epoch a)) listing.

(** [SlateStorage::activate] up to the write under the new epoch. *)
Definition activate_write (e : Epoch) : M unit :=
  do! m <- read_meta_unlocked;
  if SUPPORTED_FORMAT_VERSION <? format_version m then
    fail (StorageError.UnsupportedVersion (format_version m) SUPPORTED_FORMAT_VERSION)
  else
    do! s <- se_get;
    match act s with
    | Some _ => fail (StorageError.Internal "activate() called more than once")
    | None =>
        run! se_modify (fun s => set_act s (Some (mkActivated e ∅ (from_meta m) None)));
        do! a <- activated;
        write_meta_to_disk a m
    end.

Definition activate (e : Epoch) : M unit :=
  run! activate_write e;
  clean_meta.

(** *** The identity *)

Definition get_identity : M (option Identity) :=
  do! a <- activated; lift (extract_identity sha256 (st_meta (state a))).

Definition get_identity_unlocked : M (option Identity) :=
  do! m <- read_meta_unlocked; lift (extract_identity sha256 m).

Definition put_identity (cert key : bytes) : M unit :=
  modify_meta (identity_in (meta_identity_from_der cert key)).

(** *** Folder databases *)

Definition get_base_cache_dir : M (option bytes) :=
  do! s <- se_get;
  match cache_provider s with
  | None => se_ret None
  | Some provider =>
      do! i <- get_identity;
      match i with
      | Some i => se_ret (provider (device_id i))
      | None => fail (StorageError.Internal "No identity found in storage")
      end
  end.

(** [get_shared_db_cache]: made once. *)
Definition get_shared_db_cache : M unit :=
  do! a <- activated;
  match db_cache a with
  | Some _ => se_ret tt
  | None => do! dir <- get_base_cache_dir; change (fun a => set_db_cache a (Some dir))
  end.

Definition open_folder_store (sk : bytes) : M FS :=
  run! get_shared_db_cache;
  run! se_modify (fun s => mkStorage (object_store s) (cache_provider s) (act s) (sk :: opened s));
  do! d <- on_os "open slatedb" (open_db sk);
  lift (snd (Store.new d GcState.new)).

(** [store_for_folder]; the store is the one under [sk] in [stores]. *)
Definition store_for_folder (sk : bytes) : M unit :=
  do! a <- activated;
  match stores a !! sk with
  | Some _ => se_ret tt
  | None =>
      do! store <- open_folder_store sk;
      change (fun a => set_stores a (<[ sk := store ]> (stores a)))
  end.

(** An operation on the store of a folder, opened if need be. *)
Definition on_store {A : Type} (sk : bytes) (m : SE FS StorageError.t A) : M A :=
  run! store_for_folder sk;
  do! a <- activated;
  match stores a !! sk with
  | Some store =>
      let '(store', r) := m store in
      run! change (fun a => set_stores a (<[ sk := store' ]> (stores a)));
      lift r
  | None => fail (StorageError.Internal "the store was just opened")
  end.

(** *** The registry *)

Definition resolve_folder (id : bytes) : M (bytes * bytes) :=
  do! a <- activated;
  se_lift (ok_or (lm_get id (registry (state a)))
             (Failed (StorageError.NotFound "folder not found in registry"))).

Definition list_folders : M (list (bytes * bytes * bytes)) :=
  do! a <- activated;
  se_ret (merge_sort triple_le
            (map (fun x => (fst x, snd (snd x), fst (snd x))) (registry (state a)))).

Definition list_folders_unlocked : M (list (bytes * bytes * bytes)) :=
  do! m <- read_meta_unlocked; se_ret (folder_triples_from_meta m).

Definition register_folder (id label : bytes) : M bytes :=
  do! sk <- modify_meta (register_in id label);
  run! store_for_folder sk;
  se_ret sk.

(** [Storage::folder]: the handle; its store is the one under the returned
    key. *)
Definition folder (id : bytes) : M (Folder.SlateFolder * bytes) :=
  do! a <- activated;
  do! (sk, label) <- resolve_folder id;
  run! store_for_folder sk;
  se_ret (Folder.mkFolder id label (Some (epoch a)), sk).

(** The second loop of [ensure_folders]. *)
Fixpoint open_created (l : list (bytes * bytes)) (created : list bool) : M unit :=
  match l, created with
  | (id, _) :: l', b :: created' =>
      run! (if b : bool then do! (sk, _) <- resolve_folder id; store_for_folder sk else se_ret tt);
      open_created l' created'
  | _, _ => se_ret tt
  end.

Definition ensure_folders (l : list (bytes * bytes)) : M (list bool) :=
  match l with
  | [] => se_ret []
  | _ =>
      do! created <- modify_meta (ensure_in l);
      run! open_created l created;
      se_ret created
  end.

(** [remove_folder]: close the store, delete the objects, forget the entry. *)
Fixpoint delete_all (items : list (result OsError bytes)) : M unit :=
  match items with
  | [] => se_ret tt
  | Err _ :: _ => fail (StorageError.TransientIo "list objects for deletion")
  | Ok l :: items' => run! on_os "delete object" (os_delete l); delete_all items'
  end.

Definition evict (sk : bytes) : M unit :=
  do! a <- activated;
  match stores a !! sk with
  | Some store =>
      run! change (fun a => set_stores a (delete sk (stores a)));
      lift (snd (Store.close store))
  | None => se_ret tt
  end.

Definition list_objects (prefix : bytes) : M (list (result OsError bytes)) := fun s =>
  let '(o, items) := os_list prefix (object_store s) in (set_os s o, Ok items).

Definition remove_folder (id : bytes) : M unit :=
  do! (sk, _) <- resolve_folder id;
  run! evict sk;
  do! items <- list_objects (path_from sk);
  run! delete_all items;
  modify_meta (remove_in id).

Definition set_default_checkpoints : M unit := modify_meta default_checkpoints_in.

Definition update_checkpoint_schedule (interval : Z) (schedule : option CheckpointSchedule) : M unit :=
  modify_meta (schedule_in interval schedule).

(** *** Whole-repository operations *)

(** [close]: every store is closed; the first error is reported. *)
Definition close : M unit := fun s =>
  match act s with
  | None => (s, Ok tt)
  | Some a =>
      let errors := omap (fun kv => match snd (Store.close (snd kv)) with Ok _ => None | Err e => Some e end)
                      (map_to_list (stores a)) in
      (set_act s (Some (set_stores a ∅)),
       match errors with [] => Ok tt | e :: _ => Err (Failed e) end)
  end.

Fixpoint gc_inboxes (e : Epoch) (l : list (bytes * bytes * bytes)) : M unit :=
  match l with
  | [] => se_ret tt
  | (_, _, sk) :: l' => run! on_store sk (Store.gc_inbox e); gc_inboxes e l'
  end.

Definition gc_inbox : M unit :=
  do! a <- activated;
  do! l <- list_folders;
  gc_inboxes (epoch a) l.

(** [FsckEvent]. *)
Inductive FsckEvent :=
| FolderStarted (id : bytes)
| FolderError (id : bytes) (error : Fsck.Finding)
| FolderFinished (id : bytes) (errors_found : nat).

(** The items of the stream [check_integrity]; a failure of one folder does not
    end it. *)
Definition check_one (level : Fsck.FsckLevel) (id sk : bytes) (s : SlateStorage) :
  SlateStorage * list (result Failure FsckEvent) :=
  match on_store sk (Fsck.check_folder_integrity sha256 level) s with
  | (s', Ok errors) =>
      let errors := default [] errors in
      (s', map (fun e => Ok (FolderError id e)) errors ++ [Ok (FolderFinished id (length errors))])
  | (s', Err e) => (s', [Err e])
  end.

Fixpoint check_all (level : Fsck.FsckLevel) (l : list (bytes * bytes * bytes)) (s : SlateStorage) :
  SlateStorage * list (result Failure FsckEvent) :=
  match l with
  | [] => (s, [])
  | (id, _, sk) :: l' =>
      let '(s1, items) := check_one level id sk s in
      let '(s2, items') := check_all level l' s1 in
      (s2, Ok (FolderStarted id) :: items ++ items')
  end.

Definition check_integrity (level : Fsck.FsckLevel) (s : SlateStorage) :
  SlateStorage * list (result Failure FsckEvent) :=
  match list_folders s with
  | (s', Ok l) => check_all level l s'
  | (s', Err e) => (s', [Err e])
  end.

End Storage.

End Activation.
