(* ===== verification/ActivationSafety.v ===== *)
(** Theorems on a repository: the directories of folders are never reused, an
    activation takes over the meta of the last epoch, and what the registry
    operations do. *)

From Stdlib Require Import ZArith Lia.
From stdpp Require Import base gmap list relations sorting strings.
From S2P Require Import Prelude BepTypes Base32 Codec Kv GcState Store ReadOnly Fsck Folder.
From S2P Require Import Meta ObjectStore Activation.

Local Open Scope Z_scope.
Local Open Scope bep_scope.

Module ActivationSafety.
Import Base32 Kv Store Meta ObjectStore Activation.

(** ** Keys of folders *)

Definition key_of (n : Z) (k : bytes) : Prop := 0 <= n /\ folder_key n = Some k.

Lemma key_of_base32 n k : key_of n k <-> 0 <= n /\ to_base32 n = Ok k.
Proof. unfold key_of, folder_key. destruct (to_base32 n); simpl; naive_solver. Qed.

Lemma key_of_inj n1 n2 k : key_of n1 k -> key_of n2 k -> n1 = n2.
Proof.
  intros [H1 E1]%key_of_base32 [H2 E2]%key_of_base32.
  pose proof (base32_cmp _ _ _ _ H1 H2 E1 E2) as H. rewrite bytes_cmp_refl in H.
  symmetry in H. by apply Z.compare_eq in H.
Qed.

(** The directories of the folders numbered below [n]. *)
Definition dir_below (n : Z) (sk : bytes) : Prop :=
  exists i k, i < n /\ key_of i k /\ sk = folder_storage_key k.

Lemma dir_below_mono n1 n2 sk : n1 <= n2 -> dir_below n1 sk -> dir_below n2 sk.
Proof. intros H (i & k & ? & ? & ?). exists i, k. split; [lia|done]. Qed.

Lemma dir_below_not n k sk : key_of n k -> sk = folder_storage_key k -> ~ dir_below n sk.
Proof.
  intros Hk -> (i & k' & Hi & Hk' & E). apply app_inv_head in E. subst k'.
  pose proof (key_of_inj _ _ _ Hk Hk'). lia.
Qed.

(** A registry whose keys were given out and whose ids are distinct. *)
Record meta_ok (m : Meta) : Prop := mkMetaOk {
  ok_next : 0 <= next_folder_key m;
  ok_keys : forall k e, folders m !! k = Some e -> exists n, n < next_folder_key m /\ key_of n k;
  ok_ids : forall k1 k2 e1 e2, folders m !! k1 = Some e1 -> folders m !! k2 = Some e2 ->
             entry_id e1 = entry_id e2 -> k1 = k2;
  ok_durations : durations_ok (checkpoint m)
}.

Lemma default_meta_ok : meta_ok default_meta.
Proof. by split. Qed.

(** ** Meta file names *)

Section Names.
Context {OS : Type} `{!ObjectStore OS} `{!ObjectStoreLaws OS}.

Definition good_epoch (e : Epoch) : Prop := wf e /\ 0 <= val e.

Lemma base32_alphabet v s : 0 <= v -> to_base32 v = Ok s -> forallb plain_char s = true.
Proof.
  intros Hv [_ ->]%to_base32_Ok; [|done]. apply forallb_forall. intros c (d & <- & Hd)%in_map_iff.
  assert (0 <= d < 32) as Hr.
  { pose proof (digits_ok 32 ltac:(lia) 8 v) as H. rewrite Forall_forall in H. apply H. by apply list_elem_of_In. }
  assert (Forall (fun c => plain_char c = true) ALPHABET) as H by (apply (bool_decide_unpack _); by vm_compute).
  rewrite Forall_lookup in H. eapply H. by apply digit_char_lookup.
Qed.

Lemma meta_path_eq e : good_epoch e -> meta_path e = META_PREFIX ++ as_base32 e ++ META_SUFFIX.
Proof.
  intros [Hwf Hv]. unfold meta_path. apply path_from_plain; [|by destruct (as_base32 e)..].
  rewrite !forallb_app. rewrite (base32_alphabet (val e) (as_base32 e)) by (done || by apply wf_base32). done.
Qed.

Lemma length_base32 e : good_epoch e -> length (as_base32 e) = 8%nat.
Proof. intros [Hwf Hv]. eapply length_to_base32; [exact Hv|by apply wf_base32]. Qed.

Lemma meta_path_cmp a b : good_epoch a -> good_epoch b ->
  bytes_cmp (meta_path a) (meta_path b) = Z.compare (val a) (val b).
Proof.
  intros Ha Hb. rewrite !meta_path_eq, bytes_cmp_app by done.
  rewrite bytes_cmp_app_len by by rewrite !length_base32. rewrite bytes_cmp_refl.
  destruct Ha as [Ha ?], Hb as [Hb ?]. unfold as_base32.
  rewrite (base32_cmp (val a) (val b) (base32 a) (base32 b)) by (done || by apply wf_base32). by destruct (Z.compare _ _).
Qed.

Lemma meta_path_inj a b : good_epoch a -> good_epoch b -> meta_path a = meta_path b -> a = b.
Proof.
  intros Ha Hb E. pose proof (meta_path_cmp a b Ha Hb) as H. rewrite E, bytes_cmp_refl in H.
  symmetry in H. apply Z.compare_eq in H. destruct Ha, Hb. by apply wf_eq_val.
Qed.

Lemma meta_path_root e : good_epoch e -> at_root (meta_path e).
Proof.
  intros He. rewrite meta_path_eq by done. destruct He as [Hwf Hv]. unfold at_root. rewrite !not_elem_of_app.
  split; [by apply (bool_decide_unpack _); vm_compute|]. split; [|by apply (bool_decide_unpack _); vm_compute].
  intros Hin. pose proof (to_base32_chars (val e) (as_base32 e) Hv (wf_base32 e Hwf)) as H.
  rewrite Forall_forall in H. by destruct (H _ Hin).
Qed.

Lemma meta_path_name e : good_epoch e -> is_meta_name (meta_path e) = true.
Proof.
  intros He. pose proof (meta_path_root e He) as Hr. unfold is_meta_name, filename.
  rewrite rsplit_once_notin by done. rewrite meta_path_eq in * by done.
  cbn [META_PREFIX lit app]. apply andb_true_iff. split.
  - apply (starts_with_app META_PREFIX).
  - unfold ends_with. destruct (strip_suffix _ _) eqn:E; [done|].
    enough (strip_suffix META_SUFFIX (META_PREFIX ++ as_base32 e ++ META_SUFFIX) <> None) by done.
    rewrite app_assoc. rewrite (proj2 (strip_suffix_Some _ _ _) eq_refl). done.
Qed.

(** The fold of [read_meta_unlocked] over names of epochs finds the largest. *)
Lemma pick_largest (ls : list bytes) (last : option bytes) :
  (forall l, l ∈ ls -> is_meta_name l = true -> exists e, good_epoch e /\ l = meta_path e) ->
  (forall l, last = Some l -> exists e, good_epoch e /\ l = meta_path e) ->
  match foldl pick last ls with
  | Some l => (l ∈ ls \/ last = Some l) /\ exists e, good_epoch e /\ l = meta_path e /\
      forall e', good_epoch e' -> meta_path e' ∈ ls \/ last = Some (meta_path e') -> val e' <= val e
  | None => last = None /\ forall e, good_epoch e -> meta_path e ∉ ls
  end.
Proof.
  revert last. induction ls as [|x ls IH]; intros last Hls Hlast; cbn [foldl].
  { destruct last as [l|]; [|split; [done|]; intros e _; apply not_elem_of_nil].
    split; [by right|]. destruct (Hlast l eq_refl) as (e & He & ->). exists e. split; [done|]. split; [done|].
    intros e' He' [[]%not_elem_of_nil|[= E]]. apply meta_path_inj in E; [|done..]. by subst. }
  assert (forall l, l ∈ ls -> is_meta_name l = true -> exists e, good_epoch e /\ l = meta_path e) as Hls'.
  { intros l Hl. apply Hls. by right. }
  assert (pick last x = if is_meta_name x then pick last x else last) as Hp.
  { unfold pick. by destruct (is_meta_name x). }
  rewrite Hp. destruct (is_meta_name x) eqn:Ex.
  - destruct (Hls x (list_elem_of_here _ _) Ex) as (ex & Hex & ->). 
    assert (exists e, good_epoch e /\ pick last (meta_path ex) = Some (meta_path e) /\
      (meta_path e = meta_path ex \/ last = Some (meta_path e)) /\ val ex <= val e /\
      forall e', good_epoch e' -> last = Some (meta_path e') -> val e' <= val e) as (e & He & -> & Hwhich & Hge & Hmax).
    { unfold pick. rewrite Ex. destruct last as [l|]; [|exists ex; split_and!; auto; done || lia].
      destruct (Hlast l eq_refl) as (el & Hel & ->). rewrite meta_path_cmp by done.
      destruct (Z.compare_spec (val el) (val ex)) as [E|E|E];
        [exists ex|exists ex|exists el]; (split; [done|]; split; [done|]; split; [auto|]; split; [lia|]);
        intros e' He' [= E']; apply meta_path_inj in E' as ->; done || lia. }
    specialize (IH (Some (meta_path e)) Hls' ltac:(intros l [= <-]; eauto)).
    destruct (foldl pick _ ls) as [l|]; [|by destruct IH].
    destruct IH as [Hin (e1 & He1 & -> & Hmax1)]. split.
    { destruct Hin as [?|E]; [left; by right|]. injection E as E. rewrite <- E.
      destruct Hwhich as [Ew|Ew]; [left; rewrite Ew; by left|by right]. }
    exists e1. split; [done|]. split; [done|]. assert (val e <= val e1) by (apply Hmax1; auto).
    intros e' He' [[E|?]%elem_of_cons|E]; [|by apply Hmax1; auto|].
    + apply meta_path_inj in E as ->; [lia|done..].
    + specialize (Hmax e' He' E). lia.
  - specialize (IH last Hls' Hlast). destruct (foldl pick last ls) as [l|].
    + destruct IH as [Hin (e & He & -> & Hmax)]. split; [destruct Hin; [left; by right|by right]|].
      exists e. split; [done|]. split; [done|]. intros e' He' [[E|?]%elem_of_cons|?]; [|by apply Hmax; auto..].
      rewrite <- E, meta_path_name in Ex by done. done.
    + destruct IH as [-> Hno]. split; [done|]. intros e He [E|?]%elem_of_cons; [|by apply (Hno e)].
      rewrite <- E, meta_path_name in Ex by done. done.
Qed.

End Names.

(** ** The registry as a projection of the meta *)

Lemma lm_insert_elem {A : Type} (k k0 : bytes) (a a0 : A) (l : list (bytes * A)) :
  (k, a) ∈ lm_insert k0 a0 l -> (k = k0 /\ a = a0) \/ (k, a) ∈ l.
Proof.
  induction l as [|[k' a'] l IH]; cbn [lm_insert].
  - intros [= -> ->]%list_elem_of_singleton. by left.
  - destruct (decide (k0 = k')) as [<-|Hne]; intros [E|H]%elem_of_cons.
    + injection E as -> ->. by left.
    + right. by right.
    + right. rewrite E. by left.
    + destruct (IH H); [by left|right; by right].
Qed.

Lemma lm_get_elem {A : Type} (k : bytes) (a : A) (l : list (bytes * A)) : lm_get k l = Some a -> (k, a) ∈ l.
Proof.
  induction l as [|[k' a'] l IH]; cbn [lm_get]; [done|]. destruct (decide (k = k')) as [<-|]; intros H.
  - injection H as ->. by left.
  - right. auto.
Qed.

Lemma lm_get_insert {A : Type} (k k0 : bytes) (a0 : A) (l : list (bytes * A)) :
  lm_get k (lm_insert k0 a0 l) = if decide (k = k0) then Some a0 else lm_get k l.
Proof.
  induction l as [|[k' a'] l IH]; cbn [lm_insert lm_get]; [done|].
  destruct (decide (k0 = k')) as [<-|Hne]; cbn [lm_get].
  - by destruct (decide (k = k0)).
  - rewrite IH. destruct (decide (k = k')) as [->|]; [|done]. by rewrite decide_False.
Qed.

(** An entry of the registry is an entry of the meta. *)
Lemma registry_elem (m : Meta) (id sk label : bytes) :
  (id, (sk, label)) ∈ registry (from_meta m) ->
  exists k, folders m !! k = Some (mkFolderEntry id label) /\ sk = folder_storage_key k.
Proof.
  unfold from_meta. cbn [registry].
  assert (forall l reg, (forall k e, (k, e) ∈ l -> folders m !! k = Some e) ->
    (id, (sk, label)) ∈ foldl (fun reg ke => lm_insert (entry_id (snd ke))
                          (folder_storage_key (fst ke), entry_label (snd ke)) reg) reg l ->
    (id, (sk, label)) ∈ reg \/
    exists k, folders m !! k = Some (mkFolderEntry id label) /\ sk = folder_storage_key k) as H.
  { intros l. induction l as [|[k e] l IH]; intros reg Hl; cbn [foldl]; [by left|].
    intros [Hin|?]%IH; [|by right|by intros k' e' ?; apply Hl; right]. cbn [fst snd] in Hin.
    apply lm_insert_elem in Hin as [[Hid Hsk]|?]; [|by left]. right. injection Hsk as -> ->.
    exists k. rewrite (Hl k e) by by left. destruct e; cbn in *. by subst. }
  intros [[]%not_elem_of_nil|?]%H; [done|]. intros k e. apply elem_of_iter.
Qed.

(** With distinct ids, the registry finds exactly the entries. *)
Lemma registry_get (m : Meta) (id sk label : bytes) : meta_ok m ->
  lm_get id (registry (from_meta m)) = Some (sk, label) <->
  exists k, folders m !! k = Some (mkFolderEntry id label) /\ sk = folder_storage_key k.
Proof.
  intros Hok. split; [intros H; by apply registry_elem, lm_get_elem|].
  intros (k & Hk & ->). unfold from_meta. cbn [registry].
  assert (forall l reg, (forall k' e, (k', e) ∈ l -> folders m !! k' = Some e) ->
    (k, mkFolderEntry id label) ∈ l \/ lm_get id reg = Some (folder_storage_key k, label) ->
    lm_get id (foldl (fun reg ke => lm_insert (entry_id (snd ke))
                          (folder_storage_key (fst ke), entry_label (snd ke)) reg) reg l) =
      Some (folder_storage_key k, label)) as H.
  { intros l. induction l as [|[k' e] l IH]; intros reg Hl Hin; cbn [foldl].
    { destruct Hin as [[]%not_elem_of_nil|?]; done. }
    assert (folders m !! k' = Some e) as Hk' by (apply Hl; by left).
    apply IH; [by intros k1 e1 ?; apply Hl; right|]. cbn [fst snd]. rewrite lm_get_insert.
    destruct (decide (id = entry_id e)) as [E|E].
    - right. assert (k' = k) as -> by (by eapply (ok_ids m Hok)). rewrite Hk in Hk'. by injection Hk' as <-.
    - destruct Hin as [[E'|?]%elem_of_cons|?]; [|by left|by right]. injection E' as <- <-. done. }
  apply H; [by intros ??; apply elem_of_iter|]. left. by apply elem_of_iter.
Qed.

Lemma registered_below (m : Meta) (id sk label : bytes) : meta_ok m ->
  (id, (sk, label)) ∈ registry (from_meta m) -> dir_below (next_folder_key m) sk.
Proof.
  intros Hok (k & Hk & ->)%registry_elem. destruct (ok_keys m Hok _ _ Hk) as (n & Hn & Hkey).
  by exists n, k.
Qed.

(** ** Updates keep the registry in order *)

Definition grows {A : Type} (f : Meta -> result Failure (Meta * A)) : Prop :=
  forall m m' x, meta_ok m -> f m = Ok (m', x) -> meta_ok m' /\ next_folder_key m <= next_folder_key m'.

Lemma find_entry_Some (m : Meta) (id k : bytes) (e : FolderEntry) :
  find_entry m id = Some (k, e) -> folders m !! k = Some e /\ entry_id e = id.
Proof.
  intros [Hin He]%List.find_some. apply list_elem_of_In, elem_of_iter in Hin.
  split; [done|]. by apply bool_decide_eq_true in He.
Qed.

Lemma find_entry_None (m : Meta) (id k : bytes) (e : FolderEntry) :
  find_entry m id = None -> folders m !! k = Some e -> entry_id e <> id.
Proof.
  intros H Hk%elem_of_iter%list_elem_of_In E.
  by apply (List.find_none _ _ H) in Hk as []%bool_decide_eq_false.
Qed.

Lemma add_folder_ok (m m' : Meta) (id label key : bytes) :
  meta_ok m -> (forall k e, folders m !! k = Some e -> entry_id e <> id) ->
  add_folder m id label = Ok (m', key) ->
  meta_ok m' /\ next_folder_key m' = next_folder_key m + 1 /\ key_of (next_folder_key m) key /\
  folders m' = <[ key := mkFolderEntry id label ]> (folders m) /\ folders m !! key = None.
Proof.
  intros Hok Hnew. unfold add_folder. destruct (folder_key (next_folder_key m)) as [k|] eqn:Ek; [|done].
  intros [= <- <-]. assert (key_of (next_folder_key m) k) as Hkey by (split; [apply Hok|done]).
  assert (folders m !! k = None) as Hnone.
  { destruct (folders m !! k) as [e|] eqn:E; [|done]. destruct (ok_keys m Hok _ _ E) as (n & Hn & Hk).
    pose proof (key_of_inj _ _ _ Hk Hkey). lia. }
  split; [|done]. destruct Hok as [H1 H2 H3 H4]. split; cbn.
  - lia.
  - intros k' e' [[<- <-]|[_ Hk']]%lookup_insert_Some; [exists (next_folder_key m); split; [lia|done]|].
    destruct (H2 _ _ Hk') as (n & ? & ?). exists n. split; [lia|done].
  - intros k1 k2 e1 e2 [[<- <-]|[_ Hk1]]%lookup_insert_Some [[<- <-]|[_ Hk2]]%lookup_insert_Some E; cbn in E.
    + done.
    + by destruct (Hnew _ _ Hk2).
    + by destruct (Hnew _ _ Hk1).
    + by eapply H3.
  - done.
Qed.

Lemma relabel_ok (m : Meta) (k : bytes) (e : FolderEntry) (label : bytes) :
  meta_ok m -> folders m !! k = Some e ->
  meta_ok (set_folders m (next_folder_key m) (<[ k := mkFolderEntry (entry_id e) label ]> (folders m))).
Proof.
  intros [H1 H2 H3 H4] Hk. split; cbn; [done| | |done].
  - intros k' e' [[<- _]|[_ Hk']]%lookup_insert_Some; eauto.
  - intros k1 k2 e1 e2 [[<- <-]|[_ Hk1]]%lookup_insert_Some [[<- <-]|[_ Hk2]]%lookup_insert_Some E;
      [done|by eapply H3..].
Qed.

Lemma register_grows id label : grows (register_in id label).
Proof.
  intros m m' sk Hok. unfold register_in. destruct (has_folder m id) eqn:Hf; [done|].
  destruct (add_folder m id label) as [[m1 k]|] eqn:E; [|done]. intros [= <- <-].
  apply add_folder_ok in E as (? & -> & _); [split; [done|lia]|done|].
  intros k' e Hk' He. rewrite (proj2 (has_folder_true m id)) in Hf; [done|eauto].
Qed.

Lemma ensure_grows l : grows (ensure_in l).
Proof.
  induction l as [|[id label] l IH]; intros m m' created Hok; cbn [ensure_in]; [intros [= <- _]; split; [done|lia]|].
  destruct (find_entry m id) as [[k e]|] eqn:Ef.
  - destruct (ensure_in l _) as [[m1 c]|] eqn:El; [|done]. intros [= <- _].
    apply find_entry_Some in Ef as [Hk _]. apply (IH _ _ _ (relabel_ok _ _ _ _ Hok Hk)) in El as [? H].
    split; [done|exact H].
  - destruct (add_folder m id label) as [[m1 k]|] eqn:Ea; [|done]. cbn [rbind].
    destruct (ensure_in l m1) as [[m2 c]|] eqn:El; [|done]. intros [= <- _].
    apply add_folder_ok in Ea as (Hok1 & Hn & _); [|done|intros; by eapply find_entry_None].
    apply (IH _ _ _ Hok1) in El as [? ?]. split; [done|lia].
Qed.

Lemma remove_grows id : grows (remove_in id).
Proof.
  intros m m' [] [H1 H2 H3 H4] [= <-]. destruct (find_entry m id) as [[k e]|]; [|split; [done|lia]].
  split; [split; cbn; [done| | |done]|cbn; lia].
  - intros k' e' [_ ?]%lookup_delete_Some. eauto.
  - intros k1 k2 e1 e2 [_ ?]%lookup_delete_Some [_ ?]%lookup_delete_Some. eauto.
Qed.

Lemma identity_grows i : grows (identity_in i).
Proof. intros m m' [] [H1 H2 H3 H4] [= <-]. split; [by split|cbn; lia]. Qed.

Lemma default_checkpoints_grows : grows default_checkpoints_in.
Proof.
  intros m m' [] [H1 H2 H3 H4] [= <-]. case_bool_decide; [|split; [done|lia]].
  split; [split; cbn; try done|cbn; lia]. intros d s. unfold default_checkpoints.
  intros [[<- <-]|[_ [[<- <-]|[_ []%lookup_empty_Some]]%lookup_insert_Some]]%lookup_insert_Some;
    unfold is_duration, SECOND; cbn [ttl]; lia.
Qed.

Lemma schedule_grows interval schedule :
  is_duration interval -> (forall s, schedule = Some s -> is_duration (ttl s)) ->
  grows (schedule_in interval schedule).
Proof.
  intros Hi Hs m m' [] [H1 H2 H3 H4] [= <-]. split; [split; cbn; try done|cbn; lia].
  intros d s. destruct schedule as [s0|].
  - intros [[<- <-]|[_ ?]]%lookup_insert_Some; [auto|by apply H4].
  - intros [_ ?]%lookup_delete_Some. by apply H4.
Qed.

(** ** The invariant *)

Section Invariant.
Context {OS Db : Type} `{!ObjectStore OS} `{!ObjectStoreLaws OS} `{!SlateDb Db} `{!OpenDb OS Db} `{!OpenDbLaws OS Db}.
Context {SC : StoreCodecs} {HF SF : Type} `{!Bloom bytes HF} `{!Bloom Z SF}.
Context {HT : HumanTime} {HTL : HumanTimeLaws} {TM : Toml} {TML : TomlLaws} {B64 : Base64} (sha256 : bytes -> bytes).
Abbreviation Storage := (SlateStorage (OS := OS) (Db := Db) (HF := HF) (SF := SF)).
Abbreviation Act := (Activated (Db := Db) (HF := HF) (SF := SF)).
Abbreviation M := (SE (SlateStorage (OS := OS) (Db := Db) (HF := HF) (SF := SF)) Failure).

(** The meta file of an epoch is there, and none of a later one. *)
Definition present (o : OS) (e : Epoch) : Prop := is_Some (os_objects o !! meta_path e).
Definition newest (o : OS) (e : Epoch) : Prop :=
  good_epoch e /\ present o e /\ forall e', good_epoch e' -> present o e' -> val e' <= val e.

(** A file that an activation can take over: its registry is in order, and its
    next key is not below [n]. *)
Definition takes_over (n : Z) (b : bytes) : Prop :=
  utf8_valid b = true /\ exists m, parse_meta b = Some m /\ meta_ok m /\
    format_version m <= SUPPORTED_FORMAT_VERSION /\ n <= next_folder_key m.

(** The meta that a reader finds. *)
Definition holds_meta (o : OS) (m : Meta) : Prop :=
  (exists e b, newest o e /\ os_objects o !! meta_path e = Some b /\ utf8_valid b = true /\ parse_meta b = Some m) \/
  ((forall e, good_epoch e -> ~ present o e) /\ m = default_meta).

Definition epoch_names (o : OS) : Prop :=
  forall l, at_root l -> is_meta_name l = true -> is_Some (os_objects o !! l) ->
    exists e, good_epoch e /\ l = meta_path e.

Lemma newest_unique o e1 e2 : newest o e1 -> newest o e2 -> e1 = e2.
Proof.
  intros ([H1 ?] & Hp1 & Hm1) ([H2 ?] & Hp2 & Hm2). apply wf_eq_val; [done..|].
  assert (val e2 <= val e1) by (apply Hm1; [by split|done]).
  assert (val e1 <= val e2) by (apply Hm2; [by split|done]). lia.
Qed.

Lemma holds_meta_unique o m1 m2 : holds_meta o m1 -> holds_meta o m2 -> m1 = m2.
Proof.
  intros [(e1 & b1 & H1 & Hb1 & _ & Hp1)|[Hno ->]] [(e2 & b2 & H2 & Hb2 & _ & Hp2)|[Hno' ->]]; [| | |done].
  - rewrite (newest_unique _ _ _ H2 H1), Hb1 in Hb2. injection Hb2 as <-. congruence.
  - by destruct H1 as (He1 & ? & _), (Hno' e1).
  - by destruct H2 as (He2 & ? & _), (Hno e2).
Qed.

(** The meta as it is written. *)
Definition current_format (m : Meta) : Meta := set_format_version m SUPPORTED_FORMAT_VERSION.

(** All meta files say the same, up to the number of the format. *)
Definition files_agree (o : OS) (m : Meta) : Prop :=
  forall e b, good_epoch e -> os_objects o !! meta_path e = Some b ->
    utf8_valid b = true /\ exists m', parse_meta b = Some m' /\ current_format m' = current_format m.

Definition only (o : OS) (e : Epoch) : Prop := forall e', good_epoch e' -> present o e' -> e' = e.

Record disk_ok (o : OS) (n : Z) : Prop := mkDiskOk {
  disk_names : epoch_names o;
  disk_files : forall e b, good_epoch e -> os_objects o !! meta_path e = Some b -> takes_over n b;
  disk_agree : forall m, holds_meta o m -> files_agree o m;
  disk_empty : (forall e, good_epoch e -> ~ present o e) -> n <= 0
}.

Record session_ok (a : Act) : Prop := mkSessionOk {
  session_epoch : good_epoch (epoch a);
  session_state : state a = from_meta (st_meta (state a));
  session_meta : meta_ok (st_meta (state a))
}.

(** The keys of the directories opened so far are below a number that neither
    the files nor the session have forgotten; a session has the only file. *)
Definition Inv (s : Storage) : Prop :=
  exists n, disk_ok (object_store s) n /\ Forall (dir_below n) (opened s) /\
  forall a, act s = Some a -> session_ok a /\ next_folder_key (st_meta (state a)) = n /\ only (object_store s) (epoch a).

Definition same_root (o o' : OS) : Prop := forall l, at_root l -> os_objects o' !! l = os_objects o !! l.

Lemma same_root_present o o' e : same_root o o' -> good_epoch e -> present o' e <-> present o e.
Proof. intros H He. unfold present. by rewrite H by by apply meta_path_root. Qed.

Lemma same_root_newest o o' e : same_root o o' -> newest o' e <-> newest o e.
Proof.
  intros H. unfold newest. split; intros (He & Hp & Hm); (split; [done|]); (split; [by apply (same_root_present o o')|]);
    intros e' He' Hp'; apply Hm; [done|by apply (same_root_present o o')|done|by apply (same_root_present o o')].
Qed.

Lemma same_root_holds o o' m : same_root o o' -> holds_meta o' m <-> holds_meta o m.
Proof.
  intros H. unfold holds_meta. setoid_rewrite (same_root_newest o o'); [|done].
  assert ((forall e, good_epoch e -> ~ present o' e) <-> (forall e, good_epoch e -> ~ present o e)) as ->.
  { split; intros Hno e He Hp; apply (Hno e He); by apply (same_root_present o o'). }
  assert (forall e b, newest o e -> os_objects o' !! meta_path e = Some b <-> os_objects o !! meta_path e = Some b) as Hb.
  { intros e b (He & _). by rewrite (H (meta_path e)) by by apply meta_path_root. }
  split; (intros [(e & b & Hn & Ho & ?)|?]; [left|by right]); exists e, b; (split; [done|]); (split; [by apply Hb|done]).
Qed.

Lemma disk_ok_root o o' n : same_root o o' -> disk_ok o n -> disk_ok o' n.
Proof.
  intros Hr [H1 H2 H3 H4]. split.
  - intros l Hl Hn. rewrite Hr by done. by apply H1.
  - intros e b He Hb. rewrite Hr in Hb by by apply meta_path_root. by apply (H2 e).
  - intros m Hm%(same_root_holds o o'); [|done]. intros e b He Hb. rewrite Hr in Hb by by apply meta_path_root. by eapply H3.
  - intros Hno. apply H4. intros e He Hp. apply (Hno e He). by apply (same_root_present o o').
Qed.

Lemma only_root o o' e : same_root o o' -> only o e -> only o' e.
Proof. intros Hr H e' He' Hp'. apply H; [done|]. by apply (same_root_present o o'). Qed.

Lemma same_objects_root o o' : os_objects o' = os_objects o -> same_root o o'.
Proof. intros E l _. by rewrite E. Qed.

Lemma Inv_os s o : same_root (object_store s) o -> Inv s -> Inv (set_os s o).
Proof.
  intros Hr (n & Hd & Hdirs & Hs). exists n. split; [by eapply disk_ok_root|]. split; [done|].
  intros a Ha. destruct (Hs a Ha) as (? & ? & ?). split; [done|]. split; [done|]. by eapply only_root.
Qed.

(** One file: it is the newest. *)
Lemma only_newest o e : good_epoch e -> present o e -> only o e -> newest o e.
Proof. intros He Hp Ho. split; [done|]. split; [done|]. intros e' He' Hp'. rewrite (Ho e' He' Hp'). lia. Qed.

Lemma only_agree o e m : only o e -> holds_meta o m -> files_agree o m.
Proof.
  intros Ho Hm e' b He' Hb. assert (present o e') as Hp by by eexists.
  destruct Hm as [(e1 & b1 & (He1 & Hp1 & _) & Hb1 & Hu & Hparse)|[Hno _]]; [|by destruct (Hno e')].
  rewrite (Ho e' He' Hp) in *. rewrite (Ho e1 He1 Hp1), Hb in Hb1. injection Hb1 as <-. eauto.
Qed.

(** The only file is written. *)
Lemma disk_ok_put o o' n n' e b : good_epoch e -> disk_ok o n -> only o e ->
  os_objects o' = <[ meta_path e := b ]> (os_objects o) -> takes_over n' b -> disk_ok o' n' /\ only o' e.
Proof.
  intros He [H1 H2 H3 H4] Honly Ho Hb.
  assert (only o' e) as Honly'.
  { intros e' He' [b' Hp]. rewrite Ho in Hp. apply lookup_insert_Some in Hp as [[E _]|[_ Hp]]; [by apply meta_path_inj in E|].
    apply Honly; [done|by eexists]. }
  split; [|done]. split.
  - intros l Hl Hn. rewrite Ho, lookup_insert_is_Some'. intros [<-|?]; [by exists e|auto].
  - intros e' b' He' Hb'. assert (e' = e) as -> by (apply Honly'; [done|]; by eexists).
    rewrite Ho, lookup_insert_eq in Hb'. by injection Hb' as <-.
  - intros m. by apply only_agree with e.
  - intros Hno. destruct (Hno e He). unfold present. rewrite Ho, lookup_insert_eq. by eexists.
Qed.

(** A file that says what the others say is added. *)
Lemma disk_ok_add o o' n e b m : good_epoch e -> disk_ok o n -> holds_meta o m -> meta_ok m ->
  os_objects o' = <[ meta_path e := b ]> (os_objects o) -> takes_over n b -> utf8_valid b = true ->
  parse_meta b = Some (current_format m) -> disk_ok o' n /\ files_agree o' m.
Proof.
  intros He [H1 H2 H3 H4] Hm Hok Ho Hb Hu Hp.
  assert (files_agree o' m) as Hagree.
  { intros e' b' He'. rewrite Ho. intros [[_ <-]|[_ Hb']]%lookup_insert_Some; [|by eapply H3]. by split; [|exists (current_format m)]. }
  split; [|done]. split.
  - intros l Hl Hn. rewrite Ho, lookup_insert_is_Some'. intros [<-|?]; [by exists e|auto].
  - intros e' b' He'. rewrite Ho. intros [[_ <-]|[_ Hb']]%lookup_insert_Some; [done|by eapply H2].
  - intros m' [(e1 & b1 & (He1 & _) & Hb1 & _ & Hp1)|[Hno _]] e' b' He' Hb'.
    + destruct (Hagree e1 b1 He1 Hb1) as (_ & m1 & Hpm1 & Hc1). rewrite Hp1 in Hpm1. injection Hpm1 as <-.
      destruct (Hagree e' b' He' Hb') as (? & m2 & ? & ?). split; [done|]. exists m2. split; [done|congruence].
    + destruct (Hno e He). unfold present. rewrite Ho, lookup_insert_eq. by eexists.
  - intros Hno. destruct (Hno e He). unfold present. rewrite Ho, lookup_insert_eq. by eexists.
Qed.

(** Objects are deleted while a file stays. *)
Definition fewer (o o' : OS) : Prop :=
  forall l, os_objects o' !! l = None \/ os_objects o' !! l = os_objects o !! l.

Lemma fewer_lookup o o' l b : fewer o o' -> os_objects o' !! l = Some b -> os_objects o !! l = Some b.
Proof. intros H Hb. destruct (H l) as [E|E]; rewrite E in Hb; done. Qed.

Lemma fewer_present o o' e : fewer o o' -> present o' e -> present o e.
Proof. intros H [b Hb]. exists b. by eapply fewer_lookup. Qed.

Lemma files_agree_fewer o o' m : fewer o o' -> files_agree o m -> files_agree o' m.
Proof. intros Hf H e b He Hb. eapply H; [done|by eapply fewer_lookup]. Qed.

Lemma disk_ok_fewer o o' n e m : good_epoch e -> disk_ok o n -> files_agree o m -> fewer o o' -> present o' e -> disk_ok o' n.
Proof.
  intros He [H1 H2 H3 H4] Hag Hf Hp. split.
  - intros l Hl Hn [b Hb]. apply H1; [done|done|]. exists b. by eapply fewer_lookup.
  - intros e' b He' Hb. eapply H2; [done|by eapply fewer_lookup].
  - intros m' [(e1 & b1 & (He1 & _) & Hb1 & _ & Hp1)|[Hno _]]; [|by destruct (Hno e)].
    destruct (Hag e1 b1) as (_ & m1 & Hpm1 & Hc1); [done|by eapply fewer_lookup|]. rewrite Hp1 in Hpm1. injection Hpm1 as <-.
    intros e' b' He' Hb'. destruct (Hag e' b') as (? & m2 & ? & ?); [done|by eapply fewer_lookup|].
    split; [done|]. exists m2. split; [done|congruence].
  - intros Hno. by destruct (Hno e He).
Qed.

(** A request that leaves the root objects alone. *)
Lemma wp_on_os {A E : Type} (msg : string) (m : SE OS E A) (Q : Storage -> result Failure A -> Prop) s :
  (forall o, same_root o (fst (m o))) -> Inv s ->
  (forall o r, m (object_store s) = (o, r) -> Inv (set_os s o) ->
     Q (set_os s o) (map_err (fun _ => Failed (StorageError.TransientIo msg)) r)) ->
  wp (on_os msg m) Q s.
Proof.
  intros Hm HI HQ. unfold wp, on_os. specialize (Hm (object_store s)).
  destruct (m (object_store s)) as [o r] eqn:Em. cbn [fst snd] in *. apply HQ; [done|]. by apply Inv_os.
Qed.

Lemma list_root_same o : same_root o (fst (os_list_root o)).
Proof. pose proof (list_root_law o) as H. destruct (os_list_root o). apply same_objects_root, H. Qed.

Lemma get_same l o : same_root o (fst (os_get l o)).
Proof. pose proof (get_law l o) as H. destruct (os_get l o). apply same_objects_root, H. Qed.

Lemma open_same sk o : same_root o (fst (open_db (Db := Db) sk o)).
Proof.
  intros l Hl. apply open_db_law. intros [r ->]. apply Hl. rewrite !elem_of_app. right. left. by left.
Qed.

(** *** Writing the meta *)

Lemma takes_over_less n n' b : n' <= n -> takes_over n b -> takes_over n' b.
Proof. intros Hle (? & m & ? & ? & ? & ?). split; [done|]. exists m. split_and!; [done..|lia]. Qed.

Lemma disk_ok_less o n n' : n' <= n -> disk_ok o n -> disk_ok o n'.
Proof.
  intros Hle [H1 H2 H3 H4]. split; [done| |done|].
  - intros e b He Hb. eapply takes_over_less; [done|by eapply H2].
  - intros Hno. specialize (H4 Hno). lia.
Qed.

Lemma printed_takes_over (m : Meta) (b : bytes) :
  meta_ok m -> print_meta (current_format m) = Some b ->
  takes_over (next_folder_key m) b /\ utf8_valid b = true /\ parse_meta b = Some (current_format m).
Proof.
  intros Hok Hp. apply parse_print in Hp as [? ?]; [|by apply Hok]. split; [|done]. split; [done|].
  eexists. split; [done|]. split; [by destruct Hok|done].
Qed.

(** After the write, the only file covers the keys of the new meta (if the
    request succeeded) and of the old one (if it did not). *)
Lemma wp_write_meta (a : Act) (m : Meta) (Q : Storage -> result Failure unit -> Prop) n s :
  disk_ok (object_store s) n -> only (object_store s) (epoch a) -> good_epoch (epoch a) -> meta_ok m ->
  n <= next_folder_key m ->
  (forall o r, disk_ok o (if is_ok r then next_folder_key m else n) -> only o (epoch a) -> Q (set_os s o) r) ->
  wp (write_meta_to_disk a m) Q s.
Proof.
  intros Hd Hon He Hok Hle HQ. unfold write_meta_to_disk. fold (current_format m).
  assert (set_os s (object_store s) = s) as Hself by by destruct s.
  destruct (print_meta (current_format m)) as [b|] eqn:Hp; [|apply wp_err; rewrite <- Hself; by apply HQ].
  unfold wp, on_os. pose proof (put_law (meta_path (epoch a)) b (object_store s)) as Hput.
  destruct (os_put _ b (object_store s)) as [o r]. cbn [fst snd]. destruct Hput as [Hput _].
  destruct (printed_takes_over m b Hok Hp) as [Ht _]. destruct Hput as [Ho|[Ho Hr]].
  - destruct (disk_ok_put (object_store s) o n (next_folder_key m) (epoch a) b) as [Hd' Hon']; [done..|].
    apply HQ; [|done]. destruct r; [done|]. by eapply disk_ok_less.
  - pose proof (same_objects_root _ _ Ho) as Hroot. apply HQ; [|by eapply only_root]. destruct r; [done|]. by eapply disk_ok_root.
Qed.

Lemma wp_activated (Q : Storage -> result Failure Act -> Prop) (s : Storage) :
  (forall a, act s = Some a -> Q s (Ok a)) -> (forall e, act s = None -> Q s (Err e)) -> wp activated Q s.
Proof. intros H1 H2. unfold wp, activated. cbn. destruct (act s); cbn; auto. Qed.

(** An update of the meta file. *)
Lemma wp_modify_meta {A : Type} (f : Meta -> result Failure (Meta * A)) (Q : Storage -> result Failure A -> Prop) s :
  grows f -> Inv s ->
  (forall s' r, Inv s' -> opened s' = opened s ->
     match r with
     | Ok x => exists a m', act s = Some a /\ f (st_meta (state a)) = Ok (m', x) /\
                            act s' = Some (set_state a (from_meta m'))
     | Err _ => act s' = act s
     end -> Q s' r) ->
  wp (modify_meta f) Q s.
Proof.
  intros Hf HI HQ. unfold modify_meta. apply wp_bind, wp_activated; [|intros e Ha; by apply HQ].
  intros a Ha. destruct HI as (n & Hd & Hdirs & Hs). destruct (Hs a Ha) as (Hses & Hn & Hon).
  apply wp_bind, wp_lift. destruct (f (st_meta (state a))) as [[m' x]|e] eqn:Ef; [|by apply HQ; [exists n|..]].
  destruct (Hf _ _ _ (session_meta _ Hses) Ef) as [Hok Hle]. rewrite Hn in *.
  apply wp_bind. apply (wp_write_meta a m' _ n); [done|done|apply Hses|done|done|].
  intros o [[]|e] Hd' Hon'; cbn [is_ok map_err] in *.
  - apply wp_bind, wp_modify, wp_ret. cbn [set_os act]. rewrite Ha. apply HQ; [|done|by exists a, m'].
    exists (next_folder_key m'). split; [exact Hd'|]. split.
    + eapply Forall_impl; [exact Hdirs|]. intros sk. by apply dir_below_mono.
    + cbn. intros a' [= <-]. split; [|by split]. split; cbn; [apply Hses|done|done].
  - apply HQ; [|done|done]. exists n. split; [exact Hd'|]. split; [done|]. cbn. rewrite Ha. by intros a' [= <-].
Qed.

(** *** Operations that leave the meta alone *)

(** The epoch and the meta of the session. *)
Definition session (s : Storage) : option (Epoch * MetaState) :=
  match act s with Some a => Some (epoch a, state a) | None => None end.

Abbreviation View := (option (Epoch * MetaState)).

(** [m] keeps the invariant and the session when [P] holds of it; [R] relates
    the session and a result. *)
Definition keeps {A : Type} (P : View -> Prop) (m : M A) (R : View -> A -> Prop) : Prop :=
  forall s, Inv s -> P (session s) ->
    wp m (fun s' r => Inv s' /\ session s' = session s /\ forall x, r = Ok x -> R (session s) x) s.

Lemma keeps_bind {A B : Type} P (m : M A) (k : A -> M B) R R' :
  keeps P m R -> (forall x, keeps (fun v => P v /\ R v x) (k x) R') -> keeps P (se_bind m k) R'.
Proof.
  intros Hm Hk s HI HP. apply wp_bind. eapply wp_mono; [|by apply Hm].
  intros s1 [x|e] (HI1 & Hc1 & HR); [|done].
  eapply wp_mono; [|apply (Hk x); [done|rewrite Hc1; auto]]. cbn. rewrite Hc1.
  intros s2 r (HI2 & Hc2 & HR2). by rewrite Hc2.
Qed.

Lemma keeps_pure {A : Type} P (r : result Failure A) (R : View -> A -> Prop) :
  (forall x v, r = Ok x -> P v -> R v x) -> keeps P (se_lift r) R.
Proof. intros H s HI HP. apply wp_lift. split; [done|]. split; [done|]. intros x ->. by apply H. Qed.

Lemma keeps_ret {A : Type} P (x : A) : keeps P (se_ret x) (fun _ _ => True).
Proof. by apply (keeps_pure P (Ok x)). Qed.

Lemma keeps_err {A : Type} P (e : Failure) (R : View -> A -> Prop) : keeps P (se_err e) R.
Proof. by apply (keeps_pure P (Err e)). Qed.

Lemma keeps_weaken {A : Type} (P P' : View -> Prop) (m : M A) R R' :
  (forall v, P v -> P' v) -> (forall v x, P v -> R v x -> R' v x) -> keeps P' m R -> keeps P m R'.
Proof.
  intros HP HR Hm s HI H. eapply wp_mono; [|apply Hm; [done|auto]].
  intros s' r (? & ? & HR1). split; [done|]. split; [done|]. intros x ->. apply HR; auto.
Qed.

Lemma keeps_os {A E : Type} P (msg : string) (m : SE OS E A) :
  (forall o, same_root o (fst (m o))) -> keeps P (on_os msg m) (fun _ _ => True).
Proof. intros Hm s HI HP. eapply wp_on_os; [done|done|]. intros o r _ HI'. by split. Qed.

Lemma keeps_activated P :
  keeps P activated (fun v (a : Act) => v = Some (epoch a, state a)).
Proof.
  intros s HI HP. apply wp_activated; [|done]. intros a Ha. split; [done|]. split; [done|].
  intros x [= <-]. unfold session. by rewrite Ha.
Qed.

Lemma keeps_change P (f : Act -> Act) :
  (forall a, epoch (f a) = epoch a /\ state (f a) = state a) -> keeps P (change f) (fun _ _ => True).
Proof.
  intros Hf s HI HP. apply wp_modify. destruct HI as (n & Hd & Hdirs & Hs). unfold session, Inv. cbn.
  destruct (act s) as [a|] eqn:Ha; [|by split; [exists n|]].
  destruct (Hf a) as [He Hst]. destruct (Hs a eq_refl) as ([H1 H2 H3] & Hn & Hon).
  split; [|by rewrite He, Hst]. exists n. split; [done|]. split; [done|]. intros a' [= <-]. rewrite He, Hst.
  split; [|done]. split; rewrite ?He, ?Hst; done.
Qed.

Lemma keeps_lift {A : Type} P (r : result StorageError.t A) : keeps P (lift r) (fun _ _ => True).
Proof. by apply keeps_pure. Qed.

Lemma keeps_get P : keeps P se_get (fun _ _ => True).
Proof. intros s HI HP. apply wp_get. by split. Qed.

Lemma keeps_shared_cache P : keeps P (get_shared_db_cache sha256) (fun _ _ => True).
Proof.
  eapply keeps_bind; [apply keeps_activated|]. intros a. destruct (db_cache a); [apply keeps_ret|].
  eapply keeps_bind; [|intros dir; by apply keeps_change].
  eapply keeps_bind; [apply keeps_get|]. intros s. destruct (cache_provider s); [|apply keeps_ret].
  eapply keeps_bind; [|intros [i|]; [apply keeps_ret|apply keeps_err]].
  eapply keeps_bind; [apply keeps_activated|]. intros a'. apply keeps_lift.
Qed.

(** A directory below the next key of the session. *)
Definition below_next (sk : bytes) (v : View) : Prop :=
  forall e st, v = Some (e, st) -> dir_below (next_folder_key (st_meta st)) sk.

Lemma keeps_open_store sk :
  keeps (fun v => below_next sk v /\ is_Some v) (open_folder_store sha256 sk) (fun _ _ => True).
Proof.
  eapply keeps_bind; [apply keeps_shared_cache|]. intros ?.
  eapply (keeps_bind _ _ _ (fun _ _ => True)).
  - intros s (n & Hd & Hdirs & Hs) [[Hb Hl] _]. apply wp_modify. split; [|by split]. exists n.
    split; [done|]. split; [|done]. constructor; [|done]. unfold session in Hb, Hl. cbn.
    destruct (act s) as [a|]; [|by destruct Hl]. destruct (Hs a eq_refl) as (_ & <- & _). by eapply Hb.
  - intros ?. eapply keeps_bind; [apply keeps_os, open_same|]. intros d. apply keeps_lift.
Qed.

Lemma keeps_store_for_folder sk : keeps (below_next sk) (store_for_folder sha256 sk) (fun _ _ => True).
Proof.
  eapply keeps_bind; [apply keeps_activated|]. intros a. destruct (stores a !! sk); [apply keeps_ret|].
  eapply keeps_bind; [|intros st; by apply keeps_change].
  eapply keeps_weaken; [| |apply keeps_open_store]; [|done]. cbn. intros v [Hb ->]. split; [done|by eexists].
Qed.

Lemma keeps_on_store {A : Type} sk (m : SE (FolderStore Db HF SF) StorageError.t A) :
  keeps (below_next sk) (on_store sha256 sk m) (fun _ _ => True).
Proof.
  eapply keeps_bind; [apply keeps_store_for_folder|]. intros ?.
  eapply keeps_bind; [apply keeps_activated|]. intros a. destruct (stores a !! sk) as [st|]; [|apply keeps_err].
  destruct (m st) as [st' r]. eapply keeps_bind; [by apply keeps_change|]. intros ?. apply keeps_lift.
Qed.

(** What the registry answers is below the next key: the state of a session is
    the projection of its meta. *)
Lemma keeps_session {A : Type} P (m : M A) R :
  keeps (fun v => P v /\ forall e st, v = Some (e, st) -> st = from_meta (st_meta st) /\ meta_ok (st_meta st)) m R ->
  keeps P m R.
Proof.
  intros Hm s HI HP. apply Hm; [done|]. split; [done|]. intros e st. unfold session.
  destruct HI as (n & _ & _ & Hs). destruct (act s) as [a|]; [|done]. intros [= <- <-].
  by destruct (Hs a eq_refl) as ([] & _).
Qed.

Lemma keeps_resolve P id : keeps P (resolve_folder id) (fun v x => below_next (fst x) v).
Proof.
  apply keeps_session. eapply keeps_bind; [apply keeps_activated|]. intros a. apply keeps_pure.
  intros [sk label] v Hget [[_ Hst] ->] e st [= <- <-]. destruct (Hst _ _ eq_refl) as [Est Hok].
  destruct (lm_get id _) as [x|] eqn:E; [|done]. injection Hget as ->.
  apply lm_get_elem in E. rewrite Est in E. by apply registered_below in E.
Qed.

Lemma keeps_list_folders P :
  keeps P list_folders (fun v l => Forall (fun x => below_next (snd x) v) l).
Proof.
  apply keeps_session. eapply keeps_bind; [apply keeps_activated|]. intros a. apply (keeps_pure _ (Ok _)).
  intros l v [= <-] [[_ Hst] ->]. apply Forall_forall. intros x.
  rewrite merge_sort_Permutation, list_elem_of_fmap. intros ([id [sk label]] & -> & Hin) e st Ev. injection Ev as <- <-.
  destruct (Hst _ _ eq_refl) as [Est Hok]. rewrite Est in Hin. by apply registered_below in Hin.
Qed.

(** *** Activation *)

Lemma present_objects o o' e : os_objects o' = os_objects o -> present o' e <-> present o e.
Proof. intros E. unfold present. by rewrite E. Qed.

Lemma newest_objects o o' e : os_objects o' = os_objects o -> newest o' e <-> newest o e.
Proof. intros E. unfold newest, present. by rewrite E. Qed.

(** Reading finds the newest file. *)
Lemma wp_read_meta (s : Storage) : epoch_names (object_store s) ->
  wp read_meta_unlocked (fun s' r => exists o, s' = set_os s o /\ os_objects o = os_objects (object_store s) /\
    (forall m, r = Ok m -> holds_meta (object_store s) m) /\
    (os_healthy (object_store s) -> os_healthy o /\ forall m, holds_meta (object_store s) m -> r = Ok m)) s.
Proof.
  intros Hnames. unfold read_meta_unlocked. apply wp_bind. unfold wp at 1, on_os.
  pose proof (list_root_law (object_store s)) as Hl. destruct (os_list_root (object_store s)) as [o r].
  destruct Hl as (Ho & Hh & Hls). cbn [fst snd]. destruct r as [ls|e]; cbn [map_err].
  2: { exists o. split; [done|]. split; [done|]. split; [done|]. intros [_ ?]%Hh. done. }
  destruct (Hls ls eq_refl) as [_ Hin].
  assert (forall l, l ∈ ls -> is_meta_name l = true -> exists e, good_epoch e /\ l = meta_path e) as Hall.
  { intros l Hl Hn. apply Hnames; [by apply Hin|done|by apply Hin]. }
  pose proof (pick_largest ls None Hall ltac:(done)) as Hpick.
  destruct (foldl pick None ls) as [l|].
  - destruct Hpick as [[Hl|?] (e & He & -> & Hmax)]; [|done].
    apply Hin in Hl as [Hroot [b Hb]].
    assert (newest (object_store s) e) as Hnew.
    { split; [done|]. split; [by eexists|]. intros e' He' Hp. apply Hmax; [done|]. left. apply Hin.
      split; [by apply meta_path_root|done]. }
    unfold wp, read_meta_at. cbn [set_os object_store].
    pose proof (get_law (meta_path e) o) as Hget. destruct (os_get (meta_path e) o) as [o2 r].
    destruct Hget as (Ho2 & Hok & Hnf & Hh2). rewrite Ho in *.
    assert (forall m, holds_meta (object_store s) m -> utf8_valid b = true /\ parse_meta b = Some m) as Hholds.
    { intros m [(e' & b' & Hn' & Hb' & ? & ?)|[Hno _]]; [|by destruct (Hno e He); eexists].
      rewrite (newest_unique _ _ _ Hn' Hnew) in Hb'. rewrite Hb in Hb'. by injection Hb' as <-. }
    destruct r as [[text|er]|[]]; cbn [fst snd parse_meta_result].
    + rewrite (Hok text eq_refl) in Hb. injection Hb as ->.
      assert (os_healthy (object_store s) -> os_healthy o2) as Hhealth by (intros [H _]%Hh; by apply Hh2).
      unfold parse_meta_result. destruct (utf8_valid b) eqn:Eu.
      2: { exists o2. split; [done|]. split; [congruence|]. split; [done|]. intros H. split; [auto|].
           intros m Hm. apply Hholds in Hm as [? _]. congruence. }
      destruct (parse_meta b) as [m|] eqn:Ep.
      2: { exists o2. split; [done|]. split; [congruence|]. split; [done|]. intros H. split; [auto|].
           intros m Hm. apply Hholds in Hm as [_ ?]. congruence. }
      exists o2. split; [done|]. split; [congruence|]. split.
      * intros m' [= <-]. left. exists e, b. rewrite <- (Hok b eq_refl). done.
      * intros H. split; [auto|]. intros m' [_ [= <-]]%Hholds. done.
    + exists o2. split; [done|]. split; [congruence|]. split; [done|]. intros [H _]%Hh. apply Hh2 in H as [_ H].
      by rewrite Hb in H.
    + by rewrite Hnf in Hb.
    + exists o2. split; [done|]. split; [congruence|]. split; [done|]. intros [H _]%Hh. apply Hh2 in H as [_ H].
      by rewrite Hb in H.
  - destruct Hpick as [_ Hno].
    assert (forall e, good_epoch e -> ~ present (object_store s) e) as Habs.
    { intros e He Hp. apply (Hno e He), Hin. split; [by apply meta_path_root|done]. }
    apply wp_ret. exists o. split; [done|]. split; [done|]. split; [intros m [= <-]; by right|].
    intros [H _]%Hh. split; [done|]. intros m [(e & b & (He & Hp & _) & _)|[_ ->]]; [|done]. by destruct (Habs e He).
Qed.

(** The deletion of the other files. *)
Lemma wp_delete_others (current : bytes) (ls : list bytes) (s : Storage) :
  wp (delete_others current ls) (fun s' r => exists o, s' = set_os s o /\ fewer (object_store s) o /\
    (forall l, l = current \/ is_meta_name l = false -> os_objects o !! l = os_objects (object_store s) !! l) /\
    (r = Ok tt -> forall l, l ∈ ls -> l <> current -> is_meta_name l = true -> os_objects o !! l = None) /\
    (os_healthy (object_store s) -> NoDup ls -> (forall l, l ∈ ls -> is_Some (os_objects (object_store s) !! l)) ->
       os_healthy o /\ r = Ok tt)) s.
Proof.
  revert s. induction ls as [|l ls IH]; intros s; cbn [delete_others].
  { apply wp_ret. exists (object_store s). split; [by destruct s|]. split; [by right|]. split; [done|].
    split; [intros _ l []%not_elem_of_nil|done]. }
  destruct (negb (bool_decide (l = current)) && is_meta_name l) eqn:Eb.
  - apply andb_true_iff in Eb as [Hne%negb_true_iff%bool_decide_eq_false Hname].
    apply wp_bind. unfold wp at 1, on_os. pose proof (delete_law l (object_store s)) as Hdel.
    destruct (os_delete l (object_store s)) as [o r]. destruct Hdel as [Ho Hh]. cbn [fst snd].
    assert (fewer (object_store s) o) as Hf.
    { intros l'. destruct Ho as [->|[-> _]]; [|by right]. destruct (decide (l' = l)) as [->|]; [left; apply lookup_delete_eq|].
      right. by apply lookup_delete_ne. }
    assert (forall l', l' = current \/ is_meta_name l' = false -> os_objects o !! l' = os_objects (object_store s) !! l') as Hkeep.
    { intros l' Hl'. destruct Ho as [->|[-> _]]; [|done]. apply lookup_delete_ne. destruct Hl' as [->|?]; congruence. }
    destruct r as [[]|er]; cbn [map_err].
    + eapply wp_mono; [|apply IH]. cbn [set_os object_store].
      intros s' r (o' & -> & Hf' & Hkeep' & Hgone & Hh'). exists o'. split; [done|]. split.
      { intros l'. destruct (Hf' l') as [?|Hl']; [by left|]. rewrite Hl'. apply Hf. }
      split; [intros l' Hl'; rewrite Hkeep' by done; by apply Hkeep|].
      split.
      * intros Hr l' [->|Hin]%elem_of_cons Hl' Hn'; [|by apply Hgone].
        destruct Ho as [Ho|[_ ?]]; [|done]. destruct (Hf' l) as [?|E]; [done|]. by rewrite E, Ho, lookup_delete_eq.
      * intros H Hnd Hsome. inversion Hnd as [|?? Hnin Hnd']; subst. apply Hh'; [|done|].
        { apply Hh; [done|]. apply Hsome. by left. }
        intros l' Hin. destruct Ho as [Ho|[_ ?]]; [|done]. rewrite Ho, lookup_delete_ne; [apply Hsome; by right|].
        by intros ->.
    + exists o. split; [done|]. split; [done|]. split; [done|]. split; [done|].
      intros H _ Hsome. apply Hh in H as [_ ?]; [done|]. apply Hsome. by left.
  - eapply wp_mono; [|apply IH]. intros s' r (o' & -> & Hf' & Hkeep' & Hgone & Hh'). exists o'. split; [done|].
    split; [done|]. split; [done|]. split.
    + intros Hr l' [->|Hin]%elem_of_cons Hl' Hn'; [|by apply Hgone].
      rewrite Hn', andb_true_r in Eb. by apply negb_false_iff, bool_decide_eq_true in Eb.
    + intros H Hnd Hsome. inversion Hnd; subst. apply Hh'; [done..|]. intros l' Hin. apply Hsome. by right.
Qed.

(** Cleaning only deletes meta files other than the session's own; when it
    succeeds it has deleted all of them, and on a store that does not fail it
    succeeds. *)
Lemma wp_clean_meta (s : Storage) (a : Act) : act s = Some a ->
  wp clean_meta (fun s' r => exists o, s' = set_os s o /\ fewer (object_store s) o /\
    (forall l, l = meta_path (epoch a) \/ is_meta_name l = false -> os_objects o !! l = os_objects (object_store s) !! l) /\
    (r = Ok tt -> forall l, at_root l -> is_meta_name l = true -> is_Some (os_objects o !! l) -> l = meta_path (epoch a)) /\
    (os_healthy (object_store s) -> r = Ok tt)) s.
Proof.
  intros Hact. unfold clean_meta. apply wp_bind, wp_activated; [|congruence]. rewrite Hact. intros ? [= <-]. apply wp_bind.
  unfold wp at 1, on_os. pose proof (list_root_law (object_store s)) as Hl.
  destruct (os_list_root (object_store s)) as [o r]. destruct Hl as (Ho & Hh & Hls). cbn [fst snd].
  destruct r as [ls|er]; cbn [map_err].
  2: { exists o. split; [done|]. split; [by intros l; right; rewrite Ho|]. split; [by intros; rewrite Ho|].
       split; [done|]. by intros [_ ?]%Hh. }
  destruct (Hls ls eq_refl) as [Hnd Hin]. eapply wp_mono; [|apply wp_delete_others]. cbn [set_os object_store].
  intros s' r (o' & -> & Hf & Hkeep & Hgone & Hh'). exists o'. split; [done|].
  split; [by intros l; rewrite <- Ho|]. split; [by intros l Hl; rewrite Hkeep, Ho|]. split.
  - intros Hr l Hroot Hname [b Hb]. destruct (decide (l = meta_path (epoch a))) as [|Hne]; [done|].
    rewrite (Hgone Hr l) in Hb; [done| |done|done]. apply Hin. split; [done|]. exists b. rewrite <- Ho. by eapply fewer_lookup.
  - intros [H _]%Hh. apply Hh'; [done|done|]. intros l Hl. rewrite Ho. by apply Hin.
Qed.

(** What was read covers the keys. *)
Lemma disk_ok_read o n m : disk_ok o n -> holds_meta o m -> n <= next_folder_key m /\ meta_ok m.
Proof.
  intros [H1 H2 H3 H4] [(e & b & (He & _) & Hb & _ & Hp)|[Hno ->]]; [|split; [by apply H4|apply default_meta_ok]].
  destruct (H2 e b He Hb) as (_ & m' & Hp' & ? & _ & ?). rewrite Hp in Hp'. by injection Hp' as <-.
Qed.

(** The session that activation starts. *)
Definition started (s : Storage) (e : Epoch) (m : Meta) (o : OS) : Storage :=
  set_os (set_act s (Some (mkActivated e ∅ (from_meta m) None))) o.

(** The first half of activation: nothing but the reads, or the session is
    there and the meta is written under its epoch (unless the write failed). *)
Lemma wp_activate_write (s : Storage) (e : Epoch) :
  epoch_names (object_store s) -> act s = None ->
  wp (activate_write e) (fun s' r =>
    (exists o, s' = set_os s o /\ os_objects o = os_objects (object_store s) /\ is_ok r = false /\
       (forall m, os_healthy (object_store s) -> holds_meta (object_store s) m ->
          SUPPORTED_FORMAT_VERSION < format_version m /\
          r = Err (Failed (StorageError.UnsupportedVersion (format_version m) SUPPORTED_FORMAT_VERSION)))) \/
    (exists m o, s' = started s e m o /\ holds_meta (object_store s) m /\
       format_version m <= SUPPORTED_FORMAT_VERSION /\
       match print_meta (set_format_version m SUPPORTED_FORMAT_VERSION) with
       | None => os_objects o = os_objects (object_store s) /\ is_ok r = false
       | Some b =>
           (os_objects o = <[ meta_path e := b ]> (os_objects (object_store s)) \/
            (os_objects o = os_objects (object_store s) /\ is_ok r = false)) /\
           (os_healthy (object_store s) -> os_healthy o /\ r = Ok tt)
       end)) s.
Proof.
  intros Hnames Hact. unfold activate_write. apply wp_bind. eapply wp_mono; [|by apply wp_read_meta].
  intros s1 r (o & -> & Ho & Hr & Hh). destruct r as [m|er].
  2: { left. exists o. split_and!; [done..|]. intros m Hhe Hm. apply Hh in Hhe as [_ H]. by specialize (H m Hm). }
  specialize (Hr m eq_refl). destruct (Z.ltb_spec SUPPORTED_FORMAT_VERSION (format_version m)) as [Hv|Hv].
  { apply wp_err. left. exists o. split_and!; [done..|]. intros m' Hhe Hm. apply Hh in Hhe as [_ H].
    specialize (H m' Hm). by injection H as ->. }
  apply wp_bind, wp_get. cbn [set_os act]. rewrite Hact. apply wp_bind, wp_modify.
  apply wp_bind, wp_activated; [|done]. intros a [= <-]. unfold write_meta_to_disk.
  destruct (print_meta _) as [b|] eqn:Hp.
  - unfold wp, on_os. cbn [set_os set_act object_store epoch]. pose proof (put_law (meta_path e) b o) as Hput.
    destruct (os_put _ b o) as [o2 r]. destruct Hput as [Hput Hph]. right. exists m, o2. rewrite Hp, <- Ho.
    split; [done|]. split; [done|]. split; [done|]. split.
    + destruct Hput as [?|[? Hr2]]; [by left|right]. split; [done|]. by destruct r.
    + intros H. apply Hh in H as [H _]. destruct (Hph H) as [? Hok]. split; [done|]. by destruct r as [[]|].
  - apply wp_err. right. exists m, o. rewrite Hp. done.
Qed.

(** An activation that succeeds starts a session with the only file; one that
    fails leaves files that agree. *)
Lemma activate_Inv (s : Storage) (e : Epoch) : Inv s -> act s = None -> good_epoch e ->
  wp (activate e) (fun s' r => match r with
    | Ok _ => Inv s'
    | Err _ => forall provider, Inv (mkStorage (object_store s') provider None (opened s'))
    end) s.
Proof.
  intros (n & Hd & Hdirs & _) Hact He.
  assert (forall o provider, disk_ok o n -> Inv (mkStorage o provider None (opened s))) as Hfail.
  { intros o provider Ho. by exists n. }
  unfold activate. apply wp_bind. eapply wp_mono; [|by apply wp_activate_write; [apply (disk_names _ n)|]].
  intros s1 r [(o & -> & Ho & Hr & _)|(m & o & -> & Hm & _ & Hw)].
  { destruct r as [|er]; [done|]. intros provider. apply Hfail.
    eapply disk_ok_root; [by apply same_objects_root|done]. }
  destruct (disk_ok_read _ _ m Hd Hm) as (Hnm & Hok). fold (current_format m) in Hw.
  assert (os_objects o = os_objects (object_store s) -> disk_ok o n) as Hunchanged.
  { intros Ho. eapply disk_ok_root; [by apply same_objects_root|done]. }
  destruct (print_meta (current_format m)) as [b|] eqn:Hp.
  2: { destruct Hw as [Ho Hr]. destruct r as [|er]; [done|]. intros provider. apply Hfail; auto. }
  destruct Hw as [[Ho|[Ho Hr]] _].
  2: { destruct r as [|er]; [done|]. intros provider. apply Hfail; auto. }
  destruct (printed_takes_over m b Hok Hp) as (Ht & Hu & Hparse).
  destruct (disk_ok_add (object_store s) o n e b m) as [Hd2 Hag]; [done|done|done|done|done|by eapply takes_over_less|done|done|].
  destruct r as [[]|er]; [|intros provider; by apply Hfail].
  eapply wp_mono; [|by eapply wp_clean_meta]. cbn [started set_os set_act object_store act opened epoch].
  intros s' r (o4 & -> & Hf & Hkeep & Hgone & _). cbn [started set_os set_act object_store act opened epoch].
  assert (os_objects o4 !! meta_path e = Some b) as Hb4 by (rewrite Hkeep, Ho, lookup_insert_eq by (by left); done).
  assert (present o4 e) as Hp4 by by eexists.
  assert (disk_ok o4 n) as Hd4 by by eapply disk_ok_fewer.
  destruct r as [[]|er]; [|intros provider; by apply Hfail].
  assert (only o4 e) as Hon.
  { intros e' He' Hp'. apply meta_path_inj; [done|done|]. apply Hgone; [done|by apply meta_path_root|by apply meta_path_name|done]. }
  exists (next_folder_key m). split; [|split].
  - destruct Hd4 as [H1 H2 H3 H4]. split; [done| |done|by intros Hno; destruct (Hno e He)].
    intros e' b' He' Hb'. assert (e' = e) as -> by (apply Hon; [done|by eexists]).
    change (os_objects o4 !! meta_path e = Some b') in Hb'. rewrite Hb4 in Hb'. by injection Hb' as <-.
  - eapply Forall_impl; [exact Hdirs|]. intros sk. by apply dir_below_mono.
  - intros a [= <-]. split; [by split|]. by split.
Qed.

(** *** The operations of a session *)

Lemma keeps_Inv {A : Type} (m : M A) R s : keeps (fun _ => True) m R -> Inv s -> Inv (fst (m s)).
Proof. intros Hm HI. by destruct (Hm s HI I). Qed.

Lemma keeps_open_created l created : keeps (fun _ => True) (open_created sha256 l created) (fun _ _ => True).
Proof.
  revert created. induction l as [|[id label] l IH]; intros [|b created]; cbn [open_created]; try apply keeps_ret.
  eapply (keeps_bind _ _ _ (fun _ _ => True)); [|intros ?; eapply keeps_weaken; [| |apply IH]; done].
  destruct b; [|apply keeps_ret].
  eapply keeps_bind; [apply keeps_resolve|]. intros [sk lb].
  eapply keeps_weaken; [| |apply keeps_store_for_folder]; [by intros v [_ ?]|done].
Qed.

Lemma keeps_gc_inboxes e l :
  keeps (fun v => Forall (fun x => below_next (snd x) v) l) (gc_inboxes sha256 e l) (fun _ _ => True).
Proof.
  induction l as [|[[id label] sk] l IH]; cbn [gc_inboxes]; [apply keeps_ret|].
  eapply keeps_bind; [eapply keeps_weaken; [| |apply keeps_on_store]|].
  - intros v H. by inversion H.
  - done.
  - intros ?. eapply keeps_weaken; [| |apply IH]; [|done]. intros v [H _]. by inversion H.
Qed.

Lemma delete_below_same dir l o : below dir l -> same_root o (fst (os_delete l o)).
Proof.
  intros [r ->] l' Hl'. pose proof (delete_law (dir ++ [SLASH] ++ r) o) as H.
  destruct (os_delete _ o) as [o' res]. destruct H as [[E|[E _]] _]; cbn; rewrite E; [|done].
  apply lookup_delete_ne. intros <-. apply Hl'. rewrite !elem_of_app. right. left. by left.
Qed.

Lemma keeps_delete_all dir items : (forall l, Ok l ∈ items -> below dir l) ->
  keeps (fun _ => True) (delete_all items) (fun _ _ => True).
Proof.
  induction items as [|[l|e] items IH]; intros Hb; cbn [delete_all]; [apply keeps_ret| |apply keeps_err].
  eapply keeps_bind; [apply keeps_os; intros o; eapply delete_below_same; apply Hb; by left|].
  intros ?. eapply keeps_weaken; [| |apply IH]; [done..|]. intros l' Hl'. apply Hb. by right.
Qed.

Lemma keeps_list_objects P dir :
  keeps P (list_objects dir) (fun _ items => forall l, Ok l ∈ items -> below dir l).
Proof.
  intros s HI HP. unfold wp, list_objects. pose proof (list_law dir (object_store s)) as H.
  destruct (os_list dir (object_store s)) as [o items]. destruct H as (Ho & Hb & _). cbn.
  split; [by apply Inv_os; [apply same_objects_root|]|]. split; [done|]. intros x [= <-] l Hl. by apply Hb.
Qed.

Lemma keeps_evict P sk : keeps P (evict sk) (fun _ _ => True).
Proof.
  eapply keeps_bind; [apply keeps_activated|]. intros a. destruct (stores a !! sk); [|apply keeps_ret].
  eapply keeps_bind; [by apply keeps_change|]. intros ?. apply keeps_lift.
Qed.

Inductive Op :=
| ORegister (id label : bytes)
| OEnsure (l : list (bytes * bytes))
| ORemove (id : bytes)
| OPutIdentity (cert key : bytes)
| ODefaultCheckpoints
| OSchedule (interval : Z) (schedule : option CheckpointSchedule)
| OFolder (id : bytes)
| OGcInbox
| OCheck (level : Fsck.FsckLevel)
| OClose.

Definition run_op (o : Op) (s : Storage) : Storage :=
  match o with
  | ORegister id label => fst (register_folder sha256 id label s)
  | OEnsure l => fst (ensure_folders sha256 l s)
  | ORemove id => fst (remove_folder id s)
  | OPutIdentity cert key => fst (put_identity cert key s)
  | ODefaultCheckpoints => fst (set_default_checkpoints s)
  | OSchedule interval schedule => fst (update_checkpoint_schedule interval schedule s)
  | OFolder id => fst (folder sha256 id s)
  | OGcInbox => fst (gc_inbox sha256 s)
  | OCheck level => fst (check_integrity sha256 level s)
  | OClose => fst (close s)
  end.

(** Durations are in the range of their type. *)
Definition op_ok (o : Op) : Prop :=
  match o with
  | OSchedule interval schedule =>
      is_duration interval /\ (forall s, schedule = Some s -> is_duration (ttl s))
  | _ => True
  end.

Lemma modify_Inv {A : Type} (f : Meta -> result Failure (Meta * A)) s :
  grows f -> Inv s -> Inv (fst (modify_meta f s)).
Proof. intros Hf HI. by apply (wp_modify_meta f (fun s' _ => Inv s')). Qed.

Lemma register_Inv id label s : Inv s -> Inv (fst (register_folder sha256 id label s)).
Proof.
  intros HI. cut (wp (register_folder sha256 id label) (fun s' _ => Inv s') s); [done|].
  apply wp_bind. eapply wp_modify_meta; [apply register_grows|done|]. intros s1 [sk|e] HI1 Ho Hm; [|done].
  apply wp_bind. eapply wp_mono; [|apply keeps_store_for_folder; [done|]].
  - intros s2 [[]|] (HI2 & _); done.
  - destruct Hm as (a & m' & Ha & Hf & Ha'). intros e st. unfold session. rewrite Ha'. intros [= <- <-]. cbn.
    destruct HI as (n & _ & _ & Hs). destruct (Hs a Ha) as (Hses & _). unfold register_in in Hf.
    destruct (has_folder _ id) eqn:Hid; [done|]. destruct (add_folder _ id label) as [[m1 k]|] eqn:Ea; [|done].
    injection Hf as <- <-. apply add_folder_ok in Ea as (_ & Hn & Hk & _); [|apply Hses|].
    + exists (next_folder_key (st_meta (state a))), k. split; [lia|done].
    + intros k' e' Hk' He'. rewrite (proj2 (has_folder_true _ id)) in Hid; [done|eauto].
Qed.

Lemma check_all_Inv level l s : Inv s -> Forall (fun x => below_next (snd x) (session s)) l ->
  Inv (fst (check_all sha256 level l s)).
Proof.
  revert s. induction l as [|[[id label] sk] l IH]; intros s HI Hl; cbn [check_all]; [done|].
  inversion Hl as [|?? Hsk Hl']; subst. unfold check_one.
  pose proof (keeps_on_store sk (Fsck.check_folder_integrity sha256 level) s HI Hsk) as H. unfold wp in H.
  destruct (on_store sha256 sk _ s) as [s1 r]. cbn [fst snd] in H. destruct H as (HI1 & Hses & _).
  assert (Inv (fst (check_all sha256 level l s1))) as Hrest by (apply IH; [done|by rewrite Hses]).
  destruct r; destruct (check_all sha256 level l s1); done.
Qed.

Lemma run_op_Inv o s : op_ok o -> Inv s -> Inv (run_op o s).
Proof.
  intros Hop HI. destruct o; cbn [run_op op_ok] in *.
  - by apply register_Inv.
  - destruct l as [|x l]; [done|]. unfold ensure_folders.
    cut (wp (do! created <- modify_meta (ensure_in (x :: l)); run! open_created sha256 (x :: l) created; se_ret created)
           (fun s' _ => Inv s') s); [done|].
    apply wp_bind. eapply wp_modify_meta; [apply ensure_grows|done|]. intros s1 [created|e] HI1 _ _; [|done].
    apply wp_bind. eapply wp_mono; [|by apply (keeps_open_created (x :: l) created s1)].
    intros s2 [[]|] (HI2 & _); done.
  - cut (wp (remove_folder id) (fun s' _ => Inv s') s); [done|]. unfold remove_folder.
    apply wp_bind. eapply wp_mono; [|by apply (keeps_resolve (fun _ => True))]. intros s1 [[sk lb]|] (HI1 & _); [|done].
    apply wp_bind. eapply wp_mono; [|by apply (keeps_evict (fun _ => True))]. intros s2 [[]|] (HI2 & _); [|done].
    apply wp_bind. eapply wp_mono; [|by apply (keeps_list_objects (fun _ => True))].
    intros s3 [items|] (HI3 & _ & Hb); [|done].
    apply wp_bind. eapply wp_mono; [|apply (keeps_delete_all (path_from sk) items); [by apply Hb|done|done]].
    intros s4 [[]|] (HI4 & _); [|done]. apply wp_modify_meta; [apply remove_grows|done|done].
  - apply modify_Inv; [apply identity_grows|done].
  - apply modify_Inv; [apply default_checkpoints_grows|done].
  - destruct Hop. by apply modify_Inv; [apply schedule_grows|].
  - eapply keeps_Inv; [|done]. eapply keeps_bind; [apply keeps_activated|]. intros a.
    eapply keeps_bind; [apply keeps_resolve|]. intros [sk lb].
    eapply keeps_bind; [|intros ?; apply keeps_ret].
    eapply keeps_weaken; [| |apply keeps_store_for_folder]; [by intros v [_ ?]|done].
  - eapply keeps_Inv; [|done]. eapply keeps_bind; [apply keeps_activated|]. intros a.
    eapply keeps_bind; [apply keeps_list_folders|]. intros l.
    eapply keeps_weaken; [| |apply keeps_gc_inboxes]; [by intros v [_ ?]|done].
  - unfold check_integrity. pose proof (keeps_list_folders (fun _ => True) s HI I) as H. unfold wp in H.
    destruct (list_folders s) as [s1 [l|e]]; cbn [fst snd] in H; destruct H as (HI1 & Hses & Hl); [|done].
    apply check_all_Inv; [done|]. rewrite Hses. by apply Hl.
  - unfold close. destruct (act s) as [a|] eqn:Ha; [|done]. cbn. destruct HI as (n & Hd & Hdirs & Hs). exists n.
    split; [done|]. split; [done|]. cbn. intros a' [= <-]. cbn. destruct (Hs a Ha) as ([] & ? & ?). done.
Qed.

(** *** Processes one after the other *)

(** What the databases do between the operations of the storage: objects below
    the root and the open stores change. *)
Definition works (s s' : Storage) : Prop :=
  same_root (object_store s) (object_store s') /\ opened s' = opened s /\
  match act s, act s' with
  | Some a, Some a' => exists st, a' = set_stores a st
  | None, None => True
  | _, _ => False
  end.

(** The state of the process. A process that dies, or whose activation fails,
    loses its session; the next one activates under any epoch, larger or not
    (the lock counts from zero again once it was released). *)
Inductive sys_step : Storage -> Storage -> Prop :=
| sys_op s o : op_ok o -> sys_step s (run_op o s)
| sys_work s s' : works s s' -> sys_step s s'
| sys_restart s provider : sys_step s (mkStorage (object_store s) provider None (opened s))
| sys_activate s s' e : act s = None -> good_epoch e -> activate e s = (s', Ok tt) -> sys_step s s'
| sys_activate_failed s s' e err provider : act s = None -> good_epoch e -> activate e s = (s', Err err) ->
    sys_step s (mkStorage (object_store s') provider None (opened s')).

Lemma sys_step_Inv s s' : sys_step s s' -> Inv s -> Inv s'.
Proof.
  intros [s1 o Ho|s1 s2 (Hr & Hop & Ha)|s1 provider|s1 s2 e Ha He Hact|s1 s2 e err provider Ha He Hact] HI.
  - by apply run_op_Inv.
  - destruct HI as (n & Hd & Hdirs & Hs). exists n. rewrite Hop. split; [by eapply disk_ok_root|]. split; [done|].
    intros a' Ha'. rewrite Ha' in Ha. destruct (act s1) as [a|]; [|done]. destruct Ha as [st ->].
    destruct (Hs a eq_refl) as ([] & ? & ?). cbn. split; [done|]. split; [done|]. by eapply only_root.
  - destruct HI as (n & Hd & Hdirs & Hs). by exists n.
  - pose proof (activate_Inv s1 e HI Ha He) as H. unfold wp in H. by rewrite Hact in H.
  - pose proof (activate_Inv s1 e HI Ha He) as H. unfold wp in H. by rewrite Hact in H.
Qed.

(** A store without meta files. *)
Definition blank (o : OS) : Prop := forall l, is_meta_name l = true -> os_objects o !! l = None.

Lemma blank_Inv o provider : blank o -> Inv (new o provider).
Proof.
  intros Hb. assert (forall e b, good_epoch e -> os_objects o !! meta_path e = Some b -> False) as Hno.
  { intros e b He Hl. by rewrite Hb in Hl by by apply meta_path_name. }
  exists 0. split; [|by split]. split; [| | |done].
  - intros l _ Hn [b Hl]. by rewrite Hb in Hl.
  - intros e b He Hl. by destruct (Hno e b).
  - intros m _ e b He Hl. by destruct (Hno e b).
Qed.

Lemma reachable_Inv o provider (s : Storage) : blank o -> rtc sys_step (new o provider) s -> Inv s.
Proof.
  intros Hb Hr. assert (forall x y, rtc sys_step x y -> Inv x -> Inv y) as H.
  { induction 1; eauto using sys_step_Inv. }
  exact (H _ _ Hr (blank_Inv o provider Hb)).
Qed.

End Invariant.

End ActivationSafety.
