(* ===== verification/MetaTape.v ===== *)
(** Stand-ins for the text libraries of the meta file, built from [Tape]. They
    show that the laws of [Meta] can hold, and let a repository run in the
    witnesses. A document is printed only when its tape is valid UTF-8. *)

From Stdlib Require Import ZArith Lia.
From stdpp Require Import base gmap list strings.
From S2P Require Import Prelude BepTypes Codec Meta.

Local Open Scope Z_scope.

Module MetaTape.
Import Tape Meta.

#[export] Instance digits_time : HumanTime := {|
  format_duration d := digits 128 14 d;
  parse_duration s := if Nat.eqb (length s) 14 then Some (undigits 128 s) else None
|}.

#[export] Instance digits_time_laws : HumanTimeLaws.
Proof.
  intros d [H0 H1]. cbn [format_duration parse_duration digits_time].
  rewrite length_digits, undigits_digits by done. cbn [Nat.eqb]. rewrite Z.mod_small; [done|].
  split; [done|]. assert (2 ^ 64 * 1000000000 < 128 ^ Z.of_nat 14)%Z by by vm_compute. lia.
Qed.

#[export] Instance plain64 : Base64 := {| base64_encode b := b; base64_decode b := Some b |}.

#[export] Instance plain64_laws : Base64Laws.
Proof. done. Qed.

Program Definition t_map {A : Type} (t : tape A) : tape (gmap bytes A) :=
  tmap (tlist (tpair tbytes t)) (fun m => map_to_list m) (fun l => list_to_map l) _.
Next Obligation. intros A t m. apply list_to_map_to_list. Qed.

Program Definition t_entry : tape FolderEntry :=
  tmap (tpair tbytes tbytes) (fun e => (entry_id e, entry_label e)) (fun p => mkFolderEntry (fst p) (snd p)) _.
Next Obligation. by intros []. Qed.

Program Definition t_identity : tape MetaIdentity :=
  tmap (tpair tbytes tbytes) (fun i => (cert_der i, key_der i)) (fun p => mkMetaIdentity (fst p) (snd p)) _.
Next Obligation. by intros []. Qed.

Program Definition t_doc : tape MetaDoc :=
  tmap (tpair (tpair (toption tZ) (toption tZ))
              (tpair (toption t_identity) (tpair (toption (t_map t_entry)) (toption (t_map tbytes)))))
    (fun d => ((doc_format_version d, doc_next_folder_key d), (doc_identity d, (doc_folders d, doc_checkpoint d))))
    (fun p => mkDoc (fst (fst p)) (snd (fst p)) (fst (snd p)) (fst (snd (snd p))) (snd (snd (snd p)))) _.
Next Obligation. by intros []. Qed.

#[export] Instance tape_toml : Toml := {|
  to_string_pretty d := let b := put t_doc d in if utf8_valid b then Some b else None;
  from_str b := match get t_doc b with Some (d, []) => Some d | _ => None end
|}.

#[export] Instance tape_toml_laws : TomlLaws.
Proof.
  assert (forall d b, to_string_pretty d = Some b -> utf8_valid b = true /\ put t_doc d = b) as H.
  { intros d b. unfold to_string_pretty, tape_toml. cbv zeta. case_eq (utf8_valid (put t_doc d)); [|done].
    intros E H. assert (put t_doc d = b) as <- by congruence. done. }
  split; intros d b Hp; apply H in Hp as [Hu <-]; [done|]. unfold from_str, tape_toml.
  by rewrite <- (app_nil_r (put t_doc d)), (get_put t_doc).
Qed.

End MetaTape.
