(* ===== verification/Registry.v ===== *)
(** The folders of a repository: the registry operations implement a map from
    folder ids to labels, and the directory of a folder is never given to
    another one. *)

From Stdlib Require Import ZArith Lia.
From stdpp Require Import base gmap list relations sorting strings.
From S2P Require Import Prelude BepTypes Base32 Codec Kv GcState Store StoreTape ReadOnly Fsck Folder.
From S2P Require Import Meta ObjectStore Activation ActivationSafety MetaTape.

Local Open Scope Z_scope.
Local Open Scope bep_scope.

Module Registry.
Import Base32 Kv Store Meta ObjectStore Activation ActivationSafety.

(** ** The abstract registry *)

(** The labels by folder id. *)
Definition labels (m : Meta) : gmap bytes bytes :=
  list_to_map (map (fun ke => (entry_id (snd ke), entry_label (snd ke))) (iter (folders m))).

(** [ensure_folders]: a label for every id, and which ids were new. *)
Fixpoint ensure_spec (l : list (bytes * bytes)) (g : gmap bytes bytes) : gmap bytes bytes * list bool :=
  match l with
  | [] => (g, [])
  | (id, label) :: l' =>
      let '(g', created) := ensure_spec l' (<[ id := label ]> g) in
      (g', bool_decide (g !! id = None) :: created)
  end.

Lemma labels_lookup (m : Meta) (id label : bytes) : meta_ok m ->
  labels m !! id = Some label <-> exists k, folders m !! k = Some (mkFolderEntry id label).
Proof.
  intros Hok. unfold labels.
  rewrite <- elem_of_list_to_map; [rewrite list_elem_of_fmap; split|].
  - intros ([k [i lb]] & E & Hin%elem_of_iter). cbn in E. injection E as -> ->. by exists k.
  - intros [k Hk]. exists (k, mkFolderEntry id label). split; [done|by apply elem_of_iter].
  - rewrite map_map. cbn.
    pose proof (iter_nodup (folders m)) as Hnd.
    assert (forall k e, (k, e) ∈ iter (folders m) -> folders m !! k = Some e) as Hin by (intros; by apply elem_of_iter).
    revert Hnd Hin. generalize (iter (folders m)). intros l. induction l as [|[k e] l IH]; intros Hnd Hin; [constructor|].
    inversion Hnd as [|?? Hn Hnd']; subst. cbn in *. constructor; [|apply IH; [done|by intros; apply Hin; right]].
    intros ([k' e'] & E & Hin')%list_elem_of_fmap. cbn in E. apply Hn.
    rewrite (ok_ids m Hok k k' e e'); [by apply (list_elem_of_fmap_2 fst) in Hin'| | |done].
    + apply Hin. by left.
    + apply Hin. by right.
Qed.

Lemma labels_None (m : Meta) (id : bytes) : meta_ok m ->
  labels m !! id = None <-> forall k e, folders m !! k = Some e -> entry_id e <> id.
Proof.
  intros Hok. split.
  - intros Hn k [i lb] Hk <-. assert (labels m !! i = Some lb) by (apply labels_lookup; eauto). cbn in Hn. congruence.
  - intros H. destruct (labels m !! id) as [lb|] eqn:E; [|done]. apply labels_lookup in E as [k Hk]; [|done].
    by destruct (H _ _ Hk).
Qed.

Lemma labels_eq (m : Meta) (g : gmap bytes bytes) : meta_ok m ->
  (forall id label, (exists k, folders m !! k = Some (mkFolderEntry id label)) <-> g !! id = Some label) ->
  labels m = g.
Proof.
  intros Hok H. apply map_eq. intros id. apply option_eq. intros label. by rewrite labels_lookup.
Qed.

Lemma add_folder_labels (m m' : Meta) (id label key : bytes) :
  meta_ok m -> labels m !! id = None -> add_folder m id label = Ok (m', key) ->
  labels m' = <[ id := label ]> (labels m).
Proof.
  intros Hok Hn Ha. apply (add_folder_ok m m' id label key) in Ha as (Hok' & _ & _ & Hf & Hfresh);
    [|done|by apply labels_None].
  apply labels_eq; [done|]. intros id' lb'. rewrite Hf. split.
  - intros [k [[_ E]|[_ Hk]]%lookup_insert_Some].
    + injection E as -> ->. apply lookup_insert_eq.
    + rewrite lookup_insert_ne; [apply labels_lookup; eauto|]. intros <-. eapply labels_None in Hn; [|done..]. done.
  - intros [[<- <-]|[_ Hl]]%lookup_insert_Some; [exists key; by rewrite lookup_insert_eq|].
    apply labels_lookup in Hl as [k Hk]; [|done]. exists k. rewrite lookup_insert_ne; [done|]. by intros ->; rewrite Hk in Hfresh.
Qed.

Lemma relabel_labels (m : Meta) (k id label : bytes) (e : FolderEntry) :
  meta_ok m -> folders m !! k = Some e -> entry_id e = id ->
  labels (set_folders m (next_folder_key m) (<[ k := mkFolderEntry (entry_id e) label ]> (folders m))) =
  <[ id := label ]> (labels m).
Proof.
  intros Hok Hk <-. apply labels_eq; [by apply relabel_ok|]. cbn. intros id' lb'. split.
  - intros [k' [[_ E]|[Hne Hk']]%lookup_insert_Some].
    + injection E as -> ->. apply lookup_insert_eq.
    + rewrite lookup_insert_ne; [apply labels_lookup; eauto|]. intros E. apply Hne. by eapply (ok_ids m Hok).
  - intros [[<- <-]|[Hne Hl]]%lookup_insert_Some; [exists k; by rewrite lookup_insert_eq|].
    apply labels_lookup in Hl as [k' Hk']; [|done]. exists k'. rewrite lookup_insert_ne; [done|].
    intros <-. rewrite Hk in Hk'. injection Hk' as ->. done.
Qed.

Lemma ensure_labels (l : list (bytes * bytes)) (m m' : Meta) (created : list bool) :
  meta_ok m -> ensure_in l m = Ok (m', created) -> ensure_spec l (labels m) = (labels m', created).
Proof.
  revert m m' created. induction l as [|[id label] l IH]; intros m m' created Hok; cbn [ensure_in ensure_spec];
    [by intros [= <- <-]|].
  destruct (find_entry m id) as [[k e]|] eqn:Ef.
  - apply find_entry_Some in Ef as [Hk Hid]. destruct (ensure_in l _) as [[m1 c]|] eqn:El; [|done]. intros [= <- <-].
    apply IH in El; [|by apply relabel_ok]. rewrite (relabel_labels m k id label e) in El by done. rewrite El.
    rewrite bool_decide_eq_false_2; [done|]. intros Hn. by apply (proj1 (labels_None m id Hok) Hn k e).
  - destruct (add_folder m id label) as [[m1 k]|] eqn:Ea; [|done]. cbn [rbind].
    destruct (ensure_in l m1) as [[m2 c]|] eqn:El; [|done]. intros [= <- <-].
    assert (labels m !! id = None) as Hn by (apply labels_None; [done|]; intros; by eapply find_entry_None).
    pose proof (add_folder_labels _ _ _ _ _ Hok Hn Ea) as Hl.
    apply add_folder_ok in Ea as (Hok1 & _); [|done|by apply labels_None].
    apply IH in El; [|done]. rewrite Hl in El. rewrite El. by rewrite bool_decide_eq_true_2.
Qed.

Lemma remove_labels (m m' : Meta) (id : bytes) (x : unit) :
  meta_ok m -> remove_in id m = Ok (m', x) -> labels m' = delete id (labels m).
Proof.
  intros Hok Hr. destruct (remove_grows id m m' x Hok Hr) as [Hok' _]. injection Hr as <- <-.
  apply labels_eq; [done|]. intros id' lb'. destruct (find_entry m id) as [[k e]|] eqn:Ef; cbn.
  - apply find_entry_Some in Ef as [Hk <-]. split.
    + intros [k' [Hne Hk']%lookup_delete_Some]. rewrite lookup_delete_ne; [apply labels_lookup; eauto|].
      intros E. apply Hne. by eapply (ok_ids m Hok).
    + intros [Hne [k' Hk']%labels_lookup]%lookup_delete_Some; [|done]. exists k'. rewrite lookup_delete_ne; [done|].
      intros <-. rewrite Hk in Hk'. injection Hk' as ->. done.
  - assert (labels m !! id = None) as Hn by (apply labels_None; [done|]; intros; by eapply find_entry_None).
    rewrite delete_id by done. by rewrite labels_lookup.
Qed.

#[export] Instance triple_le_total : Total triple_le.
Proof.
  intros a b. unfold triple_le. rewrite (bytes_cmp_antisym (fst (fst a)) (fst (fst b))).
  destruct (bytes_cmp _ _); simpl; auto.
Qed.

(** ** Theorems *)

Section Theorems.
Context {OS Db : Type} `{!ObjectStore OS} `{!ObjectStoreLaws OS} `{!SlateDb Db} `{!OpenDb OS Db} `{!OpenDbLaws OS Db}.
Context {SC : StoreCodecs} {HF SF : Type} `{!Bloom bytes HF} `{!Bloom Z SF}.
Context {HT : HumanTime} {HTL : HumanTimeLaws} {TM : Toml} {TML : TomlLaws} {B64 : Base64} (sha256 : bytes -> bytes).
Abbreviation Storage := (SlateStorage (OS := OS) (Db := Db) (HF := HF) (SF := SF)).

(** The registry of the session. *)
Definition labels_of (s : Storage) : gmap bytes bytes :=
  match act s with Some a => labels (st_meta (state a)) | None => ∅ end.

Lemma labels_of_session (s s' : Storage) : session s' = session s -> labels_of s' = labels_of s.
Proof.
  unfold session, labels_of. destruct (act s), (act s'); try done. intros E. injection E as _ E. by rewrite E.
Qed.

Lemma Inv_meta (s : Storage) a : Inv s -> act s = Some a ->
  meta_ok (st_meta (state a)) /\ state a = from_meta (st_meta (state a)) /\
  Forall (dir_below (next_folder_key (st_meta (state a)))) (opened s).
Proof. intros (n & _ & Hdirs & Hs) Ha. destruct (Hs a Ha) as ([] & <- & _). done. Qed.

(** An update of the meta followed by openings: the labels are those of the
    updated meta, or the operation has failed and they are unchanged. *)
Lemma wp_update {A B : Type} (f : Meta -> result Failure (Meta * A)) (k : A -> SE Storage Failure B)
  (G : gmap bytes bytes -> gmap bytes bytes) (V : gmap bytes bytes -> A -> Prop) (W : A -> B -> Prop) (s : Storage) :
  grows f -> Inv s ->
  (forall m m' x, meta_ok m -> f m = Ok (m', x) -> labels m' = G (labels m) /\ V (labels m) x) ->
  (forall x s1 a m', act s = Some a -> f (st_meta (state a)) = Ok (m', x) -> Inv s1 ->
     act s1 = Some (set_state a (from_meta m')) ->
     wp (k x) (fun s2 r => session s2 = session s1 /\ forall y, r = Ok y -> W x y) s1) ->
  wp (se_bind (modify_meta f) k) (fun s' r =>
    (labels_of s' = G (labels_of s) \/ (labels_of s' = labels_of s /\ is_ok r = false)) /\
    forall y, r = Ok y -> exists x, V (labels_of s) x /\ W x y) s.
Proof.
  intros Hg HI Hf Hk. apply wp_bind. eapply wp_modify_meta; [done|done|]. intros s1 [x|e] HI1 _ Hact.
  - destruct Hact as (a & m' & Ha & Hfa & Ha1). destruct (Inv_meta s a HI Ha) as (Hok & _).
    destruct (Hf _ _ _ Hok Hfa) as [Hl Hv]. eapply wp_mono; [|by eapply Hk]. intros s2 r [Hs Hw].
    split; [left|intros y Hy; exists x; split; [|by apply Hw]].
    + rewrite (labels_of_session _ _ Hs). unfold labels_of. by rewrite Ha1, Ha.
    + unfold labels_of. by rewrite Ha.
  - split; [right|done]. split; [|done]. unfold labels_of. by rewrite Hact.
Qed.

(** The three updates. *)
Definition updates {A : Type} (s : Storage) (g : gmap bytes bytes) (out : Storage * result Failure A) : Prop :=
  labels_of (fst out) = g \/ (labels_of (fst out) = labels_of s /\ is_ok (snd out) = false).

Lemma register_updates (s : Storage) id label : Inv s -> is_Some (act s) ->
  match labels_of s !! id with
  | None => updates s (<[ id := label ]> (labels_of s)) (register_folder sha256 id label s)
  | Some _ => snd (register_folder sha256 id label s) =
                Err (Failed (StorageError.InvalidInput "folder already registered")) /\
              labels_of (fst (register_folder sha256 id label s)) = labels_of s
  end.
Proof.
  intros HI [a Ha]. destruct (Inv_meta s a HI Ha) as (Hok & _).
  assert (labels_of s = labels (st_meta (state a))) as Hl by (unfold labels_of; by rewrite Ha).
  destruct (labels_of s !! id) as [lb|] eqn:Eid.
  - rewrite Hl in Eid. apply labels_lookup in Eid as [k Hk]; [|done].
    assert (register_in id label (st_meta (state a)) =
      Err (Failed (StorageError.InvalidInput "folder already registered"))) as Hf.
    { unfold register_in. by rewrite (proj2 (has_folder_true _ id)) by eauto. }
    unfold register_folder, modify_meta, se_bind, activated, se_lift. rewrite Ha. cbn. rewrite Hf. done.
  - cut (wp (register_folder sha256 id label) (fun s' r =>
      labels_of s' = <[ id := label ]> (labels_of s) \/ (labels_of s' = labels_of s /\ is_ok r = false)) s); [done|].
    assert (labels_of s !! id = None -> forall m' sk, register_in id label (st_meta (state a)) = Ok (m', sk) ->
      labels m' = <[ id := label ]> (labels_of s) /\ below_next sk (Some (epoch a, from_meta m'))) as Hreg.
    { rewrite Hl. intros Hn m' sk. unfold register_in. destruct (has_folder _ id); [done|].
      destruct (add_folder _ id label) as [[m1 k]|] eqn:Ea; [|done]. intros [= <- <-].
      split; [by eapply add_folder_labels|]. apply add_folder_ok in Ea as (_ & Hnx & Hk & _); [|done|by apply labels_None].
      intros e st Ev. injection Ev as <- <-. cbn. exists (next_folder_key (st_meta (state a))), k. split; [lia|done]. }
    specialize (Hreg Eid). apply wp_bind. eapply wp_modify_meta; [apply register_grows|done|].
    intros s1 [sk|e] HI1 _ Hact.
    + destruct Hact as (a' & m' & Ha' & Hfa & Ha1). rewrite Ha in Ha'. injection Ha' as <-.
      destruct (Hreg _ _ Hfa) as [Hlm Hbelow]. apply wp_bind.
      eapply wp_mono; [|apply keeps_store_for_folder; [done|unfold session; by rewrite Ha1]].
      intros s2 r (_ & Hs & _). assert (labels_of s2 = <[ id := label ]> (labels_of s)) as H2.
      { rewrite (labels_of_session s1 s2) by done. unfold labels_of at 1. by rewrite Ha1. }
      destruct r as [[]|]; by left.
    + right. split; [|done]. unfold labels_of. by rewrite Hact.
Qed.

Lemma ensure_updates (s : Storage) l : Inv s -> is_Some (act s) ->
  updates s (fst (ensure_spec l (labels_of s))) (ensure_folders sha256 l s) /\
  forall created, snd (ensure_folders sha256 l s) = Ok created -> created = snd (ensure_spec l (labels_of s)).
Proof.
  intros HI _. destruct l as [|x l]; [by split; [left|intros c [= <-]]|].
  cut (wp (ensure_folders sha256 (x :: l)) (fun s' r =>
    (labels_of s' = fst (ensure_spec (x :: l) (labels_of s)) \/ (labels_of s' = labels_of s /\ is_ok r = false)) /\
    forall y, r = Ok y -> exists c, c = snd (ensure_spec (x :: l) (labels_of s)) /\ y = c) s).
  { intros [H1 H2]. split; [exact H1|]. intros c Hc. by destruct (H2 c Hc) as (? & -> & ->). }
  eapply (wp_update _ _ (fun g => fst (ensure_spec (x :: l) g)) (fun g c => c = snd (ensure_spec (x :: l) g))
            (fun c y => y = c)); [apply ensure_grows|done| |].
  - intros m m' c Hok Hf. by rewrite (ensure_labels _ _ _ _ Hok Hf).
  - intros c s1 a m' _ _ HI1 _. apply wp_bind.
    eapply wp_mono; [|by apply (keeps_open_created sha256 (x :: l) c s1)].
    intros s2 [[]|] (_ & Hs & _); (split; [done|]); [by intros y [= <-]|done].
Qed.

Lemma remove_updates (s : Storage) id : Inv s -> is_Some (act s) ->
  updates s (delete id (labels_of s)) (remove_folder id s) /\
  (labels_of s !! id = None ->
   snd (remove_folder id s) = Err (Failed (StorageError.NotFound "folder not found in registry"))).
Proof.
  intros HI [a Ha]. destruct (Inv_meta s a HI Ha) as (Hok & Hst & _).
  assert (labels_of s = labels (st_meta (state a))) as Hl by (unfold labels_of; by rewrite Ha). split.
  - cut (wp (remove_folder id) (fun s' r =>
      labels_of s' = delete id (labels_of s) \/ (labels_of s' = labels_of s /\ is_ok r = false)) s); [done|].
    assert (forall s1 e, session s1 = session s ->
      labels_of s1 = delete id (labels_of s) \/ (labels_of s1 = labels_of s /\ is_ok (A := unit) (Err (E := Failure) e) = false)) as Herr.
    { intros s1 e Hs. right. split; [by apply labels_of_session|done]. }
    unfold remove_folder. apply wp_bind.
    eapply wp_mono; [|by apply (keeps_resolve (fun _ => True))]. intros s1 [[sk lb]|] (HI1 & Hs1 & _); [|by apply Herr].
    apply wp_bind. eapply wp_mono; [|by apply (keeps_evict (fun _ => True))].
    intros s2 [[]|] (HI2 & Hs2 & _); [|apply Herr; congruence].
    apply wp_bind. eapply wp_mono; [|by apply (keeps_list_objects (fun _ => True))].
    intros s3 [items|] (HI3 & Hs3 & Hb); [|apply Herr; congruence].
    apply wp_bind. eapply wp_mono; [|apply (keeps_delete_all (path_from sk) items); [by apply Hb|done|done]].
    intros s4 [[]|] (HI4 & Hs4 & _); [|apply Herr; congruence].
    eapply wp_modify_meta; [apply remove_grows|done|].
    assert (labels_of s4 = labels_of s) as Hl4 by (apply labels_of_session; congruence). rewrite <- Hl4.
    intros s5 [[]|e] _ _ Hact.
    + destruct Hact as (a4 & m' & Ha4 & Hf & Ha5). left. destruct (Inv_meta s4 a4 HI4 Ha4) as (Hok4 & _).
      unfold labels_of. rewrite Ha5, Ha4. cbn. by eapply remove_labels.
    + right. split; [|done]. unfold labels_of. by rewrite Hact.
  - rewrite Hl. intros Hn. unfold remove_folder, resolve_folder, se_bind, activated, se_lift. rewrite Ha. cbn.
    destruct (lm_get id (registry (state a))) as [[sk lb]|] eqn:E; [|done]. rewrite Hst in E.
    apply registry_get in E as (k & Hk & _); [|done].
    assert (labels (st_meta (state a)) !! id = Some lb) by (apply labels_lookup; eauto). congruence.
Qed.

Lemma list_folders_exact (s : Storage) : Inv s -> is_Some (act s) ->
  exists l, list_folders s = (s, Ok l) /\ Sorted triple_le l /\
    (forall id label, (exists sk, (id, label, sk) ∈ l) <-> labels_of s !! id = Some label).
Proof.
  intros HI [a Ha]. destruct (Inv_meta s a HI Ha) as (Hok & Hst & _).
  unfold list_folders, se_bind, activated, se_ret. rewrite Ha. cbn. eexists. split; [done|].
  split; [apply Sorted_merge_sort; apply _|]. intros id label. unfold labels_of. rewrite Ha.
  rewrite labels_lookup by done. setoid_rewrite merge_sort_Permutation. setoid_rewrite list_elem_of_fmap. split.
  - intros (sk & [i [sk' lb]] & E & Hin). cbn in E. injection E as -> -> ->. rewrite Hst in Hin.
    apply registry_elem in Hin as (k & Hk & _). eauto.
  - intros [k Hk]. exists (folder_storage_key k), (id, (folder_storage_key k, label)). split; [done|].
    apply lm_get_elem. rewrite Hst. apply registry_get; eauto.
Qed.

(** C15: the folder registry. In every state that processes running one after
    the other can reach (any operations, failing requests, crashes and
    restarts under any epochs), the registry operations implement a map from ids to labels:
    registering adds a new id or refuses a known one, [ensure_folders] sets the
    label of every folder and reports exactly the new ones, removing deletes
    the id or reports that it is unknown. An operation that fails has made its
    whole change or none. [list_folders] lists exactly the map, ordered by id. *)
Theorem registry_refines (o : OS) (provider : option (bytes -> option bytes)) (s : Storage)
  (Hblank : blank o) (Hrun : rtc (sys_step sha256) (new o provider) s) (Hact : is_Some (act s)) :
  (forall id label,
     match labels_of s !! id with
     | None => updates s (<[ id := label ]> (labels_of s)) (register_folder sha256 id label s)
     | Some _ => snd (register_folder sha256 id label s) =
                   Err (Failed (StorageError.InvalidInput "folder already registered")) /\
                 labels_of (fst (register_folder sha256 id label s)) = labels_of s
     end) /\
  (forall l,
     updates s (fst (ensure_spec l (labels_of s))) (ensure_folders sha256 l s) /\
     forall created, snd (ensure_folders sha256 l s) = Ok created -> created = snd (ensure_spec l (labels_of s))) /\
  (forall id,
     updates s (delete id (labels_of s)) (remove_folder id s) /\
     (labels_of s !! id = None ->
      snd (remove_folder id s) = Err (Failed (StorageError.NotFound "folder not found in registry")))) /\
  (exists l, list_folders s = (s, Ok l) /\ Sorted triple_le l /\
     forall id label, (exists sk, (id, label, sk) ∈ l) <-> labels_of s !! id = Some label).
Proof.
  pose proof (reachable_Inv sha256 o provider s Hblank Hrun) as HI. split_and!.
  - intros id label. by eapply register_updates.
  - intros l. by eapply ensure_updates.
  - intros id. by eapply remove_updates.
  - by eapply list_folders_exact.
Qed.

(** ** Directories *)

Lemma ensure_persists (l : list (bytes * bytes)) (m m' : Meta) (created : list bool) k e :
  ensure_in l m = Ok (m', created) -> meta_ok m -> folders m !! k = Some e ->
  exists label, folders m' !! k = Some (mkFolderEntry (entry_id e) label).
Proof.
  revert m m' created e. induction l as [|[id label] l IH]; intros m m' created e; cbn [ensure_in].
  { intros [= <- _] _ Hk. exists (entry_label e). by destruct e. }
  destruct (find_entry m id) as [[k0 e0]|] eqn:Ef.
  - apply find_entry_Some in Ef as [Hk0 _]. destruct (ensure_in l _) as [[m1 c]|] eqn:El; [|done].
    intros [= <- _] Hok Hk. pose proof (relabel_ok m k0 e0 label Hok Hk0) as Hok'.
    destruct (decide (k0 = k)) as [->|Hne].
    + rewrite Hk0 in Hk. injection Hk as ->.
      by destruct (IH _ _ _ _ El Hok' (lookup_insert_eq _ _ _)) as (lb & ?); exists lb.
    + apply (IH _ _ _ e El Hok'). cbn. by rewrite lookup_insert_ne.
  - destruct (add_folder m id label) as [[m1 k1]|] eqn:Ea; [|done]. cbn [rbind].
    destruct (ensure_in l m1) as [[m2 c]|] eqn:El; [|done]. intros [= <- _] Hok Hk.
    apply add_folder_ok in Ea as (Hok1 & _ & _ & Hf & Hnone); [|done|intros; by eapply find_entry_None].
    apply (IH _ _ _ e El Hok1). rewrite Hf, lookup_insert_ne; [done|]. by intros ->; rewrite Hk in Hnone.
Qed.

Lemma ensure_new (l : list (bytes * bytes)) (m m' : Meta) (created : list bool) i id label :
  ensure_in l m = Ok (m', created) -> meta_ok m -> l !! i = Some (id, label) -> created !! i = Some true ->
  exists k n lb, folders m' !! k = Some (mkFolderEntry id lb) /\ next_folder_key m <= n /\ key_of n k.
Proof.
  revert m m' created i. induction l as [|[id0 label0] l IH]; intros m m' created i; cbn [ensure_in]; [done|].
  destruct (find_entry m id0) as [[k0 e0]|] eqn:Ef.
  - apply find_entry_Some in Ef as [Hk0 _]. destruct (ensure_in l _) as [[m1 c]|] eqn:El; [|done].
    intros [= <- <-] Hok Hi Hc. destruct i as [|i]; [done|].
    apply (IH _ _ _ i El (relabel_ok m k0 e0 label0 Hok Hk0) Hi Hc).
  - destruct (add_folder m id0 label0) as [[m1 k1]|] eqn:Ea; [|done]. cbn [rbind].
    destruct (ensure_in l m1) as [[m2 c]|] eqn:El; [|done]. intros [= <- <-] Hok Hi Hc.
    apply add_folder_ok in Ea as (Hok1 & Hn & Hkey & Hf & _); [|done|intros; by eapply find_entry_None].
    destruct i as [|i].
    + injection Hi as <- <-. destruct (ensure_persists _ _ _ _ k1 (mkFolderEntry id0 label0) El Hok1) as [lb Hlb];
        [by rewrite Hf, lookup_insert_eq|]. exists k1, (next_folder_key m), lb. split; [done|]. split; [lia|done].
    + destruct (IH _ _ _ i El Hok1 Hi Hc) as (k & n & lb & ? & ? & ?). exists k, n, lb. split_and!; [done|lia|done].
Qed.

Lemma unopened m k n (dirs : list bytes) : Forall (dir_below (next_folder_key m)) dirs ->
  next_folder_key m <= n -> key_of n k -> folder_storage_key k ∉ dirs.
Proof.
  intros Hd Hle Hk Hin. rewrite Forall_forall in Hd. apply (dir_below_not n k (folder_storage_key k) Hk eq_refl).
  eapply dir_below_mono; [done|by apply Hd].
Qed.

(** C23: the directory of a folder is never given to another one. In every state
    that processes running one after the other can reach, with any failures,
    crashes and restarts under any epochs: no two folders have the same
    directory, and a folder that [register_folder] or [ensure_folders] adds
    gets a directory in which no process has ever opened a database, also not
    for a folder that was removed. *)
Theorem directories_never_reused (o : OS) (provider : option (bytes -> option bytes)) (s : Storage)
  (Hblank : blank o) (Hrun : rtc (sys_step sha256) (new o provider) s) :
  (forall id1 id2 sk l1 l2, snd (resolve_folder id1 s) = Ok (sk, l1) -> snd (resolve_folder id2 s) = Ok (sk, l2) ->
     id1 = id2) /\
  (forall id label s' sk, register_folder sha256 id label s = (s', Ok sk) -> sk ∉ opened s) /\
  (forall l s' created i id label, ensure_folders sha256 l s = (s', Ok created) ->
     l !! i = Some (id, label) -> created !! i = Some true ->
     exists sk lb, snd (resolve_folder id s') = Ok (sk, lb) /\ sk ∉ opened s).
Proof.
  pose proof (reachable_Inv sha256 o provider s Hblank Hrun) as HI. split; [|split].
  - intros id1 id2 sk l1 l2. unfold resolve_folder, se_bind, activated, se_lift. cbn.
    destruct (act s) as [a|] eqn:Ha; cbn; [|done]. destruct (Inv_meta s a HI Ha) as (Hok & Hst & _).
    destruct (lm_get id1 _) as [x1|] eqn:E1; [|done]. destruct (lm_get id2 _) as [x2|] eqn:E2; [|done].
    cbn. intros [= ->] [= ->]. rewrite Hst in E1, E2.
    apply registry_get in E1 as (k1 & H1 & ->); [|done]. apply registry_get in E2 as (k2 & H2 & E); [|done].
    apply app_inv_head in E. subst k2. rewrite H1 in H2. by injection H2.
  - intros id label s' sk Hreg.
    cut (wp (register_folder sha256 id label) (fun _ r => forall sk, r = Ok sk -> sk ∉ opened s) s).
    { unfold wp. rewrite Hreg. cbn. intros H. by apply H. }
    apply wp_bind. eapply wp_modify_meta; [apply register_grows|done|]. intros s1 [x|e] HI1 _ Hm; [|done].
    destruct Hm as (a & m' & Ha & Hf & Ha'). destruct (Inv_meta s a HI Ha) as (Hok & _ & Hd).
    apply wp_bind. eapply (wp_mono _ (fun _ _ => True)); [|done]. intros s2 [[]|] _; [|done]. intros sk1 [= <-].
    unfold register_in in Hf. destruct (has_folder _ id) eqn:Hid; [done|].
    destruct (add_folder _ id label) as [[m1 k]|] eqn:Ea; [|done]. injection Hf as <- <-.
    apply add_folder_ok in Ea as (_ & _ & Hk & _); [by eapply unopened|done|].
    intros k' e' Hk' He'. rewrite (proj2 (has_folder_true _ id)) in Hid; [done|eauto].
  - intros l s' created i id label Hens Hi Hc. destruct l as [|x l]; [done|].
    cut (wp (ensure_folders sha256 (x :: l)) (fun s' r => forall c, r = Ok c -> c !! i = Some true ->
           exists sk lb, snd (resolve_folder id s') = Ok (sk, lb) /\ sk ∉ opened s) s).
    { unfold wp. rewrite Hens. cbn [fst snd]. intros H. by apply (H created). }
    apply wp_bind. eapply wp_modify_meta; [apply ensure_grows|done|]. intros s1 [c|e] HI1 _ Hm; [|done].
    destruct Hm as (a & m' & Ha & Hf & Ha'). destruct (Inv_meta s a HI Ha) as (Hok & _ & Hd).
    destruct (ensure_grows _ _ _ _ Hok Hf) as [Hok' _].
    apply wp_bind. eapply wp_mono; [|by apply (keeps_open_created sha256 (x :: l) c s1)].
    intros s2 [[]|] (HI2 & Hs & _); [|done]. intros c1 [= <-] Hci.
    destruct (ensure_new _ _ _ _ _ _ _ Hf Hok Hi Hci) as (k & n & lb & Hk & Hle & Hkey).
    exists (folder_storage_key k), lb. split; [|by eapply unopened].
    unfold session in Hs. rewrite Ha' in Hs. destruct (act s2) as [a2|] eqn:Ha2; [|done]. injection Hs as _ Hst.
    unfold resolve_folder, se_bind, activated, se_lift. cbn. rewrite Ha2. cbn [ok_or]. rewrite Hst.
    by rewrite (proj2 (registry_get m' id (folder_storage_key k) lb Hok')) by eauto.
Qed.

End Theorems.

(** ** Examples *)

Import MetaTape.
#[local] Existing Instance StoreTape.codecs.

Abbreviation MemStorage :=
  (SlateStorage (OS := MemStore) (Db := MapDb) (HF := StoreTape.HFilter) (SF := StoreTape.SFilter)).

Definition epoch0 : Epoch := mkEpoch 0 (lit "00000000").
Definition epoch1 : Epoch := mkEpoch 1 (lit "00000001").
Definition epoch2 : Epoch := mkEpoch 2 (lit "00000002").
Definition blank_store : MemStore := mkMem ∅ None false.
Definition toy_sha (b : bytes) : bytes := b.

(** A process registers a folder and removes it; the next one, under a smaller
    epoch, adds another. *)
Definition session1 : MemStorage := fst (activate epoch1 (new blank_store None)).
Definition photos : MemStorage := run_op toy_sha (ORegister (lit "photos") (lit "Photos")) session1.
Definition removed : MemStorage := run_op toy_sha (ORemove (lit "photos")) photos.
Definition session2 : MemStorage :=
  fst (activate epoch0 (mkStorage (object_store removed) None None (opened removed))).
Definition docs : MemStorage := run_op toy_sha (OEnsure [(lit "docs", lit "Docs")]) session2.

Lemma good_epoch0 : good_epoch epoch0.
Proof. split; [reflexivity|cbn; lia]. Qed.

Lemma good_epoch1 : good_epoch epoch1.
Proof. split; [reflexivity|cbn; lia]. Qed.

Lemma good_epoch2 : good_epoch epoch2.
Proof. split; [reflexivity|cbn; lia]. Qed.

Lemma docs_reachable : rtc (sys_step toy_sha) (new blank_store None) docs.
Proof.
  eapply rtc_l; [eapply (sys_activate toy_sha (new blank_store None) session1 epoch1); [done|apply good_epoch1|vm_compute; reflexivity]|].
  eapply rtc_l; [by apply (sys_op toy_sha _ (ORegister (lit "photos") (lit "Photos")))|].
  eapply rtc_l; [by apply (sys_op toy_sha _ (ORemove (lit "photos")))|].
  eapply rtc_l; [by apply (sys_restart toy_sha _ None)|].
  eapply rtc_l; [eapply (sys_activate toy_sha _ session2 epoch0); [done|apply good_epoch0|vm_compute; reflexivity]|].
  eapply rtc_l; [by apply (sys_op toy_sha _ (OEnsure [(lit "docs", lit "Docs")]))|]. apply rtc_refl.
Qed.

Lemma blank_store_blank : blank blank_store.
Proof. intros l _. apply lookup_empty. Qed.

Lemma registry_refines_witness :
  labels_of docs !! lit "docs" = Some (lit "Docs") /\
  updates docs (delete (lit "docs") (labels_of docs)) (remove_folder (lit "docs") docs).
Proof.
  split; [by vm_compute|].
  assert (is_Some (act docs)) as Hact by (vm_compute; eauto).
  destruct (registry_refines toy_sha blank_store None docs blank_store_blank docs_reachable Hact) as (_ & _ & H & _).
  apply (H (lit "docs")).
Defined.

Lemma directories_never_reused_witness :
  opened docs = [lit "folder_00000001"; lit "folder_00000000"] /\
  exists s', register_folder toy_sha (lit "photos") (lit "Photos") docs = (s', Ok (lit "folder_00000002")) /\
    lit "folder_00000002" ∉ opened docs.
Proof.
  split; [vm_compute; reflexivity|]. eexists. split; [vm_compute; reflexivity|].
  destruct (directories_never_reused toy_sha blank_store None docs blank_store_blank docs_reachable) as (_ & H & _).
  eapply (H (lit "photos") (lit "Photos")). vm_compute; reflexivity.
Defined.

End Registry.
