(* ===== verification/Takeover.v ===== *)
(** The meta file across processes: an activation takes over what the previous
    epoch left, an update is all or nothing, a newer format is not touched; and
    what a late cleaning does to the meta of a later epoch. *)

From Stdlib Require Import ZArith Lia.
From stdpp Require Import base gmap list relations sorting strings.
From S2P Require Import Prelude BepTypes Base32 Codec Kv GcState Store StoreTape ReadOnly Fsck Folder.
From S2P Require Import Meta ObjectStore Activation ActivationSafety MetaTape Registry.

Local Open Scope Z_scope.
Local Open Scope bep_scope.

Module Takeover.
Import Base32 Kv Store Meta ObjectStore Activation ActivationSafety.

Section Takeover.
Context {OS Db : Type} `{!ObjectStore OS} `{!ObjectStoreLaws OS} `{!SlateDb Db} `{!OpenDb OS Db} `{!OpenDbLaws OS Db}.
Context {SC : StoreCodecs} {HF SF : Type} `{!Bloom bytes HF} `{!Bloom Z SF}.
Context {HT : HumanTime} {HTL : HumanTimeLaws} {TM : Toml} {TML : TomlLaws} {B64 : Base64} (sha256 : bytes -> bytes).
Abbreviation Storage := (SlateStorage (OS := OS) (Db := Db) (HF := HF) (SF := SF)).

Lemma holds_meta_objects o o' m : os_objects o' = os_objects o -> holds_meta o m -> holds_meta o' m.
Proof. intros E. unfold holds_meta, newest, present. by rewrite E. Qed.

(** A write under an epoch that is not below the others is what is read. *)
Lemma written_holds (o o' : OS) (e : Epoch) (m : Meta) (b : bytes) :
  good_epoch e -> (forall e', good_epoch e' -> present o e' -> val e' <= val e) ->
  durations_ok (checkpoint m) -> print_meta (current_format m) = Some b ->
  os_objects o' !! meta_path e = Some b -> fewer o o' \/ os_objects o' = <[ meta_path e := b ]> (os_objects o) ->
  holds_meta o' (current_format m).
Proof.
  intros He Hmax Hd Hp Hb Ho. apply parse_print in Hp as [Hu Hparse]; [|done].
  left. exists e, b. split; [|done]. split; [done|]. split; [by eexists|]. intros e' He' Hp'.
  destruct Ho as [Hf|Ho]; [apply Hmax; [done|by eapply fewer_present]|].
  unfold present in Hp'. rewrite Ho, lookup_insert_is_Some' in Hp'. destruct Hp' as [E|?]; [|by apply Hmax].
  apply meta_path_inj in E; [|done..]. by subst.
Qed.

(** Where there is a file, one is the newest. *)
Lemma newest_exists (o : OS) (e : Epoch) : epoch_names o -> good_epoch e -> present o e -> exists e', newest o e'.
Proof.
  intros Hnames He Hp. set (ls := filter at_root (elements (dom (os_objects o)))).
  assert (forall l, l ∈ ls <-> at_root l /\ is_Some (os_objects o !! l)) as Hls.
  { intros l. unfold ls. by rewrite list_elem_of_filter, elem_of_elements, elem_of_dom. }
  assert (forall e', good_epoch e' -> present o e' -> meta_path e' ∈ ls) as Hin.
  { intros e' He' Hp'. apply Hls. split; [by apply meta_path_root|done]. }
  assert (forall l, l ∈ ls -> is_meta_name l = true -> exists e, good_epoch e /\ l = meta_path e) as Hall.
  { intros l [Hr Hs]%Hls Hn. by apply Hnames. }
  pose proof (pick_largest ls None Hall ltac:(done)) as Hpick. destruct (foldl pick None ls) as [l|].
  - destruct Hpick as [[Hl|?] (e' & He' & -> & Hmax)]; [|done].
    exists e'. split; [done|]. split; [by apply Hls|]. intros e2 He2 Hp2. apply Hmax; [done|left; by apply Hin].
  - destruct Hpick as [_ Hno]. by destruct (Hno e He); apply Hin.
Qed.

(** Files that agree are read as one of them. *)
Lemma agree_holds (o : OS) (e : Epoch) (m : Meta) : epoch_names o -> good_epoch e -> present o e -> files_agree o m ->
  exists m', holds_meta o m' /\ current_format m' = current_format m.
Proof.
  intros Hnames He Hp Hag. destruct (newest_exists o e Hnames He Hp) as [e' Hn]. pose proof Hn as (He' & [b Hb] & _).
  destruct (Hag e' b He' Hb) as (Hu & m' & Hm' & Hc). exists m'. split; [|done]. left. by exists e', b.
Qed.

Lemma names_fewer (o o' : OS) : fewer o o' -> epoch_names o -> epoch_names o'.
Proof. intros Hf Hn l Hl Hname [b Hb]. apply Hn; [done|done|]. exists b. by eapply fewer_lookup. Qed.

Lemma names_put (o o' : OS) (e : Epoch) (b : bytes) :
  good_epoch e -> os_objects o' = <[ meta_path e := b ]> (os_objects o) -> epoch_names o -> epoch_names o'.
Proof. intros He Ho Hn l Hl Hname. rewrite Ho, lookup_insert_is_Some'. intros [<-|?]; [by exists e|by apply Hn]. Qed.

Lemma names_objects (o o' : OS) : os_objects o' = os_objects o -> epoch_names o -> epoch_names o'.
Proof. intros E Hn l. rewrite E. apply Hn. Qed.


(** A newer format is left alone. When the newest meta file has a format
    that this version does not know, activation fails, whatever the store
    does; it has written and deleted nothing and started no session, and a
    store that does not fail makes it report the two versions. *)
Theorem newer_format_untouched (s : Storage) (e : Epoch) (m : Meta)
  (Hact : act s = None) (Hnames : epoch_names (object_store s)) (Hm : holds_meta (object_store s) m)
  (Hversion : SUPPORTED_FORMAT_VERSION < format_version m) :
  let '(s', r) := activate e s in
  is_ok r = false /\ act s' = None /\ os_objects (object_store s') = os_objects (object_store s) /\
  (os_healthy (object_store s) ->
   r = Err (Failed (StorageError.UnsupportedVersion (format_version m) SUPPORTED_FORMAT_VERSION))).
Proof.
  apply wp_let. unfold activate. apply wp_bind. eapply wp_mono; [|by apply wp_activate_write].
  intros s1 r [(o & -> & Ho & Hr & Hbad)|(m' & o & -> & Hm' & Hv & _)].
  - destruct r as [|er]; [done|]. split; [done|]. split; [done|]. split; [done|].
    intros Hh. destruct (Hbad m Hh Hm) as [_ [= <-]]. done.
  - exfalso. assert (m' = m) as -> by by eapply holds_meta_unique. lia.
Qed.

(** C28: an update of the meta is all or nothing. In a session whose epoch is
    the newest, [modify_meta] with any closure: when it succeeds, the closure
    succeeded on the cached meta, and its result is both the cached meta and
    what a reader finds; when it fails, the cached meta is unchanged, and in the
    store either nothing changed or the whole new meta is there (the answer to
    the write was lost). *)
Theorem modify_meta_atomic {A : Type} (f : Meta -> result Failure (Meta * A)) (s : Storage) (a : Activated)
  (Hact : act s = Some a) (He : good_epoch (epoch a))
  (Hnew : forall e', good_epoch e' -> present (object_store s) e' -> val e' <= val (epoch a))
  (Hdur : forall m' x, f (st_meta (state a)) = Ok (m', x) -> durations_ok (checkpoint m')) :
  let '(s', r) := modify_meta f s in
  match r with
  | Ok x => exists m', f (st_meta (state a)) = Ok (m', x) /\ act s' = Some (set_state a (from_meta m')) /\
                       holds_meta (object_store s') (current_format m')
  | Err _ => act s' = act s /\
             (os_objects (object_store s') = os_objects (object_store s) \/
              exists m' x, f (st_meta (state a)) = Ok (m', x) /\ holds_meta (object_store s') (current_format m'))
  end.
Proof.
  apply wp_let. unfold modify_meta. apply wp_bind, wp_activated; [|congruence]. intros a' Ha'.
  rewrite Hact in Ha'. injection Ha' as <-. apply wp_bind, wp_lift.
  destruct (f (st_meta (state a))) as [[m' x]|er] eqn:Ef; [|by split; [|left]]. specialize (Hdur m' x eq_refl).
  apply wp_bind. unfold write_meta_to_disk. fold (current_format m').
  destruct (print_meta (current_format m')) as [b|] eqn:Hp; [|apply wp_err; by split; [|left]].
  unfold wp at 1, on_os. pose proof (put_law (meta_path (epoch a)) b (object_store s)) as Hput.
  destruct (os_put _ b (object_store s)) as [o r]. destruct Hput as [Hput _]. cbn [fst snd].
  assert (os_objects o = <[ meta_path (epoch a) := b ]> (os_objects (object_store s)) ->
    holds_meta o (current_format m')) as Hold.
  { intros Ho. eapply written_holds; [done|done|done|done|by rewrite Ho, lookup_insert_eq|by right]. }
  destruct r as [[]|er]; cbn [map_err].
  - apply wp_bind, wp_modify, wp_ret. cbn [set_os set_act act object_store]. rewrite Hact. exists m'.
    destruct Hput as [Ho|[_ ?]]; [|done]. auto.
  - split; [done|]. destruct Hput as [Ho|[Ho _]]; [right; eauto|by left].
Qed.

End Takeover.

(** ** Examples *)

Import MetaTape Registry.
#[local] Existing Instance StoreTape.codecs.

Definition photos_meta : Meta :=
  mkMeta 1 1 None {[ lit "00000000" := mkFolderEntry (lit "photos") (lit "Photos") ]} ∅.
Definition photos_text : bytes := default [] (print_meta photos_meta).
(** The next process, before it activates. *)
Definition next_process (s : MemStorage) : MemStorage := mkStorage (object_store s) None None (opened s).

Lemma photos_Inv : Inv photos.
Proof.
  apply (reachable_Inv toy_sha blank_store None); [apply blank_store_blank|].
  eapply rtc_l; [apply (sys_activate toy_sha (new blank_store None) session1 epoch1); [done|apply good_epoch1|vm_compute; reflexivity]|].
  eapply rtc_l; [by apply (sys_op toy_sha _ (ORegister (lit "photos") (lit "Photos")))|]. apply rtc_refl.
Qed.

Lemma photos_epochs e : good_epoch e -> present (object_store photos) e -> e = epoch1.
Proof.
  intros He Hp. assert (exists a, act photos = Some a /\ epoch a = epoch1) as (a & Ha & Hepoch).
  { eexists. split; vm_compute; reflexivity. }
  destruct photos_Inv as (n & _ & _ & Hs). destruct (Hs a Ha) as (_ & _ & Hon). rewrite <- Hepoch. by apply Hon.
Qed.

Lemma photos_names : epoch_names (object_store photos).
Proof. destruct photos_Inv as (n & Hd & _). by apply (disk_names _ n). Qed.

Lemma photos_holds : holds_meta (object_store photos) photos_meta.
Proof.
  left. exists epoch1, photos_text. split; [|split; [by vm_compute|split; by vm_compute]].
  split; [apply good_epoch1|]. split; [exists photos_text; by vm_compute|].
  intros e He Hp. by rewrite (photos_epochs e He Hp).
Qed.

Lemma photos_agree : files_agree (object_store photos) photos_meta.
Proof. destruct photos_Inv as (n & Hd & _). apply (disk_agree _ n Hd), photos_holds. Qed.


(** A store with a file of a later format, written by hand. *)
Definition later_meta : Meta := set_format_version photos_meta 2.
Definition later_store : MemStore := mkMem {[ meta_path epoch1 := default [] (print_meta later_meta) ]} None false.

Lemma later_lookup l b : os_objects later_store !! l = Some b -> l = meta_path epoch1.
Proof. cbn [later_store os_objects MemStore_ObjectStore mobjects]. by intros [<- _]%lookup_singleton_Some. Qed.

Lemma later_present e : good_epoch e -> present later_store e -> e = epoch1.
Proof.
  intros He [b Hb]. apply meta_path_inj; [done|apply good_epoch1|]. by eapply later_lookup.
Qed.

Lemma newer_format_untouched_witness :
  snd (activate epoch2 (new later_store None : MemStorage)) =
    Err (Failed (StorageError.UnsupportedVersion 2 1)) /\
  os_objects (object_store (fst (activate epoch2 (new later_store None : MemStorage)))) = os_objects later_store.
Proof.
  pose proof (newer_format_untouched (new later_store None : MemStorage) epoch2 later_meta) as H.
  destruct (activate epoch2 _) as [s' r]. destruct H as (_ & _ & Ho & Hr); [done| | |done|split; [by apply Hr|done]].
  - intros l _ _ [b ->%later_lookup]. exists epoch1. split; [apply good_epoch1|done].
  - left. exists epoch1. eexists. split; [|split; [by vm_compute|split; by vm_compute]].
    split; [apply good_epoch1|]. split; [eexists; by vm_compute|].
    intros e He Hp. by rewrite (later_present e He Hp).
Defined.

Lemma modify_meta_atomic_witness :
  let '(s', r) := modify_meta (register_in (lit "docs") (lit "Docs")) photos in
  r = Ok (lit "folder_00000001") /\ exists m', holds_meta (object_store s') m' /\ next_folder_key m' = 2.
Proof.
  assert (exists a, act photos = Some a /\ epoch a = epoch1 /\ st_meta (state a) = photos_meta) as (a & Ha & He & Hm).
  { eexists. split; [by vm_compute|]. split; by vm_compute. }
  pose proof (modify_meta_atomic (register_in (lit "docs") (lit "Docs")) photos a Ha) as H.
  assert (snd (modify_meta (register_in (lit "docs") (lit "Docs")) photos) = Ok (lit "folder_00000001")) as Er
    by by vm_compute.
  destruct (modify_meta _ photos) as [s' r]. cbn [snd] in Er. subst r. rewrite He, Hm in H.
  destruct H as (m' & Hf & _ & Hold); [apply good_epoch1|by intros e' He' Hp'; rewrite (photos_epochs e' He' Hp')| |].
  - intros m' x Hf. assert (checkpoint m' = ∅) as -> by (revert Hf; vm_compute; intros [= <- _]; done). done.
  - split; [done|]. exists (current_format m'). split; [done|]. revert Hf. vm_compute. intros [= <-]. done.
Defined.

(** ** A late cleaning *)

(** The first process is suspended between the two halves of its activation;
    the second one takes over the repository and registers a folder; then the
    first goes on, on the same object store. *)
Definition epoch3 : Epoch := mkEpoch 3 (lit "00000003").
Definition suspended : MemStorage := fst (activate_write epoch1 (new blank_store None)).
Definition owner : MemStorage :=
  run_op toy_sha (ORegister (lit "photos") (lit "Photos")) (fst (activate epoch2 (next_process suspended))).
Definition resumed : MemStorage := fst (clean_meta (set_os suspended (object_store owner))).
Definition third : MemStorage := fst (activate epoch3 (next_process resumed)).

(** A late cleaning deletes the meta of the later epoch. [clean_meta]
    deletes every meta file but its own, also those of later epochs. A process
    that is suspended in its activation and resumes after another one has taken
    over leaves the store without any meta file: the next process finds no
    folders, and gives the directory of the registered folder to another one. *)
Theorem late_clean_deletes_newer_meta :
  snd (activate epoch2 (next_process suspended)) = Ok tt /\
  snd (resolve_folder (lit "photos") owner) = Ok (lit "folder_00000000", lit "Photos") /\
  snd (clean_meta (set_os suspended (object_store owner))) = Ok tt /\
  os_objects (object_store resumed) = {[ lit "folder_00000000/manifest" := [] ]} /\
  snd (list_folders third) = Ok [] /\
  snd (register_folder toy_sha (lit "docs") (lit "Docs") third) = Ok (lit "folder_00000000").
Proof. do 5 (split; [vm_compute; reflexivity|]). vm_compute; reflexivity. Qed.

End Takeover.
