(* ===== verification/Checkpoints.v ===== *)
(** Checkpoints of a repository: creating and refreshing them, their ages
    ([bepository-storage/src/api.rs]), the list of snapshots
    ([bepository-storage/src/snapshot_fs.rs]) and the start of the checkpoint
    tasks ([bepository-cli/src/main.rs]).

    The checkpoints themselves belong to the database library: an interface
    that creates, lists and refreshes them. Times and durations are integers
    counting nanoseconds. *)

From Stdlib Require Import ZArith Lia Sorting.Sorted.
From stdpp Require Import base gmap list relations sorting strings.
From S2P Require Import Prelude BepTypes Base32 Codec Kv GcState Store StoreTape Snapshot.
From S2P Require Import Meta ObjectStore Activation ActivationSafety MetaTape Registry Takeover.

Local Open Scope Z_scope.
Local Open Scope bep_scope.

Module Checkpoints.
Import Base32 Kv Store Meta ObjectStore Activation ActivationSafety.

(** [slatedb::Checkpoint]. *)
Record Checkpoint := mkCheckpoint { cp_id : bytes; cp_name : option bytes; create_time : Z }.

(** [Db::create_checkpoint] and the [Admin] handle; [checkpoints_of] is what a
    database has (for the laws only). *)
Class CheckpointDb (OS Db : Type) := {
  db_create_checkpoint : bytes -> Z -> SE Db SlateError unit;
  admin_list_checkpoints : bytes -> option bytes -> SE OS SlateError (list Checkpoint);
  admin_refresh_checkpoint : bytes -> bytes -> Z -> SE OS SlateError unit;
  checkpoints_of : OS -> bytes -> list Checkpoint
}.

Class CheckpointLaws (OS Db : Type) `{ObjectStore OS, CheckpointDb OS Db} : Prop := {
  list_root_checkpoints : forall o, checkpoints_of (fst (os_list_root o)) = checkpoints_of o;
  get_checkpoints : forall l o, checkpoints_of (fst (os_get l o)) = checkpoints_of o;
  admin_list_law : forall sk o, let '(o', r) := admin_list_checkpoints sk None o in
    checkpoints_of o' = checkpoints_of o /\ (forall l, r = Ok l -> l = checkpoints_of o sk)
}.

(** ** Snapshots *)

(** [SlateSnapshotRef]. *)
Record SnapshotRef := mkSnapshotRef {
  folder_label : bytes;
  snap_time : Z;
  folder_sk : bytes;
  snap_id : bytes
}.

(** [sort_by(|a, b| a.0.cmp(&b.0))] on the labels. *)
Definition label_le {A : Type} (a b : bytes * A) : Prop := bytes_cmp (fst a) (fst b) <> Gt.

#[export] Instance label_le_dec {A : Type} (a b : bytes * A) : Decision (label_le a b).
Proof. unfold label_le. destruct (bytes_cmp _ _); (left; discriminate) || (right; congruence). Defined.

(** [sort_by_key(|snap| Reverse(snap.create_time))]. *)
Definition newer_first (a b : SnapshotRef) : Prop := snap_time b <= snap_time a.

#[export] Instance newer_first_dec a b : Decision (newer_first a b).
Proof. unfold newer_first. apply _. Defined.

Definition folder_snapshots (x : bytes * (bytes * list Checkpoint)) : list SnapshotRef :=
  let '(label, (sk, cps)) := x in
  merge_sort newer_first (map (fun cp => mkSnapshotRef label (create_time cp) sk (cp_id cp)) cps).

#[export] Instance label_le_total {A : Type} : Total (@label_le A).
Proof.
  intros a b. unfold label_le. rewrite (bytes_cmp_antisym (fst a) (fst b)).
  destruct (bytes_cmp _ _); simpl; auto.
Qed.

#[local] Instance not_gt_trans : Transitive (fun a b => bytes_cmp a b <> Gt).
Proof. intros a b c. exact (key_le_trans (a, []) (b, []) (c, [])). Qed.

(** ** The start of the checkpoint tasks *)

Definition MIN_INTERVAL : Z := 600 * SECOND.

(** [validate_checkpoint_duration]; [None] is the error. *)
Definition validate_checkpoint_duration (d : Z) : option Z := if d <? MIN_INTERVAL then None else Some d.

(** [Duration::checked_sub] and the delay before the first checkpoint. *)
Definition checked_sub (a b : Z) : option Z := if a <? b then None else Some (a - b).

Definition initial_delay (interval : Z) (age : option Z) : Z :=
  default 0 (match age with Some a => checked_sub interval a | None => None end).

Section Checkpoints.
Context {OS Db : Type} `{!ObjectStore OS} `{!SlateDb Db} `{!OpenDb OS Db} `{!CheckpointDb OS Db} {SC : StoreCodecs}.
Context {HF SF : Type} `{!Bloom bytes HF} `{!Bloom Z SF}.
Context {HT : HumanTime} {TM : Toml} {B64 : Base64} (sha256 : bytes -> bytes).
Abbreviation Storage := (SlateStorage (OS := OS) (Db := Db) (HF := HF) (SF := SF)).
Abbreviation M := (SE (SlateStorage (OS := OS) (Db := Db) (HF := HF) (SF := SF)) Failure).

(** [create_checkpoints]: on the database of every folder; the first failure
    ends it. *)
Fixpoint create_on (name : bytes) (ttl : Z) (l : list (bytes * bytes * bytes)) : M unit :=
  match l with
  | [] => se_ret tt
  | (_, _, sk) :: l' =>
      run! on_store sha256 sk (fun st =>
        let '(d, r) := db_create_checkpoint (OS := OS) name ttl (db st) in
        (mkStore d (gc st) (blockseq st), map_err (fun _ => StorageError.TransientIo "create checkpoint") r));
      create_on name ttl l'
  end.

Definition create_checkpoints (interval ttl : Z) : M unit :=
  do! l <- list_folders;
  create_on (format_duration interval) ttl l.

(** [refresh_checkpoints]. *)
Fixpoint refresh_all (sk : bytes) (ttl : Z) (cps : list Checkpoint) : M unit :=
  match cps with
  | [] => se_ret tt
  | cp :: cps' =>
      run! on_os "refresh checkpoint" (admin_refresh_checkpoint (Db := Db) sk (cp_id cp) ttl);
      refresh_all sk ttl cps'
  end.

Fixpoint refresh_on (name : bytes) (ttl : Z) (l : list (bytes * bytes * bytes)) : M unit :=
  match l with
  | [] => se_ret tt
  | (_, _, sk) :: l' =>
      do! cps <- on_os "list checkpoints" (admin_list_checkpoints (Db := Db) sk (Some name));
      run! refresh_all sk ttl cps;
      refresh_on name ttl l'
  end.

Definition refresh_checkpoints (interval ttl : Z) : M unit :=
  do! l <- list_folders;
  refresh_on (format_duration interval) ttl l.

(** [list_checkpoints_unlocked]. *)
Fixpoint list_each (l : list (bytes * FolderEntry)) : M (list (bytes * (bytes * list Checkpoint))) :=
  match l with
  | [] => se_ret []
  | (key, entry) :: l' =>
      do! cps <- on_os "list checkpoints" (admin_list_checkpoints (Db := Db) (folder_storage_key key) None);
      do! rest <- list_each l';
      se_ret ((entry_label entry, (folder_storage_key key, cps)) :: rest)
  end.

Definition list_checkpoints_unlocked :
  M (gmap Z CheckpointSchedule * list (bytes * (bytes * list Checkpoint))) :=
  do! m <- read_meta_unlocked;
  do! l <- list_each (iter (folders m));
  se_ret (checkpoint m, merge_sort label_le l).

(** [SnapshotFs::list_snapshots]. *)
Definition list_snapshots (s : Storage) : Storage * result Snapshot.SnapshotError (list SnapshotRef) :=
  match list_checkpoints_unlocked s with
  | (s', Ok (_, l)) => (s', Ok (concat (map folder_snapshots l)))
  | (s', Err _) => (s', Err (Snapshot.Io "list checkpoints"))
  end.

(** [list_all_checkpoint_ages]: the newest time per interval, then the ages. *)
Definition record_time (latest : gmap Z Z) (cp : Checkpoint) : gmap Z Z :=
  match cp_name cp with
  | Some name =>
      match parse_duration name with
      | Some interval =>
          <[ interval := match latest !! interval with
                         | Some t => Z.max t (create_time cp)
                         | None => create_time cp
                         end ]> latest
      | None => latest
      end
  | None => latest
  end.

Fixpoint latest_times (l : list (bytes * bytes * bytes)) (latest : gmap Z Z) : M (gmap Z Z) :=
  match l with
  | [] => se_ret latest
  | (_, _, sk) :: l' =>
      do! cps <- on_os "list checkpoints" (admin_list_checkpoints (Db := Db) sk None);
      latest_times l' (foldl record_time latest cps)
  end.

Definition list_all_checkpoint_ages (now : Z) : M (gmap Z Z) :=
  do! l <- list_folders_unlocked;
  do! latest <- latest_times l ∅;
  se_ret (omap (fun t => if t <=? now then Some (now - t) else None) latest).

(** [most_recent_checkpoint_age]. *)
Definition most_recent_checkpoint_age (now interval : Z) : M (option Z) :=
  do! ages <- list_all_checkpoint_ages now; se_ret (ages !! interval).

(** [spawn_checkpoint_tasks]: the tasks it starts, each with its interval, the
    time to live and the delay before the first checkpoint. *)
Definition checkpoint_tasks (m : Meta) (now : Z) (s : Storage) : list (Z * Z * Z) :=
  let ages := match snd (list_all_checkpoint_ages now s) with Ok ages => ages | Err _ => ∅ end in
  omap (fun kv => if fst kv <? MIN_INTERVAL then None
                  else Some (fst kv, ttl (snd kv), initial_delay (fst kv) (ages !! fst kv)))
    (iter_durations (checkpoint m)).

(** ** Facts *)

Context `{!ObjectStoreLaws OS} {CPL : CheckpointLaws OS Db}.

(** A checkpoint of a registered folder for an interval, and the newest. *)
Definition taken (o : OS) (m : Meta) (interval t : Z) : Prop :=
  exists k e cp name, folders m !! k = Some e /\ cp ∈ checkpoints_of (Db := Db) o (folder_storage_key k) /\
    cp_name cp = Some name /\ parse_duration name = Some interval /\ create_time cp = t.

Definition newest_taken (o : OS) (m : Meta) (interval t : Z) : Prop :=
  taken o m interval t /\ forall t', taken o m interval t' -> t' <= t.

(** Reading the meta changes no checkpoint. *)
Lemma read_meta_checkpoints (s : Storage) :
  checkpoints_of (Db := Db) (object_store (fst (read_meta_unlocked s))) = checkpoints_of (Db := Db) (object_store s).
Proof.
  unfold read_meta_unlocked, se_bind, on_os. pose proof (list_root_checkpoints (Db := Db) (object_store s)) as Hl.
  destruct (os_list_root (object_store s)) as [o [ls|e]]; cbn in *; [|done].
  destruct (foldl pick None ls) as [l|]; [|done]. unfold read_meta_at. cbn.
  pose proof (get_checkpoints (Db := Db) l o) as Hg. destruct (os_get l o) as [o2 [[text|e]|[]]]; cbn in *; [|congruence..].
  unfold parse_meta_result. destruct (utf8_valid text); [|cbn; congruence]. destruct (parse_meta text); cbn; congruence.
Qed.

(** The time that a checkpoint records for an interval. *)
Definition stamps (interval : Z) (cp : Checkpoint) : option Z :=
  match cp_name cp with
  | Some name => if decide (parse_duration name = Some interval) then Some (create_time cp) else None
  | None => None
  end.

Lemma record_time_lookup (g : gmap Z Z) (cp : Checkpoint) (i : Z) :
  record_time g cp !! i = match stamps i cp with
                          | Some t => Some (match g !! i with Some t0 => Z.max t0 t | None => t end)
                          | None => g !! i
                          end.
Proof.
  unfold record_time, stamps. destruct (cp_name cp) as [name|]; [|done].
  destruct (parse_duration name) as [j|]; [|by rewrite decide_False].
  destruct (decide (Some j = Some i)) as [[= ->]|Hne]; [apply lookup_insert_eq|].
  rewrite lookup_insert_ne; [done|]. by intros ->.
Qed.

(** The fold keeps the largest time. *)
Lemma record_times_spec (cps : list Checkpoint) (g : gmap Z Z) (i t : Z) :
  foldl record_time g cps !! i = Some t <->
  (g !! i = Some t \/ exists cp, cp ∈ cps /\ stamps i cp = Some t) /\
  (forall t', g !! i = Some t' -> t' <= t) /\ (forall cp t', cp ∈ cps -> stamps i cp = Some t' -> t' <= t).
Proof.
  revert g. induction cps as [|cp cps IH]; intros g; cbn [foldl].
  { split; [|by intros [[?|(? & []%not_elem_of_nil & _)] _]].
    intros H. split; [by left|]. split; [intros t' Ht'; rewrite H in Ht'; by injection Ht' as ->|by intros ?? []%not_elem_of_nil]. }
  rewrite IH, record_time_lookup. setoid_rewrite elem_of_cons. destruct (stamps i cp) as [tc|] eqn:Es.
  - destruct (g !! i) as [t0|]; split.
    + intros (Hor & H1 & H2). specialize (H1 _ eq_refl). split; [|split].
      * destruct Hor as [[= <-]|(cp' & ? & ?)]; [|right; eauto].
        destruct (Z.max_spec t0 tc) as [[_ ->]|[_ ->]]; [right|by left]. eauto.
      * intros t' [= <-]. lia.
      * intros cp' t' [->|?] Ht'; [|eauto]. rewrite Es in Ht'. injection Ht' as <-. lia.
    + intros (Hor & H1 & H2). specialize (H1 _ eq_refl). assert (tc <= t) by (eapply H2; eauto). split; [|split].
      * destruct Hor as [[= ->]|(cp' & [->|?] & Ht')]; [left; f_equal; lia| |right; eauto].
        rewrite Es in Ht'. injection Ht' as ->. left. f_equal. lia.
      * intros t' [= <-]. lia.
      * intros cp' t' ? Ht'. eapply H2; eauto.
    + intros (Hor & H1 & H2). specialize (H1 _ eq_refl). split; [|split; [done|]].
      * destruct Hor as [[= <-]|(cp' & ? & ?)]; right; eauto.
      * intros cp' t' [->|?] Ht'; [|eauto]. rewrite Es in Ht'. injection Ht' as <-. lia.
    + intros (Hor & _ & H2). assert (tc <= t) by (eapply H2; eauto). split; [|split].
      * destruct Hor as [?|(cp' & [->|?] & Ht')]; [done| |right; eauto]. rewrite Es in Ht'. by left.
      * intros t' [= <-]. lia.
      * intros cp' t' ? Ht'. eapply H2; eauto.
  - split; intros (Hor & H1 & H2); (split; [|split; [done|]]).
    + destruct Hor as [?|(cp' & ? & ?)]; [by left|right; eauto].
    + intros cp' t' [->|?] Ht'; [congruence|eauto].
    + destruct Hor as [?|(cp' & [->|?] & ?)]; [by left|congruence|right; eauto].
    + intros cp' t' ? Ht'. eapply H2; eauto.
Qed.

Lemma latest_times_spec (l : list (bytes * bytes * bytes)) (g g' : gmap Z Z) (s : Storage) :
  snd (latest_times l g s) = Ok g' ->
  g' = foldl record_time g (concat (map (fun x => checkpoints_of (Db := Db) (object_store s) (snd x)) l)).
Proof.
  revert g s. induction l as [|[[id label] sk] l IH]; intros g s; cbn [latest_times map concat]; [by intros [= <-]|].
  unfold se_bind, on_os. pose proof (admin_list_law (Db := Db) sk (object_store s)) as Hlaw.
  destruct (admin_list_checkpoints sk None (object_store s)) as [o [cps|e]]; cbn [map_err snd]; [|done].
  destruct Hlaw as [Ho Hcps]. specialize (Hcps cps eq_refl). intros ->%IH. cbn [set_os object_store snd].
  rewrite foldl_app, Ho, Hcps. done.
Qed.

(** The ages that are found. *)
Lemma ages_spec (now : Z) (s : Storage) (m : Meta) (ages : gmap Z Z) :
  epoch_names (object_store s) -> holds_meta (object_store s) m ->
  snd (list_all_checkpoint_ages now s) = Ok ages ->
  forall interval age, ages !! interval = Some age <->
    exists t, newest_taken (object_store s) m interval t /\ t <= now /\ age = now - t.
Proof.
  intros Hnames Hm. unfold list_all_checkpoint_ages, list_folders_unlocked.
  pose proof (wp_read_meta s Hnames) as Hread. pose proof (read_meta_checkpoints s) as Hcp. unfold wp in Hread.
  unfold se_bind at 1. unfold se_bind at 1. destruct (read_meta_unlocked s) as [s1 [m1|e]]; cbn [fst snd] in *; [|done].
  destruct Hread as (o & -> & _ & Hr & _). specialize (Hr m1 eq_refl).
  assert (m1 = m) as -> by by eapply holds_meta_unique.
  unfold se_ret at 1. unfold se_bind at 1.
  destruct (latest_times (folder_triples_from_meta m) ∅ (set_os s o)) as [s2 [latest|e]] eqn:El; [|done].
  cbn [snd se_ret]. intros [= <-] interval age.
  pose proof (latest_times_spec _ _ latest (set_os s o) ltac:(by rewrite El)) as ->.
  cbn [set_os object_store] in *. rewrite Hcp. rewrite lookup_omap_Some.
  assert (forall t, foldl record_time ∅ (concat (map (fun x => checkpoints_of (Db := Db) (object_store s) (snd x))
            (folder_triples_from_meta m))) !! interval = Some t <-> newest_taken (object_store s) m interval t) as Hiff.
  { intros t. rewrite record_times_spec. rewrite lookup_empty.
    assert (forall t', (exists cp, cp ∈ concat (map (fun x => checkpoints_of (Db := Db) (object_store s) (snd x))
              (folder_triples_from_meta m)) /\ stamps interval cp = Some t') <-> taken (object_store s) m interval t') as Htaken.
    { intros t'. unfold taken, folder_triples_from_meta. setoid_rewrite list_elem_of_In. setoid_rewrite in_concat.
      setoid_rewrite in_map_iff. setoid_rewrite <- list_elem_of_In. setoid_rewrite merge_sort_Permutation.
      setoid_rewrite list_elem_of_fmap. split.
      - intros (cp & (l & ([[i lb] sk] & <- & ([k e] & E & Hin%elem_of_iter)) & Hcp') & Hs). cbn in *.
        injection E as -> -> ->. unfold stamps in Hs. destruct (cp_name cp) as [name|] eqn:En; [|done].
        case_decide; [|done]. injection Hs as <-. exists k, e, cp, name. done.
      - intros (k & e & cp & name & Hk%elem_of_iter & Hcp' & Hn & Hp & <-). exists cp. split.
        + eexists. split; [|exact Hcp']. exists (entry_id e, entry_label e, folder_storage_key k). split; [done|].
          exists (k, e). done.
        + unfold stamps. by rewrite Hn, decide_True. }
    unfold newest_taken. rewrite <- Htaken. split.
    - intros ([?|?] & _ & Hle); [done|]. split; [done|]. intros t' (cp & ? & ?)%Htaken. eauto.
    - intros (Ht & Hle). split; [by right|]. split; [done|]. intros cp t' ? ?. apply Hle, Htaken. eauto. }
  setoid_rewrite Hiff. split.
  - intros (t & Hif & Ht). exists t. destruct (Z.leb_spec t now); [|done]. by injection Hif as <-.
  - intros (t & Ht & Hle & ->). exists t. split; [|done]. destruct (Z.leb_spec t now); [done|lia].
Qed.

(** The first checkpoint of every schedule is on time. When the checkpoints
    can be listed, exactly the schedules with an interval of at least ten
    minutes get a task, with their time to live. The task creates its first
    checkpoint one interval after the newest checkpoint of that interval in any
    registered folder, or at once when that time has passed, when there is
    none, or when the newest one is dated in the future. *)
Theorem checkpoint_tasks_on_time (m m' : Meta) (now : Z) (s : Storage) (ages : gmap Z Z)
  (Hnames : epoch_names (object_store s)) (Hm : holds_meta (object_store s) m')
  (Hages : snd (list_all_checkpoint_ages now s) = Ok ages) :
  forall interval time_to_live delay,
    (interval, time_to_live, delay) ∈ checkpoint_tasks m now s <->
    checkpoint m !! interval = Some (mkSchedule time_to_live) /\ MIN_INTERVAL <= interval /\
    ((exists t, newest_taken (object_store s) m' interval t /\ t <= now /\ delay = Z.max 0 (t + interval - now)) \/
     ((forall t, newest_taken (object_store s) m' interval t -> now < t) /\ delay = 0)).
Proof.
  intros interval time_to_live delay. unfold checkpoint_tasks. rewrite Hages, list_elem_of_omap.
  pose proof (ages_spec now s m' ages Hnames Hm Hages interval) as Hspec.
  assert (initial_delay interval (ages !! interval) = delay <->
    ((exists t, newest_taken (object_store s) m' interval t /\ t <= now /\ delay = Z.max 0 (t + interval - now)) \/
     ((forall t, newest_taken (object_store s) m' interval t -> now < t) /\ delay = 0))) as Hdelay.
  { destruct (ages !! interval) as [age|] eqn:Ea.
    - destruct (proj1 (Hspec age) eq_refl) as (t & Ht & Hle & ->). cbn. unfold checked_sub.
      assert (forall t', newest_taken (object_store s) m' interval t' -> t' = t) as Hu.
      { intros t' [Ht' H']. destruct Ht as [Ht H]. apply H in Ht'. apply H' in Ht. lia. }
      assert (default 0 (if interval <? now - t then None else Some (interval - (now - t))) = Z.max 0 (t + interval - now)) as ->.
      { destruct (Z.ltb_spec interval (now - t)); cbn; lia. }
      split; [intros <-; left; by exists t|]. intros [(t' & ->%Hu & _ & ->)|[H _]]; [done|]. specialize (H t Ht). lia.
    - cbn. split.
      + intros <-. right. split; [|done]. intros t Ht. destruct (Z.lt_ge_cases now t); [done|].
        assert (None = Some (now - t)) by (apply Hspec; eauto). done.
      + intros [(t & Ht & Hle & _)|[_ ->]]; [|done]. assert (None = Some (now - t)) by (apply Hspec; eauto). done. }
  rewrite <- Hdelay. split.
  - intros ([i sch] & Hin%elem_of_iter_durations & Hif). cbn [fst snd] in *. destruct (Z.ltb_spec i MIN_INTERVAL); [done|].
    injection Hif as -> <- <-. destruct sch. split; [done|]. split; [lia|done].
  - intros (Hc & Hle & <-). exists (interval, mkSchedule time_to_live). split; [by apply elem_of_iter_durations|].
    cbn [fst snd ttl]. destruct (Z.ltb_spec interval MIN_INTERVAL); [lia|done].
Qed.

(** ** The order of snapshots *)

Lemma list_each_spec (l : list (bytes * FolderEntry)) (s : Storage) out :
  snd (list_each l s) = Ok out ->
  out = map (fun ke => (entry_label (snd ke), (folder_storage_key (fst ke),
                        checkpoints_of (Db := Db) (object_store s) (folder_storage_key (fst ke))))) l.
Proof.
  revert s out. induction l as [|[key entry] l IH]; intros s out; cbn [list_each map]; [by intros [= <-]|].
  unfold se_bind at 1, on_os. pose proof (admin_list_law (Db := Db) (folder_storage_key key) (object_store s)) as Hlaw.
  destruct (admin_list_checkpoints (folder_storage_key key) None (object_store s)) as [o [cps|e]]; cbn [map_err snd]; [|done].
  destruct Hlaw as [Ho Hcps]. specialize (Hcps cps eq_refl). unfold se_bind.
  specialize (IH (set_os s o)). destruct (list_each l (set_os s o)) as [s2 [rest|e]]; [|done]. cbn [snd se_ret] in *.
  intros [= <-]. rewrite (IH rest eq_refl). cbn [set_os object_store fst snd]. by rewrite Ho, Hcps.
Qed.

(** The order of the list: folders by label, each folder newest first. *)
Definition listed_before (a b : SnapshotRef) : Prop :=
  bytes_cmp (folder_label a) (folder_label b) <> Gt /\ (folder_sk a = folder_sk b -> newer_first a b).

Lemma elem_of_folder_snapshots label sk cps snap :
  snap ∈ folder_snapshots (label, (sk, cps)) <->
  exists cp, cp ∈ cps /\ snap = mkSnapshotRef label (create_time cp) sk (cp_id cp).
Proof.
  clear sha256. cbn. rewrite merge_sort_Permutation, list_elem_of_fmap. split; intros (cp & ? & ?); by exists cp.
Qed.

Lemma folder_snapshots_sorted x : StronglySorted listed_before (folder_snapshots x).
Proof.
  destruct x as [label [sk cps]].
  assert (StronglySorted newer_first (folder_snapshots (label, (sk, cps)))) as Hs.
  { apply Sorted_StronglySorted; [intros a b c; unfold newer_first; lia|]. apply Sorted_merge_sort.
    intros a b. unfold newer_first. lia. }
  assert (Forall (fun a => folder_label a = label) (folder_snapshots (label, (sk, cps)))) as Hl.
  { apply Forall_forall. by intros a (cp & _ & ->)%elem_of_folder_snapshots. }
  revert Hs Hl. generalize (folder_snapshots (label, (sk, cps))). induction 1 as [|a l Hl IH Ha]; intros Hall; [constructor|].
  inversion Hall as [|?? Hla Hll]; subst. constructor; [auto|]. rewrite Forall_forall in *. intros b Hb. split; [|auto].
  rewrite (Hll b Hb). by rewrite bytes_cmp_refl.
Qed.

Lemma concat_sorted (groups : list (bytes * (bytes * list Checkpoint))) :
  StronglySorted label_le groups -> NoDup (map (fun g => fst (snd g)) groups) ->
  StronglySorted listed_before (concat (map folder_snapshots groups)).
Proof.
  induction 1 as [|g groups Hg IH Hle]; intros Hnd; cbn [map concat]; [constructor|].
  inversion Hnd as [|?? Hn Hnd']; subst. specialize (IH Hnd').
  assert (forall a b, a ∈ folder_snapshots g -> b ∈ concat (map folder_snapshots groups) -> listed_before a b) as Hcross.
  { intros a b Ha Hb. destruct g as [label [sk cps]]. apply elem_of_folder_snapshots in Ha as (cp & _ & ->).
    apply list_elem_of_In, in_concat in Hb as (l & ([label' [sk' cps']] & <- & Hin%list_elem_of_In)%in_map_iff & Hb%list_elem_of_In).
    apply elem_of_folder_snapshots in Hb as (cp' & _ & ->). split; cbn.
    - rewrite Forall_forall in Hle. by apply (Hle _ Hin).
    - intros ->. destruct Hn. by apply (list_elem_of_fmap_2 (fun g => fst (snd g))) in Hin. }
  pose proof (folder_snapshots_sorted g) as Hsg. revert Hsg Hcross. generalize (folder_snapshots g).
  induction 1 as [|a l Hl IHl Ha]; intros Hcross; cbn [app]; [done|]. constructor.
  - apply IHl. intros a' b ? ?. apply Hcross; [by right|done].
  - apply Forall_app. split; [done|]. apply Forall_forall. intros b Hb. apply Hcross; [by left|done].
Qed.

(** The list of snapshots. When it succeeds, its references are exactly
    those to the checkpoints of the registered folders, with the label of the
    folder; folders come in the order of their labels, and within a folder a
    newer snapshot never follows an older one. *)
Theorem snapshots_newest_first (s : Storage) (m : Meta) (snaps : list SnapshotRef)
  (Hnames : epoch_names (object_store s)) (Hm : holds_meta (object_store s) m)
  (Hlist : snd (list_snapshots s) = Ok snaps) :
  (forall snap, snap ∈ snaps <-> exists k e cp, folders m !! k = Some e /\
     cp ∈ checkpoints_of (Db := Db) (object_store s) (folder_storage_key k) /\
     snap = mkSnapshotRef (entry_label e) (create_time cp) (folder_storage_key k) (cp_id cp)) /\
  StronglySorted listed_before snaps.
Proof.
  unfold list_snapshots, list_checkpoints_unlocked in Hlist.
  pose proof (wp_read_meta s Hnames) as Hread. pose proof (read_meta_checkpoints s) as Hcp. unfold wp in Hread.
  unfold se_bind at 1 in Hlist. destruct (read_meta_unlocked s) as [s1 [m1|e]]; cbn [fst snd] in *; [|done].
  destruct Hread as (o & -> & _ & Hr & _). specialize (Hr m1 eq_refl).
  assert (m1 = m) as -> by by eapply holds_meta_unique.
  pose proof (list_each_spec (iter (folders m)) (set_os s o)) as Hspec. unfold se_bind in Hlist.
  destruct (list_each (iter (folders m)) (set_os s o)) as [s2 [l|e]]; cbn [fst snd se_ret] in *; [|done].
  specialize (Hspec l eq_refl). cbn [set_os object_store] in *. rewrite Hcp in Hspec. injection Hlist as <-. split.
  - intros snap. rewrite list_elem_of_In, in_concat. setoid_rewrite in_map_iff. setoid_rewrite <- list_elem_of_In.
    setoid_rewrite merge_sort_Permutation. rewrite Hspec. setoid_rewrite list_elem_of_fmap. split.
    + intros (g & (x & <- & ([k e] & -> & Hk%elem_of_iter)) & Hin). apply elem_of_folder_snapshots in Hin as (cp & ? & ->).
      exists k, e, cp. done.
    + intros (k & e & cp & Hk%elem_of_iter & Hc & ->). eexists. split; [|apply elem_of_folder_snapshots; eauto].
      eexists. split; [done|]. exists (k, e). done.
  - apply concat_sorted.
    + apply Sorted_StronglySorted; [|apply Sorted_merge_sort; apply _]. intros a b c. unfold label_le.
      apply (transitivity (R := fun a b => bytes_cmp a b <> Gt)).
    + rewrite merge_sort_Permutation, Hspec, map_map. cbn [fst snd].
      pose proof (iter_nodup (folders m)) as Hnd. revert Hnd. generalize (iter (folders m)).
      induction l0 as [|[k e] l0 IH]; intros Hnd; [constructor|]. inversion Hnd as [|?? Hn Hnd']; subst. constructor; [|auto].
      intros ([k' e'] & E & Hin)%list_elem_of_fmap. cbn [fst] in E. apply app_inv_head in E. subst k'. apply Hn.
      by apply (list_elem_of_fmap_2 fst) in Hin.
Qed.

End Checkpoints.

(** ** Examples *)

Import MetaTape Registry Takeover.
#[local] Existing Instance StoreTape.codecs.

(** Checkpoints kept as an object below the directory of the folder. *)
Program Definition t_checkpoint : Tape.tape Checkpoint :=
  Tape.tmap (Tape.tpair Tape.tbytes (Tape.tpair (Tape.toption Tape.tbytes) Tape.tZ))
    (fun c => (cp_id c, (cp_name c, create_time c))) (fun p => mkCheckpoint (fst p) (fst (snd p)) (snd (snd p))) _.
Next Obligation. by intros []. Qed.

Definition checkpoint_location (sk : bytes) : bytes := sk ++ [SLASH] ++ lit "checkpoints".
Definition stored_checkpoints (m : gmap bytes bytes) (sk : bytes) : list Checkpoint :=
  match m !! checkpoint_location sk with
  | Some b => default [] (decode (Codec := Tape.codec (Tape.tlist t_checkpoint)) b)
  | None => []
  end.

#[export] Instance MemStore_CheckpointDb : CheckpointDb MemStore MapDb := {
  db_create_checkpoint name ttl := map_op (fun m => (m, tt));
  admin_list_checkpoints sk name o :=
    let '(o', r) := mem_read (fun m => Ok (filter (fun cp => name = None \/ cp_name cp = name) (stored_checkpoints m sk))) o in
    (o', map_err (fun _ => OtherKind) r);
  admin_refresh_checkpoint sk id ttl o :=
    let '(o', r) := mem_read (fun m => Ok tt) o in (o', map_err (fun _ => OtherKind) r);
  checkpoints_of o := stored_checkpoints (mobjects o)
}.

Lemma mem_read_objects {A : Type} (f : gmap bytes bytes -> result OsError A) (o : MemStore) :
  mobjects (fst (mem_read f o)) = mobjects o.
Proof. by destruct (mem_read_cases f o) as (n & [[-> _]|[-> _]]). Qed.

#[export] Instance MemStore_CheckpointLaws : CheckpointLaws MemStore MapDb.
Proof.
  split.
  - intros o. apply (f_equal stored_checkpoints), mem_read_objects.
  - intros l o. apply (f_equal stored_checkpoints), mem_read_objects.
  - intros sk o. unfold admin_list_checkpoints, checkpoints_of, MemStore_CheckpointDb.
    match goal with |- context [mem_read ?f o] => destruct (mem_read_cases f o) as (n & [[-> _]|[-> _]]) end;
      cbn [map_err mobjects]; [|done].
    split; [done|]. intros l [= <-].
    induction (stored_checkpoints (mobjects o) sk) as [|c cs IH]; [done|]. rewrite filter_cons_True by auto. by f_equal.
Qed.

(** The repository with one folder and two checkpoints of its hourly
    schedule. *)
Definition hour : Z := 3600 * SECOND.
Definition two_checkpoints : list Checkpoint :=
  [mkCheckpoint [1] (Some (format_duration hour)) (1 * SECOND);
   mkCheckpoint [2] (Some (format_duration hour)) (5 * SECOND)].
Definition with_checkpoints : MemStorage :=
  set_os (next_process photos)
    (mkMem (<[ checkpoint_location (lit "folder_00000000") :=
               encode (Codec := Tape.codec (Tape.tlist t_checkpoint)) two_checkpoints ]>
              (mobjects (object_store photos))) None false).
Definition hourly : Meta := set_checkpoint photos_meta {[ hour := mkSchedule (24 * hour) ]}.

Lemma with_checkpoints_root : same_root (object_store photos) (object_store with_checkpoints).
Proof.
  intros l Hl. cbn [with_checkpoints set_os object_store]. unfold os_objects, MemStore_ObjectStore. cbn [mobjects].
  apply lookup_insert_ne. intros <-. apply Hl. apply (bool_decide_unpack _). by vm_compute.
Qed.

Lemma with_checkpoints_names : epoch_names (object_store with_checkpoints).
Proof.
  intros l Hl Hn Hs. rewrite (with_checkpoints_root l Hl) in Hs. by apply photos_names.
Qed.

Lemma with_checkpoints_holds : holds_meta (object_store with_checkpoints) photos_meta.
Proof.
  left. exists epoch1, photos_text. split; [|split; [by vm_compute|split; by vm_compute]].
  split; [apply good_epoch1|]. split; [exists photos_text; by vm_compute|].
  intros e He Hp. rewrite (photos_epochs e He); [done|]. unfold present in *.
  by rewrite (with_checkpoints_root (meta_path e)) in Hp by by apply meta_path_root.
Qed.

(** Ten seconds into the hour: the next checkpoint comes an hour after the
    newer of the two. *)
Lemma checkpoint_tasks_on_time_witness :
  checkpoint_tasks hourly (10 * SECOND) with_checkpoints = [(hour, 24 * hour, 3595 * SECOND)] /\
  checkpoint hourly !! hour = Some (mkSchedule (24 * hour)).
Proof.
  assert (checkpoint_tasks hourly (10 * SECOND) with_checkpoints = [(hour, 24 * hour, 3595 * SECOND)]) as E
    by (vm_compute; reflexivity).
  split; [exact E|].
  assert (exists ages, snd (list_all_checkpoint_ages (10 * SECOND) with_checkpoints) = Ok ages) as [ages Hages].
  { eexists. vm_compute. reflexivity. }
  apply (checkpoint_tasks_on_time hourly photos_meta (10 * SECOND) with_checkpoints ages with_checkpoints_names
           with_checkpoints_holds Hages hour (24 * hour) (3595 * SECOND)).
  rewrite E. by left.
Defined.

Lemma snapshots_newest_first_witness :
  exists snaps, snd (list_snapshots with_checkpoints) = Ok snaps /\ map snap_id snaps = [[2]; [1]] /\
    StronglySorted listed_before snaps.
Proof.
  eexists. split; [vm_compute; reflexivity|]. split; [reflexivity|].
  eapply (snapshots_newest_first with_checkpoints photos_meta); [apply with_checkpoints_names|apply with_checkpoints_holds|].
  vm_compute; reflexivity.
Defined.

End Checkpoints.
