(* ===== verification/Task.v ===== *)
(** Asynchronous tasks. The tasks of a connection share their state behind a
    lock that they never hold across an [await]: between two awaits a task is
    atomic, at an await another task may run. A [Task] is such a program: a
    tree of atomic steps on a shared world, with the loops of the code as
    nodes of their own, so that no loop needs a bound.

    [step] makes one atomic step and is what interleavings are built from;
    [ends] is a task that runs without interruption; [safe] is a program logic
    for a task whose steps alternate with those of others: it keeps an
    invariant, its steps stay within a guarantee, and what it knows survives
    the steps of others. *)

From Stdlib Require Import ZArith Lia.
From stdpp Require Import base list strings relations.
From S2P Require Import Prelude.

Local Open Scope Z_scope.

Module Task.

Section Syntax.
Context {W E : Type}.

(** [Iter body x k] runs [body] from [x]; [inl] goes round again, [inr] leaves
    the loop. *)
Inductive Task (A : Type) : Type :=
| Done (r : result E A)
| Atom (f : W -> W * Task A)
| Iter {X B : Type} (body : X -> Task (X + B)) (x : X) (k : B -> Task A).

#[global] Arguments Done {A} r.
#[global] Arguments Atom {A} f.
#[global] Arguments Iter {A X B} body x k.

Fixpoint bind {A B : Type} (t : Task A) (k : A -> Task B) : Task B :=
  match t with
  | Done (Ok a) => k a
  | Done (Err e) => Done (Err e)
  | Atom f => Atom (fun w => match f w with (w', t') => (w', bind t' k) end)
  | Iter body x k' => Iter body x (fun b => bind (k' b) k)
  end.

Definition next {A X B : Type} (body : X -> Task (X + B)) (k : B -> Task A) (r : X + B) : Task A :=
  match r with inl x' => Iter body x' k | inr b => k b end.

(** One atomic step. *)
Definition step {A : Type} (t : Task A) (w : W) : W * Task A :=
  match t with
  | Done _ => (w, t)
  | Atom f => f w
  | Iter body x k => (w, bind (body x) (next body k))
  end.

Fixpoint steps {A : Type} (n : nat) (t : Task A) (w : W) : W * Task A :=
  match n with
  | O => (w, t)
  | S n' => match step t w with (w', t') => steps n' t' w' end
  end.

Definition ret {A : Type} (a : A) : Task A := Done (Ok a).
Definition fail {A : Type} (e : E) : Task A := Done (Err e).
Definition lift {A : Type} (r : result E A) : Task A := Done r.

(** A critical section. *)
Definition atom {A : Type} (f : W -> W * result E A) : Task A :=
  Atom (fun w => match f w with (w', r) => (w', Done r) end).

Definition read {A : Type} (f : W -> A) : Task A := atom (fun w => (w, Ok (f w))).

Definition finished {A : Type} (t : Task A) : option (result E A) :=
  match t with Done r => Some r | _ => None end.

Definition round {X B : Type} (r : result E (X + B)) : X + result E B :=
  match r with
  | Ok (inl x) => inl x
  | Ok (inr b) => inr (Ok b)
  | Err e => inr (Err e)
  end.

(** The result of a task as a value: nothing after it is skipped. *)
Fixpoint attempt {A : Type} (t : Task A) : Task (result E A) :=
  match t with
  | Done r => Done (Ok r)
  | Atom f => Atom (fun w => match f w with (w', t') => (w', attempt t') end)
  | Iter body x k =>
      Iter (fun x' => bind (attempt (body x')) (fun r => ret (round r))) x
        (fun rb => match rb with Ok b => attempt (k b) | Err e => Done (Ok (Err e)) end)
  end.

(** ** Loops over lists *)

Fixpoint for_each {A : Type} (l : list A) (f : A -> Task unit) : Task unit :=
  match l with
  | [] => ret tt
  | a :: l' => bind (f a) (fun _ => for_each l' f)
  end.

Fixpoint collect {A B : Type} (l : list A) (f : A -> Task B) : Task (list B) :=
  match l with
  | [] => ret []
  | a :: l' => bind (f a) (fun b => bind (collect l' f) (fun bs => ret (b :: bs)))
  end.

(** ** Uninterrupted runs *)

Inductive ends : forall A : Type, Task A -> W -> result E A -> W -> Prop :=
| ends_done A (r : result E A) w : ends A (Done r) w r w
| ends_atom A f w (r : result E A) w' :
    ends A (snd (f w)) (fst (f w)) r w' -> ends A (Atom f) w r w'
| ends_again A X B (body : X -> Task (X + B)) x (k : B -> Task A) w x' w1 r w2 :
    ends _ (body x) w (Ok (inl x')) w1 -> ends A (Iter body x' k) w1 r w2 ->
    ends A (Iter body x k) w r w2
| ends_leave A X B (body : X -> Task (X + B)) x (k : B -> Task A) w b w1 r w2 :
    ends _ (body x) w (Ok (inr b)) w1 -> ends A (k b) w1 r w2 -> ends A (Iter body x k) w r w2
| ends_abort A X B (body : X -> Task (X + B)) x (k : B -> Task A) w e w1 :
    ends _ (body x) w (Err e) w1 -> ends A (Iter body x k) w (Err e) w1.

#[global] Arguments ends {A} t w r w'.

Lemma ends_bind {A B : Type} (t : Task A) (k : A -> Task B) w r w1 :
  ends t w r w1 -> forall r' w2,
  match r with Ok a => ends (k a) w1 r' w2 | Err e => r' = Err e /\ w2 = w1 end ->
  ends (bind t k) w r' w2.
Proof.
  intros H. revert k. induction H as
    [A r w|A f w r w' H IH|A X C body x k0 w x' w1 r w2 Hb _ H IH|A X C body x k0 w c w1 r w2 Hb _ H IH
    |A X C body x k0 w e w1 Hb _]; intros k r' w'' Hk; cbn [bind].
  - destruct r; [done|]. destruct Hk as [-> ->]. constructor.
  - constructor. specialize (IH k r' w'' Hk). by destruct (f w).
  - eapply ends_again; [exact Hb|]. by apply IH.
  - eapply ends_leave; [exact Hb|]. by apply IH.
  - destruct Hk as [-> ->]. by eapply ends_abort.
Qed.

Lemma steps_add {A : Type} n m (t : Task A) w :
  steps (n + m) t w = steps m (snd (steps n t w)) (fst (steps n t w)).
Proof.
  revert t w. induction n as [|n IH]; intros t w; [done|]. cbn [steps Nat.add].
  destruct (step t w) as [w' t']. apply IH.
Qed.

Lemma steps_S {A : Type} n (t : Task A) w :
  steps (S n) t w = steps n (snd (step t w)) (fst (step t w)).
Proof. cbn [steps]. by destruct (step t w). Qed.

Lemma steps_trans {A : Type} n m (t t' t'' : Task A) w w' w'' :
  steps n t w = (w', t') -> steps m t' w' = (w'', t'') -> steps (n + m) t w = (w'', t'').
Proof. intros Hn Hm. by rewrite steps_add, Hn. Qed.

(** An uninterrupted run is a run of steps, whatever follows. *)
Lemma ends_steps_bind {A : Type} (t : Task A) w r w' :
  ends t w r w' -> forall (B : Type) (k : A -> Task B),
  exists n, steps n (bind t k) w =
    (w', match r with Ok a => k a | Err e => Done (Err e) end).
Proof.
  induction 1 as
    [A r w|A f w r w' H IH|A X C body x k0 w x' w1 r w2 _ IHb _ IH|A X C body x k0 w c w1 r w2 _ IHb _ IH
    |A X C body x k0 w e w1 _ IHb]; intros B k; cbn [bind].
  - exists O. by destruct r.
  - destruct (IH B k) as [n Hn]. exists (S n). cbn [steps step]. by destruct (f w).
  - destruct (IHb B (next body (fun b => bind (k0 b) k))) as [n Hn]. destruct (IH B k) as [m Hm].
    exists (S (n + m)). cbn [steps step]. by eapply steps_trans.
  - destruct (IHb B (next body (fun b => bind (k0 b) k))) as [n Hn]. destruct (IH B k) as [m Hm].
    exists (S (n + m)). cbn [steps step]. by eapply steps_trans.
  - destruct (IHb B (next body (fun b => bind (k0 b) k))) as [n Hn]. by exists (S n).
Qed.

Lemma ends_steps {A : Type} (t : Task A) w r w' :
  ends t w r w' -> exists n, steps n t w = (w', Done r).
Proof.
  induction 1 as
    [A r w|A f w r w' H IH|A X C body x k0 w x' w1 r w2 Hb _ _ IH|A X C body x k0 w c w1 r w2 Hb _ _ IH
    |A X C body x k0 w e w1 Hb _].
  - by exists O.
  - destruct IH as [n Hn]. exists (S n). cbn [steps step]. by destruct (f w).
  - destruct (ends_steps_bind _ _ _ _ Hb A (next body k0)) as [n Hn]. destruct IH as [m Hm].
    exists (S (n + m)). cbn [steps step]. by eapply steps_trans.
  - destruct (ends_steps_bind _ _ _ _ Hb A (next body k0)) as [n Hn]. destruct IH as [m Hm].
    exists (S (n + m)). cbn [steps step]. by eapply steps_trans.
  - destruct (ends_steps_bind _ _ _ _ Hb A (next body k0)) as [n Hn]. by exists (S n).
Qed.

Lemma ends_attempt {A : Type} (t : Task A) w r w' : ends t w r w' -> ends (attempt t) w (Ok r) w'.
Proof.
  induction 1 as
    [A r w|A f w r w' H IH|A X C body x k0 w x' w1 r w2 _ IHb _ IH|A X C body x k0 w c w1 r w2 _ IHb _ IH
    |A X C body x k0 w e w1 _ IHb]; cbn [attempt].
  - constructor.
  - constructor. by destruct (f w).
  - eapply ends_again; [eapply ends_bind; [exact IHb|constructor]|exact IH].
  - eapply ends_leave; [eapply ends_bind; [exact IHb|constructor]|exact IH].
  - eapply ends_leave; [eapply ends_bind; [exact IHb|constructor]|constructor].
Qed.

Lemma ends_ret {A : Type} (a : A) w : ends (ret a) w (Ok a) w.
Proof. constructor. Qed.

Lemma ends_atom_at {A : Type} (f : W -> W * result E A) w :
  ends (atom f) w (snd (f w)) (fst (f w)).
Proof. constructor. destruct (f w). constructor. Qed.

(** A loop ends when each round that goes on makes a measure smaller. *)
Lemma ends_iter {A X B : Type} (body : X -> Task (X + B)) (k : B -> Task A)
  (Inv : X -> W -> Prop) (meas : X -> W -> nat) (Q : result E A -> W -> Prop) :
  (forall x w, Inv x w -> exists r w', ends (body x) w r w' /\
     match r with
     | Ok (inl x') => Inv x' w' /\ (meas x' w' < meas x w)%nat
     | Ok (inr b) => exists r2 w2, ends (k b) w' r2 w2 /\ Q r2 w2
     | Err e => Q (Err e) w'
     end) ->
  forall x w, Inv x w -> exists r w', ends (Iter body x k) w r w' /\ Q r w'.
Proof.
  intros Hbody x w. remember (meas x w) as n eqn:Hn.
  revert x w Hn. induction n as [n IH] using lt_wf_ind. intros x w -> Hi.
  destruct (Hbody x w Hi) as ([[x'|b]|e] & w1 & He & H).
  - destruct H as [Hi' Hlt]. destruct (IH _ Hlt x' w1 eq_refl Hi') as (r & w2 & He2 & HQ).
    exists r, w2. split; [|done]. by eapply ends_again.
  - destruct H as (r & w2 & He2 & HQ). exists r, w2. split; [|done]. by eapply ends_leave.
  - exists (Err e), w1. split; [|done]. by eapply ends_abort.
Qed.

End Syntax.

#[global] Arguments Task : clear implicits.

(** ** Tasks among others *)

Section Logic.
Context {W E : Type}.

(** The invariant that everyone keeps, the relation that the steps of others
    stay in, and the one that the steps of the task stay in. *)
Context (I : W -> Prop) (R G : W -> W -> Prop).
Context `{!PreOrder R, !Reflexive G}.

(** [safe t w Q]: the task, at a point where it last saw the world [w], keeps
    [I] and stays in [G] while others stay in [R], and [Q] holds when it
    ends. *)
Inductive safe : forall A : Type, Task W E A -> W -> (result E A -> W -> Prop) -> Prop :=
| safe_done A (r : result E A) w (Q : result E A -> W -> Prop) :
    (forall w1, R w w1 -> I w1 -> Q r w1) -> safe A (Done r) w Q
| safe_atom A f w (Q : result E A -> W -> Prop) :
    (forall w1, R w w1 -> I w1 -> I (fst (f w1)) /\ G w1 (fst (f w1))) ->
    (forall w1, R w w1 -> I w1 -> safe A (snd (f w1)) (fst (f w1)) Q) ->
    safe A (Atom f) w Q
| safe_iter A X B (body : X -> Task W E (X + B)) x (k : B -> Task W E A) w
    (Inv : X -> W -> Prop) (Post : B -> W -> Prop) (Q : result E A -> W -> Prop) :
    (forall w1, R w w1 -> I w1 -> Inv x w1) ->
    (forall y w1 w2, Inv y w1 -> R w1 w2 -> I w2 -> Inv y w2) ->
    (forall y w1, I w1 -> Inv y w1 ->
       safe _ (body y) w1 (fun r w2 =>
         match r with Ok (inl y') => Inv y' w2 | Ok (inr b) => Post b w2 | Err e => Q (Err e) w2 end)) ->
    (forall b w1, I w1 -> Post b w1 -> safe A (k b) w1 Q) ->
    safe A (Iter body x k) w Q.

#[global] Arguments safe {A} t w Q.

Lemma safe_rely {A : Type} (t : Task W E A) w w1 Q : safe t w Q -> R w w1 -> safe t w1 Q.
Proof.
  intros H Hr. destruct H as [A r w Q H|A f w Q H1 H2|A X B body x k w Inv Post Q H1 Hst H2 H3].
  - constructor. intros w2 ?. apply H. by transitivity w1.
  - constructor; intros w2 ?; [apply H1|apply H2]; by transitivity w1.
  - apply (safe_iter _ _ _ _ _ _ _ Inv Post); [|done..]. intros w2 ?. apply H1. by transitivity w1.
Qed.

Lemma safe_mono {A : Type} (t : Task W E A) w (Q Q' : result E A -> W -> Prop) :
  safe t w Q -> (forall r w1, I w1 -> Q r w1 -> Q' r w1) -> safe t w Q'.
Proof.
  intros H. revert Q'.
  induction H as [A r w Q H|A f w Q H1 H2 IH|A X B body x k w Inv Post Q H1 Hst H2 IHb H3 IHk];
    intros Q' HQ.
  - constructor. auto.
  - constructor; [done|]. intros. by apply IH.
  - apply (safe_iter _ _ _ _ _ _ _ Inv Post); [done|done| |].
    + intros y w1 Hi Hy. apply IHb; [done..|]. intros [[]|] w2 ? ?; auto.
    + intros. by apply IHk.
Qed.

Lemma safe_bind {A B : Type} (t : Task W E A) (k : A -> Task W E B) w Q1 (Q : result E B -> W -> Prop) :
  I w -> safe t w Q1 ->
  (forall a w1, I w1 -> Q1 (Ok a) w1 -> safe (k a) w1 Q) ->
  (forall e w1, I w1 -> Q1 (Err e) w1 -> Q (Err e) w1) ->
  safe (bind t k) w Q.
Proof.
  intros Hi H. revert B k Q Hi.
  induction H as [A r w Q1 H|A f w Q1 H1 H2 IH|A X C body x k0 w Inv Post Q1 H1 Hst H2 IHb H3 IHk];
    intros B k Q Hi Hk He; cbn [bind].
  - destruct r as [a|e].
    + apply Hk; [done|]. apply H; [done|done].
    + constructor. auto.
  - constructor.
    + intros w1 Hr Hi1. specialize (H1 w1 Hr Hi1). by destruct (f w1).
    + intros w1 Hr Hi1. specialize (IH w1 Hr Hi1 B k Q). specialize (H1 w1 Hr Hi1).
      destruct (f w1). apply IH; [apply H1|done..].
  - apply (safe_iter _ _ _ _ _ _ _ Inv Post); [done|done| |].
    + intros y w1 Hi1 Hy. eapply safe_mono; [by apply H2|]. intros [[]|e] w2 ? ?; auto.
    + intros b w1 Hi1 Hp. by apply IHk.
Qed.

(** What holds at the end holds until the task is looked at again. *)
Lemma safe_stable {A : Type} (t : Task W E A) w (Q : result E A -> W -> Prop) :
  safe t w Q -> safe t w (fun r w1 => forall w2, R w1 w2 -> I w2 -> Q r w2).
Proof.
  induction 1 as [A r w Q H|A f w Q H1 H2 IH|A X B body x k w Inv Post Q H1 Hst H2 IHb H3 IHk].
  - constructor. intros w1 Hr Hi w2 Hr2. apply H. by transitivity w1.
  - by constructor.
  - apply (safe_iter _ _ _ _ _ _ _ Inv Post); [done|done| |done].
    intros y w1 Hi Hy. eapply safe_mono; [by apply IHb|]. intros [[]|e] w2 Hi2 Hw; [by apply Hw..|done].
Qed.

Lemma safe_attempt {A : Type} (t : Task W E A) w Q0 (Q : result E (result E A) -> W -> Prop) :
  I w -> safe t w Q0 -> (forall r w1, I w1 -> Q0 r w1 -> Q (Ok r) w1) -> safe (attempt t) w Q.
Proof.
  intros Hi H. revert Q Hi.
  induction H as [A r w Q0 H|A f w Q0 H1 H2 IH|A X B body x k w Inv Post Q0 H1 Hst H2 IHb H3 IHk];
    intros Q Hi HQ; cbn [attempt].
  - constructor. auto.
  - constructor; intros w1 Hr Hi1; specialize (H1 w1 Hr Hi1); specialize (IH w1 Hr Hi1 Q);
      destruct (f w1); [done|]. apply IH; [apply H1|done].
  - apply (safe_iter _ _ _ _ _ _ _ Inv (fun rb w1 => match rb with
      | Ok b => Post b w1 | Err e => forall w2, R w1 w2 -> I w2 -> Q (Ok (Err e)) w2 end)); [done|done| |].
    + intros y w1 Hi1 Hy.
      set (QB := fun (r : result E (result E (X + B))) w2 => match r with
        | Ok (Ok (inl y')) => Inv y' w2 | Ok (Ok (inr b)) => Post b w2
        | Ok (Err e) => Q (Ok (Err e)) w2 | Err _ => False end).
      eapply safe_bind; [done|apply safe_stable, (IHb y w1 Hi1 Hy QB Hi1)| |].
      * intros [[|]|e] w2 Hi2 Hw; subst QB; cbn beta match in *; [done|done|auto].
      * intros [[y'|b]|e] w2 Hi2 Hw; subst QB; cbn beta match in Hw; constructor; cbn [round]; [done|done|].
        intros w3 Hr3 Hi3 w4 Hr4. apply Hw. by transitivity w3.
      * intros e w2 Hi2 Hw. destruct (Hw w2); done.
    + intros [b|e] w1 Hi1 Hp; [by apply IHk|]. by constructor.
Qed.

(** The world at the end comes from the one at the start by steps of the task
    and of others. *)
Lemma safe_since {A : Type} (t : Task W E A) w Q :
  subrelation G R -> safe t w Q -> safe t w (fun r w1 => Q r w1 /\ R w w1).
Proof.
  intros HG H.
  induction H as [A r w Q H|A f w Q H1 H2 IH|A X B body x k w Inv Post Q H1 Hst H2 IHb H3 IHk].
  - constructor. auto.
  - constructor; [done|]. intros w1 Hr Hi. destruct (H1 w1 Hr Hi) as [_ Hg].
    eapply safe_mono; [by apply IH|]. intros r w2 _ [? ?]. split; [done|].
    transitivity w1; [done|]. transitivity (fst (f w1)); [by apply HG|done].
  - apply (safe_iter _ _ _ _ _ _ _ (fun y w1 => Inv y w1 /\ R w w1) (fun b w1 => Post b w1 /\ R w w1)).
    + auto.
    + intros y w1 w2 [Hy Hr] Hr2 Hi2. split; [by eapply Hst|by transitivity w1].
    + intros y w1 Hi [Hy Hr]. eapply safe_mono; [by apply IHb|].
      intros [[]|e] w2 _ [? ?]; (split; [done|by transitivity w1]).
    + intros b w1 Hi [Hp Hr]. eapply safe_mono; [by apply IHk|]. intros r w2 _ [? ?].
      split; [done|by transitivity w1].
Qed.

(** The rules that proofs use: what is known is a property of the world that
    the steps of others keep. *)
Lemma safe_ret {A : Type} (r : result E A) w (Q : result E A -> W -> Prop) :
  (forall w1, R w w1 -> I w1 -> Q r w1) -> safe (Done r) w Q.
Proof. apply safe_done. Qed.

Lemma safe_atom_at {A : Type} (f : W -> W * result E A) w (Q : result E A -> W -> Prop) :
  (forall w1, R w w1 -> I w1 ->
     I (fst (f w1)) /\ G w1 (fst (f w1)) /\
     forall w2, R (fst (f w1)) w2 -> I w2 -> Q (snd (f w1)) w2) ->
  safe (atom f) w Q.
Proof.
  intros H. constructor; intros w1 Hr Hi; specialize (H w1 Hr Hi); destruct (f w1) as [w' r];
    destruct H as (? & ? & ?); [done|]. by apply safe_done.
Qed.

Lemma safe_read {A : Type} (f : W -> A) w (Q : result E A -> W -> Prop) :
  (forall w1, R w w1 -> I w1 -> forall w2, R w1 w2 -> I w2 -> Q (Ok (f w1)) w2) -> safe (read f) w Q.
Proof. intros H. apply safe_atom_at. cbn [fst snd]. intros w1 Hr Hi. split; [done|]. split; [done|]. auto. Qed.

Lemma safe_for_each {A : Type} (l : list A) (f : A -> Task W E unit) w
  (Inv : list A -> W -> Prop) (Q : result E unit -> W -> Prop) :
  I w -> Inv l w ->
  (forall l' w1 w2, Inv l' w1 -> R w1 w2 -> I w2 -> Inv l' w2) ->
  (forall a l' w1, I w1 -> Inv (a :: l') w1 ->
     safe (f a) w1 (fun r w2 => match r with Ok _ => Inv l' w2 | Err e => Q (Err e) w2 end)) ->
  (forall w1, I w1 -> Inv [] w1 -> Q (Ok tt) w1) ->
  safe (for_each l f) w Q.
Proof.
  intros Hi Hl Hst Hf HQ. revert w Hi Hl. induction l as [|a l IH]; intros w Hi Hl; cbn [for_each].
  - constructor. intros w1 Hr Hi1. apply HQ; [done|]. by eapply Hst.
  - eapply safe_bind; [done|by apply Hf| |done]. intros [] w1 Hi1 H1. by apply IH.
Qed.

(** ** Soundness *)

Lemma safe_step {A : Type} (t : Task W E A) w w1 Q :
  safe t w Q -> R w w1 -> I w1 ->
  I (fst (step t w1)) /\ G w1 (fst (step t w1)) /\ safe (snd (step t w1)) (fst (step t w1)) Q.
Proof.
  intros H Hr Hi. destruct H as [A r w Q H|A f w Q H1 H2|A X B body x k w Inv Post Q H1 Hst H2 H3]; cbn [step fst snd].
  - split; [done|]. split; [done|]. by apply (safe_rely _ w); [constructor|].
  - destruct (H1 w1 Hr Hi). split; [done|]. split; [done|]. by apply H2.
  - split; [done|]. split; [done|]. eapply safe_bind; [done|apply H2; [done|by apply H1]| |].
    + intros [y|b] w2 Hi2 Hy; cbn [next]; [|by apply H3].
      apply (safe_iter _ _ _ _ _ _ _ Inv Post); [|done..]. intros w3 Hr3 Hi3. by eapply Hst.
    + done.
Qed.

Lemma safe_finished {A : Type} (t : Task W E A) w w1 Q r :
  safe t w Q -> finished t = Some r -> R w w1 -> I w1 -> Q r w1.
Proof. intros H. destruct H; intros [= <-]; auto. Qed.

(** Runs of a task whose steps alternate with those of others. *)
Inductive interleaved {A : Type} : Task W E A -> W -> result E A -> W -> Prop :=
| il_done r w w1 : R w w1 -> I w1 -> interleaved (Done r) w r w1
| il_step t w w1 r w2 :
    R w w1 -> I w1 -> interleaved (snd (step t w1)) (fst (step t w1)) r w2 -> interleaved t w r w2.

(** A run without interruption is one of them. *)
Lemma interleaved_alone {A : Type} n (t : Task W E A) w r w1 :
  (forall w, I w) -> Reflexive R -> steps n t w = (w1, Done r) -> interleaved t w r w1.
Proof.
  intros HI HR. revert t w. induction n as [|n IH]; intros t w; cbn [steps].
  - intros [= -> ->]. by apply il_done.
  - intros H. apply (il_step t w w); [done|done|]. apply IH. by destruct (step t w).
Qed.

Lemma interleaved_inv {A : Type} (t : Task W E A) w r w1 : interleaved t w r w1 -> I w1.
Proof. by induction 1. Qed.

Lemma safe_interleaved {A : Type} (t : Task W E A) w r w1 Q :
  interleaved t w r w1 -> safe t w Q -> Q r w1.
Proof.
  induction 1 as [r w w1 Hr Hi|t w w1 r w2 Hr Hi _ IH]; intros Hs.
  - by eapply safe_finished.
  - apply IH. by eapply safe_step.
Qed.

End Logic.

#[global] Arguments safe {W E} I R G {A} t w Q.
#[global] Arguments interleaved {W E} I R {A} t w r w'.

End Task.

Notation "'await' x <- t ; k" := (Task.bind t (fun x => k))
  (at level 100, x pattern, t at next level, right associativity) : bep_scope.
Notation "'wait' t ; k" := (Task.bind t (fun _ => k))
  (at level 100, t at next level, right associativity) : bep_scope.
