(* ===== verification/Messages.v ===== *)
(** The messages of a running connection and the storage traits it is written
    against: the messages of [bepository-bep/proto/bep.proto] that are not
    about a single file, and the traits [StorageFolder] and [Storage] of
    [bepository-bep/src/storage.rs].

    As everywhere, [string] and [bytes] are byte lists and enumerations are
    their codes. Field names carry a prefix where records share them. *)

From Stdlib Require Import ZArith Lia.
From stdpp Require Import base gmap list strings.
From S2P Require Import Prelude BepTypes Codec.

Local Open Scope Z_scope.

(** ** Message types *)

Inductive MessageType :=
| TClusterConfig | TIndex | TIndexUpdate | TRequest | TResponse | TDownloadProgress | TPing | TClose.

Definition type_code (t : MessageType) : Z :=
  match t with
  | TClusterConfig => 0 | TIndex => 1 | TIndexUpdate => 2 | TRequest => 3
  | TResponse => 4 | TDownloadProgress => 5 | TPing => 6 | TClose => 7
  end.

(** The generated [TryFrom<i32>]. *)
Definition type_of_code (z : Z) : option MessageType :=
  if z =? 0 then Some TClusterConfig else if z =? 1 then Some TIndex
  else if z =? 2 then Some TIndexUpdate else if z =? 3 then Some TRequest
  else if z =? 4 then Some TResponse else if z =? 5 then Some TDownloadProgress
  else if z =? 6 then Some TPing else if z =? 7 then Some TClose else None.

(** [ErrorCode]. *)
Definition NO_ERROR : Z := 0.
Definition GENERIC : Z := 1.
Definition NO_SUCH_FILE : Z := 2.

(** ** Messages *)

Record Device := mkDevice {
  dev_id : bytes;
  dev_name : bytes;
  addresses : list bytes;
  dev_compression : Z;
  cert_name : bytes;
  dev_max_sequence : Z;
  introducer : bool;
  dev_index_id : Z;
  skip_introduction_removals : bool;
  encryption_password_token : bytes
}.

Record CcFolder := mkCcFolder {
  cf_id : bytes;
  cf_label : bytes;
  cf_type : Z;
  stop_reason : Z;
  devices : list Device
}.

Record ClusterConfig := mkClusterConfig {
  folders : list CcFolder;
  secondary : bool
}.

Record Index := mkIndexMsg {
  ix_folder : bytes;
  ix_files : list bep.FileInfo;
  ix_last_sequence : Z
}.

Record IndexUpdate := mkIndexUpdate {
  iu_folder : bytes;
  iu_files : list bep.FileInfo;
  iu_last_sequence : Z;
  prev_sequence : Z
}.

Record Request := mkRequest {
  req_id : Z;
  req_folder : bytes;
  req_name : bytes;
  req_offset : Z;
  req_size : Z;
  req_hash : bytes;
  from_temporary : bool;
  req_block_no : Z
}.

Record Response := mkResponse {
  resp_id : Z;
  resp_data : bytes;
  resp_code : Z
}.

Record FileDownloadProgressUpdate := mkProgressUpdate {
  update_type : Z;
  pu_name : bytes;
  pu_version : option bep.Vector;
  block_indexes : list Z;
  pu_block_size : Z
}.

Record DownloadProgress := mkDownloadProgress {
  dp_folder : bytes;
  updates : list FileDownloadProgressUpdate
}.

Record Ping := mkPing { }.

Record Close := mkClose { reason : bytes }.

(** Their protobuf encodings. *)
Class MessageCodecs := {
  cc_codec :: Codec ClusterConfig;
  index_codec :: Codec Index;
  index_update_codec :: Codec IndexUpdate;
  request_codec :: Codec Request;
  response_codec :: Codec Response;
  progress_codec :: Codec DownloadProgress;
  ping_codec :: Codec Ping;
  close_codec :: Codec Close
}.

(** [RemoteIndexState]. *)
Record RemoteIndexState := mkRemoteState {
  rs_index_id : Z;
  rs_max_sequence : Z
}.

(** ** The storage traits *)

(** [StorageFolder]: the operations of a folder handle [F] on the state [Sto]
    of the storage. *)
Class StorageFolder (Sto F : Type) := {
  sf_id : F -> bytes;
  sf_label : F -> bytes;
  sf_index : F -> Z -> SE Sto StorageError.t (list (result StorageError.t bep.FileInfo));
  sf_read_block : F -> bytes -> Z -> Z -> bytes -> SE Sto StorageError.t bytes;
  sf_apply_update : F -> bep.FileInfo -> bytes -> SE Sto StorageError.t UpdateResult;
  sf_local_sequence : F -> SE Sto StorageError.t Z;
  sf_remote_state : F -> bytes -> SE Sto StorageError.t RemoteIndexState;
  sf_set_remote_state : F -> bytes -> RemoteIndexState -> SE Sto StorageError.t unit;
  sf_resolve_conflict : F -> bep.FileInfo -> bep.FileInfo -> option bytes -> SE Sto StorageError.t unit;
  sf_store_block : F -> bytes -> Z -> bytes -> bytes -> SE Sto StorageError.t unit;
  sf_complete_file : F -> bytes -> option bep.Vector -> SE Sto StorageError.t (option bep.FileInfo);
  sf_reuse_block : F -> bytes -> Z -> bytes -> Z -> SE Sto StorageError.t bool
}.

(** [Storage]; [list_folders] gives ids, labels and storage keys. *)
Class Storage (Sto F : Type) := {
  storage_folder :: StorageFolder Sto F;
  st_folder : bytes -> SE Sto StorageError.t F;
  st_list_folders : SE Sto StorageError.t (list (bytes * bytes * bytes));
  st_ensure_folders : list (bytes * bytes) -> SE Sto StorageError.t (list bool)
}.

(** [StorageInspectorForTests]; [Ep] keys the inbox. A test helper panics where
    the storage fails it. *)
Inductive Panic := panicked.

Class StorageInspector (Sto F Ep : Type) := {
  si_insert_file : F -> bep.FileInfo -> SE Sto Panic unit;
  si_insert_block : F -> bytes -> Z -> bytes -> SE Sto Panic unit;
  si_get_file : F -> bytes -> SE Sto Panic (option bep.FileInfo);
  si_get_inbox_file : F -> Ep -> bytes -> SE Sto Panic (option bep.FileInfo);
  si_get_block : F -> bytes -> Z -> SE Sto Panic (option bytes);
  si_has_block : F -> bytes -> Z -> bytes -> Z -> SE Sto StorageError.t bool
}.
