(* ===== verification/Connection.v ===== *)
(** A connection to a peer ([bepository-bep/src/connection.rs]) after the
    exchange of hellos: the three tasks (message loop, index loop, writer) with
    the state they share, and the supervisor.

    The state behind the connection's lock is [ConnectionInner]; what the code
    reaches through other handles (the storage, the two byte-bounded channels,
    the shutdown token, the socket) is the rest of [World]. A handler is a
    [Task]: each critical section, storage call and channel operation is one
    step. [tokio::select!] in the message loop takes what the environment has
    made ready ([event]). A blocked [send] tests again and again. *)

From Stdlib Require Import ZArith Lia.
From stdpp Require Import base gmap list strings.
From S2P Require Import Prelude BepTypes Codec Conflict Validate Framing Retry Task Messages.

Local Open Scope Z_scope.
Local Open Scope bep_scope.

Module Connection.
Import Task.

(** ** Options and results *)

Definition clamp_max_pending_requests (v : Z) : Z := Z.max v 1.

Record ConnectionOptions := mkOptions {
  opt_max_pending_requests : Z;
  ping_interval : Z;
  retry_policy : Retry.RetryPolicy
}.

(** [ConnectionOptions::default]; seconds in nanoseconds. *)
Definition default_options : ConnectionOptions :=
  mkOptions 16 (90 * Zpos Retry.NANOS) (Retry.exponential Retry.default_backoff).

Inductive CloseReason :=
| Local
| Remote (reason : bytes)
| Failed (e : BepError.t).

(** [WorkerError::priority]. *)
Definition priority (e : BepError.t) : Z :=
  match e with
  | BepError.UnsupportedVersion _ _ => 110
  | BepError.Corruption _ => 100
  | BepError.Internal _ => 90
  | BepError.PeerBadHello _ | BepError.PeerBadMessage _ => 70
  | BepError.PeerError _ _ | BepError.DeviceRejected => 60
  | BepError.Standby _ => 50
  | BepError.NetworkError _ => 20
  | BepError.TransientIo _ => 15
  | BepError.WriterClosed => 5
  | BepError.PeerClosed _ => 1
  end.

(** ** Byte-bounded channels *)

(** The queue, each message with its permits, the permits of the message that
    the receiver is working on, and whether the receiver is there. *)
Record Channel (T : Type) := mkChannel {
  items : list (Z * T);
  busy : Z;
  is_open : bool
}.
#[global] Arguments mkChannel {T}.
#[global] Arguments items {T}.
#[global] Arguments busy {T}.
#[global] Arguments is_open {T}.

Definition byte_budget_channel (T : Type) : Channel T := mkChannel [] 0 true.

Definition total_permits {T : Type} (l : list (Z * T)) : Z := foldr (fun p acc => fst p + acc) 0 l.
Definition in_use {T : Type} (c : Channel T) : Z := busy c + total_permits (items c).

(** The permits a message of [n] bytes asks for. *)
Definition permits (max_budget n : Z) : Z := Z.min (Z.max (Z.min n U32_MAX) 1) max_budget.

Definition has_room {T : Type} (count max_budget need : Z) (c : Channel T) : bool :=
  (in_use c + need <=? max_budget) && (Z.of_nat (length (items c)) <? count).

Definition push {T : Type} (need : Z) (m : T) (c : Channel T) : Channel T :=
  mkChannel (items c ++ [(need, m)]) (busy c) (is_open c).

(** The receiver takes the first message; its permits stay in use until
    [release]. *)
Definition pop {T : Type} (c : Channel T) : option (T * Channel T) :=
  match items c with
  | (need, m) :: rest => Some (m, mkChannel rest need (is_open c))
  | [] => None
  end.

Definition release {T : Type} (c : Channel T) : Channel T := mkChannel (items c) 0 (is_open c).

(** The receiver is dropped, and what is queued with it. *)
Definition close {T : Type} (c : Channel T) : Channel T := mkChannel [] 0 false.

Definition WRITER_BUDGET_BYTES : Z := 4 * 1024 * 1024.
Definition INDEX_BUDGET_BYTES : Z := 32 * 1024 * 1024.
Definition WRITER_PER_MESSAGE_OVERHEAD : Z := 16.
Definition WRITER_COUNT : Z := 4096.
Definition INDEX_COUNT : Z := 256.

Record OutgoingMessage := mkOutgoing { msg_type : MessageType; payload : bytes }.

Inductive IndexTaskMessage :=
| ItIndex (m : Index)
| ItIndexUpdate (m : IndexUpdate).

(** What a branch of the [select!] of the message loop can find ready. *)
Inductive Event :=
| EvShutdown
| EvTick
| EvMessage (m : result BepError.t Framing.RawMessage).

(** ** State *)

Record FileBlock (F : Type) := mkFileBlock {
  fb_folder : F;
  fb_name : bytes;
  fb_offset : Z;
  fb_hash : bytes;
  fb_version : option bep.Vector
}.
#[global] Arguments mkFileBlock {F}.
#[global] Arguments fb_folder {F}.
#[global] Arguments fb_name {F}.
#[global] Arguments fb_offset {F}.
#[global] Arguments fb_hash {F}.
#[global] Arguments fb_version {F}.

Record DeferredRequest (F : Type) := mkDeferred {
  df_block : FileBlock F;
  df_size : Z;
  df_block_no : Z
}.
#[global] Arguments mkDeferred {F}.
#[global] Arguments df_block {F}.
#[global] Arguments df_size {F}.
#[global] Arguments df_block_no {F}.

Record ConnectionInner (F : Type) := mkInner {
  mutual_folders : gmap bytes Z;
  our_cc_folders : gset bytes;
  pending_requests : gmap Z (FileBlock F);
  next_id : Z;
  max_pending_requests : Z;
  deferred_blocks : list (DeferredRequest F)
}.
#[global] Arguments mkInner {F}.
#[global] Arguments mutual_folders {F}.
#[global] Arguments our_cc_folders {F}.
#[global] Arguments pending_requests {F}.
#[global] Arguments next_id {F}.
#[global] Arguments max_pending_requests {F}.
#[global] Arguments deferred_blocks {F}.

Definition with_pending {F : Type} (c : ConnectionInner F) (p : gmap Z (FileBlock F)) (n : Z) : ConnectionInner F :=
  mkInner (mutual_folders c) (our_cc_folders c) p n (max_pending_requests c) (deferred_blocks c).
Definition with_deferred {F : Type} (c : ConnectionInner F) (d : list (DeferredRequest F)) : ConnectionInner F :=
  mkInner (mutual_folders c) (our_cc_folders c) (pending_requests c) (next_id c) (max_pending_requests c) d.
Definition with_folders {F : Type} (c : ConnectionInner F) (m : gmap bytes Z) (o : gset bytes) : ConnectionInner F :=
  mkInner m o (pending_requests c) (next_id c) (max_pending_requests c) (deferred_blocks c).

(** [i32::wrapping_add(1)]. *)
Definition wrapping_succ (id : Z) : Z := if id =? I32_MAX then - I32_MAX - 1 else id + 1.

(** The loop of [next_request_id]: the id found and the counter after it. *)
Fixpoint next_id_loop {F : Type} (fuel : nat) (id : Z) (p : gmap Z (FileBlock F)) : option (Z * Z) :=
  match fuel with
  | O => None
  | S fuel' =>
      if bool_decide (is_Some (p !! id)) then next_id_loop fuel' (wrapping_succ id) p
      else Some (id, wrapping_succ id)
  end.

(** At most every pending id is skipped. *)
Definition next_request_id {F : Type} (c : ConnectionInner F) : option (Z * Z) :=
  next_id_loop (S (size (pending_requests c))) (next_id c) (pending_requests c).

(** The shared world. *)
Record World (Sto F : Type) := mkWorld {
  storage : Sto;
  inner : ConnectionInner F;
  shutdown : bool;
  event : option Event;
  writer : Channel OutgoingMessage;
  index_queue : Channel IndexTaskMessage;
  sock : Framing.Writer;
  message_running : bool;
  index_running : bool
}.
#[global] Arguments mkWorld {Sto F}.
#[global] Arguments storage {Sto F}.
#[global] Arguments inner {Sto F}.
#[global] Arguments shutdown {Sto F}.
#[global] Arguments event {Sto F}.
#[global] Arguments writer {Sto F}.
#[global] Arguments index_queue {Sto F}.
#[global] Arguments sock {Sto F}.
#[global] Arguments message_running {Sto F}.
#[global] Arguments index_running {Sto F}.

Section Setters.
Context {Sto F : Type}.

Definition set_storage (w : World Sto F) (x : Sto) : World Sto F :=
  mkWorld x (inner w) (shutdown w) (event w) (writer w) (index_queue w) (sock w) (message_running w) (index_running w).
Definition set_inner (w : World Sto F) (x : ConnectionInner F) : World Sto F :=
  mkWorld (storage w) x (shutdown w) (event w) (writer w) (index_queue w) (sock w) (message_running w) (index_running w).
Definition set_shutdown (w : World Sto F) (x : bool) : World Sto F :=
  mkWorld (storage w) (inner w) x (event w) (writer w) (index_queue w) (sock w) (message_running w) (index_running w).
Definition set_event (w : World Sto F) (x : option Event) : World Sto F :=
  mkWorld (storage w) (inner w) (shutdown w) x (writer w) (index_queue w) (sock w) (message_running w) (index_running w).
Definition set_writer (w : World Sto F) (x : Channel OutgoingMessage) : World Sto F :=
  mkWorld (storage w) (inner w) (shutdown w) (event w) x (index_queue w) (sock w) (message_running w) (index_running w).
Definition set_index_queue (w : World Sto F) (x : Channel IndexTaskMessage) : World Sto F :=
  mkWorld (storage w) (inner w) (shutdown w) (event w) (writer w) x (sock w) (message_running w) (index_running w).
Definition set_sock (w : World Sto F) (x : Framing.Writer) : World Sto F :=
  mkWorld (storage w) (inner w) (shutdown w) (event w) (writer w) (index_queue w) x (message_running w) (index_running w).
Definition set_message_running (w : World Sto F) (x : bool) : World Sto F :=
  mkWorld (storage w) (inner w) (shutdown w) (event w) (writer w) (index_queue w) (sock w) x (index_running w).
Definition set_index_running (w : World Sto F) (x : bool) : World Sto F :=
  mkWorld (storage w) (inner w) (shutdown w) (event w) (writer w) (index_queue w) (sock w) (message_running w) x.
End Setters.

(** [ConnectionContext]; the shutdown token is in the world. *)
Record ConnectionContext := mkContext {
  remote_device : bytes;
  local_device : bytes;
  resolve : bep.FileInfo -> bytes -> bep.FileInfo -> bytes -> result BepError.t Conflict.ConflictResolution;
  policy : Retry.RetryPolicy
}.

Section Handlers.
Context {Sto F : Type} `{!Storage Sto F} {MC : MessageCodecs} `{!Codec Framing.Header}.
Context (lz4_compress : bytes -> bytes).
Abbreviation W := (World Sto F).
Abbreviation T := (Task (World Sto F) BepError.t).
Abbreviation Inner := (ConnectionInner F).

(** ** Storage calls *)

(** A call of the storage, without the policy. *)
Definition call {A : Type} (f : SE Sto StorageError.t A) : T (result StorageError.t A) :=
  atom (fun w => match f (storage w) with (s', r) => (set_storage w s', Ok r) end).

(** [ConnectionContext::retry]: [retry_storage_op] with the policy of the
    context; the sleep between two attempts ends early on a shutdown. *)
Definition retry {A : Type} (ctx : ConnectionContext) (f : SE Sto StorageError.t A) : T A :=
  Iter (fun attempt =>
    await res <- call f;
    match res with
    | Ok val => ret (inr val)
    | Err err =>
        match Retry.next_delay (policy ctx) attempt err with
        | Some delay =>
            if delay =? 0 then ret (inl (attempt + 1))
            else
              await cancelled <- read shutdown;
              if (cancelled : bool) then fail (BepError.TransientIo "shutdown requested during retry")
              else ret (inl (attempt + 1))
        | None => fail (Retry.map_error (policy ctx) err)
        end
    end) 0 ret.

(** A critical section on the connection state. *)
Definition locked {A : Type} (f : Inner -> Inner * A) : T A :=
  atom (fun w => match f (inner w) with (c, a) => (set_inner w c, Ok a) end).

(** ** Sending *)

(** [ByteBudgetSender::send]: waits for permits and a place in the queue;
    [WriterClosed] is its only error. *)
Definition budget_send {M : Type} (get : W -> Channel M) (set : W -> Channel M -> W)
  (count max_budget : Z) (msg : M) (n : Z) : T (result BepError.t unit) :=
  let need := permits max_budget n in
  Iter (fun _ : unit =>
    atom (fun w =>
      if negb (is_open (get w)) then (w, Ok (inr (Err BepError.WriterClosed)))
      else if has_room count max_budget need (get w)
      then (set w (push need msg (get w)), Ok (inr (Ok tt)))
      else (w, Ok (inl tt)))) tt ret.

(** [MessageWriter::send]: its result as a value, and with [?]. *)
Definition try_send {M : Type} `{!Codec M} (t : MessageType) (msg : M) : T (result BepError.t unit) :=
  let payload := encode msg in
  budget_send writer set_writer WRITER_COUNT WRITER_BUDGET_BYTES (mkOutgoing t payload)
    (Z.of_nat (length payload) + WRITER_PER_MESSAGE_OVERHEAD).

Definition send {M : Type} `{!Codec M} (t : MessageType) (msg : M) : T unit :=
  await r <- try_send t msg; lift r.

(** [index_tx.send]. *)
Definition index_send (m : IndexTaskMessage) (body_len : Z) : T (result BepError.t unit) :=
  budget_send index_queue set_index_queue INDEX_COUNT INDEX_BUDGET_BYTES m body_len.

(** ** Block requests *)

Definition in_file (folder_id name : bytes) (b : FileBlock F) : bool :=
  bool_decide (sf_id (Sto := Sto) (fb_folder b) = folder_id) && bool_decide (fb_name b = name).

(** No block of the file is on its way or waiting. *)
Definition should_complete (c : Inner) (folder : F) (name : bytes) : bool :=
  let folder_id := sf_id (Sto := Sto) folder in
  negb (existsb (in_file folder_id name) (map snd (map_to_list (pending_requests c)))) &&
  negb (existsb (fun d => in_file folder_id name (df_block d)) (deferred_blocks c)).

Definition maybe_complete_file (ctx : ConnectionContext) (folder : F) (name : bytes)
  (version : option bep.Vector) : T (option bep.FileInfo) :=
  await should <- locked (fun c => (c, should_complete c folder name));
  if negb should then ret None
  else retry ctx (sf_complete_file folder name version).

Definition send_index_update (fi : bep.FileInfo) (folder_id : bytes) : T unit :=
  send TIndexUpdate (mkIndexUpdate folder_id [fi] (bep.sequence fi) 0).

Definition complete_and_notify (ctx : ConnectionContext) (folder : F) (name : bytes)
  (version : option bep.Vector) : T unit :=
  await committed <- maybe_complete_file ctx folder name version;
  match committed with
  | Some fi => send TIndexUpdate (mkIndexUpdate (sf_id (Sto := Sto) folder) [fi] (bep.sequence fi) 0)
  | None => ret tt
  end.

Definition request_for (id : Z) (block : FileBlock F) (size block_no : Z) : Request :=
  mkRequest id (sf_id (Sto := Sto) (fb_folder block)) (fb_name block) (fb_offset block) size (fb_hash block)
    false block_no.

(** The critical section of [submit_or_defer_block]: the request to send, or
    nothing when the block was deferred. An id is always found
    ([next_request_id_fresh]). *)
Definition register (block : FileBlock F) (size block_no : Z) (c : Inner) :
  Inner * result BepError.t (option Request) :=
  if max_pending_requests c <=? Z.of_nat (base.size (pending_requests c))
  then (with_deferred c (deferred_blocks c ++ [mkDeferred block size block_no]), Ok None)
  else
    match next_request_id c with
    | Some (id, next) =>
        (with_pending c (<[id := block]> (pending_requests c)) next,
         Ok (Some (request_for id block size block_no)))
    | None => (c, Err (BepError.Internal "no request id is free"))
    end.

Definition submit_or_defer_block (block : FileBlock F) (size block_no : Z) : T unit :=
  await request <- atom (fun w => match register block size block_no (inner w) with
                                  | (c, r) => (set_inner w c, r)
                                  end);
  match request with
  | Some req => send TRequest req
  | None => ret tt
  end.

(** The next deferred block, if there is room for a request. *)
Definition take_deferred (c : Inner) : Inner * option (DeferredRequest F) :=
  if max_pending_requests c <=? Z.of_nat (base.size (pending_requests c)) then (c, None)
  else
    match deferred_blocks c with
    | d :: rest => (with_deferred c rest, Some d)
    | [] => (c, None)
    end.

Definition drain_deferred (ctx : ConnectionContext) : T unit :=
  Iter (fun _ : unit =>
    await cancelled <- read shutdown;
    if (cancelled : bool) then ret (inr tt)
    else
      await deferred <- locked take_deferred;
      match deferred with
      | None => ret (inr tt)
      | Some d =>
          let block := df_block d in
          await reused <- retry ctx (sf_reuse_block (fb_folder block) (fb_name block) (fb_offset block)
                                       (fb_hash block) (df_size d));
          if (reused : bool) then
            wait complete_and_notify ctx (fb_folder block) (fb_name block) (fb_version block);
            ret (inl tt)
          else
            wait submit_or_defer_block block (df_size d) (df_block_no d);
            ret (inl tt)
      end) tt ret.

(** The loop of [request_blocks] from block number [i] on. *)
Fixpoint request_loop (ctx : ConnectionContext) (folder : F) (file : bep.FileInfo) (i : Z)
  (bs : list bep.BlockInfo) : T unit :=
  match bs with
  | [] => ret tt
  | block :: bs' =>
      await cancelled <- read shutdown;
      if (cancelled : bool) then ret tt
      else
        await reused <- retry ctx (sf_reuse_block folder (bep.name file) (bep.offset block)
                                     (bep.hash block) (bep.bsize block));
        if (reused : bool) then request_loop ctx folder file (i + 1) bs'
        else if I32_MAX <? i then fail (BepError.Internal "block index exceeds i32")
        else
          let file_block :=
            mkFileBlock folder (bep.name file) (bep.offset block) (bep.hash block) (bep.version file) in
          wait submit_or_defer_block file_block (bep.bsize block) i;
          request_loop ctx folder file (i + 1) bs'
  end.

Definition request_blocks (ctx : ConnectionContext) (folder : F) (file : bep.FileInfo) : T unit :=
  request_loop ctx folder file 0 (bep.blocks file).

(** ** Indexes *)

(** The update of one announced file; the file to fetch, if any. *)
Definition apply_file (ctx : ConnectionContext) (folder : F) (file : bep.FileInfo) : T (option bep.FileInfo) :=
  wait lift (Validate.validate_file_info file);
  await result <- retry ctx (sf_apply_update folder file (remote_device ctx));
  match result with
  | NeedBlocks fi => ret (Some fi)
  | NoAction => ret None
  | Applied fi =>
      wait send_index_update fi (sf_id (Sto := Sto) folder);
      ret None
  | UpdateConcurrent loc rem =>
      await resolution <- lift (resolve ctx loc (local_device ctx) rem (remote_device ctx));
      wait retry ctx (sf_resolve_conflict folder (Conflict.winner resolution) (Conflict.loser resolution)
                        (Conflict.loser_path resolution));
      ret (if negb (bep.deleted (Conflict.winner resolution)) then Some (Conflict.winner resolution) else None)
  end.

(** The first loop of [apply_remote_index]: the files to fetch, in order. *)
Definition apply_files (ctx : ConnectionContext) (folder : F) (files : list bep.FileInfo) : T (list bep.FileInfo) :=
  await needed <- collect files (apply_file ctx folder);
  ret (omap id needed).

Definition apply_remote_index (ctx : ConnectionContext) (folder_id : bytes) (files : list bep.FileInfo)
  (last_sequence : Z) : T unit :=
  await peer_index_id <- locked (fun c => (c, mutual_folders c !! folder_id));
  await index_id <- lift (ok_or peer_index_id (BepError.PeerBadMessage "Index for non-mutual folder"));
  await folder <- retry ctx (st_folder folder_id);
  await needed <- apply_files ctx folder files;
  wait for_each needed (fun fi =>
    wait request_blocks ctx folder fi;
    complete_and_notify ctx folder (bep.name fi) (bep.version fi));
  retry ctx (sf_set_remote_state folder (remote_device ctx) (mkRemoteState index_id last_sequence)).

Definition handle_index (ctx : ConnectionContext) (index : Index) : T unit :=
  apply_remote_index ctx (ix_folder index) (ix_files index) (ix_last_sequence index).

Definition handle_index_update (ctx : ConnectionContext) (update : IndexUpdate) : T unit :=
  apply_remote_index ctx (iu_folder update) (iu_files update) (iu_last_sequence update).

(** ** Cluster configurations *)

Definition default_device (id : bytes) (max_sequence : Z) : Device :=
  mkDevice id [] [] 0 [] max_sequence false 0 false [].

Definition build_cluster_config (ctx : ConnectionContext) (local remote : bytes) (ids : list bytes) : T ClusterConfig :=
  await cc_folders <- collect ids (fun folder_id =>
    await f <- retry ctx (st_folder folder_id);
    await seq <- retry ctx (sf_local_sequence f);
    ret (mkCcFolder folder_id (sf_label (Sto := Sto) f) 0 0 [default_device local seq; default_device remote 0]));
  ret (mkClusterConfig cc_folders false).

(** [stream.next()] until the end; the first error of the stream ends it. *)
Fixpoint read_stream (ctx : ConnectionContext) (l : list (result StorageError.t bep.FileInfo)) (last_seq : Z) :
  result BepError.t (list bep.FileInfo * Z) :=
  match l with
  | [] => Ok ([], last_seq)
  | Err e :: _ => Err (Retry.map_error (policy ctx) e)
  | Ok fi :: l' =>
      let last_seq := if last_seq <? bep.sequence fi then bep.sequence fi else last_seq in
      try (files, last) <- read_stream ctx l' last_seq;
      Ok (fi :: files, last)
  end.

Definition send_index (ctx : ConnectionContext) (folder_id : bytes) : T unit :=
  await folder <- retry ctx (st_folder folder_id);
  await stream <- retry ctx (sf_index folder 0);
  await (files, last_seq) <- lift (read_stream ctx stream 0);
  send TIndex (mkIndexMsg folder_id files last_seq).

(** The entry of the peer in a folder of its configuration. *)
Definition parse_cc_folder (ctx : ConnectionContext) (f : CcFolder) : result BepError.t (bytes * bytes * Z) :=
  try dev <- ok_or (List.find (fun d => bool_decide (dev_id d = remote_device ctx)) (devices f))
               (BepError.PeerBadMessage "peer omitted themselves from folder");
  Ok (cf_id f, cf_label f, dev_index_id dev).

Fixpoint parse_cc_folders (ctx : ConnectionContext) (l : list CcFolder) :
  result BepError.t (list (bytes * bytes * Z)) :=
  match l with
  | [] => Ok []
  | f :: l' => try p <- parse_cc_folder ctx f; try ps <- parse_cc_folders ctx l'; Ok (p :: ps)
  end.

(** The folders the peer proposed that were not mutual yet, with its index ids,
    and those of them that we have not announced. *)
Definition newly_mutual (parsed : list (bytes * bytes * Z)) (current_mutual : gmap bytes Z) : list (bytes * Z) :=
  filter (fun p => current_mutual !! fst p = None) (map (fun p => (fst (fst p), snd p)) parsed).

Definition newly_announced (new_mutual : list (bytes * Z)) (our_cc : gset bytes) : list bytes :=
  filter (fun id => id ∉ our_cc) (map fst new_mutual).

Definition process_peer_cc (ctx : ConnectionContext) (peer_cc : ClusterConfig)
  (current_mutual : gmap bytes Z) (our_cc : gset bytes) : T (list (bytes * Z) * list bytes) :=
  await parsed <- lift (parse_cc_folders ctx (folders peer_cc));
  wait retry ctx (st_ensure_folders (map fst parsed));
  let new_mutual := newly_mutual parsed current_mutual in
  let new_for_our_cc := newly_announced new_mutual our_cc in
  wait match new_for_our_cc with
       | [] => ret tt
       | _ :: _ =>
           await updated_cc <- build_cluster_config ctx (local_device ctx) (remote_device ctx)
                                 (elements our_cc ++ new_for_our_cc);
           send TClusterConfig updated_cc
       end;
  wait for_each new_mutual (fun p => send_index ctx (fst p));
  ret (new_mutual, new_for_our_cc).

(** [HashMap::extend]: a later entry replaces an earlier one. *)
Definition extend (m : gmap bytes Z) (l : list (bytes * Z)) : gmap bytes Z :=
  foldl (fun m p => <[fst p := snd p]> m) m l.

(** The critical section at the end of [handle_cluster_config_update]. *)
Definition merge_cc (new_mutual : list (bytes * Z)) (new_for_our_cc : list bytes) (c : Inner) : Inner :=
  with_folders c (extend (mutual_folders c) new_mutual)
    (our_cc_folders c ∪ list_to_set new_for_our_cc).

Definition handle_cluster_config_update (ctx : ConnectionContext) (cc : ClusterConfig) : T unit :=
  await (current_mutual, our_cc_snap) <- locked (fun c => (c, (mutual_folders c, our_cc_folders c)));
  await (new_mutual, new_for_our_cc) <- process_peer_cc ctx cc current_mutual our_cc_snap;
  locked (fun c => (merge_cc new_mutual new_for_our_cc c, tt)).

(** ** Requests and responses *)

Definition respond (req : Request) (r : result StorageError.t bytes) : Response :=
  match r with
  | Ok data => mkResponse (req_id req) data NO_ERROR
  | Err (StorageError.NotFound _) => mkResponse (req_id req) [] NO_SUCH_FILE
  | Err _ => mkResponse (req_id req) [] GENERIC
  end.

Definition handle_request (ctx : ConnectionContext) (req : Request) : T unit :=
  await folder <- retry ctx (st_folder (req_folder req));
  await result <- (if (req_offset req <? 0) || (req_size req <? 0)
                   then ret (Err (StorageError.InvalidInput "negative offset or size"))
                   else call (sf_read_block folder (req_name req) (req_offset req) (req_size req) (req_hash req)));
  send TResponse (respond req result).

Definition take_pending (id : Z) (c : Inner) : Inner * option (FileBlock F) :=
  (with_pending c (delete id (pending_requests c)) (next_id c), pending_requests c !! id).

Definition handle_response (ctx : ConnectionContext) (resp : Response) : T unit :=
  await pending <- locked (take_pending (resp_id resp));
  await completed_file <-
    match pending with
    | Some block =>
        if negb (resp_code resp =? NO_ERROR)
        then fail (BepError.PeerError (resp_code resp)
                     (sf_id (Sto := Sto) (fb_folder block) ++ [SLASH] ++ fb_name block))
        else
          wait retry ctx (sf_store_block (fb_folder block) (fb_name block) (fb_offset block)
                            (fb_hash block) (resp_data resp));
          ret (Some block)
    | None => ret None
    end;
  wait drain_deferred ctx;
  match completed_file with
  | Some block => complete_and_notify ctx (fb_folder block) (fb_name block) (fb_version block)
  | None => ret tt
  end.

(** ** The message loop *)

Definition parse {M : Type} `{!Codec M} (b : bytes) : T M :=
  lift (ok_or (decode b) (BepError.PeerBadMessage "protobuf decode error")).

Definition enqueue_index (m : IndexTaskMessage) (body_len : Z) : T unit :=
  await r <- index_send m body_len;
  lift (map_err (fun _ => BepError.Internal "index task closed") r).

(** One inbound message; [Some] ends the loop. *)
Definition dispatch (ctx : ConnectionContext) (msg : Framing.RawMessage) : T (option CloseReason) :=
  let body := Framing.body msg in
  let body_len := Z.of_nat (length body) in
  match type_of_code (Framing.htype (Framing.header msg)) with
  | Some TIndex =>
      await index <- parse (M := Index) body;
      wait enqueue_index (ItIndex index) body_len;
      ret None
  | Some TIndexUpdate =>
      await update <- parse (M := IndexUpdate) body;
      wait enqueue_index (ItIndexUpdate update) body_len;
      ret None
  | Some TRequest =>
      await request <- parse (M := Request) body;
      wait handle_request ctx request;
      ret None
  | Some TResponse =>
      await response <- parse (M := Response) body;
      wait handle_response ctx response;
      ret None
  | Some TPing => ret None
  | Some TClose =>
      await c <- parse (M := Close) body;
      ret (Some (Remote (reason c)))
  | Some TClusterConfig =>
      await cc <- parse (M := ClusterConfig) body;
      wait handle_cluster_config_update ctx cc;
      ret None
  | Some TDownloadProgress =>
      await _ <- parse (M := DownloadProgress) body;
      ret None
  | None => ret None
  end.

(** [tokio::select!]: takes what is ready, waits while nothing is. *)
Definition next_event : T Event :=
  Iter (fun _ : unit =>
    atom (fun w => match event w with
                   | Some ev => (set_event w None, Ok (inr ev))
                   | None => (w, Ok (inl tt))
                   end)) tt ret.

Definition on_event (ctx : ConnectionContext) (ev : Event) : T (option CloseReason) :=
  match ev with
  | EvShutdown =>
      wait try_send TClose (mkClose (lit "shutdown requested"));
      ret (Some Local)
  | EvTick =>
      wait send TPing mkPing;
      ret None
  | EvMessage m =>
      await msg <- lift m;
      dispatch ctx msg
  end.

Definition message_loop (ctx : ConnectionContext) : T CloseReason :=
  Iter (fun _ : unit =>
    await ev <- next_event;
    await close <- on_event ctx ev;
    ret (match close with Some r => inr r | None => inl tt end)) tt ret.

(** What the end of a task drops, whatever its result: here the sender of the
    index channel and a sender of the writer. *)
Definition then_drop {A : Type} (t : T A) (f : W -> W) : T A :=
  await r <- attempt t;
  wait atom (fun w => (f w, Ok tt));
  lift r.

Definition run_message_loop (ctx : ConnectionContext) : T CloseReason :=
  then_drop (message_loop ctx) (fun w => set_message_running w false).

(** ** The index loop *)

(** [select!] between the shutdown and the queue; [None] is the end. *)
Definition index_recv : T (option IndexTaskMessage) :=
  Iter (fun _ : unit =>
    atom (fun w =>
      if shutdown w then (w, Ok (inr None))
      else match pop (index_queue w) with
           | Some (m, q) => (set_index_queue w q, Ok (inr (Some m)))
           | None => if message_running w then (w, Ok (inl tt)) else (w, Ok (inr None))
           end)) tt ret.

Definition handle_index_task (ctx : ConnectionContext) (m : IndexTaskMessage) : T unit :=
  match m with
  | ItIndex index => handle_index ctx index
  | ItIndexUpdate update => handle_index_update ctx update
  end.

(** The permit of the message is dropped when its handler is done. *)
Definition release_index : T unit := atom (fun w => (set_index_queue w (release (index_queue w)), Ok tt)).

Definition index_loop (ctx : ConnectionContext) : T unit :=
  Iter (fun _ : unit =>
    await m <- index_recv;
    match m with
    | None => ret (inr tt)
    | Some m =>
        await res <- attempt (handle_index_task ctx m);
        match res with
        | Ok _ => wait release_index; ret (inl tt)
        | Err e => wait atom (fun w => (set_shutdown w true, Ok tt)); fail e
        end
    end) tt ret.

Definition run_index_loop (ctx : ConnectionContext) : T unit :=
  then_drop (index_loop ctx) (fun w => set_index_running (set_index_queue w (close (index_queue w))) false).

(** ** The writer loop *)

Definition header_of (m : OutgoingMessage) : Framing.Header :=
  Framing.mkHeader (type_code (msg_type m)) Framing.COMPRESSION_NONE.

(** [rx.recv()]: [None] when every sender is gone and the queue is empty. *)
Definition writer_recv : T (option OutgoingMessage) :=
  Iter (fun _ : unit =>
    atom (fun w =>
      match pop (writer w) with
      | Some (m, q) => (set_writer w q, Ok (inr (Some m)))
      | None => if message_running w || index_running w then (w, Ok (inl tt)) else (w, Ok (inr None))
      end)) tt ret.

(** [framing::write_message]; any error is reported as a network error. The
    permit is dropped after the write. *)
Definition write_out (m : OutgoingMessage) : T unit :=
  atom (fun w =>
    match Framing.write_message lz4_compress (header_of m) (payload m) false (sock w) with
    | (s', Ok _) => (set_writer (set_sock w s') (release (writer w)), Ok tt)
    | (s', Err _) => (set_sock w s', Err (BepError.NetworkError "write"))
    end).

Definition writer_loop : T unit :=
  Iter (fun _ : unit =>
    await m <- writer_recv;
    match m with
    | None => ret (inr tt)
    | Some m => wait write_out m; ret (inl tt)
    end) tt ret.

Definition run_writer_loop : T unit :=
  then_drop writer_loop (fun w => set_writer w (close (writer w))).

(** ** The initial cluster configuration *)

(** [framing::read_message] of the handshake. *)
Definition recv_message : T Framing.RawMessage :=
  Iter (fun _ : unit =>
    atom (fun w => match event w with
                   | Some (EvMessage (Ok m)) => (set_event w None, Ok (inr m))
                   | Some (EvMessage (Err e)) => (set_event w None, Err e)
                   | _ => (w, Ok (inl tt))
                   end)) tt ret.

(** The shared folders, then those of the storage that are not among them. *)
Definition initial_folders (shared : list bytes) (known : list (bytes * bytes * bytes)) : list bytes :=
  foldl (fun acc p => if bool_decide (fst (fst p) ∈ acc) then acc else acc ++ [fst (fst p)]) shared known.

Definition exchange_initial_cluster_config (ctx : ConnectionContext) (shared_folders : list bytes) :
  T (gmap bytes Z * gset bytes) :=
  await known <- retry ctx st_list_folders;
  let initial := initial_folders shared_folders known in
  await cluster_config <- build_cluster_config ctx (local_device ctx) (remote_device ctx) initial;
  wait send TClusterConfig cluster_config;
  await msg <- recv_message;
  if negb (Framing.htype (Framing.header msg) =? type_code TClusterConfig)
  then fail (BepError.PeerBadMessage "unexpected message type in state cluster_config")
  else
    await peer_cc <- parse (M := ClusterConfig) (Framing.body msg);
    await (mutual, new_for_our_cc) <- process_peer_cc ctx peer_cc ∅ (list_to_set initial);
    ret (extend ∅ mutual, list_to_set initial ∪ list_to_set new_for_our_cc).

(** The state that the loops start with. *)
Definition initial_inner (options : ConnectionOptions) (mutual : gmap bytes Z) (our_cc : gset bytes) : Inner :=
  mkInner mutual our_cc ∅ 0 (clamp_max_pending_requests (opt_max_pending_requests options)) [].

End Handlers.

(** ** The supervisor *)

(** How a worker task ended: the message loop with a close reason, the others
    with nothing, or a task that panicked or was cancelled. *)
Inductive Outcome :=
| Finished (r : result BepError.t (option CloseReason))
| Panicked
| Cancelled.

Definition outcome_error (o : Outcome) : option BepError.t :=
  match o with
  | Finished (Err e) => Some e
  | Panicked => Some (BepError.Internal "task panicked")
  | _ => None
  end.

Definition outcome_reason (o : Outcome) : option CloseReason :=
  match o with Finished (Ok r) => r | _ => None end.

(** [Iterator::max]: the last of the largest. *)
Definition max_error (errors : list BepError.t) : option BepError.t :=
  foldl (fun best e =>
    match best with
    | Some b => if priority b <=? priority e then Some e else Some b
    | None => Some e
    end) None errors.

(** The result of [run_connection_inner], from the outcomes of its tasks in the
    order in which they came (those that came in time). *)
Definition supervise (outcomes : list Outcome) : result BepError.t CloseReason :=
  match max_error (omap outcome_error outcomes) with
  | Some e => Err e
  | None => Ok (default Local (head (omap outcome_reason outcomes)))
  end.

(** The reason that [run_connection] reports. *)
Definition close_reason (r : result BepError.t CloseReason) : CloseReason :=
  match r with Ok reason => reason | Err e => Failed e end.

End Connection.
