(* ===== verification/ConnectionSafety.v ===== *)
(** What holds of a connection in every interleaving of its tasks, with any
    storage, any peer and any moment of shutdown: the bounds of its queues, the
    request ids in use, the folders it has announced. *)

From Stdlib Require Import ZArith Lia.
From stdpp Require Import base gmap list strings relations.
From S2P Require Import Prelude BepTypes Codec Conflict Validate Framing Retry Task Messages Connection.

Local Open Scope Z_scope.
Local Open Scope bep_scope.

Module ConnectionSafety.
Import Task Connection.

(** ** Request ids *)

Definition is_i32 (z : Z) : Prop := - I32_MAX - 1 <= z <= I32_MAX.

Lemma wrapping_succ_i32 z : is_i32 z -> is_i32 (wrapping_succ z).
Proof. unfold is_i32, wrapping_succ, I32_MAX. destruct (Z.eqb_spec z 2147483647); lia. Qed.

(** The [n]-th id that the loop tries. *)
Definition nth_id (z : Z) (n : nat) : Z := Nat.iter n wrapping_succ z.

Lemma nth_id_S z n : nth_id (wrapping_succ z) n = nth_id z (S n).
Proof. unfold nth_id. by rewrite Nat.iter_succ_r. Qed.

Lemma nth_id_i32 z n : is_i32 z -> is_i32 (nth_id z n).
Proof. intros Hz. induction n as [|n IH]; [done|]. by apply wrapping_succ_i32. Qed.

Lemma nth_id_mod z n : is_i32 z -> (nth_id z n - z) mod 2 ^ 32 = Z.of_nat n mod 2 ^ 32.
Proof.
  intros Hz. induction n as [|n IH].
  - unfold nth_id. cbn. by rewrite Z.sub_diag.
  - change (nth_id z (S n)) with (wrapping_succ (nth_id z n)).
    pose proof (nth_id_i32 z n Hz) as Hn. unfold wrapping_succ.
    rewrite Nat2Z.inj_succ. unfold Z.succ. rewrite Zplus_mod, <- IH, <- Zplus_mod.
    destruct (Z.eqb_spec (nth_id z n) I32_MAX) as [E|_]; [|f_equal; lia].
    rewrite E. unfold I32_MAX. replace (2147483647 - z + 1) with (- 2147483647 - 1 - z + 1 * 2 ^ 32) by lia.
    by rewrite Z_mod_plus_full.
Qed.

Lemma nth_id_inj z n m :
  is_i32 z -> Z.of_nat n < 2 ^ 32 -> Z.of_nat m < 2 ^ 32 -> nth_id z n = nth_id z m -> n = m.
Proof.
  intros Hz Hn Hm E. pose proof (nth_id_mod z n Hz) as H. rewrite E, nth_id_mod in H by done.
  rewrite !Z.mod_small in H by lia. lia.
Qed.

Lemma next_id_loop_spec {F : Type} (p : gmap Z (FileBlock F)) fuel z :
  match next_id_loop fuel z p with
  | Some (id, next) => p !! id = None /\ next = wrapping_succ id /\ exists n, (n < fuel)%nat /\ id = nth_id z n
  | None => forall n, (n < fuel)%nat -> is_Some (p !! nth_id z n)
  end.
Proof.
  revert z. induction fuel as [|fuel IH]; intros z; cbn [next_id_loop]; [lia|].
  case_bool_decide as Hp.
  - specialize (IH (wrapping_succ z)). destruct (next_id_loop fuel (wrapping_succ z) p) as [[id next]|].
    + destruct IH as (? & ? & n & ? & Hn). split; [done|]. split; [done|].
      exists (S n). rewrite <- nth_id_S. split; [lia|done].
    + intros [|n] Hn; [done|]. rewrite <- nth_id_S. apply IH. lia.
  - split; [by apply eq_None_not_Some|]. split; [done|]. exists O. split; [lia|done].
Qed.

(** The ids tried are distinct, so more of them than there are requests cannot
    all be in use. *)
Lemma next_id_loop_found {F : Type} (p : gmap Z (FileBlock F)) z :
  is_i32 z -> Z.of_nat (size p) < 2 ^ 32 -> is_Some (next_id_loop (S (size p)) z p).
Proof.
  intros Hz Hsize. pose proof (next_id_loop_spec p (S (size p)) z) as H.
  destruct (next_id_loop _ z p); [done|]. exfalso.
  assert (list_to_set (C := gset Z) (nth_id z <$> seq 0 (S (size p))) ⊆ dom p) as Hsub.
  { intros i. rewrite elem_of_list_to_set, list_elem_of_fmap, elem_of_dom.
    intros (n & -> & Hn%elem_of_seq). apply H. lia. }
  apply subseteq_size in Hsub. rewrite size_list_to_set, length_fmap, length_seq, size_dom in Hsub; [lia|].
  apply NoDup_fmap_2_strong; [|apply NoDup_seq]. intros x y Hx%elem_of_seq Hy%elem_of_seq.
  apply nth_id_inj; [done|lia..].
Qed.

(** Request ids. With a counter in the range of [i32] and fewer than
    2^32 requests in flight, the search for an id ends within one more try than
    there are requests, with an id in the range that no request in flight uses,
    and leaves the counter in the range. *)
Theorem next_request_id_fresh (F : Type) (c : ConnectionInner F)
  (Hid : is_i32 (next_id c)) (Hsize : Z.of_nat (size (pending_requests c)) < 2 ^ 32) :
  exists id next, next_request_id c = Some (id, next) /\
    pending_requests c !! id = None /\ is_i32 id /\ is_i32 next.
Proof.
  unfold next_request_id. destruct (next_id_loop_found (pending_requests c) (next_id c) Hid Hsize) as [[id next] E].
  pose proof (next_id_loop_spec (pending_requests c) (S (size (pending_requests c))) (next_id c)) as H.
  rewrite E in *. destruct H as (Hfree & -> & n & _ & ->). exists (nth_id (next_id c) n), (wrapping_succ (nth_id (next_id c) n)).
  split; [done|]. split; [done|]. split; [|apply wrapping_succ_i32]; by apply nth_id_i32.
Qed.

Lemma next_request_id_fresh_witness :
  next_request_id (mkInner (F := unit) ∅ ∅
    {[ I32_MAX := mkFileBlock tt [] 0 [] None ]} I32_MAX 16 []) =
  Some (- I32_MAX - 1, - I32_MAX).
Proof.
  destruct (next_request_id_fresh unit (mkInner ∅ ∅ {[ I32_MAX := mkFileBlock tt [] 0 [] None ]} I32_MAX 16 [])
    ltac:(by vm_compute) ltac:(by vm_compute)) as (id & next & E & _).
  vm_compute. reflexivity.
Defined.

(** ** The invariant *)

Definition channel_ok {M : Type} (count budget : Z) (c : Channel M) : Prop :=
  in_use c <= budget /\ 0 <= busy c /\ Z.of_nat (length (items c)) <= count /\
  Forall (fun p => 1 <= fst p) (items c).

(** Room for a request is checked where it is registered; every mutual folder is
    one we have announced. *)
Record inner_ok {F : Type} (c : ConnectionInner F) : Prop := mkInnerOk {
  io_max : 1 <= max_pending_requests c < 2 ^ 32;
  io_pending : Z.of_nat (size (pending_requests c)) <= max_pending_requests c;
  io_ids : forall id, is_Some (pending_requests c !! id) -> is_i32 id;
  io_next : is_i32 (next_id c);
  io_mutual : dom (mutual_folders c) ⊆ our_cc_folders c
}.

Definition Inv {Sto F : Type} (w : World Sto F) : Prop :=
  inner_ok (inner w) /\
  channel_ok WRITER_COUNT WRITER_BUDGET_BYTES (writer w) /\
  channel_ok INDEX_COUNT INDEX_BUDGET_BYTES (index_queue w).

(** Announced folders stay announced. *)
Definition grows {Sto F : Type} (w w' : World Sto F) : Prop :=
  our_cc_folders (inner w) ⊆ our_cc_folders (inner w').

#[global] Instance grows_preorder {Sto F : Type} : PreOrder (grows (Sto := Sto) (F := F)).
Proof. unfold grows. split; [intros w|intros w1 w2 w3]; set_solver. Qed.

(** Steps that leave the connection state alone. *)
Lemma Inv_upd {Sto F : Type} (w w' : World Sto F) :
  Inv w -> inner w' = inner w ->
  channel_ok WRITER_COUNT WRITER_BUDGET_BYTES (writer w') ->
  channel_ok INDEX_COUNT INDEX_BUDGET_BYTES (index_queue w') -> Inv w' /\ grows w w'.
Proof. intros (Hi & _ & _) E Hw Hq. unfold Inv, grows. by rewrite E. Qed.

(** *** Channels *)

Lemma total_permits_app {M : Type} (l1 l2 : list (Z * M)) :
  total_permits (l1 ++ l2) = total_permits l1 + total_permits l2.
Proof. induction l1 as [|p l1 IH]; cbn [app total_permits foldr]; [done|]. unfold total_permits in *. lia. Qed.

Lemma total_permits_nonneg {M : Type} (l : list (Z * M)) :
  Forall (fun p => 1 <= fst p) l -> 0 <= total_permits l.
Proof. induction 1 as [|p l Hp _ IH]; cbn [total_permits foldr]; [done|]. unfold total_permits in IH. lia. Qed.

Lemma permits_range budget n : 1 <= budget -> 1 <= permits budget n <= budget.
Proof. unfold permits, U32_MAX. lia. Qed.

Section Channels.
Context {M : Type} (count budget : Z) (Hbudget : 1 <= budget) (Hcount : 0 <= count).
Implicit Types c : Channel M.

Lemma channel_ok_push c n (m : M) :
  channel_ok count budget c -> has_room count budget (permits budget n) c = true ->
  channel_ok count budget (push (permits budget n) m c).
Proof.
  intros (Hu & Hb & Hl & Hp) [Hroom%Z.leb_le Hlen%Z.ltb_lt]%andb_true_iff.
  pose proof (permits_range budget n Hbudget). unfold channel_ok, push, in_use in *. cbn [items busy].
  rewrite total_permits_app, length_app. cbn [total_permits foldr fst length].
  split_and!; [lia|done|lia|]. apply Forall_app. split; [done|]. constructor; [cbn; lia|constructor].
Qed.

Lemma channel_ok_pop c m c' : channel_ok count budget c -> pop c = Some (m, c') -> channel_ok count budget c'.
Proof.
  intros (Hu & Hb & Hl & Hp) E. unfold pop in E. unfold channel_ok, in_use in *.
  destruct (items c) as [|[need m'] rest]; [done|]. injection E as <- <-. cbn [items busy].
  apply Forall_cons in Hp as [Hn Hp]. cbn [total_permits foldr fst length] in *. unfold total_permits in *.
  split_and!; [lia|lia|lia|done].
Qed.

Lemma channel_ok_release c : channel_ok count budget c -> channel_ok count budget (release c).
Proof. intros (Hu & Hb & Hl & Hp). unfold channel_ok, release, in_use in *. cbn [items busy]. split_and!; [lia|done..]. Qed.

Lemma channel_ok_close c : channel_ok count budget (close c).
Proof. unfold channel_ok, close, in_use. cbn. split_and!; [lia|lia|lia|constructor]. Qed.

End Channels.

(** *** Critical sections *)

Lemma size_insert_fresh {A : Type} (m : gmap Z A) k a : m !! k = None -> size (<[k := a]> m) = S (size m).
Proof. apply map_size_insert_None. Qed.

Section Sections.
Context {Sto F : Type} `{!Storage Sto F}.
Implicit Types c : ConnectionInner F.

Lemma register_ok block size block_no c :
  inner_ok c -> inner_ok (fst (register (Sto := Sto) block size block_no c)) /\
                our_cc_folders (fst (register (Sto := Sto) block size block_no c)) = our_cc_folders c.
Proof.
  intros [Hmax Hp Hids Hnext Hm]. unfold register.
  destruct (Z.leb_spec (max_pending_requests c) (Z.of_nat (base.size (pending_requests c)))) as [|Hlt]; [done|].
  unfold next_request_id. pose proof (next_id_loop_spec (pending_requests c)
    (S (base.size (pending_requests c))) (next_id c)) as H.
  destruct (next_id_loop _ _ _) as [[id next]|]; [|done]. destruct H as (Hfree & -> & n & _ & ->).
  cbn [fst]. split; [|done]. constructor; cbn; try done.
  - rewrite size_insert_fresh by done. lia.
  - intros i [<-|[_ ?]]%lookup_insert_is_Some; [by apply nth_id_i32|auto].
  - by apply wrapping_succ_i32, nth_id_i32.
Qed.

Lemma take_deferred_ok c :
  inner_ok c -> inner_ok (fst (take_deferred c)) /\ our_cc_folders (fst (take_deferred c)) = our_cc_folders c.
Proof.
  intros H. unfold take_deferred. destruct (max_pending_requests c <=? _); [done|].
  destruct (deferred_blocks c); [done|]. by destruct H.
Qed.

Lemma take_pending_ok id c :
  inner_ok c -> inner_ok (fst (take_pending id c)) /\ our_cc_folders (fst (take_pending id c)) = our_cc_folders c.
Proof.
  intros [Hmax Hp Hids Hnext Hm]. split; [|done]. constructor; cbn; try done.
  - rewrite map_size_delete. destruct (pending_requests c !! id); cbn; lia.
  - intros i [_ ?]%lookup_delete_is_Some. auto.
Qed.

Lemma dom_extend (m : gmap bytes Z) l : dom (extend m l) = dom m ∪ list_to_set (map fst l).
Proof.
  revert m. induction l as [|p l IH]; intros m; cbn [extend foldl map list_to_set]; [set_solver|].
  unfold extend in IH. rewrite IH. set_solver.
Qed.

Lemma merge_cc_ok new_mutual new_for_our_cc c :
  inner_ok c ->
  (forall id, id ∈ map fst new_mutual -> id ∈ our_cc_folders c \/ id ∈ new_for_our_cc) ->
  inner_ok (merge_cc new_mutual new_for_our_cc c).
Proof.
  intros [Hmax Hp Hids Hnext Hm] H. constructor; cbn; try done. rewrite dom_extend.
  intros i [Hi|Hi]%elem_of_union; [set_solver|]. apply elem_of_list_to_set in Hi. set_solver.
Qed.

End Sections.

(** *** Tasks *)

Create HintDb quiet discriminated.

Section Tasks.
Context {Sto F : Type} `{!Storage Sto F} {MC : MessageCodecs} `{!Codec Framing.Header}.
Context (lz4_compress : bytes -> bytes).
Abbreviation W := (World Sto F).
Abbreviation T := (Task (World Sto F) BepError.t).

(** The task keeps the invariant among others that keep it. *)
Definition quiet {A : Type} (t : T A) : Prop :=
  forall w, Inv w -> safe Inv grows grows t w (fun _ _ => True).

Lemma quiet_done {A : Type} (r : result BepError.t A) : quiet (Done r).
Proof. intros w _. by constructor. Qed.

Lemma quiet_bind {A B : Type} (t : T A) (k : A -> T B) : quiet t -> (forall a, quiet (k a)) -> quiet (bind t k).
Proof. intros Ht Hk w Hi. eapply (safe_bind Inv grows grows); [done|by apply Ht|intros; by apply Hk|done]. Qed.

Lemma quiet_atom {A : Type} (f : W -> W * result BepError.t A) :
  (forall w, Inv w -> Inv (fst (f w)) /\ grows w (fst (f w))) -> quiet (atom f).
Proof. intros H w Hi. apply (safe_atom_at Inv grows grows). intros w1 _ Hi1. destruct (H w1 Hi1). by split_and!. Qed.

Lemma quiet_iter {A X B : Type} (body : X -> T (X + B)) x (k : B -> T A) :
  (forall y, quiet (body y)) -> (forall b, quiet (k b)) -> quiet (Iter body x k).
Proof.
  intros Hb Hk w Hi. apply (safe_iter Inv grows grows _ _ _ _ _ _ _ (fun _ _ => True) (fun _ _ => True)); try done.
  - intros y w1 Hi1 _. eapply safe_mono; [by apply Hb|]. by intros [[]|].
  - intros b w1 Hi1 _. by apply Hk.
Qed.

Lemma quiet_attempt {A : Type} (t : T A) : quiet t -> quiet (attempt t).
Proof. intros Ht w Hi. eapply (safe_attempt Inv grows grows); [done|by apply Ht|done]. Qed.

Lemma quiet_collect {A B : Type} (l : list A) (f : A -> T B) : (forall a, quiet (f a)) -> quiet (collect l f).
Proof.
  intros Hf. induction l as [|a l IH]; cbn [collect]; [apply quiet_done|].
  apply quiet_bind; [done|]. intros b. apply quiet_bind; [done|]. intros bs. apply quiet_done.
Qed.

Lemma quiet_for_each {A : Type} (l : list A) (f : A -> T unit) : (forall a, quiet (f a)) -> quiet (for_each l f).
Proof. intros Hf. induction l as [|a l IH]; cbn [for_each]; [apply quiet_done|]. by apply quiet_bind. Qed.

Lemma quiet_call {A : Type} (f : SE Sto StorageError.t A) : quiet (call f).
Proof. apply quiet_atom. intros w Hi. destruct (f (storage w)). apply (Inv_upd w); [done|done|apply Hi..]. Qed.

Lemma quiet_read {A : Type} (f : W -> A) : quiet (read f).
Proof. apply quiet_atom. intros w Hi. apply (Inv_upd w); [done|done|apply Hi..]. Qed.

Lemma quiet_section {A : Type} (f : ConnectionInner F -> ConnectionInner F * result BepError.t A) :
  (forall c, inner_ok c -> inner_ok (fst (f c)) /\ our_cc_folders c ⊆ our_cc_folders (fst (f c))) ->
  quiet (atom (fun w => match f (inner w) with (c, r) => (set_inner w c, r) end)).
Proof.
  intros H. apply quiet_atom. intros w (Hi & Hw & Hq). specialize (H _ Hi). destruct (f (inner w)) as [c r].
  destruct H. by split.
Qed.

Lemma quiet_locked {A : Type} (f : ConnectionInner F -> ConnectionInner F * A) :
  (forall c, inner_ok c -> inner_ok (fst (f c)) /\ our_cc_folders c ⊆ our_cc_folders (fst (f c))) ->
  quiet (locked f).
Proof.
  intros H. apply quiet_atom. intros w (Hi & Hw & Hq). specialize (H _ Hi). destruct (f (inner w)) as [c r].
  destruct H. by split.
Qed.

#[local] Hint Resolve quiet_done quiet_call quiet_read : quiet.

(** Case analysis on whatever the task branches on. *)
Ltac quiet :=
  repeat first
    [ progress intros
    | solve [auto with quiet nocore]
    | apply quiet_bind | apply quiet_iter | apply quiet_attempt | apply quiet_collect | apply quiet_for_each
    | match goal with |- quiet (match ?x with _ => _ end) => destruct x end ].

Lemma quiet_retry {A : Type} ctx (f : SE Sto StorageError.t A) : quiet (retry ctx f).
Proof. unfold retry, fail, ret. quiet. Qed.
#[local] Hint Resolve quiet_retry : quiet.

Lemma quiet_try_send {M : Type} `{!Codec M} t (m : M) : quiet (try_send t m).
Proof.
  apply quiet_iter; [|intros; apply quiet_done]. intros _. apply quiet_atom. intros w (Hi & Hw & Hq).
  destruct (is_open (writer w)); [cbn [negb]|by apply (Inv_upd w)].
  destruct (has_room _ _ _ (writer w)) eqn:E; [|by apply (Inv_upd w)].
  apply (Inv_upd w); [done|done|by apply channel_ok_push|done].
Qed.
#[local] Hint Resolve quiet_try_send : quiet.

Lemma quiet_send {M : Type} `{!Codec M} t (m : M) : quiet (send t m).
Proof. unfold send, lift. quiet. Qed.
#[local] Hint Resolve quiet_send : quiet.

Lemma quiet_index_send m n : quiet (index_send m n).
Proof.
  apply quiet_iter; [|intros; apply quiet_done]. intros _. apply quiet_atom. intros w (Hi & Hw & Hq).
  destruct (is_open (index_queue w)); [cbn [negb]|by apply (Inv_upd w)].
  destruct (has_room _ _ _ (index_queue w)) eqn:E; [|by apply (Inv_upd w)].
  apply (Inv_upd w); [done|done|done|by apply channel_ok_push].
Qed.
#[local] Hint Resolve quiet_index_send : quiet.

Lemma quiet_complete_and_notify ctx folder name version : quiet (complete_and_notify ctx folder name version).
Proof. unfold complete_and_notify, maybe_complete_file, ret. quiet. all: by apply quiet_locked. Qed.
#[local] Hint Resolve quiet_complete_and_notify : quiet.

Lemma quiet_submit block size block_no : quiet (submit_or_defer_block block size block_no).
Proof.
  unfold submit_or_defer_block, ret. apply quiet_bind; [|quiet]. apply quiet_section. intros c Hc.
  destruct (register_ok (Sto := Sto) block size block_no c Hc) as [? ->]. done.
Qed.
#[local] Hint Resolve quiet_submit : quiet.

Lemma quiet_drain_deferred ctx : quiet (drain_deferred ctx).
Proof.
  unfold drain_deferred, ret. quiet. apply quiet_locked. intros c Hc.
  destruct (take_deferred_ok c Hc) as [? ->]. done.
Qed.
#[local] Hint Resolve quiet_drain_deferred : quiet.

Lemma quiet_request_loop ctx folder file bs : forall i, quiet (request_loop ctx folder file i bs).
Proof. induction bs as [|b bs IH]; intros i; cbn [request_loop]; unfold ret, fail; quiet. Qed.
#[local] Hint Resolve quiet_request_loop : quiet.

Lemma quiet_apply_remote_index ctx folder_id files last : quiet (apply_remote_index ctx folder_id files last).
Proof.
  unfold apply_remote_index, apply_files, apply_file, request_blocks, send_index_update, ret, lift. quiet.
  by apply quiet_locked.
Qed.
#[local] Hint Resolve quiet_apply_remote_index : quiet.

Lemma quiet_handle_request ctx req : quiet (handle_request ctx req).
Proof. unfold handle_request, ret. quiet. Qed.

Lemma quiet_handle_response ctx resp : quiet (handle_response ctx resp).
Proof.
  unfold handle_response, ret, fail. quiet. apply quiet_locked. intros c Hc.
  destruct (take_pending_ok (resp_id resp) c Hc) as [? ->]. done.
Qed.
#[local] Hint Resolve quiet_handle_request quiet_handle_response : quiet.

Lemma quiet_send_index ctx folder_id : quiet (send_index ctx folder_id).
Proof. unfold send_index, lift. quiet. Qed.

Lemma quiet_build_cluster_config ctx l r ids : quiet (build_cluster_config ctx l r ids).
Proof. unfold build_cluster_config, ret. quiet. Qed.
#[local] Hint Resolve quiet_send_index quiet_build_cluster_config : quiet.

(** Whatever happens meanwhile, a folder that becomes mutual was announced or is
    being announced. *)
Definition announces (our_cc : gset bytes) (r : result BepError.t (list (bytes * Z) * list bytes)) : Prop :=
  match r with
  | Ok (new_mutual, new_for_our_cc) =>
      forall id, id ∈ map fst new_mutual -> id ∈ our_cc \/ id ∈ new_for_our_cc
  | Err _ => True
  end.

Lemma safe_process_peer_cc ctx cc mutual our_cc w :
  Inv w -> safe Inv grows grows (process_peer_cc ctx cc mutual our_cc) w (fun r _ => announces our_cc r).
Proof.
  intros Hi. unfold process_peer_cc. eapply (safe_bind Inv grows grows); [done|by apply quiet_done| |done].
  intros parsed w1 Hi1 _. eapply (safe_bind Inv grows grows); [done|by apply quiet_retry| |done].
  intros _ w2 Hi2 _. cbv zeta. set (new_mutual := newly_mutual parsed mutual).
  set (new_cc := newly_announced new_mutual our_cc).
  eapply (safe_bind Inv grows grows); [done| | |done].
  { assert (quiet (match new_cc with [] => ret tt | _ :: _ =>
      await updated_cc <- build_cluster_config ctx (local_device ctx) (remote_device ctx) (elements our_cc ++ new_cc);
      send TClusterConfig updated_cc end)) as Hq by (unfold ret; quiet). by apply Hq. }
  intros _ w3 Hi3 _. eapply (safe_bind Inv grows grows); [done| | |done].
  { assert (quiet (for_each new_mutual (fun p => send_index ctx (fst p)))) as Hq by quiet. by apply Hq. }
  intros _ w4 Hi4 _. constructor. intros w5 _ _. cbn. intros id Hid.
  destruct (decide (id ∈ our_cc)); [by left|right]. by apply list_elem_of_filter.
Qed.

Lemma quiet_handle_cluster_config_update ctx cc : quiet (handle_cluster_config_update ctx cc).
Proof.
  intros w Hi. unfold handle_cluster_config_update.
  eapply (safe_bind Inv grows grows _ _ _ (fun r w1 => match r with
    | Ok (_, snap) => snap ⊆ our_cc_folders (inner w1) | Err _ => True end)); [done| | |done].
  { apply (safe_atom_at Inv grows grows). intros w1 _ Hi1. cbn [fst snd].
    destruct (Inv_upd w1 (set_inner w1 (inner w1))) as [? ?]; [done|done|apply Hi1..|].
    split_and!; [done|done|]. intros w2 Hg _. exact Hg. }
  intros [mutual snap] w1 Hi1 Hsnap.
  eapply (safe_bind Inv grows grows _ _ _ (fun r w2 => announces snap r /\ snap ⊆ our_cc_folders (inner w2))); [done| | |done].
  { pose proof (safe_process_peer_cc ctx cc mutual snap w1 Hi1) as H.
    eapply safe_mono; [exact (safe_since Inv grows grows _ _ _ ltac:(done) H)|]. intros r w2 _ [Ha Hg]. split; [done|].
    unfold grows in Hg. set_solver. }
  intros [new_mutual new_cc] w2 Hi2 [Ha Hs]. apply (safe_atom_at Inv grows grows). intros w3 Hg (Hi3 & Hw & Hq). cbn [fst snd inner].
  split; [|split; [cbn; unfold grows; cbn; set_solver|done]].
  split; [|done]. cbn [inner set_inner]. apply merge_cc_ok; [done|]. intros id Hid.
  destruct (Ha id Hid); [left|by right]. unfold grows in Hg. set_solver.
Qed.
#[local] Hint Resolve quiet_handle_cluster_config_update : quiet.

(** *** The loops *)

Lemma quiet_enqueue_index m n : quiet (enqueue_index m n).
Proof. unfold enqueue_index, lift. quiet. Qed.
#[local] Hint Resolve quiet_enqueue_index : quiet.

Lemma quiet_dispatch ctx msg : quiet (dispatch ctx msg).
Proof. unfold dispatch, parse, lift, ret. quiet. Qed.

Lemma quiet_next_event : quiet next_event.
Proof.
  unfold next_event, ret. quiet. apply quiet_atom. intros w Hi.
  destruct (event w); (apply (Inv_upd w); [done|done|apply Hi..]).
Qed.
#[local] Hint Resolve quiet_dispatch quiet_next_event : quiet.

Lemma quiet_then_drop {A : Type} (t : T A) (f : W -> W) :
  quiet t -> (forall w, Inv w -> Inv (f w) /\ grows w (f w)) -> quiet (then_drop t f).
Proof.
  intros Ht Hf. unfold then_drop, lift. quiet. apply quiet_atom. intros w Hi. by apply Hf.
Qed.

Lemma quiet_run_message_loop ctx : quiet (run_message_loop ctx).
Proof.
  apply quiet_then_drop.
  - unfold message_loop, on_event, ret, lift. quiet.
  - intros w Hi. apply (Inv_upd w); [done|done|apply Hi..].
Qed.

Lemma quiet_index_recv : quiet index_recv.
Proof.
  unfold index_recv, ret. quiet. apply quiet_atom. intros w Hi.
  destruct (shutdown w); [apply (Inv_upd w); [done|done|apply Hi..]|].
  destruct (pop (index_queue w)) as [[m q]|] eqn:E.
  - apply (Inv_upd w); [done|done|apply Hi|]. eapply channel_ok_pop; [apply Hi|exact E].
  - destruct (message_running w); (apply (Inv_upd w); [done|done|apply Hi..]).
Qed.

Lemma quiet_release_index : quiet release_index.
Proof.
  apply quiet_atom. intros w Hi. apply (Inv_upd w); [done|done|apply Hi|]. by apply channel_ok_release, Hi.
Qed.
#[local] Hint Resolve quiet_index_recv quiet_release_index : quiet.

Lemma quiet_run_index_loop ctx : quiet (run_index_loop ctx).
Proof.
  apply quiet_then_drop.
  - unfold index_loop, handle_index_task, handle_index, handle_index_update, ret, fail. quiet.
    apply quiet_atom. intros w Hi. apply (Inv_upd w); [done|done|apply Hi..].
  - intros w Hi. apply (Inv_upd w); [done|done|apply Hi|by apply channel_ok_close].
Qed.

Lemma quiet_writer_recv : quiet writer_recv.
Proof.
  unfold writer_recv, ret. quiet. apply quiet_atom. intros w Hi.
  destruct (pop (writer w)) as [[m q]|] eqn:E.
  - apply (Inv_upd w); [done|done| |apply Hi]. eapply channel_ok_pop; [apply Hi|exact E].
  - destruct (_ || _); (apply (Inv_upd w); [done|done|apply Hi..]).
Qed.

Lemma quiet_write_out m : quiet (write_out lz4_compress m).
Proof.
  apply quiet_atom. intros w Hi. destruct (Framing.write_message _ _ _ _ _) as [s' [[]|e]].
  - apply (Inv_upd w); [done|done| |apply Hi]. by apply channel_ok_release, Hi.
  - apply (Inv_upd w); [done|done|apply Hi..].
Qed.
#[local] Hint Resolve quiet_writer_recv quiet_write_out : quiet.

Lemma quiet_run_writer_loop : quiet (run_writer_loop lz4_compress).
Proof.
  apply quiet_then_drop.
  - unfold writer_loop, ret. quiet.
  - intros w Hi. apply (Inv_upd w); [done|done|by apply channel_ok_close|apply Hi].
Qed.

(** ** The connection *)

Record Conn := mkConn {
  world : W;
  message_task : T CloseReason;
  index_task : T unit;
  writer_task : T unit
}.

(** Any task makes its next step; something becomes ready for the message loop
    (the shutdown only when it was requested); the shutdown is requested. *)
Inductive conn_step : Conn -> Conn -> Prop :=
| cs_message w m i wr :
    conn_step (mkConn w m i wr) (mkConn (fst (step m w)) (snd (step m w)) i wr)
| cs_index w m i wr :
    conn_step (mkConn w m i wr) (mkConn (fst (step i w)) m (snd (step i w)) wr)
| cs_writer w m i wr :
    conn_step (mkConn w m i wr) (mkConn (fst (step wr w)) m i (snd (step wr w)))
| cs_event w m i wr ev :
    event w = None -> (ev = EvShutdown -> shutdown w = true) ->
    conn_step (mkConn w m i wr) (mkConn (set_event w (Some ev)) m i wr)
| cs_cancel w m i wr :
    conn_step (mkConn w m i wr) (mkConn (set_shutdown w true) m i wr).

(** The world before the handshake, and the connection after it. *)
Definition fresh (sto : Sto) (s : Framing.Writer) : W :=
  mkWorld sto (mkInner ∅ ∅ ∅ 0 1 []) false None (byte_budget_channel _) (byte_budget_channel _) s true true.

Definition start (ctx : ConnectionContext) (options : ConnectionOptions) (mutual : gmap bytes Z)
  (our_cc : gset bytes) (w : W) : Conn :=
  mkConn (set_inner w (initial_inner options mutual our_cc))
    (run_message_loop ctx) (run_index_loop ctx) (run_writer_loop lz4_compress).

Lemma fresh_Inv sto s : Inv (fresh sto s).
Proof.
  split; [|split; cbn].
  - constructor; cbn; try done. by intros id [? ?].
  - by repeat split.
  - by repeat split.
Qed.

(** Among the tasks, every one is safe from the world it last saw. *)
Definition sound (c : Conn) : Prop :=
  Inv (world c) /\
  safe Inv grows grows (message_task c) (world c) (fun _ _ => True) /\
  safe Inv grows grows (index_task c) (world c) (fun _ _ => True) /\
  safe Inv grows grows (writer_task c) (world c) (fun _ _ => True).

Lemma sound_env w w' m i wr :
  sound (mkConn w m i wr) -> Inv w' -> grows w w' -> sound (mkConn w' m i wr).
Proof.
  intros (_ & Hm & Hi & Hw) Hi' Hg. cbn in *. unfold sound. cbn.
  split; [done|]. split_and!; eapply (safe_rely Inv grows grows); eauto.
Qed.

Lemma sound_step c c' : conn_step c c' -> sound c -> sound c'.
Proof.
  intros [w m i wr|w m i wr|w m i wr|w m i wr ev _ _|w m i wr] H; pose proof H as (Hi & Hm & Hx & Hw); cbn in Hi, Hm, Hx, Hw.
  - destruct (safe_step Inv grows grows m w w _ Hm (reflexivity w) Hi) as (? & ? & ?).
    destruct (sound_env _ (fst (step m w)) m i wr H) as (_ & _ & ? & ?); [done..|]. by split_and!.
  - destruct (safe_step Inv grows grows i w w _ Hx (reflexivity w) Hi) as (? & ? & ?).
    destruct (sound_env _ (fst (step i w)) m i wr H) as (_ & ? & _ & ?); [done..|]. by split_and!.
  - destruct (safe_step Inv grows grows wr w w _ Hw (reflexivity w) Hi) as (? & ? & ?).
    destruct (sound_env _ (fst (step wr w)) m i wr H) as (_ & ? & ? & _); [done..|]. by split_and!.
  - apply (sound_env w); [done|..]; (apply (Inv_upd w); [done|done|apply Hi..]).
  - apply (sound_env w); [done|..]; (apply (Inv_upd w); [done|done|apply Hi..]).
Qed.

Lemma safe_exchange ctx shared w :
  Inv w -> safe Inv grows grows (exchange_initial_cluster_config ctx shared) w (fun r _ =>
    match r with Ok (mutual, our_cc) => dom mutual ⊆ our_cc | Err _ => True end).
Proof.
  intros Hi. unfold exchange_initial_cluster_config.
  eapply (safe_bind Inv grows grows); [done|by apply quiet_retry| |done]. intros known w1 Hi1 _. cbv zeta.
  eapply (safe_bind Inv grows grows); [done|by apply quiet_build_cluster_config| |done]. intros cc w2 Hi2 _.
  eapply (safe_bind Inv grows grows); [done|by apply quiet_send| |done]. intros [] w3 Hi3 _.
  assert (quiet recv_message) as Hrecv.
  { unfold recv_message, ret. quiet. apply quiet_atom. intros w0 H0.
    destruct (event w0) as [[| |[m|e]]|]; (apply (Inv_upd w0); [done|done|apply H0..]). }
  eapply (safe_bind Inv grows grows); [done|by apply Hrecv| |done]. intros msg w4 Hi4 _.
  destruct (negb _); [by constructor|].
  eapply (safe_bind Inv grows grows); [done|by apply quiet_done| |done]. intros peer w5 Hi5 _.
  eapply (safe_bind Inv grows grows); [done|by apply safe_process_peer_cc| |done].
  intros [mutual new_cc] w6 Hi6 Ha. constructor. intros w7 _ _. rewrite dom_extend. cbn in Ha.
  intros id Hid. apply elem_of_union in Hid as [?|Hid]; [set_solver|].
  apply elem_of_list_to_set in Hid. apply elem_of_union. destruct (Ha id Hid); [by left|right].
  by apply elem_of_list_to_set.
Qed.


End Tasks.

End ConnectionSafety.
