(* ===== verification/MessageTape.v ===== *)
(** A concrete protobuf stand-in for the messages of a connection, built from
    [Tape]: the codecs of all messages can be exact at once, and connections
    can run in the examples. *)

From Stdlib Require Import ZArith Lia.
From stdpp Require Import base gmap list strings.
From S2P Require Import Prelude BepTypes Codec Framing Messages.

Local Open Scope Z_scope.

Module MessageTape.
Import Tape bep.

Program Definition t_counter : tape Counter :=
  tmap (tpair tZ tZ) (fun c => (id c, value c)) (fun p => mkCounter (fst p) (snd p)) _.
Next Obligation. by intros []. Qed.

Program Definition t_vector : tape Vector :=
  tmap (tlist t_counter) counters mkVector _.
Next Obligation. by intros []. Qed.

Program Definition t_block : tape BlockInfo :=
  tmap (tpair tbytes (tpair tZ tZ)) (fun b => (hash b, (offset b, bsize b)))
    (fun p => mkBlockInfo (fst p) (fst (snd p)) (snd (snd p))) _.
Next Obligation. by intros []. Qed.

Program Definition t_unix : tape UnixData :=
  tmap (tpair (tpair tbytes tbytes) (tpair tZ tZ))
    (fun u => ((unix_owner_name u, group_name u), (uid u, gid u)))
    (fun p => mkUnixData (fst (fst p)) (snd (fst p)) (fst (snd p)) (snd (snd p))) _.
Next Obligation. by intros []. Qed.

Program Definition t_windows : tape WindowsData :=
  tmap (tpair tbytes tbool) (fun w => (win_owner_name w, owner_is_group w))
    (fun p => mkWindowsData (fst p) (snd p)) _.
Next Obligation. by intros []. Qed.

Program Definition t_xattrs : tape XattrData :=
  tmap (tlist (tmap (tpair tbytes tbytes) (fun x => (xname x, xvalue x))
                 (fun p => mkXattr (fst p) (snd p)) _)) xattrs mkXattrData _.
Next Obligation. by intros []. Qed.
Next Obligation. by intros []. Qed.

Program Definition t_platform : tape PlatformData :=
  tmap (tpair (tpair (toption t_unix) (toption t_windows))
              (tpair (tpair (toption t_xattrs) (toption t_xattrs))
                     (tpair (toption t_xattrs) (toption t_xattrs))))
    (fun d => ((unix d, windows d), ((linux d, darwin d), (freebsd d, netbsd d))))
    (fun p => mkPlatformData (fst (fst p)) (snd (fst p)) (fst (fst (snd p))) (snd (fst (snd p)))
                (fst (snd (snd p))) (snd (snd (snd p)))) _.
Next Obligation. by intros []. Qed.

(** The fields of a file in three groups. *)
Program Definition t_file_info : tape FileInfo :=
  tmap (tpair
         (tpair (tpair tbytes (tpair tZ (tpair tZ tZ)))
                (tpair (toption t_vector) (tpair tZ (tpair (tlist t_block) tbytes))))
         (tpair
           (tpair (tpair tbytes (tpair tbytes (tpair tbytes tZ)))
                  (tpair tZ (tpair tZ (tpair tZ (toption t_platform)))))
           (tpair (tpair tZ (tpair tbytes (tpair tZ tZ)))
                  (tpair tbool (tpair tbool tbool)))))
    (fun f =>
      (((name f, (size f, (modified_s f, modified_by f))),
        (version f, (sequence f, (blocks f, symlink_target f)))),
       (((blocks_hash f, (previous_blocks_hash f, (encrypted f, type_ f))),
         (permissions f, (modified_ns f, (block_size f, platform f)))),
        ((local_flags f, (version_hash f, (inode_change_ns f, encryption_trailer_size f))),
         (deleted f, (invalid f, no_permissions f))))))
    (fun '(((a, (b, (c, d))), (e, (g, (h, i)))),
           (((j, (k, (l, m))), (n, (o, (p, q)))), ((r, (s, (t, u))), (v, (w, x))))) =>
      mkFileInfo a b c d e g h i j k l m n o p q r s t u v w x) _.
Next Obligation. by intros []. Qed.

Program Definition t_device : tape Device :=
  tmap (tpair (tpair tbytes (tpair tbytes (tpair (tlist tbytes) (tpair tZ tbytes))))
              (tpair tZ (tpair tbool (tpair tZ (tpair tbool tbytes)))))
    (fun d => ((dev_id d, (dev_name d, (addresses d, (dev_compression d, cert_name d)))),
               (dev_max_sequence d, (introducer d, (dev_index_id d,
                 (skip_introduction_removals d, encryption_password_token d))))))
    (fun '((a, (b, (c, (d, e)))), (f, (g, (h, (i, j))))) => mkDevice a b c d e f g h i j) _.
Next Obligation. by intros []. Qed.

Program Definition t_folder : tape CcFolder :=
  tmap (tpair tbytes (tpair tbytes (tpair tZ (tpair tZ (tlist t_device)))))
    (fun f => (cf_id f, (cf_label f, (cf_type f, (stop_reason f, devices f)))))
    (fun '(a, (b, (c, (d, e)))) => mkCcFolder a b c d e) _.
Next Obligation. by intros []. Qed.

Program Definition t_cluster_config : tape ClusterConfig :=
  tmap (tpair (tlist t_folder) tbool) (fun c => (folders c, secondary c))
    (fun p => mkClusterConfig (fst p) (snd p)) _.
Next Obligation. by intros []. Qed.

Program Definition t_index : tape Index :=
  tmap (tpair tbytes (tpair (tlist t_file_info) tZ)) (fun m => (ix_folder m, (ix_files m, ix_last_sequence m)))
    (fun p => mkIndexMsg (fst p) (fst (snd p)) (snd (snd p))) _.
Next Obligation. by intros []. Qed.

Program Definition t_index_update : tape IndexUpdate :=
  tmap (tpair (tpair tbytes (tlist t_file_info)) (tpair tZ tZ))
    (fun m => ((iu_folder m, iu_files m), (iu_last_sequence m, prev_sequence m)))
    (fun p => mkIndexUpdate (fst (fst p)) (snd (fst p)) (fst (snd p)) (snd (snd p))) _.
Next Obligation. by intros []. Qed.

Program Definition t_request : tape Request :=
  tmap (tpair (tpair tZ (tpair tbytes (tpair tbytes tZ))) (tpair tZ (tpair tbytes (tpair tbool tZ))))
    (fun r => ((req_id r, (req_folder r, (req_name r, req_offset r))),
               (req_size r, (req_hash r, (from_temporary r, req_block_no r)))))
    (fun '((a, (b, (c, d))), (e, (f, (g, h)))) => mkRequest a b c d e f g h) _.
Next Obligation. by intros []. Qed.

Program Definition t_response : tape Response :=
  tmap (tpair tZ (tpair tbytes tZ)) (fun r => (resp_id r, (resp_data r, resp_code r)))
    (fun p => mkResponse (fst p) (fst (snd p)) (snd (snd p))) _.
Next Obligation. by intros []. Qed.

Program Definition t_progress : tape DownloadProgress :=
  tmap (tpair tbytes (tlist (tmap
         (tpair (tpair tZ tbytes) (tpair (toption t_vector) (tpair (tlist tZ) tZ)))
         (fun u => ((update_type u, pu_name u), (pu_version u, (block_indexes u, pu_block_size u))))
         (fun '((a, b), (c, (d, e))) => mkProgressUpdate a b c d e) _)))
    (fun m => (dp_folder m, updates m)) (fun p => mkDownloadProgress (fst p) (snd p)) _.
Next Obligation. by intros []. Qed.
Next Obligation. by intros []. Qed.

Program Definition t_ping : tape Ping := tmap (tlist tZ) (fun _ => []) (fun _ => mkPing) _.
Next Obligation. by intros []. Qed.

Program Definition t_close : tape Close := tmap tbytes reason mkClose _.
Next Obligation. by intros []. Qed.

Definition codecs : MessageCodecs :=
  Build_MessageCodecs (codec t_cluster_config) (codec t_index) (codec t_index_update) (codec t_request)
    (codec t_response) (codec t_progress) (codec t_ping) (codec t_close).

End MessageTape.
