(* ===== verification/ConnectionFolder.v ===== *)
(** The connection over the folder store. [SlateFolder] implements the trait
    [StorageFolder] ([bepository-storage/src/api.rs]); with it the connection
    of [Connection] and the store of [Store] run together, step by step, in the
    schedules below. They show three things that go wrong between the tasks of
    a connection and the store:

    - a response that arrives while the index task is still requesting the
      blocks of its file ends the connection with an internal error;
    - so does a shutdown at that moment, and the local shutdown is reported as
      that error;
    - when the peer wins a conflict and the connection ends before its blocks
      are here, the blocks are never asked for again. *)

From Stdlib Require Import ZArith Lia.
From stdpp Require Import base gmap list strings relations.
From S2P Require Import Prelude BepTypes Base32 StoreKeys Codec Conflict Validate Framing Retry.
From S2P Require Import ProtoConv Kv GcState Store StoreTape StoreWp StoreIndex Folder.
From S2P Require Import Task Messages Connection ConnectionSafety MessageTape.

Local Open Scope Z_scope.
Local Open Scope bep_scope.

Module ConnectionFolder.
Import Kv Task Connection ConnectionSafety.

(** ** The storage *)

Section Slate.
Context {Db : Type} `{!Kv.SlateDb Db} {SC : Store.StoreCodecs}.
Context {HF SF : Type} `{!GcState.Bloom bytes HF} `{!GcState.Bloom Z SF}.
Abbreviation FS := (Store.FolderStore Db HF SF).

Definition slate_index (since : Z) : SE FS StorageError.t (list (result StorageError.t bep.FileInfo)) :=
  do! files <- Folder.index since; se_ret (map Ok files).

Definition slate_remote_state (device : bytes) : SE FS StorageError.t RemoteIndexState :=
  do! p <- Folder.remote_state device;
  se_ret (mkRemoteState (storage.index_id p) (storage.remote_max_sequence p)).

Definition slate_set_remote_state (device : bytes) (st : RemoteIndexState) : SE FS StorageError.t unit :=
  Folder.set_remote_state device (storage.mkRemoteIndexState (rs_index_id st) (rs_max_sequence st)).

(** [impl StorageFolder for SlateFolder]. *)
#[global] Instance slate_folder : StorageFolder FS Folder.SlateFolder := {
  sf_id := Folder.id;
  sf_label := Folder.label;
  sf_index _ := slate_index;
  sf_read_block _ := Folder.folder_read_block;
  sf_apply_update := Folder.apply_update;
  sf_local_sequence _ := Folder.local_sequence;
  sf_remote_state _ := slate_remote_state;
  sf_set_remote_state _ := slate_set_remote_state;
  sf_resolve_conflict _ := Folder.folder_resolve_conflict;
  sf_store_block := Folder.folder_store_block;
  sf_complete_file := Folder.folder_complete_file;
  sf_reuse_block := Folder.folder_reuse_block
}.

(** A storage with a single registered folder. *)
Definition one_folder (f : Folder.SlateFolder) : Storage FS Folder.SlateFolder := {|
  storage_folder := slate_folder;
  st_folder id := if bool_decide (id = Folder.id f) then se_ret f
                  else se_err (StorageError.NotFound "folder not found in registry");
  st_list_folders := se_ret [(Folder.id f, Folder.label f, lit "folder_00000001")];
  st_ensure_folders l := se_ret (map (fun _ => false) l)
|}.

End Slate.

(** ** Schedules *)

Section Schedules.
Context {Sto F : Type} `{!Storage Sto F} {MC : MessageCodecs} `{!Codec Framing.Header}.
Abbreviation C := (Conn (Sto := Sto) (F := F)).

Inductive Move :=
| RunMessage (n : nat)
| RunIndex (n : nat)
| RunWriter (n : nat)
| Arrives (ev : Event)
| Cancels.

(** An event waits until the last one was taken. *)
Definition move (mv : Move) (c : C) : C :=
  match mv with
  | RunMessage n => let (w, m) := steps n (message_task c) (world c) in
                    mkConn w m (index_task c) (writer_task c)
  | RunIndex n => let (w, i) := steps n (index_task c) (world c) in
                  mkConn w (message_task c) i (writer_task c)
  | RunWriter n => let (w, wr) := steps n (writer_task c) (world c) in
                   mkConn w (message_task c) (index_task c) wr
  | Arrives ev =>
      match event (world c), ev, shutdown (world c) with
      | Some _, _, _ => c
      | None, EvShutdown, false => c
      | None, _, _ => mkConn (set_event (world c) (Some ev)) (message_task c) (index_task c) (writer_task c)
      end
  | Cancels => mkConn (set_shutdown (world c) true) (message_task c) (index_task c) (writer_task c)
  end.

Definition play (l : list Move) (c : C) : C := foldl (fun c mv => move mv c) c l.

Lemma move_steps mv (c : C) : rtc conn_step c (move mv c).
Proof.
  destruct c as [w m i wr], mv as [n|n|n|ev|]; cbn [move world message_task index_task writer_task].
  - revert w m. induction n as [|n IH]; intros w m; cbn [steps]; [apply rtc_refl|].
    eapply rtc_l; [apply cs_message|]. destruct (step m w) as [w' m']. apply IH.
  - revert w i. induction n as [|n IH]; intros w i; cbn [steps]; [apply rtc_refl|].
    eapply rtc_l; [apply cs_index|]. destruct (step i w) as [w' i']. apply IH.
  - revert w wr. induction n as [|n IH]; intros w wr; cbn [steps]; [apply rtc_refl|].
    eapply rtc_l; [apply cs_writer|]. destruct (step wr w) as [w' wr']. apply IH.
  - destruct (event w) eqn:Ev; [apply rtc_refl|].
    destruct ev, (shutdown w) eqn:Es; try apply rtc_refl; by apply rtc_once, cs_event.
  - apply rtc_once, cs_cancel.
Qed.

Lemma play_steps l (c : C) : rtc conn_step c (play l c).
Proof.
  revert c. induction l as [|mv l IH]; intros c; [apply rtc_refl|].
  etrans; [apply move_steps|apply IH].
Qed.

End Schedules.

(** ** A folder with a peer *)

#[local] Existing Instance StoreTape.codecs.
#[local] Existing Instance StoreTape.laws.
#[local] Existing Instance MessageTape.codecs.
#[local] Instance header_codec : Codec Framing.Header := Tape.codec Framing.header_tape.

Definition photos : Folder.SlateFolder := Folder.mkFolder (lit "photos") (lit "Photos") (Some StoreIndex.epoch5).
#[local] Instance photos_storage : Storage (Store.FolderStore Kv.MapDb StoreTape.HFilter StoreTape.SFilter)
  Folder.SlateFolder := one_folder photos.
Abbreviation PConn := (Conn (Sto := Store.FolderStore Kv.MapDb StoreTape.HFilter StoreTape.SFilter)
  (F := Folder.SlateFolder)).

(** The context of the daemon: it lets the peer win conflicts. *)
Definition peer_id : bytes := repeat 2 32.
Definition ctx : ConnectionContext :=
  mkContext peer_id (repeat 1 32) Conflict.theirs_resolve (Retry.exponential Retry.default_backoff).

(** A connection on the store [s] on which the folder is mutual. *)
Definition connected (s : Store.FolderStore Kv.MapDb StoreTape.HFilter StoreTape.SFilter) : PConn :=
  start (fun b => b) ctx default_options {[ lit "photos" := 7 ]} {[ lit "photos" ]}
    (fresh s (Framing.mkWriter [] None)).

Definition arrives {M : Type} `{!Codec M} (t : MessageType) (m : M) : Move :=
  Arrives (EvMessage (Ok (Framing.mkRaw
    (Framing.mkHeader (type_code t) Framing.COMPRESSION_NONE) (encode m)))).

(** A file of two small blocks, as the peer announces it. *)
Definition hash1 : bytes := repeat 1 32.
Definition hash2 : bytes := repeat 2 32.
Definition picture (v : bep.Vector) (hs : list bytes) : bep.FileInfo :=
  bep.mkFileInfo (lit "p.jpg") (3 * Z.of_nat (length hs)) 0 0 (Some v) 0
    (imap (fun i h => bep.mkBlockInfo h (3 * Z.of_nat i) 3) hs) [] [] [] [] 0 0 0 0 None 0 [] 0 0
    false false false.
Definition by_peer : bep.Vector := bep.mkVector [bep.mkCounter 2 1].
Definition announcement (f : bep.FileInfo) : Index := mkIndexMsg (lit "photos") [f] 1.

Definition pic : bep.FileInfo := picture by_peer [hash1; hash2].

(** The index loop takes [n] steps of the announcement of [f]. *)
Definition announced (f : bep.FileInfo) (n : nat) : list Move :=
  [arrives TIndex (announcement f); RunMessage 20; RunIndex n].

(** The peer answers request [id] with three bytes [b]. *)
Definition answered (id b : Z) : list Move :=
  [arrives TResponse (mkResponse id (repeat b 3) NO_ERROR); RunMessage 60].

Definition queued (c : PConn) : list OutgoingMessage := map snd (items (writer (world c))).
Definition outgoing {M : Type} `{!Codec M} (t : MessageType) (m : M) : OutgoingMessage := mkOutgoing t (encode m).
Definition committed (c : PConn) : result StorageError.t (option bep.FileInfo) :=
  snd (Store.get_file (lit "p.jpg") (storage (world c))).
Definition request1 : Request := mkRequest 0 (lit "photos") (lit "p.jpg") 0 3 hash1 false 0.
Definition request2 : Request := mkRequest 1 (lit "photos") (lit "p.jpg") 3 3 hash2 false 1.
Definition incomplete_error : BepError.t :=
  BepError.Internal "staged file has blocks with neither inline data nor blockseq".

(** A fast peer ends the connection. The peer announces a file of two
    blocks and answers the request for the first one, correctly, before the
    index task has registered the request for the second. The message task
    finds no block of the file pending or deferred, asks the store to complete
    the file, and the error of the store (a block is missing) ends the
    connection. When the same answers come after both requests, the file is
    committed and announced. *)
Theorem early_response_aborts :
  let early := play (announced pic 14 ++ answered 0 1) (connected StoreTape.empty_store) in
  let late := play (announced pic 60 ++ answered 0 1 ++ answered 1 2) (connected StoreTape.empty_store) in
  rtc conn_step (connected StoreTape.empty_store) early /\
  queued early = [outgoing TRequest request1] /\
  finished (message_task early) = Some (Err incomplete_error) /\
  committed early = Ok None /\
  rtc conn_step (connected StoreTape.empty_store) late /\
  queued late = [outgoing TRequest request1; outgoing TRequest request2;
                 outgoing TIndexUpdate (mkIndexUpdate (lit "photos") [bep_set_sequence pic 1] 1 0)] /\
  finished (message_task late) = None /\
  committed late = Ok (Some (bep_set_sequence pic 1)).
Proof.
  cbv zeta. split_and!; try apply play_steps; vm_compute; reflexivity.
Qed.

(** A shutdown in the middle of an announcement. The index task stops
    requesting blocks and goes on with the rest of the batch. When no block of
    the file was requested, it asks the store to complete the file, and the
    local shutdown is reported as an internal error. When one was, it advances
    the state of the peer to the end of the batch, although the other block
    was never requested. *)
Theorem shutdown_while_requesting :
  let stop := [Cancels; Arrives EvShutdown; RunMessage 20; RunIndex 60] in
  let first := play (announced pic 5 ++ stop) (connected StoreTape.empty_store) in
  let second := play (announced pic 14 ++ stop) (connected StoreTape.empty_store) in
  finished (message_task first) = Some (Ok Local) /\
  finished (index_task first) = Some (Err incomplete_error) /\
  supervise [Finished (Ok (Some Local)); Finished (Err incomplete_error); Finished (Ok None)] =
    Err incomplete_error /\
  finished (message_task second) = Some (Ok Local) /\
  finished (index_task second) = Some (Ok tt) /\
  queued second = [outgoing TRequest request1; outgoing TClose (mkClose (lit "shutdown requested"))] /\
  snd (slate_remote_state peer_id (storage (world second))) = Ok (mkRemoteState 7 1) /\
  committed second = Ok None.
Proof. cbv zeta. split_and!; vm_compute; reflexivity. Qed.

(** Our version of the file, with its block, and a concurrent version of the
    peer with another block. *)
Definition mine : bep.FileInfo := picture (bep.mkVector [bep.mkCounter 1 1]) [hash1].
Definition theirs : bep.FileInfo := picture by_peer [hash2].
Definition with_mine : Store.FolderStore Kv.MapDb StoreTape.HFilter StoreTape.SFilter :=
  fst (Store.store_block None (lit "p.jpg") hash1 (repeat 1 3)
    (fst (Store.put_file mine StoreTape.empty_store))).

(** The winner of a conflict can be lost. The peer announces a version
    concurrent with ours and wins: it is committed at once, over ours, and its
    block is requested. If the connection ends before the answer, the next
    connection, on which the peer announces the same version again, requests
    nothing: the version is already in the index. The file stays in the index,
    with neither its new nor its old data readable. *)
Theorem conflict_winner_lost :
  let first := play (announced theirs 60) (connected with_mine) in
  let second := play (announced theirs 60) (connected (storage (world first))) in
  snd (Store.read_block (lit "p.jpg") hash1 with_mine) = Ok (repeat 1 3) /\
  queued first = [outgoing TRequest (mkRequest 0 (lit "photos") (lit "p.jpg") 0 3 hash2 false 0)] /\
  committed first = Ok (Some (bep_set_sequence theirs 2)) /\
  rtc conn_step (connected (storage (world first))) second /\
  queued second = [] /\ pending_requests (inner (world second)) = ∅ /\
  finished (index_task second) = None /\ items (index_queue (world second)) = [] /\
  committed second = Ok (Some (bep_set_sequence theirs 2)) /\
  snd (Store.read_block (lit "p.jpg") hash2 (storage (world second))) = Err (StorageError.NotFound "block not found") /\
  snd (Store.read_block (lit "p.jpg") hash1 (storage (world second))) = Err (StorageError.NotFound "block not found").
Proof. cbv zeta. split_and!; try apply play_steps; vm_compute; reflexivity. Qed.

(** *** A handshake *)

Lemma interleaved_steps {Sto F : Type} `{!Storage Sto F} {A : Type} (t : Task (World Sto F) BepError.t A) n w Q r w2 :
  safe Inv grows grows t w Q -> Inv w ->
  interleaved Inv grows (snd (steps n t w)) (fst (steps n t w)) r w2 -> interleaved Inv grows t w r w2.
Proof.
  revert t w. induction n as [|n IH]; intros t w Hs Hi; cbn [steps]; [done|].
  destruct (safe_step Inv grows grows t w w Q Hs (reflexivity w) Hi) as (Hi' & _ & Hs').
  intros H. apply (il_step Inv grows t w w); [reflexivity|done|].
  destruct (step t w) as [w' t']. by apply IH.
Qed.

Lemma steps_Inv {Sto F : Type} `{!Storage Sto F} {A : Type} (t : Task (World Sto F) BepError.t A) n w Q :
  safe Inv grows grows t w Q -> Inv w ->
  Inv (fst (steps n t w)) /\ safe Inv grows grows (snd (steps n t w)) (fst (steps n t w)) Q.
Proof.
  revert t w. induction n as [|n IH]; intros t w Hs Hi; cbn [steps]; [done|].
  destruct (safe_step Inv grows grows t w w Q Hs (reflexivity w) Hi) as (Hi' & _ & Hs').
  destruct (step t w) as [w' t']. by apply IH.
Qed.

Abbreviation PWorld := (World (Store.FolderStore Kv.MapDb StoreTape.HFilter StoreTape.SFilter) Folder.SlateFolder).

Definition peer_cc : ClusterConfig :=
  mkClusterConfig [mkCcFolder (lit "photos") (lit "Photos") 0 0
    [mkDevice peer_id [] [] 0 [] 0 false 7 false []]] false.

(** Our configuration is sent; the configuration of the peer arrives. *)
Definition sent_cc := steps 40 (exchange_initial_cluster_config ctx [])
  (fresh StoreTape.empty_store (Framing.mkWriter [] None)).
Definition got_cc : PWorld :=
  set_event (fst sent_cc) (Some (EvMessage (Ok (Framing.mkRaw
    (Framing.mkHeader (type_code TClusterConfig) Framing.COMPRESSION_NONE) (encode peer_cc))))).
Definition shook := steps 60 (snd sent_cc) got_cc.

Lemma handshake :
  interleaved Inv grows (exchange_initial_cluster_config ctx [])
    (fresh StoreTape.empty_store (Framing.mkWriter [] None))
    (Ok ({[ lit "photos" := 7 ]}, {[ lit "photos" ]})) (fst shook).
Proof.
  pose proof (fresh_Inv (F := Folder.SlateFolder) StoreTape.empty_store (Framing.mkWriter [] None)) as H0.
  pose proof (safe_exchange ctx [] _ H0) as Hs.
  destruct (steps_Inv _ 40 _ _ Hs H0) as [H1 Hs1]. fold sent_cc in H1, Hs1.
  assert (Inv got_cc /\ grows (fst sent_cc) got_cc) as [H2 Hg].
  { apply (Inv_upd (fst sent_cc)); [done|done|apply H1..]. }
  assert (snd shook = Done (Ok ({[ lit "photos" := 7 ]}, {[ lit "photos" ]}))) as E
    by (vm_compute; reflexivity).
  apply (interleaved_steps _ 40 _ _ _ _ Hs H0). fold sent_cc.
  destruct (safe_step Inv grows grows _ _ _ _ Hs1 Hg H2) as (H3 & _ & Hs3).
  apply (il_step Inv grows _ _ got_cc); [done|done|].
  apply (interleaved_steps _ 59 _ _ _ _ Hs3 H3).
  rewrite <- (steps_S 59 (snd sent_cc) got_cc). fold shook. rewrite E. apply il_done; [reflexivity|].
  apply (safe_rely Inv grows grows _ _ _ _ Hs1) in Hg. exact (proj1 (steps_Inv _ 60 _ _ Hg H2)).
Qed.


End ConnectionFolder.
