(* ===== verification/ConnectionIndex.v ===== *)
(** What a connection does with an announcement: the state of the peer is
    written last ([apply_remote_index]), deferred blocks are requested in order
    as room appears ([drain_deferred]), and the supervisor reports the worst
    error of its tasks. *)

From Stdlib Require Import ZArith Lia.
From stdpp Require Import base gmap list strings relations.
From S2P Require Import Prelude BepTypes Codec Conflict Validate Framing Retry Task Messages Connection.
From S2P Require Import Base32 Kv GcState Store StoreTape StoreIndex Folder ConnectionSafety MessageTape ConnectionFolder.

Local Open Scope Z_scope.
Local Open Scope bep_scope.

Module ConnectionIndex.
Import Task Connection ConnectionSafety.

(** ** The supervisor *)

Definition prefer (best : option BepError.t) (e : BepError.t) : option BepError.t :=
  match best with
  | Some b => if priority b <=? priority e then Some e else Some b
  | None => Some e
  end.

Lemma prefer_spec errors : forall best e,
  foldl prefer best errors = Some e ->
  (best = Some e \/ e ∈ errors) /\
  (forall b, best = Some b -> priority b <= priority e) /\
  Forall (fun e' => priority e' <= priority e) errors.
Proof.
  induction errors as [|x l IH]; intros best e; cbn [foldl].
  - intros ->. split; [by left|]. split; [by intros b [= ->]|constructor].
  - intros H. destruct (IH _ _ H) as (Hin & Hb & Hl). unfold prefer in Hin, Hb.
    destruct best as [b|].
    + destruct (Z.leb_spec (priority b) (priority x)) as [Hle|Hlt].
      * specialize (Hb x eq_refl). split; [right; destruct Hin as [[= ->]|]; set_solver|].
        split; [intros b' [= <-]; lia|by constructor].
      * specialize (Hb b eq_refl). split; [destruct Hin as [[= ->]|]; set_solver|].
        split; [intros b' [= <-]; lia|]. constructor; [lia|done].
    + specialize (Hb x eq_refl). split; [right; destruct Hin as [[= ->]|]; set_solver|].
      split; [done|by constructor].
Qed.

Lemma prefer_None errors : forall best, foldl prefer best errors = None -> best = None /\ errors = [].
Proof.
  induction errors as [|x l IH]; intros best; cbn [foldl]; [done|]. intros H.
  destruct (IH _ H) as [H' _]. unfold prefer in H'. destruct best as [b|]; [|done]. by destruct (_ <=? _).
Qed.

(** The result of a connection. It is an error exactly when one of its tasks
    failed or panicked; then it is the error of one of them and none has a
    higher priority. Otherwise it is the first close reason that a task gave,
    or a local shutdown when none did. *)
Theorem supervise_worst (outcomes : list Outcome) :
  match supervise outcomes with
  | Err e => e ∈ omap outcome_error outcomes /\
             Forall (fun e' => priority e' <= priority e) (omap outcome_error outcomes)
  | Ok reason => omap outcome_error outcomes = [] /\
                 reason = default Local (head (omap outcome_reason outcomes))
  end.
Proof.
  unfold supervise, max_error. change (fun best e => _) with prefer.
  destruct (foldl prefer None (omap outcome_error outcomes)) as [e|] eqn:E.
  - destruct (prefer_spec _ _ _ E) as ([?|?] & _ & ?); done.
  - by destruct (prefer_None _ _ E).
Qed.

(** ** The state of the peer is written last *)

(** What is recorded of the calls of a storage: successful updates, and every
    attempt to set the state of a peer. *)
Inductive Call :=
| Updated (f : bep.FileInfo)
| SetState (device : bytes) (st : RemoteIndexState).

Section Audit.
Context {Sto F : Type} `{!Storage Sto F}.

Definition plain {A : Type} (op : SE Sto StorageError.t A) : SE (Sto * list Call) StorageError.t A :=
  fun s => match op (fst s) with (s', r) => ((s', snd s), r) end.

(** The same storage with a record of the calls. *)
#[local] Instance audited_folder : StorageFolder (Sto * list Call) F := {
  sf_id := sf_id (Sto := Sto);
  sf_label := sf_label (Sto := Sto);
  sf_index f since := plain (sf_index f since);
  sf_read_block f n o s h := plain (sf_read_block f n o s h);
  sf_apply_update f file dev := fun s =>
    match sf_apply_update f file dev (fst s) with
    | (s', Ok r) => ((s', snd s ++ [Updated file]), Ok r)
    | (s', Err e) => ((s', snd s), Err e)
    end;
  sf_local_sequence f := plain (sf_local_sequence f);
  sf_remote_state f dev := plain (sf_remote_state f dev);
  sf_set_remote_state f dev st := fun s =>
    match sf_set_remote_state f dev st (fst s) with
    | (s', r) => ((s', snd s ++ [SetState dev st]), r)
    end;
  sf_resolve_conflict f w l p := plain (sf_resolve_conflict f w l p);
  sf_store_block f n o h d := plain (sf_store_block f n o h d);
  sf_complete_file f n v := plain (sf_complete_file f n v);
  sf_reuse_block f n o h s := plain (sf_reuse_block f n o h s)
}.

#[local] Instance audited : Storage (Sto * list Call) F := {
  storage_folder := audited_folder;
  st_folder id := plain (st_folder id);
  st_list_folders := plain st_list_folders;
  st_ensure_folders l := plain (st_ensure_folders l)
}.

Context {MC : MessageCodecs}.
Abbreviation AW := (World (Sto * list Call) F).
Abbreviation AT := (Task (World (Sto * list Call) F) BepError.t).

Definition log (w : AW) : list Call := snd (storage w).

(** The others leave the record alone: neither the message task nor the writer
    calls one of the two operations ([silent_message_loop]). *)
Definition same_log (w w' : AW) : Prop := log w' = log w.
#[local] Instance same_log_preorder : PreOrder same_log.
Proof. unfold same_log. split; [by intros w|]. intros w1 w2 w3. congruence. Qed.

Abbreviation always := (fun _ : AW => True).
Abbreviation runs := (safe (fun _ : AW => True) same_log (fun _ _ : AW => True)).
#[local] Instance any_refl : Reflexive (fun _ _ : AW => True).
Proof. by intros w. Qed.

Definition silent {A : Type} (t : AT A) : Prop :=
  forall w, runs t w (fun _ w' => log w' = log w).

Lemma silent_done {A : Type} (r : result BepError.t A) : silent (Done r).
Proof. intros w. constructor. intros w1 Hw _. exact Hw. Qed.

Lemma silent_bind {A B : Type} (t : AT A) (k : A -> AT B) :
  silent t -> (forall a, silent (k a)) -> silent (bind t k).
Proof.
  intros Ht Hk w. eapply (safe_bind always same_log (fun _ _ => True)); [done|apply Ht| |done]. intros a w1 _ E.
  eapply safe_mono; [apply Hk|]. intros r w2 _ E2. congruence.
Qed.

Lemma silent_atom {A : Type} (f : AW -> AW * result BepError.t A) :
  (forall w, log (fst (f w)) = log w) -> silent (atom f).
Proof.
  intros H w. apply (safe_atom_at always same_log (fun _ _ => True)). intros w1 E1 _. split; [done|]. split; [done|].
  intros w2 E2 _. unfold same_log in *. rewrite E2, H. done.
Qed.

Lemma silent_iter {A X B : Type} (body : X -> AT (X + B)) x (k : B -> AT A) :
  (forall y, silent (body y)) -> (forall b, silent (k b)) -> silent (Iter body x k).
Proof.
  intros Hb Hk w. apply (safe_iter always same_log (fun _ _ => True) _ _ _ _ _ _ _ (fun _ w1 => log w1 = log w) (fun _ w1 => log w1 = log w)).
  - intros w1 E _. exact E.
  - unfold same_log. intros y w1 w2 E E2 _. congruence.
  - intros y w1 _ E. eapply safe_mono; [apply Hb|]. intros [[]|] w2 _ E2; congruence.
  - intros b w1 _ E. eapply safe_mono; [apply Hk|]. intros r w2 _ E2. congruence.
Qed.

Lemma silent_attempt {A : Type} (t : AT A) : silent t -> silent (attempt t).
Proof. intros Ht w. eapply (safe_attempt always same_log (fun _ _ => True)); [done|apply Ht|done]. Qed.

Lemma silent_for_each {A : Type} (l : list A) (f : A -> AT unit) : (forall a, silent (f a)) -> silent (for_each l f).
Proof. intros Hf. induction l as [|a l IH]; cbn [for_each]; [apply silent_done|]. by apply silent_bind. Qed.

Lemma silent_collect {A B : Type} (l : list A) (f : A -> AT B) : (forall a, silent (f a)) -> silent (collect l f).
Proof.
  intros Hf. induction l as [|a l IH]; cbn [collect]; [apply silent_done|].
  apply silent_bind; [done|]. intros b. apply silent_bind; [done|]. intros bs. apply silent_done.
Qed.

Lemma silent_call {A : Type} (op : SE Sto StorageError.t A) : silent (call (plain op)).
Proof. apply silent_atom. intros w. unfold plain. by destruct (op (fst (storage w))). Qed.

Lemma silent_read {A : Type} (f : AW -> A) : silent (read f).
Proof. by apply silent_atom. Qed.

Lemma silent_locked {A : Type} (f : ConnectionInner F -> ConnectionInner F * A) : silent (locked f).
Proof. apply silent_atom. intros w. by destruct (f (inner w)). Qed.

Create HintDb silent discriminated.
#[local] Hint Resolve silent_done silent_call silent_read silent_locked : silent.

Ltac silent :=
  repeat first
    [ progress intros
    | solve [auto with silent nocore]
    | apply silent_attempt | apply silent_bind | apply silent_iter | apply silent_collect | apply silent_for_each
    | match goal with |- silent (match ?x with _ => _ end) => destruct x end ].

Lemma silent_retry {A : Type} ctx (op : SE Sto StorageError.t A) : silent (retry ctx (plain op)).
Proof. unfold retry, fail, ret. silent. Qed.

Lemma silent_try_send {M : Type} `{!Codec M} t (m : M) : silent (try_send t m).
Proof.
  apply silent_iter; [|intros; apply silent_done]. intros _. apply silent_atom. intros w.
  destruct (negb _); [done|]. by destruct (has_room _ _ _ _).
Qed.
#[local] Hint Resolve silent_try_send : silent.
#[local] Hint Extern 2 (silent (retry _ _)) => apply silent_retry : silent.
#[local] Hint Extern 2 (silent (call _)) => apply silent_call : silent.

Lemma silent_send {M : Type} `{!Codec M} t (m : M) : silent (send t m).
Proof. unfold send, lift. silent. Qed.
#[local] Hint Resolve silent_send : silent.

Lemma silent_complete_and_notify ctx folder name version : silent (complete_and_notify ctx folder name version).
Proof. unfold complete_and_notify, maybe_complete_file, ret. silent. Qed.

Lemma silent_submit block size block_no : silent (submit_or_defer_block block size block_no).
Proof.
  unfold submit_or_defer_block, ret. silent. apply silent_atom. intros w.
  by destruct (register block size block_no (inner w)).
Qed.
#[local] Hint Resolve silent_complete_and_notify silent_submit : silent.

Lemma silent_request_loop ctx folder file bs : forall i, silent (request_loop ctx folder file i bs).
Proof. induction bs as [|b bs IH]; intros i; cbn [request_loop]; unfold ret, fail; silent. Qed.
#[local] Hint Resolve silent_request_loop : silent.

(** *** The other tasks *)

Lemma silent_drain_deferred ctx : silent (drain_deferred ctx).
Proof. unfold drain_deferred, ret. silent. Qed.
#[local] Hint Resolve silent_drain_deferred : silent.

Lemma silent_dispatch ctx msg : silent (dispatch ctx msg).
Proof.
  unfold dispatch, parse, enqueue_index, index_send, budget_send, handle_request, handle_response,
    handle_cluster_config_update, process_peer_cc, build_cluster_config, send_index, lift, ret, fail.
  cbv zeta. silent.
  all: apply silent_atom; intros w; destruct (negb _); [done|]; by destruct (has_room _ _ _ _).
Qed.
#[local] Hint Resolve silent_dispatch : silent.

Lemma silent_message_loop ctx : silent (run_message_loop ctx).
Proof.
  unfold run_message_loop, then_drop, message_loop, next_event, on_event, lift, ret. silent.
  all: apply silent_atom; intros w; try done; by destruct (event w).
Qed.

(** *** The index task *)

(** A retried operation that is recorded each time, or when it succeeds. *)
Lemma runs_update ctx folder file l w :
  log w = l ->
  runs (retry ctx (sf_apply_update folder file (remote_device ctx))) w (fun r w' =>
    log w' = match r with Ok _ => l ++ [Updated file] | Err _ => l end).
Proof.
  intros El. unfold retry.
  apply (safe_iter always same_log (fun _ _ => True) _ _ _ _ _ _ _ (fun _ w1 => log w1 = l)
           (fun _ w1 => log w1 = l ++ [Updated file])).
  - intros w1 E _. rewrite E. exact El.
  - intros y w1 w2 E E2 _. rewrite E2. exact E.
  - intros attempt w1 _ E. eapply (safe_bind always same_log (fun _ _ => True) _ _ _
      (fun r w2 => match r with
       | Ok (Ok _) => log w2 = l ++ [Updated file] | Ok (Err _) => log w2 = l | Err _ => False end)); [done| | |done].
    { apply (safe_atom_at always same_log (fun _ _ => True)). intros w2 E2 _. cbn [sf_apply_update audited storage_folder audited_folder].
      unfold same_log in E2. rewrite E in E2.
      destruct (sf_apply_update folder file (remote_device ctx) (fst (storage w2))) as [s' [u|e]];
        (split; [done|]); (split; [done|]); intros w3 E3 _; cbn in E3 |- *; rewrite E3; cbn;
        change (snd (storage w2)) with (log w2); by rewrite E2. }
    intros [u|e] w2 _ E2; [by constructor; intros w3 E3 _; rewrite E3|].
    destruct (Retry.next_delay _ _ _) as [d|]; [|by constructor; intros w3 E3 _; rewrite E3].
    destruct (d =? 0); [by constructor; intros w3 E3 _; rewrite E3|].
    eapply (safe_bind always same_log (fun _ _ => True)); [done|apply silent_read| |].
    { intros [] w3 _ E3; constructor; intros w4 E4 _; rewrite E4; congruence. }
    intros e' w3 _ E3. congruence.
  - intros b w1 _ E. constructor. intros w2 E2 _. rewrite E2. exact E.
Qed.

Lemma runs_set_state ctx folder dev st l w :
  log w = l ->
  runs (retry ctx (sf_set_remote_state folder dev st)) w (fun r w' =>
    exists n, log w' = l ++ repeat (SetState dev st) (S n)).
Proof.
  intros El. unfold retry.
  apply (safe_iter always same_log (fun _ _ => True) _ _ _ _ _ _ _
           (fun _ w1 => exists n, log w1 = l ++ repeat (SetState dev st) n)
           (fun _ w1 => exists n, log w1 = l ++ repeat (SetState dev st) (S n))).
  - intros w1 E _. exists O. rewrite E, app_nil_r. exact El.
  - intros y w1 w2 [n E] E2 _. exists n. rewrite E2. exact E.
  - intros attempt w1 _ [n E]. eapply (safe_bind always same_log (fun _ _ => True) _ _ _
      (fun r w2 => match r with
       | Ok _ => log w2 = l ++ repeat (SetState dev st) (S n) | Err _ => False end)); [done| | |done].
    { apply (safe_atom_at always same_log (fun _ _ => True)). intros w2 E2 _.
      cbn [sf_set_remote_state audited storage_folder audited_folder].
      unfold same_log in E2. rewrite E in E2.
      destruct (sf_set_remote_state folder dev st (fst (storage w2))) as [s' r].
      split; [done|]. split; [done|]. intros w3 E3 _. cbn in E3 |- *. rewrite E3. cbn.
      change (snd (storage w2)) with (log w2). rewrite E2, <- app_assoc.
      by rewrite <- (repeat_cons n (SetState dev st)). }
    intros [u|e] w2 _ E2; [by constructor; intros w3 E3 _; exists n; rewrite E3|].
    destruct (Retry.next_delay _ _ _) as [d|]; [|by constructor; intros w3 E3 _; exists n; rewrite E3].
    destruct (d =? 0); [by constructor; intros w3 E3 _; exists (S n); rewrite E3|].
    eapply (safe_bind always same_log (fun _ _ => True)); [done|apply silent_read| |].
    { intros [] w3 _ E3; constructor; intros w4 E4 _; [exists n|exists (S n)]; by rewrite E4, E3, E2. }
    intros e' w3 _ E3. exists n. by rewrite E3, E2.
  - intros b w1 _ [n E]. constructor. intros w2 E2 _. exists n. rewrite E2. exact E.
Qed.

Lemma runs_then_silent {A B : Type} (t : AT A) (k : A -> AT B) w l l' :
  runs t w (fun r w' => log w' = match r with Ok _ => l' | Err _ => l end) ->
  (forall a, silent (k a)) ->
  runs (bind t k) w (fun r w' => log w' = l' \/ (log w' = l /\ is_ok r = false)).
Proof.
  intros Ht Hk. eapply (safe_bind always same_log (fun _ _ => True)); [done|exact Ht| |].
  - intros a w1 _ E. eapply safe_mono; [apply Hk|]. intros r w2 _ E2. left. rewrite E2. exact E.
  - intros e w1 _ E. by right.
Qed.

Lemma runs_apply_file ctx folder file l w :
  log w = l ->
  runs (apply_file ctx folder file) w (fun r w' =>
    log w' = l ++ [Updated file] \/ (log w' = l /\ is_ok r = false)).
Proof.
  intros El. unfold apply_file. eapply (safe_bind always same_log (fun _ _ => True)); [done|apply silent_done| |].
  2: { intros e w1 _ E. right. split; [congruence|done]. }
  intros u w1 _ E. eapply runs_then_silent; [apply runs_update; congruence|].
  intros res. unfold send_index_update, lift, ret. silent.
Qed.

Lemma runs_apply_files ctx folder files : forall l w,
  log w = l ->
  runs (collect files (apply_file ctx folder)) w (fun r w' =>
    exists k, log w' = l ++ map Updated (take k files) /\ (is_ok r = true -> (length files <= k)%nat)).
Proof.
  induction files as [|f files IH]; intros l w El; cbn [collect].
  - constructor. intros w1 E _. exists O. rewrite E, app_nil_r. split; [exact El|done].
  - eapply (safe_bind always same_log (fun _ _ => True)); [done|by apply runs_apply_file| |].
    2: { intros e w1 _ [E|[E _]]; [exists 1%nat|exists O; rewrite app_nil_r]; by split. }
    intros b w1 _ [E|[_ ?]]; [|done].
    eapply (safe_bind always same_log (fun _ _ => True)); [done|by apply (IH (l ++ [Updated f]))| |].
    2: { intros e w2 _ (k & E2 & _). exists (S k). rewrite E2, <- app_assoc. by split. }
    intros bs w2 _ (k & E2 & Hk). constructor. intros w3 E3 _. exists (S k). rewrite E3, E2, <- app_assoc.
    split; [done|]. intros _. specialize (Hk eq_refl). cbn. lia.
Qed.

(** The files applied so far, then the writes of the state. *)
Definition recorded (ctx : ConnectionContext) (files : list bep.FileInfo) (last : Z) (l : list Call)
  (r : result BepError.t unit) (w' : AW) : Prop :=
  exists k n index_id,
    log w' = l ++ map Updated (take k files) ++
             repeat (SetState (remote_device ctx) (mkRemoteState index_id last)) n /\
    (0 < n -> length files <= k)%nat /\
    (is_ok r = true -> 0 < n)%nat.

Lemma recorded_early ctx files last l e w' k :
  log w' = l ++ map Updated (take k files) -> recorded ctx files last l (Err e) w'.
Proof. intros E. exists k, O, 0. rewrite app_nil_r. split; [done|]. split; [lia|done]. Qed.

Lemma recorded_none ctx files last l e w' : log w' = l -> recorded ctx files last l (Err e) w'.
Proof. intros E. apply (recorded_early _ _ _ _ _ _ O). by rewrite app_nil_r. Qed.

Lemma runs_apply_remote_index ctx folder_id files last w :
  runs (apply_remote_index ctx folder_id files last) w (recorded ctx files last (log w)).
Proof.
  unfold apply_remote_index.
  eapply (safe_bind always same_log (fun _ _ => True)); [done|apply silent_locked| |intros; by apply recorded_none].
  intros peer w1 _ E1. eapply (safe_bind always same_log (fun _ _ => True)); [done|apply silent_done| |].
  2: { intros e w2 _ E2. apply recorded_none. congruence. }
  intros index_id w2 _ E2. eapply (safe_bind always same_log (fun _ _ => True)); [done|apply silent_retry| |].
  2: { intros e w3 _ E3. apply recorded_none. congruence. }
  intros folder w3 _ E3. unfold apply_files.
  eapply (safe_bind always same_log (fun _ _ => True) _ _ _ (fun r w4 =>
    exists k, log w4 = log w ++ map Updated (take k files) /\ (is_ok r = true -> (length files <= k)%nat))); [done| | |].
  { eapply (safe_bind always same_log (fun _ _ => True)); [done|apply (runs_apply_files ctx folder files (log w)); congruence| |].
    - intros bs w4 _ (k & E4 & Hk). constructor. intros w5 E5 _. exists k. rewrite E5. split; [done|auto].
    - intros e w4 _ (k & E4 & _). by exists k. }
  2: { intros e w4 _ (k & E4 & _). by apply (recorded_early _ _ _ _ _ _ k). }
  intros needed w4 _ (k & E4 & Hk).
  eapply (safe_bind always same_log (fun _ _ => True)); [done|apply silent_for_each; unfold request_blocks; silent| |].
  2: { intros e w5 _ E5. apply (recorded_early _ _ _ _ _ _ k). congruence. }
  intros [] w5 _ E5. eapply safe_mono; [by apply (runs_set_state _ _ _ _ (log w5))|]. intros r w6 _ [n E6].
  exists k, (S n), index_id. rewrite E6, E5, E4, <- app_assoc. split; [done|]. split; [auto|lia].
Qed.


End Audit.

(** ** Deferred blocks *)

Section Drain.
Context {Sto F : Type} `{!Storage Sto F} {MC : MessageCodecs}.
Abbreviation W := (World Sto F).

Lemma set_storage_same (w : W) : set_storage w (storage w) = w.
Proof. by destruct w. Qed.

Lemma ends_read {A : Type} (f : W -> A) w : ends (E := BepError.t) (read f) w (Ok (f w)) w.
Proof. apply (ends_atom_at (fun w => (w, Ok (f w)))). Qed.

Lemma ends_retry_ok {A : Type} ctx (op : SE Sto StorageError.t A) (w : W) s' a :
  op (storage w) = (s', Ok a) -> ends (retry ctx op) w (Ok a) (set_storage w s').
Proof.
  intros E. eapply ends_leave; [|apply ends_ret].
  eapply ends_bind; [apply ends_atom_at|]. cbv beta. rewrite E. cbn [fst snd]. apply ends_ret.
Qed.

Lemma ends_send {M : Type} `{!Codec M} t (m : M) (w : W) :
  is_open (writer w) = true ->
  has_room WRITER_COUNT WRITER_BUDGET_BYTES
    (permits WRITER_BUDGET_BYTES (Z.of_nat (length (encode m)) + WRITER_PER_MESSAGE_OVERHEAD)) (writer w) = true ->
  ends (send t m) w (Ok tt) (set_writer w (push
    (permits WRITER_BUDGET_BYTES (Z.of_nat (length (encode m)) + WRITER_PER_MESSAGE_OVERHEAD))
    (mkOutgoing t (encode m)) (writer w))).
Proof.
  intros Ho Hr. unfold send. eapply (ends_bind _ _ _ (Ok (Ok tt))); [|apply ends_done].
  unfold try_send, budget_send. cbv zeta. eapply ends_leave; [|apply ends_ret].
  match goal with |- ends (atom ?f) w _ _ => pose proof (ends_atom_at f w) as H end. cbv beta in H.
  rewrite Ho in H. cbn [negb] in H. rewrite Hr in H. exact H.
Qed.

(** Room in the writer for [k] messages of at most [B] bytes. *)
Definition fits (B : Z) (k : nat) (w : W) : Prop :=
  is_open (writer w) = true /\ in_use (writer w) + Z.of_nat k * B <= WRITER_BUDGET_BYTES /\
  Z.of_nat (length (items (writer w))) + Z.of_nat k <= WRITER_COUNT.

Definition deferred_request (id : Z) (d : DeferredRequest F) : Request :=
  request_for (Sto := Sto) id (df_block d) (df_size d) (df_block_no d).

(** The store does not have the block, and its request takes at most [B]
    bytes. *)
Definition missing (B : Z) (d : DeferredRequest F) : Prop :=
  (forall s : Sto, sf_reuse_block (fb_folder (df_block d)) (fb_name (df_block d)) (fb_offset (df_block d))
               (fb_hash (df_block d)) (df_size d) s = (s, Ok false)) /\
  forall id, Z.of_nat (length (encode (deferred_request id d))) + WRITER_PER_MESSAGE_OVERHEAD <= B.

Definition sent_request (id : Z) (d : DeferredRequest F) : OutgoingMessage :=
  mkOutgoing TRequest (encode (deferred_request id d)).

(** The body of the loop when there is a block to request and room for it. *)
Lemma drain_one ctx B d rest (w : W) :
  inner_ok (inner w) -> shutdown w = false -> deferred_blocks (inner w) = d :: rest ->
  Z.of_nat (size (pending_requests (inner w))) < max_pending_requests (inner w) ->
  1 <= B -> missing B d -> fits B (S (length rest)) w ->
  exists id w', pending_requests (inner w) !! id = None /\
    inner w' = with_pending (with_deferred (inner w) rest)
                 (<[id := df_block d]> (pending_requests (inner w))) (wrapping_succ id) /\
    inner_ok (inner w') /\ shutdown w' = false /\ fits B (length rest) w' /\
    map snd (items (writer w')) = map snd (items (writer w)) ++ [sent_request id d] /\
    forall r w2, ends (drain_deferred ctx) w' r w2 -> ends (drain_deferred ctx) w r w2.
Proof.
  intros Hi Hsd Hd Hlt HB [Hmiss Hsmall] (Hopen & Huse & Hcount).
  destruct (next_id_loop_found (pending_requests (inner w)) (next_id (inner w)) (io_next _ Hi)) as [[id next] En].
  { pose proof (io_max _ Hi). lia. }
  pose proof (next_id_loop_spec (pending_requests (inner w)) (S (size (pending_requests (inner w)))) (next_id (inner w))) as Hid.
  rewrite En in Hid. destruct Hid as (Hfree & -> & n & _ & Hn).
  set (c2 := with_pending (with_deferred (inner w) rest) (<[id := df_block d]> (pending_requests (inner w))) (wrapping_succ id)).
  set (need := permits WRITER_BUDGET_BYTES (Z.of_nat (length (encode (deferred_request id d))) + WRITER_PER_MESSAGE_OVERHEAD)).
  assert (1 <= need <= B) as Hneed.
  { split; [apply permits_range; unfold WRITER_BUDGET_BYTES; lia|]. specialize (Hsmall id). unfold need, permits. lia. }
  set (w' := set_writer (set_inner w c2) (push need (sent_request id d) (writer w))).
  exists id, w'. split; [done|]. split; [done|]. split; [|split; [done|split; [|split]]].
  - destruct Hi as [Hmax Hp Hids Hnext Hm]. subst id. constructor; cbn; try done.
    + rewrite size_insert_fresh by done. lia.
    + intros i [<-|[_ ?]]%lookup_insert_is_Some; [by apply nth_id_i32|auto].
    + by apply wrapping_succ_i32, nth_id_i32.
  - unfold fits, w', push, in_use in *. cbn [writer set_writer items busy is_open].
    rewrite total_permits_app, length_app. cbn [total_permits foldr fst length]. split; [done|]. split; lia.
  - cbn [w' writer set_writer push items]. by rewrite map_app.
  - intros r w2 Hrest. unfold drain_deferred. eapply ends_again; [|exact Hrest].
    eapply ends_bind; [apply ends_read|]. cbn match. rewrite Hsd.
    eapply ends_bind; [apply ends_atom_at|]. cbv beta. unfold take_deferred.
    rewrite (proj2 (Z.leb_gt _ _)) by lia. rewrite Hd. cbn [fst snd].
    eapply ends_bind; [apply ends_retry_ok, Hmiss|]. cbn match.
    eapply (ends_bind _ _ _ (Ok tt)); [|apply ends_ret]. unfold submit_or_defer_block.
    eapply ends_bind; [apply ends_atom_at|]. cbv beta. unfold register.
    cbn [inner set_inner set_storage with_deferred max_pending_requests pending_requests].
    rewrite (proj2 (Z.leb_gt _ _)) by lia. unfold next_request_id. cbn [pending_requests next_id with_deferred].
    rewrite En. cbn [fst snd].
    match goal with |- ends _ ?w0 _ _ => assert (w0 = set_inner w c2) as -> by (by destruct w) end.
    apply (ends_send TRequest (deferred_request id d) (set_inner w c2)); [done|]. fold need.
    unfold has_room. apply andb_true_iff. split; [apply Z.leb_le|apply Z.ltb_lt]; cbn [writer set_inner]; lia.
Qed.

(** How many of the deferred blocks there is room for. *)
Definition capacity (c : ConnectionInner F) : nat :=
  Z.to_nat (max_pending_requests c - Z.of_nat (size (pending_requests c))).

Lemma drain_stops ctx (w : W) :
  shutdown w = false -> take_deferred (inner w) = (inner w, None) -> ends (drain_deferred ctx) w (Ok tt) w.
Proof.
  intros Hsd E. unfold drain_deferred. eapply ends_leave; [|apply ends_ret].
  eapply ends_bind; [apply ends_read|]. cbn match. rewrite Hsd.
  eapply ends_bind; [apply ends_atom_at|]. cbv beta. rewrite E. cbn [fst snd].
  replace (set_inner w (inner w)) with w by (by destruct w). apply ends_ret.
Qed.

(** Deferred blocks are requested in order. A run of [drain_deferred], with
    blocks that the store does not have and room in the writer, ends; it has
    then requested the first deferred blocks, in their order, as many as
    [max_pending_requests] allows: each has a request id of its own that was
    free, is pending under it, and its request is queued; the others are still
    deferred. So it leaves either nothing deferred or all places taken. *)
Theorem drain_deferred_in_order (ctx : ConnectionContext) (B : Z) (ds : list (DeferredRequest F)) (w : W)
  (Hi : inner_ok (inner w)) (Hsd : shutdown w = false) (Hds : deferred_blocks (inner w) = ds)
  (HB : 1 <= B) (Hmiss : Forall (missing B) ds) (Hfits : fits B (length ds) w) :
  exists ids w', ends (drain_deferred ctx) w (Ok tt) w' /\
    length ids = Nat.min (length ds) (capacity (inner w)) /\ NoDup ids /\
    Forall (fun id => pending_requests (inner w) !! id = None) ids /\
    deferred_blocks (inner w') = drop (length ids) ds /\
    pending_requests (inner w') =
      list_to_map (zip ids (map df_block (take (length ids) ds))) ∪ pending_requests (inner w) /\
    map snd (items (writer w')) =
      map snd (items (writer w)) ++ zip_with sent_request ids (take (length ids) ds).
Proof.
  revert w Hi Hsd Hds Hfits. induction Hmiss as [|d ds Hd Hmiss IH]; intros w Hi Hsd Hds Hfits.
  - exists [], w. split.
    { apply drain_stops; [done|]. unfold take_deferred. rewrite Hds. by destruct (_ <=? _). }
    rewrite Hds. cbn [length take drop map zip_with]. rewrite list_to_map_nil, map_empty_union, app_nil_r.
    split_and!; [done|apply NoDup_nil_2|apply Forall_nil_2|done..].
  - destruct (Z_lt_dec (Z.of_nat (size (pending_requests (inner w)))) (max_pending_requests (inner w))) as [Hlt|Hge].
    + destruct (drain_one ctx B d ds w Hi Hsd Hds Hlt HB Hd Hfits) as (id & w1 & Hfree & Ei & Hi1 & Hsd1 & Hfits1 & Hq & Hends).
      destruct (IH w1 Hi1 Hsd1) as (ids & w' & Hrun & Hlen & Hnd & Hfr & Hdef & Hpend & Hqueue);
        [by rewrite Ei|done|].
      assert (capacity (inner w) = S (capacity (inner w1))) as Hcap.
      { unfold capacity. rewrite Ei. cbn [with_pending with_deferred max_pending_requests pending_requests].
        rewrite size_insert_fresh by done. lia. }
      rewrite Ei in Hfr, Hpend. cbn [with_pending pending_requests] in Hfr, Hpend.
      assert (id ∉ ids) as Hid.
      { intros Hin. rewrite Forall_forall in Hfr. specialize (Hfr id Hin). by rewrite lookup_insert_eq in Hfr. }
      exists (id :: ids), w'. split; [by apply Hends|]. split; [cbn [length]; rewrite Hlen, Hcap; cbn; lia|].
      split; [by constructor|]. split; [|split; [done|split]].
      * constructor; [done|]. eapply Forall_impl; [exact Hfr|]. intros i Hx. by apply lookup_insert_None in Hx as [? _].
      * rewrite Hpend. cbn [length take map zip_with]. rewrite list_to_map_cons.
        rewrite <- insert_union_l, insert_union_r; [done|]. apply not_elem_of_list_to_map_1.
        intros ((i & b) & -> & Hin)%list_elem_of_fmap. by apply elem_of_zip_l in Hin.
      * rewrite Hqueue, Hq, <- app_assoc. done.
    + assert (capacity (inner w) = O) as Hcap by (unfold capacity; lia).
      exists [], w. rewrite Hcap, Nat.min_0_r. split.
      { apply drain_stops; [done|]. unfold take_deferred. by rewrite (proj2 (Z.leb_le _ _)) by lia. }
      rewrite Hds. cbn [length take drop map zip_with]. rewrite list_to_map_nil, map_empty_union, app_nil_r.
    split_and!; [done|apply NoDup_nil_2|apply Forall_nil_2|done..].
Qed.

End Drain.

(** ** Concrete runs *)

Section Witnesses.
Import ConnectionFolder.
#[local] Existing Instance StoreTape.codecs.
#[local] Existing Instance MessageTape.codecs.
#[local] Existing Instance photos_storage.

Definition two_deferred : list (DeferredRequest Folder.SlateFolder) :=
  [mkDeferred (mkFileBlock photos (lit "p.jpg") 0 hash1 None) 3 0;
   mkDeferred (mkFileBlock photos (lit "p.jpg") 3 hash2 None) 3 1].

(** One place for requests, two blocks waiting. *)
Definition waiting : PWorld :=
  set_inner (fresh StoreTape.empty_store (Framing.mkWriter [] None)) (mkInner ∅ ∅ ∅ 0 1 two_deferred).

Lemma waiting_ok : inner_ok (inner waiting).
Proof.
  constructor; cbn [inner waiting set_inner max_pending_requests pending_requests next_id mutual_folders our_cc_folders].
  - lia.
  - rewrite map_size_empty. lia.
  - intros id [? H]. by rewrite lookup_empty in H.
  - by vm_compute.
  - set_solver.
Qed.

Lemma two_deferred_missing : Forall (missing 1000) two_deferred.
Proof.
  repeat constructor.
  - intros id. vm_compute. discriminate.
  - intros id. vm_compute. discriminate.
Qed.

Lemma drain_deferred_in_order_witness :
  exists (ids : list Z) w', ends (drain_deferred ctx) waiting (Ok tt) w' /\ length ids = 1%nat /\
    deferred_blocks (inner w') = drop 1 two_deferred.
Proof.
  destruct (drain_deferred_in_order ctx 1000 two_deferred waiting waiting_ok eq_refl eq_refl
    ltac:(lia) two_deferred_missing ltac:(by repeat split)) as (ids & w' & He & Hl & _ & _ & Hd & _).
  change (length ids = 1%nat) in Hl. exists ids, w'. split; [exact He|]. split; [exact Hl|].
  rewrite Hl in Hd. exact Hd.
Defined.

(** The announcement of a file of two blocks to an audited folder. *)
Definition audited_world : World (Store.FolderStore Kv.MapDb StoreTape.HFilter StoreTape.SFilter * list Call) Folder.SlateFolder :=
  set_inner (fresh (StoreTape.empty_store, []) (Framing.mkWriter [] None))
    (initial_inner default_options {[ lit "photos" := 7 ]} {[ lit "photos" ]}).
Definition audited_run :=
  steps 60 (apply_remote_index (Storage0 := audited (Storage0 := photos_storage)) ctx (lit "photos") [pic] 1) audited_world.

Lemma audited_runs :
  interleaved (fun _ => True) same_log
    (apply_remote_index (Storage0 := audited (Storage0 := photos_storage)) ctx (lit "photos") [pic] 1)
    audited_world (Ok tt) (fst audited_run).
Proof.
  apply (interleaved_alone _ _ 60); [done| |].
  - intros w. reflexivity.
  - change (audited_run = (fst audited_run, Done (Ok tt))).
    assert (snd audited_run = Done (Ok tt)) as E by (vm_compute; reflexivity).
    destruct audited_run. cbn in *. by rewrite E.
Qed.


End Witnesses.

End ConnectionIndex.
