(* ===== verification/ConnectionRun.v ===== *)
(** The life of a connection ([run_connection] and [run_connection_inner] of
    [bepository-bep/src/connection.rs]): the Hello exchange, the exchange of
    cluster configs, the three tasks and the supervisor that joins them, with the
    shutdown token and the time limit of the final drain.

    What happens inside a phase is modelled elsewhere ([Framing], [Connection]);
    here a phase ends with its result. Times are milliseconds. *)

From Stdlib Require Import ZArith Lia.
From stdpp Require Import base list relations strings.
From S2P Require Import Prelude BepTypes Messages Connection.

Local Open Scope Z_scope.

Module ConnectionRun.
Import Connection.

(** The limit of a join once a task has ended. *)
Definition DRAIN_LIMIT : Z := 2000.
(** The writer, index and message tasks. *)
Definition TASKS : nat := 3.

Inductive Phase :=
| Greeting
| Exchanging
| Joining (k : nat) (outcomes : list Outcome)
| Closed (r : result BepError.t CloseReason).

(** [since] is the time of the last join, [cancelled] the shutdown token, and
    [reported] what went to [close_tx]. *)
Record Run := mkRun { phase : Phase; clock : Z; since : Z; cancelled : bool; reported : list CloseReason }.

Definition begin (now : Z) (cancelled : bool) : Run := mkRun Greeting now now cancelled [].

Definition go (p : Phase) (c : Run) : Run := mkRun p (clock c) (since c) (cancelled c) (reported c).

(** The end of [run_connection_inner], reported by [run_connection]. *)
Definition finish (r : result BepError.t CloseReason) (c : Run) : Run :=
  mkRun (Closed r) (clock c) (since c) (cancelled c) (reported c ++ [close_reason r]).

(** A task is joined: the first one cancels the others. *)
Definition join (o : Outcome) (k : nat) (outcomes : list Outcome) (c : Run) : Run :=
  mkRun (Joining k (outcomes ++ [o])) (clock c) (clock c) (match outcomes with [] => true | _ => cancelled c end) (reported c).

Definition draining (c : Run) : bool := match phase c with Joining (S _) (_ :: _) => true | _ => false end.

(** [late] bounds how late a timer fires: time does not pass an expired limit by
    more. *)
Inductive step (late : Z) (c : Run) : Run -> Prop :=
| run_time t : clock c <= t -> (draining c = true -> t <= since c + DRAIN_LIMIT + late) ->
    step late c (mkRun (phase c) t (since c) (cancelled c) (reported c))
| run_cancel : step late c (mkRun (phase c) (clock c) (since c) true (reported c))
| run_handshake_cancelled : phase c = Greeting \/ phase c = Exchanging -> cancelled c = true ->
    step late c (finish (Ok Local) c)
| run_hello r : phase c = Greeting ->
    step late c (match r with Ok tt => go Exchanging c | Err e => finish (Err e) c end)
| run_exchange r : phase c = Exchanging ->
    step late c (match r with Ok tt => go (Joining TASKS []) c | Err e => finish (Err e) c end)
| run_join o k outcomes : phase c = Joining (S k) outcomes -> step late c (join o k outcomes c)
| run_exhausted outcomes : phase c = Joining 0 outcomes -> step late c (finish (supervise outcomes) c)
| run_abandon k o outcomes : phase c = Joining (S k) (o :: outcomes) -> since c + DRAIN_LIMIT <= clock c ->
    step late c (finish (supervise (o :: outcomes)) c).

(** ** Properties *)

(** What holds of a run in which the first task ended at [t0], if one did. *)
Definition inv (late : Z) (t0 : option Z) (c : Run) : Prop :=
  match phase c with
  | Greeting | Exchanging => t0 = None /\ reported c = []
  | Joining k [] => t0 = None /\ k = TASKS /\ reported c = []
  | Joining k outcomes =>
      (k + length outcomes)%nat = TASKS /\ cancelled c = true /\ reported c = [] /\
      exists t, t0 = Some t /\ since c <= t + Z.of_nat (length outcomes - 1) * (DRAIN_LIMIT + late) /\
        since c <= clock c /\ (k <> 0%nat -> clock c <= since c + DRAIN_LIMIT + late)
  | Closed r => reported c = [close_reason r]
  end.

(** The time of the first join. *)
Definition first_end (c : Run) (t0 : option Z) (c' : Run) : option Z :=
  match phase c, phase c' with Joining _ [], Joining _ [_] => Some (clock c) | _, _ => t0 end.

Lemma life_inv late t0 c c' : 0 <= late -> step late c c' -> inv late t0 c -> inv late (first_end c t0 c') c'.
Proof.
  intros Hl Hs. unfold inv, first_end. destruct Hs as [t Ht Hd| |Hp Hc|r Hp|r Hp|o k outcomes Hp|outcomes Hp|k o outcomes Hp Ht].
  - cbn [phase clock since cancelled reported] in *. unfold draining in Hd. destruct (phase c) as [| |k [|o [|o2 outs]]|r]; try done;
      intros (H1 & H2 & H3 & t1 & -> & H4 & H5 & H6); (split_and!; [done..|]); exists t1;
      (split_and!; [done|done|lia|]); intros Hne; destruct k; try done; by apply Hd.
  - cbn [phase clock since cancelled reported]. destruct (phase c) as [| |k [|o [|o2 outs]]|r]; try done;
      intros (H1 & _ & H3); done.
  - cbn [finish phase reported]. destruct Hp as [->| ->]; by intros [_ ->].
  - rewrite Hp. intros [-> Hr]. destruct r as [[]|e]; cbn [go finish phase reported]; [done|by rewrite Hr].
  - rewrite Hp. intros [-> Hr]. destruct r as [[]|e]; cbn [go finish phase reported]; [done|by rewrite Hr].
  - rewrite Hp. cbn [join phase clock since cancelled reported]. destruct outcomes as [|o1 outs].
    + cbn [app]. intros (-> & Hleft & Hr). injection Hleft as ->. split_and!; try done. exists (clock c). cbn [length Nat.sub Z.of_nat]. unfold DRAIN_LIMIT. split_and!; (done || lia).
    + assert (exists o2 rest, (o1 :: outs) ++ [o] = o1 :: o2 :: rest) as (o2 & rest & E).
      { destruct outs; cbn; eauto. }
      rewrite E. intros (Hn & Hc & Hr & t & -> & Hs & Hsc & Hlim).
      apply (f_equal length) in E. rewrite length_app in E. cbn [length] in *.
      split_and!; [lia|done|done|]. exists t. split_and!; [done| |lia|lia].
      specialize (Hlim ltac:(done)). unfold DRAIN_LIMIT in *. nia.
  - rewrite Hp. cbn [finish phase reported]. destruct outcomes; [by intros (_ & ? & _)|by intros (_ & _ & -> & _)].
  - rewrite Hp. cbn [finish phase reported]. by intros (_ & _ & -> & _).
Qed.

(** The steps of a run, with the time at which its first task ended. *)
Inductive runs (late : Z) (c0 : Run) : option Z -> Run -> Prop :=
| runs_begin : runs late c0 None c0
| runs_step t0 c c' : runs late c0 t0 c -> step late c c' -> runs late c0 (first_end c t0 c') c'.

Lemma runs_inv late now b t0 c : 0 <= late -> runs late (begin now b) t0 c -> inv late t0 c.
Proof. intros Hl. induction 1; [done|by eapply life_inv]. Qed.


(** A shutdown during the handshake closes the connection without the peer, and
    once a task has ended the limit closes it, whatever the other tasks do. *)
Lemma connection_can_close (late : Z) (c : Run) : 0 <= late ->
  (phase c = Greeting \/ phase c = Exchanging) /\ cancelled c = true \/ draining c = true ->
  exists c', rtc (step late) c c' /\ match phase c' with Closed _ => True | _ => False end.
Proof.
  intros Hl [[Hp Hc]|Hd].
  - exists (finish (Ok Local) c). split; [by apply rtc_once, run_handshake_cancelled|done].
  - unfold draining in Hd. destruct (phase c) as [| |[|k] [|o outs]|] eqn:Ep; try done.
    set (t := Z.max (clock c) (since c + DRAIN_LIMIT)).
    destruct (Z.leb_spec (since c + DRAIN_LIMIT) (clock c)) as [Hle|Hgt].
    + exists (finish (supervise (o :: outs)) c). split; [by eapply rtc_once, run_abandon|done].
    + exists (finish (supervise (o :: outs)) (mkRun (phase c) t (since c) (cancelled c) (reported c))). split; [|done].
      eapply rtc_l; [apply (run_time _ _ t); [lia|intros _; lia]|]. apply rtc_once. eapply run_abandon; [exact Ep|cbn; lia].
Qed.

(** The limit is one of each join: with three tasks the drain can last almost twice
    as long. *)
Definition slow_drain : Run :=
  let o := Finished (Ok None) in mkRun (Joining 1 [o; o]) 3900 1950 true [].

Lemma drain_takes_two_limits : runs 0 (begin 0 false) (Some 0) slow_drain.
Proof.
  set (o := Finished (Ok None)).
  pose (c1 := mkRun Exchanging 0 0 false []). pose (c2 := mkRun (Joining 3 []) 0 0 false []).
  pose (c3 := mkRun (Joining 2 [o]) 0 0 true []). pose (c4 := mkRun (Joining 2 [o]) 1950 0 true []).
  pose (c5 := mkRun (Joining 1 [o; o]) 1950 1950 true []).
  assert (runs 0 (begin 0 false) None c1) as H1
    by exact (runs_step 0 _ None _ c1 (runs_begin _ _) (run_hello 0 (begin 0 false) (Ok tt) eq_refl)).
  assert (runs 0 (begin 0 false) None c2) as H2
    by exact (runs_step 0 _ None _ c2 H1 (run_exchange 0 c1 (Ok tt) eq_refl)).
  assert (runs 0 (begin 0 false) (Some 0) c3) as H3
    by exact (runs_step 0 _ None _ c3 H2 (run_join 0 c2 o 2 [] eq_refl)).
  assert (runs 0 (begin 0 false) (Some 0) c4) as H4
    by exact (runs_step 0 _ (Some 0) _ c4 H3 (run_time 0 c3 1950 ltac:(by vm_compute) ltac:(by vm_compute))).
  assert (runs 0 (begin 0 false) (Some 0) c5) as H5
    by exact (runs_step 0 _ (Some 0) _ c5 H4 (run_join 0 c4 o 1 [o] eq_refl)).
  exact (runs_step 0 _ (Some 0) _ slow_drain H5 (run_time 0 c5 3900 ltac:(by vm_compute) ltac:(by vm_compute))).
Qed.


End ConnectionRun.
