(* ===== verification/Engine.v ===== *)
(** The engine ([bepository-bep/src/engine.rs]): admission of peers, the map of
    connections and the supervisor that starts and reaps their tasks.

    The callers of [connect] and [accept], the supervisor, the connection tasks,
    the forwarders of close notices and the event listener run concurrently, so
    the engine is a step relation: each step is a critical section, a
    non-blocking queue operation or an answer that arrives. A connection entry
    ([Arc<ConnectionEntry>]) is its number, and [Arc::ptr_eq] equality of
    numbers; a device id is its bytes. *)

From Stdlib Require Import ZArith Lia.
From stdpp Require Import base gmap list relations strings.
From S2P Require Import Prelude BepTypes Connection.

Local Open Scope Z_scope.

Module Engine.

Definition EVENT_CHANNEL_CAPACITY : nat := 64.
Definition SPAWN_QUEUE_CAPACITY : nat := 8.

(** [EngineEvent]. *)
Inductive EngineEvent :=
| DeviceConnecting (device : bytes)
| DeviceDisconnected (device : bytes) (reason : Connection.CloseReason).

(** [BepEngine] and what its tasks hold. [waiting] are the callers whose device
    waits for the listener, [accepted] those that may go on, [starting] the
    connections in the map that are not handed over yet; [spawn_queue] is the
    channel to the supervisor, [running] and [ended] its join set, [closing] the
    close notices under way. *)
Record Engine := mkEngine {
  has_event_listener : bool;
  events : list EngineEvent;
  waiting : list bytes;
  accepted : list bytes;
  next_entry : Z;
  connections : gmap bytes Z;
  cancelled : gset Z;
  starting : gmap Z bytes;
  spawn_queue : list (Z * bytes);
  running : gmap Z bytes;
  ended : gmap Z bytes;
  closing : list (bytes * Connection.CloseReason)
}.

(** [BepEngine::new] and [take_event_receiver]. *)
Definition new (listener : bool) : Engine := mkEngine listener [] [] [] 0 ∅ ∅ ∅ [] ∅ ∅ [].

(** [peers]. *)
Definition peers (g : Engine) : list bytes := map fst (map_to_list (connections g)).

(** [event_tx.try_send]. *)
Definition try_send_event (ev : EngineEvent) (g : Engine) : option Engine :=
  if decide (length (events g) < EVENT_CHANNEL_CAPACITY)%nat then
    Some (mkEngine (has_event_listener g) (events g ++ [ev]) (waiting g) (accepted g) (next_entry g) (connections g)
            (cancelled g) (starting g) (spawn_queue g) (running g) (ended g) (closing g))
  else None.

(** The first part of [start_connection]: ask the listener, if there is one.
    The result says whether the caller is rejected at once. *)
Definition ask (device : bytes) (g : Engine) : Engine * result BepError.t unit :=
  if has_event_listener g then
    match try_send_event (DeviceConnecting device) g with
    | Some g' => (mkEngine (has_event_listener g') (events g') (device :: waiting g') (accepted g') (next_entry g')
                    (connections g') (cancelled g') (starting g') (spawn_queue g') (running g') (ended g') (closing g'), Ok tt)
    | None => (g, Err BepError.DeviceRejected)
    end
  else (mkEngine (has_event_listener g) (events g) (waiting g) (device :: accepted g) (next_entry g) (connections g)
          (cancelled g) (starting g) (spawn_queue g) (running g) (ended g) (closing g), Ok tt).

(** Remove the first occurrence. *)
Fixpoint remove_one (d : bytes) (l : list bytes) : list bytes :=
  match l with
  | [] => []
  | x :: l' => if decide (x = d) then l' else x :: remove_one d l'
  end.

(** The answer of the listener, or the end of [ACCEPT_TIMEOUT]
    ([answer = false]). *)
Definition answer (device : bytes) (yes : bool) (g : Engine) : Engine * result BepError.t unit :=
  (mkEngine (has_event_listener g) (events g) (remove_one device (waiting g))
     (if yes then device :: accepted g else accepted g) (next_entry g) (connections g)
     (cancelled g) (starting g) (spawn_queue g) (running g) (ended g) (closing g),
   if yes then Ok tt else Err BepError.DeviceRejected).

(** Registration: a new entry replaces the one of the same device, which is
    cancelled. *)
Definition register (device : bytes) (g : Engine) : Engine :=
  let id := next_entry g in
  mkEngine (has_event_listener g) (events g) (waiting g) (remove_one device (accepted g)) (id + 1)
    (<[ device := id ]> (connections g))
    (match connections g !! device with Some old => {[ old ]} ∪ cancelled g | None => cancelled g end)
    (<[ id := device ]> (starting g)) (spawn_queue g) (running g) (ended g) (closing g).

(** [conns.get(&device).is_some_and(|e| Arc::ptr_eq(e, &entry))], then remove. *)
Definition unregister (device : bytes) (id : Z) (conns : gmap bytes Z) : gmap bytes Z :=
  if decide (conns !! device = Some id) then delete device conns else conns.

(** The hand-over to the supervisor; a full queue undoes the registration. *)
Definition hand_over (id : Z) (device : bytes) (g : Engine) : Engine * result BepError.t unit :=
  if decide (length (spawn_queue g) < SPAWN_QUEUE_CAPACITY)%nat then
    (mkEngine (has_event_listener g) (events g) (waiting g) (accepted g) (next_entry g) (connections g)
       (cancelled g) (delete id (starting g)) (spawn_queue g ++ [(id, device)]) (running g) (ended g) (closing g), Ok tt)
  else
    (mkEngine (has_event_listener g) (events g) (waiting g) (accepted g) (next_entry g)
       (unregister device id (connections g)) (cancelled g) (delete id (starting g)) (spawn_queue g) (running g)
       (ended g) (closing g), Err (BepError.Internal "connection supervisor unavailable")).

(** [run_supervisor]: take a request and spawn its task. *)
Definition spawn (g : Engine) : Engine :=
  match spawn_queue g with
  | [] => g
  | (id, device) :: q =>
      mkEngine (has_event_listener g) (events g) (waiting g) (accepted g) (next_entry g) (connections g)
        (cancelled g) (starting g) q (<[ id := device ]> (running g)) (ended g) (closing g)
  end.

(** A connection task returns ([Some] reason) or panics ([None]); its close
    notice is sent, or its sender dropped. *)
Definition finish (id : Z) (device : bytes) (reason : option Connection.CloseReason) (g : Engine) : Engine :=
  mkEngine (has_event_listener g) (events g) (waiting g) (accepted g) (next_entry g) (connections g)
    (cancelled g) (starting g) (spawn_queue g) (delete id (running g)) (<[ id := device ]> (ended g))
    (closing g ++ [(device, default (Connection.Failed (BepError.NetworkError "connection task dropped")) reason)]).

(** [run_supervisor]: reap a task that has ended, by output or by panic. *)
Definition reap (id : Z) (device : bytes) (g : Engine) : Engine :=
  mkEngine (has_event_listener g) (events g) (waiting g) (accepted g) (next_entry g)
    (unregister device id (connections g)) (cancelled g) (starting g) (spawn_queue g) (running g)
    (delete id (ended g)) (closing g).

(** The forwarder of a close notice: the event is dropped when there is no
    listener or no room. *)
Definition forward (i : nat) (g : Engine) : Engine :=
  match closing g !! i with
  | None => g
  | Some (device, reason) =>
      let g1 := mkEngine (has_event_listener g) (events g) (waiting g) (accepted g) (next_entry g) (connections g)
                  (cancelled g) (starting g) (spawn_queue g) (running g) (ended g) (delete i (closing g)) in
      if has_event_listener g then default g1 (try_send_event (DeviceDisconnected device reason) g1) else g1
  end.

(** The listener takes an event. *)
Definition receive (g : Engine) : Engine :=
  mkEngine (has_event_listener g) (tail (events g)) (waiting g) (accepted g) (next_entry g) (connections g)
    (cancelled g) (starting g) (spawn_queue g) (running g) (ended g) (closing g).

(** [shutdown_all], and [ConnectionHandle::shutdown]. *)
Definition cancel (ids : gset Z) (g : Engine) : Engine :=
  mkEngine (has_event_listener g) (events g) (waiting g) (accepted g) (next_entry g) (connections g)
    (ids ∪ cancelled g) (starting g) (spawn_queue g) (running g) (ended g) (closing g).

Definition shutdown_all (g : Engine) : Engine := cancel (map_img (connections g)) g.

(** ** Steps *)

Inductive step (g : Engine) : Engine -> Prop :=
| step_ask device : step g (fst (ask device g))
| step_answer device yes : device ∈ waiting g -> step g (fst (answer device yes g))
| step_register device : device ∈ accepted g -> step g (register device g)
| step_hand_over id device : starting g !! id = Some device -> step g (fst (hand_over id device g))
| step_spawn : step g (spawn g)
| step_finish id device reason : running g !! id = Some device -> step g (finish id device reason g)
| step_reap id device : ended g !! id = Some device -> step g (reap id device g)
| step_forward i : step g (forward i g)
| step_receive : step g (receive g)
| step_cancel id : step g (cancel {[ id ]} g)
| step_shutdown_all : step g (shutdown_all g).

(** ** The invariant *)

(** The connections that may still run. *)
Definition live (g : Engine) (id : Z) (device : bytes) : Prop :=
  starting g !! id = Some device \/ (id, device) ∈ spawn_queue g \/ running g !! id = Some device.

(** Every connection is in one place. *)
Record placed (g : Engine) : Prop := mkPlaced {
  pl_sr : starting g ##ₘ running g;
  pl_se : starting g ##ₘ ended g;
  pl_re : running g ##ₘ ended g;
  pl_queue : NoDup (map fst (spawn_queue g));
  pl_q : forall id d, (id, d) ∈ spawn_queue g ->
           starting g !! id = None /\ running g !! id = None /\ ended g !! id = None
}.

Record Inv (g : Engine) : Prop := mkInv {
  inv_placed : placed g;
  inv_events : (length (events g) <= EVENT_CHANNEL_CAPACITY)%nat;
  inv_queue : (length (spawn_queue g) <= SPAWN_QUEUE_CAPACITY)%nat;
  (** An entry of the map is of a live or unreaped connection of its device. *)
  inv_tracked : forall d id, connections g !! d = Some id -> live g id d \/ ended g !! id = Some d;
  (** A live connection is the one in the map, or cancelled. *)
  inv_live : forall d id, live g id d -> connections g !! d = Some id \/ id ∈ cancelled g;
  (** Numbers are not reused. *)
  inv_fresh : forall d id, live g id d \/ ended g !! id = Some d -> id < next_entry g
}.

Lemma new_Inv listener : Inv (new listener).
Proof.
  split; cbn; [|lia|lia| | |]; unfold live; cbn.
  - split; cbn; [apply map_disjoint_empty_l..|constructor|]. by intros ?? []%not_elem_of_nil.
  - intros d id. by rewrite lookup_empty.
  - intros d id [?|[[]%not_elem_of_nil|?]]; by rewrite lookup_empty in *.
  - intros d id [[?|[[]%not_elem_of_nil|?]]|?]; by rewrite lookup_empty in *.
Qed.

(** Steps that leave the connections alone. *)
Lemma Inv_same (g g' : Engine) :
  Inv g -> (length (events g') <= EVENT_CHANNEL_CAPACITY)%nat ->
  connections g' = connections g -> cancelled g ⊆ cancelled g' -> starting g' = starting g ->
  spawn_queue g' = spawn_queue g -> running g' = running g -> ended g' = ended g -> next_entry g' = next_entry g ->
  Inv g'.
Proof.
  intros [[P1 P2 P3 P4 P5] H1 H2 H3 H4 H5] He E1 E2 E3 E4 E5 E6 E7. split; [split|..]; unfold live in *;
    rewrite ?E1, ?E3, ?E4, ?E5, ?E6, ?E7; try done.
  intros d id Hl. destruct (H4 d id Hl); [by left|right]. by apply E2.
Qed.

Lemma try_send_room ev g g' : try_send_event ev g = Some g' ->
  (length (events g') <= EVENT_CHANNEL_CAPACITY)%nat /\
  g' = mkEngine (has_event_listener g) (events g ++ [ev]) (waiting g) (accepted g) (next_entry g) (connections g)
         (cancelled g) (starting g) (spawn_queue g) (running g) (ended g) (closing g).
Proof. unfold try_send_event. case_decide; [|done]. intros [= <-]. cbn. rewrite length_app. cbn. split; [lia|done]. Qed.

(** A registration cancels the connection it replaces. *)
Lemma registered_Inv device g : Inv g -> Inv (register device g).
Proof.
  intros [HP H1 H2 H3 H4 H5].
  assert (forall d id, live (register device g) id d <-> (id = next_entry g /\ d = device) \/ live g id d) as Hlive.
  { intros d id. unfold live. cbn. rewrite lookup_insert_Some. split.
    - intros [[[<- <-]|[? ?]]|?]; [by left|by right; left|by right; right].
    - intros [[-> ->]|[?|?]]; [by left; left| |by right]. left. right. split; [|done].
      intros <-. assert (next_entry g < next_entry g); [|lia]. apply (H5 d). left. by left. }
  assert (starting g !! next_entry g = None /\ running g !! next_entry g = None /\ ended g !! next_entry g = None)
    as (Hs & Hr & He).
  { split_and!; apply eq_None_not_Some; intros [d Hd]; (assert (next_entry g < next_entry g); [|lia]); apply (H5 d);
      unfold live; auto. }
  split; cbn [register events spawn_queue connections cancelled ended next_entry]; [|done|done|..].
  - destruct HP as [P1 P2 P3 P4 P5]. split; cbn; [by apply map_disjoint_insert_l_2|by apply map_disjoint_insert_l_2|done|done|].
    intros id d Hin. destruct (P5 id d Hin) as (? & ? & ?). split; [|done]. rewrite lookup_insert_ne; [done|].
    intros <-. assert (next_entry g < next_entry g); [|lia]. apply (H5 d). left. unfold live. auto.
  - intros d id. rewrite Hlive. intros [[<- <-]|[? ?]]%lookup_insert_Some; [auto|]. destruct (H3 d id); auto.
  - intros d id [[-> ->]|Hl]%Hlive; [left; apply lookup_insert_eq|].
    destruct (H4 d id Hl) as [Hc|Hc]; [|right; destruct (connections g !! device); set_solver].
    destruct (decide (device = d)) as [->|]; [right; rewrite Hc; set_solver|left; by rewrite lookup_insert_ne].
  - intros d id Hl. rewrite Hlive in Hl. destruct Hl as [[[-> ->]|Hl]|Hl]; [lia| |].
    + assert (id < next_entry g) by (apply (H5 d); by left). lia.
    + assert (id < next_entry g) by (apply (H5 d); by right). lia.
Qed.

Lemma unregister_Some device id conns d i :
  unregister device id conns !! d = Some i <-> conns !! d = Some i /\ ~ (d = device /\ i = id).
Proof.
  unfold unregister. case_decide as Hc.
  - rewrite lookup_delete_Some. split; [intros [? ?]; split; [done|]; naive_solver|].
    intros [Hd Hn]. split; [|done]. intros ->. apply Hn. split; [done|congruence].
  - split; [|by intros [? _]]. intros Hd. split; [done|]. intros [-> ->]. done.
Qed.

(** A connection that leaves the live ones is unregistered. *)
Lemma gone_Inv (g g' : Engine) (id : Z) (device : bytes) :
  Inv g -> placed g' -> (length (spawn_queue g') <= SPAWN_QUEUE_CAPACITY)%nat -> events g' = events g ->
  connections g' = unregister device id (connections g) -> cancelled g' = cancelled g -> next_entry g' = next_entry g ->
  (forall i d, live g' i d -> live g i d /\ i <> id) ->
  (forall i d, live g i d \/ ended g !! i = Some d -> (i = id /\ d = device) \/ (live g' i d \/ ended g' !! i = Some d)) ->
  (forall i d, ended g' !! i = Some d -> ended g !! i = Some d) -> Inv g'.
Proof.
  intros [_ H1 H2 H3 H4 H5] HP Hq He Ec Ek En Hl Hcov Hend. split; rewrite ?He, ?Ec, ?Ek, ?En; [done|done|done|..].
  - intros d i [Hc Hn]%unregister_Some. destruct (Hcov i d (H3 d i Hc)) as [[-> ->]|?]; [|done]. by destruct Hn.
  - intros d i [Hli Hne]%Hl. destruct (H4 d i Hli) as [Hc|Hc]; [left|by right].
    apply unregister_Some. split; [done|]. by intros [_ ->].
  - intros d i [[Hli _]%Hl|Hi%Hend]; apply (H5 d); auto.
Qed.

Lemma hand_over_Inv id device g : starting g !! id = Some device -> Inv g -> Inv (fst (hand_over id device g)).
Proof.
  intros Hs HI. pose proof HI as [[P1 P2 P3 P4 P5] H1 H2 H3 H4 H5].
  assert (running g !! id = None /\ ended g !! id = None /\ forall d, (id, d) ∉ spawn_queue g) as (Hr & He & Hq).
  { split_and!; [exact (map_disjoint_Some_l _ _ _ _ P1 Hs)|exact (map_disjoint_Some_l _ _ _ _ P2 Hs)|]. intros d Hin. destruct (P5 id d Hin) as [? _]. congruence. }
  unfold hand_over. case_decide as Hlen; cbn [fst].
  - assert (forall i d, live (mkEngine (has_event_listener g) (events g) (waiting g) (accepted g) (next_entry g) (connections g)
       (cancelled g) (delete id (starting g)) (spawn_queue g ++ [(id, device)]) (running g) (ended g) (closing g)) i d <->
       live g i d) as Hl.
    { intros i d. unfold live. cbn. rewrite lookup_delete_Some, elem_of_app, list_elem_of_singleton.
      destruct (decide (i = id)) as [->|]; [|naive_solver].
      split; [intros [[? ?]|[[?|[= ->]]|?]]; auto; done|]. intros [?|[?|?]]; [|auto|auto].
      right. left. right. congruence. }
    split; cbn [events spawn_queue connections cancelled ended next_entry].
    + split; cbn; [by apply map_disjoint_delete_l|by apply map_disjoint_delete_l|done| |].
      * rewrite map_app. cbn. apply NoDup_app. split; [done|]. split; [|by apply NoDup_singleton].
        intros i ([i' d] & E & Hin)%list_elem_of_fmap E'%list_elem_of_singleton. cbn in E. subst. by apply (Hq d).
      * intros i d [Hin|[= -> ->]%list_elem_of_singleton]%elem_of_app; [|split; [apply lookup_delete_eq|done]].
        destruct (P5 i d Hin) as (? & ? & ?). split; [|done]. apply lookup_delete_None. by right.
    + done.
    + rewrite length_app. cbn. lia.
    + intros d i Hc. rewrite Hl. by apply H3.
    + intros d i. rewrite Hl. apply H4.
    + intros d i. rewrite Hl. apply H5.
  - eapply (gone_Inv g _ id device); [done| |done..| | |].
    + split; cbn; [by apply map_disjoint_delete_l|by apply map_disjoint_delete_l|done|done|]. intros i d Hin. destruct (P5 i d Hin) as (? & ? & ?).
      split; [|done]. apply lookup_delete_None. by right.
    + intros i d. unfold live. cbn. rewrite lookup_delete_Some. intros [[? ?]|[?|?]]; (split; [auto|]); [done|..].
      * intros ->. by apply (Hq d).
      * intros ->. congruence.
    + intros i d. unfold live. cbn. rewrite lookup_delete_Some. destruct (decide (i = id)) as [->|]; [|naive_solver].
      intros [[?|[?|?]]|?]; [left; split; congruence|by destruct (Hq d)|congruence|congruence].
    + done.
Qed.

Lemma spawn_Inv g : Inv g -> Inv (spawn g).
Proof.
  intros HI. pose proof HI as [[P1 P2 P3 P4 P5] H1 H2 H3 H4 H5]. unfold spawn.
  destruct (spawn_queue g) as [|[id device] q] eqn:Eq; [done|].
  destruct (P5 id device (list_elem_of_here _ _)) as (Hs & Hr & He).
  cbn in P4, H2. apply NoDup_cons in P4 as [Pn P4].
  assert (forall i d, live (mkEngine (has_event_listener g) (events g) (waiting g) (accepted g) (next_entry g) (connections g)
        (cancelled g) (starting g) q (<[ id := device ]> (running g)) (ended g) (closing g)) i d <-> live g i d) as Hl.
  { intros i d. unfold live. cbn. rewrite lookup_insert_Some, Eq, elem_of_cons.
    destruct (decide (i = id)) as [->|]; [|naive_solver].
    split; [intros [?|[?|[[_ <-]|[? ?]]]]; auto; done|].
    intros [?|[[[= ->]|?]|?]]; [auto|auto|auto|congruence]. }
  split; cbn [events spawn_queue connections cancelled ended next_entry].
  - split; cbn; [by apply map_disjoint_insert_r_2|done|by apply map_disjoint_insert_l_2|done|].
    intros i d Hin. destruct (P5 i d) as (? & ? & ?); [by right|]. split; [done|]. split; [|done].
    rewrite lookup_insert_ne; [done|]. intros <-. apply Pn. by apply (list_elem_of_fmap_2 fst) in Hin.
  - done.
  - lia.
  - intros d i Hc. rewrite Hl. by apply H3.
  - intros d i. rewrite Hl. apply H4.
  - intros d i. rewrite Hl. apply H5.
Qed.

Lemma finish_Inv id device reason g : running g !! id = Some device -> Inv g -> Inv (finish id device reason g).
Proof.
  intros Hr HI. pose proof HI as [[P1 P2 P3 P4 P5] H1 H2 H3 H4 H5].
  assert (starting g !! id = None /\ ended g !! id = None /\ forall d, (id, d) ∉ spawn_queue g) as (Hs & He & Hq).
  { split_and!; [exact (map_disjoint_Some_r _ _ _ _ P1 Hr)|exact (map_disjoint_Some_l _ _ _ _ P3 Hr)|].
    intros d Hin. destruct (P5 id d Hin) as (_ & ? & _). congruence. }
  assert (forall i d, live (finish id device reason g) i d <-> live g i d /\ i <> id) as Hl.
  { intros i d. unfold live. cbn. rewrite lookup_delete_Some. destruct (decide (i = id)) as [->|]; [|naive_solver].
    split; [|by intros [_ ?]]. intros [?|[?|[? _]]]; [congruence|by destruct (Hq d)|done]. }
  split; cbn [finish events spawn_queue connections cancelled ended next_entry].
  - split; cbn; [by apply map_disjoint_delete_r|by apply map_disjoint_insert_r_2| |done|].
    + apply map_disjoint_insert_r_2; [apply lookup_delete_eq|by apply map_disjoint_delete_l].
    + intros i d Hin. destruct (P5 i d Hin) as (? & ? & ?). split; [done|]. split; [apply lookup_delete_None; by right|].
      rewrite lookup_insert_ne; [done|]. intros <-. by apply (Hq d).
  - done.
  - done.
  - intros d i Hc. rewrite Hl, lookup_insert_Some. destruct (decide (id = i)) as [<-|].
    + right. left. split; [done|]. destruct (H3 d id Hc) as [[?|[?|?]]|?]; [congruence|by destruct (Hq d)|congruence|congruence].
    + destruct (H3 d i Hc); auto.
  - intros d i [? _]%Hl. auto.
  - intros d i. rewrite Hl, lookup_insert_Some. intros [[? _]|[[<- <-]|[_ ?]]]; [by apply (H5 d); left| |by apply (H5 d); right].
    apply (H5 device). left. unfold live. auto.
Qed.

Lemma reap_Inv id device g : ended g !! id = Some device -> Inv g -> Inv (reap id device g).
Proof.
  intros He HI. pose proof HI as [[P1 P2 P3 P4 P5] H1 H2 H3 H4 H5].
  eapply (gone_Inv g _ id device); [done| |done..| | |].
  - split; cbn; [done|by apply map_disjoint_delete_r|by apply map_disjoint_delete_r|done|]. intros i d Hin. destruct (P5 i d Hin) as (? & ? & ?).
    split; [done|]. split; [done|]. apply lookup_delete_None. by right.
  - intros i d Hl. split; [exact Hl|]. intros ->. destruct Hl as [?|[Hin|?]]; cbn in *.
    + by eapply (map_disjoint_spec (starting g) (ended g)).
    + destruct (P5 id d Hin) as (_ & _ & ?). congruence.
    + by eapply (map_disjoint_spec (running g) (ended g)).
  - intros i d [Hl|Hi]; [right; left; exact Hl|]. cbn. rewrite lookup_delete_Some.
    destruct (decide (i = id)) as [->|]; [left; split; congruence|auto].
  - intros i d. cbn. by intros [_ ?]%lookup_delete_Some.
Qed.

Lemma step_Inv g g' : step g g' -> Inv g -> Inv g'.
Proof.
  intros Hstep HI. destruct Hstep.
  - unfold ask. destruct (has_event_listener g); [|by eapply Inv_same; [exact HI|apply HI|..]].
    destruct (try_send_event _ g) as [g1|] eqn:E; [|done].
    apply try_send_room in E as [Hlen ->]. by eapply Inv_same.
  - by eapply Inv_same; [exact HI|apply HI|..].
  - by apply registered_Inv.
  - by apply hand_over_Inv.
  - by apply spawn_Inv.
  - by apply finish_Inv.
  - by apply reap_Inv.
  - unfold forward. destruct (closing g !! i) as [[device reason]|]; [|done].
    set (g1 := mkEngine _ _ _ _ _ _ _ _ _ _ _ _). assert (Inv g1) as HI1 by by eapply Inv_same; [exact HI|apply HI|..].
    destruct (has_event_listener g); [|done]. destruct (try_send_event _ g1) as [g2|] eqn:E; [|done].
    apply try_send_room in E as [Hlen ->]. by eapply Inv_same.
  - eapply Inv_same; [exact HI| |done..]. cbn. pose proof (inv_events g HI). destruct (events g); cbn in *; lia.
  - eapply Inv_same; [exact HI|apply HI|done| |done..]. cbn. set_solver.
  - eapply Inv_same; [exact HI|apply HI|done| |done..]. cbn. set_solver.
Qed.

Lemma engine_Inv listener g : rtc step (new listener) g -> Inv g.
Proof.
  intros Hr. assert (forall x y, rtc step x y -> Inv x -> Inv y) as H by (induction 1; eauto using step_Inv).
  eapply H; [done|apply new_Inv].
Qed.

(** ** Theorems *)

(** C21: one connection per device. In every state the engine can reach, whatever
    the order in which callers, supervisor, connection tasks, close notices and
    listener act: of the connections of a device that may still run, at most one
    is not told to stop, and it is the one in the map; a peer is listed only
    while a connection of it runs or waits to be reaped, so none is listed when
    all have been reaped; and the two channels stay within their capacity. *)
Theorem one_connection_per_device (listener : bool) (g : Engine) (Hrun : rtc step (new listener) g) :
  (forall d id1 id2, live g id1 d -> live g id2 d -> id1 ∉ cancelled g -> id2 ∉ cancelled g -> id1 = id2) /\
  (forall d id, live g id d -> id ∉ cancelled g -> connections g !! d = Some id /\ d ∈ peers g) /\
  (forall d, d ∈ peers g -> exists id, live g id d \/ ended g !! id = Some d) /\
  (starting g = ∅ -> spawn_queue g = [] -> running g = ∅ -> ended g = ∅ -> peers g = []) /\
  (length (events g) <= EVENT_CHANNEL_CAPACITY)%nat /\ (length (spawn_queue g) <= SPAWN_QUEUE_CAPACITY)%nat.
Proof.
  apply engine_Inv in Hrun as [_ H1 H2 H3 H4 _].
  assert (forall d, d ∈ peers g <-> is_Some (connections g !! d)) as Hp.
  { intros d. unfold peers. rewrite list_elem_of_fmap. split.
    - intros ([d' id] & -> & Hin%elem_of_map_to_list). by eexists.
    - intros [id Hid]. exists (d, id). split; [done|by apply elem_of_map_to_list]. }
  split_and!; [| | | |done|done].
  - intros d id1 id2 L1 L2 N1 N2. destruct (H4 d id1 L1), (H4 d id2 L2); [congruence|done..].
  - intros d id L N. destruct (H4 d id L); [|done]. split; [done|]. apply Hp. by eexists.
  - intros d [id Hid]%Hp. exists id. auto.
  - intros E1 E2 E3 E4. destruct (peers g) as [|d l] eqn:E; [done|].
    assert (is_Some (connections g !! d)) as [id Hid] by (apply Hp; by left).
    destruct (H3 d id Hid) as [[?|[Hin|?]]|?]; rewrite ?E1, ?E2, ?E3, ?E4, ?lookup_empty in *; [done| |done..].
    by apply not_elem_of_nil in Hin.
Qed.

(** The same device connects twice; the first connection is told to stop and
    reaped while the second one runs. *)
Definition dev : bytes := lit "D".
Definition twice : Engine :=
  let g1 := spawn (fst (hand_over 0 dev (register dev (fst (ask dev (new false)))))) in
  spawn (fst (hand_over 1 dev (register dev (fst (ask dev g1))))).
Definition replaced : Engine := reap 0 dev (finish 0 dev None twice).

Lemma replaced_reachable : rtc step (new false) replaced.
Proof.
  unfold replaced, twice. cbv zeta.
  eapply rtc_l; [apply (step_ask _ dev)|].
  eapply rtc_l; [apply (step_register _ dev); cbn; by left|].
  eapply rtc_l; [apply (step_hand_over _ 0 dev); reflexivity|].
  eapply rtc_l; [apply step_spawn|].
  eapply rtc_l; [apply (step_ask _ dev)|].
  eapply rtc_l; [apply (step_register _ dev); cbn; by left|].
  eapply rtc_l; [apply (step_hand_over _ 1 dev); reflexivity|].
  eapply rtc_l; [apply step_spawn|].
  eapply rtc_l; [apply (step_finish _ 0 dev None); reflexivity|].
  eapply rtc_l; [apply (step_reap _ 0 dev); reflexivity|]. apply rtc_refl.
Qed.

Lemma one_connection_per_device_witness :
  peers replaced = [dev] /\ 0 ∈ cancelled twice /\ exists id, live replaced id dev \/ ended replaced !! id = Some dev.
Proof.
  split; [by vm_compute|]. split; [apply (bool_decide_unpack _); by vm_compute|].
  destruct (one_connection_per_device false replaced replaced_reachable) as (_ & _ & H & _).
  apply H. apply (bool_decide_unpack _). by vm_compute.
Defined.

End Engine.
