(* ===== verification/Admission.v ===== *)
(** Who gets past the event listener of an engine: the part that the daemon and
    the test server share. [came] says of a device that a peer has shown its
    certificate, [welcome] that the listener may let it in. *)

From Stdlib Require Import ZArith Lia.
From stdpp Require Import base gmap list relations strings.
From S2P Require Import Prelude BepTypes Connection Engine.

Local Open Scope Z_scope.

Module Admission.

(** The steps of the engine that neither ask the listener nor answer for it. *)
Inductive task_step (g : Engine.Engine) : Engine.Engine -> Prop :=
| ts_register device : device ∈ Engine.accepted g -> task_step g (Engine.register device g)
| ts_hand_over id device : Engine.starting g !! id = Some device -> task_step g (fst (Engine.hand_over id device g))
| ts_spawn : task_step g (Engine.spawn g)
| ts_finish id device reason : Engine.running g !! id = Some device -> task_step g (Engine.finish id device reason g)
| ts_reap id device : Engine.ended g !! id = Some device -> task_step g (Engine.reap id device g)
| ts_forward i : task_step g (Engine.forward i g)
| ts_cancel id : task_step g (Engine.cancel {[ id ]} g).

#[global] Hint Constructors task_step : core.

Section Admission.
Context (came welcome : bytes -> Prop).

(** Every caller has gone through a handshake; every caller past the listener
    is welcome. *)
Record admitted (g : Engine.Engine) : Prop := mkAdmitted {
  ad_listener : Engine.has_event_listener g = true;
  ad_came : forall d, d ∈ Engine.waiting g \/ d ∈ Engine.accepted g -> came d;
  ad_accepted : forall d, d ∈ Engine.accepted g -> welcome d;
  ad_live : forall id d, Engine.live g id d \/ Engine.ended g !! id = Some d -> welcome d /\ came d;
  ad_map : forall d id, Engine.connections g !! d = Some id -> welcome d /\ came d
}.

Lemma new_admitted : admitted (Engine.new true).
Proof.
  split; cbn; [done|..].
  - by intros d [[]%not_elem_of_nil|[]%not_elem_of_nil].
  - by intros d []%not_elem_of_nil.
  - unfold Engine.live. cbn. intros id d [[?|[[]%not_elem_of_nil|?]]|?]; by rewrite lookup_empty in *.
  - intros d id. by rewrite lookup_empty.
Qed.

Lemma elem_remove_one (d x : bytes) (l : list bytes) : d ∈ Engine.remove_one x l -> d ∈ l.
Proof.
  induction l as [|y l IH]; cbn [Engine.remove_one]; [done|]. destruct (decide (y = x)); [by right|].
  intros [->|?]%elem_of_cons; [by left|right; auto].
Qed.

(** Fewer callers, the same connections. *)
Lemma admitted_less (g g' : Engine.Engine) :
  admitted g -> Engine.has_event_listener g' = true ->
  (forall d, d ∈ Engine.waiting g' -> d ∈ Engine.waiting g \/ came d) ->
  (forall d, d ∈ Engine.accepted g' -> d ∈ Engine.accepted g \/ (d ∈ Engine.waiting g /\ welcome d)) ->
  (forall d id, Engine.connections g' !! d = Some id -> Engine.connections g !! d = Some id) ->
  (forall id d, Engine.live g' id d \/ Engine.ended g' !! id = Some d -> Engine.live g id d \/ Engine.ended g !! id = Some d) ->
  admitted g'.
Proof.
  intros [H1 H2 H3 H4 H5] Hl Hw Ha Hc Hlive. split; [done|..].
  - intros d [[Hd|?]%Hw|[Hd|[Hd _]]%Ha]; auto.
  - intros d [Hd|[_ Hd]]%Ha; auto.
  - intros id d Hd%Hlive. by apply H4 in Hd.
  - intros d id Hd%Hc. by apply H5 in Hd.
Qed.

Lemma ask_admitted (g : Engine.Engine) (device : bytes) :
  admitted g -> came device -> admitted (fst (Engine.ask device g)).
Proof.
  intros Hg Hcame. pose proof (ad_listener g Hg) as H1. unfold Engine.ask. rewrite H1.
  destruct (Engine.try_send_event _ g) as [g1|] eqn:Es; [|done].
  apply Engine.try_send_room in Es as [_ ->]. apply (admitted_less g); [done|done|..]; cbn; auto.
  intros d [->|?]%elem_of_cons; auto.
Qed.

Lemma answer_admitted (g : Engine.Engine) (device : bytes) (yes : bool) :
  admitted g -> device ∈ Engine.waiting g -> (yes = true -> welcome device) ->
  admitted (fst (Engine.answer device yes g)).
Proof.
  intros Hg Hin Hyes. apply (admitted_less g); [done|apply Hg|..]; cbn; auto.
  - intros d Hd%elem_remove_one. by left.
  - intros d. destruct yes; [|by left]. intros [->|?]%elem_of_cons; [right; auto|by left].
Qed.

Lemma receive_admitted (g : Engine.Engine) : admitted g -> admitted (Engine.receive g).
Proof. intros Hg. by apply (admitted_less g); [|apply Hg|auto..]. Qed.

Lemma task_admitted (g g' : Engine.Engine) : task_step g g' -> admitted g -> admitted g'.
Proof.
  intros Hstep Hg. pose proof Hg as [H1 H2 H3 H4 H5].
  destruct Hstep as [device Hin|id device Hid| |id device reason Hid|id device Hid|i|id].
  - assert (welcome device /\ came device) as [Hw Hcame] by (split; [by apply H3|apply H2; by right]).
    split; cbn; [done|..].
    + intros d [Hd|Hd%elem_remove_one]; auto.
    + intros d Hd%elem_remove_one. auto.
    + unfold Engine.live. cbn. intros id d [[[[_ <-]|[_ Hd]]%lookup_insert_Some|Hd]|Hd]; [done|..];
        apply (H4 id); unfold Engine.live; auto.
    + intros d id [[<- _]|[_ Hd]]%lookup_insert_Some; [done|]. by apply (H5 d id).
  - apply (admitted_less g); [done|..]; unfold Engine.hand_over; case_decide; cbn; auto.
    + intros d i Hd%Engine.unregister_Some. by apply Hd.
    + unfold Engine.live. cbn. intros i d [[[_ Hd]%lookup_delete_Some|[[Hd|[= -> ->]%list_elem_of_singleton]%elem_of_app|Hd]]|Hd]; auto.
    + unfold Engine.live. cbn. intros i d [[[_ Hd]%lookup_delete_Some|Hd]|Hd]; auto.
  - apply (admitted_less g); [done|..]; unfold Engine.spawn; destruct (Engine.spawn_queue g) as [|[id device] q] eqn:Eq; cbn; auto.
    unfold Engine.live. cbn. rewrite Eq. intros i d [[Hd|[Hd|[[<- <-]|[_ Hd]]%lookup_insert_Some]]|Hd]; auto;
      left; right; left; [by right|by left].
  - apply (admitted_less g); [done|..]; cbn; auto. unfold Engine.live. cbn.
    intros i d [[Hd|[Hd|[_ Hd]%lookup_delete_Some]]|[[<- <-]|[_ Hd]]%lookup_insert_Some]; auto.
  - apply (admitted_less g); [done|..]; cbn; auto.
    + intros d i Hd%Engine.unregister_Some. by apply Hd.
    + unfold Engine.live. cbn. intros i d [Hd|[_ Hd]%lookup_delete_Some]; auto.
  - unfold Engine.forward. destruct (Engine.closing g !! i) as [[device reason]|]; [|done]. rewrite H1.
    destruct (Engine.try_send_event _ _) as [g1|] eqn:Es; cbn; [|by apply (admitted_less g); auto].
    apply Engine.try_send_room in Es as [_ ->]. by apply (admitted_less g); auto.
  - by apply (admitted_less g); auto.
Qed.

Lemma admitted_served (g : Engine.Engine) (d : bytes) (id : Z) :
  admitted g -> Engine.connections g !! d = Some id \/ Engine.live g id d \/ Engine.ended g !! id = Some d ->
  welcome d /\ came d.
Proof. intros Hg [Hd|Hd]; [by eapply ad_map|by eapply ad_live]. Qed.

End Admission.

(** More devices may become welcome. *)
Lemma admitted_mono (came welcome welcome' : bytes -> Prop) (g : Engine.Engine) :
  (forall d, welcome d -> welcome' d) -> admitted came welcome g -> admitted came welcome' g.
Proof.
  intros Hw [H1 H2 H3 H4 H5]. split; [done|done|auto|..].
  - intros id d Hd. destruct (H4 id d Hd). auto.
  - intros d id Hd. destruct (H5 d id Hd). auto.
Qed.

End Admission.
