(* ===== verification/Stats.v ===== *)
(** Statistics of a compaction ([bepository-storage/src/stats.rs]): row
    counters, and per key prefix the sizes of the values seen. *)

From Stdlib Require Import ZArith Lia.
From stdpp Require Import base gmap list strings.
From S2P Require Import Prelude.

Local Open Scope Z_scope.

(** ** Rows of a compaction (SlateDB) *)

Inductive ValueDeletable :=
| Value (b : bytes)
| Merge (b : bytes)
| Tombstone.

Record RowEntry := mkRow { row_key : bytes; row_value : ValueDeletable }.

Module Stats.

Record PrefixStats := mkPrefixStats {
  seen : Z;
  tombstones_seen : Z;
  dropped : Z;
  bytes_total : Z;
  bytes_max : Z;
  bytes_hist : list Z
}.

Definition PrefixStats_default : PrefixStats := mkPrefixStats 0 0 0 0 0 (repeat 0 14).

Record FilterStats := mkFilterStats {
  blocks_dropped : Z;
  blocks_kept : Z;
  refs_dropped : Z;
  refs_kept : Z;
  reverse_refs_tombstoned : Z;
  reverse_refs_kept : Z;
  inbox_tombstoned : Z;
  inbox_kept : Z;
  seqs_pruned : Z;
  seqs_kept : Z;
  tombstones_pruned : Z;
  files_kept : Z;
  metadata_kept : Z;
  kept : Z;
  prefix_stats : gmap bytes PrefixStats
}.

Definition FilterStats_default : FilterStats :=
  mkFilterStats 0 0 0 0 0 0 0 0 0 0 0 0 0 0 ∅.

(** The counters, as the filter names them. *)
Inductive Counter :=
| C_blocks_dropped
| C_blocks_kept
| C_refs_dropped
| C_refs_kept
| C_reverse_refs_tombstoned
| C_reverse_refs_kept
| C_inbox_tombstoned
| C_inbox_kept
| C_seqs_pruned
| C_seqs_kept
| C_tombstones_pruned
| C_files_kept
| C_metadata_kept
| C_kept.

(** [u64] increment in the release profile. *)
Definition incr (v : Z) : Z := wrap_u64 (v + 1).

(** [self.stats.<counter> += 1]. *)
Definition bump (c : Counter) (s : FilterStats) : FilterStats :=
  let at_ (c' : bool) (v : Z) := if c' then incr v else v in
  mkFilterStats
    (at_ (match c with C_blocks_dropped => true | _ => false end) (blocks_dropped s))
    (at_ (match c with C_blocks_kept => true | _ => false end) (blocks_kept s))
    (at_ (match c with C_refs_dropped => true | _ => false end) (refs_dropped s))
    (at_ (match c with C_refs_kept => true | _ => false end) (refs_kept s))
    (at_ (match c with C_reverse_refs_tombstoned => true | _ => false end) (reverse_refs_tombstoned s))
    (at_ (match c with C_reverse_refs_kept => true | _ => false end) (reverse_refs_kept s))
    (at_ (match c with C_inbox_tombstoned => true | _ => false end) (inbox_tombstoned s))
    (at_ (match c with C_inbox_kept => true | _ => false end) (inbox_kept s))
    (at_ (match c with C_seqs_pruned => true | _ => false end) (seqs_pruned s))
    (at_ (match c with C_seqs_kept => true | _ => false end) (seqs_kept s))
    (at_ (match c with C_tombstones_pruned => true | _ => false end) (tombstones_pruned s))
    (at_ (match c with C_files_kept => true | _ => false end) (files_kept s))
    (at_ (match c with C_metadata_kept => true | _ => false end) (metadata_kept s))
    (at_ (match c with C_kept => true | _ => false end) (kept s))
    (prefix_stats s).

Definition set_prefix_stats (s : FilterStats) (p : gmap bytes PrefixStats) : FilterStats :=
  mkFilterStats (blocks_dropped s) (blocks_kept s) (refs_dropped s) (refs_kept s) (reverse_refs_tombstoned s) (reverse_refs_kept s) (inbox_tombstoned s) (inbox_kept s) (seqs_pruned s) (seqs_kept s) (tombstones_pruned s) (files_kept s) (metadata_kept s) (kept s) p.

Definition prefix_for (key : bytes) : bytes :=
  match key with
  | [] => [0; 0]
  | [a] => [a; 0]
  | a :: b :: _ => [a; b]
  end.

(** [63 - leading_zeros] of a non-zero [u64] is its binary logarithm. *)
Definition bytes_bucket_index (len : Z) : Z :=
  if len <? 16 then 0
  else if Z.shiftl 1 27 <=? len then 13
  else let bit := Z.log2 len in Z.shiftr (bit - 4) 1 + 1.

Definition saturating_add_u64 (a b : Z) : Z := Z.min (a + b) U64_MAX.

(** [PrefixStats::record_seen]. *)
Definition record_seen_prefix (s : PrefixStats) (entry : RowEntry) : PrefixStats :=
  let '(len, tombstones) :=
    match row_value entry with
    | Value b | Merge b => (Z.of_nat (length b), tombstones_seen s)
    | Tombstone => (0, incr (tombstones_seen s))
    end in
  let i := Z.to_nat (bytes_bucket_index len) in
  mkPrefixStats (incr (seen s)) tombstones (dropped s)
    (saturating_add_u64 (bytes_total s) len)
    (if bytes_max s <? len then len else bytes_max s)
    (alter incr i (bytes_hist s)).

(** [entry(p).or_default()]. *)
Definition prefix_entry (s : FilterStats) (p : bytes) : PrefixStats :=
  default PrefixStats_default (prefix_stats s !! p).

Definition record_seen (key : bytes) (entry : RowEntry) (s : FilterStats) : FilterStats :=
  let p := prefix_for key in
  set_prefix_stats s (<[p := record_seen_prefix (prefix_entry s p) entry]> (prefix_stats s)).

Definition record_dropped (key : bytes) (s : FilterStats) : FilterStats :=
  let p := prefix_for key in
  let e := prefix_entry s p in
  set_prefix_stats s
    (<[p := mkPrefixStats (seen e) (tombstones_seen e) (incr (dropped e)) (bytes_total e)
              (bytes_max e) (bytes_hist e)]> (prefix_stats s)).

(** ** Lemmas *)

(** Lower bounds of the buckets, and the end of the last one. *)
Definition bucket_bounds : list Z :=
  [0; 16; 64; 256; 1024; 4096; 16384; 65536; 262144; 1048576; 4194304; 16777216; 67108864;
   134217728; 2 ^ 64].

Lemma prefix_entry_bump c s p : prefix_entry (bump c s) p = prefix_entry s p.
Proof. done. Qed.

Lemma kept_bump c s : kept (bump c s) = match c with C_kept => incr (kept s) | _ => kept s end.
Proof. by destruct c. Qed.

Lemma prefix_entry_seen key row s p :
  prefix_entry (record_seen key row s) p =
  if decide (p = prefix_for key) then record_seen_prefix (prefix_entry s p) row else prefix_entry s p.
Proof.
  unfold prefix_entry at 1, record_seen. cbn [set_prefix_stats prefix_stats].
  case_decide; subst; [by rewrite lookup_insert_eq|by rewrite lookup_insert_ne].
Qed.

Lemma prefix_entry_dropped key s p :
  prefix_entry (record_dropped key s) p =
  let e := prefix_entry s p in
  if decide (p = prefix_for key)
  then mkPrefixStats (seen e) (tombstones_seen e) (incr (dropped e)) (bytes_total e) (bytes_max e)
         (bytes_hist e)
  else e.
Proof.
  unfold prefix_entry at 1, record_dropped. cbn [set_prefix_stats prefix_stats].
  case_decide; subst; [by rewrite lookup_insert_eq|by rewrite lookup_insert_ne].
Qed.

Lemma seen_record_seen e row :
  seen (record_seen_prefix e row) = incr (seen e) /\ dropped (record_seen_prefix e row) = dropped e.
Proof. unfold record_seen_prefix. by destruct (row_value row). Qed.

(** ** Property *)

(** The histogram. The bucket of a value size is always one of the fourteen
    (the histogram is never indexed out of bounds), and it is the one whose
    documented bounds contain the size. *)
Theorem bucket_index_exact (len : Z) (Hlen : 0 <= len < 2 ^ 64) :
  let i := bytes_bucket_index len in
  0 <= i < 14 /\
  exists lo hi, bucket_bounds !! Z.to_nat i = Some lo /\ bucket_bounds !! Z.to_nat (i + 1) = Some hi /\
    lo <= len < hi.
Proof.
  intros i. subst i. unfold bytes_bucket_index.
  destruct (Z.ltb_spec len 16); [split; [lia|]; exists 0, 16; split; [done|]; split; [done|]; lia|].
  destruct (Z.leb_spec (Z.shiftl 1 27) len) as [Hbig|Hsmall]; change (Z.shiftl 1 27) with 134217728 in *.
  { split; [lia|]. exists 134217728, (2 ^ 64). split; [done|]. split; [done|]. lia. }
  pose proof (Z.log2_spec len ltac:(lia)) as Hl. pose proof (Z.log2_nonneg len).
  assert (4 <= Z.log2 len <= 26) as Hb.
  { split; [apply (Z.log2_le_mono 16 len); lia|].
    pose proof (Z.log2_le_mono len 134217727 ltac:(lia)) as Hm. done. }
  rewrite Z.shiftr_div_pow2 by lia. change (2 ^ 1) with 2.
  assert (exists k, Z.log2 len = k /\ 4 <= k <= 26) as (k & Ek & Hk) by eauto.
  rewrite Ek in *. clear Ek Hb.
  assert (k = 4 \/ k = 5 \/ k = 6 \/ k = 7 \/ k = 8 \/ k = 9 \/ k = 10 \/ k = 11 \/ k = 12 \/ k = 13 \/
          k = 14 \/ k = 15 \/ k = 16 \/ k = 17 \/ k = 18 \/ k = 19 \/ k = 20 \/ k = 21 \/ k = 22 \/
          k = 23 \/ k = 24 \/ k = 25 \/ k = 26) as Hcases by lia.
  repeat destruct Hcases as [->|Hcases]; [..|subst k];
    (split; [by vm_compute|]); eexists _, _; (split; [reflexivity|]); (split; [reflexivity|]);
    simpl in Hl; lia.
Qed.

Lemma bucket_index_exact_witness :
  0 <= bytes_bucket_index 5000 < 14 /\ bytes_bucket_index 5000 = 5.
Proof.
  split; [|vm_compute; reflexivity].
  exact (proj1 (bucket_index_exact 5000 ltac:(lia))).
Defined.

End Stats.
