(* ===== verification/Compaction.v ===== *)
(** Garbage collection during compaction
    ([bepository-storage/src/compaction.rs]): the filter supplier, which indexes
    the blocks that files refer to, the filter, which decides for every row, and
    the scheduler.

    SlateDB runs the filter over the rows of a compaction job; its snapshots,
    manifest and size-tiered scheduler are interfaces. *)

From Stdlib Require Import ZArith Lia.
From stdpp Require Import base gmap list strings.
From S2P Require Import Prelude BepTypes Base32 StoreKeys Codec ProtoConv Kv GcState Store Stats.

Local Open Scope Z_scope.
Local Open Scope bep_scope.

Module Compaction.
Import Kv Store.

(** ** SlateDB *)

(** [CompactionFilterError]. *)
Inductive CompactionFilterError :=
| CreationError (msg : string)
| FilterError (msg : string).

Inductive CompactionFilterDecision :=
| Keep
| Drop
| Modify (v : ValueDeletable).

(** Snapshots: [Db::snapshot] and [DbSnapshot::scan_prefix]. *)
Class SnapshotDb (Db Snap : Type) `{SlateDb Db} := {
  db_snapshot : SE Db SlateError Snap;
  snap_scan_prefix : Snap -> bytes -> result SlateError Scan;
  snap_contents : Snap -> contents
}.

(** A snapshot is the contents of the moment it was taken; a scan of it that
    does not end in an error yields every entry. *)
Class SnapshotLaws (Db Snap : Type) `{SnapshotDb Db Snap} : Prop := {
  db_snapshot_reads : reads db_snapshot (fun c sn => snap_contents sn = c);
  snap_scan_prefix_spec sn p sc :
    snap_scan_prefix sn p = Ok sc ->
    exists rest, entries (starts_with p) (snap_contents sn) = scan_items sc ++ rest /\
                 (scan_error sc = None -> rest = [])
}.

(** ** The filter *)

Record GcFilter := mkFilter {
  folder_sk : bytes;
  job : Z;
  epoch : Base32.Epoch;
  peer_floor : option Z;
  is_bottom : bool;
  stats : Stats.FilterStats
}.

Definition on_stats (f : GcFilter) (g : Stats.FilterStats -> Stats.FilterStats) : GcFilter :=
  mkFilter (folder_sk f) (job f) (epoch f) (peer_floor f) (is_bottom f) (g (stats f)).

Definition prune_decision (f : GcFilter) : CompactionFilterDecision :=
  if is_bottom f then Drop else Modify Tombstone.

(** The two ways a branch of the filter ends. *)
Definition prune (f : GcFilter) (key : bytes) (c : Stats.Counter)
  : GcFilter * result CompactionFilterError CompactionFilterDecision :=
  let f := on_stats f (fun s => Stats.record_dropped key (Stats.bump c s)) in
  (f, Ok (prune_decision f)).

Definition keep (f : GcFilter) (c : Stats.Counter)
  : GcFilter * result CompactionFilterError CompactionFilterDecision :=
  (on_stats f (fun s => Stats.bump Stats.C_kept (Stats.bump c s)), Ok Keep).

Section Filter.
Context {Db : Type} `{!SlateDb Db} {SC : StoreCodecs}.
Context {HF SF : Type} `{!Bloom bytes HF} `{!Bloom Z SF}.
Abbreviation GC := (GcState.CompactionState HF SF).

(** The deletion of the file is below the floor. *)
Definition stale_deletion (floor : option Z) (v : ValueDeletable) : bool :=
  match floor, v with
  | Some fl, Value val =>
      match decode (A := storage.File) val with
      | Some file_wrapper =>
          match storage.file_info file_wrapper with
          | Some fi => storage.deleted fi && (storage.sequence fi <? fl)
          | None => false
          end
      | None => false
      end
  | _, _ => false
  end.

(** [u64::try_from(floor.get()).is_ok_and(|f| seq < f)]. *)
Definition below_floor (floor : option Z) (seq : Z) : bool :=
  match floor with
  | Some fl => (0 <=? fl) && (seq <? fl)
  | None => false
  end.

Definition filter (gc : GC) (f : GcFilter) (entry : RowEntry)
  : GcFilter * result CompactionFilterError CompactionFilterDecision :=
  let key := row_key entry in
  let f := on_stats f (Stats.record_seen key entry) in
  if starts_with StoreKeys.BLOCK_DATA_PREFIX key then
    match StoreKeys.parse_block_data_seq_key key with
    | None => (f, Err (FilterError "corrupted bd key width/value"))
    | Some seq =>
        if negb (GcState.known_live_seq_contains gc (job f) seq)
        then prune f key Stats.C_blocks_dropped
        else keep f Stats.C_blocks_kept
    end
  else match StoreKeys.parse_block_pointer_key key with
  | Some hash =>
      if negb (GcState.known_live_hash_contains gc (job f) hash)
      then prune f key Stats.C_refs_dropped
      else keep f Stats.C_refs_kept
  | None =>
  match StoreKeys.parse_block_reverse_key key with
  | Some (hash, _) =>
      if negb (GcState.known_live_hash_contains gc (job f) hash)
      then prune f key Stats.C_reverse_refs_tombstoned
      else keep f Stats.C_reverse_refs_kept
  | None =>
  match StoreKeys.parse_inbox_key key with
  | Some (ep, _) =>
      if Base32.epoch_ltb ep (epoch f)
      then prune f key Stats.C_inbox_tombstoned
      else keep f Stats.C_inbox_kept
  | None =>
  match StoreKeys.parse_seq_key key with
  | Some seq =>
      if below_floor (peer_floor f) seq
      then prune f key Stats.C_seqs_pruned
      else keep f Stats.C_seqs_kept
  | None =>
  match StoreKeys.parse_file_key key with
  | Some _ =>
      if stale_deletion (peer_floor f) (row_value entry)
      then prune f key Stats.C_tombstones_pruned
      else keep f Stats.C_files_kept
  | None => keep f Stats.C_metadata_kept
  end end end end end.

(** ** The supplier *)

Abbreviation FS := (FolderStore Db HF SF).

Definition C := SE FS CompactionFilterError.

(** A store call whose error aborts the creation of the filter. *)
Definition or_creation {A E : Type} (m : SE FS E A) : C A := fun s =>
  let '(s', r) := m s in (s', map_err (fun _ => CreationError "store") r).

Definition on_gc (g : GC -> GC) : C unit :=
  se_modify (fun s => mkStore (db s) (g (gc s)) (blockseq s)).

(** [known_live_hashes.insert] and [known_live_seqs.insert]: the filters are
    shared with the job registered in the compaction state. *)
Definition insert_hash (job_id : Z) (hash : bytes) (g : GC) : GC :=
  GcState.mkState
    (alter (fun j => GcState.mkJob (bf_insert hash (GcState.known_live_hashes j))
                       (GcState.known_live_seqs j)) job_id (GcState.jobs g))
    (GcState.next_job g).

Definition insert_seq (job_id seq : Z) (g : GC) : GC :=
  GcState.mkState
    (alter (fun j => GcState.mkJob (GcState.known_live_hashes j)
                       (bf_insert seq (GcState.known_live_seqs j))) job_id (GcState.jobs g))
    (GcState.next_job g).

Fixpoint index_blocks (job_id : Z) (blocks : list storage.BlockInfo) : C unit :=
  match blocks with
  | [] => se_ret tt
  | block :: blocks' =>
      run! match storage.blockseq block with
           | None => se_ret tt
           | Some seq =>
               if negb (Nat.eqb (length (storage.hash block)) StoreKeys.HASH_LEN)
               then se_err (CreationError "invalid hash length")
               else
                 run! on_gc (insert_hash job_id (storage.hash block));
                 run! se_lift (map_err (fun _ => CreationError "invalid blockseq")
                                 (StoreKeys.validate_block_seq seq));
                 on_gc (insert_seq job_id seq)
           end;
      index_blocks job_id blocks'
  end.

(** The rows of a scan; [extract] decodes a value ([None]: it fails). *)
Fixpoint index_rows (job_id : Z) (extract : bytes -> option (option storage.FileInfo))
  (items : list (bytes * bytes)) : C unit :=
  match items with
  | [] => se_ret tt
  | kv :: items' =>
      do! fi <- se_lift (ok_or (extract (snd kv)) (CreationError "decode"));
      run! match fi with
           | Some fi => index_blocks job_id (storage.blocks fi)
           | None => se_ret tt
           end;
      index_rows job_id extract items'
  end.

Context {Snap : Type} `{!SnapshotDb Db Snap}.

Definition index_blocks_under_prefix (snapshot : Snap) (prefix : bytes) (job_id : Z)
  (extract : bytes -> option (option storage.FileInfo)) : C unit :=
  do! sc <- se_lift (map_err (fun _ => CreationError "scan") (snap_scan_prefix snapshot prefix));
  run! index_rows job_id extract (scan_items sc);
  match scan_error sc with
  | Some _ => se_err (CreationError "scan")
  | None => se_ret tt
  end.

Definition extract_inbox (b : bytes) : option (option storage.FileInfo) :=
  storage.inbox_file_info <$> decode (A := storage.Inbox) b.

Definition extract_file (b : bytes) : option (option storage.FileInfo) :=
  storage.file_info <$> decode (A := storage.File) b.

(** [GcFilterSupplier] without its store slot: the store is the state. *)
Record GcFilterSupplier := mkSupplier { supplier_folder_sk : bytes; supplier_epoch : Base32.Epoch }.

(** Everything after the job was registered. *)
Definition fill_filter (sup : GcFilterSupplier) (is_dest_last_run : bool) (job_id : Z) : C GcFilter :=
  do! snapshot <- or_creation (on_db db_snapshot);
  run! index_blocks_under_prefix snapshot (StoreKeys.inbox_key (supplier_epoch sup) []) job_id
         extract_inbox;
  run! index_blocks_under_prefix snapshot StoreKeys.FILE_PREFIX job_id extract_file;
  do! peer_floor <- or_creation compute_peer_floor;
  se_ret (mkFilter (supplier_folder_sk sup) job_id (supplier_epoch sup) peer_floor is_dest_last_run
            Stats.FilterStats_default).

(** [create_compaction_filter]; [empty_hashes] and [empty_seqs] are the new
    Bloom filters. An error drops the job handle, which unregisters the job. *)
Definition create_compaction_filter (empty_hashes : HF) (empty_seqs : SF) (sup : GcFilterSupplier)
  (is_dest_last_run : bool) : C GcFilter := fun s =>
  let '(g, job_id) := GcState.register (gc s) empty_hashes empty_seqs in
  match fill_filter sup is_dest_last_run job_id (mkStore (db s) g (blockseq s)) with
  | (s', Ok f) => (s', Ok f)
  | (s', Err e) => (mkStore (db s') (GcState.unregister (gc s') job_id) (blockseq s'), Err e)
  end.

End Filter.

(** ** The scheduler *)

Definition METADATA_MIN_L0 : nat := 4.

Inductive SourceId := SstView (id : Z) | SortedRun (id : Z).

Record CompactionSpec := mkSpec {
  spec_segment : bytes;
  spec_sources : list SourceId;
  spec_destination : option Z
}.

(** A segment of the manifest: its prefix, the ids of its L0 tables and of its
    sorted runs. *)
Record Segment := mkSegment { seg_prefix : bytes; seg_l0 : list Z; seg_compacted : list Z }.

(** A compaction SlateDB knows of. *)
Record ActiveCompaction := mkActive { act_spec : CompactionSpec; act_active : bool }.

Record CompactorStateView := mkView {
  view_compacted : list Z;
  view_segments : list Segment;
  view_compactions : list ActiveCompaction
}.

(** [retain_block_segment_specs]. *)
Definition retain_block_segment_specs (specs : list CompactionSpec) : list CompactionSpec :=
  List.filter (fun s => bool_decide (spec_segment s = StoreKeys.BLOCK_SEGMENT_PREFIX)) specs.

Definition saturating_add_u32 (a b : Z) : Z := Z.min (a + b) U32_MAX.

Definition list_max (l : list Z) : option Z :=
  match l with
  | [] => None
  | x :: l' => Some (fold_left Z.max l' x)
  end.

Definition list_min (l : list Z) : option Z :=
  match l with
  | [] => None
  | x :: l' => Some (fold_left Z.min l' x)
  end.

Definition next_free_sr_id (taken : list Z) : Z :=
  match list_max taken with
  | Some id => saturating_add_u32 id 1
  | None => 0
  end.

Definition destinations (specs : list CompactionSpec) : list Z :=
  omap spec_destination specs.

Definition active_specs (state : CompactorStateView) : list CompactionSpec :=
  map act_spec (List.filter act_active (view_compactions state)).

(** The ids [next_free_sr_id] is given. *)
Definition taken_ids (state : CompactorStateView) (specs : list CompactionSpec) : list Z :=
  view_compacted state
  ++ flat_map seg_compacted (view_segments state)
  ++ destinations specs
  ++ destinations (active_specs state).

(** The tests at the head of the loop over the segments. *)
Definition wants_compaction (active_segments : list bytes) (seg : Segment) : bool :=
  negb (bool_decide (seg_prefix seg = StoreKeys.BLOCK_SEGMENT_PREFIX))
  && negb (bool_decide (seg_prefix seg ∈ active_segments))
  && (Nat.leb METADATA_MIN_L0 (length (seg_l0 seg)) || Nat.ltb 1 (length (seg_compacted seg))).

Definition merge_all (seg : Segment) (next_dest : Z) : CompactionSpec :=
  mkSpec (seg_prefix seg)
    (map SstView (seg_l0 seg) ++ map SortedRun (seg_compacted seg))
    (Some (default next_dest (list_min (seg_compacted seg)))).

Fixpoint propose_segments (active_segments : list bytes) (segs : list Segment) (next_dest : Z)
  : list CompactionSpec :=
  match segs with
  | [] => []
  | seg :: segs' =>
      if wants_compaction active_segments seg then
        merge_all seg next_dest ::
        propose_segments active_segments segs'
          (match seg_compacted seg with [] => saturating_add_u32 next_dest 1 | _ :: _ => next_dest end)
      else propose_segments active_segments segs' next_dest
  end.

(** [propose]; [store] is what the slot holds ([Some closed]), [size_tiered] the
    scheduler of SlateDB. *)
Definition propose (store : option bool) (size_tiered : CompactorStateView -> list CompactionSpec)
  (state : CompactorStateView) : list CompactionSpec :=
  match store with
  | None => []
  | Some true => []
  | Some false =>
      let specs := retain_block_segment_specs (size_tiered state) in
      let active_segments := map spec_segment (active_specs state) in
      let next_dest := next_free_sr_id (taken_ids state specs) in
      specs ++ propose_segments active_segments (view_segments state) next_dest
  end.

End Compaction.
