(* ===== verification/CompactionSafety.v ===== *)
(** What compaction may drop: the filter's decision on every class of keys, the
    blocks a new filter protects, the deletions it may forget, and the plans of
    the scheduler. *)

From Stdlib Require Import ZArith Lia.
From stdpp Require Import base gmap list strings.
From S2P Require Import Prelude BepTypes Base32 StoreKeys Codec ProtoConv.
From S2P Require Import Kv GcState Store StoreTape StoreWp Stats Compaction.

Local Open Scope Z_scope.
Local Open Scope bep_scope.

Module CompactionSafety.
Import Kv Store StoreWp Compaction.

(** ** Decisions *)

Section Decisions.
Context {SC : StoreCodecs} {HF SF : Type} `{!Bloom bytes HF} `{!Bloom Z SF}.
Abbreviation GC := (GcState.CompactionState HF SF).

(** Whether a row is garbage, by the class of its key. *)
Definition garbage (g : GC) (f : GcFilter) (k : StoreKeys.Key) (v : ValueDeletable) : bool :=
  match k with
  | StoreKeys.KData q => negb (GcState.known_live_seq_contains g (job f) q)
  | StoreKeys.KPointer _ h | StoreKeys.KReverse h _ =>
      negb (GcState.known_live_hash_contains g (job f) h)
  | StoreKeys.KInbox e _ => Base32.epoch_ltb e (epoch f)
  | StoreKeys.KSeq q => below_floor (peer_floor f) q
  | StoreKeys.KFile _ => stale_deletion (peer_floor f) v
  | StoreKeys.KDevice _ | StoreKeys.KIx => false
  end.

(** Keys the store writes, with block sequence numbers it allocates. *)
Definition stored_key (k : StoreKeys.Key) : Prop :=
  StoreKeys.key_ok k /\ forall q, k = StoreKeys.KData q -> StoreKeys.MIN_BLOCK_SEQ <= q.

(** The parsers on a stored key, in the order the filter tries them. *)
Lemma filter_parsers k :
  StoreKeys.key_ok k ->
  starts_with StoreKeys.BLOCK_DATA_PREFIX (StoreKeys.encode_key k) =
    match k with StoreKeys.KData _ => true | _ => false end /\
  StoreKeys.parse_block_pointer_key (StoreKeys.encode_key k) =
    match k with StoreKeys.KPointer _ h => Some h | _ => None end /\
  StoreKeys.parse_block_reverse_key (StoreKeys.encode_key k) =
    match k with StoreKeys.KReverse h n => Some (h, n) | _ => None end /\
  StoreKeys.parse_inbox_key (StoreKeys.encode_key k) =
    match k with StoreKeys.KInbox e n => Some (e, n) | _ => None end /\
  StoreKeys.parse_seq_key (StoreKeys.encode_key k) =
    match k with StoreKeys.KSeq q => Some q | _ => None end /\
  StoreKeys.parse_file_key (StoreKeys.encode_key k) =
    match k with StoreKeys.KFile n => Some n | _ => None end.
Proof.
  intros Hk. split_and!.
  - destruct k; try (by apply StoreKeys.starts_with_data_other). apply starts_with_app.
  - destruct k; try (by apply StoreKeys.parse_block_pointer_key_other).
    by apply StoreKeys.parse_block_pointer_key_ptr.
  - destruct k; try (by apply StoreKeys.parse_block_reverse_key_other).
    destruct Hk. by apply StoreKeys.parse_block_reverse_key_rev.
  - destruct k; try (by apply StoreKeys.parse_inbox_key_other).
    destruct Hk. by apply StoreKeys.parse_inbox_key_inbox.
  - destruct k; try (by apply StoreKeys.parse_seq_key_other). by apply StoreKeys.parse_seq_key_seq.
  - destruct k; try (by apply StoreKeys.parse_file_key_other). by apply StoreKeys.parse_file_key_file.
Qed.

Lemma filter_decides (g : GC) (f : GcFilter) k v :
  stored_key k ->
  exists f', filter g f (mkRow (StoreKeys.encode_key k) v) =
    (f', Ok (if garbage g f k v then prune_decision f else Keep)).
Proof.
  intros [Hk Hq]. destruct (filter_parsers k Hk) as (E1 & E2 & E3 & E4 & E5 & E6).
  unfold filter. cbn [row_key row_value on_stats job epoch peer_floor]. rewrite E1, E2, E3, E4, E5, E6.
  destruct k; cbn [garbage]; try (by eexists).
  - destruct (stale_deletion _ _); by eexists.
  - destruct (below_floor _ _); by eexists.
  - destruct (GcState.known_live_hash_contains g (job f) hash); by eexists.
  - cbn [StoreKeys.encode_key]. rewrite StoreKeys.parse_block_data_seq_key_data by done.
    destruct (Z.ltb_spec seq StoreKeys.MIN_BLOCK_SEQ); [specialize (Hq seq eq_refl); lia|].
    destruct (GcState.known_live_seq_contains g (job f) seq); by eexists.
  - destruct (GcState.known_live_hash_contains g (job f) hash); by eexists.
  - destruct (Base32.epoch_ltb epoch0 (epoch f)); by eexists.
Qed.

(** ** The live sets only grow *)

Definition grows (j : Z) (g g' : GC) : Prop :=
  (forall h, GcState.known_live_hash_contains g j h = true ->
             GcState.known_live_hash_contains g' j h = true) /\
  (forall q, GcState.known_live_seq_contains g j q = true ->
             GcState.known_live_seq_contains g' j q = true).

#[export] Instance grows_preorder j : PreOrder (grows j).
Proof. split; [by split|]. intros a b c [H1 H2] [H3 H4]. split; auto. Qed.

Context `{!BloomLaws bytes HF} `{!BloomLaws Z SF}.

Lemma record_block_write_grows j h q (g : GC) : grows j g (GcState.record_block_write h q g).
Proof. split; intros; [by apply GcState.record_hash_mono|by apply GcState.record_seq_mono]. Qed.

Lemma insert_hash_spec j h (g : GC) :
  grows j g (insert_hash j h g) /\ GcState.known_live_hash_contains (insert_hash j h g) j h = true.
Proof.
  unfold grows, GcState.known_live_hash_contains, GcState.known_live_seq_contains, insert_hash.
  cbn [GcState.jobs]. rewrite lookup_alter_eq. destruct (GcState.jobs g !! j) as [js|]; [|done].
  cbn. split; [split|]; [intros; by apply bf_contains_mono|done|apply bf_contains_insert].
Qed.

Lemma insert_seq_spec j q (g : GC) :
  grows j g (insert_seq j q g) /\ GcState.known_live_seq_contains (insert_seq j q g) j q = true.
Proof.
  unfold grows, GcState.known_live_hash_contains, GcState.known_live_seq_contains, insert_seq.
  cbn [GcState.jobs]. rewrite lookup_alter_eq. destruct (GcState.jobs g !! j) as [js|]; [|done].
  cbn. split; [split|]; [done|intros; by apply bf_contains_mono|apply bf_contains_insert].
Qed.

(** The block is protected by the job's live sets. *)
Definition live (j : Z) (g : GC) (b : storage.BlockInfo) : Prop :=
  forall q, storage.blockseq b = Some q ->
    length (storage.hash b) = StoreKeys.HASH_LEN /\ StoreKeys.MIN_BLOCK_SEQ <= q /\
    GcState.known_live_hash_contains g j (storage.hash b) = true /\
    GcState.known_live_seq_contains g j q = true.

Lemma live_grows j g g' b : grows j g g' -> live j g b -> live j g' b.
Proof. intros [H1 H2] Hl q Hq. destruct (Hl q Hq) as (? & ? & ? & ?). auto. Qed.

End Decisions.

(** ** Building a filter *)

Section Build.
Context {Db : Type} `{!SlateDb Db} `{!SlateDbLaws Db} {SC : StoreCodecs}.
Context {HF SF : Type} `{!Bloom bytes HF} `{!Bloom Z SF} `{!BloomLaws bytes HF} `{!BloomLaws Z SF}.
Context {Snap : Type} `{!SnapshotDb Db Snap} `{!SnapshotLaws Db Snap}.
Abbreviation FS := (FolderStore Db HF SF).

(** [s'] is [s] after indexing for job [j]. *)
Definition indexed (j : Z) (s s' : FS) : Prop := cts s' = cts s /\ grows j (gc s) (gc s').

#[export] Instance indexed_preorder j : PreOrder (indexed j).
Proof.
  split; [by split|]. intros a b c [E1 G1] [E2 G2]. split; [congruence|by etrans].
Qed.

Lemma wp_on_gc (u : GcState.CompactionState HF SF -> GcState.CompactionState HF SF)
  (Q : FS -> result CompactionFilterError unit -> Prop) (s : FS) :
  Q (mkStore (db s) (u (gc s)) (blockseq s)) (Ok tt) -> wp (on_gc u) Q s.
Proof. done. Qed.

Lemma wp_index_blocks (j : Z) (bs : list storage.BlockInfo) (s : FS) :
  wp (index_blocks j bs) (fun s' r => indexed j s s' /\
    (r = Ok tt -> Forall (live j (gc s')) bs)) s.
Proof.
  revert s. induction bs as [|b bs IH]; intros s; cbn [index_blocks]; [by apply wp_ret|].
  assert (forall s1, indexed j s s1 -> live j (gc s1) b ->
    wp (index_blocks j bs) (fun s' r => indexed j s s' /\ (r = Ok tt -> Forall (live j (gc s')) (b :: bs))) s1)
    as Hrest.
  { intros s1 H1 Hb. eapply wp_mono; [|apply IH]. intros s' r [H2 Hr]. split; [by etrans|].
    intros Hok. constructor; [|auto]. eapply live_grows; [apply H2|done]. }
  apply wp_bind. destruct (storage.blockseq b) as [q|] eqn:Eq.
  2: { apply wp_ret, Hrest; [done|]. intros q Hq. congruence. }
  destruct (Nat.eqb_spec (length (storage.hash b)) StoreKeys.HASH_LEN) as [Hlen|]; cbn [negb].
  2: by apply wp_err.
  destruct (insert_hash_spec j (storage.hash b) (gc s)) as [G1 K1].
  apply wp_bind, wp_on_gc, wp_bind, wp_lift. unfold StoreKeys.validate_block_seq.
  destruct (Z.ltb_spec q StoreKeys.MIN_BLOCK_SEQ); cbn [map_err].
  { split; [|done]. by split. }
  destruct (insert_seq_spec j q (insert_hash j (storage.hash b) (gc s))) as [G2 K2].
  apply wp_on_gc. cbn [db gc blockseq]. apply Hrest.
  - split; [done|]. cbn [gc]. by etrans.
  - intros q' Hq'. assert (q' = q) as -> by congruence. cbn [gc].
    split; [done|]. split; [lia|]. split; [by apply G2|done].
Qed.

(** What indexing rows establishes. *)
Definition rows_live (j : Z) (extract : bytes -> option (option storage.FileInfo))
  (items : list (bytes * bytes)) (s s' : FS) (r : result CompactionFilterError unit) : Prop :=
  indexed j s s' /\
  (r = Ok tt -> forall k v fi, (k, v) ∈ items -> extract v = Some (Some fi) ->
     Forall (live j (gc s')) (storage.blocks fi)).

Lemma wp_index_rows (j : Z) (extract : bytes -> option (option storage.FileInfo))
  (items : list (bytes * bytes)) (s : FS) :
  wp (index_rows j extract items) (rows_live j extract items s) s.
Proof.
  revert s. induction items as [|[k0 v0] items IH]; intros s; cbn [index_rows].
  { apply wp_ret. split; [done|]. by intros _ k v fi ?%not_elem_of_nil. }
  apply wp_bind, wp_lift. cbn [snd]. destruct (extract v0) as [ofi|] eqn:Ex; cbn [ok_or]; [|done].
  apply wp_bind.
  assert (forall s1, indexed j s s1 ->
    (forall fi, ofi = Some fi -> Forall (live j (gc s1)) (storage.blocks fi)) ->
    wp (index_rows j extract items) (rows_live j extract ((k0, v0) :: items) s) s1) as Hrest.
  { intros s1 H1 Hfi. eapply wp_mono; [|apply IH]. intros s' r [H2 Hr].
    split; [by etrans|]. intros Hok k v fi [E|Hin]%elem_of_cons Hex; [|by eapply Hr].
    injection E as -> ->. rewrite Ex in Hex. injection Hex as ->.
    eapply Forall_impl; [by apply Hfi|]. intros b. apply live_grows, H2. }
  destruct ofi as [fi|]; [|by apply wp_ret, Hrest].
  eapply wp_mono; [|apply wp_index_blocks]. intros s1 r1 [H1 Hok].
  destruct r1 as [[]|e]; [|by split]. apply Hrest; [done|]. intros fi' [= <-]. auto.
Qed.

Lemma wp_index_prefix (snapshot : Snap) (prefix : bytes) (j : Z)
  (extract : bytes -> option (option storage.FileInfo)) (s : FS) :
  wp (index_blocks_under_prefix snapshot prefix j extract) (fun s' r => indexed j s s' /\
    (r = Ok tt -> forall k v fi, snap_contents snapshot !! k = Some v -> starts_with prefix k = true ->
       extract v = Some (Some fi) -> Forall (live j (gc s')) (storage.blocks fi))) s.
Proof.
  unfold index_blocks_under_prefix. apply wp_bind, wp_lift.
  destruct (snap_scan_prefix snapshot prefix) as [sc|e] eqn:Esc; cbn [map_err]; [|done].
  destruct (snap_scan_prefix_spec _ _ _ Esc) as (rest & Ent & Hrest).
  apply wp_bind. eapply wp_mono; [|apply wp_index_rows]. intros s1 r1 [H1 Hok].
  destruct r1 as [[]|e]; [|done].
  destruct (scan_error sc) as [er|] eqn:Eerr; [by apply wp_err|]. apply wp_ret. split; [done|].
  intros _ k v fi Hk Hp Hex. eapply Hok; [done| |done].
  rewrite (Hrest eq_refl), app_nil_r in Ent. rewrite <- Ent. by apply elem_of_entries.
Qed.

(** ** The floor *)

Definition floor_step (floor : option Z) (kv : bytes * bytes) : result StorageError.t (option Z) :=
  try state <- ok_or (decode (A := storage.RemoteIndexState) (snd kv))
                 (StorageError.Corruption "decode RemoteIndexState");
  Ok (Some (match floor with
            | Some f => Z.min f (storage.remote_max_sequence state)
            | None => storage.remote_max_sequence state
            end)).

Lemma floor_bound items floor0 floor :
  rfold items floor0 floor_step = Ok (Some floor) ->
  (forall f0, floor0 = Some f0 -> floor <= f0) /\
  forall k v st, (k, v) ∈ items -> decode (A := storage.RemoteIndexState) v = Some st ->
    floor <= storage.remote_max_sequence st.
Proof.
  revert floor0. induction items as [|[k0 v0] items IH]; intros floor0; cbn [rfold].
  { intros [= ->]. split; [by intros f0 [= ->]|]. by intros k v st ?%not_elem_of_nil. }
  unfold floor_step at 1. cbn [snd]. destruct (decode v0) as [st0|] eqn:E0; cbn [ok_or rbind]; [|done].
  intros Hr. destruct (IH _ Hr) as [H1 H2]. specialize (H1 _ eq_refl). split.
  - intros f0 ->. lia.
  - intros k v st [E|Hin]%elem_of_cons Hd; [|by eapply H2]. injection E as -> ->.
    assert (st0 = st) as -> by congruence. destruct floor0; lia.
Qed.

Lemma wp_compute_peer_floor (s : FS) :
  wp compute_peer_floor (fun s' r => sim s s' /\
    (forall fl, r = Ok (Some fl) -> forall k v st, cts s !! k = Some v ->
       starts_with StoreKeys.DEVICE_PREFIX k = true ->
       decode (A := storage.RemoteIndexState) v = Some st -> fl <= storage.remote_max_sequence st)) s.
Proof.
  unfold compute_peer_floor. apply wp_assoc, wp_bind. unfold wp.
  set (body := fun (floor : option Z) (kv : bytes * bytes) => _).
  destruct (scan_iterate_reads (db_scan_prefix StoreKeys.DEVICE_PREFIX)
    (starts_with StoreKeys.DEVICE_PREFIX) None body (fun a kv _ _ => floor_step a kv)
    (db_scan_prefix_scans _)) with (s := s) as [Hs Hr].
  { intros a kv. subst body. reads. }
  destruct (se_bind _ _ s) as [s1 r1]. cbn [fst snd] in *. destruct r1 as [floor|e]; [|done].
  cbn. split; [done|]. intros fl Hfl k v st Hk Hp Hd.
  destruct Hr as [Hr|[(e & items & rest & _ & _ & ?)|[_ ?]]]; [|done..].
  destruct floor as [f|]; [|done]. destruct (f =? 0); [done|]. injection Hfl as ->.
  symmetry in Hr. destruct (floor_bound _ _ _ Hr) as [_ Hb]. eapply Hb; [|done].
  by apply elem_of_entries.
Qed.

(** ** The new filter *)

(** The filter protects the blocks of the files in [c], and its floor is a lower
    bound of what the devices of [c] have seen. *)
Record protects (c : contents) (e : Base32.Epoch) (f : GcFilter) (g : GcState.CompactionState HF SF) : Prop := {
  protects_files k v fi :
    c !! k = Some v -> starts_with StoreKeys.FILE_PREFIX k = true ->
    decode v = Some (storage.mkFile (Some fi)) -> Forall (live (job f) g) (storage.blocks fi);
  protects_inbox k v fi :
    c !! k = Some v -> starts_with (StoreKeys.inbox_key e []) k = true ->
    decode v = Some (storage.mkInbox (Some fi)) -> Forall (live (job f) g) (storage.blocks fi);
  protects_floor fl k v st :
    peer_floor f = Some fl -> c !! k = Some v -> starts_with StoreKeys.DEVICE_PREFIX k = true ->
    decode v = Some st -> fl <= storage.remote_max_sequence st;
  protects_epoch : epoch f = e
}.

Lemma wp_snapshot (Q : FS -> result CompactionFilterError Snap -> Prop) (s : FS) :
  (forall s' sn, cts s' = cts s -> gc s' = gc s -> snap_contents sn = cts s -> Q s' (Ok sn)) ->
  (forall s' e, Q s' (Err e)) ->
  wp (or_creation (on_db db_snapshot)) Q s.
Proof.
  intros HOk HErr. destruct (db_snapshot_reads (db s)) as (Hc & _ & Hr).
  unfold wp, or_creation, on_db. destruct (db_snapshot (db s)) as [d [sn|e]]; cbn in *; [|apply HErr].
  apply HOk; [done|done|]. by apply Hr.
Qed.

Lemma wp_fill_filter (sup : GcFilterSupplier) (bottom : bool) (j : Z) (s : FS) :
  wp (fill_filter sup bottom j) (fun s' r =>
    forall f, r = Ok f -> job f = j /\ protects (cts s) (supplier_epoch sup) f (gc s')) s.
Proof.
  unfold fill_filter. apply wp_bind, wp_snapshot; [|done].
  intros s1 sn Ec1 _ Esn. apply wp_bind.
  eapply wp_mono; [|apply wp_index_prefix]. intros s2 r2 [[Ec2 _] H2]. destruct r2 as [[]|e]; [|done].
  apply wp_bind. eapply wp_mono; [|apply wp_index_prefix]. intros s3 r3 [[Ec3 G3] H3].
  destruct r3 as [[]|e]; [|done]. apply wp_bind. unfold wp, or_creation.
  pose proof (wp_compute_peer_floor s3) as Hfl. unfold wp in Hfl.
  destruct (compute_peer_floor s3) as [s4 [fl|e]]; cbn [fst snd map_err] in *; [|done].
  destruct Hfl as [Hsim Hfl]. intros f [= <-]. cbn [job]. split; [done|].
  rewrite Esn in H2, H3. specialize (H2 eq_refl). specialize (H3 eq_refl).
  assert (cts s3 = cts s) as Ec by congruence.
  split; cbn [job peer_floor epoch fst se_ret]; rewrite ?(sim_gc _ _ Hsim).
  - intros k v fi Hk Hp Hd. eapply (H3 k v fi); [done|done|]. unfold extract_file. by rewrite Hd.
  - intros k v fi Hk Hp Hd.
    eapply Forall_impl; [eapply (H2 k v fi); [done|done|]|intros b; by apply live_grows].
    unfold extract_inbox. by rewrite Hd.
  - intros fl' k v st -> Hk Hp Hd. eapply (Hfl fl'); [done|by rewrite Ec|done|done].
  - done.
Qed.

Lemma create_protects (eh : HF) (es : SF) (sup : GcFilterSupplier) (bottom : bool) (s s' : FS)
  (f : GcFilter) :
  create_compaction_filter eh es sup bottom s = (s', Ok f) ->
  protects (cts s) (supplier_epoch sup) f (gc s').
Proof.
  unfold create_compaction_filter. destruct (GcState.register (gc s) eh es) as [g j].
  pose proof (wp_fill_filter sup bottom j (mkStore (db s) g (blockseq s))) as H. unfold wp in H.
  destruct (fill_filter _ _ _ _) as [s1 [f1|e]]; [|done]. intros [= <- <-]. by apply H.
Qed.

(** Rows about a live block are kept. *)
Lemma live_rows_kept (g : GcState.CompactionState HF SF) (f : GcFilter) (b : storage.BlockInfo)
  (q : Z) (k : StoreKeys.Key) (val : ValueDeletable) :
  live (job f) g b -> storage.blockseq b = Some q -> StoreKeys.key_ok k ->
  (k = StoreKeys.KData q \/ (exists d, k = StoreKeys.KPointer d (storage.hash b)) \/
   exists n, k = StoreKeys.KReverse (storage.hash b) n) ->
  snd (filter g f (mkRow (StoreKeys.encode_key k) val)) = Ok Keep.
Proof.
  intros Hl Hq Hk Hcase. destruct (Hl q Hq) as (_ & Hmin & Hh & Hs).
  destruct (filter_decides g f k val) as [f' ->].
  { split; [done|]. intros q' ->. destruct Hcase as [[= ->]|[[d ?]|[n ?]]]; [done|discriminate..]. }
  cbn [snd]. destruct Hcase as [->|[[d ->]|[n ->]]]; cbn [garbage]; by rewrite ?Hh, ?Hs.
Qed.

(** ** Properties *)

(** C6: what a compaction keeps. After a filter was created, on the contents of
    the database at that time, and whatever blocks were recorded since, every
    row that a committed file needs survives: the data of each of its stored
    blocks, the pointers to it in any directory and the reverse references to
    it. The same holds for files being received in the root of the folder. *)
Theorem gc_keeps_referenced_blocks (eh : HF) (es : SF) (sup : GcFilterSupplier) (bottom : bool)
  (s s' : FS) (f f' : GcFilter) (g : GcState.CompactionState HF SF)
  (name v : bytes) (fi : storage.FileInfo) (b : storage.BlockInfo) (q : Z)
  (k : StoreKeys.Key) (val : ValueDeletable)
  (Hcreate : create_compaction_filter eh es sup bottom s = (s', Ok f))
  (Hlater : grows (job f) (gc s') g) (Hf' : job f' = job f)
  (Hfile : (cts s !! StoreKeys.file_key name = Some v /\
            decode v = Some (storage.mkFile (Some fi))) \/
           (StoreKeys.name_ok name /\ StoreKeys.dirname name = [] /\
            cts s !! StoreKeys.inbox_key (supplier_epoch sup) name = Some v /\
            decode v = Some (storage.mkInbox (Some fi))))
  (Hb : b ∈ storage.blocks fi) (Hq : storage.blockseq b = Some q)
  (Hk : StoreKeys.key_ok k)
  (Hrow : k = StoreKeys.KData q \/ (exists d, k = StoreKeys.KPointer d (storage.hash b)) \/
          exists n, k = StoreKeys.KReverse (storage.hash b) n) :
  snd (filter g f' (mkRow (StoreKeys.encode_key k) val)) = Ok Keep.
Proof.
  pose proof (create_protects _ _ _ _ _ _ _ Hcreate) as Hp.
  eapply live_rows_kept; [|exact Hq|exact Hk|exact Hrow]. rewrite Hf'.
  eapply live_grows; [exact Hlater|].
  assert (Forall (live (job f) (gc s')) (storage.blocks fi)) as Hall.
  { destruct Hfile as [[Hv Hd]|(Hn & Hdir & Hv & Hd)].
    - eapply protects_files; [exact Hp|exact Hv| |exact Hd].
      rewrite StoreKeys.file_key_path. apply starts_with_app.
    - eapply protects_inbox; [exact Hp|exact Hv| |exact Hd].
      by apply StoreKeys.inbox_prefix_root_iff. }
  rewrite Forall_forall in Hall. by apply Hall.
Qed.

(** Which deletions are forgotten. When the filter prunes the entry of a
    file, the entry is a deletion and every device known when the filter was
    created has acknowledged a sequence number above it. *)
Theorem gc_forgets_seen_deletions (eh : HF) (es : SF) (sup : GcFilterSupplier) (bottom : bool)
  (s s' : FS) (f f' : GcFilter) (g : GcState.CompactionState HF SF)
  (name : bytes) (val : ValueDeletable)
  (Hcreate : create_compaction_filter eh es sup bottom s = (s', Ok f))
  (Hf' : peer_floor f' = peer_floor f)
  (Hname : StoreKeys.name_ok name)
  (Hpruned : snd (filter g f' (mkRow (StoreKeys.file_key name) val)) <> Ok Keep) :
  exists b fi, val = Value b /\ decode b = Some (storage.mkFile (Some fi)) /\
    storage.deleted fi = true /\
    forall k v st, cts s !! k = Some v -> starts_with StoreKeys.DEVICE_PREFIX k = true ->
      decode v = Some st -> storage.sequence fi < storage.remote_max_sequence st.
Proof.
  pose proof (create_protects _ _ _ _ _ _ _ Hcreate) as Hp.
  destruct (filter_decides g f' (StoreKeys.KFile name) val) as [f1 E];
    [split; [exact Hname|discriminate]|].
  change (StoreKeys.encode_key (StoreKeys.KFile name)) with (StoreKeys.file_key name) in E.
  rewrite E in Hpruned. cbn [snd garbage] in Hpruned. rewrite Hf' in Hpruned.
  destruct (stale_deletion (peer_floor f) val) eqn:Es; [|done]. unfold stale_deletion in Es.
  destruct (peer_floor f) as [fl|] eqn:Efl; [|done]. destruct val as [b| |]; [|done..].
  destruct (decode b) as [[[fi|]]|] eqn:Ed; cbn in Es; [|done..].
  apply andb_true_iff in Es as [Hdel Hlt]. exists b, fi. do 3 (split; [done|]).
  intros k v st Hk Hpre Hst. pose proof (protects_floor _ _ _ _ Hp _ _ _ _ Efl Hk Hpre Hst). lia.
Qed.

End Build.

Section DecisionsProperties.
Context {SC : StoreCodecs} {HF SF : Type} `{!Bloom bytes HF} `{!Bloom Z SF}.

(** The decision for every row. On each class of key the store writes the
    filter prunes exactly the garbage: block data and references outside the
    live sets, inbox entries of older epochs, sequence entries and deletions
    below the floor; index metadata and devices are never pruned. Pruning drops
    the row in the last sorted run and leaves a tombstone elsewhere, and a
    block data key that does not parse is an error. *)
Theorem filter_decisions (g : GcState.CompactionState HF SF) (f : GcFilter) :
  (forall k v, stored_key k ->
     snd (filter g f (mkRow (StoreKeys.encode_key k) v)) =
     Ok (if garbage g f k v
         then (if is_bottom f then Drop else Modify Tombstone) else Keep)) /\
  (forall key v, starts_with StoreKeys.BLOCK_DATA_PREFIX key = true ->
     StoreKeys.parse_block_data_seq_key key = None ->
     exists m, snd (filter g f (mkRow key v)) = Err (FilterError m)).
Proof.
  split.
  - intros k v Hk. by destruct (filter_decides g f k v Hk) as [f' ->].
  - intros key v H1 H2. unfold filter. cbn [row_key]. rewrite H1, H2. by eexists.
Qed.

(** Every branch of the filter ends in one of three ways. *)
Lemma filter_shape (g : GcState.CompactionState HF SF) (f : GcFilter) (row : RowEntry) :
  let f1 := on_stats f (Stats.record_seen (row_key row) row) in
  exists c, c <> Stats.C_kept /\
    (filter g f row = prune f1 (row_key row) c \/ filter g f row = keep f1 c \/
     exists e, filter g f row = (f1, Err e)).
Proof.
  intros f1. unfold filter. fold f1.
  repeat case_match; first
    [ eexists; split; [|left; reflexivity]; discriminate
    | eexists; split; [|right; left; reflexivity]; discriminate
    | exists Stats.C_blocks_kept; split; [discriminate|right; right; by eexists] ].
Qed.

(** The statistics account for every row. Each row that the filter decides
    is counted as seen under its two-byte prefix and either as kept, or as
    dropped under that prefix; the counters of the other prefixes stay. *)
Theorem filter_counts (g : GcState.CompactionState HF SF) (f f' : GcFilter) (row : RowEntry)
  (d : CompactionFilterDecision) (Hrun : filter g f row = (f', Ok d)) :
  let p := Stats.prefix_for (row_key row) in
  let e := Stats.prefix_entry (stats f) p in
  let e' := Stats.prefix_entry (stats f') p in
  Stats.seen e' = wrap_u64 (Stats.seen e + 1) /\
  ((d = Keep /\ Stats.kept (stats f') = wrap_u64 (Stats.kept (stats f) + 1) /\
    Stats.dropped e' = Stats.dropped e) \/
   (d = prune_decision f /\ Stats.kept (stats f') = Stats.kept (stats f) /\
    Stats.dropped e' = wrap_u64 (Stats.dropped e + 1))) /\
  (forall p', p' <> p -> Stats.prefix_entry (stats f') p' = Stats.prefix_entry (stats f) p').
Proof.
  intros p e e'. subst e e' p.
  destruct (filter_shape g f row) as (c & Hc & [E|[E|[er E]]]); rewrite E in Hrun; [..|discriminate];
    injection Hrun as <- <-;
    cbn [stats on_stats];
    destruct (Stats.seen_record_seen (Stats.prefix_entry (stats f) (Stats.prefix_for (row_key row))) row)
      as [Hseen Hdrop];
    repeat (rewrite Stats.prefix_entry_dropped || rewrite Stats.prefix_entry_bump
            || rewrite Stats.prefix_entry_seen); cbv zeta; rewrite !decide_True by done.
  - cbn [Stats.seen Stats.dropped]. split; [done|]. split.
    + right. split; [done|]. split; [|by rewrite Hdrop].
      change (Stats.kept (Stats.record_dropped ?k ?s)) with (Stats.kept s).
      rewrite Stats.kept_bump. by destruct c.
    + intros p' Hp'. by rewrite Stats.prefix_entry_dropped, Stats.prefix_entry_bump,
        Stats.prefix_entry_seen, !decide_False.
  - split; [done|]. split.
    + left. split; [done|]. split; [|done]. rewrite !Stats.kept_bump. by destruct c.
    + intros p' Hp'. by rewrite !Stats.prefix_entry_bump, Stats.prefix_entry_seen, decide_False.
Qed.

End DecisionsProperties.

(** ** The scheduler *)

Lemma list_min_elem l x : list_min l = Some x -> x ∈ l.
Proof.
  destruct l as [|y l]; cbn; [done|]. intros [= <-]. revert y.
  induction l as [|z l IH]; intros y; cbn; [apply list_elem_of_here|].
  specialize (IH (Z.min y z)). rewrite !elem_of_cons in *.
  destruct IH as [->|?]; [|by auto]. destruct (Z.min_spec y z) as [[_ ->]|[_ ->]]; auto.
Qed.

Lemma list_max_elem l x : list_max l = Some x -> x ∈ l.
Proof.
  destruct l as [|y l]; cbn; [done|]. intros [= <-]. revert y.
  induction l as [|z l IH]; intros y; cbn; [apply list_elem_of_here|].
  specialize (IH (Z.max y z)). rewrite !elem_of_cons in *.
  destruct IH as [->|?]; [|by auto]. destruct (Z.max_spec y z) as [[_ ->]|[_ ->]]; auto.
Qed.

Lemma fold_max_ub l y x : x ∈ y :: l -> x <= fold_left Z.max l y.
Proof.
  revert x y. induction l as [|z l IH]; intros x y; cbn.
  { by intros ->%list_elem_of_singleton. }
  rewrite !elem_of_cons. intros [->|[->|Hx]].
  - etrans; [|apply (IH (Z.max y z)), list_elem_of_here]. lia.
  - etrans; [|apply (IH (Z.max y z)), list_elem_of_here]. lia.
  - apply IH. by apply list_elem_of_further.
Qed.

(** The next id is above all ids in use, short of saturation. *)
Lemma next_free_sr_id_above taken id :
  (forall x, x ∈ taken -> x < U32_MAX) -> id ∈ taken -> id < next_free_sr_id taken.
Proof.
  intros Hmax Hid. unfold next_free_sr_id, list_max, saturating_add_u32.
  destruct taken as [|y l]; [by apply not_elem_of_nil in Hid|].
  pose proof (fold_max_ub l y id Hid). specialize (Hmax id Hid). lia.
Qed.

(** The specs a segment list gives, from the first free id on. *)
Lemma propose_segments_spec (act : list bytes) (segs : list Segment) (next : Z) (sp : CompactionSpec) :
  sp ∈ propose_segments act segs next ->
  exists seg n, seg ∈ segs /\ wants_compaction act seg = true /\ sp = merge_all seg n.
Proof.
  revert next. induction segs as [|seg segs IH]; intros next; cbn [propose_segments].
  { by intros ?%not_elem_of_nil. }
  destruct (wants_compaction act seg) eqn:Ew.
  - intros [->|Hin]%elem_of_cons.
    + exists seg, next. split; [apply list_elem_of_here|done].
    + apply IH in Hin as (seg' & n & ? & ?). exists seg', n. split; [by apply list_elem_of_further|done].
  - intros (seg' & n & ? & ?)%IH. exists seg', n. split; [by apply list_elem_of_further|done].
Qed.

Lemma propose_segments_complete (act : list bytes) (segs : list Segment) (next : Z) (seg : Segment) :
  seg ∈ segs -> wants_compaction act seg = true ->
  exists n, merge_all seg n ∈ propose_segments act segs next.
Proof.
  revert next. induction segs as [|seg' segs IH]; intros next; cbn [propose_segments].
  { by intros ?%not_elem_of_nil. }
  intros [->|Hin]%elem_of_cons Hw.
  - rewrite Hw. exists next. apply list_elem_of_here.
  - destruct (wants_compaction act seg'); [|by apply IH].
    edestruct IH as [n Hn]; [done|done|]. exists n. apply list_elem_of_further. exact Hn.
Qed.

(** Their destinations differ: each is a run of its own segment or a new id. *)
Lemma propose_segments_nodup (act : list bytes) (segs : list Segment) (next : Z) :
  NoDup (flat_map seg_compacted segs) ->
  (forall id, id ∈ flat_map seg_compacted segs -> id < next) ->
  next + Z.of_nat (length segs) <= U32_MAX ->
  NoDup (destinations (propose_segments act segs next)) /\
  forall d, d ∈ destinations (propose_segments act segs next) ->
    next <= d \/ d ∈ flat_map seg_compacted segs.
Proof.
  revert next. induction segs as [|seg segs IH]; intros next Hnd Hlt Hroom.
  { split; [constructor|]. by intros d ?%not_elem_of_nil. }
  cbn [flat_map propose_segments length] in *.
  apply NoDup_app in Hnd as (_ & Hdis & Hnd).
  assert (forall next', next <= next' -> next' + Z.of_nat (length segs) <= U32_MAX ->
    NoDup (destinations (propose_segments act segs next')) /\
    forall d, d ∈ destinations (propose_segments act segs next') ->
      next' <= d \/ d ∈ flat_map seg_compacted segs) as Hrec.
  { intros next' Hle Hr. apply IH; [done| |done]. intros id Hid. specialize (Hlt id). set_solver by lia. }
  destruct (wants_compaction act seg).
  2: { destruct (Hrec next ltac:(lia) ltac:(lia)) as [Hnd' Hd]. split; [done|].
       intros d [?|?]%Hd; [by left|right]. set_solver. }
  unfold saturating_add_u32. cbn [destinations omap list_omap merge_all spec_destination].
  destruct (seg_compacted seg) as [|id ids] eqn:Ec; cbn [list_min default].
  - rewrite Z.min_l by lia. destruct (Hrec (next + 1) ltac:(lia) ltac:(lia)) as [Hnd' Hd]. split.
    + constructor; [|exact Hnd']. intros [?|Hin]%Hd; [lia|]. specialize (Hlt next). set_solver by lia.
    + intros d [->|[?|?]%Hd]%elem_of_cons; [left; lia|left; lia|right; set_solver].
  - destruct (Hrec next ltac:(lia) ltac:(lia)) as [Hnd' Hd].
    assert (fold_left Z.min ids id ∈ id :: ids) as Hmin by by apply list_min_elem.
    split.
    + constructor; [|exact Hnd']. intros [Hle|Hin]%Hd.
      * specialize (Hlt (fold_left Z.min ids id)). rewrite elem_of_app in Hlt. specialize (Hlt (or_introl Hmin)).
        unfold Datatypes.id in Hle. lia.
      * by apply (Hdis _ Hmin).
    + intros d [->|[?|?]%Hd]%elem_of_cons; [right|by left|right]; rewrite elem_of_app; auto.
Qed.

(** All destinations together. *)
Lemma destinations_nodup (state : CompactorStateView) (act : list bytes) (tiered : list CompactionSpec) :
  NoDup (flat_map seg_compacted (view_segments state)) -> NoDup (destinations tiered) ->
  (forall d, d ∈ destinations tiered -> d ∉ flat_map seg_compacted (view_segments state)) ->
  (forall x, x ∈ taken_ids state tiered -> x + 1 + Z.of_nat (length (view_segments state)) <= U32_MAX) ->
  Z.of_nat (length (view_segments state)) <= U32_MAX ->
  NoDup (destinations (tiered ++ propose_segments act (view_segments state)
                                   (next_free_sr_id (taken_ids state tiered)))).
Proof.
  intros Hnd Htn Hdis Hroom Hlen. set (next := next_free_sr_id (taken_ids state tiered)).
  assert (forall id, id ∈ taken_ids state tiered -> id < next) as Habove.
  { intros id Hid. apply next_free_sr_id_above; [|done]. intros x Hx. specialize (Hroom x Hx). lia. }
  assert (next + Z.of_nat (length (view_segments state)) <= U32_MAX) as Hnext.
  { subst next. unfold next_free_sr_id. destruct (list_max _) as [m|] eqn:Em; [|lia].
    assert (m ∈ taken_ids state tiered) as Hm by by apply list_max_elem.
    specialize (Hroom m Hm). unfold saturating_add_u32. lia. }
  destruct (propose_segments_nodup act (view_segments state) next Hnd) as [Hnd' Hd]; [|done|].
  { intros id Hid. apply Habove. unfold taken_ids. rewrite !elem_of_app. auto. }
  unfold destinations in *. rewrite omap_app. apply NoDup_app. split; [done|]. split; [|done].
  intros d Hdt [Hle|Hin]%Hd.
  - assert (d < next); [|lia]. apply Habove. unfold taken_ids. rewrite !elem_of_app. auto.
  - by apply (Hdis d Hdt).
Qed.

(** The plans of the scheduler. Nothing is proposed before the store is
    open or once the database closes. Otherwise the proposals are those of the
    size-tiered scheduler for the block segment, and one for each idle metadata
    segment with at least four L0 tables or several sorted runs, which merges
    everything the segment has; and no two proposals share a destination, as
    long as the run ids of the manifest are distinct and far enough from the
    largest [u32]. *)
Theorem scheduler_plan (size_tiered : CompactorStateView -> list CompactionSpec)
  (state : CompactorStateView) :
  propose None size_tiered state = [] /\ propose (Some true) size_tiered state = [] /\
  (let specs := propose (Some false) size_tiered state in
   let act := map spec_segment (active_specs state) in
   let tiered := retain_block_segment_specs (size_tiered state) in
   (forall sp, sp ∈ specs ->
      (spec_segment sp = StoreKeys.BLOCK_SEGMENT_PREFIX /\ sp ∈ size_tiered state) \/
      exists seg n, seg ∈ view_segments state /\ wants_compaction act seg = true /\
        sp = merge_all seg n) /\
   (forall sp, sp ∈ size_tiered state -> spec_segment sp = StoreKeys.BLOCK_SEGMENT_PREFIX ->
      sp ∈ specs) /\
   (forall seg, seg ∈ view_segments state -> wants_compaction act seg = true ->
      exists n, merge_all seg n ∈ specs) /\
   (NoDup (flat_map seg_compacted (view_segments state)) -> NoDup (destinations tiered) ->
    (forall d, d ∈ destinations tiered -> d ∉ flat_map seg_compacted (view_segments state)) ->
    (forall x, x ∈ taken_ids state tiered ->
       x + 1 + Z.of_nat (length (view_segments state)) <= U32_MAX) ->
    Z.of_nat (length (view_segments state)) <= U32_MAX ->
    NoDup (destinations specs))).
Proof.
  split; [done|]. split; [done|]. cbn [propose]. cbv zeta.
  set (tiered := retain_block_segment_specs (size_tiered state)).
  assert (forall sp, sp ∈ tiered <-> sp ∈ size_tiered state /\
    spec_segment sp = StoreKeys.BLOCK_SEGMENT_PREFIX) as Htier.
  { intros sp. subst tiered. unfold retain_block_segment_specs.
    rewrite !list_elem_of_In, List.filter_In, bool_decide_eq_true. done. }
  split; [|split; [|split]].
  - intros sp [[? ?]%Htier|Hin]%elem_of_app; [by left|right]. by eapply propose_segments_spec.
  - intros sp ? ?. apply elem_of_app. left. by apply Htier.
  - intros seg Hin Hw.
    destruct (propose_segments_complete (map spec_segment (active_specs state)) _
      (next_free_sr_id (taken_ids state tiered)) seg Hin Hw) as [n Hn].
    exists n. apply elem_of_app. by right.
  - intros Hnd Htn Hdis Hroom Hlen. apply destinations_nodup; [done|done|done|done|done].
Qed.

Lemma scheduler_plan_witness :
  let seg := mkSegment (lit "m") [10; 11; 12; 13] [4; 7] in
  let state := mkView [] [mkSegment (lit "b") [20] [9]; seg] [] in
  exists n, merge_all seg n ∈ propose (Some false) (fun _ => []) state.
Proof.
  intros seg state. apply (proj2 (proj2 (scheduler_plan (fun _ => []) state))).
  - apply list_elem_of_further, list_elem_of_here.
  - vm_compute. reflexivity.
Defined.

(** ** A compaction of the in-memory store *)

#[export] Instance MapDb_Snapshot : SnapshotDb MapDb contents := {
  db_snapshot := map_op (fun m => (m, m));
  snap_scan_prefix sn p := Ok (mkScan (entries (starts_with p) sn) None);
  snap_contents sn := sn
}.

#[export] Instance MapDb_SnapshotLaws : SnapshotLaws MapDb contents.
Proof.
  split.
  - by apply map_op_reads.
  - intros sn p sc [= <-]. exists []. by rewrite app_nil_r.
Qed.

Abbreviation TStore := (FolderStore MapDb StoreTape.HFilter StoreTape.SFilter).

#[local] Existing Instance StoreTape.codecs.

(** The rows a compaction of everything leaves: those the filter keeps. *)
Definition survives (g : GcState.CompactionState StoreTape.HFilter StoreTape.SFilter) (f : GcFilter)
  (kv : bytes * bytes) : bool :=
  match snd (filter g f (mkRow (fst kv) (Value (snd kv)))) with
  | Ok Keep => true
  | _ => false
  end.

Definition compact (sup : GcFilterSupplier) (s : TStore) : TStore :=
  match create_compaction_filter [] [] sup true s with
  | (s', Ok f) =>
      mkStore (mkMapDb (list_to_map (List.filter (survives (gc s') f) (map_to_list (mdata (db s')))))
                (fuse (db s')))
        (GcState.unregister (gc s') (job f)) (blockseq s')
  | (s', Err _) => s'
  end.

Definition epoch5 : Base32.Epoch := Base32.mkEpoch 5 (lit "00000005").
Definition supplier5 : GcFilterSupplier := mkSupplier (lit "folder") epoch5.
Definition big_hash : bytes := repeat 3 32.
Definition big_data : bytes := repeat 0 4096.
Definition big_block : bep.BlockInfo := bep.mkBlockInfo big_hash 0 4096.

(** Receive the only block of a file, compact, then complete the file. *)
Definition received (name : bytes) : TStore :=
  fst (store_block (Some epoch5) name big_hash big_data
    (fst (stage_file epoch5 (StoreTape.sample name 1 [big_block]) StoreTape.empty_store))).

Definition completed (name : bytes) : TStore * result StorageError.t (option bep.FileInfo) :=
  complete_file epoch5 name (Some (bep.mkVector [bep.mkCounter 1 1])) (compact supplier5 (received name)).


(** ** Witnesses *)

Definition filter_of (r : TStore * result CompactionFilterError GcFilter) : GcFilter :=
  match snd r with
  | Ok f => f
  | Err _ => mkFilter [] 0 epoch5 None true Stats.FilterStats_default
  end.

(** A committed file with one stored block. *)
Definition keep_store : TStore := fst (completed (lit "a")).
Definition keep_run : TStore * result CompactionFilterError GcFilter :=
  create_compaction_filter [] [] supplier5 true keep_store.
Definition keep_value : bytes := default [] (cts keep_store !! StoreKeys.file_key (lit "a")).
Definition keep_file : storage.FileInfo :=
  match decode keep_value with
  | Some (storage.mkFile (Some fi)) => fi
  | _ => ProtoConv.file_to_storage (StoreTape.sample [] 0 [])
  end.

Lemma gc_keeps_referenced_blocks_witness :
  snd (filter (gc (fst keep_run)) (filter_of keep_run)
        (mkRow (StoreKeys.encode_key (StoreKeys.KData 1024)) (Value big_data))) = Ok Keep.
Proof.
  apply (gc_keeps_referenced_blocks (Snap := contents) [] [] supplier5 true keep_store (fst keep_run)
    (filter_of keep_run) (filter_of keep_run) (gc (fst keep_run)) (lit "a") keep_value keep_file
    (storage.mkBlockInfo big_hash 0 4096 (Some 1024) None) 1024).
  - vm_compute. reflexivity.
  - reflexivity.
  - reflexivity.
  - left. split; vm_compute; reflexivity.
  - replace (storage.blocks keep_file) with [storage.mkBlockInfo big_hash 0 4096 (Some 1024) None]
      by (vm_compute; reflexivity). apply list_elem_of_here.
  - reflexivity.
  - split; [discriminate|reflexivity].
  - left. reflexivity.
Defined.

Lemma filter_counts_witness :
  Stats.seen (Stats.prefix_entry (stats (fst (filter (gc (fst keep_run)) (filter_of keep_run)
    (mkRow (StoreKeys.encode_key (StoreKeys.KData 1024)) (Value big_data))))) (lit "bd")) = 1.
Proof.
  refine (eq_trans (proj1 (filter_counts (gc (fst keep_run)) (filter_of keep_run) _
    (mkRow (StoreKeys.encode_key (StoreKeys.KData 1024)) (Value big_data)) Keep _)) _);
    vm_compute; reflexivity.
Defined.

(** A deletion that the only device has seen. *)
Definition deletion : bep.FileInfo :=
  bep.mkFileInfo (lit "old") 0 0 0 (Some (bep.mkVector [bep.mkCounter 1 1])) 0 [] [] [] [] []
    0 0 0 0 None 0 [] 0 0 true false false.
Definition deleted_store : TStore :=
  fst (put_remote_state (repeat 9 32) (storage.mkRemoteIndexState 7 10)
    (fst (put_file deletion StoreTape.empty_store))).
Definition deleted_run : TStore * result CompactionFilterError GcFilter :=
  create_compaction_filter [] [] supplier5 true deleted_store.
Definition deleted_row : ValueDeletable :=
  Value (default [] (cts deleted_store !! StoreKeys.file_key (lit "old"))).

Lemma gc_forgets_seen_deletions_witness :
  exists b fi, deleted_row = Value b /\ decode b = Some (storage.mkFile (Some fi)) /\
    storage.deleted fi = true /\
    forall k v st, cts deleted_store !! k = Some v -> starts_with StoreKeys.DEVICE_PREFIX k = true ->
      decode v = Some st -> storage.sequence fi < storage.remote_max_sequence st.
Proof.
  apply (gc_forgets_seen_deletions (Snap := contents) [] [] supplier5 true deleted_store (fst deleted_run)
    (filter_of deleted_run) (filter_of deleted_run) (gc (fst deleted_run)) (lit "old")).
  - vm_compute. reflexivity.
  - reflexivity.
  - split; vm_compute; reflexivity.
  - vm_compute. discriminate.
Defined.

End CompactionSafety.
