(* ===== verification/StoreSlot.v ===== *)
(** The slot through which the compactor gets its store ([StoreSlot] of
    [bepository-storage/src/compaction.rs]): a cell that is written once and the
    waiters for it. Jobs of the compactor call [wait] before the store is opened;
    [set] publishes it. The steps of the callers interleave.

    tokio's [Notify] wakes, on [notify_waiters], the futures that were enabled
    before. *)

From Stdlib Require Import ZArith Lia.
From stdpp Require Import base gmap relations.
From S2P Require Import Prelude.

Module StoreSlot.

Section Slot.
Context {Store : Type}.

(** A caller of [wait]: before its future is enabled, before it looks at the cell,
    awaiting the future, or done. *)
Inductive Waiter :=
| Looping
| Enabled (woken : bool)
| Awaiting (woken : bool)
| Returned (store : Store).

(** [notifying] counts the callers of [set] between their two operations. *)
Record Slot := mkSlot { cell : option Store; notifying : nat; waiters : gmap nat Waiter }.

Definition new : Slot := mkSlot None 0 ∅.

(** [OnceLock::set] keeps the first value. *)
Definition set_cell (store : Store) (s : Slot) : Slot :=
  mkSlot (match cell s with Some x => Some x | None => Some store end) (S (notifying s)) (waiters s).

Definition wake (w : Waiter) : Waiter :=
  match w with Enabled _ => Enabled true | Awaiting _ => Awaiting true | _ => w end.

Definition notify_waiters (s : Slot) : Slot := mkSlot (cell s) (pred (notifying s)) (wake <$> waiters s).

Definition try_get (s : Slot) : option Store := cell s.

(** The next step of a caller of [wait]. *)
Definition wait_step (w : nat) (s : Slot) : Slot :=
  match waiters s !! w with
  | Some Looping => mkSlot (cell s) (notifying s) (<[ w := Enabled false ]> (waiters s))
  | Some (Enabled b) =>
      mkSlot (cell s) (notifying s) (<[ w := match cell s with Some x => Returned x | None => Awaiting b end ]> (waiters s))
  | Some (Awaiting true) => mkSlot (cell s) (notifying s) (<[ w := Looping ]> (waiters s))
  | _ => s
  end.

Inductive step (s : Slot) : Slot -> Prop :=
| step_call w : waiters s !! w = None -> step s (mkSlot (cell s) (notifying s) (<[ w := Looping ]> (waiters s)))
| step_wait w : step s (wait_step w s)
| step_set store : step s (set_cell store s)
| step_notify : notifying s <> 0%nat -> step s (notify_waiters s).

(** A future that was not woken is awaited only while the cell is empty or a
    notification is still to come; who has returned has what is in the cell. *)
Definition good (s : Slot) (w : Waiter) : Prop :=
  match w with
  | Awaiting false => cell s = None \/ notifying s <> 0%nat
  | Returned x => cell s = Some x
  | _ => True
  end.
Definition inv (s : Slot) : Prop := map_Forall (fun _ => good s) (waiters s).

Lemma good_frame s s' w : (forall x, cell s = Some x -> cell s' = Some x) ->
  (cell s = None \/ notifying s <> 0%nat -> cell s' = None \/ notifying s' <> 0%nat) -> good s w -> good s' w.
Proof. intros Hc Hn. destruct w as [| |[]|]; cbn; auto. Qed.

Lemma slot_inv s s' : step s s' -> inv s -> inv s'.
Proof.
  intros Hs Hi. destruct Hs as [w Hw|w|store|Hn].
  - apply map_Forall_insert_2; [done|exact Hi].
  - unfold wait_step. destruct (waiters s !! w) as [[|b|[]|]|] eqn:Ew; try exact Hi;
      (apply map_Forall_insert_2; [|exact Hi]); [done| |done].
    cbn. destruct (cell s) eqn:Ec; cbn; [done|]. destruct b; [done|by left].
  - intros w x Hw. eapply good_frame; [| |by apply (Hi w)]; cbn; [by intros y ->|by right].
  - intros w x. cbn [notify_waiters waiters]. rewrite lookup_fmap_Some. intros (y & <- & Hy).
    specialize (Hi w y Hy). by destruct y as [| |[]|].
Qed.

Lemma reached_inv s : rtc step new s -> inv s.
Proof. apply (rtc_ind_r inv); [apply map_Forall_empty|]. intros s1 s2 _ Hs Hi. by eapply slot_inv. Qed.

(** No wakeup is lost. Whenever the store is published and [set] has returned, in
    whatever order the steps came: every caller of [wait] that has not returned
    can take a step, and its next three steps end with the store of the cell,
    which is the one that was published first. *)
Theorem no_lost_wakeup (s : Slot) (x : Store) (w : nat) (Hrun : rtc step new s)
  (Hcell : cell s = Some x) (Hset : notifying s = 0%nat) (Hw : is_Some (waiters s !! w)) :
  waiters (wait_step w (wait_step w (wait_step w s))) !! w = Some (Returned x).
Proof.
  apply reached_inv in Hrun. destruct Hw as [a Ha]. specialize (Hrun w a Ha).
  assert (forall s, cell s = Some x -> forall b, waiters s !! w = Some (Enabled b) ->
            waiters (wait_step w s) !! w = Some (Returned x)) as He.
  { intros s1 Hc b Hb. unfold wait_step. rewrite Hb, Hc. apply lookup_insert_eq. }
  assert (forall s y, waiters s !! w = Some (Returned y) -> wait_step w s = s) as Hr.
  { intros s1 y Hy. unfold wait_step. by rewrite Hy. }
  assert (forall s, waiters s !! w = Some Looping ->
            cell (wait_step w s) = cell s /\ waiters (wait_step w s) !! w = Some (Enabled false)) as Hl.
  { intros s1 H1. unfold wait_step. rewrite H1. split; [done|apply lookup_insert_eq]. }
  destruct a as [|b|[]|y]; cbn [good] in Hrun.
  - destruct (Hl s Ha) as [Hc1 H1]. pose proof (He (wait_step w s) ltac:(congruence) _ H1) as H2. by rewrite (Hr _ _ H2).
  - pose proof (He s Hcell _ Ha) as H1. by rewrite !(Hr _ _ H1).
  - set (s1 := wait_step w s). assert (cell s1 = Some x /\ waiters s1 !! w = Some Looping) as [Hc1 H1].
    { unfold s1, wait_step. rewrite Ha. split; [done|apply lookup_insert_eq]. }
    destruct (Hl s1 H1) as [Hc2 H2]. apply (He (wait_step w s1) ltac:(congruence) _ H2).
  - destruct Hrun; congruence.
  - rewrite !(Hr _ _ Ha). rewrite Ha. congruence.
Qed.

End Slot.

(** A caller that looks at the cell before the store is published is woken. *)
Example early_caller :
  let s := foldl (fun s f => f s) (mkSlot None 0 {[ 0%nat := Looping ]})
             [wait_step 0; wait_step 0; set_cell 7%nat; wait_step 0; notify_waiters; wait_step 0; wait_step 0; wait_step 0] in
  waiters s !! 0%nat = Some (Returned 7%nat).
Proof. vm_compute. reflexivity. Qed.

End StoreSlot.
