(* ===== verification/Lock.v ===== *)
(** The distributed lock of bepository-lock (lib.rs): leases kept as epoch
    files in an object store.

    Every await point of the source is one request to the store, so a method is
    a [prog]: a tree of requests that waits for each response. The same trees
    are run to completion against a store ([run]) or interleaved request by
    request ([interleave]).

    The crates the lock calls are interfaces: [ObjectPath] and the requests
    themselves (object_store), [Chrono] (chrono), [SerdeEpoch] (serde_json).
    Times are integers counting nanoseconds. *)

From Stdlib Require Import ZArith Lia.
From stdpp Require Import base gmap list sorting strings.
From S2P Require Import Prelude Base32.
Import Base32.

Local Open Scope Z_scope.
Local Open Scope bep_scope.

Module Lock.

(** ** The libraries *)

(** [object_store::Error], as far as the lock tells variants apart. *)
Inductive StoreError := NotFound | AlreadyExists | OtherError.

(** [object_store::path::Path]; [prefix_matches p q] says that [q] is listed
    under [p]. *)
Class ObjectPath (Path : Type) := {
  filename : Path -> option bytes;
  join : Path -> bytes -> Path;
  as_ref : Path -> bytes;
  prefix_matches : Path -> Path -> bool
}.

(** [chrono]: [Duration::seconds] panics out of range ([None]),
    [checked_add_signed] reports it. *)
Class Chrono := {
  duration_seconds : Z -> option Z;
  checked_add_signed : Z -> Z -> option Z;
  MAX_UTC : Z
}.

(** ** Data *)

Record EpochFile := mkEpochFile { holder : bytes; priority : Z; duration : Z }.

#[global] Instance EpochFile_eq_dec : EqDecision EpochFile.
Proof. solve_decision. Defined.

(** [serde_json] on [EpochFile]. *)
Inductive SerdeError := MalformedJson.

Class SerdeEpoch := {
  to_vec : EpochFile -> result SerdeError bytes;
  from_slice : bytes -> result SerdeError EpochFile
}.

Inductive AcquisitionStatus :=
| Owner (e : Epoch)
| Queued
| QueuedBackwardClock
| Yielded
| Failed
| NotOwner.

Inductive Error :=
| ObjectStore (e : StoreError)
| Serde (e : SerdeError)
| ClockRegression
| Cancelled
| Base32 (e : Base32Error).

Section Programs.
Context {Path : Type} `{ObjectPath Path}.

Record ObjectMeta := mkMeta { location : Path; last_modified : Z }.

Record EpochEntry := mkEntry { meta : ObjectMeta; file : EpochFile; epoch : Epoch }.

(** The [Lock] handle; the store is the environment of the program. *)
Record Lock := mkLock {
  prefix : Path;
  lock_holder : bytes;
  lock_priority : Z;
  lock_duration : Z
}.

(** [Lock::new]. *)
Definition new (prefix : Path) (holder : bytes) (priority duration : Z) : Lock :=
  mkLock prefix holder priority duration.

(** The requests, each with the type of its response. [GET] answers with the
    response object, whose body may itself fail to arrive; [NOW] is
    [Utc::now]. *)
Inductive op : Type -> Type :=
| LIST (p : Path) : op (result StoreError (list ObjectMeta))
| GET (p : Path) : op (result StoreError (result StoreError bytes))
| PUT_CREATE (p : Path) (b : bytes) : op (result StoreError unit)
| HEAD (p : Path) : op (result StoreError ObjectMeta)
| DELETE (p : Path) : op (result StoreError unit)
| NOW : op Z.

(** A program. [OutOfFuel] marks the end of the fuel that bounds the retry loop
    of [put_next_epoch]. *)
Inductive prog (A : Type) : Type :=
| Ret (a : A)
| Panic
| OutOfFuel
| Vis (R : Type) (o : op R) (k : R -> prog A).
Arguments Ret {A} a.
Arguments Panic {A}.
Arguments OutOfFuel {A}.
Arguments Vis {A} R o k.

Fixpoint pbind {A B : Type} (m : prog A) (f : A -> prog B) : prog B :=
  match m with
  | Ret a => f a
  | Panic => Panic
  | OutOfFuel => OutOfFuel
  | Vis R o k => Vis R o (fun r => pbind (k r) f)
  end.

Definition perform {R : Type} (o : op R) : prog R := Vis R o Ret.

(** [?] inside a program. *)
Definition ptry {A B : Type} (m : prog (result Error A)) (f : A -> prog (result Error B)) :
  prog (result Error B) :=
  pbind m (fun r => match r with Ok a => f a | Err e => Ret (Err e) end).

Local Notation "'bind!' x <- m ; k" := (pbind m (fun x => k))
  (at level 100, x pattern, m at next level, right associativity).
Local Notation "'try!' x <- m ; k" := (ptry m (fun x => k))
  (at level 100, x pattern, m at next level, right associativity).

(** An expression that may panic. *)
Definition or_panic {A B : Type} (o : option A) (f : A -> prog B) : prog B :=
  match o with Some a => f a | None => Panic end.

Context `{Chrono} `{SerdeEpoch}.

(** ** Epoch files *)

(** [EpochEntry::expires_at]; [None] is the panic of [ChronoDuration::seconds]. *)
Definition expires_at (e : EpochEntry) : option Z :=
  let dur_secs := if duration (file e) <=? I64_MAX then duration (file e) else I64_MAX in
  match duration_seconds dur_secs with
  | None => None
  | Some d =>
      Some (match checked_add_signed (last_modified (meta e)) d with
            | Some t => t
            | None => MAX_UTC
            end)
  end.

(** [EpochEntry::is_expired_at]. *)
Definition is_expired_at (e : EpochEntry) (t : Z) : option bool :=
  match expires_at e with
  | Some x => Some (x <=? t)
  | None => None
  end.

Definition is_owned_by (e : EpochEntry) (h : bytes) : bool :=
  bool_decide (holder (file e) = h).

(** [m.location.filename().and_then(Epoch::parse)]. *)
Definition epoch_of (m : ObjectMeta) : option Epoch :=
  match filename (location m) with
  | Some n => parse n
  | None => None
  end.

Fixpoint partition_around (metas : list ObjectMeta) (mine : Epoch) :
  list ObjectMeta * bool * list ObjectMeta :=
  match metas with
  | [] => ([], false, [])
  | m :: ms =>
      let '(lower, mine_present, higher) := partition_around ms mine in
      match epoch_of m with
      | Some e =>
          if epoch_ltb e mine then (m :: lower, mine_present, higher)
          else if val e =? val mine then (lower, true, higher)
          else (lower, mine_present, m :: higher)
      | None => (lower, mine_present, higher)
      end
  end.

(** ** Requests with their error handling *)

Definition best_effort_delete (p : Path) : prog unit :=
  bind! _ <- perform (DELETE p); Ret tt.

Definition meta_le (a b : ObjectMeta) : Prop :=
  bytes_cmp (as_ref (location a)) (as_ref (location b)) <> Gt.

#[global] Instance meta_le_dec a b : Decision (meta_le a b).
Proof. unfold meta_le. destruct (bytes_cmp _ _); (left; discriminate) || (right; congruence). Defined.

Definition is_epoch_meta (m : ObjectMeta) : bool :=
  match epoch_of m with Some _ => true | None => false end.

Definition list_epoch_metas (l : Lock) : prog (result Error (list ObjectMeta)) :=
  bind! r <- perform (LIST (prefix l));
  match r with
  | Err e => Ret (Err (ObjectStore e))
  | Ok ms => Ret (Ok (merge_sort meta_le (List.filter is_epoch_meta ms)))
  end.

Definition read_entry (m : ObjectMeta) : prog (result Error (option EpochEntry)) :=
  bind! r <- perform (GET (location m));
  match r with
  | Err NotFound => Ret (Ok None)
  | Err e => Ret (Err (ObjectStore e))
  | Ok (Err e) => Ret (Err (ObjectStore e))
  | Ok (Ok b) =>
      match from_slice b with
      | Err e => Ret (Err (Serde e))
      | Ok f =>
          match epoch_of m with
          | Some e => Ret (Ok (Some (mkEntry m f e)))
          | None => Ret (Ok None)
          end
      end
  end.

(** ** Claiming an epoch *)

(** [Iterator::max] over the epochs of a listing. *)
Definition max_epoch (acc : option Epoch) (m : ObjectMeta) : option Epoch :=
  match epoch_of m with
  | None => acc
  | Some e =>
      match acc with
      | Some a => if epoch_ltb e a then Some a else Some e
      | None => Some e
      end
  end.

Definition next_val (highest : option Epoch) : Z :=
  match highest with
  | None => 0
  | Some h => match checked_add_u64 (as_u64 h) 1 with Some v => v | None => as_u64 h end
  end.

(** The loop of [put_next_epoch]. *)
Fixpoint put_loop (fuel : nat) (l : Lock) (bytes_template : bytes) :
  prog (result Error (Epoch * Z * Path)) :=
  match fuel with
  | O => OutOfFuel
  | S fuel' =>
      try! ms <- list_epoch_metas l;
      let highest := fold_left max_epoch ms None in
      match Base32.new (next_val highest) with
      | Err e => Ret (Err (Base32 e))
      | Ok next_epoch =>
          let path := join (prefix l) (json_filename next_epoch) in
          bind! r <- perform (PUT_CREATE path bytes_template);
          match r with
          | Ok _ =>
              bind! h <- perform (HEAD path);
              match h with
              | Ok m => Ret (Ok (next_epoch, last_modified m, path))
              | Err e => bind! _ <- best_effort_delete path; Ret (Err (ObjectStore e))
              end
          | Err AlreadyExists => put_loop fuel' l bytes_template
          | Err e => Ret (Err (ObjectStore e))
          end
      end
  end.

Definition put_next_epoch (fuel : nat) (l : Lock) (content : EpochFile) :
  prog (result Error (Epoch * Z * Path)) :=
  match to_vec content with
  | Err e => Ret (Err (Serde e))
  | Ok bytes_template => put_loop fuel l bytes_template
  end.

Definition own_file (l : Lock) : EpochFile :=
  mkEpochFile (lock_holder l) (lock_priority l) (lock_duration l).

Definition claim_epoch (fuel : nat) (l : Lock) : prog (result Error (Epoch * Z * Path)) :=
  put_next_epoch fuel l (own_file l).

(** ** Deciding ownership *)

(** The loop of [current_owner] and of [first_readable_entry]. *)
Fixpoint first_readable_entry (metas : list ObjectMeta) :
  prog (result Error (option EpochEntry)) :=
  match metas with
  | [] => Ret (Ok None)
  | m :: ms =>
      try! entry <- read_entry m;
      match entry with
      | Some e => Ret (Ok (Some e))
      | None => first_readable_entry ms
      end
  end.

Definition current_owner (l : Lock) : prog (result Error (option EpochEntry)) :=
  try! metas <- list_epoch_metas l; first_readable_entry metas.

(** The loop of [scavenge_below]; [take_while] ends it at the first meta that
    is not below [mine]. *)
Fixpoint scavenge_loop (l : Lock) (mine : Epoch) (my_timestamp : Z) (metas : list ObjectMeta)
  (regression_detected : bool) : prog (result Error bool) :=
  match metas with
  | [] => Ret (Ok regression_detected)
  | m :: ms =>
      if match epoch_of m with Some e => epoch_ltb e mine | None => false end then
        try! r <- read_entry m;
        match r with
        | None => scavenge_loop l mine my_timestamp ms regression_detected
        | Some entry =>
            or_panic (is_expired_at entry my_timestamp) (fun is_expired =>
            let is_own := is_owned_by entry (lock_holder l) in
            if is_expired || is_own then
              bind! _ <- best_effort_delete (location (meta entry));
              scavenge_loop l mine my_timestamp ms regression_detected
            else
              scavenge_loop l mine my_timestamp ms
                (if my_timestamp <? last_modified (meta entry) then true
                 else regression_detected))
        end
      else Ret (Ok regression_detected)
  end.

Definition scavenge_below (l : Lock) (mine : Epoch) (my_timestamp : Z) : prog (result Error bool) :=
  try! metas <- list_epoch_metas l;
  scavenge_loop l mine my_timestamp metas false.

Definition classify_loss (l : Lock) (owner : EpochEntry) (regression_detected : bool)
  (my_path : Path) : prog AcquisitionStatus :=
  if regression_detected then Ret QueuedBackwardClock
  else if priority (file owner) <? lock_priority l then Ret Queued
  else bind! _ <- best_effort_delete my_path; Ret Failed.

Fixpoint should_yield (l : Lock) (higher : list ObjectMeta) (my_timestamp : Z) :
  prog (result Error bool) :=
  match higher with
  | [] => Ret (Ok false)
  | m :: ms =>
      try! r <- read_entry m;
      match r with
      | None => should_yield l ms my_timestamp
      | Some entry =>
          if lock_priority l <? priority (file entry) then
            or_panic (expires_at entry) (fun x =>
            if my_timestamp <? x then Ret (Ok true) else should_yield l ms my_timestamp)
          else should_yield l ms my_timestamp
      end
  end.

Definition verify_ownership (l : Lock) (my_epoch : Epoch) (my_timestamp : Z) (my_path : Path) :
  prog (result Error AcquisitionStatus) :=
  try! regression_detected <- scavenge_below l my_epoch my_timestamp;
  try! metas <- list_epoch_metas l;
  let '(lower, mine_present, higher) := partition_around metas my_epoch in
  if negb mine_present then
    bind! _ <- best_effort_delete my_path; Ret (Ok Failed)
  else
    try! owner <- first_readable_entry lower;
    match owner with
    | Some owner =>
        bind! s <- classify_loss l owner regression_detected my_path; Ret (Ok s)
    | None =>
        try! y <- should_yield l higher my_timestamp;
        if y : bool then bind! _ <- best_effort_delete my_path; Ret (Ok Yielded)
        else Ret (Ok (Owner my_epoch))
    end.

(** Steps 1 to 4 of [acquire]. *)
Definition claim_and_verify (fuel : nat) (l : Lock) : prog (result Error AcquisitionStatus) :=
  try! (my_epoch, my_timestamp, path) <- claim_epoch fuel l;
  verify_ownership l my_epoch my_timestamp path.

Definition acquire (fuel : nat) (l : Lock) : prog (result Error AcquisitionStatus) :=
  try! entry <- current_owner l;
  match entry with
  | Some entry =>
      if is_owned_by entry (lock_holder l) then claim_and_verify fuel l
      else
        bind! now <- perform NOW;
        if ((lock_priority l <=? priority (file entry))
            && (last_modified (meta entry) <=? now))%bool then
          or_panic (expires_at entry) (fun x =>
          if now <? x then Ret (Ok NotOwner) else claim_and_verify fuel l)
        else claim_and_verify fuel l
  | None => claim_and_verify fuel l
  end.

(** ** Releasing *)

(** The body of [release]; the source overlaps up to sixteen of these
    read-then-delete steps, which touch different objects. *)
Fixpoint release_loop (l : Lock) (metas : list ObjectMeta) : prog (result Error unit) :=
  match metas with
  | [] => Ret (Ok tt)
  | m :: ms =>
      try! r <- read_entry m;
      match r with
      | Some entry =>
          if is_owned_by entry (lock_holder l) then
            bind! _ <- best_effort_delete (location (meta entry)); release_loop l ms
          else release_loop l ms
      | None => release_loop l ms
      end
  end.

Definition release (l : Lock) : prog (result Error unit) :=
  try! metas <- list_epoch_metas l; release_loop l metas.

(** ** Breaking locks *)

Fixpoint break_loop (my_epoch : Epoch) (my_timestamp : Z) (my_path : Path)
  (metas : list ObjectMeta) (current_owner_found : bool) : prog (result Error unit) :=
  match metas with
  | [] => bind! _ <- best_effort_delete my_path; Ret (Ok tt)
  | m :: ms =>
      match epoch_of m with
      | None => break_loop my_epoch my_timestamp my_path ms current_owner_found
      | Some entry_epoch =>
          if val entry_epoch =? val my_epoch then
            break_loop my_epoch my_timestamp my_path ms current_owner_found
          else
            bind! r <- perform (GET (location m));
            match r with
            | Err NotFound => break_loop my_epoch my_timestamp my_path ms current_owner_found
            | Err e => bind! _ <- best_effort_delete my_path; Ret (Err (ObjectStore e))
            | Ok (Err e) => Ret (Err (ObjectStore e))
            | Ok (Ok b) =>
                match from_slice b with
                | Err _ =>
                    bind! _ <- best_effort_delete (location m);
                    break_loop my_epoch my_timestamp my_path ms current_owner_found
                | Ok f =>
                    let entry := mkEntry m f entry_epoch in
                    or_panic (is_expired_at entry my_timestamp) (fun expired =>
                    let is_active := negb expired in
                    if (negb current_owner_found && is_active)%bool then
                      break_loop my_epoch my_timestamp my_path ms true
                    else
                      bind! _ <- best_effort_delete (location (meta entry));
                      break_loop my_epoch my_timestamp my_path ms current_owner_found)
                end
            end
      end
  end.

Definition breaker_file (l : Lock) : EpochFile :=
  mkEpochFile (lock_holder l ++ lit "-breaker") 0 0.

Definition unsafe_break_locks (fuel : nat) (l : Lock) : prog (result Error unit) :=
  try! (my_epoch, my_timestamp, my_path) <- put_next_epoch fuel l (breaker_file l);
  bind! r <- list_epoch_metas l;
  match r with
  | Err e => bind! _ <- best_effort_delete my_path; Ret (Err e)
  | Ok metas => break_loop my_epoch my_timestamp my_path metas false
  end.

(** ** Running programs *)

(** How a run ends. *)
Inductive outcome (A : Type) : Type :=
| Done (a : A)
| Panicked
| Exhausted.
Arguments Done {A} a.
Arguments Panicked {A}.
Arguments Exhausted {A}.

Section Run.
Context {St : Type} (handle : forall R : Type, op R -> St -> St * R).

(** One participant alone. *)
Fixpoint run {A : Type} (p : prog A) (s : St) : St * outcome A :=
  match p with
  | Ret a => (s, Done a)
  | Panic => (s, Panicked)
  | OutOfFuel => (s, Exhausted)
  | Vis R o k => let '(s', r) := handle R o s in run (k r) s'
  end.

(** One request of a program. *)
Definition prog_step {A : Type} (p : prog A) (s : St) : prog A * St :=
  match p with
  | Vis R o k => let '(s', r) := handle R o s in (k r, s')
  | p => (p, s)
  end.

(** Two participants; each element of the schedule lets the second ([true]) or
    the first ([false]) make one request. *)
Fixpoint interleave {A B : Type} (sched : list bool) (p : prog A) (q : prog B) (s : St) :
  prog A * prog B * St :=
  match sched with
  | [] => (p, q, s)
  | false :: sched' => let '(p', s') := prog_step p s in interleave sched' p' q s'
  | true :: sched' => let '(q', s') := prog_step q s in interleave sched' p q' s'
  end.

End Run.
End Programs.

Arguments ObjectMeta Path : clear implicits.
Arguments EpochEntry Path : clear implicits.
Arguments Lock Path : clear implicits.
Arguments op Path : clear implicits.
Arguments prog Path : clear implicits.
Arguments Ret {Path A} a.
Arguments Panic {Path A}.
Arguments OutOfFuel {Path A}.
Arguments Vis {Path A} R o k.
Arguments Done {A} a.
Arguments Panicked {A}.
Arguments Exhausted {A}.

End Lock.
