(* ===== verification/LockRun.v ===== *)
(** Reasoning about lock programs: the contract of the object store, the
    weakest precondition of a program run against it, and one rule per
    request-level method of [Lock]. *)

From Stdlib Require Import ZArith Lia Sorting.Sorted.
From stdpp Require Import base gmap list sorting strings.
From S2P Require Import Prelude Base32 Lock.
Import Base32 Lock.

Local Open Scope Z_scope.

Module LockRun.

(** ** Contracts of the libraries *)

(** A path segment that needs no percent-encoding: letters, digits and dots,
    starting with a letter or a digit. *)
Definition is_alnum (c : Z) : bool :=
  in_range 48 57 c || in_range 65 90 c || in_range 97 122 c.

Definition plain (s : bytes) : bool :=
  match s with
  | [] => false
  | c :: _ => is_alnum c && forallb (fun c => is_alnum c || (c =? 46)) s
  end.

Class ObjectPathLaws (Path : Type) {OP : ObjectPath Path} : Prop := {
  filename_join p s : plain s = true -> filename (join p s) = Some s;
  as_ref_join p : exists q, forall s, plain s = true -> as_ref (join p s) = q ++ s;
  prefix_join p s : plain s = true -> prefix_matches p (join p s) = true
}.

Class SerdeEpochLaws {SE : SerdeEpoch} : Prop := {
  from_slice_to_vec f b : to_vec f = Ok b -> from_slice b = Ok f;
  to_vec_total f : exists b, to_vec f = Ok b
}.

(** [Duration::seconds] panics beyond [i64::MAX / 1000]; times after [MAX_UTC]
    cannot be represented. *)
Class ChronoLaws {CH : Chrono} : Prop := {
  duration_seconds_spec s :
    0 <= s -> duration_seconds s = if s <=? I64_MAX / 1000 then Some (s * 1000000000) else None;
  checked_add_signed_spec t d :
    0 <= d -> checked_add_signed t d = if t + d <=? MAX_UTC then Some (t + d) else None
}.

Class Store (Path St : Type) `{Countable Path} := {
  handle : forall R : Type, op Path R -> St -> St * R;
  (** what a strongly consistent reader sees *)
  objects : St -> gmap Path (bytes * Z);
  (** the clock that stamps new objects *)
  clock : St -> Z;
  (** the clock never runs backwards *)
  monotone : Prop;
  (** no request fails for another reason than the state of the objects *)
  healthy : Prop
}.

(** The metas a listing of [prefix] yields. *)
Definition lists {Path} `{Countable Path} `{ObjectPath Path}
  (p : Path) (m : gmap Path (bytes * Z)) (ms : list (ObjectMeta Path)) : Prop :=
  NoDup ms /\
  forall mt, mt ∈ ms <->
    prefix_matches p (location mt) = true /\ exists b, m !! location mt = Some (b, last_modified mt).

Class StoreLaws (Path St : Type) `{Countable Path} {OP : ObjectPath Path}
  {ST : Store Path St} : Prop := {
  handle_clock R (o : op Path R) s s' r :
    handle R o s = (s', r) -> monotone -> clock s <= clock s';
  handle_list p s s' r :
    handle _ (LIST p) s = (s', r) ->
    objects s' = objects s /\
    match r with Ok ms => lists p (objects s) ms | Err _ => ~ healthy end;
  handle_get p s s' r :
    handle _ (GET p) s = (s', r) ->
    objects s' = objects s /\
    match r with
    | Ok (Ok b) => exists t, objects s !! p = Some (b, t)
    | Err NotFound => objects s !! p = None
    | _ => ~ healthy
    end;
  handle_put p b s s' r :
    handle _ (PUT_CREATE p b) s = (s', r) ->
    (* a request reported as failed may still have been executed *)
    match r with
    | Ok _ => True
    | Err AlreadyExists => objects s' = objects s /\ objects s !! p <> None
    | Err _ => ~ healthy
    end /\
    ((objects s' = objects s /\ r <> Ok tt) \/
     exists t, objects s !! p = None /\ objects s' = <[p := (b, t)]> (objects s) /\
       (monotone -> clock s <= t <= clock s'));
  handle_head p s s' r :
    handle _ (HEAD p) s = (s', r) ->
    objects s' = objects s /\
    match r with
    | Ok mt => location mt = p /\ exists b, objects s !! p = Some (b, last_modified mt)
    | Err NotFound => objects s !! p = None
    | Err _ => ~ healthy
    end;
  handle_delete p s s' r :
    handle _ (DELETE p) s = (s', r) ->
    objects s' = delete p (objects s) \/ (objects s' = objects s /\ ~ healthy);
  handle_now s s' r :
    handle _ NOW s = (s', r) -> objects s' = objects s
}.

(** ** Weakest preconditions *)

Section Wp.
Context {Path St : Type} `{Countable Path} {ST : Store Path St}.

Definition wpp {A : Type} (p : prog Path A) (Q : St -> outcome A -> Prop) (s : St) : Prop :=
  Q (fst (run handle p s)) (snd (run handle p s)).

Lemma wpp_ret {A} (a : A) Q s : Q s (Done a) -> wpp (Ret a) Q s.
Proof. done. Qed.

Lemma wpp_vis {A} R (o : op Path R) (k : R -> prog Path A) Q s :
  (forall s' r, handle R o s = (s', r) -> wpp (k r) Q s') -> wpp (Vis R o k) Q s.
Proof.
  intros HQ. unfold wpp. cbn [run]. destruct (handle R o s) as [s' r] eqn:E. by apply HQ.
Qed.

Lemma wpp_mono {A} (p : prog Path A) (P Q : St -> outcome A -> Prop) s :
  (forall s' o, P s' o -> Q s' o) -> wpp p P s -> wpp p Q s.
Proof. unfold wpp. auto. Qed.

Lemma wpp_bind {A B} (m : prog Path A) (f : A -> prog Path B) Q s :
  wpp m (fun s' o =>
    match o with
    | Done a => wpp (f a) Q s'
    | Panicked => Q s' Panicked
    | Exhausted => Q s' Exhausted
    end) s ->
  wpp (pbind m f) Q s.
Proof.
  revert s. induction m as [a| | |R o k IH]; intros s; try done.
  unfold wpp. cbn [pbind run]. destruct (handle R o s) as [s' r]. apply IH.
Qed.

Lemma wpp_try {A B} (m : prog Path (result Error A)) (f : A -> prog Path (result Error B)) Q s :
  wpp m (fun s' o =>
    match o with
    | Done (Ok a) => wpp (f a) Q s'
    | Done (Err e) => Q s' (Done (Err e))
    | Panicked => Q s' Panicked
    | Exhausted => Q s' Exhausted
    end) s ->
  wpp (ptry m f) Q s.
Proof.
  intros HQ. apply wpp_bind. eapply wpp_mono; [|exact HQ].
  intros s' [[a|e]| |]; done.
Qed.

Lemma wpp_run {A} (p : prog Path A) Q s s' o :
  wpp p Q s -> run handle p s = (s', o) -> Q s' o.
Proof. unfold wpp. intros HQ E. by rewrite E in HQ. Qed.

Lemma wpp_eq {A} (p : prog Path A) (Q : St -> outcome A -> Prop) s s' o :
  run handle p s = (s', o) -> Q s' o -> wpp p Q s.
Proof. unfold wpp. by intros ->. Qed.

(** Time passes, or the clock is not monotone. *)
Definition elapses (s s' : St) : Prop := monotone -> clock s <= clock s'.

#[export] Instance elapses_preorder : PreOrder elapses.
Proof.
  split; [by intros s _|]. intros s1 s2 s3 T1 T2 Hm. specialize (T1 Hm). specialize (T2 Hm). lia.
Qed.

(** The state after a read-only request. *)
Definition reads (s s' : St) : Prop := objects s' = objects s /\ elapses s s'.

#[export] Instance reads_preorder : PreOrder reads.
Proof.
  split; [by split|]. intros s1 s2 s3 [E1 T1] [E2 T2].
  split; [by rewrite E2|by etrans].
Qed.

End Wp.

(** ** Rules for the methods *)

Section Rules.
Context {Path St : Type} `{Countable Path} `{OP : ObjectPath Path} {ST : Store Path St}
  `{!StoreLaws Path St} {CH : Chrono} {SE : SerdeEpoch}.

Implicit Types (l : Lock Path) (s : St) (m : gmap Path (bytes * Z)) (mt : ObjectMeta Path)
  (en : EpochEntry Path).

(** [en] is what reading one of the objects of [m] under the lock's prefix
    gives. *)
Definition entry_in l m en : Prop :=
  prefix_matches (prefix l) (location (meta en)) = true /\
  epoch_of (meta en) = Some (epoch en) /\
  exists b, m !! location (meta en) = Some (b, last_modified (meta en)) /\
    from_slice b = Ok (file en).

(** The sorted listing of the epoch files. *)
Definition listing l m (ms : list (ObjectMeta Path)) : Prop :=
  Sorted meta_le ms /\ NoDup ms /\
  forall mt, mt ∈ ms <->
    is_epoch_meta mt = true /\ prefix_matches (prefix l) (location mt) = true /\
    exists b, m !! location mt = Some (b, last_modified mt).

#[export] Instance meta_le_total : Total (@meta_le Path OP).
Proof.
  intros a b. unfold meta_le. rewrite (bytes_cmp_antisym (as_ref (location a))).
  destruct (bytes_cmp _ _); simpl; [left|left|right]; discriminate.
Qed.

Lemma wpp_list_epoch_metas l Q s :
  (forall s' ms, reads s s' -> listing l (objects s) ms -> Q s' (Done (Ok ms))) ->
  (forall s' e, reads s s' -> ~ healthy -> Q s' (Done (Err e))) ->
  wpp (list_epoch_metas l) Q s.
Proof.
  intros HOk HErr. apply wpp_bind, wpp_vis. intros s' r E.
  destruct (handle_list _ _ _ _ E) as [Eo Hr].
  assert (reads s s') as Hreads by (split; [done|intros Hm; by eapply handle_clock]).
  apply wpp_ret. destruct r as [ms|e]; [|by apply wpp_ret, HErr].
  apply wpp_ret, HOk; [done|]. destruct Hr as [Hnd Hel]. split; [|split].
  - apply Sorted_merge_sort. apply _.
  - rewrite (merge_sort_Permutation meta_le). by apply NoDup_ListNoDup, List.NoDup_filter, NoDup_ListNoDup.
  - intros mt. rewrite (merge_sort_Permutation meta_le).
    rewrite list_elem_of_In, List.filter_In, <- list_elem_of_In, Hel. tauto.
Qed.

Lemma wpp_read_entry mt Q s :
  (forall s' b f e, reads s s' -> (exists t, objects s !! location mt = Some (b, t)) ->
     from_slice b = Ok f -> epoch_of mt = Some e -> Q s' (Done (Ok (Some (mkEntry mt f e))))) ->
  (forall s', reads s s' -> (epoch_of mt = None \/ objects s !! location mt = None) ->
     Q s' (Done (Ok None))) ->
  (forall s' e, reads s s' ->
     (~ healthy \/ exists b t, objects s !! location mt = Some (b, t) /\ forall f, from_slice b <> Ok f) ->
     Q s' (Done (Err e))) ->
  wpp (read_entry mt) Q s.
Proof.
  intros HSome HNone HErr. apply wpp_bind, wpp_vis. intros s' r E.
  destruct (handle_get _ _ _ _ E) as [Eo Hr].
  assert (reads s s') as Hreads by (split; [done|intros Hm; by eapply handle_clock]).
  apply wpp_ret. destruct r as [[b|e]|e].
  - destruct Hr as [t Ht]. destruct (from_slice b) as [f|] eqn:Ef.
    + destruct (epoch_of mt) as [e|] eqn:Ee; apply wpp_ret; [by eapply HSome; eauto|].
      apply HNone; auto.
    + apply wpp_ret, HErr; [done|]. right. exists b, t. split; [done|]. intros f. by rewrite Ef.
  - apply wpp_ret, HErr; auto.
  - destruct e; apply wpp_ret; [apply HNone|apply HErr|apply HErr]; auto.
Qed.

Lemma wpp_delete {A} p (k : prog Path A) Q s :
  (forall s', elapses s s' ->
     (objects s' = delete p (objects s) \/ (objects s' = objects s /\ ~ healthy)) -> wpp k Q s') ->
  wpp (pbind (best_effort_delete p) (fun _ => k)) Q s.
Proof.
  intros HQ. apply wpp_bind, wpp_bind, wpp_vis. intros s' r E. apply wpp_ret, wpp_ret.
  apply HQ; [|by eapply handle_delete]. intros Hm. by eapply handle_clock.
Qed.

(** Reading the first entry that is still there. When the metas come from a
    listing of the same objects, nothing is skipped. *)
Lemma wpp_first_readable_entry m ms Q s :
  objects s = m ->
  (forall mt, mt ∈ ms -> is_epoch_meta mt = true /\ exists b, m !! location mt = Some (b, last_modified mt)) ->
  (forall s' mt b f e, reads s s' -> mt ∈ ms -> m !! location mt = Some (b, last_modified mt) ->
     from_slice b = Ok f -> epoch_of mt = Some e -> head ms = Some mt ->
     Q s' (Done (Ok (Some (mkEntry mt f e))))) ->
  (ms = [] -> Q s (Done (Ok None))) ->
  (forall s' e, reads s s' ->
     (~ healthy \/ exists mt b t, mt ∈ ms /\ m !! location mt = Some (b, t) /\ forall f, from_slice b <> Ok f) ->
     Q s' (Done (Err e))) ->
  wpp (first_readable_entry ms) Q s.
Proof.
  intros Em Hms HSome HNone HErr. destruct ms as [|mt ms]; [by apply wpp_ret, HNone|].
  cbn [first_readable_entry]. apply wpp_try.
  destruct (Hms mt) as [He [b0 Hb0]]; [apply list_elem_of_here|].
  apply wpp_read_entry.
  - intros s' b f e Hr [t Ht] Hf Hep. apply wpp_ret. rewrite Em in Ht.
    eapply HSome; [done|apply list_elem_of_here| |done|done|done].
    rewrite Hb0 in Ht |- *. by simplify_eq.
  - intros s' _ [Hn|Hn].
    + unfold is_epoch_meta in He. by rewrite Hn in He.
    + rewrite Em in Hn. congruence.
  - intros s' e Hr Hc. apply HErr; [done|]. destruct Hc as [?|(b & t & Ht & Hf)]; [by left|right].
    rewrite Em in Ht. exists mt, b, t. split; [apply list_elem_of_here|done].
Qed.

Lemma wpp_current_owner l Q s :
  (forall s' o, reads s s' -> (match o with Done _ => True | _ => False end) -> Q s' o) ->
  wpp (current_owner l) Q s.
Proof.
  intros HQ. apply wpp_try, wpp_list_epoch_metas; [|intros; by apply HQ].
  intros s' ms Hr [_ [_ Hl]]. eapply (wpp_first_readable_entry (objects s)).
  - apply Hr.
  - intros mt Hmt%Hl. tauto.
  - intros s'' mt b f e Hr' _ _ _ _ _. apply HQ; [by etrans|done].
  - intros _. by apply HQ.
  - intros s'' e Hr' _. apply HQ; [by etrans|done].
Qed.

End Rules.

End LockRun.
