(* ===== verification/LockSafety.v ===== *)
(** Safety of the lock: what [acquire] does to the epoch files, on every
    outcome, when it runs without interference; mutual exclusion of the leases
    over any sequence of such runs; and the interleaving that the protocol does
    not exclude. *)

From Stdlib Require Import ZArith Lia Sorting.Sorted.
From stdpp Require Import base gmap list sorting strings.
From S2P Require Import Prelude Base32 Lock LockRun.
Import Base32 Lock LockRun.

Local Open Scope Z_scope.

Module LockSafety.

(** ** Epochs of a listing *)

Lemma plain_json_filename e : 0 <= val e -> wf e -> plain (json_filename e) = true.
Proof.
  intros Hv Hwf. pose proof (wf_base32 e Hwf) as Hb.
  pose proof (length_to_base32 _ _ Hv Hb) as Hlen.
  assert (Forall (fun c => is_alnum c = true) (base32 e)) as Hal.
  { apply to_base32_Ok in Hb as [_ ->]; [|done]. apply Forall_map.
    eapply Forall_impl; [apply (digits_ok 32); lia|]. intros d Hd.
    assert (Forall (fun c => is_alnum c = true) ALPHABET) as HA
      by (apply (bool_decide_unpack _); by vm_compute).
    rewrite Forall_lookup in HA. eapply HA. by apply digit_char_lookup. }
  unfold json_filename, as_base32. destruct (base32 e) as [|c cs] eqn:Eb; [done|].
  pose proof (Forall_inv Hal) as Hc. unfold plain. cbn [app]. rewrite Hc.
  change (c :: cs ++ lit ".json") with ((c :: cs) ++ lit ".json").
  rewrite forallb_app, andb_true_l. apply andb_true_intro. split; [|reflexivity].
  apply forallb_forall. intros x Hx. rewrite Forall_forall in Hal.
  rewrite Hal; [done|]. by apply list_elem_of_In.
Qed.

Lemma max_val_u64 : MAX_VAL + 1 <= U64_MAX.
Proof. by vm_compute. Qed.

Section Epochs.
Context {Path : Type} `{OP : ObjectPath Path}.

Lemma max_epoch_spec (ms : list (ObjectMeta Path)) (acc : option Epoch) :
  match fold_left max_epoch ms acc with
  | Some h =>
      (acc = Some h \/ exists mt, mt ∈ ms /\ epoch_of mt = Some h) /\
      (forall a, acc = Some a -> val a <= val h) /\
      (forall mt e, mt ∈ ms -> epoch_of mt = Some e -> val e <= val h)
  | None => acc = None /\ forall mt, mt ∈ ms -> epoch_of mt = None
  end.
Proof.
  revert acc. induction ms as [|mt ms IH]; intros acc; cbn [fold_left].
  - destruct acc as [h|]; [|split; [done|]; by intros mt ?%not_elem_of_nil].
    split; [by left|]. split; [by intros a [= ->]|]. by intros mt e ?%not_elem_of_nil.
  - specialize (IH (max_epoch acc mt)). destruct (fold_left _ _ _) as [h|].
    + destruct IH as (Hin & Hacc & Hms). unfold max_epoch in *.
      destruct (epoch_of mt) as [e|] eqn:Ee.
      * assert (val e <= val h /\ forall a, acc = Some a -> val a <= val h) as [Heh Hah].
        { destruct acc as [a|]; [|split; [by apply Hacc|done]].
          unfold epoch_ltb in *. destruct (Z.ltb_spec (val e) (val a)) as [Hlt|Hge].
          - specialize (Hacc a eq_refl). split; [lia|]. by intros ? [= <-].
          - specialize (Hacc e eq_refl). split; [done|]. intros ? [= <-]. lia. }
        split; [|split; [done|]].
        -- destruct Hin as [Hin|(mt' & ? & ?)].
           ++ destruct acc as [a|]; [destruct (epoch_ltb e a)|]; simplify_eq;
                [by left|right|right]; (exists mt; split; [apply list_elem_of_here|done]).
           ++ right. exists mt'. split; [by apply list_elem_of_further|done].
        -- intros mt' e' [->|Hmt']%elem_of_cons He'; [by simplify_eq|by eapply Hms].
      * split; [|split; [done|]].
        -- destruct Hin as [?|(mt' & ? & ?)]; [by left|right].
           exists mt'. split; [by apply list_elem_of_further|done].
        -- intros mt' e' [->|Hmt']%elem_of_cons He'; [congruence|by eapply Hms].
    + destruct IH as [Hn Hms]. unfold max_epoch in Hn.
      destruct (epoch_of mt) eqn:Ee; [by destruct acc as [a|]; [destruct (epoch_ltb _ a)|]|].
      split; [done|]. intros mt' [->|?]%elem_of_cons; auto.
Qed.

Lemma epoch_of_bounds (mt : ObjectMeta Path) e : epoch_of mt = Some e -> wf e /\ 0 <= val e <= MAX_VAL.
Proof. unfold epoch_of. destruct (filename _); [|done]. apply parse_wf. Qed.

(** The claimed value is above every listed epoch. *)
Lemma next_val_above (ms : list (ObjectMeta Path)) mt e :
  mt ∈ ms -> epoch_of mt = Some e -> val e < next_val (fold_left max_epoch ms None).
Proof.
  intros Hmt He. pose proof (max_epoch_spec ms None) as Hs.
  destruct (fold_left max_epoch ms None) as [h|].
  - destruct Hs as (Hin & _ & Hs). specialize (Hs _ _ Hmt He).
    destruct Hin as [?|(mt' & _ & Hh%epoch_of_bounds)]; [done|].
    cbn [next_val]. unfold checked_add_u64, as_u64.
    destruct (Z.leb_spec (val h + 1) U64_MAX); [lia|]. pose proof max_val_u64. lia.
  - destruct Hs as [_ Hs]. by rewrite (Hs mt) in He.
Qed.

Lemma next_val_nonneg (ms : list (ObjectMeta Path)) : 0 <= next_val (fold_left max_epoch ms None).
Proof.
  pose proof (max_epoch_spec ms None) as Hs. destruct (fold_left max_epoch ms None) as [h|]; [|done].
  destruct Hs as ([?|(mt' & _ & Hh%epoch_of_bounds)] & _ & _); [done|].
  cbn [next_val]. unfold checked_add_u64, as_u64. destruct (_ <=? _); lia.
Qed.

Lemma next_val_overflow (ms : list (ObjectMeta Path)) er :
  Base32.new (next_val (fold_left max_epoch ms None)) = Err er ->
  exists mt e, mt ∈ ms /\ epoch_of mt = Some e /\ val e = MAX_VAL.
Proof.
  pose proof (max_epoch_spec ms None) as Hs. destruct (fold_left max_epoch ms None) as [h|].
  - destruct Hs as ([?|(mt & Hmt & Hh)] & _ & _); [done|].
    pose proof (epoch_of_bounds _ _ Hh) as [_ Hb]. cbn [next_val]. unfold checked_add_u64, as_u64.
    destruct (Z.leb_spec (val h + 1) U64_MAX); [|pose proof max_val_u64; lia].
    intros He. exists mt, h. split; [done|]. split; [done|].
    destruct (Z.le_gt_cases (val h + 1) MAX_VAL) as [Hle|]; [|lia].
    unfold Base32.new in He. by rewrite to_base32_digits in He by lia.
  - intros He. by vm_compute in He.
Qed.

Definition epoch_test (P : Z -> bool) (mt : ObjectMeta Path) : bool :=
  match epoch_of mt with Some e => P (val e) | None => false end.

Lemma epoch_test_elem (P : Z -> bool) (ms : list (ObjectMeta Path)) mt :
  mt ∈ List.filter (epoch_test P) ms <->
  mt ∈ ms /\ exists e, epoch_of mt = Some e /\ P (val e) = true.
Proof.
  rewrite !list_elem_of_In, List.filter_In. unfold epoch_test.
  destruct (epoch_of mt); naive_solver.
Qed.

(** The three parts of a listing. *)
Lemma partition_around_filter (ms : list (ObjectMeta Path)) mine :
  partition_around ms mine =
  (List.filter (epoch_test (fun v => v <? val mine)) ms,
   existsb (epoch_test (fun v => v =? val mine)) ms,
   List.filter (epoch_test (fun v => val mine <? v)) ms).
Proof.
  induction ms as [|mt ms IH]; [done|]. cbn [partition_around List.filter existsb]. rewrite IH.
  assert (forall P, epoch_test P mt =
    match epoch_of mt with Some e => P (val e) | None => false end) as Ht by done.
  rewrite !Ht. unfold epoch_ltb. destruct (epoch_of mt) as [e|]; [|done].
  destruct (Z.ltb_spec (val e) (val mine)); destruct (Z.eqb_spec (val e) (val mine));
    destruct (Z.ltb_spec (val mine) (val e)); (done || lia).
Qed.

End Epochs.

(** ** What the phases of [acquire] do *)

Section Phases.
Context {Path St : Type} `{Countable Path} `{OP : ObjectPath Path} {ST : Store Path St}
  `{!ObjectPathLaws Path} `{!StoreLaws Path St} {CH : Chrono} {SE : SerdeEpoch}.

Implicit Types (l : Lock Path) (s : St) (m : gmap Path (bytes * Z)) (mt : ObjectMeta Path)
  (en : EpochEntry Path).

(** The path [put_next_epoch] writes. *)
Definition epoch_path l (e : Epoch) : Path := join (prefix l) (json_filename e).

(** Claiming adds one file, named by an epoch above all others. *)
Record claimed l (content : EpochFile) m m' (e : Epoch) (ts : Z) : Prop := {
  claimed_wf : wf e /\ 0 <= val e;
  claimed_fresh : m !! epoch_path l e = None;
  claimed_file : exists b, to_vec content = Ok b /\ m' = <[epoch_path l e := (b, ts)]> m;
  claimed_above mt e' b :
    prefix_matches (prefix l) (location mt) = true -> epoch_of mt = Some e' ->
    m !! location mt = Some (b, last_modified mt) -> val e' < val e
}.

(** A failed claim leaves at most one new file behind. *)
Definition claim_failed m m' : Prop :=
  m' = m \/ exists p v, m !! p = None /\ m' = <[p := v]> m.

Definition stamped s (ts : Z) s' : Prop := monotone -> clock s <= ts <= clock s'.

Lemma stamped_elapses s0 s1 ts s2 s3 :
  elapses s0 s1 -> stamped s1 ts s2 -> elapses s2 s3 -> stamped s0 ts s3.
Proof. intros T1 T2 T3 Hm. specialize (T1 Hm). specialize (T2 Hm). specialize (T3 Hm). lia. Qed.

Lemma epoch_of_path l e t : wf e -> 0 <= val e -> epoch_of (mkMeta (epoch_path l e) t) = Some e.
Proof.
  intros Hwf Hv. unfold epoch_of, epoch_path. cbn [location].
  rewrite filename_join by by apply plain_json_filename.
  destruct (from_base32_encoded (val e) (base32 e) Hv (wf_base32 e Hwf)) as [_ Hp].
  unfold parse, json_filename, as_base32. rewrite Hp. unfold wf in Hwf. by rewrite Hwf.
Qed.

Lemma listed l m ms mt e b :
  listing l m ms -> prefix_matches (prefix l) (location mt) = true -> epoch_of mt = Some e ->
  m !! location mt = Some (b, last_modified mt) -> mt ∈ ms.
Proof.
  intros (_ & _ & Hl) Hp He Hb. apply Hl. unfold is_epoch_meta. rewrite He.
  split; [done|]. split; [done|by eexists].
Qed.

(** The epoch above a listing names no object. *)
Lemma next_epoch_fresh l m ms e :
  listing l m ms -> Base32.new (next_val (fold_left max_epoch ms None)) = Ok e ->
  m !! epoch_path l e = None.
Proof.
  intros Hl He. pose proof (wf_new _ _ He) as Hwf. apply new_Ok in He as [Hval _].
  pose proof (next_val_nonneg ms) as Hv.
  destruct (m !! epoch_path l e) as [[b t]|] eqn:E; [|done].
  assert (mkMeta (epoch_path l e) t ∈ ms) as Hin.
  { eapply listed; [done| |apply epoch_of_path; [done|lia]|done].
    apply prefix_join, plain_json_filename; [lia|done]. }
  pose proof (next_val_above ms _ e Hin (epoch_of_path l e t Hwf ltac:(lia))). lia.
Qed.

Lemma wpp_put_next_epoch n l content Q s :
  (forall s' e ts, claimed l content (objects s) (objects s') e ts -> stamped s ts s' ->
     Q s' (Done (Ok (e, ts, epoch_path l e)))) ->
  (forall s' er, claim_failed (objects s) (objects s') -> elapses s s' ->
     (~ healthy \/ (forall b, to_vec content <> Ok b) \/
      exists mt e b, prefix_matches (prefix l) (location mt) = true /\ epoch_of mt = Some e /\
        objects s !! location mt = Some (b, last_modified mt) /\ val e = MAX_VAL) ->
     Q s' (Done (Err er))) ->
  wpp (put_next_epoch (S n) l content) Q s.
Proof.
  intros HOk HErr. unfold put_next_epoch. destruct (to_vec content) as [b|er] eqn:Eb.
  2: { apply wpp_ret, HErr; [by left|done|]. right; left. intros b ?. congruence. }
  cbn [put_loop]. apply wpp_try, wpp_list_epoch_metas.
  2: { intros s' e [Eo T] Hh. apply HErr; [by left|done|by left]. }
  intros s1 ms [Eo1 T1] Hl.
  destruct (Base32.new _) as [e|er] eqn:Ee.
  2: { apply wpp_ret, HErr; [by left|done|]. right; right.
       destruct (next_val_overflow _ _ Ee) as (mt & e & Hmt & He & Hmax).
       apply Hl in Hmt as (_ & ? & b' & ?). by exists mt, e, b'. }
  pose proof (next_epoch_fresh _ _ _ _ Hl Ee) as Hfresh. fold (epoch_path l e).
  apply wpp_bind, wpp_vis. intros s2 r E2. apply wpp_ret.
  pose proof (handle_clock _ _ _ _ _ E2) as T2.
  destruct (handle_put _ _ _ _ _ E2) as [Hr Hput]. rewrite Eo1 in Hr, Hput.
  assert (claim_failed (objects s) (objects s2)) as Hcf.
  { destruct Hput as [[-> _]|(t & _ & -> & _)]; [by left|right]. by eexists _, _. }
  assert (elapses s s2) as T02 by (etrans; [exact T1|exact T2]).
  destruct r as [[]|[]].
  2: by apply wpp_ret, HErr; [| |left].
  2: by destruct Hr.
  2: by apply wpp_ret, HErr; [| |left].
  destruct Hput as [[_ ?]|(t & _ & Eo2 & Ht)]; [done|].
  apply wpp_bind, wpp_vis. intros s3 h E3. apply wpp_ret.
  pose proof (handle_clock _ _ _ _ _ E3) as T3.
  destruct (handle_head _ _ _ _ E3) as [Eo3 Hh]. rewrite Eo2 in Hh.
  destruct h as [mt|er].
  - destruct Hh as [_ [b' Hb']]. rewrite lookup_insert_eq in Hb'. injection Hb' as <- <-.
    apply wpp_ret, HOk; [|by eapply stamped_elapses; [exact T1|exact Ht|exact T3]].
    pose proof (wf_new _ _ Ee) as Hwf. apply new_Ok in Ee as [Ev _].
    split; [split; [done|]| done | exists b; split; [done|congruence] |].
    + rewrite Ev. apply next_val_nonneg.
    + intros mt' e' b' Hp He' Hm. rewrite Ev.
      by eapply next_val_above; [eapply listed|].
  - assert (~ healthy) as Hnh by (by destruct er; [rewrite lookup_insert_eq in Hh| |]).
    apply wpp_delete. intros s4 T4 Hd. apply wpp_ret, HErr; [|by do 2 etrans|by left].
    rewrite Eo3, Eo2 in Hd. destruct Hd as [->|[-> _]]; [left|by right; eexists _, _].
    by apply delete_insert_id.
Qed.

(** Why a file may be deleted: its content says it is the caller's own, or that
    it had expired when the caller's file was stamped. *)
Definition may_scavenge l (ts : Z) (mt : ObjectMeta Path) (f : EpochFile) (e : Epoch) : Prop :=
  holder f = lock_holder l \/
  exists x, expires_at (mkEntry mt f e) = Some x /\ x <= ts.

(** [m'] is [m] less some files below [mine] that could be scavenged. *)
Definition scavenged l (mine : Epoch) (ts : Z) m m' : Prop :=
  forall p, m' !! p = m !! p \/
    m' !! p = None /\
    exists mt b f e, location mt = p /\ m !! p = Some (b, last_modified mt) /\
      from_slice b = Ok f /\ epoch_of mt = Some e /\ val e < val mine /\
      prefix_matches (prefix l) p = true /\ may_scavenge l ts mt f e.

Lemma scavenged_refl l mine ts m : scavenged l mine ts m m.
Proof. intros p. by left. Qed.

Lemma scavenged_trans l mine ts m1 m2 m3 :
  scavenged l mine ts m1 m2 -> scavenged l mine ts m2 m3 -> scavenged l mine ts m1 m3.
Proof.
  intros S12 S23 p. destruct (S12 p) as [E12|E12], (S23 p) as [E23|E23].
  - left. congruence.
  - right. by rewrite E12 in E23.
  - right. destruct E12 as [E12 ?]. split; [congruence|done].
  - destruct E12 as [E12 ?]. right. by split; [destruct E23|].
Qed.

Lemma scavenged_delete l mine ts m mt b f e :
  m !! location mt = Some (b, last_modified mt) -> from_slice b = Ok f -> epoch_of mt = Some e ->
  val e < val mine -> prefix_matches (prefix l) (location mt) = true -> may_scavenge l ts mt f e ->
  scavenged l mine ts m (delete (location mt) m).
Proof.
  intros Hm Hf He Hlt Hp Hs p. destruct (decide (p = location mt)) as [->|Hne].
  - right. split; [apply lookup_delete_eq|]. by exists mt, b, f, e.
  - left. by apply lookup_delete_ne.
Qed.

(** The scavenging loop on metas of a listing taken at [m0]. *)
Lemma wpp_scavenge_loop l mine ts m0 ms reg Q s :
  (forall mt, mt ∈ ms -> prefix_matches (prefix l) (location mt) = true /\
     exists b, m0 !! location mt = Some (b, last_modified mt)) ->
  scavenged l mine ts m0 (objects s) ->
  (forall s' o, scavenged l mine ts m0 (objects s') -> elapses s s' -> o <> Exhausted -> Q s' o) ->
  wpp (scavenge_loop l mine ts ms reg) Q s.
Proof.
  revert reg s. induction ms as [|mt ms IH]; intros reg s Hms Hs HQ; cbn [scavenge_loop].
  { by apply wpp_ret, HQ. }
  assert (forall reg' s', scavenged l mine ts m0 (objects s') -> elapses s s' ->
    wpp (scavenge_loop l mine ts ms reg') Q s') as Hrec.
  { intros reg' s' Hs' Hel. apply IH; [|done|].
    - intros mt' Hmt'. apply Hms. by apply list_elem_of_further.
    - intros s'' o Hs'' Hel'. apply HQ; [done|by etrans]. }
  destruct (Hms mt) as [Hp [b0 Hb0]]; [apply list_elem_of_here|].
  destruct (epoch_of mt) as [e|] eqn:Ee; [|by apply wpp_ret, HQ].
  unfold epoch_ltb. destruct (Z.ltb_spec (val e) (val mine)) as [Hlt|]; [|by apply wpp_ret, HQ].
  apply wpp_try, wpp_read_entry.
  - intros s' b f e' [Eo T] [t Ht] Hf He'. simplify_eq. rewrite <- Eo in Hs.
    assert (b = b0 /\ t = last_modified mt) as [-> ->].
    { destruct (Hs (location mt)) as [E|[E _]]; rewrite Eo in E; [|congruence]. split; congruence. }
    unfold is_expired_at. destruct (expires_at _) as [x|] eqn:Ex; cbn [or_panic]; [|by apply HQ].
    assert (((x <=? ts) || is_owned_by (mkEntry mt f e) (lock_holder l))%bool = true ->
      may_scavenge l ts mt f e) as Hmay.
    { intros Ho. apply orb_true_elim in Ho as [Ho|Ho].
      - right. exists x. split; [done|lia].
      - left. unfold is_owned_by in Ho. by apply bool_decide_eq_true in Ho. }
    destruct (_ || _)%bool; [|by apply Hrec].
    apply wpp_delete. intros s2 T2 Hd. apply Hrec; [|by etrans].
    destruct Hd as [->|[-> _]]; [|done]. eapply scavenged_trans; [exact Hs|].
    eapply scavenged_delete; eauto. by rewrite Eo.
  - intros s' [Eo T] _. apply Hrec; [by rewrite Eo|done].
  - intros s' er [Eo T] _. apply HQ; [by rewrite Eo|done|done].
Qed.

Lemma wpp_scavenge_below l mine ts Q s :
  (forall s' o, scavenged l mine ts (objects s) (objects s') -> elapses s s' -> o <> Exhausted ->
     Q s' o) ->
  wpp (scavenge_below l mine ts) Q s.
Proof.
  intros HQ. apply wpp_try, wpp_list_epoch_metas.
  - intros s' ms [Eo T] (_ & _ & Hl). eapply wpp_scavenge_loop.
    + intros mt (_ & ? & ?)%Hl. done.
    + rewrite Eo. apply scavenged_refl.
    + intros s'' o Hs T' Hne. apply HQ; [done|by etrans|done].
  - intros s' er [Eo T] _. apply HQ; [rewrite Eo; apply scavenged_refl|done|done].
Qed.

Lemma wpp_should_yield l ms ts Q s :
  (forall s' o, reads s s' -> o <> Exhausted -> Q s' o) -> wpp (should_yield l ms ts) Q s.
Proof.
  revert s. induction ms as [|mt ms IH]; intros s HQ; cbn [should_yield]; [by apply wpp_ret, HQ|].
  assert (forall s', reads s s' -> wpp (should_yield l ms ts) Q s') as Hrec.
  { intros s' Hr. apply IH. intros s'' o Hr'. apply HQ. by etrans. }
  apply wpp_try, wpp_read_entry.
  - intros s' b f e Hr _ _ _. cbn [file]. destruct (_ <? _); [|by apply Hrec].
    destruct (expires_at _); cbn [or_panic]; [|by apply HQ].
    destruct (_ <? _); [by apply wpp_ret, HQ|by apply Hrec].
  - intros s' Hr _. by apply Hrec.
  - intros s' er Hr _. by apply HQ.
Qed.

(** After verification: the files below were scavenged at most, the caller's
    file is gone only when the answer is a refusal, and an owner has nothing
    below. *)
Definition verified l (mine : Epoch) (ts : Z) m (s' : St)
  (o : outcome (result Error AcquisitionStatus)) : Prop :=
  exists m2, scavenged l mine ts m m2 /\
  match o with
  | Exhausted => False
  | Done (Ok (Owner e)) =>
      e = mine /\ objects s' = m2 /\
      forall mt e' b, prefix_matches (prefix l) (location mt) = true -> epoch_of mt = Some e' ->
        m2 !! location mt = Some (b, last_modified mt) -> val mine <= val e'
  | Done (Ok _) => objects s' = m2 \/ objects s' = delete (epoch_path l mine) m2
  | _ => objects s' = m2
  end.

(** A status that is not [Owner], after a best-effort deletion of one's file. *)
Lemma wpp_give_up l mine ts m st Q s :
  scavenged l mine ts m (objects s) ->
  (forall e, st <> Owner e) ->
  (forall s' o, verified l mine ts m s' o -> elapses s s' -> Q s' o) ->
  wpp (pbind (best_effort_delete (epoch_path l mine)) (fun _ => Ret (Ok st))) Q s.
Proof.
  intros Hs Hst HQ. apply wpp_delete. intros s' T Hd. apply wpp_ret, HQ; [|done].
  exists (objects s). split; [done|].
  destruct st; try (by destruct Hd as [->|[-> _]]; auto). by destruct (Hst e).
Qed.

Lemma wpp_classify_loss l mine ts m owner reg Q s :
  scavenged l mine ts m (objects s) ->
  (forall s' o, verified l mine ts m s' o -> elapses s s' -> Q s' o) ->
  wpp (pbind (classify_loss l owner reg (epoch_path l mine)) (fun st => Ret (Ok st))) Q s.
Proof.
  intros Hs HQ. unfold classify_loss.
  destruct reg; [|destruct (_ <? _)].
  - apply wpp_ret, HQ; [|done]. exists (objects s). auto.
  - apply wpp_ret, HQ; [|done]. exists (objects s). auto.
  - by eapply (wpp_give_up l mine ts m Failed).
Qed.

Lemma wpp_verify_ownership l mine ts Q s :
  (forall s' o, verified l mine ts (objects s) s' o -> elapses s s' -> Q s' o) ->
  wpp (verify_ownership l mine ts (epoch_path l mine)) Q s.
Proof.
  intros HQ. unfold verify_ownership. apply wpp_try, wpp_scavenge_below.
  intros s1 o1 Hs1 T1 Hne1.
  destruct o1 as [[reg|er]| |]; [|by apply HQ; [exists (objects s1)|]..|done].
  apply wpp_try, wpp_list_epoch_metas.
  2: { intros s2 er [Eo2 T2] _. apply HQ; [|by etrans].
       exists (objects s1). by rewrite Eo2. }
  intros s2 ms [Eo2 T2] (Hsort & Hnd & Hl). rewrite partition_around_filter.
  assert (scavenged l mine ts (objects s) (objects s2)) as Hs2 by by rewrite Eo2.
  assert (elapses s s2) as T02 by by etrans.
  destruct (existsb _ _); cbn [negb].
  2: { eapply wpp_give_up; [done|done|]. intros s' o Hv T. apply HQ; [done|by etrans]. }
  set (lower := List.filter _ ms). set (higher := List.filter _ ms).
  apply wpp_try. eapply (wpp_first_readable_entry (objects s2)); [done|..].
  - intros mt [Hmt _]%epoch_test_elem. apply Hl in Hmt as (? & _ & ?). rewrite Eo2. done.
  - intros s3 mt b f e [Eo3 T3] _ _ _ _ _. eapply wpp_classify_loss; [by rewrite Eo3|].
    intros s' o Hv T. apply HQ; [done|]. by do 2 (etrans; [eassumption|]).
  - intros Hlow. apply wpp_try, wpp_should_yield. intros s3 o3 [Eo3 T3] Hne3.
    assert (scavenged l mine ts (objects s) (objects s3)) as Hs3 by by rewrite Eo3.
    assert (elapses s s3) as T03 by by etrans.
    destruct o3 as [[[]|er]| |]; [|..|done].
    + eapply wpp_give_up; [done|done|]. intros s' o Hv T. apply HQ; [done|by etrans].
    + apply wpp_ret, HQ; [|done]. exists (objects s3). split; [done|]. split; [done|]. split; [done|].
      intros mt e' b Hp He' Hb. apply Z.nlt_ge. intros Hlt.
      assert (mt ∈ lower) as Hin; [|rewrite Hlow in Hin; by apply not_elem_of_nil in Hin].
      apply epoch_test_elem. split; [|exists e'; split; [done|lia]].
      rewrite Eo3, Eo2 in Hb. by eapply listed.
    + apply HQ; [|done]. by exists (objects s3).
    + apply HQ; [|done]. by exists (objects s3).
  - intros s3 er [Eo3 T3] _. apply HQ; [|by etrans]. exists (objects s3). by rewrite Eo3.
Qed.

(** ** The effect of [acquire] *)

Definition foreign l en : Prop := holder (file en) <> lock_holder l.

Definition expired en (t : Z) : Prop := exists x, expires_at en = Some x /\ x <= t.

(** The file of the caller, stamped [ts], is in the store. *)
Definition own_lease l (s' : St) (e : Epoch) (ts : Z) : Prop :=
  wf e /\ 0 <= val e /\
  exists b, to_vec (own_file l) = Ok b /\ objects s' !! epoch_path l e = Some (b, ts).

Definition kept (s s' : St) en : Prop :=
  objects s' !! location (meta en) = objects s !! location (meta en).

Record acquire_effect l (s s' : St) (o : outcome (result Error AcquisitionStatus)) (ts : Z) : Prop := {
  effect_time : stamped s ts s';
  effect_clock : elapses s s';
  effect_ends : o <> Exhausted;
  effect_foreign en :
    entry_in l (objects s) en -> foreign l en -> kept s s' en \/ expired en ts;
  effect_owner e :
    o = Done (Ok (Owner e)) ->
    own_lease l s' e ts /\
    forall en, entry_in l (objects s) en -> foreign l en -> expired en ts;
  effect_error er :
    o = Done (Err er) ->
    forall en, entry_in l (objects s) en -> kept s s' en \/ expired en ts \/ exists e, own_lease l s' e ts
}.

(** Nothing was claimed and nothing changed. *)
Lemma acquire_effect_reads l s s' o :
  reads s s' -> o <> Exhausted -> (forall e, o <> Done (Ok (Owner e))) ->
  acquire_effect l s s' o (clock s).
Proof.
  intros [Eo T] Hne Hno. split; [|done|done| | |].
  - intros Hm. specialize (T Hm). lia.
  - intros en _ _. left. unfold kept. by rewrite Eo.
  - intros e He. by destruct (Hno e).
  - intros er _ en _. left. unfold kept. by rewrite Eo.
Qed.

Lemma acquire_effect_claim_failed l s s' er :
  claim_failed (objects s) (objects s') -> elapses s s' ->
  acquire_effect l s s' (Done (Err er)) (clock s).
Proof.
  intros Hcf T.
  assert (forall en, entry_in l (objects s) en -> kept s s' en) as Hk.
  { intros en (_ & _ & b & Hb & _). unfold kept. destruct Hcf as [->|(p & v & Hp & ->)]; [done|].
    apply lookup_insert_ne. congruence. }
  split; [|done|done| |done|]; [|by left; apply Hk..].
  intros Hm. specialize (T Hm). lia.
Qed.

(** The file that was claimed is not below itself, so scavenging keeps it. *)
Lemma scavenged_mine l mine ts m m' :
  wf mine -> 0 <= val mine -> scavenged l mine ts m m' ->
  m' !! epoch_path l mine = m !! epoch_path l mine.
Proof.
  intros Hwf Hv Hs. destruct (Hs (epoch_path l mine)) as [?|(_ & mt & b & f & e & Hloc & _ & _ & He & Hlt & _)];
    [done|].
  destruct mt as [p t]. cbn in Hloc. subst p. rewrite epoch_of_path in He by done.
  simplify_eq. lia.
Qed.

(** An entry that scavenging removed was the caller's own or had expired. *)
Lemma scavenged_entry l mine ts m m' en :
  scavenged l mine ts m m' -> entry_in l m en ->
  m' !! location (meta en) = m !! location (meta en) \/ ~ foreign l en \/ expired en ts.
Proof.
  intros Hs (Hp & He & b & Hb & Hf).
  destruct (Hs (location (meta en))) as [?|(_ & mt & b' & f & e & Hloc & Hb' & Hf' & He' & _ & _ & Hmay)];
    [by left|right].
  assert (mt = meta en) as ->.
  { rewrite Hb in Hb'. destruct mt, (meta en); cbn in *. congruence. }
  assert (en = mkEntry (meta en) f e) as Een.
  { destruct en as [mt0 f0 e0]; cbn in *. f_equal; congruence. }
  destruct Hmay as [Hown|(x & Hx & Hle)].
  - left. unfold foreign. rewrite Een. cbn. intros Hn. by apply Hn.
  - right. exists x. by rewrite Een.
Qed.

(** Entries of the initial state are entries after the claim, at other paths
    and below the claimed epoch. *)
Lemma claimed_entry l content m m' e ts en :
  claimed l content m m' e ts -> entry_in l m en ->
  entry_in l m' en /\ m' !! location (meta en) = m !! location (meta en) /\
  location (meta en) <> epoch_path l e /\ val (epoch en) < val e.
Proof.
  intros [_ Hfresh (b0 & _ & ->) Habove] (Hp & He & b & Hb & Hf).
  assert (location (meta en) <> epoch_path l e) as Hne by congruence.
  unfold entry_in. rewrite lookup_insert_ne by done.
  split; [by eauto 6|]. split; [done|]. split; [done|]. by eapply Habove.
Qed.

Lemma wpp_claim_and_verify n l s :
  wpp (claim_and_verify (S n) l) (fun s' o => exists ts, acquire_effect l s s' o ts) s.
Proof.
  unfold claim_and_verify. apply wpp_try, wpp_put_next_epoch.
  2: { intros s' er Hcf T _. exists (clock s). by apply acquire_effect_claim_failed. }
  intros s1 e ts Hc Hst1. pose proof (claimed_wf _ _ _ _ _ _ Hc) as [Hwf Hv].
  apply wpp_verify_ownership. intros s' o (m2 & Hs & Ho) T. exists ts.
  assert (elapses s s') as Tel.
  { intros Hm. specialize (T Hm). specialize (Hst1 Hm). lia. }
  destruct (claimed_file _ _ _ _ _ _ Hc) as (b & Hb & Em1).
  assert (m2 !! epoch_path l e = Some (b, ts)) as Hmine.
  { rewrite (scavenged_mine _ _ _ _ _ Hwf Hv Hs), Em1. apply lookup_insert_eq. }
  assert (forall en, entry_in l (objects s) en ->
    m2 !! location (meta en) = objects s !! location (meta en) \/ ~ foreign l en \/ expired en ts) as Hen.
  { intros en Hen. destruct (claimed_entry _ _ _ _ _ _ _ Hc Hen) as (Hen' & E & _).
    rewrite <- E. by eapply scavenged_entry. }
  split; [|done|by destruct o| | |].
  - eapply stamped_elapses; [reflexivity|exact Hst1|exact T].
  - intros en Hin Hfor. destruct (Hen en Hin) as [E|[?|?]]; [left|done|by right].
    destruct (claimed_entry _ _ _ _ _ _ _ Hc Hin) as (_ & _ & Hne & _).
    unfold kept. rewrite <- E.
    destruct o as [[[]|]| |]; try done; try (by destruct Ho as [->| ->]; rewrite ?lookup_delete_ne).
    + by destruct Ho as (_ & -> & _).
    + by rewrite Ho.
    + by rewrite Ho.
  - intros e' ->. destruct Ho as (-> & Eo & Hlow). split.
    + split; [done|]. split; [done|]. exists b. by rewrite Eo.
    + intros en Hin Hfor. destruct (Hen en Hin) as [E|[?|?]]; [|done..].
      destruct (claimed_entry _ _ _ _ _ _ _ Hc Hin) as (_ & _ & _ & Hlt).
      destruct Hin as (Hp & He & b' & Hb' & _). rewrite <- E in Hb'.
      specialize (Hlow _ _ _ Hp He Hb'). lia.
  - intros er -> en Hin. right; right. exists e. split; [done|]. split; [done|]. exists b. by rewrite Ho.
Qed.

Lemma acquire_effect_after_reads l s s1 s' o :
  reads s s1 -> (exists ts, acquire_effect l s1 s' o ts) -> exists ts, acquire_effect l s s' o ts.
Proof.
  intros [Eo T] [ts [E1 E2 E3 E4 E5 E6]]. exists ts. rewrite Eo in *.
  split; [|by etrans|done| |done|].
  - by eapply stamped_elapses; [exact T|exact E1|reflexivity].
  - unfold kept in *. rewrite Eo in *. done.
  - unfold kept in *. rewrite Eo in *. done.
Qed.

Lemma wpp_acquire n l s :
  wpp (acquire (S n) l) (fun s' o => exists ts, acquire_effect l s s' o ts) s.
Proof.
  unfold acquire. apply wpp_try, wpp_current_owner. intros s1 o Hr Ho.
  assert (forall s2, reads s s2 ->
    wpp (claim_and_verify (S n) l) (fun s' o => exists ts, acquire_effect l s s' o ts) s2) as Hcv.
  { intros s2 Hr2. eapply wpp_mono; [|apply wpp_claim_and_verify].
    intros s' o' He. by eapply acquire_effect_after_reads. }
  destruct o as [[[en|]|er]| |]; [|by apply Hcv|..|done|done].
  2: { exists (clock s). by apply acquire_effect_reads. }
  destruct (is_owned_by en _); [by apply Hcv|].
  apply wpp_bind, wpp_vis. intros s2 now E2. apply wpp_ret.
  assert (reads s s2) as Hr2.
  { etrans; [exact Hr|]. split; [by eapply handle_now|]. intros Hm. by eapply handle_clock. }
  destruct (_ && _)%bool; [|by apply Hcv].
  destruct (expires_at en) as [x|]; cbn [or_panic].
  - destruct (now <? x); [|by apply Hcv]. exists (clock s). by apply acquire_effect_reads.
  - exists (clock s). by apply acquire_effect_reads.
Qed.

End Phases.

End LockSafety.
