(* ===== verification/LockMem.v ===== *)
(** A concrete world for the lock: paths as lists of segments, an in-memory
    store whose clock advances by one nanosecond with every request, and
    implementations of the chrono and serde_json interfaces. They satisfy the
    contracts of [LockRun]; only witnesses and examples use them. *)

From Stdlib Require Import ZArith Lia.
From stdpp Require Import base gmap list strings.
From S2P Require Import Prelude Base32 Codec Lock LockRun.
Import Lock LockRun.

Local Open Scope Z_scope.

Module LockMem.

Abbreviation path := (list bytes).

Fixpoint join_slash (p : path) : bytes :=
  match p with
  | [] => []
  | [x] => x
  | x :: p' => x ++ SLASH :: join_slash p'
  end.

Fixpoint is_prefix (p q : path) : bool :=
  match p, q with
  | [], _ => true
  | x :: p', y :: q' => bool_decide (x = y) && is_prefix p' q'
  | _ :: _, [] => false
  end.

#[export] Instance mem_path : ObjectPath path := {|
  filename := last;
  join p s := p ++ [s];
  as_ref := join_slash;
  prefix_matches := is_prefix
|}.

Lemma join_slash_snoc p s :
  join_slash (p ++ [s]) = match p with [] => s | _ => join_slash p ++ SLASH :: s end.
Proof.
  induction p as [|x p IH]; [done|]. destruct p as [|y p]; [done|].
  change (join_slash ((x :: y :: p) ++ [s])) with (x ++ SLASH :: join_slash ((y :: p) ++ [s])).
  rewrite IH. change (join_slash (x :: y :: p)) with (x ++ SLASH :: join_slash (y :: p)).
  by rewrite <- app_assoc.
Qed.

#[export] Instance mem_path_laws : ObjectPathLaws path.
Proof.
  split.
  - intros p s _. apply last_snoc.
  - intros p. exists (match p with [] => [] | _ => join_slash p ++ [SLASH] end). intros s _.
    cbn. rewrite join_slash_snoc. destruct p; [done|]. by rewrite <- app_assoc.
  - intros p s _. cbn. induction p as [|x p IH]; [done|]. cbn.
    by rewrite bool_decide_eq_true_2.
Qed.

(** The latest time chrono represents, in nanoseconds. *)
#[export] Instance mem_chrono : Chrono := {|
  duration_seconds s := if s <=? I64_MAX / 1000 then Some (s * 1000000000) else None;
  checked_add_signed t d := if t + d <=? 8210266876799999999999 then Some (t + d) else None;
  MAX_UTC := 8210266876799999999999
|}.

#[export] Instance mem_chrono_laws : ChronoLaws.
Proof. by split. Qed.

Program Definition tape_file : Tape.tape EpochFile :=
  Tape.tmap (Tape.tpair Tape.tbytes (Tape.tpair Tape.tZ Tape.tZ))
    (fun f => (holder f, (priority f, duration f)))
    (fun '(h, (p, d)) => mkEpochFile h p d) _.
Next Obligation. by intros []. Qed.

#[export] Instance mem_serde : SerdeEpoch := {|
  to_vec f := Ok (@encode _ (Tape.codec tape_file) f);
  from_slice b :=
    match @decode _ (Tape.codec tape_file) b with Some f => Ok f | None => Err MalformedJson end
|}.

#[export] Instance mem_serde_laws : SerdeEpochLaws.
Proof.
  split; [|by eexists]. intros f b Hb. unfold to_vec, from_slice, mem_serde in *.
  replace b with (@encode _ (Tape.codec tape_file) f) by congruence.
  by rewrite (@decode_encode _ _ (Tape.codec_laws tape_file)).
Qed.

(** ** The store *)

Record mem := mkMem { mem_objects : gmap path (bytes * Z); mem_clock : Z }.

Definition metas_of (p : path) (m : gmap path (bytes * Z)) : list (ObjectMeta path) :=
  map (fun kv => mkMeta (fst kv) (snd (snd kv)))
    (List.filter (fun kv => is_prefix p (fst kv)) (map_to_list m)).

Definition mem_handle (R : Type) (o : op path R) (s : mem) : mem * R :=
  let m := mem_objects s in
  let t := mem_clock s + 1 in
  match o in op _ R return mem * R with
  | LIST p => (mkMem m t, Ok (metas_of p m))
  | GET p =>
      (mkMem m t, match m !! p with Some (b, _) => Ok (Ok b) | None => Err NotFound end)
  | PUT_CREATE p b =>
      match m !! p with
      | Some _ => (mkMem m t, Err AlreadyExists)
      | None => (mkMem (<[p := (b, t)]> m) t, Ok tt)
      end
  | HEAD p =>
      (mkMem m t, match m !! p with Some (_, t') => Ok (mkMeta p t') | None => Err NotFound end)
  | DELETE p => (mkMem (delete p m) t, match m !! p with Some _ => Ok tt | None => Err NotFound end)
  | NOW => (mkMem m t, t)
  end.

#[export] Instance mem_store : Store path mem := {|
  handle := mem_handle;
  objects := mem_objects;
  clock := mem_clock;
  monotone := True;
  healthy := True
|}.

Lemma metas_of_lists p m : lists p m (metas_of p m).
Proof.
  unfold metas_of. split.
  - apply (NoDup_fmap_2_strong (fun kv => mkMeta (fst kv) (snd (snd kv)))).
    + intros [p1 [b1 t1]] [p2 [b2 t2]] H1 H2. cbn. intros [= -> ->].
      apply list_elem_of_In, filter_In in H1 as [H1 _].
      apply list_elem_of_In, filter_In in H2 as [H2 _].
      apply list_elem_of_In, elem_of_map_to_list in H1, H2. congruence.
    + apply NoDup_ListNoDup, List.NoDup_filter, NoDup_ListNoDup, NoDup_map_to_list.
  - intros [q t]. rewrite list_elem_of_In, in_map_iff. cbn. split.
    + intros ([q' [b t']] & [= -> ->] & Hin). apply filter_In in Hin as [Hin Hp].
      apply list_elem_of_In, elem_of_map_to_list in Hin. split; [done|by exists b].
    + intros [Hp [b Hb]]. exists (q, (b, t)). split; [done|]. apply filter_In.
      split; [|done]. by apply list_elem_of_In, elem_of_map_to_list.
Qed.

#[export] Instance mem_store_laws : StoreLaws path mem.
Proof.
  split.
  - intros R o s s' r Hh _. cbn in *. destruct o; cbn in Hh; repeat case_match; simplify_eq; cbn; lia.
  - intros p s s' r [= <- <-]. split; [done|]. apply metas_of_lists.
  - intros p s s' r [= <- <-]. split; [done|]. cbn. destruct (mem_objects s !! p) as [[b t]|]; by eauto.
  - intros p b s s' r Hh. cbn in *. destruct (mem_objects s !! p) as [v|] eqn:E; simplify_eq; cbn.
    + split; [done|]. by left.
    + split; [done|]. right. exists (mem_clock s + 1). split; [done|]. split; [done|]. intros _. lia.
  - intros p s s' r [= <- <-]. split; [done|]. cbn. destruct (mem_objects s !! p) as [[b t]|]; by eauto.
  - intros p s s' r [= <- <-]. by left.
  - intros s s' r [= <- <-]. done.
Qed.

(** Two participants of one directory, with leases of five minutes. *)
Definition dir : path := [lit "lock"].
Definition alice : Lock path := new dir (lit "alice") 1 300.
Definition bob : Lock path := new dir (lit "bob") 1 300.
Definition empty_store : mem := mkMem ∅ 1000.

(** Bob took the lock at time 1000, an hour ago. *)
Definition bob_path : path := dir ++ [lit "00000005.json"].
Definition bob_bytes : bytes := @encode _ (Tape.codec tape_file) (own_file bob).
Definition stale_store : mem := mkMem {[ bob_path := (bob_bytes, 1000) ]} 3600000000000.

End LockMem.
