(* ===== verification/LockExclusion.v ===== *)
(** Leases over time: releasing, the transition system of participants that
    acquire, renew and release, and mutual exclusion in it. *)

From Stdlib Require Import ZArith Lia Sorting.Sorted.
From stdpp Require Import base gmap list sorting strings relations.
From S2P Require Import Prelude Base32 Codec Lock LockRun LockSafety LockMem.
Import Base32 Lock LockRun LockSafety.

Local Open Scope Z_scope.

Module LockExclusion.

Section Exclusion.
Context {Path St : Type} `{Countable Path} `{OP : ObjectPath Path} {ST : Store Path St}
  `{!ObjectPathLaws Path} `{!StoreLaws Path St} {CH : Chrono} `{!ChronoLaws}
  {SE : SerdeEpoch} `{!SerdeEpochLaws}.

Implicit Types (l : Lock Path) (s : St) (m : gmap Path (bytes * Z)) (mt : ObjectMeta Path)
  (en : EpochEntry Path) (P : list (Lock Path)).

(** ** Releasing *)

(** The object at [p] is an epoch file of the caller. *)
Definition own_at l m (p : Path) : Prop :=
  exists en, entry_in l m en /\ location (meta en) = p /\ ~ foreign l en.

Definition released l m m' : Prop :=
  forall p, m' !! p = m !! p \/ (m' !! p = None /\ own_at l m p).

Lemma own_is_owned l en : is_owned_by en (lock_holder l) = true <-> ~ foreign l en.
Proof.
  unfold is_owned_by, foreign. rewrite bool_decide_eq_true.
  destruct (decide (holder (file en) = lock_holder l)); tauto.
Qed.

(** Entries at one path are equal. *)
Lemma entry_in_inj l m en1 en2 :
  entry_in l m en1 -> entry_in l m en2 -> location (meta en1) = location (meta en2) -> en1 = en2.
Proof.
  destruct en1 as [[p1 t1] f1 e1], en2 as [[p2 t2] f2 e2]. unfold entry_in. cbn.
  intros (_ & He1 & b1 & Hb1 & Hf1) (_ & He2 & b2 & Hb2 & Hf2) ->.
  unfold epoch_of in *. cbn in *. simplify_eq. congruence.
Qed.

Lemma wpp_release_loop l m0 ms Q s :
  (forall mt, mt ∈ ms -> is_epoch_meta mt = true /\ prefix_matches (prefix l) (location mt) = true /\
     exists b, m0 !! location mt = Some (b, last_modified mt)) ->
  released l m0 (objects s) ->
  (forall s' o, released l m0 (objects s') -> elapses s s' ->
     (o = Done (Ok tt) -> healthy ->
      (forall p, objects s !! p = None -> objects s' !! p = None) /\
      forall mt, mt ∈ ms -> own_at l m0 (location mt) -> objects s' !! location mt = None) ->
     o <> Exhausted -> Q s' o) ->
  wpp (release_loop l ms) Q s.
Proof.
  revert s. induction ms as [|mt ms IH]; intros s Hms Hrel HQ; cbn [release_loop].
  { apply wpp_ret, HQ; [done|done| |done]. intros _ _. split; [done|]. by intros mt ?%not_elem_of_nil. }
  destruct (Hms mt) as (Hep & Hp & b0 & Hb0); [apply list_elem_of_here|].
  assert (forall s1, released l m0 (objects s1) -> elapses s s1 ->
    (healthy -> (forall p, objects s !! p = None -> objects s1 !! p = None) /\
       (own_at l m0 (location mt) -> objects s1 !! location mt = None)) ->
    wpp (release_loop l ms) Q s1) as Hrec.
  { intros s1 Hrel1 T1 Hmt1. apply IH; [intros mt' ?; apply Hms; by apply list_elem_of_further|done|].
    intros s' o Hrel' T' Hok Hne. apply HQ; [done|by etrans| |done].
    intros Ho Hh. destruct (Hok Ho Hh) as [Hn Hg]. destruct (Hmt1 Hh) as [Hn1 Hg1].
    split; [by auto|]. intros mt' [->|?]%elem_of_cons; auto. }
  apply wpp_try, wpp_read_entry.
  - intros s1 b f e [Eo T] [t Ht] Hf He.
    assert (b = b0 /\ t = last_modified mt) as [-> ->].
    { destruct (Hrel (location mt)) as [E|[E _]]; split; congruence. }
    assert (entry_in l m0 (mkEntry mt f e)) as Hin by (split; [done|]; split; [done|]; by exists b0).
    destruct (is_owned_by _ _) eqn:Eown.
    + apply own_is_owned in Eown. apply wpp_delete. cbn [meta]. intros s2 T2 Hd. rewrite Eo in Hd.
      apply Hrec; [|by etrans|].
      * destruct Hd as [->|[-> _]]; [|done]. intros p. destruct (decide (p = location mt)) as [->|].
        -- right. split; [apply lookup_delete_eq|]. by exists (mkEntry mt f e).
        -- rewrite lookup_delete_ne by done. apply Hrel.
      * intros Hh. destruct Hd as [->|[_ ?]]; [|done]. split; [|intros _; apply lookup_delete_eq].
        intros p Hpn. destruct (decide (p = location mt)) as [->|]; [apply lookup_delete_eq|].
        by rewrite lookup_delete_ne.
    + apply Hrec; [by rewrite Eo|done|]. intros _. rewrite Eo. split; [done|].
      intros (en & Hen & Hloc & Hown). apply own_is_owned in Hown.
      rewrite (entry_in_inj _ _ _ _ Hen Hin Hloc) in Hown. congruence.
  - intros s1 [Eo T] Hn. apply Hrec; [by rewrite Eo|done|]. intros _. rewrite Eo. split; [done|].
    intros _. destruct Hn as [Hn|?]; [|done]. unfold is_epoch_meta in Hep. by rewrite Hn in Hep.
  - intros s1 er [Eo T] _. apply HQ; [by rewrite Eo|done|done|done].
Qed.

Lemma wpp_release l Q s :
  (forall s' o, released l (objects s) (objects s') -> elapses s s' -> o <> Exhausted ->
     (o = Done (Ok tt) -> healthy -> forall p, own_at l (objects s) p -> objects s' !! p = None) ->
     Q s' o) ->
  wpp (release l) Q s.
Proof.
  intros HQ. apply wpp_try, wpp_list_epoch_metas.
  - intros s1 ms [Eo T] Hl. apply (wpp_release_loop l (objects s)).
    + intros mt Hmt. by apply Hl.
    + rewrite Eo. by left.
    + intros s' o Hrel T' Hok Hne. apply HQ; [done|by etrans|done|].
      intros Ho Hh p (en & Hen & <- & Hown). apply Hok; [done|done| |by exists en].
      destruct Hen as (Hp & He & b & Hb & _). by eapply listed.
  - intros s' er [Eo T] _. apply HQ; [rewrite Eo; by left|done|done|done].
Qed.

(** ** Participants over time *)

Abbreviation leases := (gmap bytes (EpochEntry Path)).

(** What a participant knows after [acquire]: a new lease, its old one after an
    error (it will retry before it expires), or none. *)
Definition leases_after l s' (o : outcome (result Error AcquisitionStatus)) (L : leases) : leases :=
  match o with
  | Done (Ok (Owner e)) =>
      match objects s' !! epoch_path l e with
      | Some (_, ts) => <[lock_holder l := mkEntry (mkMeta (epoch_path l e) ts) (own_file l) e]> L
      | None => delete (lock_holder l) L
      end
  | Done (Err _) => L
  | _ => delete (lock_holder l) L
  end.

(** Each step is one method call of one participant, run to its end, or the
    passage of time. *)
Inductive sys_step (P : list (Lock Path)) : St * leases -> St * leases -> Prop :=
| step_acquire l n s s' o L :
    l ∈ P -> run handle (acquire (S n) l) s = (s', o) ->
    sys_step P (s, L) (s', leases_after l s' o L)
| step_release l s s' o L :
    l ∈ P -> run handle (release l) s = (s', o) ->
    sys_step P (s, L) (s', delete (lock_holder l) L)
| step_wait s s' L :
    objects s' = objects s -> clock s <= clock s' -> sys_step P (s, L) (s', L).

(** Participants share a directory, and a holder name is one participant. *)
Definition participants (P : list (Lock Path)) : Prop :=
  (forall l l', l ∈ P -> l' ∈ P -> prefix l = prefix l' /\ (lock_holder l = lock_holder l' -> l = l')) /\
  (forall l, l ∈ P -> 0 <= lock_duration l).

(** [en'] expires no earlier than [en]. *)
Definition covers en' en : Prop := forall t, expired en' t -> expired en t.

Lemma expired_mono en t t' : t <= t' -> expired en t -> expired en t'.
Proof. intros Hle (x & Hx & ?). exists x. split; [done|lia]. Qed.

(** A renewed file expires no earlier than the one it replaces. *)
Lemma renewal_covers en' en :
  file en' = file en -> 0 <= duration (file en) ->
  last_modified (meta en) <= last_modified (meta en') -> covers en' en.
Proof.
  intros Ef Hd Hle t (x' & Hx' & Hle'). unfold expired, expires_at in *. rewrite Ef in Hx'.
  set (d := if duration (file en) <=? I64_MAX then duration (file en) else I64_MAX) in *.
  assert (0 <= d) as Hd0 by (subst d; destruct (_ <=? _); [done|by vm_compute]).
  rewrite duration_seconds_spec in * by done. destruct (d <=? _); [|done].
  rewrite checked_add_signed_spec in * by lia. eexists. split; [done|].
  injection Hx' as Hx'. revert Hx'.
  destruct (Z.leb_spec (last_modified (meta en') + d * 1000000000) MAX_UTC);
    destruct (Z.leb_spec (last_modified (meta en) + d * 1000000000) MAX_UTC); lia.
Qed.

(** A lease is expired or its participant still has a file that covers it. *)
Definition protected l s en : Prop :=
  expired en (clock s) \/
  exists en', entry_in l (objects s) en' /\ ~ foreign l en' /\ covers en' en.

Record inv (P : list (Lock Path)) (st : St * leases) : Prop := {
  inv_lease h en :
    st.2 !! h = Some en ->
    exists l, l ∈ P /\ lock_holder l = h /\ file en = own_file l /\
      last_modified (meta en) <= clock st.1 /\ protected l st.1 en;
  inv_exclusive h1 h2 en1 en2 :
    st.2 !! h1 = Some en1 -> st.2 !! h2 = Some en2 -> h1 <> h2 ->
    expired en1 (clock st.1) \/ expired en2 (clock st.1)
}.

Lemma entry_in_prefix l l' m en : prefix l = prefix l' -> entry_in l m en -> entry_in l' m en.
Proof. unfold entry_in. by intros ->. Qed.

Lemma entry_in_kept l s s' en :
  kept s s' en -> entry_in l (objects s) en -> entry_in l (objects s') en.
Proof. unfold kept, entry_in. by intros ->. Qed.

Lemma own_lease_entry l s e ts :
  own_lease l s e ts ->
  entry_in l (objects s) (mkEntry (mkMeta (epoch_path l e) ts) (own_file l) e).
Proof.
  intros (Hwf & Hv & b & Hb & Hs). split; [|split].
  - apply prefix_join. by apply plain_json_filename.
  - by apply epoch_of_path.
  - exists b. split; [done|]. by apply from_slice_to_vec.
Qed.

(** What a step of [l] must ensure for the leases that survive it. *)
Lemma inv_shrink P s s' (L L' : leases) :
  clock s <= clock s' -> (forall h en, L' !! h = Some en -> L !! h = Some en) ->
  (forall l h en, l ∈ P -> lock_holder l = h -> L' !! h = Some en -> file en = own_file l ->
     last_modified (meta en) <= clock s -> protected l s en -> protected l s' en) ->
  inv P (s, L) -> inv P (s', L').
Proof.
  intros Hle Hsub Hprot [Hl He]. cbn in *. split; cbn.
  - intros h en Hen. destruct (Hl h en (Hsub _ _ Hen)) as (l & ? & ? & ? & ? & ?).
    exists l. do 3 (split; [done|]). split; [lia|]. by eapply Hprot.
  - intros h1 h2 en1 en2 E1 E2 Hne.
    destruct (He _ _ _ _ (Hsub _ _ E1) (Hsub _ _ E2) Hne); [left|right]; by eapply expired_mono.
Qed.

(** A lease of another participant survives [acquire]. *)
Lemma protected_foreign P l l' s s' o ts en :
  participants P -> monotone -> l ∈ P -> l' ∈ P -> lock_holder l' <> lock_holder l ->
  acquire_effect l s s' o ts -> protected l' s en -> protected l' s' en.
Proof.
  intros [HP _] Hm Hl Hl' Hne Heff. destruct (HP l l' Hl Hl') as [Hpre _].
  pose proof (effect_time _ _ _ _ _ Heff Hm) as Ht. pose proof (effect_clock _ _ _ _ _ Heff Hm) as Hc.
  intros [Hx|(en' & Hin & Hown & Hcov)]; [left; by eapply expired_mono|].
  assert (entry_in l (objects s) en') as Hin' by by eapply entry_in_prefix.
  assert (foreign l en') as Hfor.
  { unfold foreign in *. intros E. apply Hown. rewrite E. congruence. }
  destruct (effect_foreign _ _ _ _ _ Heff en' Hin' Hfor) as [Hk|Hx].
  - right. exists en'. split; [by eapply entry_in_kept|done].
  - left. apply (expired_mono _ ts); [lia|by apply Hcov].
Qed.

(** One's own lease survives a failed renewal. *)
Lemma protected_error P l s s' er ts en :
  participants P -> monotone -> l ∈ P -> acquire_effect l s s' (Done (Err er)) ts ->
  file en = own_file l -> last_modified (meta en) <= clock s ->
  protected l s en -> protected l s' en.
Proof.
  intros [_ HP] Hm Hl Heff Hf Hlm.
  pose proof (effect_time _ _ _ _ _ Heff Hm) as Ht. pose proof (effect_clock _ _ _ _ _ Heff Hm) as Hc.
  intros [Hx|(en' & Hin & Hown & Hcov)]; [left; by eapply expired_mono|].
  destruct (effect_error _ _ _ _ _ Heff er eq_refl en' Hin) as [Hk|[Hx|[e Hlease]]].
  - right. exists en'. split; [by eapply entry_in_kept|done].
  - left. apply (expired_mono _ ts); [lia|by apply Hcov].
  - right. eexists. split; [by apply own_lease_entry|]. split; [unfold foreign; cbn; tauto|].
    apply renewal_covers; cbn; [done| |lia]. rewrite Hf. cbn. by apply HP.
Qed.

(** Becoming owner. *)
Lemma inv_owner P l s s' (e : Epoch) (ts : Z) (L : leases) :
  participants P -> monotone -> l ∈ P -> acquire_effect l s s' (Done (Ok (Owner e))) ts ->
  inv P (s, L) -> inv P (s', leases_after l s' (Done (Ok (Owner e))) L).
Proof.
  intros HP Hm Hl Heff [Hlease Hexcl]. cbn in *.
  pose proof (effect_time _ _ _ _ _ Heff Hm) as Ht. pose proof (effect_clock _ _ _ _ _ Heff Hm) as Hc.
  destruct (effect_owner _ _ _ _ _ Heff e eq_refl) as [Hown Hall].
  destruct (id Hown) as (_ & _ & b & _ & Hb). rewrite Hb.
  assert (forall h en, h <> lock_holder l -> L !! h = Some en -> expired en (clock s')) as Hothers.
  { intros h en Hne Hen. destruct (Hlease h en Hen) as (l' & Hl' & <- & _ & _ & [Hx|(en' & Hin & Ho & Hcov)]).
    - by eapply expired_mono.
    - apply (expired_mono _ ts); [lia|]. apply Hcov, Hall.
      + eapply entry_in_prefix; [|done]. by apply HP.
      + unfold foreign in *. intros E. apply Ho. rewrite E. congruence. }
  split; cbn.
  - intros h en. destruct (decide (h = lock_holder l)) as [->|Hne].
    + rewrite lookup_insert_eq. intros [= <-]. exists l. cbn. do 3 (split; [done|]).
      split; [lia|]. right. eexists. split; [by apply own_lease_entry|].
      split; [unfold foreign; cbn; tauto|]. by intros t.
    + rewrite lookup_insert_ne by done. intros Hen.
      destruct (Hlease h en Hen) as (l' & Hl' & <- & Hf & Hlm & _).
      exists l'. do 3 (split; [done|]). split; [lia|]. left. by eapply Hothers.
  - intros h1 h2 en1 en2 E1 E2 Hne. destruct (decide (h1 = lock_holder l)) as [->|Hne1].
    + right. rewrite lookup_insert_ne in E2 by done. by eapply Hothers.
    + left. rewrite lookup_insert_ne in E1 by done. by eapply Hothers.
Qed.

Lemma inv_acquire P l (n : nat) s s' (o : outcome (result Error AcquisitionStatus)) (L : leases) :
  participants P -> monotone -> l ∈ P -> run handle (acquire (S n) l) s = (s', o) ->
  inv P (s, L) -> inv P (s', leases_after l s' o L).
Proof.
  intros HP Hm Hl Hrun Hinv. destruct (wpp_run _ _ _ _ _ (wpp_acquire n l s) Hrun) as [ts Heff].
  pose proof (effect_clock _ _ _ _ _ Heff Hm) as Hc.
  assert (inv P (s', delete (lock_holder l) L)) as Hdel.
  { eapply inv_shrink; [exact Hc| | |exact Hinv].
    - intros h en [_ ?]%lookup_delete_Some. done.
    - intros l' h en Hl' <- [Hne _]%lookup_delete_Some _ _ Hp.
      eapply (protected_foreign P l l'); eauto. }
  destruct o as [[[]|er]| |]; [by eapply inv_owner|exact Hdel..| |exact Hdel|exact Hdel].
  eapply inv_shrink; [exact Hc|done| |exact Hinv].
  intros l' h en Hl' <- Hen Hf Hlm Hp. destruct (decide (lock_holder l' = lock_holder l)) as [E|Hne].
  - destruct (proj1 HP l' l Hl' Hl) as [_ Hinj]. specialize (Hinj E). subst l'. by eapply protected_error.
  - eapply (protected_foreign P l l'); eauto.
Qed.

Lemma inv_release P l s s' (o : outcome (result Error unit)) (L : leases) :
  participants P -> monotone -> l ∈ P -> run handle (release l) s = (s', o) ->
  inv P (s, L) -> inv P (s', delete (lock_holder l) L).
Proof.
  intros [HP _] Hm Hl Hrun Hinv.
  assert (released l (objects s) (objects s') /\ elapses s s') as [Hrel T].
  { refine (wpp_run _ (fun s' _ => released l (objects s) (objects s') /\ elapses s s') _ _ _ _ Hrun).
    apply wpp_release. done. }
  eapply inv_shrink; [by apply T| | |exact Hinv].
  - intros h en [_ ?]%lookup_delete_Some. done.
  - intros l' h en Hl' <- [Hne _]%lookup_delete_Some _ _ [Hx|(en' & Hin & Hown & Hcov)].
    + left. eapply expired_mono; [by apply T|done].
    + right. exists en'. split; [|done]. eapply entry_in_kept; [|done].
      destruct (Hrel (location (meta en'))) as [E|(_ & en2 & Hin2 & Hloc & Hown2)]; [done|exfalso].
      assert (entry_in l (objects s) en') as Hin' by (eapply entry_in_prefix; [by apply HP|done]).
      rewrite (entry_in_inj _ _ _ _ Hin2 Hin' Hloc) in Hown2. unfold foreign in *. 
      apply Hown2. intros E. apply Hown. rewrite E. congruence.
Qed.

Lemma inv_step P (st st' : St * leases) : participants P -> monotone -> sys_step P st st' -> inv P st -> inv P st'.
Proof.
  intros HP Hm Hstep Hinv. destruct Hstep as [l n s s' o L Hl Hrun|l s s' o L Hl Hrun|s s' L Eo Hc].
  - by eapply inv_acquire.
  - by eapply inv_release.
  - eapply inv_shrink; [exact Hc|done| |exact Hinv].
    intros l h en _ _ _ _ _ [Hx|Hp]; [left; by eapply expired_mono|right]. by rewrite Eo.
Qed.

Lemma inv_reachable P s0 (st : St * leases) :
  participants P -> monotone -> rtc (sys_step P) (s0, ∅) st -> inv P st.
Proof.
  intros HP Hm Hr. assert (inv P (s0, ∅)) as H0inv.
  { split; cbn; [intros h en|intros h1 h2 en1 en2]; by rewrite lookup_empty. }
  remember (s0, ∅) as st0 eqn:E0. clear E0. induction Hr; [done|].
  apply IHHr. by eapply inv_step.
Qed.

(** ** Properties *)

(** C11: an owner excludes the others. When a run of [acquire] returns
    [Owner(e)], the caller's epoch file is in the store, and every readable
    epoch file of another holder that was there when the run started had
    expired, relative to the store's timestamp of the caller's file. This does
    not depend on the store's clock being monotone, nor on its requests
    succeeding. *)
Theorem acquire_owner_exclusive (n : nat) (l : Lock Path) (s s' : St) (e : Epoch)
  (Hrun : run handle (acquire (S n) l) s = (s', Done (Ok (Owner e)))) :
  exists ts, own_lease l s' e ts /\
    forall en, entry_in l (objects s) en -> foreign l en -> expired en ts.
Proof.
  destruct (wpp_run _ _ _ _ _ (wpp_acquire n l s) Hrun) as [ts Heff]. exists ts.
  by apply (effect_owner _ _ _ _ _ Heff).
Qed.

(** [acquire] never breaks a lease. Whatever the outcome (a refusal, a
    store error, a panic on a malformed duration), the claim loop ends after
    one iteration, every epoch file of another holder is untouched unless it
    had expired at a time stamped by the store during the run, and after an
    error the caller's own files are untouched or replaced by a newer one, so a
    renewal that fails does not lose the lease. *)
Theorem acquire_respects_leases (n : nat) (l : Lock Path) (s s' : St)
  (o : outcome (result Error AcquisitionStatus))
  (Hrun : run handle (acquire (S n) l) s = (s', o)) :
  o <> Exhausted /\
  exists ts, (monotone -> clock s <= ts <= clock s') /\
    (forall en, entry_in l (objects s) en -> foreign l en -> kept s s' en \/ expired en ts) /\
    (forall er, o = Done (Err er) -> forall en, entry_in l (objects s) en ->
       kept s s' en \/ expired en ts \/ exists e, own_lease l s' e ts).
Proof.
  destruct (wpp_run _ _ _ _ _ (wpp_acquire n l s) Hrun) as [ts [Ht _ He Hf _ Her]].
  split; [done|]. by exists ts.
Qed.

(** C5: mutual exclusion. Start from any store and let participants (distinct
    holder names, one directory) call [acquire], to take or renew the lock, and
    [release], in any order and any number of times, each call running without
    interference, on a store that may fail any request and whose clock is
    monotone. Two participants never hold unexpired leases at once. *)
Theorem mutual_exclusion (P : list (Lock Path)) (s0 s : St) (L : leases) (h1 h2 : bytes)
  (en1 en2 : EpochEntry Path)
  (HP : participants P) (Hmono : monotone)
  (Hreach : rtc (sys_step P) (s0, ∅) (s, L))
  (Hen1 : L !! h1 = Some en1) (Hlive1 : ~ expired en1 (clock s))
  (Hen2 : L !! h2 = Some en2) (Hlive2 : ~ expired en2 (clock s)) :
  h1 = h2.
Proof.
  destruct (decide (h1 = h2)) as [|Hne]; [done|exfalso].
  destruct (inv_reachable P s0 (s, L) HP Hmono Hreach) as [_ Hexcl].
  by destruct (Hexcl h1 h2 en1 en2 Hen1 Hen2 Hne).
Qed.

(** What [release] removes. When the store answers and [release] returns
    [Ok], exactly the readable epoch files of the caller are gone: no other
    object of the store changed. *)
Theorem release_exact (l : Lock Path) (s s' : St)
  (Hhealthy : healthy) (Hrun : run handle (release l) s = (s', Done (Ok tt))) :
  forall p, (own_at l (objects s) p -> objects s' !! p = None) /\
    (~ own_at l (objects s) p -> objects s' !! p = objects s !! p).
Proof.
  assert (wpp (release l) (fun s' o => released l (objects s) (objects s') /\
    (o = Done (Ok tt) -> forall p, own_at l (objects s) p -> objects s' !! p = None)) s) as Hwp
    by (apply wpp_release; auto).
  destruct (wpp_run _ _ _ _ _ Hwp Hrun) as [Hrel Hgone]. specialize (Hgone eq_refl).
  intros p. split; [apply Hgone|]. intros Hno. by destruct (Hrel p) as [|[_ ?]].
Qed.

(** An epoch file can crash every participant of lower or equal priority.
    The saturation of [expires_at] does not reach [ChronoDuration::seconds],
    which panics above [i64::MAX / 1000] seconds: when the current owner's file
    says it lasts longer, [acquire] of the others panics. *)
Theorem huge_duration_panics (n : nat) (l : Lock Path) (s s1 : St) (en : EpochEntry Path)
  (Howner : run handle (current_owner l) s = (s1, Done (Ok (Some en))))
  (Hforeign : foreign l en) (Hprio : lock_priority l <= priority (file en))
  (Hhuge : I64_MAX / 1000 < duration (file en))
  (Hnow : forall s2 now, handle _ NOW s1 = (s2, now) -> last_modified (meta en) <= now) :
  snd (run handle (acquire n l) s) = Panicked.
Proof.
  change (wpp (acquire n l) (fun _ o => o = Panicked) s). unfold acquire. apply wpp_try.
  eapply wpp_eq; [exact Howner|]. cbn beta iota.
  destruct (is_owned_by en (lock_holder l)) eqn:Eown; [by apply own_is_owned in Eown|].
  apply wpp_bind, wpp_vis. intros s2 now E. apply wpp_ret. specialize (Hnow _ _ E).
  replace ((lock_priority l <=? priority (file en)) && _)%bool with true by lia.
  assert (I64_MAX / 1000 < I64_MAX) by by vm_compute.
  assert (0 <= I64_MAX / 1000) by by vm_compute.
  unfold expires_at. rewrite duration_seconds_spec.
  - destruct (Z.leb_spec (duration (file en)) I64_MAX);
      [destruct (Z.leb_spec (duration (file en)) (I64_MAX / 1000)); [lia|done]|].
    by destruct (Z.leb_spec I64_MAX (I64_MAX / 1000)); [lia|].
  - destruct (duration (file en) <=? I64_MAX); lia.
Qed.

End Exclusion.

(** ** Witnesses *)

Import LockMem.

(** Alice takes the lock of an empty directory. *)
Definition alice_run : mem * outcome (result Error AcquisitionStatus) :=
  run handle (acquire 1 alice) empty_store.

Definition epoch0 : Epoch := mkEpoch 0 (lit "00000000").

Lemma acquire_owner_exclusive_witness :
  exists ts, own_lease alice (fst (run handle (acquire 1 alice) stale_store))
      (mkEpoch 6 (lit "00000006")) ts /\
    forall en, entry_in alice (objects stale_store) en -> foreign alice en -> expired en ts.
Proof.
  apply (acquire_owner_exclusive (Path := path) (St := mem) 0). vm_compute. reflexivity.
Defined.

(** Bob's attempt while alice holds the lock. *)
Lemma acquire_respects_leases_witness :
  snd (run handle (acquire 1 bob) (fst alice_run)) = Done (Ok NotOwner) /\
  snd (run handle (acquire 1 bob) (fst alice_run)) <> Exhausted.
Proof.
  split; [vm_compute; reflexivity|].
  apply (acquire_respects_leases (Path := path) (St := mem) 0 bob (fst alice_run)
    (fst (run handle (acquire 1 bob) (fst alice_run)))).
  by destruct (run handle (acquire 1 bob) (fst alice_run)).
Defined.

Lemma release_exact_witness :
  objects (fst (run handle (release alice) (fst alice_run))) !! epoch_path alice epoch0 = None.
Proof.
  apply (release_exact (Path := path) (St := mem) alice (fst alice_run));
    [exact I|vm_compute; reflexivity|].
  exists (mkEntry (mkMeta (epoch_path alice epoch0) 1003) (own_file alice) epoch0).
  split; [|split; [reflexivity|intros Hf; apply Hf; reflexivity]].
  split; [vm_compute; reflexivity|]. split; [vm_compute; reflexivity|].
  exists (@encode _ (Tape.codec tape_file) (own_file alice)). split; vm_compute; reflexivity.
Defined.

(** Alice acquires, bob is refused, alice renews: her lease is the live one. *)
Definition after_renewal : mem :=
  fst (run handle (acquire 1 alice) (fst (run handle (acquire 1 bob) (fst alice_run)))).

Definition alice_lease : EpochEntry path :=
  mkEntry (mkMeta (epoch_path alice (mkEpoch 1 (lit "00000001"))) 1013) (own_file alice)
    (mkEpoch 1 (lit "00000001")).

Lemma alice_bob_participants : participants [alice; bob].
Proof.
  split.
  - intros l l' Hl Hl'. rewrite !elem_of_cons, elem_of_nil in Hl, Hl'.
    destruct Hl as [->|[->|[]]], Hl' as [->|[->|[]]]; (split; [done|]); intros E; (done || discriminate E).
  - intros l Hl. rewrite !elem_of_cons, elem_of_nil in Hl.
    destruct Hl as [->|[->|[]]]; vm_compute; discriminate.
Qed.

Lemma after_renewal_reachable :
  rtc (sys_step [alice; bob]) (empty_store, ∅) (after_renewal, {[ lit "alice" := alice_lease ]}).
Proof.
  eapply rtc_l; [apply (step_acquire _ alice 0 _ (fst alice_run)
    (Done (Ok (Owner epoch0)))); [apply list_elem_of_here|vm_compute; reflexivity]|].
  eapply rtc_l; [apply (step_acquire _ bob 0 _ (fst (run handle (acquire 1 bob) (fst alice_run)))
    (Done (Ok NotOwner))); [apply list_elem_of_further, list_elem_of_here|vm_compute; reflexivity]|].
  eapply rtc_l; [apply (step_acquire _ alice 0 _ after_renewal
    (Done (Ok (Owner (mkEpoch 1 (lit "00000001")))))); [apply list_elem_of_here|vm_compute; reflexivity]|].
  match goal with |- rtc _ (?s, ?L) (?s, ?L') =>
    replace L with L' by (vm_compute; reflexivity) end.
  apply rtc_refl.
Qed.

Lemma alice_lease_live : ~ expired alice_lease (clock after_renewal).
Proof. intros (x & Hx & Hle). vm_compute in Hx. injection Hx as <-. vm_compute in Hle. by apply Hle. Qed.

Lemma mutual_exclusion_witness :
  ~ expired alice_lease (clock after_renewal) /\ lit "alice" = lock_holder alice.
Proof.
  split; [apply alice_lease_live|].
  apply (mutual_exclusion (Path := path) (St := mem) [alice; bob] empty_store after_renewal
    {[ lit "alice" := alice_lease ]} (lit "alice") (lock_holder alice) alice_lease alice_lease);
    [apply alice_bob_participants|exact I|apply after_renewal_reachable|vm_compute; reflexivity
    |apply alice_lease_live|vm_compute; reflexivity|apply alice_lease_live].
Defined.

(** Bob asks for a lease of [u64::MAX] seconds. *)
Definition greedy_bob : Lock path := new dir (lit "bob") 1 U64_MAX.
Definition greedy_store : mem := fst (run handle (acquire 1 greedy_bob) empty_store).

Lemma huge_duration_panics_witness :
  snd (run handle (acquire 1 alice) greedy_store) = Panicked.
Proof.
  apply (huge_duration_panics (Path := path) (St := mem) 1 alice greedy_store
    (fst (run handle (current_owner alice) greedy_store))
    (mkEntry (mkMeta (epoch_path alice epoch0) 1003) (own_file greedy_bob) epoch0)).
  - vm_compute. reflexivity.
  - intros E. discriminate E.
  - vm_compute. discriminate.
  - vm_compute. reflexivity.
  - intros s2 now E. vm_compute in E. injection E as <- <-. vm_compute. discriminate.
Defined.

(** ** What is not excluded *)

(** Alice is suspended after the listing that precedes her PUT; bob acquires
    and renews; alice goes on. *)
Definition frozen_schedule : list bool := repeat false 2 ++ repeat true 40 ++ repeat false 40.

Definition acquire_twice (l : Lock path) : prog path (result Error AcquisitionStatus) :=
  ptry (acquire 1 l) (fun _ => acquire 1 l).

(** Mutual exclusion needs the uninterrupted runs. A participant that is
    suspended between listing the directory and creating its epoch file can
    create an epoch below that of an owner which renewed meanwhile, and both
    end as owners with unexpired files in the store, although the store's clock
    is monotone and no request fails. *)
Theorem frozen_process_overlap :
  exists s ea eb ta tb b1 b2,
    interleave handle frozen_schedule (acquire 1 alice) (acquire_twice bob) empty_store =
      (Ret (Ok (Owner ea)), Ret (Ok (Owner eb)), s) /\
    objects s !! epoch_path alice ea = Some (b1, ta) /\ from_slice b1 = Ok (own_file alice) /\
    ~ expired (mkEntry (mkMeta (epoch_path alice ea) ta) (own_file alice) ea) (clock s) /\
    objects s !! epoch_path bob eb = Some (b2, tb) /\ from_slice b2 = Ok (own_file bob) /\
    ~ expired (mkEntry (mkMeta (epoch_path bob eb) tb) (own_file bob) eb) (clock s).
Proof.
  exists (snd (interleave handle frozen_schedule (acquire 1 alice) (acquire_twice bob) empty_store)).
  exists epoch0, (mkEpoch 1 (lit "00000001")), 1018, 1012,
    (@encode _ (Tape.codec tape_file) (own_file alice)), (@encode _ (Tape.codec tape_file) (own_file bob)).
  split; [vm_compute; reflexivity|]. split; [vm_compute; reflexivity|].
  split; [vm_compute; reflexivity|].
  split; [intros (x & Hx & Hle); vm_compute in Hx; injection Hx as <-; vm_compute in Hle; by apply Hle|].
  split; [vm_compute; reflexivity|]. split; [vm_compute; reflexivity|].
  intros (x & Hx & Hle); vm_compute in Hx; injection Hx as <-; vm_compute in Hle; by apply Hle.
Qed.

End LockExclusion.
