(* ===== verification/LockLive.v ===== *)
(** Progress of the lock: when the store answers and every other lease in the
    directory has expired, one [acquire] run becomes owner and leaves exactly
    its own epoch file. *)

From Stdlib Require Import ZArith Lia Sorting.Sorted.
From stdpp Require Import base gmap list sorting strings.
From S2P Require Import Prelude Base32 Lock LockRun LockSafety LockMem.
Import Base32 Lock LockRun LockSafety.

Local Open Scope Z_scope.

Module LockLive.

Section Live.
Context {Path St : Type} `{Countable Path} `{OP : ObjectPath Path} {ST : Store Path St}
  `{!ObjectPathLaws Path} `{!StoreLaws Path St} {CH : Chrono} {SE : SerdeEpoch} `{!SerdeEpochLaws}.

Implicit Types (l : Lock Path) (s : St) (m : gmap Path (bytes * Z)) (mt : ObjectMeta Path)
  (en : EpochEntry Path).

(** [mt] is the meta of an epoch file of the directory. *)
Definition epoch_meta l m mt (e : Epoch) : Prop :=
  prefix_matches (prefix l) (location mt) = true /\ epoch_of mt = Some e /\
  exists b, m !! location mt = Some (b, last_modified mt).

(** The directory holds epoch files only under their own names, none of them
    the last epoch, all readable and with a duration that can be added. *)
Record clean_dir l m : Prop := {
  clean_flat mt e : epoch_meta l m mt e -> location mt = epoch_path l e;
  clean_room mt e : epoch_meta l m mt e -> val e < MAX_VAL;
  clean_file mt e : epoch_meta l m mt e ->
    exists b f x, m !! location mt = Some (b, last_modified mt) /\ from_slice b = Ok f /\
      expires_at (mkEntry mt f e) = Some x
}.

(** Every file is the caller's or has expired at [t]. *)
Definition free_at l m (t : Z) : Prop :=
  forall en, entry_in l m en -> foreign l en -> expired en t.

(** *** The order of a listing *)

#[export] Instance meta_le_trans : Transitive (@meta_le Path OP).
Proof.
  intros a b c. unfold meta_le. intros Hab Hbc Hac.
  rewrite bytes_cmp_antisym in Hac. change Gt with (CompOpp Lt) in Hac.
  assert (bytes_lt (as_ref (location c)) (as_ref (location a))) as Hca.
  { unfold bytes_lt. destruct (bytes_cmp (as_ref (location c)) _); done. }
  assert (bytes_lt (as_ref (location a)) (as_ref (location b)) \/ as_ref (location a) = as_ref (location b)) as [Hlt|Heq].
  { unfold bytes_lt. destruct (bytes_cmp (as_ref (location a)) _) eqn:E; [right; by apply bytes_cmp_eq|by left|done]. }
  - pose proof (transitivity Hca Hlt) as Hcb. unfold bytes_lt in Hcb.
    rewrite bytes_cmp_antisym, Hcb in Hbc. by apply Hbc.
  - rewrite Heq in Hca. unfold bytes_lt in Hca. rewrite bytes_cmp_antisym, Hca in Hbc. by apply Hbc.
Qed.

(** Epoch files of one directory sort as their epochs. *)
Lemma epoch_path_lt l e1 e2 t1 t2 :
  wf e1 -> wf e2 -> 0 <= val e1 -> val e1 < val e2 ->
  ~ meta_le (mkMeta (epoch_path l e2) t2) (mkMeta (epoch_path l e1) t1).
Proof.
  intros W1 W2 V1 Hlt. unfold meta_le, epoch_path. cbn [location].
  destruct (as_ref_join (prefix l)) as [q Hq].
  rewrite !Hq by (apply plain_json_filename; (done || lia)). rewrite bytes_cmp_app.
  unfold json_filename, as_base32. rewrite bytes_cmp_app_len.
  2: by rewrite (length_to_base32 (val e2)), (length_to_base32 (val e1)) by (lia || by apply wf_base32).
  rewrite (base32_cmp (val e2) (val e1)) by (lia || by apply wf_base32).
  rewrite (proj2 (Z.compare_gt_iff _ _)) by lia. by intros Hn.
Qed.

(** In the listing that follows a claim, the claimed file comes last. *)
Lemma listing_snoc l content m m' e ts ms :
  clean_dir l m -> claimed l content m m' e ts -> listing l m' ms ->
  exists lows, ms = lows ++ [mkMeta (epoch_path l e) ts] /\
    forall mt, mt ∈ lows <-> exists e', epoch_meta l m mt e'.
Proof.
  intros Hcl Hc (Hsort & Hnd & Hl).
  destruct (claimed_wf _ _ _ _ _ _ Hc) as [Hwf Hv].
  destruct (claimed_file _ _ _ _ _ _ Hc) as (b & _ & ->).
  pose proof (claimed_fresh _ _ _ _ _ _ Hc) as Hfresh.
  set (mine := mkMeta (epoch_path l e) ts).
  assert (mine ∈ ms) as Hin.
  { apply Hl. unfold is_epoch_meta. subst mine. rewrite epoch_of_path by done. cbn.
    split; [done|]. split; [apply prefix_join; by apply plain_json_filename|].
    exists b. apply lookup_insert_eq. }
  assert (forall mt, mt ∈ ms -> mt <> mine -> exists e', epoch_meta l m mt e') as Hothers.
  { intros mt (He & Hp & b' & Hb')%Hl Hne. unfold is_epoch_meta in He.
    destruct (epoch_of mt) as [e'|] eqn:Ee; [|done]. exists e'. split; [done|]. split; [done|].
    exists b'. rewrite lookup_insert_ne in Hb'; [done|]. intros E. apply Hne.
    destruct mt as [p t]. cbn in *. subst p. rewrite lookup_insert_eq in Hb'. by simplify_eq. }
  apply list_elem_of_split in Hin as (l1 & l2 & ->).
  assert (l2 = []) as ->.
  { destruct l2 as [|mt l2]; [done|exfalso].
    apply Sorted_StronglySorted in Hsort; [|apply _].
    rewrite StronglySorted_app in Hsort. destruct Hsort as (_ & _ & Hs2).
    apply StronglySorted_inv in Hs2 as [_ Hall].
    apply NoDup_app in Hnd as (_ & _ & Hnd2). apply NoDup_cons in Hnd2 as [Hnotin _].
    assert (mt <> mine) as Hne by (intros ->; apply Hnotin, list_elem_of_here).
    destruct (Hothers mt) as [e' He']; [rewrite elem_of_app, !elem_of_cons; tauto|done|].
    pose proof (clean_flat _ _ Hcl _ _ He') as Hloc. destruct He' as (Hp & Hee & b' & Hb').
    pose proof (claimed_above _ _ _ _ _ _ Hc _ _ _ Hp Hee Hb') as Hlt.
    destruct (epoch_of_bounds _ _ Hee) as [Hwf' Hv'].
    inversion_clear Hall as [|? ? Hle _]. destruct mt as [p t]. cbn in Hloc. subst p.
    by apply (epoch_path_lt l e' e t ts Hwf' Hwf (proj1 Hv') Hlt) in Hle. }
  exists l1. split; [done|]. intros mt. split.
  - intros Hmt. apply Hothers; [rewrite elem_of_app; tauto|].
    intros ->. apply NoDup_app in Hnd as (_ & Hdis & _). apply (Hdis mine Hmt), list_elem_of_here.
  - intros (e' & Hp & Hee & b' & Hb').
    assert (mt ∈ l1 ++ [mine]) as Hmt.
    { apply Hl. unfold is_epoch_meta. rewrite Hee. split; [done|]. split; [done|]. exists b'.
      rewrite lookup_insert_ne; [done|congruence]. }
    apply elem_of_app in Hmt as [?|Hmt]; [done|]. apply list_elem_of_singleton in Hmt as ->.
    cbn in Hb'. congruence.
Qed.

(** *** Scavenging a directory of dead files *)

(** The meta reads as a file below [mine] that may go. *)
Definition dead l (mine : Epoch) (ts : Z) m mt : Prop :=
  exists e f b x, epoch_of mt = Some e /\ val e < val mine /\
    m !! location mt = Some (b, last_modified mt) /\ from_slice b = Ok f /\
    expires_at (mkEntry mt f e) = Some x /\ (holder f = lock_holder l \/ x <= ts).

(** [m'] is [m] without the objects [gone]. *)
Definition without (gone : list Path) m m' : Prop :=
  forall p, (p ∈ gone -> m' !! p = None) /\ (p ∉ gone -> m' !! p = m !! p).

Lemma without_cons p gone m1 m2 m3 :
  (m2 = delete p m1 \/ m2 = m1 /\ m1 !! p = None) ->
  without gone m2 m3 -> without (p :: gone) m1 m3.
Proof.
  intros Hp Hw q. destruct (Hw q) as [Hin Hout]. split.
  - intros Hq. destruct (decide (q ∈ gone)) as [|Hn]; [auto|].
    apply elem_of_cons in Hq as [->|]; [|done]. rewrite (Hout Hn).
    destruct Hp as [->|[-> ?]]; [apply lookup_delete_eq|done].
  - intros [Hne Hn]%not_elem_of_cons. rewrite (Hout Hn).
    destruct Hp as [->|[-> _]]; [|done]. by rewrite lookup_delete_ne.
Qed.

Lemma wpp_scavenge_dead l mine ts m0 lows rest reg Q s :
  healthy ->
  (forall mt, mt ∈ lows -> dead l mine ts m0 mt) ->
  (forall mt, head rest = Some mt -> exists e, epoch_of mt = Some e /\ val mine <= val e) ->
  (forall p, objects s !! p = m0 !! p \/ objects s !! p = None) ->
  (forall s', without (location <$> lows) (objects s) (objects s') -> elapses s s' ->
     Q s' (Done (Ok reg))) ->
  wpp (scavenge_loop l mine ts (lows ++ rest) reg) Q s.
Proof.
  intros Hh. revert s. induction lows as [|mt lows IH]; intros s Hdead Hrest Hsub HQ.
  { cbn [app]. assert (Q s (Done (Ok reg))) as HQs.
    { apply HQ; [|done]. intros p. split; [by intros ?%not_elem_of_nil|done]. }
    destruct rest as [|mt rest]; [by apply wpp_ret|]. cbn [scavenge_loop].
    destruct (Hrest mt eq_refl) as (e & -> & Hle). unfold epoch_ltb.
    destruct (Z.ltb_spec (val e) (val mine)); [lia|]. by apply wpp_ret. }
  destruct (Hdead mt) as (e & f & b & x & He & Hlt & Hb & Hf & Hx & Hmay);
    [apply list_elem_of_here|].
  assert (forall s1,
    (objects s1 = delete (location mt) (objects s) \/
     objects s1 = objects s /\ objects s !! location mt = None) ->
    elapses s s1 -> wpp (scavenge_loop l mine ts (lows ++ rest) reg) Q s1) as Hrec.
  { intros s1 Hs1 T1. apply IH; [|done| |].
    - intros mt' ?. apply Hdead. by apply list_elem_of_further.
    - intros p. destruct Hs1 as [->|[-> _]]; [|apply Hsub].
      destruct (decide (p = location mt)) as [->|]; [right; apply lookup_delete_eq|].
      rewrite lookup_delete_ne by done. apply Hsub.
    - intros s' Hw T. apply HQ; [|by etrans]. rewrite fmap_cons. eapply without_cons; [|exact Hw].
      exact Hs1. }
  cbn [app scavenge_loop]. rewrite He. unfold epoch_ltb.
  destruct (Z.ltb_spec (val e) (val mine)); [|lia].
  apply wpp_try, wpp_read_entry.
  - intros s1 b' f' e' [Eo T] [t Ht] Hf' He'. assert (e' = e) as -> by congruence.
    assert (f' = f) as ->.
    { destruct (Hsub (location mt)) as [E|E]; rewrite Ht in E; congruence. }
    unfold is_expired_at. rewrite Hx. cbn [or_panic].
    replace ((x <=? ts) || is_owned_by (mkEntry mt f e) (lock_holder l))%bool with true.
    2: { symmetry. apply orb_true_intro. destruct Hmay as [?|?]; [right|left; lia].
         unfold is_owned_by. by apply bool_decide_eq_true. }
    apply wpp_delete. cbn [meta]. intros s2 T2 Hd. apply Hrec; [|by etrans].
    left. rewrite <- Eo. by destruct Hd as [|[_ ?]].
  - intros s1 [Eo T] Hn. apply Hrec; [|done]. right. split; [done|].
    destruct Hn as [Hn|?]; [congruence|done].
  - intros s1 er _ [?|(b' & t & Hb' & Hno)]; [done|].
    destruct (Hsub (location mt)) as [E|E]; rewrite Hb' in E; [|done].
    rewrite Hb in E. simplify_eq. by destruct (Hno f).
Qed.

(** *** Verification with nothing else in the directory *)

(** The directory after a successful [acquire]: the caller's file, and what is
    not an epoch file of this directory. *)
Definition sole_owner l m m' (e : Epoch) (ts : Z) : Prop :=
  (exists b, to_vec (own_file l) = Ok b /\ m' !! epoch_path l e = Some (b, ts)) /\
  forall p, p <> epoch_path l e ->
    ((exists mt e', location mt = p /\ epoch_meta l m mt e') -> m' !! p = None) /\
    (~ (exists mt e', location mt = p /\ epoch_meta l m mt e') -> m' !! p = m !! p).

Lemma claimed_dead l m m' e ts mt e' :
  clean_dir l m -> free_at l m ts -> claimed l (own_file l) m m' e ts -> epoch_meta l m mt e' ->
  dead l e ts m' mt.
Proof.
  intros Hcl Hfree Hc Hmt. destruct (clean_file _ _ Hcl _ _ Hmt) as (b & f & x & Hb & Hf & Hx).
  destruct Hmt as (Hp & He & _). exists e', f, b, x.
  pose proof (claimed_above _ _ _ _ _ _ Hc _ _ _ Hp He Hb) as Hlt.
  destruct (claimed_file _ _ _ _ _ _ Hc) as (b0 & _ & ->).
  split; [done|]. split; [done|]. split; [|split; [done|split; [done|]]].
  - rewrite lookup_insert_ne; [done|]. intros E. pose proof (claimed_fresh _ _ _ _ _ _ Hc). congruence.
  - destruct (decide (holder f = lock_holder l)) as [|Hfor]; [by left|right].
    destruct (Hfree (mkEntry mt f e')) as (x' & Hx' & Hle);
      [split; [done|]; split; [done|]; by exists b|done|]. congruence.
Qed.

Lemma wpp_verify_alone l m e ts Q s :
  healthy -> clean_dir l m -> free_at l m ts -> claimed l (own_file l) m (objects s) e ts ->
  (forall s', sole_owner l m (objects s') e ts -> elapses s s' -> Q s' (Done (Ok (Owner e)))) ->
  wpp (verify_ownership l e ts (epoch_path l e)) Q s.
Proof.
  intros Hh Hcl Hfree Hc HQ. destruct (claimed_wf _ _ _ _ _ _ Hc) as [Hwf Hv].
  destruct (claimed_file _ _ _ _ _ _ Hc) as (b & Hb & Em1).
  unfold verify_ownership, scavenge_below. apply wpp_try, wpp_try, wpp_list_epoch_metas; [|done].
  intros s1 ms [Eo1 T1] Hl. destruct (listing_snoc _ _ _ _ _ _ _ Hcl Hc Hl) as (lows & -> & Hlows).
  apply (wpp_scavenge_dead l e ts (objects s)); [done| | |intros p; left; by rewrite Eo1|].
  { intros mt [e' Hmt]%Hlows. by eapply claimed_dead. }
  { intros mt [= <-]. exists e. split; [by apply epoch_of_path|lia]. }
  intros s2 Hw T2. rewrite Eo1 in Hw.
  assert (epoch_path l e ∉ location <$> lows) as Hmine.
  { intros (mt & Hloc & Hmt)%list_elem_of_fmap. apply Hlows in Hmt as (e' & _ & _ & b' & Hb').
    rewrite <- Hloc, (claimed_fresh _ _ _ _ _ _ Hc) in Hb'. done. }
  assert (sole_owner l m (objects s2) e ts) as Hsole.
  { split.
    - exists b. split; [done|]. rewrite (proj2 (Hw _) Hmine), Em1. apply lookup_insert_eq.
    - intros p Hp. split.
      + intros (mt & e' & <- & Hmt). apply Hw, list_elem_of_fmap_2. apply Hlows. by exists e'.
      + intros Hno. rewrite (proj2 (Hw p)), Em1, lookup_insert_ne by
          (done || intros (mt & -> & [e' Hmt]%Hlows)%list_elem_of_fmap; apply Hno; by exists mt, e').
        done. }
  apply wpp_try, wpp_list_epoch_metas; [|done]. intros s3 ms3 [Eo3 T3] (_ & _ & Hl3).
  assert (forall mt e', mt ∈ ms3 -> epoch_of mt = Some e' -> val e' = val e) as Honly.
  { intros mt e' (_ & Hp & b' & Hb')%Hl3 He'.
    destruct (decide (location mt = epoch_path l e)) as [E|Hne].
    - destruct mt as [p t]. cbn in E. subst p. rewrite epoch_of_path in He' by done. by simplify_eq.
    - destruct (proj2 Hsole _ Hne) as [Hgone Hkeep]. exfalso.
      assert (~ exists mt0 e0, location mt0 = location mt /\ epoch_meta l m mt0 e0) as Hno.
      { intros Hex. by rewrite (Hgone Hex) in Hb'. }
      rewrite (Hkeep Hno) in Hb'. apply Hno. exists mt, e'. split; [done|]. split; [done|]. by eauto. }
  assert (forall P : Z -> bool, P (val e) = false -> List.filter (epoch_test P) ms3 = []) as Hfil.
  { intros P HP. apply elem_of_nil_inv. intros mt (Hmt & e' & He' & HPe)%epoch_test_elem.
    rewrite (Honly _ _ Hmt He') in HPe. congruence. }
  rewrite partition_around_filter, !Hfil by lia.
  replace (existsb _ ms3) with true; cbn [negb].
  - change (Q s3 (Done (Ok (Owner e)))). apply HQ; [by rewrite Eo3|]. by do 2 (etrans; [eassumption|]).
  - symmetry. apply existsb_exists. exists (mkMeta (epoch_path l e) ts).
    unfold epoch_test. rewrite epoch_of_path by done. split; [|lia].
    apply list_elem_of_In, Hl3. unfold is_epoch_meta. rewrite epoch_of_path by done. cbn.
    split; [done|]. split; [apply prefix_join; by apply plain_json_filename|].
    destruct Hsole as [(b1 & _ & Hs) _]. by exists b1.
Qed.

Definition acquired l s (s' : St) (o : outcome (result Error AcquisitionStatus)) : Prop :=
  exists e ts, o = Done (Ok (Owner e)) /\ (wf e /\ 0 <= val e) /\
    sole_owner l (objects s) (objects s') e ts /\ clock s <= ts <= clock s'.

Lemma free_at_mono l m t t' : t <= t' -> free_at l m t -> free_at l m t'.
Proof. intros Hle Hf en Hin Hfor. destruct (Hf en Hin Hfor) as (x & ? & ?). exists x. split; [done|lia]. Qed.

Lemma wpp_claim_alone n l s0 s :
  healthy -> monotone -> clean_dir l (objects s0) -> free_at l (objects s0) (clock s0) ->
  reads s0 s -> wpp (claim_and_verify (S n) l) (acquired l s0) s.
Proof.
  intros Hh Hm Hcl Hfree [Eo T]. specialize (T Hm). unfold claim_and_verify.
  apply wpp_try, wpp_put_next_epoch.
  - intros s1 e ts Hc Hst. specialize (Hst Hm). rewrite Eo in Hc.
    apply (wpp_verify_alone l (objects s0)); [done|done| |done|].
    + eapply free_at_mono; [|exact Hfree]. lia.
    + intros s' Hsole T'. specialize (T' Hm). exists e, ts. split; [done|].
      split; [by destruct (claimed_wf _ _ _ _ _ _ Hc)|]. split; [done|lia].
  - intros s' er _ _ [?|[Hno|(mt & e & b & Hp & He & Hb & Hmax)]]; [done| |]; exfalso.
    + destruct (to_vec_total (own_file l)) as [b Hb]. by eapply Hno.
    + rewrite Eo in Hb. pose proof (clean_room _ _ Hcl mt e) as Hroom.
      enough (val e < MAX_VAL) by lia. apply Hroom. split; [done|]. split; [done|]. by exists b.
Qed.

(** The fast path of [acquire] in a directory of dead files. *)
Lemma wpp_current_owner_clean l Q s :
  healthy -> clean_dir l (objects s) ->
  (forall s' en x, reads s s' -> entry_in l (objects s) en -> expires_at en = Some x ->
     Q s' (Done (Ok (Some en)))) ->
  (forall s', reads s s' -> Q s' (Done (Ok None))) ->
  wpp (current_owner l) Q s.
Proof.
  intros Hh Hcl HSome HNone. apply wpp_try, wpp_list_epoch_metas; [|done].
  intros s1 ms Hr (_ & _ & Hl).
  assert (forall mt, mt ∈ ms -> exists e, epoch_meta l (objects s) mt e) as Hms.
  { intros mt (He & Hp & b & Hb)%Hl. unfold is_epoch_meta in He.
    destruct (epoch_of mt) as [e|] eqn:Ee; [|done]. exists e. split; [done|]. split; [done|by exists b]. }
  apply (wpp_first_readable_entry (objects s)); [apply Hr|..].
  - intros mt Hmt. apply Hl in Hmt. tauto.
  - intros s2 mt b f e Hr2 Hmt Hb Hf He _. destruct (Hms mt Hmt) as [e' He'].
    assert (e' = e) as -> by (destruct He' as (_ & ? & _); congruence).
    destruct (clean_file _ _ Hcl _ _ He') as (b' & f' & x & Hb' & Hf' & Hx).
    assert (f' = f) as -> by congruence.
    eapply HSome; [by etrans| |exact Hx]. split; [by apply He'|]. split; [done|]. by exists b.
  - intros _. by apply HNone.
  - intros s2 er _ [?|(mt & b & t & Hmt & Hb & Hno)]; [done|exfalso].
    destruct (Hms mt Hmt) as [e He].
    destruct (clean_file _ _ Hcl _ _ He) as (b' & f' & x & Hb' & Hf' & _).
    apply (Hno f'). congruence.
Qed.

Lemma wpp_acquire_alone (n : nat) (l : Lock Path) (s : St) :
  healthy -> monotone -> clean_dir l (objects s) -> free_at l (objects s) (clock s) ->
  (forall s1 s2 now, handle _ NOW s1 = (s2, now) -> clock s1 <= now) ->
  wpp (acquire (S n) l) (acquired l s) s.
Proof.
  intros Hhealthy Hmono Hclean Hfree Hnow.
  unfold acquire. apply wpp_try, wpp_current_owner_clean; [done|done| |].
  - intros s1 en x Hr Hin Hx. destruct (is_owned_by en _) eqn:Eown; [by apply wpp_claim_alone|].
    apply wpp_bind, wpp_vis. intros s2 now E2. apply wpp_ret.
    assert (reads s1 s2) as Hr2 by (split; [by eapply handle_now|intros _; by eapply handle_clock]).
    assert (reads s s2) as Hr02 by by etrans.
    destruct (_ && _)%bool; [|by apply wpp_claim_alone]. rewrite Hx. cbn [or_panic].
    destruct (Hfree en Hin) as (x' & Hx' & Hle).
    { unfold foreign. intros Ho. unfold is_owned_by in Eown. by apply bool_decide_eq_false in Eown. }
    pose proof (Hnow _ _ _ E2). destruct Hr as [_ T]. specialize (T Hmono).
    destruct (Z.ltb_spec now x); [|by apply wpp_claim_alone].
    assert (x' = x) by congruence. lia.
  - intros s1 Hr. by apply wpp_claim_alone.
Qed.


(** *** Releasing a directory that can be read *)

(** Every epoch file can be read. *)
Definition readable l m : Prop :=
  forall mt e, epoch_meta l m mt e -> exists b f, m !! location mt = Some (b, last_modified mt) /\ from_slice b = Ok f.

Lemma wpp_release_loop_reads l m0 ms (Q : outcome (result Error unit) -> Prop) s :
  healthy ->
  (forall mt, mt ∈ ms -> exists b f, m0 !! location mt = Some (b, last_modified mt) /\ from_slice b = Ok f) ->
  (forall p, objects s !! p = m0 !! p \/ objects s !! p = None) ->
  Q (Done (Ok tt)) -> wpp (release_loop l ms) (fun _ => Q) s.
Proof.
  intros Hh. revert s. induction ms as [|mt ms IH]; intros s Hms Hsub HQ; cbn [release_loop]; [by apply wpp_ret|].
  assert (forall s1, (forall p, objects s1 !! p = m0 !! p \/ objects s1 !! p = None) ->
    wpp (release_loop l ms) (fun _ => Q) s1) as Hrec.
  { intros s1 Hs1. apply IH; [|done|done]. intros mt' ?. apply Hms. by apply list_elem_of_further. }
  destruct (Hms mt) as (b & f & Hb & Hf); [apply list_elem_of_here|].
  apply wpp_try, wpp_read_entry.
  - intros s1 b' f' e' [Eo _] _ _ _. destruct (is_owned_by _ _); [|apply Hrec; by rewrite Eo].
    apply wpp_delete. intros s2 _ Hd. apply Hrec. intros p.
    destruct Hd as [->|[-> _]]; rewrite Eo; [|apply Hsub]. cbn [meta].
    destruct (decide (p = location mt)) as [->|]; [right; apply lookup_delete_eq|].
    rewrite lookup_delete_ne by done. apply Hsub.
  - intros s1 [Eo _] _. apply Hrec. by rewrite Eo.
  - intros s1 er _ [?|(b' & t & Hb' & Hno)]; [done|exfalso].
    destruct (Hsub (location mt)) as [E|E]; rewrite Hb' in E; [|done].
    rewrite Hb in E. simplify_eq. by destruct (Hno f).
Qed.

Lemma release_reads l s : healthy -> readable l (objects s) -> snd (run handle (release l) s) = Done (Ok tt).
Proof.
  intros Hh Hread. apply (wpp_run (release l) (fun _ o => o = Done (Ok tt)) s (fst (run handle (release l) s)));
    [|apply surjective_pairing].
  apply wpp_try, wpp_list_epoch_metas; [|done]. intros s1 ms [Eo _] (_ & _ & Hl).
  apply (wpp_release_loop_reads l (objects s)); [done| |by intros p; left; rewrite Eo|done].
  intros mt (He & Hp & b & Hb)%Hl. unfold is_epoch_meta in He. destruct (epoch_of mt) as [e|] eqn:Ee; [|done].
  apply (Hread mt e). split; [done|]. split; [done|]. by exists b.
Qed.

(** After [acquire] the caller's own file is the only epoch file. *)
Lemma sole_epoch_file l m m' e ts mt e' :
  sole_owner l m m' e ts -> epoch_meta l m' mt e' -> location mt = epoch_path l e.
Proof.
  intros [_ Hsole] (Hp & He' & b' & Hb'). destruct (decide (location mt = epoch_path l e)) as [|Hne]; [done|exfalso].
  destruct (Hsole _ Hne) as [Hgone Hkeep].
  assert (~ exists mt0 e0, location mt0 = location mt /\ epoch_meta l m mt0 e0) as Hno.
  { intros Hex. by rewrite (Hgone Hex) in Hb'. }
  rewrite (Hkeep Hno) in Hb'. apply Hno. exists mt, e'. split; [done|]. split; [done|]. split; [done|]. by exists b'.
Qed.

Lemma sole_readable l m m' e ts : sole_owner l m m' e ts -> readable l m'.
Proof.
  intros Hs mt e' Hmt. pose proof (sole_epoch_file _ _ _ _ _ _ _ Hs Hmt) as Hloc.
  destruct Hs as [(b & Hb & Hfile) _], Hmt as (_ & _ & b' & Hb'). exists b', (own_file l).
  split; [done|]. rewrite Hloc, Hfile in Hb'. injection Hb' as <- _. by apply from_slice_to_vec.
Qed.

End Live.

Import LockMem.


End LockLive.
