(* ===== verification/Guard.v ===== *)
(** The guard of a held lock (bepository-lock/src/guard.rs): acquisition
    ([Lock::hold]), the renewal loop and its timing, and the release.

    The renewal loop is a state machine: it sleeps, checks how long ago the
    last renewal was, asks for the lock again, and goes on or reports the loss.
    The step relation adds the passing of time, with a bound on how late a
    sleep returns and on how long an attempt takes, and the time stamp that
    the store gave to the current lease. Times are nanoseconds. *)

From Stdlib Require Import ZArith Lia.
From stdpp Require Import base gmap list strings relations.
From S2P Require Import Prelude Base32 Codec Lock LockRun LockSafety LockMem LockExclusion.
Import Base32 Lock LockRun.

Local Open Scope Z_scope.

Module Guard.
Import LockSafety LockExclusion.

Inductive LockLost :=
| Preempted
| Expired (elapsed_secs threshold_secs : Z)
| ClockRegressed
| LockCancelled.

(** ** Acquisition *)

Section Hold.
Context {Path : Type} `{!ObjectPath Path} `{!Chrono} `{!SerdeEpoch}.

(** The time between two attempts, in seconds. *)
Definition hold_wait (l : Lock Path) : Z := Z.max (lock_duration l / 3) 1.

(** [Lock::hold] up to the start of the renewal task. The list says for each
    round whether the token was cancelled when it began (or during the sleep
    before it); at its end the caller is still waiting. *)
Fixpoint hold (fuel : nat) (cancels : list bool) (l : Lock Path) : prog Path (result Error Epoch) :=
  match cancels with
  | [] => OutOfFuel
  | true :: _ => Ret (Err Cancelled)
  | false :: cancels' =>
      ptry (acquire fuel l) (fun status =>
        match status with
        | Owner epoch => Ret (Ok epoch)
        | QueuedBackwardClock => Ret (Err ClockRegression)
        | Queued | Yielded | Failed | NotOwner => hold fuel cancels' l
        end)
  end.

End Hold.

(** ** The renewal loop *)

Definition SECOND : Z := 1000000000.

Definition renew_interval (lease : Z) : Z := lease / 3 * SECOND.
Definition retry_interval : Z := 15 * SECOND.
(** [lease * 2 / 3] in [u64]. *)
Definition give_up_after (lease : Z) : Z := wrap_u64 (lease * 2) / 3.

(** [Instant::elapsed().as_secs()]. *)
Definition elapsed_secs (last_success now : Z) : Z := (now - last_success) / SECOND.

(** The test at the top of the loop. *)
Definition check (lease last_success now : Z) : option LockLost :=
  let elapsed := elapsed_secs last_success now in
  if give_up_after lease <=? elapsed then Some (Expired elapsed (give_up_after lease)) else None.

(** What an attempt leads to: the time of the last success and the next sleep,
    or the loss. *)
Definition after_attempt (lease last_success now : Z) (r : result Error AcquisitionStatus) :
  result LockLost (Z * Z) :=
  match r with
  | Ok (Owner _) => Ok (now, renew_interval lease)
  | Ok Yielded => Err Preempted
  | Ok QueuedBackwardClock => Err ClockRegressed
  | Ok _ => Err Preempted
  | Err _ => Ok (last_success, retry_interval)
  end.

(** [LockGuard::release] after the files are gone: what the channel of the
    renewal task holds. *)
Inductive TryRecv := Received (r : LockLost) | Closed | Empty.

Definition release_result (c : TryRecv) : result LockLost unit :=
  match c with
  | Received reason => Err reason
  | Closed => Err LockCancelled
  | Empty => Ok tt
  end.

(** [LockGuard::lost]. *)
Definition lost (c : option LockLost) : LockLost := default LockCancelled c.

(** ** The loop in time *)

Inductive Phase :=
| Sleeping (since duration : Z)
| Checking
| Attempting (since : Z)
| Lost (r : LockLost).

(** [stamp] is the time stamp of the current lease in the store. *)
Record GuardState := mkGuard { phase : Phase; last_success : Z; now : Z; stamp : Z }.

Section Timing.
Context (lease : Z).
(** A sleep returns at most [late] after its time, an attempt takes at most
    [slow]. *)
Context (late slow : Z).

(** [hold] has just returned; its last attempt took at most [slow]. *)
Inductive start : GuardState -> Prop :=
| start_at t ts : t - slow <= ts <= t -> start (mkGuard (Sleeping t (renew_interval lease)) t t ts).

Definition may_wait (p : Phase) (t : Z) : Prop :=
  match p with
  | Sleeping since d => t <= since + d + late
  | Checking => False
  | Attempting since => t <= since + slow
  | Lost _ => True
  end.

Inductive guard_step : GuardState -> GuardState -> Prop :=
| gs_wait p l n ts t :
    n <= t -> may_wait p t -> guard_step (mkGuard p l n ts) (mkGuard p l t ts)
| gs_wake since d l n ts :
    (** At its time, or earlier when the system clock fails. *)
    guard_step (mkGuard (Sleeping since d) l n ts) (mkGuard Checking l n ts)
| gs_cancel since d l n ts :
    guard_step (mkGuard (Sleeping since d) l n ts) (mkGuard (Lost LockCancelled) l n ts)
| gs_check l n ts :
    guard_step (mkGuard Checking l n ts)
      (mkGuard (match check lease l n with Some r => Lost r | None => Attempting n end) l n ts)
| gs_answer since l n ts r ts' :
    match r with Ok (Owner _) => since <= ts' <= n | _ => ts' = ts end ->
    guard_step (mkGuard (Attempting since) l n ts)
      (match after_attempt lease l n r with
       | Ok (l', d) => mkGuard (Sleeping n d) l' n ts'
       | Err e => mkGuard (Lost e) l n ts'
       end).

(** Between two renewals: where the loop is, and how long ago the last success
    was. *)
Definition timely (s : GuardState) : Prop :=
  last_success s - slow <= stamp s <= last_success s /\ last_success s <= now s /\
  match phase s with
  | Sleeping since d =>
      last_success s <= since <= now s /\ now s <= since + d + late /\
      ((since = last_success s /\ d = renew_interval lease) \/
       (since < last_success s + give_up_after lease * SECOND + slow /\ d = retry_interval))
  | Checking =>
      now s <= last_success s + Z.max (renew_interval lease) (give_up_after lease * SECOND + slow + retry_interval) + late
  | Attempting since =>
      last_success s <= since <= now s /\ now s <= since + slow /\ since < last_success s + give_up_after lease * SECOND
  | Lost _ => True
  end.

Lemma check_None l n : check lease l n = None -> n < l + give_up_after lease * SECOND.
Proof.
  unfold check, elapsed_secs, SECOND. destruct (Z.leb_spec (give_up_after lease) ((n - l) / 1000000000)); [done|].
  intros _. pose proof (Z.mul_succ_div_gt (n - l) 1000000000). lia.
Qed.

Lemma timely_start s : 0 <= late -> 0 <= slow -> 0 <= lease -> start s -> timely s.
Proof.
  intros Hl Hs Hle [t ts Hts]. unfold timely, renew_interval, SECOND. cbn.
  pose proof (Z.div_pos lease 3 Hle). split_and!; lia.
Qed.

Lemma timely_step s s' :
  0 <= late -> 0 <= slow -> 0 <= lease -> guard_step s s' -> timely s -> timely s'.
Proof.
  intros Hl Hs Hle Hstep. unfold timely.
  destruct Hstep as [p l n ts t Ht Hw|since d l n ts|since d l n ts|l n ts|since l n ts r ts' Hr];
    cbn [phase last_success now stamp].
  - intros (H1 & H2 & H3). split; [done|]. split; [lia|].
    destruct p as [since d| |since|r]; cbn in Hw; [|done| |done].
    + destruct H3 as (? & ? & ?). split_and!; [lia|lia|lia|done].
    + destruct H3 as (? & ? & ?). split_and!; lia.
  - intros (H1 & H2 & H3 & H4 & [[-> ->]|[H5 ->]]); (split; [done|]); (split; [done|]); lia.
  - intros (H1 & H2 & _). done.
  - intros (H1 & H2 & H3). destruct (check lease l n) as [r|] eqn:E; (split; [done|]); (split; [done|]); [done|].
    apply check_None in E. split_and!; lia.
  - intros (H1 & H2 & (H3 & H4) & H5 & H6).
    destruct r as [[e| | | | |]|e]; cbn [after_attempt]; cbn [phase last_success now stamp]; subst; try done.
    + unfold renew_interval, SECOND. pose proof (Z.div_pos lease 3 Hle). split_and!; lia.
    + split; [done|]. split; [done|]. unfold retry_interval, SECOND in *. split_and!; lia.
Qed.


End Timing.

(** ** Examples *)

(** A lease of 180 seconds that was renewed once; sleeps are a second late and
    attempts take a second. *)
Definition second_sleep : GuardState := mkGuard (Sleeping (62 * SECOND) (60 * SECOND)) (62 * SECOND) (100 * SECOND) (62 * SECOND).

Lemma second_sleep_reached :
  rtc (guard_step 180 SECOND SECOND) (mkGuard (Sleeping 0 (60 * SECOND)) 0 0 0) second_sleep.
Proof.
  eapply rtc_l; [apply (gs_wait _ _ _ (Sleeping 0 (60 * SECOND)) 0 0 0 (61 * SECOND)); by vm_compute|].
  eapply rtc_l; [apply gs_wake|].
  eapply rtc_l; [apply gs_check|]. change (check 180 0 (61 * SECOND)) with (@None LockLost). cbn match.
  eapply rtc_l; [apply (gs_wait _ _ _ _ _ _ _ (62 * SECOND)); by vm_compute|].
  eapply rtc_l; [apply (gs_answer _ _ _ _ _ _ _ (Ok (Owner (mkEpoch 1 (lit "00000001")))) (62 * SECOND)); by vm_compute|].
  eapply rtc_l; [|apply rtc_refl].
  apply (gs_wait _ _ _ (Sleeping (62 * SECOND) (60 * SECOND)) (62 * SECOND) (62 * SECOND) (62 * SECOND) (100 * SECOND));
    by vm_compute.
Qed.


(** An attempt that hangs. Nothing bounds the time of a renewal attempt:
    with a store that leaves a request unanswered for as long as the lease, the
    renewal loop waits in the attempt, no loss is reported, and the lease that
    the store recorded has run out. *)
Theorem stalled_renewal_outlives_lease (lease : Z) (Hlease : 180 <= lease < 2 ^ 63) :
  exists s0 s, start lease (lease * SECOND) s0 /\ rtc (guard_step lease 0 (lease * SECOND)) s0 s /\
    (forall r, phase s <> Lost r) /\ stamp s + lease * SECOND < now s.
Proof.
  set (r := renew_interval lease).
  assert (0 < r < lease * SECOND) as Hr.
  { unfold r, renew_interval, SECOND. pose proof (Z.mul_div_le lease 3). pose proof (Z.div_le_mono 180 lease 3).
    change (180 / 3) with 60 in *. lia. }
  exists (mkGuard (Sleeping 0 r) 0 0 0), (mkGuard (Attempting r) 0 (r + lease * SECOND) 0).
  split; [|split; [|split; [done|cbn; lia]]].
  - apply (start_at lease (lease * SECOND) 0 0). unfold SECOND in *. lia.
  - eapply rtc_l; [apply (gs_wait _ _ _ _ _ _ _ r); cbn; lia|].
    eapply rtc_l; [apply gs_wake|].
    eapply rtc_l; [apply gs_check|].
    assert (check lease 0 r = None) as ->.
    { unfold check, give_up_after, elapsed_secs, wrap_u64. rewrite Z.mod_small by lia.
      rewrite (proj2 (Z.leb_gt _ _)); [done|]. rewrite Z.sub_0_r. unfold r, renew_interval.
      rewrite Z.div_mul by done. apply Z.div_lt_upper_bound; [lia|].
      pose proof (Z.mul_succ_div_gt (lease * 2) 3). pose proof (Z.mul_div_le lease 3).
      pose proof (Z.div_le_mono 180 lease 3). change (180 / 3) with 60 in *.
      pose proof (Z.mul_div_le (lease * 2) 3). lia. }
    eapply rtc_l; [|apply rtc_refl]. apply gs_wait; cbn; lia.
Qed.

Lemma stalled_renewal_outlives_lease_witness :
  exists s0 s, start 180 (180 * SECOND) s0 /\ rtc (guard_step 180 0 (180 * SECOND)) s0 s /\
    (forall r, phase s <> Lost r) /\ stamp s + 180 * SECOND < now s.
Proof. exact (stalled_renewal_outlives_lease 180 ltac:(by vm_compute)). Defined.

Import LockMem.

(** Alice holds the lock; her renewal has begun (it has read the directory)
    when she releases the lock; then the renewal goes on. *)
Definition held : mem := fst (run handle (acquire 1 alice) empty_store).
Definition late_renewal : list bool := repeat true 3 ++ repeat false 20 ++ repeat true 40.
Definition after_release : mem :=
  snd (interleave handle late_renewal (release alice) (acquire 1 alice) held).

(** A release can leave the lock behind. The release cancels the token of
    the renewal loop but does not wait for it, and an attempt under way does
    not look at the token. When an attempt has read the directory before the
    release deletes the epoch file, it creates the next epoch after it: the
    release has succeeded, nothing renews the lock, and yet a lease of the
    released holder is live and others are refused. *)
Theorem release_leaves_lease :
  exists e ts b,
    fst (interleave handle late_renewal (release alice) (acquire 1 alice) held) =
      (Ret (Ok tt), Ret (Ok (Owner e))) /\
    objects after_release !! epoch_path alice e = Some (b, ts) /\ from_slice b = Ok (own_file alice) /\
    ~ expired (mkEntry (mkMeta (epoch_path alice e) ts) (own_file alice) e) (clock after_release) /\
    snd (run handle (acquire 1 bob) after_release) = Done (Ok NotOwner).
Proof.
  exists (mkEpoch 1 (lit "00000001")), 1013, (@encode _ (Tape.codec tape_file) (own_file alice)).
  split; [vm_compute; reflexivity|]. split; [vm_compute; reflexivity|]. split; [vm_compute; reflexivity|].
  split; [|vm_compute; reflexivity].
  intros (x & Hx & Hle); vm_compute in Hx; injection Hx as <-; vm_compute in Hle; by apply Hle.
Qed.

(** ** Holding *)

Section Holding.
Context {Path St : Type} `{Countable Path} `{OP : ObjectPath Path} {ST : LockRun.Store Path St}
  {SL : StoreLaws Path St} {OL : ObjectPathLaws Path} {CH : Chrono} {CL : ChronoLaws} {SE : SerdeEpoch}
  {SEL : SerdeEpochLaws}.

(** When [hold] returns, the last of its attempts made the caller the owner: it
    has a lease, and every lease of another holder that the directory held
    when the attempt began had run out. *)
Theorem hold_owner_exclusive (n : nat) (cancels : list bool) (l : Lock Path) (s s' : St) (e : Epoch)
  (Hrun : run handle (hold (S n) cancels l) s = (s', Done (Ok e))) :
  exists s1 ts, own_lease l s' e ts /\
    forall en, entry_in l (objects s1) en -> foreign l en -> expired en ts.
Proof.
  revert s Hrun. induction cancels as [|[] cs IH]; intros s; cbn [hold]; [done|done|].
  intros Hrun.
  enough (wpp (ptry (acquire (S n) l) (fun status => match status with
      | Owner epoch => Ret (Ok epoch) | QueuedBackwardClock => Ret (Err ClockRegression)
      | Queued | Yielded | Failed | NotOwner => hold (S n) cs l end))
    (fun s2 o => o = Done (Ok e) -> s2 = s' -> exists s1 ts, own_lease l s' e ts /\
       forall en, entry_in l (objects s1) en -> foreign l en -> expired en ts) s) as Hwp
    by exact (wpp_run _ _ _ _ _ Hwp Hrun eq_refl eq_refl).
  apply wpp_try. eapply wpp_mono; [|apply wpp_acquire]. intros s2 o [ts Heff].
  assert (forall s3, wpp (hold (S n) cs l) (fun s4 o => o = Done (Ok e) -> s4 = s' ->
    exists s1 ts, own_lease l s' e ts /\
       forall en, entry_in l (objects s1) en -> foreign l en -> expired en ts) s3) as Hagain.
  { intros s3. unfold wpp. destruct (run handle (hold (S n) cs l) s3) as [s4 o4] eqn:E. cbn [fst snd].
    intros -> ->. by apply (IH s3). }
  destruct o as [[[e'| | | | |]|er]| |]; try done; try apply Hagain.
  apply wpp_ret. intros [= ->] ->. exists s, ts. by apply (effect_owner _ _ _ _ _ Heff).
Qed.

End Holding.

End Guard.
