(* ===== verification/Fencing.v ===== *)
(** Epochs across processes: the lock and the meta files together. *)

From Stdlib Require Import ZArith.
From stdpp Require Import base gmap list strings.
From S2P Require Import Prelude BepTypes Base32 Codec Kv Store StoreTape Meta ObjectStore Activation ActivationSafety.
From S2P Require Import MetaTape Registry Takeover Lock LockRun LockSafety LockMem LockExclusion.

Local Open Scope Z_scope.
Local Open Scope bep_scope.

Module Fencing.

(** ** The lock *)

Section LockSide.
Import Base32 Lock LockRun LockMem LockExclusion.

(** Alice takes the lock and renews it, then releases it; bob comes after. *)
Definition after_renewal : mem := fst (run handle (acquire 1 alice) (fst (run handle (acquire 1 alice) empty_store))).
Definition after_release : mem := fst (run handle (release alice) after_renewal).

End LockSide.

(** ** The meta files *)

Section MetaSide.
Import Base32 Kv Store Meta ObjectStore Activation ActivationSafety MetaTape Registry Takeover.
#[local] Existing Instance StoreTape.codecs.

(** A process of epoch 1 is suspended with its session; the next one (epoch 2)
    takes over and stops; a third one, of epoch [e], registers a folder. Then
    the first resumes and registers another folder; the last one starts. *)
Definition successor : MemStorage := fst (activate epoch2 (next_process photos)).
Definition third_process (e : Epoch) : MemStorage :=
  run_op toy_sha (ORegister (lit "docs") (lit "Docs")) (fst (activate e (next_process successor))).
Definition late_write (e : Epoch) : MemStorage * result Failure bytes :=
  register_folder toy_sha (lit "music") (lit "Music") (set_os photos (object_store (third_process e))).
Definition last_process (e last : Epoch) : MemStorage := fst (activate last (next_process (fst (late_write e)))).
Definition folders_of (s : MemStorage) : result Failure (list (bytes * bytes * bytes)) := snd (list_folders s).

End MetaSide.

Import Base32 Kv Store Lock LockRun LockMem LockExclusion Meta ObjectStore Activation ActivationSafety MetaTape Registry Takeover.
#[local] Existing Instance StoreTape.codecs.


End Fencing.
