(* ===== verification/StorageUri.v ===== *)
(** Where a repository is kept ([bepository-cli/src/main.rs]): the storage URI,
    the options that its query and the environment give to the object store, the
    refusal to look for credentials in the metadata services of a cloud, the
    directory of the block cache and the name of the lock holder.

    The stores themselves (object_store, opendal), the parts of a URL and the
    file system are interfaces; so is [str::to_lowercase], whose Unicode tables
    play no role here. *)

From Stdlib Require Import ZArith Lia.
From stdpp Require Import base gmap list strings.
From S2P Require Import Prelude EnvFile Credentials Upgrade DeviceId.

Local Open Scope Z_scope.
Local Open Scope bep_scope.

Module StorageUri.
Import Credentials.

Abbreviation opts := (list (bytes * bytes)).

Inductive Error :=
| InvalidUri
| NoS3Credentials
| NoGcsCredentials
| MissingDirectory
| CreateFailed
| LocalFailed
| SftpFailed
| StoreFailed.

(** ** The interfaces *)

(** The rest of the URL library. *)
Class UrlParts (U : Type) := {
  host_str : U -> option bytes;
  (** [set_query(None)] *)
  without_query : U -> U
}.

(** The constructors of stores, over a file system [W]. [parse_url_opts] also
    gives the path inside the store. *)
Class Backends (U S W : Type) := {
  in_memory : S;
  local_with_prefix : bytes -> W -> option S;
  sftp_from_uri : bytes -> option S;
  parse_url_opts : U -> opts -> option (S * bytes);
  prefix_store : S -> bytes -> S;
  path_exists : bytes -> W -> bool;
  create_dir_all : bytes -> W -> W * bool
}.

(** ** Options *)

Section Options.
Context {U : Type} `{!Url U} `{!UrlParts U}.
Context (to_lowercase : bytes -> bytes).

Definition lowercase_aws_key (key : bytes) : bytes :=
  if starts_with (lit "AWS_") key then Upgrade.to_ascii_lowercase key else key.

Definition DEFAULTS : opts := [(lit "timeout", lit "10min")].

Definition ALIASES : list (bytes * bytes) :=
  [(lit "google_application_credentials", lit "google_service_account_path")].

(** The canonical option of one that is an alias. *)
Definition aliased (kv : bytes * bytes) : option (bytes * bytes) :=
  match find (fun a => bool_decide (fst a = to_lowercase (fst kv))) ALIASES with
  | Some (_, canonical) => Some (canonical, snd kv)
  | None => None
  end.

Definition non_empty (kv : bytes * bytes) : bool := negb (bool_decide (snd kv = [])).

Definition lowered_query (u : U) : opts := map (fun kv => (to_lowercase (fst kv), snd kv)) (query_pairs u).
Definition lowered_vars (vars : opts) : opts := map (fun kv => (lowercase_aws_key (fst kv), snd kv)) vars.

(** [merge_object_store_opts]; [vars] are the variables of the process. *)
Definition merge_object_store_opts (u : U) (vars : opts) : opts :=
  let merged := List.filter non_empty (DEFAULTS ++ lowered_query u ++ lowered_vars vars) in
  merged ++ omap aliased merged.

Definition is_truthy (v : bytes) : bool :=
  bool_decide (Upgrade.to_ascii_lowercase v ∈ [lit "1"; lit "true"; lit "on"; lit "yes"; lit "y"]).

Definition AMBIENT : bytes := lit "use_ambient_creds".
Definition eq_ignore_ascii_case (a b : bytes) : bool :=
  bool_decide (Upgrade.to_ascii_lowercase a = Upgrade.to_ascii_lowercase b).
Definition is_ambient_key (kv : bytes * bytes) : bool := eq_ignore_ascii_case (fst kv) AMBIENT.

(** The scheme that decides which builder object_store uses. *)
Definition effective_scheme (u : U) : bytes :=
  match bool_decide (scheme u = lit "https"), host_str u with
  | true, Some host =>
      if ends_with (lit "amazonaws.com") host || ends_with (lit "r2.cloudflarestorage.com") host
      then lit "s3" else scheme u
  | _, _ => scheme u
  end.

Definition s3_credential (kv : bytes * bytes) : bool :=
  if bool_decide (fst kv ∈ [lit "aws_skip_signature"; lit "skip_signature"]) then is_truthy (snd kv)
  else bool_decide (fst kv ∈ [lit "aws_access_key_id"; lit "access_key_id"]).

Definition gcs_credential (kv : bytes * bytes) : bool :=
  if bool_decide (fst kv ∈ [lit "google_skip_signature"; lit "skip_signature"]) then is_truthy (snd kv)
  else bool_decide (fst kv ∈ [lit "google_service_account"; lit "service_account";
                             lit "google_service_account_path"; lit "service_account_path";
                             lit "google_service_account_key"; lit "service_account_key";
                             lit "google_bearer_token"; lit "bearer_token"; lit "application_credentials"]).

Definition is_s3 (s : bytes) : bool := bool_decide (s ∈ [lit "s3"; lit "s3a"]).
Definition is_gs (s : bytes) : bool := bool_decide (s = lit "gs").

Definition require_explicit_credentials (u : U) (o : opts) : result Error unit :=
  if existsb (fun kv => is_ambient_key kv && is_truthy (snd kv)) o then Ok tt
  else
    let s := effective_scheme u in
    if is_s3 s then if existsb s3_credential o then Ok tt else Err NoS3Credentials
    else if is_gs s then if existsb gcs_credential o then Ok tt else Err NoGcsCredentials
    else Ok tt.

(** ** Opening *)

Context {S W : Type} `{!Backends U S W}.

(** What object_store is given. *)
Definition store_options (u : U) (vars : opts) : opts :=
  List.filter (fun kv => negb (is_ambient_key kv)) (merge_object_store_opts u vars).

Definition open_object_store (u : U) (vars : opts) : result Error S :=
  try _ <- require_explicit_credentials u (merge_object_store_opts u vars);
  match parse_url_opts (without_query u) (store_options u vars) with
  | None => Err StoreFailed
  | Some (store, []) => Ok store
  | Some (store, prefix) => Ok (prefix_store store prefix)
  end.

Definition open_local (uri : bytes) (create : bool) : SE W Error S := fun w =>
  let path := default uri (strip_prefix (lit "file://") uri) in
  let '(w1, r) :=
    if path_exists path w then (w, Ok tt)
    else if create then let '(w', made) := create_dir_all path w in (w', if made then Ok tt else Err CreateFailed)
    else (w, Err MissingDirectory) in
  (w1, try _ <- r; ok_or (local_with_prefix path w1) LocalFailed).

Definition open_sftp (uri : bytes) : result Error S := ok_or (sftp_from_uri uri) SftpFailed.

(** [uri.contains("://")] *)
Definition has_scheme (uri : bytes) : bool :=
  match split_once (lit "://") uri with Some _ => true | None => false end.

Definition is_local (uri : bytes) : bool := negb (has_scheme uri) || starts_with (lit "file://") uri.

Definition parse_storage_uri (uri : bytes) (create : bool) (vars : opts) : SE W Error S :=
  if starts_with (lit "memory://") uri then se_ret in_memory
  else if is_local uri then open_local uri create
  else
    do! u <- se_lift (ok_or (url_parse uri) InvalidUri);
    if bool_decide (scheme u = lit "sftp") then se_lift (open_sftp uri)
    else se_lift (open_object_store u vars).

(** ** Specification *)

(** The value that counts when an option is given more than once. *)
Definition effective (k : bytes) (o : opts) : option bytes :=
  snd <$> last (List.filter (fun kv => bool_decide (fst kv = k)) o).

(** The test for a credential of the provider of a URL; other providers need
    none. *)
Definition needs (u : U) : option (bytes * bytes -> bool) :=
  if is_s3 (effective_scheme u) then Some s3_credential
  else if is_gs (effective_scheme u) then Some gcs_credential
  else None.

(** An option that the user has given: a pair of the query or a variable, with
    a value. *)
Definition given (u : U) (vars : opts) (kv : bytes * bytes) : Prop :=
  snd kv <> [] /\
  ((exists k, (k, snd kv) ∈ query_pairs u /\ fst kv = to_lowercase k) \/
   (exists k, (k, snd kv) ∈ vars /\ fst kv = lowercase_aws_key k)).

(** A key file for Google storage under its usual name. *)
Definition google_key_file (u : U) (kv : bytes * bytes) : Prop :=
  effective_scheme u = lit "gs" /\ to_lowercase (fst kv) = lit "google_application_credentials".

Definition refused (r : result Error S) : bool :=
  match r with Err (NoS3Credentials | NoGcsCredentials) => true | _ => false end.

Lemma effective_app k a b : effective k (a ++ b) = match effective k b with Some v => Some v | None => effective k a end.
Proof.
  unfold effective. rewrite List.filter_app, last_app. by destruct (last (List.filter _ b)).
Qed.

Lemma effective_filter (P : bytes * bytes -> bool) k o :
  (forall kv, fst kv = k -> P kv = true) -> effective k (List.filter P o) = effective k o.
Proof.
  intros HP. unfold effective. f_equal. f_equal. induction o as [|kv o IH]; [done|]. cbn [List.filter].
  destruct (P kv) eqn:E; cbn [List.filter]; [by rewrite IH|].
  rewrite IH, bool_decide_eq_false_2; [done|]. intros Hk. by rewrite HP in E.
Qed.

Lemma effective_none k o : (forall kv, kv ∈ o -> fst kv <> k) -> effective k o = None.
Proof.
  intros H. unfold effective. induction o as [|kv o IH]; [done|]. cbn [List.filter].
  rewrite bool_decide_eq_false_2 by (apply H; by left). apply IH. intros kv' Hin. apply H. by right.
Qed.

Lemma elem_filter (P : bytes * bytes -> bool) kv o : kv ∈ List.filter P o <-> kv ∈ o /\ P kv = true.
Proof. by rewrite !list_elem_of_In, filter_In. Qed.

(** The options before the aliases are those given, and the default. *)
Lemma merged_given u vars kv :
  kv ∈ List.filter non_empty (DEFAULTS ++ lowered_query u ++ lowered_vars vars) <->
  kv ∈ DEFAULTS \/ given u vars kv.
Proof.
  assert (forall (f : bytes -> bytes) (o : opts), kv ∈ map (fun x => (f (fst x), snd x)) o <->
    exists k, (k, snd kv) ∈ o /\ fst kv = f k) as Hmap.
  { intros f o. rewrite list_elem_of_fmap. split.
    - intros ([k v] & -> & H). by exists k.
    - intros (k & H & E). exists (k, snd kv). split; [|done]. destruct kv as [k' v]. cbn in *. by rewrite E. }
  rewrite elem_filter, !elem_of_app. unfold lowered_query, lowered_vars, given, non_empty. rewrite !Hmap.
  destruct (bool_decide_reflect (snd kv = [])) as [E|E]; cbn [negb]; [|naive_solver].
  split; [naive_solver|]. intros [H|[? _]]; [|done]. apply list_elem_of_singleton in H as ->. done.
Qed.

Lemma elem_aliased (kv : bytes * bytes) (o : opts) :
  kv ∈ omap aliased o <->
  exists k, (k, snd kv) ∈ o /\ to_lowercase k = lit "google_application_credentials" /\ fst kv = lit "google_service_account_path".
Proof.
  rewrite list_elem_of_omap. unfold aliased, ALIASES. cbn [find fst snd]. split.
  - intros ([k v] & Hin & H). cbn [fst snd] in H. case_bool_decide as E; [|done]. injection H as <-. by exists k.
  - intros (k & Hin & E & Ek). exists (k, snd kv). split; [done|]. cbn [fst snd].
    rewrite bool_decide_eq_true_2 by done. destruct kv. cbn in *. by subst.
Qed.

Lemma existsb_elem (P : bytes * bytes -> bool) o : existsb P o = true <-> exists kv, kv ∈ o /\ P kv = true.
Proof. rewrite existsb_exists. by setoid_rewrite list_elem_of_In. Qed.

Lemma refused_existsb u vars (test : bytes * bytes -> bool) : needs u = Some test ->
  existsb (fun kv => is_ambient_key kv && is_truthy (snd kv)) (merge_object_store_opts u vars) ||
  existsb test (merge_object_store_opts u vars) = negb (refused (open_object_store u vars)).
Proof.
  unfold open_object_store, require_explicit_credentials, needs.
  destruct (existsb (fun _ => _ && _) (merge_object_store_opts u vars)); cbn [orb rbind].
  { intros _. by destruct (parse_url_opts _ _) as [[st [|]]|]. }
  destruct (is_s3 _); [|destruct (is_gs _); [|done]]; intros [= <-];
    (destruct (existsb _ _); [by destruct (parse_url_opts _ _) as [[st [|]]|]|done]).
Qed.

Lemma test_default u (test : bytes * bytes -> bool) : needs u = Some test -> existsb test DEFAULTS = false.
Proof. unfold needs. destruct (is_s3 _); [by intros [= <-]|]. destruct (is_gs _); [by intros [= <-]|done]. Qed.

Lemma test_alias u (test : bytes * bytes -> bool) v : needs u = Some test ->
  test (lit "google_service_account_path", v) = true <-> effective_scheme u = lit "gs".
Proof.
  unfold needs, is_gs. destruct (is_s3 _) eqn:Hs.
  - intros [= <-]. split; [done|]. intros E. rewrite E in Hs. by vm_compute in Hs.
  - case_bool_decide as Hg; [|done]. by intros [= <-].
Qed.

(** On ASCII text [to_lowercase] is [to_ascii_lowercase]. *)
Context (lower_ascii : forall s, Forall (fun c => 0 <= c < 128) s -> to_lowercase s = Upgrade.to_ascii_lowercase s).

Lemma existsb_merged (P : bytes * bytes -> bool) u vars :
  existsb P DEFAULTS = false ->
  existsb P (merge_object_store_opts u vars) = true <->
  exists kv, given u vars kv /\
    (P kv = true \/ (to_lowercase (fst kv) = lit "google_application_credentials" /\
                    P (lit "google_service_account_path", snd kv) = true)).
Proof.
  intros Hd. rewrite existsb_elem. unfold merge_object_store_opts. setoid_rewrite elem_of_app.
  setoid_rewrite elem_aliased. setoid_rewrite merged_given. split.
  - intros (kv & [[Hin|Hg]|(k & [Hin|Hg] & Ek & E)] & HP).
    + enough (existsb P DEFAULTS = true) by congruence. apply existsb_elem. by exists kv.
    + exists kv. by split; [|left].
    + apply list_elem_of_singleton in Hin. injection Hin as -> _.
      rewrite lower_ascii in Ek; [vm_compute in Ek; done|]. repeat (constructor; [lia|]). constructor.
    + exists (k, snd kv). split; [done|]. right. split; [done|]. rewrite <- E. by destruct kv.
  - intros (kv & Hg & [HP|[Ek HP]]).
    + exists kv. split; [|done]. left. by right.
    + exists (lit "google_service_account_path", snd kv). split; [|done]. right. exists (fst kv).
      split; [right; by destruct kv|done].
Qed.


End Options.

(** ** The cache directory and the lock holder *)

Record CacheArgs := mkCache { cache_dir : option bytes; no_cache : bool }.

(** [get_cache_dir]; [project] is the cache directory of the platform. *)
Definition get_cache_dir (vars : opts) (project : option bytes) : option bytes :=
  match value_of (lit "BEPOSITORY_CACHE_DIRECTORY") vars, value_of (lit "CACHE_DIRECTORY") vars with
  | Some dir, _ | None, Some dir => head (split_char COLON dir)
  | None, None => project
  end.

(** [PathBuf::join] with a name. *)
Definition path_join (base name : bytes) : bytes :=
  if bool_decide (base = []) || ends_with [SLASH] base then base ++ name else base ++ [SLASH] ++ name.

(** [CacheProvider::get_cache_dir] for [CacheArgs]; [None] also stands for the
    panic of printing an id that is not one. *)
Definition cache_dir_for (args : CacheArgs) (vars : opts) (project : option bytes) (device_id : bytes) : option bytes :=
  if no_cache args then None
  else
    base ← match cache_dir args with Some d => Some d | None => get_cache_dir vars project end;
    path_join base <$> ok (DeviceId.fmt device_id).

(** The name under which [async_main] takes the locks. *)
Definition holder_name (machine_id : bytes) (is_self_manage : bool) (storage_uri : bytes) : bytes :=
  machine_id ++ [SLASH] ++ (if is_self_manage then lit "self-manage" else storage_uri).

(** ** Examples *)

(** A bucket with a query; a store that remembers its options; no files. *)
Definition Bucket : Type := list (bytes * bytes).
#[export] Instance Bucket_Url : Url Bucket := {
  url_parse t := if bool_decide (t = lit "s3://bucket") then Some [] else None;
  url_text _ := lit "s3://bucket";
  scheme _ := lit "s3";
  query_pairs u := u;
  with_pairs _ ps := ps
}.
#[export] Instance Bucket_Parts : UrlParts Bucket := { host_str _ := Some (lit "bucket"); without_query _ := [] }.
#[export] Instance Bucket_Backends : Backends Bucket opts unit := {
  in_memory := [];
  local_with_prefix _ _ := Some [];
  sftp_from_uri _ := Some [];
  parse_url_opts _ o := Some (o, []);
  prefix_store s _ := s;
  path_exists _ _ := true;
  create_dir_all _ w := (w, true)
}.

Definition anonymous : Bucket := [(lit "SKIP_SIGNATURE", lit "yes")].
Definition override : opts := [(lit "AWS_SKIP_SIGNATURE", lit "false"); (lit "AWS_ACCESS_KEY_ID", [])].


(** How the S3 builder reads its options: both spellings set the same switch. *)
Definition signature_skipped (o : opts) : bool :=
  match last (List.filter (fun kv => bool_decide (fst kv ∈ [lit "aws_skip_signature"; lit "skip_signature"])) o) with
  | Some kv => is_truthy (snd kv)
  | None => false
  end.

(** The check of the credentials looks for any option that allows the
    connection, while the library uses the last one. A URL that asks for
    anonymous access and a variable that turns it off: the store is opened
    although the options it uses name no credential and do not skip the
    signature, so it goes looking for ambient credentials. *)
Theorem overridden_switch_passes :
  match open_object_store (S := opts) (W := unit) Upgrade.to_ascii_lowercase anonymous override with
  | Ok o => signature_skipped o = false /\ effective (lit "aws_access_key_id") o = None /\
            effective (lit "access_key_id") o = None /\ existsb is_ambient_key o = false
  | Err _ => False
  end.
Proof. vm_compute. done. Qed.

End StorageUri.
