(* ===== verification/Tls.v ===== *)
(** The TLS layer ([bepository-tls/src/lib.rs]): the identity of this device,
    the configurations given to rustls with their certificate verifiers, and the
    device id of the peer of a connection.

    rustls is an interface: a connection attempt shows what the other side
    presents ([Offer]), and the laws say how the documented handshake consults
    the verifier of the configuration. The configurations are cached in the
    source; they are functions of the identity. *)

From Stdlib Require Import ZArith.
From stdpp Require Import base list strings.
From S2P Require Import Prelude Meta.

Local Open Scope Z_scope.
Local Open Scope bep_scope.

Module Tls.
Import Meta.

Inductive TlsError := CertGen | RustlsError | Io | NoPeerCertificate.

(** ** What rustls asks for *)

Inductive SignatureScheme :=
| RSA_PKCS1_SHA256 | RSA_PKCS1_SHA384 | RSA_PKCS1_SHA512
| ECDSA_NISTP256_SHA256 | ECDSA_NISTP384_SHA384 | ECDSA_NISTP521_SHA512
| RSA_PSS_SHA256 | RSA_PSS_SHA384 | RSA_PSS_SHA512 | ED25519.

#[global] Instance SignatureScheme_eq_dec : EqDecision SignatureScheme.
Proof. solve_decision. Defined.

(** A signature over the handshake, and the side that checks it. *)
Record Dss := mkDss { dss_scheme : SignatureScheme; signature : bytes }.

Record ServerCertVerifier := mkServerVerifier {
  verify_server_cert : bytes -> list bytes -> bytes -> bool;
  server_tls12_signature : bytes -> bytes -> Dss -> bool;
  server_tls13_signature : bytes -> bytes -> Dss -> bool;
  server_schemes : list SignatureScheme
}.

Record ClientCertVerifier := mkClientVerifier {
  verify_client_cert : bytes -> list bytes -> bool;
  client_tls12_signature : bytes -> bytes -> Dss -> bool;
  client_tls13_signature : bytes -> bytes -> Dss -> bool;
  client_schemes : list SignatureScheme;
  offer_client_auth : bool;
  client_auth_mandatory : bool
}.

Record ClientConfig := mkClientConfig {
  server_verifier : ServerCertVerifier; client_chain : list bytes; client_key : bytes; client_alpn : list bytes }.
Record ServerConfig := mkServerConfig {
  client_verifier : ClientCertVerifier; server_chain : list bytes; server_key : bytes; server_alpn : list bytes }.

(** What the other side presents: its chain of certificates, and for the
    transcript of the handshake a signature that is to show that it holds the
    key of the first one. *)
Record Offer := mkOffer { chain : list bytes; transcript : bytes; dss : Dss; tls13 : bool }.

(** ** The verifiers *)

Definition all_schemes : list SignatureScheme :=
  [RSA_PKCS1_SHA256; RSA_PKCS1_SHA384; RSA_PKCS1_SHA512; ECDSA_NISTP256_SHA256; ECDSA_NISTP384_SHA384;
   ECDSA_NISTP521_SHA512; RSA_PSS_SHA256; RSA_PSS_SHA384; RSA_PSS_SHA512; ED25519].

Definition AcceptAnyCert : ServerCertVerifier :=
  mkServerVerifier (fun _ _ _ => true) (fun _ _ _ => true) (fun _ _ _ => true) all_schemes.

Definition AcceptAnyClientCert : ClientCertVerifier :=
  mkClientVerifier (fun _ _ => true) (fun _ _ _ => true) (fun _ _ _ => true) all_schemes true true.

Definition ALPN : list bytes := [lit "bep/1.0"].

(** ** The library *)

(** [usable_key] is the check of the configuration builders that a key fits a
    certificate; [negotiates] says that everything in a handshake but the
    certificates of the peer goes through; [valid_signature] is the
    cryptographic check, which the library leaves to the verifier. *)
Class Rustls (Tcp Stream : Type) := {
  generate_self_signed : bytes -> option (bytes * bytes);
  usable_key : bytes -> bytes -> bool;
  tcp_connect : bytes -> option Tcp;
  tls_connect : ClientConfig -> bytes -> Tcp -> option Stream;
  tls_accept : ServerConfig -> Tcp -> option Stream;
  peer_certificates : Stream -> option (list bytes);
  offer : Tcp -> Offer;
  negotiates : Tcp -> list bytes -> Prop;
  valid_signature : bytes -> bytes -> Dss -> bool
}.

(** The verdict of a verifier on what a client presents. *)
Definition client_verdict (v : ClientCertVerifier) (o : Offer) : bool :=
  match chain o with
  | [] => negb (client_auth_mandatory v)
  | leaf :: rest =>
      verify_client_cert v leaf rest && bool_decide (dss_scheme (dss o) ∈ client_schemes v) &&
      (if tls13 o then client_tls13_signature v else client_tls12_signature v) (transcript o) leaf (dss o)
  end.

Definition server_verdict (v : ServerCertVerifier) (server_name : bytes) (o : Offer) : bool :=
  match chain o with
  | [] => false
  | leaf :: rest =>
      verify_server_cert v leaf rest server_name && bool_decide (dss_scheme (dss o) ∈ server_schemes v) &&
      (if tls13 o then server_tls13_signature v else server_tls12_signature v) (transcript o) leaf (dss o)
  end.

Definition presented (o : Offer) : option (list bytes) :=
  match chain o with [] => None | c => Some c end.

Class RustlsLaws (Tcp Stream : Type) `{Rustls Tcp Stream} : Prop := {
  accept_law cfg tcp s : tls_accept cfg tcp = Some s ->
    client_verdict (client_verifier cfg) (offer tcp) = true /\ peer_certificates s = presented (offer tcp);
  accept_complete cfg tcp : negotiates tcp (server_alpn cfg) -> client_verdict (client_verifier cfg) (offer tcp) = true ->
    is_Some (tls_accept cfg tcp);
  connect_law cfg name tcp s : tls_connect cfg name tcp = Some s ->
    server_verdict (server_verifier cfg) name (offer tcp) = true /\ peer_certificates s = presented (offer tcp);
  connect_complete cfg name tcp : negotiates tcp (client_alpn cfg) -> server_verdict (server_verifier cfg) name (offer tcp) = true ->
    is_Some (tls_connect cfg name tcp)
}.

Section Tls.
Context {Tcp Stream : Type} `{!Rustls Tcp Stream} (sha256 : bytes -> bytes).

(** ** The identity *)

(** [Identity::generate]. *)
Definition generate : result TlsError Identity :=
  try (cert, key) <- ok_or (generate_self_signed (lit "syncthing")) CertGen;
  Ok (identity_from_der sha256 cert key).

(** [Identity::client_config] and [Identity::server_config]. *)
Definition client_config (i : Identity) : result TlsError ClientConfig :=
  if usable_key (id_cert i) (id_key i)
  then Ok (mkClientConfig AcceptAnyCert [id_cert i] (id_key i) ALPN) else Err RustlsError.

Definition server_config (i : Identity) : result TlsError ServerConfig :=
  if usable_key (id_cert i) (id_key i)
  then Ok (mkServerConfig AcceptAnyClientCert [id_cert i] (id_key i) ALPN) else Err RustlsError.

(** ** Connections *)

Record BepStream := mkBepStream { stream : Stream; stream_peer : bytes }.

Definition peer_device_id (certs : list bytes) : result TlsError bytes :=
  try leaf <- ok_or (head certs) NoPeerCertificate;
  Ok (sha256 leaf).

(** The end of [connect] and [accept]. *)
Definition with_peer (s : Stream) : result TlsError BepStream :=
  try certs <- ok_or (peer_certificates s) NoPeerCertificate;
  try peer_id <- peer_device_id certs;
  Ok (mkBepStream s peer_id).

Definition connect (addr : bytes) (i : Identity) : result TlsError BepStream :=
  let addr := default addr (strip_prefix (lit "tcp://") addr) in
  try tcp <- ok_or (tcp_connect addr) Io;
  try config <- client_config i;
  try s <- ok_or (tls_connect config (lit "syncthing") tcp) Io;
  with_peer s.

Definition accept (tcp : Tcp) (i : Identity) : result TlsError BepStream :=
  try config <- server_config i;
  try s <- ok_or (tls_accept config tcp) Io;
  with_peer s.

(** ** Theorems *)

Context `{!RustlsLaws Tcp Stream}.

Lemma with_peer_presented s o :
  peer_certificates s = presented o ->
  with_peer s = match chain o with [] => Err NoPeerCertificate | leaf :: _ => Ok (mkBepStream s (sha256 leaf)) end.
Proof. unfold with_peer, presented. intros ->. by destruct (chain o). Qed.

Lemma accept_leaf (i : Identity) (tcp : Tcp) (b : BepStream) : accept tcp i = Ok b ->
  exists leaf rest, chain (offer tcp) = leaf :: rest /\ stream_peer b = sha256 leaf /\
    peer_certificates (stream b) = Some (leaf :: rest).
Proof.
  unfold accept, server_config. destruct (usable_key _ _); cbn [rbind]; [|done].
  destruct (tls_accept _ tcp) as [s|] eqn:E; cbn [ok_or rbind]; [|done].
  apply accept_law in E as [_ Hs]. rewrite (with_peer_presented s _ Hs). unfold presented in Hs.
  destruct (chain (offer tcp)) as [|leaf rest]; cbn; [done|]. intros [= <-]. by exists leaf, rest.
Qed.

Lemma accept_any_signature (i : Identity) (tcp : Tcp) (leaf : bytes) (rest : list bytes) :
  usable_key (id_cert i) (id_key i) = true -> negotiates tcp ALPN -> chain (offer tcp) = leaf :: rest ->
  exists s, accept tcp i = Ok (mkBepStream s (sha256 leaf)).
Proof.
  intros Hkey Hneg Hchain. unfold accept, server_config. rewrite Hkey. cbn [rbind].
  set (cfg := mkServerConfig _ _ _ _).
  assert (client_verdict (client_verifier cfg) (offer tcp) = true) as Hv.
  { unfold client_verdict. rewrite Hchain. cbn. destruct (tls13 _); by destruct (dss_scheme (dss (offer tcp))). }
  destruct (accept_complete cfg tcp Hneg Hv) as [s Hs]. rewrite Hs. cbn [ok_or rbind].
  apply accept_law in Hs as [_ Hs]. exists s. by rewrite (with_peer_presented s _ Hs), Hchain.
Qed.

(** A peer is identified by its certificate and by nothing else. The device
    id of an accepted connection is the SHA-256 sum of the first certificate
    that the peer presented, and a peer without one is turned away. But the
    verifiers accept every signature: a peer that presents the certificate of a
    device with a signature that its key did not make, and follows the protocol
    otherwise, is accepted as that device. *)
Theorem forged_signature_accepted (i : Identity) (tcp : Tcp) :
  (forall b, accept tcp i = Ok b -> exists leaf rest, chain (offer tcp) = leaf :: rest /\ stream_peer b = sha256 leaf) /\
  (forall leaf rest, usable_key (id_cert i) (id_key i) = true -> negotiates tcp ALPN ->
     chain (offer tcp) = leaf :: rest ->
     valid_signature (transcript (offer tcp)) leaf (dss (offer tcp)) = false ->
     exists s, accept tcp i = Ok (mkBepStream s (sha256 leaf))).
Proof.
  split; [|intros leaf rest ? ? ? _; by eapply accept_any_signature].
  intros b (leaf & rest & ? & ? & _)%accept_leaf. by exists leaf, rest.
Qed.

End Tls.

(** ** Example *)

(** Connections are offers; a signature is valid when it is the certificate. *)
#[export] Instance ToyRustls : Rustls Offer Offer := {
  generate_self_signed _ := Some (lit "cert", lit "key");
  usable_key _ _ := true;
  tcp_connect _ := None;
  tls_connect cfg name o := if server_verdict (server_verifier cfg) name o then Some o else None;
  tls_accept cfg o := if client_verdict (client_verifier cfg) o then Some o else None;
  peer_certificates := presented;
  offer o := o;
  negotiates _ _ := True;
  valid_signature _ leaf d := bool_decide (signature d = leaf)
}.

#[export] Instance ToyRustlsLaws : RustlsLaws Offer Offer.
Proof.
  split; cbn.
  - intros cfg o s. destruct (client_verdict _ _); [|done]. by intros [= <-].
  - intros cfg o _ ->. by eexists.
  - intros cfg name o s. destruct (server_verdict _ _ _); [|done]. by intros [= <-].
  - intros cfg name o _ ->. by eexists.
Qed.

Definition thief : Offer := mkOffer [lit "victim"] (lit "hello") (mkDss ED25519 (lit "noise")) true.

Lemma forged_signature_accepted_witness :
  exists s, accept (fun b => b) thief (mkIdentity (lit "cert") (lit "key") (lit "id")) = Ok (mkBepStream s (lit "victim")).
Proof.
  destruct (forged_signature_accepted (fun b => b) (mkIdentity (lit "cert") (lit "key") (lit "id")) thief) as [_ H].
  apply (H (lit "victim") []); [reflexivity|exact I|reflexivity|by vm_compute].
Defined.

End Tls.
