(* ===== verification/Readers.v ===== *)
(** The cache of snapshot readers ([snapshot_reader] and the end of [close] of
    [bepository-storage/src/api.rs]): callers look up a reader, open one outside
    the lock when there is none, and close theirs again when another caller was
    faster.

    The callers are interleaved: a step is a critical section, an answer of the
    database library, or the end of a use. [DbReader] has no [Drop], so a reader
    that is neither cached nor closed stays open for ever. *)

From Stdlib Require Import ZArith Lia.
From stdpp Require Import base gmap list relations sets strings.
From S2P Require Import Prelude.

Local Open Scope nat_scope.

Module Readers.

(** The directory of the folder and the id of the checkpoint. *)
Abbreviation Key := (bytes * bytes)%type.

(** Where a caller of [snapshot_reader] is; [Using] is the caller afterwards,
    as long as it has the reader. *)
Inductive Phase :=
| Looking (k : Key)
| Opening (k : Key)
| Opened (k : Key) (r : nat)
| Losing (k : Key) (mine shared : nat)
| Using (k : Key) (r : nat).

(** [is_open] are the readers that were opened and not closed; [abandoned] the
    ones that were in use when the storage was closed. *)
Record Readers := mkReaders {
  readers : gmap Key nat;
  is_open : gset nat;
  next : nat;
  callers : gmap nat Phase;
  abandoned : gset nat
}.

Definition empty : Readers := mkReaders ∅ ∅ 0 ∅ ∅.

Definition set_caller (s : Readers) (c : nat) (p : Phase) : Readers :=
  mkReaders (readers s) (is_open s) (next s) (<[ c := p ]> (callers s)) (abandoned s).
Definition end_caller (s : Readers) (c : nat) : Readers :=
  mkReaders (readers s) (is_open s) (next s) (delete c (callers s)) (abandoned s).

(** The first critical section. *)
Definition look (k : Key) (s : Readers) : Phase :=
  match readers s !! k with Some r => Using k r | None => Opening k end.

(** The library has opened a reader. *)
Definition open (c : nat) (k : Key) (s : Readers) : Readers :=
  mkReaders (readers s) ({[ next s ]} ∪ is_open s) (S (next s)) (<[ c := Opened k (next s) ]> (callers s)) (abandoned s).

(** The second critical section. *)
Definition install (c : nat) (k : Key) (r : nat) (s : Readers) : Readers :=
  match readers s !! k with
  | Some existing => set_caller s c (Losing k r existing)
  | None => mkReaders (<[ k := r ]> (readers s)) (is_open s) (next s) (<[ c := Using k r ]> (callers s)) (abandoned s)
  end.

Definition close_mine (c : nat) (k : Key) (mine shared : nat) (s : Readers) : Readers :=
  mkReaders (readers s) (is_open s ∖ {[ mine ]}) (next s) (<[ c := Using k shared ]> (callers s)) (abandoned s).

(** A caller has a clone of the shared reader. *)
Definition holds (r : nat) (p : Phase) : bool :=
  match p with Using _ r' | Losing _ _ r' => Nat.eqb r r' | _ => false end.

Definition in_use (s : Readers) (r : nat) : bool :=
  existsb (fun cp => holds r (snd cp)) (map_to_list (callers s)).

(** [close]: the cache is emptied, and a reader nobody else has is closed
    ([Arc::try_unwrap]). *)
Definition cached (s : Readers) : gset nat := list_to_set (snd <$> map_to_list (readers s)).

Definition close (s : Readers) : Readers :=
  mkReaders ∅ (is_open s ∖ filter (fun r => in_use s r = false) (cached s)) (next s) (callers s)
    (abandoned s ∪ filter (fun r => in_use s r = true) (cached s)).

Inductive step (s : Readers) : Readers -> Prop :=
| step_call c k : callers s !! c = None -> step s (set_caller s c (Looking k))
| step_look c k : callers s !! c = Some (Looking k) -> step s (set_caller s c (look k s))
| step_fail c k : callers s !! c = Some (Opening k) -> step s (end_caller s c)
| step_open c k : callers s !! c = Some (Opening k) -> step s (open c k s)
| step_install c k r : callers s !! c = Some (Opened k r) -> step s (install c k r s)
| step_close_mine c k mine shared : callers s !! c = Some (Losing k mine shared) -> step s (close_mine c k mine shared s)
| step_done c k r : callers s !! c = Some (Using k r) -> step s (end_caller s c)
| step_close : step s (close s).

(** ** The invariant *)

(** The reader that only this caller knows. *)
Definition private (p : Phase) : option nat :=
  match p with Opened _ r | Losing _ r _ => Some r | _ => None end.

(** The shared reader that the caller has, with its key. *)
Definition shared (p : Phase) : option (Key * nat) :=
  match p with Using k r | Losing k _ r => Some (k, r) | _ => None end.

Record inv (s : Readers) : Prop := mkInv {
  inv_next r : r ∈ is_open s -> r < next s;
  inv_cached k r : readers s !! k = Some r -> r ∈ is_open s;
  inv_one_key k1 k2 r : readers s !! k1 = Some r -> readers s !! k2 = Some r -> k1 = k2;
  inv_private c p r : callers s !! c = Some p -> private p = Some r ->
    r ∈ is_open s /\ (forall k, readers s !! k <> Some r) /\ r ∉ abandoned s;
  inv_private_one c1 c2 p1 p2 r : callers s !! c1 = Some p1 -> callers s !! c2 = Some p2 ->
    private p1 = Some r -> private p2 = Some r -> c1 = c2;
  inv_shared c p k r : callers s !! c = Some p -> shared p = Some (k, r) ->
    readers s !! k = Some r \/ r ∈ abandoned s;
  inv_abandoned r : r ∈ abandoned s -> r ∈ is_open s /\ forall k, readers s !! k <> Some r;
  inv_owned r : r ∈ is_open s ->
    (exists k, readers s !! k = Some r) \/ (exists c p, callers s !! c = Some p /\ private p = Some r) \/ r ∈ abandoned s
}.

Lemma inv_empty : inv empty.
Proof. split; cbn; try set_solver. Qed.

(** A step of one caller that opens and closes nothing. *)
Lemma inv_caller (s : Readers) (c : nat) (p' : option Phase) : inv s ->
  (forall r, (callers s !! c) ≫= private = Some r <-> p' ≫= private = Some r) ->
  (forall k r, p' ≫= shared = Some (k, r) -> readers s !! k = Some r \/ r ∈ abandoned s) ->
  inv (mkReaders (readers s) (is_open s) (next s) (partial_alter (fun _ => p') c (callers s)) (abandoned s)).
Proof.
  intros [I1 I2 I3 I4 I5 I6 I7 I8] Hpriv Hsh.
  assert (forall c' p r, partial_alter (fun _ => p') c (callers s) !! c' = Some p -> private p = Some r ->
    exists p0, callers s !! c' = Some p0 /\ private p0 = Some r) as Hback.
  { intros c' p r. destruct (decide (c' = c)) as [->|Hne]; [|rewrite lookup_partial_alter_ne by done; by exists p].
    rewrite lookup_partial_alter_eq. intros -> Hr. specialize (Hpriv r). cbn in Hpriv.
    destruct (callers s !! c) as [p0|]; [|naive_solver]. exists p0. naive_solver. }
  split; cbn; auto.
  - intros c' p r Hc Hr. destruct (Hback _ _ _ Hc Hr) as (p0 & H0 & Hr0). eauto.
  - intros c1 c2 p1 p2 r H1 H2 Hr1 Hr2. destruct (Hback _ _ _ H1 Hr1) as (q1 & ? & ?).
    destruct (Hback _ _ _ H2 Hr2) as (q2 & ? & ?). eauto.
  - intros c' p k r. destruct (decide (c' = c)) as [->|Hne]; [|rewrite lookup_partial_alter_ne by done; eauto].
    rewrite lookup_partial_alter_eq. intros -> Hr. by apply Hsh.
  - intros r Hr. destruct (I8 r Hr) as [?|[(c' & p & Hc & Hp)|?]]; [by left| |by right; right].
    right; left. destruct (decide (c' = c)) as [->|Hne].
    + specialize (Hpriv r). rewrite Hc in Hpriv. cbn in Hpriv. apply Hpriv in Hp. destruct p' as [p'|]; [|done].
      exists c, p'. by rewrite lookup_partial_alter_eq.
    + exists c', p. by rewrite lookup_partial_alter_ne.
Qed.

Lemma inv_open s c k : inv s -> callers s !! c = Some (Opening k) -> inv (open c k s).
Proof.
  intros [I1 I2 I3 I4 I5 I6 I7 I8] Hc. assert (next s ∉ is_open s) as Hfresh by (intros H%I1; lia).
  assert (forall k, readers s !! k <> Some (next s)) as Hnew by (intros k' H%I2; done).
  split; cbn.
  - intros r [->%elem_of_singleton|H%I1]%elem_of_union; lia.
  - intros k' r H%I2. set_solver.
  - done.
  - intros c' p r. rewrite lookup_insert_Some. intros [[<- <-]|[Hne Hc']] Hr.
    + injection Hr as <-. split; [set_solver|]. split; [done|]. by intros [? _]%I7.
    + destruct (I4 _ _ _ Hc' Hr) as (? & ? & ?). split; [set_solver|done].
  - intros c1 c2 p1 p2 r. rewrite !lookup_insert_Some. intros [[<- <-]|[? H1]] [[<- <-]|[? H2]] Hr1 Hr2; [done| | |eauto].
    + injection Hr1 as <-. by destruct (I4 _ _ _ H2 Hr2).
    + injection Hr2 as <-. by destruct (I4 _ _ _ H1 Hr1).
  - intros c' p k' r. rewrite lookup_insert_Some. intros [[<- <-]|[? H]] Hr; [done|eauto].
  - intros r [H1 H2]%I7. split; [set_solver|done].
  - intros r [->%elem_of_singleton|H]%elem_of_union.
    + right; left. exists c, (Opened k (next s)). by rewrite lookup_insert_eq.
    + destruct (I8 r H) as [?|[(c' & p & Hc' & Hp)|?]]; [by left| |by right; right]. right; left. exists c', p.
      split; [|done]. rewrite lookup_insert_ne; [done|]. intros <-. rewrite Hc in Hc'. by injection Hc' as <-.
Qed.

Lemma inv_install_new s c k r : inv s -> callers s !! c = Some (Opened k r) -> readers s !! k = None ->
  inv (mkReaders (<[ k := r ]> (readers s)) (is_open s) (next s) (<[ c := Using k r ]> (callers s)) (abandoned s)).
Proof.
  intros [I1 I2 I3 I4 I5 I6 I7 I8] Hc Hk. destruct (I4 _ _ r Hc eq_refl) as (Ho & Hnk & Hna).
  split; cbn; auto.
  - intros k' r'. rewrite lookup_insert_Some. intros [[<- <-]|[_ H]]; [done|eauto].
  - intros k1 k2 r'. rewrite !lookup_insert_Some. intros [[<- <-]|[? H1]] [[<- H2]|[? H2]]; [done| | |eauto].
    + by destruct (Hnk k2).
    + subst. by destruct (Hnk k1).
  - intros c' p r'. rewrite lookup_insert_Some. intros [[<- <-]|[Hne Hc']] Hr; [done|].
    destruct (I4 _ _ _ Hc' Hr) as (? & Hn & ?). split; [done|]. split; [|done].
    intros k'. rewrite lookup_insert_Some. intros [[<- <-]|[_ ?]]; [|by apply (Hn k')].
    apply Hne. by eapply I5; [exact Hc|exact Hc'| |].
  - intros c1 c2 p1 p2 r'. rewrite !lookup_insert_Some. intros [[<- <-]|[? H1]] [[<- <-]|[? H2]] Hr1 Hr2; try done; eauto.
  - intros c' p k' r'. rewrite !lookup_insert_Some. intros [[<- <-]|[? H]] Hr; [injection Hr as <- <-; by left; left|].
    destruct (I6 _ _ _ _ H Hr) as [H'|]; [|by right]. left. right. split; [|done]. intros <-. by rewrite Hk in H'.
  - intros r' Hab. destruct (I7 r' Hab) as [? Hn]. split; [done|]. intros k'. rewrite lookup_insert_Some. intros [[_ <-]|[_ ?]]; [done|by apply (Hn k')].
  - intros r' Hr. destruct (I8 r' Hr) as [[k' H]|[(c' & p & Hc' & Hp)|?]]; [| |by right; right].
    + left. exists k'. rewrite lookup_insert_ne; [done|]. intros <-. by rewrite Hk in H.
    + destruct (decide (c' = c)) as [->|].
      * rewrite Hc in Hc'. injection Hc' as <-. injection Hp as <-. left. exists k. by rewrite lookup_insert_eq.
      * right; left. exists c', p. by rewrite lookup_insert_ne.
Qed.

Lemma inv_close_mine s c k mine sh : inv s -> callers s !! c = Some (Losing k mine sh) -> inv (close_mine c k mine sh s).
Proof.
  intros HI Hc. pose proof HI as [I1 I2 I3 I4 I5 I6 I7 I8]. destruct (I4 _ _ mine Hc eq_refl) as (Ho & Hnk & Hna).
  split; cbn; auto.
  - intros r [? _]%elem_of_difference. auto.
  - intros k' r H. apply elem_of_difference. split; [eauto|]. intros ->%elem_of_singleton. by apply (Hnk k').
  - intros c' p r. rewrite lookup_insert_Some. intros [[<- <-]|[Hne Hc']] Hr; [done|].
    destruct (I4 _ _ _ Hc' Hr) as (? & ? & ?). split; [|done]. apply elem_of_difference. split; [done|].
    intros ->%elem_of_singleton. apply Hne. by eapply I5; [exact Hc|exact Hc'| |].
  - intros c1 c2 p1 p2 r'. rewrite !lookup_insert_Some. intros [[<- <-]|[? H1]] [[<- <-]|[? H2]] Hr1 Hr2; try done; eauto.
  - intros c' p k' r'. rewrite lookup_insert_Some. intros [[<- <-]|[? H]] Hr; [|eauto]. injection Hr as <- <-.
    by apply (I6 _ _ _ _ Hc).
  - intros r Hab. destruct (I7 r Hab) as [? ?]. split; [|done]. apply elem_of_difference. split; [done|].
    by intros ->%elem_of_singleton.
  - intros r [Hr Hne]%elem_of_difference. destruct (I8 r Hr) as [?|[(c' & p & Hc' & Hp)|?]]; [by left| |by right; right].
    right; left. exists c', p. split; [|done]. rewrite lookup_insert_ne; [done|]. intros <-. rewrite Hc in Hc'.
    injection Hc' as <-. injection Hp as <-. set_solver.
Qed.

Lemma elem_cached s r : r ∈ cached s <-> exists k, readers s !! k = Some r.
Proof.
  unfold cached. rewrite elem_of_list_to_set, list_elem_of_fmap. split.
  - intros ([k r'] & -> & H%elem_of_map_to_list). by exists k.
  - intros [k H]. exists (k, r). by rewrite elem_of_map_to_list.
Qed.

Lemma in_use_true s r : in_use s r = true <-> exists c p, callers s !! c = Some p /\ holds r p = true.
Proof.
  unfold in_use. rewrite existsb_exists. split.
  - intros ([c p] & H & Hh). apply list_elem_of_In, elem_of_map_to_list in H. by exists c, p.
  - intros (c & p & H & Hh). exists (c, p). by rewrite <- list_elem_of_In, elem_of_map_to_list.
Qed.

Lemma shared_holds p k r : shared p = Some (k, r) -> holds r p = true.
Proof. destruct p; cbn; try done; intros [= <- <-]; apply Nat.eqb_refl. Qed.

Lemma inv_close s : inv s -> inv (close s).
Proof.
  intros [I1 I2 I3 I4 I5 I6 I7 I8]. unfold close. split; cbn; try done.
  - intros r [? _]%elem_of_difference. auto.
  - intros c p r Hc Hr. destruct (I4 _ _ _ Hc Hr) as (Ho & Hn & Ha).
    assert (r ∉ cached s) as Hnc by (intros [k ?]%elem_cached; by apply (Hn k)).
    split; [|split; [done|]].
    + apply elem_of_difference. split; [done|]. by intros [_ ?]%elem_of_filter.
    + intros [?|[_ ?]%elem_of_filter]%elem_of_union; done.
  - intros c p k r Hc Hs. right. apply elem_of_union. destruct (I6 _ _ _ _ Hc Hs) as [Hk|]; [right|by left].
    apply elem_of_filter. split; [|apply elem_cached; by exists k]. apply in_use_true. exists c, p.
    split; [done|]. by eapply shared_holds.
  - intros r Hr. split; [|done]. apply elem_of_difference. apply elem_of_union in Hr as [Hr|[Hu Hc]%elem_of_filter].
    + destruct (I7 r Hr) as [? Hn]. split; [done|]. intros [_ [k ?]%elem_cached]%elem_of_filter. by apply (Hn k).
    + apply elem_cached in Hc as [k Hk]. split; [eauto|]. intros [? _]%elem_of_filter. congruence.
  - intros r [Hr Hn]%elem_of_difference. right. destruct (I8 r Hr) as [[k Hk]|[?|?]]; [|by left|right; set_solver].
    right. apply elem_of_union. right. assert (r ∈ cached s) as Hc by (apply elem_cached; by exists k).
    apply elem_of_filter. split; [|done]. destruct (in_use s r) eqn:E; [done|]. destruct Hn. by apply elem_of_filter.
Qed.

Lemma readers_inv_step s s' : step s s' -> inv s -> inv s'.
Proof.
  intros Hstep HI. destruct Hstep as [c k H|c k H|c k H|c k H|c k r H|c k mine sh H|c k r H|].
  - apply (inv_caller s c (Some (Looking k))); [done| |done]. intros r. by rewrite H.
  - apply (inv_caller s c (Some (look k s))); [done| |]; unfold look.
    + intros r. rewrite H. by destruct (readers s !! k).
    + intros k' r. destruct (readers s !! k) as [r'|] eqn:E; [|done]. intros [= <- <-]. by left.
  - apply (inv_caller s c None); [done| |done]. intros r. by rewrite H.
  - by apply inv_open.
  - unfold install. destruct (readers s !! k) as [e|] eqn:E; [|by apply inv_install_new].
    apply (inv_caller s c (Some (Losing k r e))); [done| |]; cbn.
    + intros r'. by rewrite H.
    + intros k' r' [= <- <-]. by left.
  - by apply inv_close_mine.
  - apply (inv_caller s c None); [done| |done]. intros r'. by rewrite H.
  - by apply inv_close.
Qed.

Lemma readers_inv_reachable s : rtc step empty s -> inv s.
Proof.
  assert (forall x y, rtc step x y -> inv x -> inv y) as H by (induction 1; eauto using readers_inv_step).
  intros Hr. eapply H; [exact Hr|apply inv_empty].
Qed.

(** C26: snapshot readers are shared and accounted for, in every interleaving of
    callers and of closing the storage. A caller never has a reader that is
    closed; a reader is cached under one key, and callers for the same key have
    the same one, unless the storage was closed meanwhile; whenever no caller is
    between opening and caching, the open readers are exactly the cached ones
    and those in use while the storage was closed. *)
Theorem readers_accounted (s : Readers) (Hrun : rtc step empty s) :
  (forall c k r, callers s !! c = Some (Using k r) -> r ∈ is_open s) /\
  (forall k1 k2 r, readers s !! k1 = Some r -> readers s !! k2 = Some r -> k1 = k2) /\
  (forall c1 c2 k r1 r2, callers s !! c1 = Some (Using k r1) -> callers s !! c2 = Some (Using k r2) ->
     r1 = r2 \/ r1 ∈ abandoned s \/ r2 ∈ abandoned s) /\
  ((forall c p, callers s !! c = Some p -> private p = None) -> is_open s = cached s ∪ abandoned s).
Proof.
  destruct (readers_inv_reachable s Hrun) as [I1 I2 I3 I4 I5 I6 I7 I8]. split; [|split; [done|split]].
  - intros c k r Hc. destruct (I6 _ _ k r Hc eq_refl) as [H|H]; [eauto|]. by apply I7.
  - intros c1 c2 k r1 r2 H1 H2. destruct (I6 _ _ k r1 H1 eq_refl), (I6 _ _ k r2 H2 eq_refl); auto.
    left. congruence.
  - intros Hidle. apply set_eq. intros r. rewrite elem_of_union, elem_cached. split.
    + intros H. destruct (I8 r H) as [?|[(c & p & Hc & Hp)|?]]; [by left| |by right].
      by rewrite (Hidle c p Hc) in Hp.
    + intros [[k H]|H]; [eauto|]. by apply I7.
Qed.

(** ** Example *)

(** Two callers open a reader for the same checkpoint; the slower one closes
    its own and uses the other's. *)
Definition key : Key := (lit "folder_00000000", lit "checkpoint").
Definition raced : Readers :=
  close_mine 1 key 1 0 (install 1 key 1 (install 0 key 0 (open 1 key (open 0 key
    (set_caller (set_caller (set_caller (set_caller empty 0 (Looking key)) 1 (Looking key)) 0 (Opening key)) 1 (Opening key)))))).

Lemma raced_reached : rtc step empty raced.
Proof.
  eapply rtc_l; [by apply (step_call _ 0 key)|]. eapply rtc_l; [by apply (step_call _ 1 key)|].
  eapply rtc_l; [by apply (step_look _ 0 key)|]. eapply rtc_l; [by apply (step_look _ 1 key)|].
  eapply rtc_l; [by apply (step_open _ 0 key)|]. eapply rtc_l; [by apply (step_open _ 1 key)|].
  eapply rtc_l; [by apply (step_install _ 0 key 0)|]. eapply rtc_l; [by apply (step_install _ 1 key 1)|].
  eapply rtc_l; [by apply (step_close_mine _ 1 key 1 0)|]. apply rtc_refl.
Qed.

Lemma readers_accounted_witness : is_open raced = {[ 0 ]} /\ is_open raced = cached raced ∪ abandoned raced.
Proof.
  split; [by vm_compute|]. apply (readers_accounted raced raced_reached).
  assert (map_Forall (fun _ p => private p = None) (callers raced)) as H; [|intros c p; apply H].
  by apply (bool_decide_unpack _); vm_compute.
Defined.

(** A reader that is in use while the storage is closed stays open. *)
Definition closed_in_use : Readers := end_caller (close (install 0 key 0 (open 0 key
  (set_caller (set_caller empty 0 (Looking key)) 0 (Opening key))))) 0.

Theorem reader_in_use_abandoned :
  rtc step empty closed_in_use /\ readers closed_in_use = ∅ /\ callers closed_in_use = ∅ /\ is_open closed_in_use = {[ 0 ]}.
Proof.
  split; [|by vm_compute].
  eapply rtc_l; [by apply (step_call _ 0 key)|]. eapply rtc_l; [by apply (step_look _ 0 key)|].
  eapply rtc_l; [by apply (step_open _ 0 key)|]. eapply rtc_l; [by apply (step_install _ 0 key 0)|].
  eapply rtc_l; [apply step_close|]. eapply rtc_l; [by apply (step_done _ 0 key 0)|]. apply rtc_refl.
Qed.

End Readers.
