(* ===== verification/Dav.v ===== *)
(** The read-only WebDAV view of the snapshots ([bepository-dav/src/lib.rs]):
    the authentication of requests, the three levels of paths (folders,
    checkpoints, files), and open files with their position.

    The snapshots are the interface [SnapshotFs] (the trait of
    [bepository-storage/src/snapshot.rs]); the HTTP and WebDAV libraries call
    the functions here. Paths arrive normalised, as the text of the relative
    path ([None] when it is not UTF-8). *)

From Stdlib Require Import ZArith Lia.
From stdpp Require Import base gmap list strings.
From S2P Require Import Prelude EnvFile Meta Snapshot.

Local Open Scope Z_scope.
Local Open Scope bep_scope.

Module Dav.
Import Meta Snapshot.

Arguments EFile {Time} name size modified.
Arguments EDir {Time} name.

(** The traits [SnapshotRef] and [SnapshotFs]. *)
Class SnapshotFs (Fs Ref Time : Type) := {
  ref_label : Ref -> bytes;
  ref_time : Ref -> Time;
  list_snapshots : SE Fs SnapshotError (list Ref);
  fs_read_dir : Ref -> bytes -> SE Fs SnapshotError (list (FsEntry (Time := Time)));
  fs_file_metadata : Ref -> bytes -> SE Fs SnapshotError (FsEntry (Time := Time));
  fs_read_bytes : Ref -> bytes -> Z -> Z -> SE Fs SnapshotError bytes
}.

(** What an implementation promises: while [serves fs c], each file that [c]
    gives for a snapshot and a path has these contents, whatever was asked
    before. *)
Class SnapshotFsLaws (Fs Ref Time : Type) `{SnapshotFs Fs Ref Time} (serves : Fs -> (Ref -> bytes -> option bytes) -> Prop) : Prop := {
  metadata_law fs c r p data : serves fs c -> c r p = Some data ->
    serves (fst (fs_file_metadata r p fs)) c /\
    exists n t, snd (fs_file_metadata r p fs) = Ok (EFile n (Z.of_nat (length data)) t);
  read_law fs c r p data offset len : serves fs c -> c r p = Some data -> 0 <= offset -> 0 <= len ->
    serves (fst (fs_read_bytes r p offset len fs)) c /\
    snd (fs_read_bytes r p offset len fs) = Ok (take (Z.to_nat len) (drop (Z.to_nat offset) data))
}.

(** [dav_server::fs::FsError], as far as it is used. *)
Inductive FsError := FsNotFound | FsForbidden | FsGeneralFailure.

Definition map_snap_err (e : SnapshotError) : FsError :=
  match e with
  | NotFound => FsNotFound
  | NotADir | NotAFile => FsForbidden
  | Io _ => FsGeneralFailure
  end.

(** ** Authentication *)

Section Auth.
Context `{!Base64} (sha256 : bytes -> bytes).
(** [HeaderValue::to_str]. *)
Context (header_to_str : bytes -> option bytes).

Inductive AuthError := NoHeader | HeaderNotText | NotBasic | BadBase64 | CredentialsNotUtf8 | WrongPassword.

Definition COLON : Z := 58.

Definition string_eq_constant_time (user_input secret : bytes) : bool :=
  bool_decide (sha256 user_input = sha256 secret).

(** [check_basic_auth]; [header] is the Authorization header. *)
Definition check_basic_auth (header : option bytes) (password : bytes) : result AuthError unit :=
  try auth <- ok_or header NoHeader;
  try s <- ok_or (header_to_str auth) HeaderNotText;
  try b64 <- ok_or (strip_prefix (lit "Basic ") s) NotBasic;
  try decoded <- ok_or (base64_decode (EnvFile.trim b64)) BadBase64;
  try creds <- (if utf8_valid decoded then Ok decoded else Err CredentialsNotUtf8);
  let extracted_pw := match split_once [COLON] creds with Some (_, pw) => pw | None => [] end in
  if string_eq_constant_time extracted_pw password then Ok tt else Err WrongPassword.

Inductive Response (R : Type) := Handled (r : R) | Unauthorized.
Arguments Handled {R} r.
Arguments Unauthorized {R}.

(** [handle_request]; the handler may change the state of the server. *)
Definition handle_request {S R : Type} (header : option bytes) (password : bytes) (handler : S -> S * R) (s : S) :
  S * Response R :=
  match check_basic_auth header password with
  | Ok _ => let '(s', r) := handler s in (s', Handled r)
  | Err _ => (s, Unauthorized)
  end.

(** The password of [user:password], or nothing without a colon. *)
Definition password_of (creds pw : bytes) : Prop :=
  (exists user, COLON ∉ user /\ creds = user ++ COLON :: pw) \/ (COLON ∉ creds /\ pw = []).

Record authorised (header : option bytes) (password auth b64 creds pw : bytes) : Prop := mkAuthorised {
  au_header : header = Some auth;
  au_basic : header_to_str auth = Some (lit "Basic " ++ b64);
  au_creds : base64_decode (EnvFile.trim b64) = Some creds;
  au_utf8 : utf8_valid creds = true;
  au_pw : password_of creds pw;
  au_sum : sha256 pw = sha256 password
}.

Lemma password_split creds pw :
  password_of creds pw <-> pw = match split_once [COLON] creds with Some (_, pw) => pw | None => [] end.
Proof.
  unfold password_of. destruct (split_once [COLON] creds) as [[user p]|] eqn:E.
  - pose proof (split_once_char_notin _ _ _ _ E) as Hn. apply split_once_Some in E as ->. cbn [app]. split.
    + intros [(u & Hu & Eu)|[Hn' _]]; [|set_solver]. pose proof (split_once_char COLON u pw Hu) as Hs.
      rewrite <- Eu, (split_once_char COLON user p Hn) in Hs. by injection Hs.
    + intros ->. left. by exists user.
  - apply split_once_char_None in E. split; [|intros ->; by right].
    intros [(u & Hu & ->)|[_ ->]]; [set_solver|done].
Qed.

Lemma check_authorised header password :
  is_ok (check_basic_auth header password) = true <->
  exists auth b64 creds pw, authorised header password auth b64 creds pw.
Proof.
  unfold check_basic_auth. split.
  - destruct header as [auth|]; [cbn [ok_or rbind]|done].
    destruct (header_to_str auth) as [t|] eqn:Et; [cbn [ok_or rbind]|done].
    destruct (strip_prefix (lit "Basic ") t) as [b64|] eqn:Es; [cbn [ok_or rbind]|done].
    apply strip_prefix_Some in Es as ->.
    destruct (base64_decode (EnvFile.trim b64)) as [creds|] eqn:Eb; [cbn [ok_or rbind]|done].
    destruct (utf8_valid creds) eqn:Eu; [cbn [ok_or rbind]|done].
    unfold string_eq_constant_time. case_bool_decide as Hsum; [|done]. intros _.
    exists auth, b64, creds. eexists. split; [done|done|done|done|by apply password_split|done].
  - intros (auth & b64 & creds & pw & [-> H2 H3 H4 H5%password_split H6]). cbn [ok_or rbind]. rewrite H2. cbn [ok_or rbind].
    rewrite strip_prefix_app. cbn [ok_or rbind]. rewrite H3. cbn [ok_or rbind]. rewrite H4. cbn [rbind].
    subst pw. unfold string_eq_constant_time. by rewrite bool_decide_eq_true_2.
Qed.

(** A request is served exactly when it carries the password. The handler
    runs, once, if the Authorization header is text of the form [Basic x] where
    [x] is the base64 of UTF-8 credentials whose password has the SHA-256 sum of
    the configured one; in every other case the state is left alone and the
    answer is 401. *)
Theorem served_iff_password {S R : Type} (header : option bytes) (password : bytes) (handler : S -> S * R) (s : S) :
  ((exists auth b64 creds pw, authorised header password auth b64 creds pw) /\
   handle_request header password handler s = (fst (handler s), Handled (snd (handler s)))) \/
  (~ (exists auth b64 creds pw, authorised header password auth b64 creds pw) /\
   handle_request header password handler s = (s, Unauthorized)).
Proof.
  unfold handle_request. pose proof (check_authorised header password) as Hc.
  destruct (check_basic_auth header password); cbn [is_ok] in Hc.
  - left. split; [by apply Hc|]. by destruct (handler s).
  - right. split; [|done]. by intros ?%Hc.
Qed.

End Auth.
(** ** Paths *)

(** [str::trim_matches('/')]. *)
Fixpoint trim_left (s : bytes) : bytes :=
  match s with c :: t => if c =? SLASH then trim_left t else s | [] => [] end.
Definition trim_slashes (s : bytes) : bytes := rev (trim_left (rev (trim_left s))).

Inductive Level (Ref : Type) :=
| Root
| Folder (label : bytes)
| LSnapshot (r : Ref)
| SubPath (r : Ref) (path : bytes).
Arguments Root {Ref}.
Arguments Folder {Ref} label.
Arguments LSnapshot {Ref} r.
Arguments SubPath {Ref} r path.

(** [DavMetaData] and [DavDirEntry]. *)
Record EntryMeta (Time : Type) := mkMeta { meta_size : Z; meta_modified : Time; meta_is_dir : bool }.
Arguments mkMeta {Time}.
Arguments meta_size {Time}.
Arguments meta_modified {Time}.
Arguments meta_is_dir {Time}.
Record DirEntry (Time : Type) := mkEntry { name_bytes : bytes; entry_meta : EntryMeta Time }.
Arguments mkEntry {Time}.
Arguments name_bytes {Time}.
Arguments entry_meta {Time}.

Definition dir_meta {Time : Type} (modified : Time) : EntryMeta Time := mkMeta 0 modified true.

Record OpenOptions := mkOptions { write : bool; append : bool; create : bool; create_new : bool }.

(** [std::io::SeekFrom]. *)
Inductive SeekFrom := Start (n : Z) | End_ (n : Z) | Current (n : Z).

(** [u64::checked_add] and [u64::checked_sub]. *)
Definition checked_add (a b : Z) : option Z := if a + b <=? U64_MAX then Some (a + b) else None.
Definition checked_sub (a b : Z) : option Z := if b <=? a then Some (a - b) else None.

Section Server.
Context {Fs Ref Time : Type} `{!SnapshotFs Fs Ref Time}.
(** The format of a time to the minute, and the clock. *)
Context (format_time : Time -> bytes) (now : Time).

Definition snap_dir_name (r : Ref) : bytes := format_time (ref_time r).

(** [splitn(3, '/')] on what follows the label. *)
Definition split_rest (rest : bytes) : bytes * bytes :=
  match split_once [SLASH] rest with Some (ts, sub) => (ts, sub) | None => (rest, []) end.

Definition parse_path (path : option bytes) (snapshots : list Ref) : option (Level Ref) :=
  let trimmed := trim_slashes (default [] path) in
  if bool_decide (trimmed = []) then Some Root
  else
    match split_once [SLASH] trimmed with
    | None =>
        if existsb (fun s => bool_decide (ref_label s = trimmed)) snapshots then Some (Folder trimmed) else None
    | Some (label, rest) =>
        let '(ts, subpath) := split_rest rest in
        match find (fun s => bool_decide (ref_label s = label) && bool_decide (snap_dir_name s = ts)) snapshots with
        | None => None
        | Some snap => Some (if bool_decide (subpath = []) then LSnapshot snap else SubPath snap subpath)
        end
    end.

(** ** The file system *)

Abbreviation M := (SE Fs FsError).

(** An operation of the snapshots, with its errors translated. *)
Definition on_fs {A : Type} (err : SnapshotError -> FsError) (m : SE Fs SnapshotError A) : M A :=
  fun fs => let '(fs', r) := m fs in (fs', map_err err r).

(** The errors of [metadata] and [open]. *)
Definition found_or_failure (e : SnapshotError) : FsError :=
  match e with NotFound => FsNotFound | _ => FsGeneralFailure end.

Definition metadata (snapshots : list Ref) (path : option bytes) : M (EntryMeta Time) :=
  match parse_path path snapshots with
  | Some Root | Some (Folder _) => se_ret (dir_meta now)
  | Some (LSnapshot snap) => se_ret (dir_meta (ref_time snap))
  | Some (SubPath snap subpath) =>
      do! e <- on_fs found_or_failure (fs_file_metadata snap subpath);
      match e with
      | EFile _ size modified => se_ret (mkMeta size modified false)
      | EDir _ => se_ret (dir_meta (ref_time snap))
      end
  | None => se_err FsNotFound
  end.

Definition dir_entry (name : bytes) (modified : Time) : DirEntry Time := mkEntry name (dir_meta modified).

Definition fs_entry_to_dav (e : FsEntry (Time := Time)) : DirEntry Time :=
  match e with
  | EFile name size modified => mkEntry name (mkMeta size modified false)
  | EDir name => dir_entry name now
  end.
Definition fs_entries_to_dav (es : list (FsEntry (Time := Time))) : list (DirEntry Time) := map fs_entry_to_dav es.

(** The labels, each once ([filter(|s| seen.insert(s.folder_label()))]). *)
Fixpoint labels_once (snapshots : list Ref) (seen : gset bytes) : list bytes :=
  match snapshots with
  | [] => []
  | s :: rest =>
      if bool_decide (ref_label s ∈ seen) then labels_once rest seen
      else ref_label s :: labels_once rest ({[ ref_label s ]} ∪ seen)
  end.

Definition in_folder (label : bytes) (snapshots : list Ref) : list Ref :=
  List.filter (fun s => bool_decide (ref_label s = label)) snapshots.

Definition read_dir (snapshots : list Ref) (path : option bytes) : M (list (DirEntry Time)) :=
  match parse_path path snapshots with
  | Some Root => se_ret (map (fun l => dir_entry l now) (labels_once snapshots ∅))
  | Some (Folder label) => se_ret (map (fun s => dir_entry (snap_dir_name s) (ref_time s)) (in_folder label snapshots))
  | Some (LSnapshot snap) =>
      do! es <- on_fs map_snap_err (fs_read_dir snap []); se_ret (fs_entries_to_dav es)
  | Some (SubPath snap subpath) =>
      do! es <- on_fs map_snap_err (fs_read_dir snap subpath); se_ret (fs_entries_to_dav es)
  | None => se_err FsNotFound
  end.

(** ** Open files *)

Record DavSnapshotFile := mkFile { snap : Ref; file_path : bytes; file_size : Z; modified : Time; pos : Z }.

Definition set_pos (f : DavSnapshotFile) (p : Z) : DavSnapshotFile :=
  mkFile (snap f) (file_path f) (file_size f) (modified f) p.

Definition open (snapshots : list Ref) (path : option bytes) (options : OpenOptions) : M DavSnapshotFile :=
  if write options || append options || create options || create_new options then se_err FsForbidden
  else
    match parse_path path snapshots with
    | None => se_err FsNotFound
    | Some (SubPath snap subpath) =>
        do! e <- on_fs found_or_failure (fs_file_metadata snap subpath);
        match e with
        | EFile _ size modified => se_ret (mkFile snap subpath size modified 0)
        | EDir _ => se_err FsForbidden
        end
    | Some _ => se_err FsForbidden
    end.

Definition file_metadata (f : DavSnapshotFile) : EntryMeta Time := mkMeta (file_size f) (modified f) false.

(** The position moves before the bytes are fetched. *)
Definition read_bytes (count : Z) : SE (DavSnapshotFile * Fs) FsError bytes := fun '(f, fs) =>
  match checked_sub (file_size f) (pos f) with
  | None => ((f, fs), Err FsGeneralFailure)
  | Some remaining =>
      let to_read := Z.min remaining count in
      let f' := set_pos f (pos f + to_read) in
      if to_read =? 0 then ((f', fs), Ok [])
      else
        let '(fs', r) := fs_read_bytes (snap f) (file_path f) (pos f) to_read fs in
        ((f', fs'), map_err (fun _ => FsGeneralFailure) r)
  end.

(** [base.checked_add(n)] or [base.checked_sub(n.unsigned_abs())]. *)
Definition offset_from (base n : Z) : option Z := if 0 <=? n then checked_add base n else checked_sub base (- n).

Definition seek (from : SeekFrom) : SE (DavSnapshotFile * Fs) FsError Z := fun '(f, fs) =>
  let new_pos :=
    match from with
    | Start n => Some n
    | End_ n => offset_from (file_size f) n
    | Current n => offset_from (pos f) n
    end in
  match new_pos with
  | Some p => ((set_pos f p, fs), Ok p)
  | None => ((f, fs), Err FsGeneralFailure)
  end.

Definition write_bytes (buf : bytes) : SE (DavSnapshotFile * Fs) FsError unit := se_err FsForbidden.
Definition flush : SE (DavSnapshotFile * Fs) FsError unit := se_ret tt.

(** ** Names *)

(** A name of a directory: not empty, without separators. *)
Definition plain (n : bytes) : Prop := n <> [] /\ SLASH ∉ n.

Definition matches (label ts : bytes) (s : Ref) : bool :=
  bool_decide (ref_label s = label) && bool_decide (snap_dir_name s = ts).

Lemma trim_left_id c s : c <> SLASH -> trim_left (c :: s) = c :: s.
Proof. intros H. cbn. by rewrite (proj2 (Z.eqb_neq _ _)). Qed.

Lemma trim_slashes_id a s b : a <> SLASH -> b <> SLASH -> trim_slashes (a :: s ++ [b]) = a :: s ++ [b].
Proof.
  intros Ha Hb. unfold trim_slashes. rewrite trim_left_id by done.
  change (a :: s ++ [b]) with ((a :: s) ++ [b]). rewrite rev_app_distr. cbn [rev app].
  rewrite trim_left_id by done. rewrite <- (rev_involutive ((a :: s) ++ [b])) at 1. by rewrite rev_app_distr.
Qed.

Lemma trim_plain (n : bytes) : plain n -> trim_slashes n = n.
Proof.
  intros [Hne Hs]. destruct n as [|a n]; [done|]. apply not_elem_of_cons in Hs as [Ha Hn].
  destruct n as [|b n] using rev_ind; [by unfold trim_slashes; cbn; rewrite (proj2 (Z.eqb_neq _ _)) by done; cbn;
    rewrite (proj2 (Z.eqb_neq _ _)) by done|].
  apply trim_slashes_id; [congruence|]. intros ->. set_solver.
Qed.

Lemma trim_two (l t : bytes) : plain l -> plain t -> trim_slashes (l ++ SLASH :: t) = l ++ SLASH :: t.
Proof.
  intros [Hl1 Hl2] [Ht1 Ht2]. destruct l as [|a l]; [done|]. destruct t as [|b t _] using rev_ind; [done|].
  replace ((a :: l) ++ SLASH :: t ++ [b]) with (a :: (l ++ SLASH :: t) ++ [b]) by (cbn; by rewrite <- app_assoc).
  apply trim_slashes_id; [|]; intros ->; set_solver.
Qed.

Lemma parse_label snapshots label : plain label ->
  parse_path (Some label) snapshots =
  if existsb (fun s => bool_decide (ref_label s = label)) snapshots then Some (Folder label) else None.
Proof.
  intros Hl. unfold parse_path. cbn [default from_option id]. cbv zeta. rewrite trim_plain by done. destruct Hl as [Hne Hs].
  rewrite bool_decide_eq_false_2 by done. by rewrite (proj2 (split_once_char_None _ _) Hs).
Qed.

Lemma parse_snapshot snapshots label ts : plain label -> plain ts ->
  parse_path (Some (label ++ SLASH :: ts)) snapshots = LSnapshot <$> find (matches label ts) snapshots.
Proof.
  intros Hl Ht. unfold parse_path. cbn [default from_option id]. cbv zeta. rewrite trim_two by done. destruct Hl as [Hl1 Hl2], Ht as [Ht1 Ht2].
  rewrite bool_decide_eq_false_2 by (by destruct label). rewrite split_once_char by done. unfold split_rest.
  rewrite (proj2 (split_once_char_None _ _) Ht2). fold (matches label ts). by destruct (find _ _).
Qed.

Lemma labels_once_spec (snapshots : list Ref) (seen : gset bytes) :
  NoDup (labels_once snapshots seen) /\
  forall l, l ∈ labels_once snapshots seen <-> l ∉ seen /\ exists s, s ∈ snapshots /\ ref_label s = l.
Proof.
  revert seen. induction snapshots as [|s rest IH]; intros seen; cbn [labels_once].
  { split; [constructor|]. set_solver. }
  case_bool_decide as Hs.
  - destruct (IH seen) as [H1 H2]. split; [done|]. intros l. rewrite H2. set_solver.
  - destruct (IH ({[ ref_label s ]} ∪ seen)) as [H1 H2]. split.
    + constructor; [|done]. rewrite H2. set_solver.
    + intros l. rewrite elem_of_cons, H2. destruct (decide (l = ref_label s)); set_solver.
Qed.

(** What is listed can be entered. The root lists every label once, and
    nothing else; entering a label lists its checkpoints in their order; a
    checkpoint listed there leads to a snapshot of that folder with that name:
    the first one in the list, which is the newest. *)
Theorem listed_names_resolve (snapshots : list Ref) (fs : Fs)
  (Hplain : Forall (fun s => plain (ref_label s) /\ plain (snap_dir_name s)) snapshots) :
  (exists names, read_dir snapshots (Some []) fs = (fs, Ok (map (fun l => dir_entry l now) names)) /\ NoDup names /\
     forall l, l ∈ names <-> exists s, s ∈ snapshots /\ ref_label s = l) /\
  forall s, s ∈ snapshots ->
    read_dir snapshots (Some (ref_label s)) fs =
      (fs, Ok (map (fun s => dir_entry (snap_dir_name s) (ref_time s)) (in_folder (ref_label s) snapshots))) /\
    exists l1 s' l2, snapshots = l1 ++ s' :: l2 /\
      parse_path (Some (ref_label s ++ SLASH :: snap_dir_name s)) snapshots = Some (LSnapshot s') /\
      ref_label s' = ref_label s /\ snap_dir_name s' = snap_dir_name s /\
      Forall (fun z => ref_label z <> ref_label s \/ snap_dir_name z <> snap_dir_name s) l1.
Proof.
  split.
  - exists (labels_once snapshots ∅). destruct (labels_once_spec snapshots ∅) as [H1 H2].
    split; [done|]. split; [done|]. intros l. rewrite H2. set_solver.
  - intros s Hin. rewrite Forall_forall in Hplain. destruct (Hplain s Hin) as [Hl Ht]. split.
    + unfold read_dir. rewrite parse_label by done. rewrite (proj2 (existsb_exists _ _)); [done|].
      exists s. split; [by apply list_elem_of_In|by apply bool_decide_eq_true_2].
    + destruct (find_first (matches (ref_label s) (snap_dir_name s)) snapshots s) as (l1 & s' & l2 & E & Hf & Hm & Hl1).
      { done. } { unfold matches. by rewrite !bool_decide_eq_true_2. }
      exists l1, s', l2. rewrite parse_snapshot, Hf by done. split; [done|]. split; [done|].
      unfold matches in Hm. apply andb_true_iff in Hm as [?%bool_decide_eq_true ?%bool_decide_eq_true].
      split; [done|]. split; [done|]. eapply Forall_impl; [exact Hl1|]. intros z Hz. unfold matches in Hz.
      apply andb_false_iff in Hz as [?%bool_decide_eq_false|?%bool_decide_eq_false]; auto.
Qed.

(** The checkpoints of a folder within the same minute have one name: of two of
    them only the first in the list can be reached, by no path the other. *)
Theorem same_minute_unreachable (l1 l2 : list Ref) (s1 s2 : Ref) (path : option bytes)
  (Hlabel : ref_label s1 = ref_label s2) (Hname : snap_dir_name s1 = snap_dir_name s2) (Hne : s1 <> s2) (Hl1 : s2 ∉ l1) :
  match parse_path path (l1 ++ s1 :: l2) with
  | Some (LSnapshot s) | Some (SubPath s _) => s <> s2
  | _ => True
  end.
Proof.
  unfold parse_path. case_bool_decide; [done|]. destruct (split_once _ _) as [[label rest]|]; [|by destruct (existsb _ _)].
  destruct (split_rest rest) as [ts sub]. fold (matches label ts).
  assert (find (matches label ts) (l1 ++ s1 :: l2) <> Some s2) as Hf.
  { clear -Hlabel Hname Hne Hl1. induction l1 as [|z l1 IH]; cbn [app find].
    - destruct (matches label ts s1) eqn:E; [congruence|]. intros H. apply find_some in H as [_ H].
      unfold matches in E, H. rewrite Hlabel, Hname, H in E. done.
    - apply not_elem_of_cons in Hl1 as [Hz Hl1]. destruct (matches label ts z); [congruence|auto]. }
  destruct (find _ _) as [s|]; [|done]. case_bool_decide; congruence.
Qed.

(** ** Specification of open files *)

Inductive FileOp := ORead (count : Z) | OSeek (from : SeekFrom) | OWrite (buf : bytes) | OFlush.
Inductive Answer := ABytes (b : bytes) | APos (p : Z) | ADone | AFail (e : FsError).

Definition answer {A : Type} (ok : A -> Answer) (r : result FsError A) : Answer :=
  match r with Ok a => ok a | Err e => AFail e end.

Definition file_op (op : FileOp) (st : DavSnapshotFile * Fs) : DavSnapshotFile * Fs * Answer :=
  match op with
  | ORead count => let '(st', r) := read_bytes count st in (st', answer ABytes r)
  | OSeek from => let '(st', r) := seek from st in (st', answer APos r)
  | OWrite buf => let '(st', r) := write_bytes buf st in (st', answer (fun _ => ADone) r)
  | OFlush => let '(st', r) := flush st in (st', answer (fun _ => ADone) r)
  end.

Fixpoint file_ops (ops : list FileOp) (st : DavSnapshotFile * Fs) : list Answer :=
  match ops with
  | [] => []
  | op :: ops' => let '(st', a) := file_op op st in a :: file_ops ops' st'
  end.

(** A position in a byte string. *)
Definition cursor_op (data : bytes) (op : FileOp) (p : Z) : Z * Answer :=
  let size := Z.of_nat (length data) in
  match op with
  | ORead count =>
      if size <? p then (p, AFail FsGeneralFailure)
      else let b := take (Z.to_nat count) (drop (Z.to_nat p) data) in (p + Z.of_nat (length b), ABytes b)
  | OSeek from =>
      let target := match from with Start n => n | End_ n => size + n | Current n => p + n end in
      if (0 <=? target) && (target <=? U64_MAX) then (target, APos target) else (p, AFail FsGeneralFailure)
  | OWrite _ => (p, AFail FsForbidden)
  | OFlush => (p, ADone)
  end.

Fixpoint cursor_ops (data : bytes) (ops : list FileOp) (p : Z) : list Answer :=
  match ops with
  | [] => []
  | op :: ops' => let '(p', a) := cursor_op data op p in a :: cursor_ops data ops' p'
  end.

(** The arguments are of their types ([usize], [u64]). *)
Definition op_ok (op : FileOp) : Prop :=
  match op with
  | ORead count => 0 <= count <= U64_MAX
  | OSeek (Start n) => 0 <= n <= U64_MAX
  | OSeek (End_ n) | OSeek (Current n) => I64_MIN <= n <= I64_MAX
  | OWrite _ | OFlush => True
  end.

Context (serves : Fs -> (Ref -> bytes -> option bytes) -> Prop) `{!SnapshotFsLaws Fs Ref Time serves}.

Lemma file_op_cursor (c : Ref -> bytes -> option bytes) (data : bytes) (op : FileOp) (f : DavSnapshotFile) (fs : Fs) :
  serves fs c -> c (snap f) (file_path f) = Some data -> file_size f = Z.of_nat (length data) ->
  0 <= pos f <= U64_MAX -> Z.of_nat (length data) <= U64_MAX -> op_ok op ->
  let '((f', fs'), a) := file_op op (f, fs) in
  serves fs' c /\ (pos f', a) = cursor_op data op (pos f) /\ 0 <= pos f' <= U64_MAX /\
  snap f' = snap f /\ file_path f' = file_path f /\ file_size f' = file_size f.
Proof.
  intros Hs Hc Hsize Hpos Hlen Hop. destruct op as [count|from|buf|]; cbn [file_op cursor_op op_ok] in *; [| |done|done].
  - unfold read_bytes, checked_sub. rewrite Hsize.
    destruct (Z.leb_spec (pos f) (Z.of_nat (length data))) as [Hle|Hlt];
      [rewrite (proj2 (Z.ltb_ge _ _)) by lia|by rewrite (proj2 (Z.ltb_lt _ _)) by lia].
    assert (take (Z.to_nat count) (drop (Z.to_nat (pos f)) data) =
            take (Z.to_nat (Z.min (Z.of_nat (length data) - pos f) count)) (drop (Z.to_nat (pos f)) data)) as Ht.
    { destruct (Z.le_ge_cases count (Z.of_nat (length data) - pos f)); [by rewrite Z.min_r by lia|].
      rewrite !take_ge by (rewrite length_drop; lia). done. }
    assert (Z.of_nat (length (take (Z.to_nat count) (drop (Z.to_nat (pos f)) data))) =
            Z.min (Z.of_nat (length data) - pos f) count) as Hl.
    { rewrite length_take, length_drop. lia. }
    destruct (Z.eqb_spec (Z.min (Z.of_nat (length data) - pos f) count) 0) as [Hz|Hnz]; cbn.
    + split; [done|]. split; [|split; [lia|done]]. rewrite Hl, Hz, Ht, Hz. done.
    + destruct (read_law fs c (snap f) (file_path f) data (pos f) (Z.min (Z.of_nat (length data) - pos f) count))
        as [Hs' Hr]; [done|done|lia|lia|].
      destruct (fs_read_bytes _ _ _ _ fs) as [fs' r]. cbn [fst snd] in *. subst r. cbn.
      split; [done|]. split; [|split; [lia|done]]. by rewrite Hl, Ht.
  - unfold seek. assert (forall base n, 0 <= base <= U64_MAX -> I64_MIN <= n <= I64_MAX -> offset_from base n =
      if (0 <=? base + n) && (base + n <=? U64_MAX) then Some (base + n) else None) as Hoff.
    { intros base n Hb Hn. unfold offset_from, checked_add, checked_sub.
      destruct (Z.leb_spec 0 n), (Z.leb_spec 0 (base + n)), (Z.leb_spec (base + n) U64_MAX), (Z.leb_spec (- n) base);
        cbn [andb]; try lia; try done. f_equal. lia. }
    assert (forall t, (0 <=? t) && (t <=? U64_MAX) = true -> 0 <= t <= U64_MAX) as Hbool by (intros t ?%andb_true_iff; lia).
    destruct from as [n|n|n]; rewrite ?Hsize, ?Hoff by lia.
    + rewrite (proj2 (Z.leb_le 0 n)), (proj2 (Z.leb_le n U64_MAX)) by lia. cbn. split_and!; auto; lia.
    + destruct (_ && _) eqn:E; cbn; [apply Hbool in E|]; split_and!; auto; lia.
    + destruct (_ && _) eqn:E; cbn; [apply Hbool in E|]; split_and!; auto; lia.
Qed.

(** C32: an open file reads like the file it shows. Opening the path of a file
    of a snapshot for reading succeeds; any sequence of reads, seeks (from the
    start, the end or the position), writes and flushes then answers as a
    position in the contents of the file does: reads return the bytes at the
    position up to the end and move it, seeking out of range fails and stays,
    writes are refused. *)
Theorem open_file_is_cursor (fs : Fs) (c : Ref -> bytes -> option bytes) (snapshots : list Ref) (path : option bytes)
  (r : Ref) (sub data : bytes) (ops : list FileOp)
  (Hserves : serves fs c) (Hpath : parse_path path snapshots = Some (SubPath r sub)) (Hfile : c r sub = Some data)
  (Hlen : Z.of_nat (length data) <= U64_MAX) (Hops : Forall op_ok ops) :
  exists fs' f, open snapshots path (mkOptions false false false false) fs = (fs', Ok f) /\
    file_ops ops (f, fs') = cursor_ops data ops 0.
Proof.
  unfold open. cbn [orb write append create create_new]. rewrite Hpath. unfold se_bind, on_fs.
  destruct (metadata_law fs c r sub data Hserves Hfile) as [Hs (n & t & Hm)].
  destruct (fs_file_metadata r sub fs) as [fs' m]. cbn [fst snd] in *. subst m. cbn [map_err].
  eexists fs', _. split; [reflexivity|]. set (f := mkFile r sub (Z.of_nat (length data)) t 0).
  assert (c (snap f) (file_path f) = Some data /\ file_size f = Z.of_nat (length data) /\ 0 <= pos f <= U64_MAX) as Hf
    by (cbn; split_and!; auto; unfold U64_MAX; lia).
  change 0 with (pos f) at 1. clearbody f. clear Hserves Hfile Hpath. revert f fs' Hs Hf.
  induction Hops as [|op ops Hop _ IH]; intros f fs' Hs (Hc & Hsize & Hpos); [done|]. cbn [file_ops cursor_ops].
  pose proof (file_op_cursor c data op f fs' Hs Hc Hsize Hpos Hlen Hop) as H.
  destruct (file_op op (f, fs')) as [[f' fs2] a]. destruct H as (Hs2 & Ha & Hp2 & E1 & E2 & E3).
  destruct (cursor_op data op (pos f)) as [p' a']. injection Ha as <- <-. f_equal. apply IH; [done|].
  by rewrite E1, E2, E3.
Qed.

End Server.

End Dav.
