(* ===== verification/DavSlate.v ===== *)
(** The snapshots of a repository behind the WebDAV server: the implementation
    of [SnapshotFs] for [SlateStorage] ([bepository-storage/src/snapshot_fs.rs])
    on readers that [snapshot_reader] caches ([bepository-storage/src/api.rs]),
    and the proof that it keeps the promises of the interface.

    Requests run one after the other here; callers that race for a reader are
    in [Readers]. *)

From Stdlib Require Import ZArith Lia.
From stdpp Require Import base gmap list strings.
From S2P Require Import Prelude BepTypes Base32 Codec Kv GcState Store StoreTape StoreWp ReadOnly Snapshot.
From S2P Require Import Meta ObjectStore Activation MetaTape Registry Checkpoints Dav.

Local Open Scope Z_scope.

Module DavSlate.
Import Kv Store Meta ObjectStore Activation ReadOnly Snapshot Checkpoints Dav.

(** [DbReaderBuilder::build] for a checkpoint; [checkpoint_contents] is what the
    checkpoint pins (for the laws only). *)
Class OpenReader (OS Db : Type) := {
  open_reader : bytes -> bytes -> SE OS SlateError Db;
  checkpoint_contents : OS -> bytes -> bytes -> option contents
}.

Class OpenReaderLaws (OS Db : Type) `{ObjectStore OS, SlateDb Db, OpenReader OS Db} : Prop :=
  open_reader_law : forall sk id o c, os_healthy o -> checkpoint_contents o sk id = Some c ->
    exists o' d, open_reader sk id o = (o', Ok d) /\ os_healthy o' /\
      checkpoint_contents o' = checkpoint_contents o /\ db_contents d = c /\ db_healthy d.

Section Slate.
Context {OS Db : Type} `{!ObjectStore OS} `{!SlateDb Db} `{!OpenDb OS Db} `{!CheckpointDb OS Db} `{!OpenReader OS Db}.
Context {SC : StoreCodecs} {HF SF : Type} `{!Bloom bytes HF} `{!Bloom Z SF}.
Context {HT : HumanTime} {TM : Toml} {B64 : Base64} (sha256 : bytes -> bytes).
Context (from_timestamp : Z -> Z -> option Z).
Abbreviation Storage := (SlateStorage (OS := OS) (Db := Db) (HF := HF) (SF := SF)).

(** The storage with the readers it has opened. *)
Record SnapshotStorage := mkSnapshots { base : Storage; readers : gmap (bytes * bytes) Db }.

Abbreviation RM := (SE SnapshotStorage SnapshotError).

(** The shared block cache, for a storage that is activated. *)
Definition reader_cache (b : Storage) : Storage * result Failure unit :=
  match act b with Some _ => get_shared_db_cache sha256 b | None => (b, Ok tt) end.

(** [snapshot_reader]; the reader is the one under its key. *)
Definition snapshot_reader (sk id : bytes) : RM unit := fun s =>
  match readers s !! (sk, id) with
  | Some _ => (s, Ok tt)
  | None =>
      match reader_cache (base s) with
      | (b, Err _) => (mkSnapshots b (readers s), Err (Io "get shared db cache"))
      | (b, Ok _) =>
          match open_reader sk id (object_store b) with
          | (o, Err _) => (mkSnapshots (set_os b o) (readers s), Err (Io "open DbReader"))
          | (o, Ok d) => (mkSnapshots (set_os b o) (<[ (sk, id) := d ]> (readers s)), Ok tt)
          end
      end
  end.

Definition with_reader {A : Type} (r : SnapshotRef) (m : SE Db SnapshotError A) : RM A :=
  se_bind (snapshot_reader (folder_sk r) (snap_id r)) (fun _ s =>
    match readers s !! (folder_sk r, snap_id r) with
    | Some d => let '(d', a) := m d in (mkSnapshots (base s) (<[ (folder_sk r, snap_id r) := d' ]> (readers s)), a)
    | None => (s, Err (Io "the reader was just opened"))
    end).

#[export] Instance slate_snapshots : SnapshotFs SnapshotStorage SnapshotRef Z := {
  ref_label := folder_label;
  ref_time := snap_time;
  list_snapshots s := let '(b, r) := Checkpoints.list_snapshots (base s) in (mkSnapshots b (readers s), r);
  fs_read_dir r path := with_reader r (Snapshot.read_dir from_timestamp path);
  fs_file_metadata r path := with_reader r (Snapshot.file_metadata from_timestamp path);
  fs_read_bytes r path offset len := with_reader r (Snapshot.read_bytes path offset len)
}.

(** ** What it promises *)

Context `{!SlateDbLaws Db} `{!OpenReaderLaws OS Db}.

(** The contents of a snapshot, through its reader or in the store. *)
Definition sees (s : SnapshotStorage) (r : SnapshotRef) (c : contents) : Prop :=
  match readers s !! (folder_sk r, snap_id r) with
  | Some d => db_healthy d /\ db_contents d = c
  | None => checkpoint_contents (Db := Db) (object_store (base s)) (folder_sk r) (snap_id r) = Some c
  end.

(** The storage is not activated (as in the server), the object store does not
    fail, and each file of [fc] is in its snapshot with a time that can be
    shown. *)
Definition slate_serves (s : SnapshotStorage) (fc : SnapshotRef -> bytes -> option bytes) : Prop :=
  act (base s) = None /\ os_healthy (object_store (base s)) /\
  forall r p data, fc r p = Some data -> exists c fi ds e, sees s r c /\ holds_file c p fi ds /\ data = concat ds /\
    fs_entry_from_file_info from_timestamp (last_component p) fi = Ok e.

(** A read on the reader of a snapshot. *)
Lemma with_reader_answers {A : Type} (s : SnapshotStorage) (r : SnapshotRef) (c : contents)
  (m : SE Db SnapshotError A) (Q : result SnapshotError A -> Prop) :
  act (base s) = None -> os_healthy (object_store (base s)) -> sees s r c -> answers (S := Db) c m Q ->
  let '(s', a) := with_reader r m s in
  Q a /\ act (base s') = None /\ os_healthy (object_store (base s')) /\
  forall r' c', sees s r' c' -> sees s' r' c'.
Proof.
  intros Hact Hh Hsees Hm. unfold with_reader, se_bind, snapshot_reader.
  assert (forall o d rs, db_healthy d -> db_contents d = c -> os_healthy o ->
    checkpoint_contents (Db := Db) o = checkpoint_contents (object_store (base s)) ->
    rs !! (folder_sk r, snap_id r) = Some d ->
    (forall r' c', (folder_sk r', snap_id r') <> (folder_sk r, snap_id r) -> sees s r' c' ->
       sees (mkSnapshots (set_os (base s) o) rs) r' c') ->
    let '(s', a) := (let '(d', a) := m d in
      (mkSnapshots (set_os (base s) o) (<[ (folder_sk r, snap_id r) := d' ]> rs), a)) in
    Q a /\ act (base s') = None /\ os_healthy (object_store (base s')) /\
    forall r' c', sees s r' c' -> sees s' r' c') as Hrun.
  { intros o d rs Hd1 Hd2 Ho Hc Hrs Hother. destruct (Hm d Hd2 Hd1) as (H1 & H2 & H3). destruct (m d) as [d' a].
    cbn [fst snd] in *. split; [done|]. split; [done|]. split; [done|]. intros r' c' Hr'.
    destruct (decide ((folder_sk r', snap_id r') = (folder_sk r, snap_id r))) as [E|Hne].
    - unfold sees in *. cbn. rewrite E, lookup_insert_eq. split; [done|]. change (db_contents d' = c) in H1. rewrite H1. rewrite E in Hr'.
      destruct (readers s !! _); [destruct Hsees, Hr'|]; congruence.
    - specialize (Hother r' c' Hne Hr'). unfold sees in *. cbn in *. by rewrite lookup_insert_ne by done. }
  destruct (readers s !! (folder_sk r, snap_id r)) as [d|] eqn:Er.
  - rewrite Er. unfold sees in Hsees. rewrite Er in Hsees. destruct Hsees as [Hd1 Hd2].
    specialize (Hrun (object_store (base s)) d (readers s) Hd1 Hd2 Hh eq_refl Er).
    assert (set_os (base s) (object_store (base s)) = base s) as Eb by by destruct (base s).
    rewrite Eb in Hrun. apply Hrun. intros r' c' _. by destruct s.
  - unfold reader_cache. rewrite Hact. unfold sees in Hsees. rewrite Er in Hsees.
    destruct (open_reader_law _ _ _ _ Hh Hsees) as (o & d & -> & Ho & Hc & Hd2 & Hd1). cbn [readers base].
    rewrite lookup_insert_eq. apply Hrun; [done..|apply lookup_insert_eq|].
    intros r' c' Hne. unfold sees. cbn. rewrite lookup_insert_ne by done. by rewrite Hc.
Qed.

Lemma entry_is_file name fi e : fs_entry_from_file_info from_timestamp name fi = Ok e ->
  exists t, e = EFile name (storage.size fi) t.
Proof.
  unfold fs_entry_from_file_info. destruct (negb _); [done|]. destruct (from_timestamp _ _) as [t|]; [|done].
  cbn [ok_or rbind]. destruct (_ <? _); [done|]. intros [= <-]. by exists t.
Qed.

#[export] Instance slate_snapshots_laws : SnapshotFsLaws SnapshotStorage SnapshotRef Z slate_serves.
Proof.
  split.
  - intros s fc r p data (Hact & Hh & Hfc) Hdata. destruct (Hfc r p data Hdata) as (c & fi & ds & e & Hs & Hf & -> & He).
    pose proof (with_reader_answers s r c _ _ Hact Hh Hs (answers_file_metadata from_timestamp c p fi ds Hf)) as H.
    cbn [fs_file_metadata slate_snapshots]. destruct (with_reader r _ s) as [s' a]. destruct H as (-> & H1 & H2 & H3).
    cbn [fst snd]. split.
    + split; [done|]. split; [done|]. intros r' p' data' Hd'. destruct (Hfc r' p' data' Hd') as (c' & fi' & ds' & e' & ? & ?).
      exists c', fi', ds', e'. auto.
    + pose proof (entry_is_file _ _ _ He) as [t ->]. exists (last_component p), t. rewrite He.
      destruct Hf as (_ & _ & -> & _). done.
  - intros s fc r p data offset len (Hact & Hh & Hfc) Hdata Hoff Hlen.
    destruct (Hfc r p data Hdata) as (c & fi & ds & e & Hs & Hf & -> & He).
    pose proof (with_reader_answers s r c _ _ Hact Hh Hs (answers_read_bytes c p offset len fi ds Hf Hoff Hlen)) as H.
    cbn [fs_read_bytes slate_snapshots]. destruct (with_reader r _ s) as [s' a]. destruct H as (-> & H1 & H2 & H3).
    cbn [fst snd]. split; [|done]. split; [done|]. split; [done|]. intros r' p' data' Hd'.
    destruct (Hfc r' p' data' Hd') as (c' & fi' & ds' & e' & ? & ?). exists c', fi', ds', e'. auto.
Qed.

End Slate.

(** ** Example *)

Import MetaTape.

#[local] Existing Instance StoreTape.codecs.
#[local] Existing Instance StoreTape.laws.

(** Every checkpoint has the two-block file. *)
#[local] Instance toy_reader : OpenReader MemStore MapDb := {
  open_reader _ _ o := (o, Ok two_blocks_db);
  checkpoint_contents _ _ _ := Some (db_contents two_blocks_db)
}.
#[local] Instance toy_reader_laws : OpenReaderLaws MemStore MapDb.
Proof. intros sk id o c Ho [= <-]. by exists o, two_blocks_db. Qed.

Definition minute (t : Z) : bytes := lit "m" ++ [48 + t / 60].
Definition toy_time (s ns : Z) : option Z := Some s.
Definition snap1 : SnapshotRef := mkSnapshotRef (lit "photos") 100 (lit "folder_00000000") [1].
Definition snap2 : SnapshotRef := mkSnapshotRef (lit "photos") 70 (lit "folder_00000000") [2].
Definition snap3 : SnapshotRef := mkSnapshotRef (lit "photos") 10 (lit "folder_00000000") [3].

Abbreviation ToyStorage := (SnapshotStorage (OS := MemStore) (Db := MapDb) (HF := StoreTape.HFilter) (SF := StoreTape.SFilter)).
Definition fresh : ToyStorage := mkSnapshots (new (mkMem ∅ None false) None) ∅.

#[local] Instance toy_snapshots : SnapshotFs ToyStorage SnapshotRef Z := slate_snapshots Registry.toy_sha toy_time.
#[local] Instance toy_snapshots_laws : SnapshotFsLaws ToyStorage SnapshotRef Z (slate_serves toy_time) :=
  slate_snapshots_laws Registry.toy_sha toy_time.

Definition toy_files (r : SnapshotRef) (p : bytes) : option bytes :=
  if bool_decide (p = lit "f") then Some [10; 11; 12; 13; 14] else None.

Lemma fresh_serves : slate_serves toy_time fresh toy_files.
Proof.
  split; [done|]. split; [done|]. intros r p data. unfold toy_files. case_bool_decide as E; [|done]. subst p. intros [= <-].
  exists (db_contents two_blocks_db), two_blocks, [[10; 11; 12]; [13; 14]]. eexists.
  split; [done|]. split; [apply two_blocks_held|]. split; [done|]. vm_compute. reflexivity.
Qed.

Definition script : list FileOp :=
  [ORead 2; OSeek (Current 1); ORead 10; ORead 1; OSeek (End_ (-5)); OSeek (Current (-1)); ORead 1; OWrite [0]].

Lemma open_file_is_cursor_witness :
  exists fs' f, Dav.open (SnapshotFs0 := toy_snapshots) minute [snap1; snap2; snap3]
      (Some (lit "photos/m1/f")) (mkOptions false false false false) fresh = (fs', Ok f) /\
    file_ops (SnapshotFs0 := toy_snapshots) script (f, fs') =
      [ABytes [10; 11]; APos 3; ABytes [13; 14]; ABytes []; APos 0; AFail FsGeneralFailure; ABytes [10]; AFail FsForbidden].
Proof.
  exact (open_file_is_cursor (SnapshotFs0 := toy_snapshots) minute (slate_serves toy_time)
    fresh toy_files [snap1; snap2; snap3] (Some (lit "photos/m1/f")) snap1 (lit "f") [10; 11; 12; 13; 14] script
    fresh_serves eq_refl eq_refl ltac:(vm_compute; discriminate)
    ltac:(repeat constructor; vm_compute; discriminate)).
Defined.

Lemma listed_names_resolve_witness :
  exists l1 s' l2, [snap1; snap2; snap3] = l1 ++ s' :: l2 /\
    parse_path (SnapshotFs0 := toy_snapshots) minute (Some (lit "photos/m1")) [snap1; snap2; snap3] = Some (LSnapshot s').
Proof.
  destruct (listed_names_resolve (SnapshotFs0 := toy_snapshots) minute 0
    [snap1; snap2; snap3] fresh) as [_ H].
  { repeat constructor; (discriminate || (apply (bool_decide_unpack _); by vm_compute)). }
  destruct (H snap2) as [_ (l1 & s' & l2 & E & Hp & _)]; [right; left|]. by exists l1, s', l2.
Defined.

(** Of the checkpoints of one minute only the newest can be entered. *)
Lemma same_minute_unreachable_witness :
  match parse_path (SnapshotFs0 := toy_snapshots) minute (Some (lit "photos/m1")) [snap1; snap2; snap3] with
  | Some (LSnapshot s) | Some (SubPath s _) => s <> snap2
  | _ => True
  end.
Proof.
  apply (same_minute_unreachable (SnapshotFs0 := toy_snapshots) minute [] [snap2; snap3] snap1 snap2 (Some (lit "photos/m1")));
    [done|by vm_compute|done|apply not_elem_of_nil].
Defined.

End DavSlate.
