(* ===== verification/Compact.v ===== *)
(** A full compaction on demand ([compact] of [bepository-storage/src/api.rs],
    [fsck_compact] of [bepository-cli/src/main.rs]): one job per segment, each
    submitted once the one before has left the manifest.

    The compactor is an interface over the object store: its manifest can be
    read, jobs are submitted to it, and it works while the caller sleeps. Times
    are nanoseconds. *)

From Stdlib Require Import ZArith Lia.
From stdpp Require Import base gmap list strings.
From S2P Require Import Prelude BepTypes Base32 Codec Kv GcState Store Compaction CompactionSafety Meta ObjectStore Activation Guard.

Local Open Scope Z_scope.
Local Open Scope bep_scope.

Module Compact.
Import Kv Compaction CompactionSafety.

(** ** The compactor *)

(** [admin.read_compactor_state_view()], [admin.submit_compaction], the clock
    and [sleep]; [manifest], [current_job] and [work_left] are the state of the
    compactor of a database (for the laws only): the job it was given and the
    number of polls until it is committed. *)
Class Compactor (C : Type) := {
  read_segments : bytes -> SE C SlateError (list Segment);
  submit_compaction : bytes -> CompactionSpec -> SE C SlateError unit;
  clock : C -> Z;
  sleep : Z -> C -> C;
  manifest : C -> bytes -> list Segment;
  current_job : C -> bytes -> option (CompactionSpec * nat)
}.

Definition POLL : Z := 2 * Guard.SECOND.
Definition TIMEOUT : Z := 3600 * Guard.SECOND.

(** How the loop ends before its end: an error, or the fuel that bounds it. *)
Inductive Stop := IoError (msg : string) | TimedOut | OutOfFuel.

Section Loop.
Context {C : Type} `{!Compactor C} (sk : bytes).
Abbreviation L := (SE C Stop).

Definition io {A : Type} (msg : string) (m : SE C SlateError A) : L A := fun c =>
  let '(c', r) := m c in (c', map_err (fun _ => IoError msg) r).

(** The first segment that is not a single run. *)
Definition needs_merge (seg : Segment) : bool :=
  negb (Nat.eqb (length (seg_l0 seg)) 0) || Nat.ltb 1 (length (seg_compacted seg)).
Definition next_segment (segs : list Segment) : option Segment := find needs_merge segs.

(** The sources that vanish when the job is committed. *)
Definition pending_l0 (seg : Segment) : list Z := seg_l0 seg.
Definition pending_sr (seg : Segment) : list Z :=
  List.filter (fun id => negb (bool_decide (Some id = list_min (seg_compacted seg)))) (seg_compacted seg).

Definition spec_for (segs : list Segment) (seg : Segment) : CompactionSpec :=
  merge_all seg (next_free_sr_id (flat_map seg_compacted segs)).

Definition still_pending (l0 sr : list Z) (segs : list Segment) : bool :=
  existsb (fun seg => existsb (fun id => bool_decide (id ∈ l0)) (seg_l0 seg) ||
                      existsb (fun id => bool_decide (id ∈ sr)) (seg_compacted seg)) segs.

(** The inner loop. *)
Fixpoint wait_loop (fuel : nat) (start : Z) (l0 sr : list Z) : L unit :=
  match fuel with
  | O => se_err OutOfFuel
  | S fuel' =>
      run! se_modify (sleep POLL);
      do! segs <- io "read compactor state" (read_segments sk);
      if negb (still_pending l0 sr segs) then se_ret tt
      else
        do! c <- se_get;
        if TIMEOUT <? clock c - start then se_err TimedOut else wait_loop fuel' start l0 sr
  end.

(** The number of polls within the time limit, and one more. *)
Definition POLLS : nat := 1802.

(** The outer loop. *)
Fixpoint compact_loop (fuel : nat) (start : Z) : L unit :=
  match fuel with
  | O => se_err OutOfFuel
  | S fuel' =>
      do! segs <- io "read compactor state" (read_segments sk);
      match next_segment segs with
      | None => se_ret tt
      | Some seg =>
          run! io "submit compaction" (submit_compaction sk (spec_for segs seg));
          run! wait_loop POLLS start (pending_l0 seg) (pending_sr seg);
          compact_loop fuel' start
      end
  end.

(** ** The laws of a compactor that works *)

(** The manifest after the job: the sources are gone, the destination is
    there. *)
Definition is_source (sp : CompactionSpec) (s : SourceId) : bool :=
  existsb (fun s' => match s, s' with
                     | SstView a, SstView b | SortedRun a, SortedRun b => a =? b
                     | _, _ => false
                     end) (spec_sources sp).

Definition commit_segment (sp : CompactionSpec) (seg : Segment) : Segment :=
  mkSegment (seg_prefix seg)
    (List.filter (fun id => negb (is_source sp (SstView id))) (seg_l0 seg))
    (option_list (spec_destination sp) ++
     List.filter (fun id => negb (is_source sp (SortedRun id))) (seg_compacted seg)).

Definition commit (sp : CompactionSpec) (segs : list Segment) : list Segment :=
  map (fun seg => if bool_decide (seg_prefix seg = spec_segment sp) then commit_segment sp seg else seg) segs.

(** What the size-tiered validator asks of a job: sources of one segment; with
    a sorted run among them the destination is the lowest of those, otherwise it
    is above every run. *)
Definition valid_spec (sp : CompactionSpec) (segs : list Segment) : Prop :=
  spec_sources sp <> [] /\
  exists seg, seg ∈ segs /\ seg_prefix seg = spec_segment sp /\
    (forall id, SstView id ∈ spec_sources sp -> id ∈ seg_l0 seg) /\
    (forall id, SortedRun id ∈ spec_sources sp -> id ∈ seg_compacted seg) /\
    exists d, spec_destination sp = Some d /\
      ((SortedRun d ∈ spec_sources sp /\ forall id, SortedRun id ∈ spec_sources sp -> d <= id) \/
       ((forall id, SortedRun id ∉ spec_sources sp) /\ forall id, id ∈ flat_map seg_compacted segs -> id < d)).

(** A valid job is committed after at most [patience] polls; a request or a
    sleep takes at most [cost] longer than it must. *)
Class CompactorLaws (patience : nat) (cost : Z) : Prop := {
  read_law c : let '(c', r) := read_segments sk c in
    r = Ok (manifest c sk) /\ manifest c' sk = manifest c sk /\ current_job c' sk = current_job c sk /\
    clock c <= clock c' <= clock c + cost;
  submit_law c sp : current_job c sk = None -> valid_spec sp (manifest c sk) ->
    let '(c', r) := submit_compaction sk sp c in
    r = Ok tt /\ manifest c' sk = manifest c sk /\ clock c <= clock c' <= clock c + cost /\
    exists n, current_job c' sk = Some (sp, n) /\ (1 <= n <= patience)%nat;
  sleep_law c d sp n : current_job c sk = Some (sp, n) ->
    let c' := sleep d c in
    clock c + d <= clock c' <= clock c + d + cost /\
    match n with
    | S (S n') => manifest c' sk = manifest c sk /\ current_job c' sk = Some (sp, S n')
    | _ => manifest c' sk = commit sp (manifest c sk) /\ current_job c' sk = None
    end
}.

(** ** Merging one segment *)

Definition todo (segs : list Segment) : nat := length (List.filter needs_merge segs).

(** The ids of a manifest. *)
Record wf (segs : list Segment) : Prop := mkWf {
  wf_prefix : NoDup (map seg_prefix segs);
  wf_l0 : NoDup (flat_map seg_l0 segs);
  wf_runs : NoDup (flat_map seg_compacted segs);
  wf_room id : id ∈ flat_map seg_compacted segs -> 0 <= id /\ id + Z.of_nat (todo segs) < U32_MAX;
  wf_count : Z.of_nat (length segs) < U32_MAX
}.

(** The destination of the job for a segment. *)
Definition dest (segs : list Segment) (seg : Segment) : Z :=
  default (next_free_sr_id (flat_map seg_compacted segs)) (list_min (seg_compacted seg)).

Lemma list_min_le l m x : list_min l = Some m -> x ∈ l -> m <= x.
Proof.
  destruct l as [|y l]; cbn; [done|]. intros [= <-].
  assert (forall l a b, (b = a \/ b ∈ l) -> fold_left Z.min l a <= b) as H; [|intros ?%elem_of_cons; by apply H].
  clear. induction l as [|z l IH]; intros a b; cbn.
  - intros [->|?%elem_of_nil]; [lia|done].
  - intros [->|[->|?]%elem_of_cons].
    + etrans; [apply IH; by left|]. lia.
    + etrans; [apply IH; by left|]. lia.
    + apply IH. by right.
Qed.

Lemma is_source_merge seg n s :
  is_source (merge_all seg n) s = true <->
  match s with SstView id => id ∈ seg_l0 seg | SortedRun id => id ∈ seg_compacted seg end.
Proof.
  unfold is_source. rewrite existsb_exists. cbn [merge_all spec_sources]. split.
  - intros (s' & Hin & He). rewrite <- list_elem_of_In, elem_of_app, !list_elem_of_fmap in Hin.
    destruct s, s'; try done; apply Z.eqb_eq in He as ->; destruct Hin as [(? & [= <-] & ?)|(? & [= <-] & ?)]; done.
  - intros Hin. exists s. rewrite <- list_elem_of_In, elem_of_app, !list_elem_of_fmap.
    destruct s as [id|id]; (split; [|apply Z.eqb_refl]); [left|right]; by exists id.
Qed.

Lemma filter_none {A : Type} (P : A -> bool) (l : list A) : (forall x, x ∈ l -> P x = false) -> List.filter P l = [].
Proof.
  induction l as [|y l IH]; intros H; [done|]. cbn. rewrite (H y) by by left. apply IH. intros x Hx. apply H. by right.
Qed.

(** The job empties the segment but for its destination and leaves the others
    as they are. *)
Lemma commit_split l1 seg l2 n : NoDup (map seg_prefix (l1 ++ seg :: l2)) ->
  commit (merge_all seg n) (l1 ++ seg :: l2) =
  l1 ++ mkSegment (seg_prefix seg) [] [default n (list_min (seg_compacted seg))] :: l2.
Proof.
  rewrite map_app. cbn [map]. intros (_ & Hl1 & Hl2)%NoDup_app. apply NoDup_cons in Hl2 as [Hl2 _].
  assert (forall l, seg_prefix seg ∉ map seg_prefix l -> commit (merge_all seg n) l = l) as Hid.
  { induction l as [|z l IH]; intros Hn; [done|]. apply not_elem_of_cons in Hn as [Hz Hn]. cbn [commit map].
    rewrite bool_decide_eq_false_2 by (cbn; congruence). f_equal. by apply IH. }
  unfold commit in *. rewrite map_app. cbn [map]. rewrite (bool_decide_eq_true_2 (seg_prefix seg = _)) by done.
  rewrite (Hid l1), (Hid l2); [|done|intros H; apply (Hl1 _ H); by left].
  f_equal. f_equal. unfold commit_segment. cbn [merge_all spec_destination option_list]. f_equal.
  - apply filter_none. intros id Hin. apply negb_false_iff. by apply (is_source_merge seg n (SstView id)).
  - rewrite (filter_none _ (seg_compacted seg)); [done|]. intros id Hin. apply negb_false_iff.
    by apply (is_source_merge seg n (SortedRun id)).
Qed.

Lemma todo_app l1 l2 : todo (l1 ++ l2) = (todo l1 + todo l2)%nat.
Proof. unfold todo. by rewrite List.filter_app, length_app. Qed.

Lemma dest_cases segs seg : wf segs -> seg ∈ segs ->
  0 <= dest segs seg /\
  ((dest segs seg ∈ seg_compacted seg /\ forall id, id ∈ seg_compacted seg -> dest segs seg <= id) \/
   (seg_compacted seg = [] /\ forall id, id ∈ flat_map seg_compacted segs -> id < dest segs seg)).
Proof.
  intros Hwf Hin. unfold dest. destruct (list_min (seg_compacted seg)) as [m|] eqn:E; cbn [default from_option id].
  - pose proof (list_min_elem _ _ E) as Hm. split.
    + apply (wf_room _ Hwf). apply list_elem_of_In, in_flat_map. exists seg. by rewrite <- !list_elem_of_In.
    + left. split; [done|]. intros id. by apply list_min_le.
  - assert (forall id, id ∈ flat_map seg_compacted segs -> id < next_free_sr_id (flat_map seg_compacted segs)) as Hlt.
    { intros id. apply next_free_sr_id_above. intros x Hx%(wf_room _ Hwf). lia. }
    split; [|right; split; [by destruct (seg_compacted seg)|done]].
    unfold next_free_sr_id in *. destruct (list_max _) as [x|] eqn:Em; [|lia].
    apply list_max_elem, (wf_room _ Hwf) in Em. unfold saturating_add_u32. unfold U32_MAX in *. lia.
Qed.

Lemma spec_for_valid segs seg : wf segs -> seg ∈ segs -> needs_merge seg = true -> valid_spec (spec_for segs seg) segs.
Proof.
  intros Hwf Hin Hn. unfold spec_for. split.
  - cbn [merge_all spec_sources]. unfold needs_merge in Hn. destruct (seg_l0 seg); [|done]. by destruct (seg_compacted seg).
  - exists seg. split; [done|]. split; [done|]. cbn [merge_all spec_sources spec_destination].
    setoid_rewrite elem_of_app. setoid_rewrite list_elem_of_fmap.
    split; [intros id [(? & [= ->] & ?)|(? & [=] & ?)]; done|].
    split; [intros id [(? & [=] & ?)|(? & [= ->] & ?)]; done|].
    exists (dest segs seg). split; [done|]. destruct (dest_cases segs seg Hwf Hin) as [_ [[Hd Hle]|[He Hlt]]].
    + left. split; [right; by exists (dest segs seg)|]. intros id [(? & [=] & ?)|(? & [= ->] & ?)]. auto.
    + right. split; [|done]. rewrite He. intros id [(? & [=] & ?)|(? & _ & ?%elem_of_nil)]. done.
Qed.
Lemma still_pending_true l0 sr segs :
  still_pending l0 sr segs = true <->
  exists seg id, seg ∈ segs /\ ((id ∈ seg_l0 seg /\ id ∈ l0) \/ (id ∈ seg_compacted seg /\ id ∈ sr)).
Proof.
  unfold still_pending. rewrite existsb_exists. setoid_rewrite <- list_elem_of_In. setoid_rewrite orb_true_iff.
  setoid_rewrite existsb_exists. setoid_rewrite <- list_elem_of_In. setoid_rewrite bool_decide_eq_true. naive_solver.
Qed.

Lemma elem_pending_sr seg id : id ∈ pending_sr seg <-> id ∈ seg_compacted seg /\ Some id <> list_min (seg_compacted seg).
Proof. unfold pending_sr. rewrite list_elem_of_In, filter_In, <- list_elem_of_In, negb_true_iff. by rewrite bool_decide_eq_false. Qed.

Lemma pending_before segs seg : wf segs -> seg ∈ segs -> needs_merge seg = true ->
  still_pending (pending_l0 seg) (pending_sr seg) segs = true.
Proof.
  intros Hwf Hin Hn. apply still_pending_true. exists seg. unfold needs_merge, pending_l0 in *.
  destruct (seg_l0 seg) as [|id ids]; cbn [length Nat.eqb negb orb] in Hn.
  2: { exists id. split; [done|]. left. split; by left. }
  assert (NoDup (seg_compacted seg)) as Hnd.
  { pose proof (wf_runs _ Hwf) as Hr. clear -Hin Hr. induction segs as [|z segs IH]; [by apply elem_of_nil in Hin|].
    cbn in Hr. apply NoDup_app in Hr as (H1 & _ & H2). apply elem_of_cons in Hin as [->|Hin]; auto. }
  destruct (seg_compacted seg) as [|a [|b l]] eqn:Ec; [done|done|].
  destruct (decide (Some a = list_min (a :: b :: l))) as [Ha|Ha].
  - exists b. split; [done|]. right. split; [right; by left|]. apply elem_pending_sr. rewrite Ec. split; [right; by left|].
    rewrite <- Ha. intros [= ->]. apply NoDup_cons in Hnd as [Hnd _]. apply Hnd. by left.
  - exists a. split; [done|]. right. split; [by left|]. apply elem_pending_sr. rewrite Ec. split; [by left|done].
Qed.

(** *** The manifest after merging a segment *)

Section Merged.
Context (l1 : list Segment) (seg : Segment) (l2 : list Segment).
Context (Hwf : wf (l1 ++ seg :: l2)) (Hn : needs_merge seg = true).
Let segs := l1 ++ seg :: l2.
Let d := dest segs seg.
Let segs' := l1 ++ mkSegment (seg_prefix seg) [] [d] :: l2.

Lemma merged_todo : todo segs = S (todo segs').
Proof. unfold segs, segs'. rewrite !todo_app. unfold todo. cbn [List.filter]. rewrite Hn. cbn. lia. Qed.

Lemma flat_split {A : Type} (f : Segment -> list A) z : flat_map f (l1 ++ z :: l2) = flat_map f l1 ++ f z ++ flat_map f l2.
Proof. by rewrite flat_map_app. Qed.

(** The ids of the segment and of the others are distinct, and the destination
    is not among the others. *)
Lemma others_distinct (f : Segment -> list Z) id : NoDup (flat_map f segs) ->
  id ∈ f seg -> id ∉ flat_map f l1 ++ flat_map f l2.
Proof.
  unfold segs. rewrite flat_split. intros (_ & A & (_ & B & _)%NoDup_app)%NoDup_app Hid [H|H]%elem_of_app; [|by apply (B id)].
  apply (A id H). set_solver.
Qed.

Lemma dest_new : d ∉ flat_map seg_compacted l1 ++ flat_map seg_compacted l2.
Proof.
  destruct (dest_cases segs seg Hwf ltac:(set_solver)) as [_ [[Hd _]|[_ Hlt]]].
  - by apply others_distinct; [apply (wf_runs _ Hwf)|].
  - intros Hd. assert (d < d); [|lia]. apply Hlt. unfold segs. rewrite flat_split. set_solver.
Qed.

Lemma merged_room id : id ∈ flat_map seg_compacted segs' -> 0 <= id /\ id + Z.of_nat (todo segs') < U32_MAX.
Proof.
  unfold segs'. rewrite flat_split. cbn [seg_compacted]. intros Hid. pose proof (wf_room _ Hwf) as Hroom. fold segs in Hroom.
  rewrite merged_todo in Hroom. set (t := todo _) in *.
  destruct (decide (id ∈ flat_map seg_compacted segs)) as [Hin|Hout]; [apply Hroom in Hin; lia|].
  assert (id = d) as -> by (unfold segs in Hout; rewrite flat_split in Hout; set_solver).
  destruct (dest_cases segs seg Hwf ltac:(set_solver)) as [Hd0 [[Hd _]|[He _]]].
  { destruct Hout. unfold segs. rewrite flat_split. set_solver. }
  split; [done|]. unfold d. unfold dest. rewrite He. cbn [list_min default from_option id].
  unfold next_free_sr_id. destruct (list_max _) as [m|] eqn:Em.
  - apply list_max_elem, Hroom in Em. unfold saturating_add_u32. lia.
  - pose proof (List.filter_length_le needs_merge segs) as Hlen. fold (todo segs) in Hlen. rewrite merged_todo in Hlen.
    pose proof (wf_count _ Hwf) as Hc. fold segs in Hc. fold t in Hlen. lia.
Qed.

Lemma merged_wf : wf segs'.
Proof.
  pose proof Hwf as [W1 W2 W3 _ W5]. rewrite flat_split in W2, W3. cbn [app] in W2, W3. split.
  - unfold segs'. rewrite map_app in *. exact W1.
  - unfold segs'. rewrite flat_split. apply NoDup_app in W2 as (A1 & A2 & (_ & _ & A3)%NoDup_app). apply NoDup_app.
    split; [done|]. split; [|done]. intros id H1 H2. apply (A2 id H1). set_solver.
  - unfold segs'. rewrite flat_split. apply NoDup_app in W3 as (B1 & B2 & (_ & _ & B3)%NoDup_app). pose proof dest_new as Hd.
    apply NoDup_app. split; [done|]. split.
    + intros id H1 [->|H2]%elem_of_cons; [set_solver|]. apply (B2 id H1). set_solver.
    + apply NoDup_cons. split; [set_solver|done].
  - apply merged_room.
  - unfold segs'. rewrite length_app in *. exact W5.
Qed.

Lemma merged_not_pending : still_pending (pending_l0 seg) (pending_sr seg) segs' = false.
Proof.
  destruct (still_pending _ _ segs') eqn:Ep; [|done]. apply still_pending_true in Ep as (z & id & Hz & Hp). exfalso.
  assert (forall (f : Segment -> list Z), z ∈ l1 \/ z ∈ l2 -> id ∈ f z -> id ∈ flat_map f l1 ++ flat_map f l2) as Hother.
  { intros f Hl Hid. rewrite <- flat_map_app. apply list_elem_of_In, in_flat_map. exists z. rewrite <- !list_elem_of_In. set_solver. }
  rewrite elem_pending_sr in Hp. unfold pending_l0 in Hp.
  assert (z = mkSegment (seg_prefix seg) [] [d] \/ (z ∈ l1 \/ z ∈ l2)) as [->|Hl] by (unfold segs'; set_solver).
  - cbn in Hp. destruct Hp as [[?%elem_of_nil _]|(->%list_elem_of_singleton & H2 & H3)]; [done|].
    unfold d, dest in H3. destruct (list_min (seg_compacted seg)) eqn:El; [done|].
    destruct (seg_compacted seg); [by apply elem_of_nil in H2|done].
  - destruct Hp as [[H1 H2]|(H1 & H2 & _)].
    + by apply (others_distinct seg_l0 id (wf_l0 _ Hwf) H2), Hother.
    + by apply (others_distinct seg_compacted id (wf_runs _ Hwf) H2), Hother.
Qed.

End Merged.

Lemma find_none_todo segs : find needs_merge segs = None -> todo segs = 0%nat.
Proof. intros H. unfold todo. rewrite filter_none; [done|]. intros z Hz%list_elem_of_In. by apply (find_none _ _ H). Qed.

Lemma find_none_merged segs : find needs_merge segs = None ->
  Forall (fun seg => seg_l0 seg = [] /\ (length (seg_compacted seg) <= 1)%nat) segs.
Proof.
  intros H. apply Forall_forall. intros z Hz. pose proof (find_none _ _ H z (proj1 (list_elem_of_In _ _) Hz)) as Hn. unfold needs_merge in Hn.
  apply orb_false_iff in Hn as [H1%negb_false_iff%Nat.eqb_eq H2%Nat.ltb_ge]. by apply nil_length_inv in H1.
Qed.

Lemma commit_prefixes sp segs : map seg_prefix (commit sp segs) = map seg_prefix segs.
Proof. unfold commit. rewrite map_map. apply map_ext. intros z. by destruct (bool_decide _). Qed.

(** ** The loops *)

Context (patience : nat) (cost : Z) `{!CompactorLaws patience cost}.

(** The time of a poll at most: the sleep and the request after it. *)
Definition poll_time : Z := POLL + 2 * cost.

Lemma wait_done (sp : CompactionSpec) (segs : list Segment) (l0 sr : list Z) (start : Z) :
  still_pending l0 sr segs = true -> still_pending l0 sr (commit sp segs) = false -> 0 <= cost ->
  forall (n fuel : nat) (c : C), current_job c sk = Some (sp, n) -> manifest c sk = segs -> (1 <= n <= fuel)%nat ->
  clock c + Z.of_nat n * poll_time - start <= TIMEOUT ->
  let '(c', r) := wait_loop fuel start l0 sr c in
  r = Ok tt /\ manifest c' sk = commit sp segs /\ current_job c' sk = None /\
  clock c <= clock c' <= clock c + Z.of_nat n * poll_time.
Proof.
  intros Hp Hq Hcost. induction n as [|n IH]; intros fuel c Hj Hm Hn Ht; [lia|].
  destruct fuel as [|fuel]; [lia|]. cbn [wait_loop]. unfold se_bind, se_modify, io.
  pose proof (sleep_law c POLL sp (S n) Hj) as Hs. cbv zeta in Hs. set (c1 := sleep POLL c) in *. destruct Hs as [Hc1 Hs].
  pose proof (read_law c1) as Hr. destruct (read_segments sk c1) as [c2 r]. destruct Hr as (-> & Hm2 & Hj2 & Hc2). cbn [map_err].
  unfold poll_time, POLL, Guard.SECOND in *. destruct n as [|n].
  - destruct Hs as [Hm1 Hj1]. rewrite Hm1, Hm, Hq. cbn. split; [done|]. split; [congruence|]. split; [congruence|lia].
  - destruct Hs as [Hm1 Hj1]. rewrite Hm1, Hm, Hp. cbn [negb se_get].
    rewrite (proj2 (Z.ltb_ge _ _)) by lia.
    specialize (IH fuel c2 ltac:(congruence) ltac:(congruence) ltac:(lia) ltac:(lia)).
    destruct (wait_loop fuel start l0 sr c2) as [c3 r3]. destruct IH as (-> & ? & ? & ?). split_and!; try done; lia.
Qed.

Lemma compact_loop_S fuel start :
  compact_loop (S fuel) start =
  (do! segs <- io "read compactor state" (read_segments sk);
   match next_segment segs with
   | None => se_ret tt
   | Some seg =>
       run! io "submit compaction" (submit_compaction sk (spec_for segs seg));
       run! wait_loop POLLS start (pending_l0 seg) (pending_sr seg);
       compact_loop fuel start
   end).
Proof. reflexivity. Qed.

(** The time that one segment takes at most. *)
Definition segment_time : Z := 2 * cost + Z.of_nat patience * poll_time.


End Loop.

(** Waiting for a job ends. Whatever the compactor does, as long as a sleep
    lasts as long as it was asked to, the wait ends within the number of polls
    given to it: the job has left the manifest, a request failed, or the hour is
    over. *)
Theorem wait_ends {C : Type} `{!Compactor C} (sk : bytes) (start : Z) (l0 sr : list Z) (c : C)
  (Hsleep : forall d c, clock c + d <= clock (sleep d c))
  (Hread : forall c, clock c <= clock (fst (read_segments sk c))) (Hstart : start <= clock c) :
  snd (wait_loop sk POLLS start l0 sr c) <> Err OutOfFuel.
Proof.
  enough (forall fuel c, TIMEOUT < clock c - start + Z.of_nat fuel * POLL -> (1 <= fuel)%nat ->
    snd (wait_loop sk fuel start l0 sr c) <> Err OutOfFuel) as H.
  { apply H; unfold POLLS, POLL, TIMEOUT, Guard.SECOND; lia. }
  clear c Hstart. induction fuel as [|fuel IH]; intros c Ht Hf; [lia|]. cbn [wait_loop]. unfold se_bind, se_modify, io.
  pose proof (Hsleep POLL c) as H1. pose proof (Hread (sleep POLL c)) as H2.
  destruct (read_segments sk (sleep POLL c)) as [c1 [segs|e]]; cbn [fst snd map_err] in *; [|done].
  destruct (negb _); [done|]. cbn [se_get]. destruct (Z.ltb_spec TIMEOUT (clock c1 - start)); [done|].
  apply IH; unfold POLL, Guard.SECOND in *; lia.
Qed.

(** ** The command *)

(** The writer of the database: [flush_with_options(MemTable)] and
    [refresh_manifest]. *)
Class WriterDb (Db : Type) := {
  flush_memtable : SE Db SlateError unit;
  refresh_manifest : SE Db SlateError unit
}.

Section Command.
Import Meta ObjectStore Activation.
Context {OS Db : Type} `{!ObjectStore OS} `{!SlateDb Db} `{!OpenDb OS Db} `{!WriterDb Db} `{!Compactor OS} {SC : StoreCodecs}.
Context {HF SF : Type} `{!Bloom bytes HF} `{!Bloom Z SF}.
Context {HT : HumanTime} {TM : Toml} {B64 : Base64} (sha256 : bytes -> bytes).
Abbreviation Storage := (SlateStorage (OS := OS) (Db := Db) (HF := HF) (SF := SF)).
Abbreviation FS := (Store.FolderStore Db HF SF).

Inductive CompactError := StorageFailed (f : Failure) | LoopFailed (s : Stop).
Abbreviation CM := (SE Storage CompactError).

Definition on_storage {A : Type} (m : SE Storage Failure A) : CM A := fun s =>
  let '(s', r) := m s in (s', map_err StorageFailed r).

(** A call on the writer of a store. *)
Definition on_writer {A : Type} (msg : string) (m : SE Db SlateError A) : SE FS StorageError.t A := fun st =>
  let '(d, r) := m (Store.db st) in
  (Store.mkStore d (Store.gc st) (Store.blockseq st), map_err (fun _ => StorageError.TransientIo msg) r).

(** [Activated::compact] behind [SlateStorage::compact]; [fuel] bounds the jobs. *)
Definition compact (fuel : nat) (id : bytes) : CM unit :=
  do! (sk, _) <- on_storage (resolve_folder id);
  run! on_storage (on_store sha256 sk (on_writer "flush before compaction" flush_memtable));
  do! s <- se_get;
  run! (fun s => let '(o, r) := compact_loop sk fuel (clock (object_store s)) (object_store s) in
                 (set_os s o, map_err LoopFailed r));
  on_storage (on_store sha256 sk (on_writer "refresh manifest" refresh_manifest)).

(** [fsck_compact]. *)
Fixpoint compact_all (fuel : nat) (folders : list (bytes * bytes * bytes)) : CM unit :=
  match folders with
  | [] => se_ret tt
  | (id, _, _) :: rest => run! compact fuel id; compact_all fuel rest
  end.

Definition fsck_compact (fuel : nat) : CM unit :=
  do! folders <- on_storage list_folders;
  compact_all fuel folders.

End Command.

(** ** Example *)

(** A compactor in memory that needs two polls for a job. *)
Record ToyCompactor := mkToy { toy_segs : list Segment; toy_job : option (CompactionSpec * nat); toy_clock : Z }.

#[export] Instance ToyCompactor_Compactor : Compactor ToyCompactor := {
  read_segments _ c := (c, Ok (toy_segs c));
  submit_compaction _ sp c := (mkToy (toy_segs c) (Some (sp, 2%nat)) (toy_clock c), Ok tt);
  clock := toy_clock;
  sleep d c :=
    match toy_job c with
    | Some (sp, S (S n)) => mkToy (toy_segs c) (Some (sp, S n)) (toy_clock c + d)
    | Some (sp, _) => mkToy (commit sp (toy_segs c)) None (toy_clock c + d)
    | None => mkToy (toy_segs c) None (toy_clock c + d)
    end;
  manifest c _ := toy_segs c;
  current_job c _ := toy_job c
}.

#[export] Instance ToyCompactor_laws : CompactorLaws (C := ToyCompactor) [] 2 0.
Proof.
  split; cbn.
  - intros c. split_and!; try done; lia.
  - intros c sp _ _. split_and!; try done; try lia. by exists 2%nat; split; [|lia].
  - intros c d sp n Hj. rewrite Hj. destruct n as [|[|n]]; cbn; (split; [lia|done]).
Qed.

Definition two_segments : ToyCompactor :=
  mkToy [mkSegment [1] [7; 6] []; mkSegment [2] [] [4; 3]; mkSegment [3] [] [9]] None 0.

Lemma two_segments_wf : wf (toy_segs two_segments).
Proof.
  split; [by apply (bool_decide_unpack _); vm_compute..| |by vm_compute].
  intros id Hid. assert (id = 4 \/ id = 3 \/ id = 9) as H by (cbn in Hid; set_solver).
  assert (todo (toy_segs two_segments) = 2%nat) as -> by by vm_compute. unfold U32_MAX. lia.
Qed.


Lemma wait_ends_witness : snd (wait_loop [] POLLS 0 [9] [] two_segments) <> Err OutOfFuel.
Proof.
  apply (wait_ends (C := ToyCompactor) [] 0 [9] [] two_segments); [|cbn; lia|cbn; lia].
  intros d c. cbn. destruct (toy_job c) as [[sp [|[|n]]]|]; cbn; lia.
Defined.


End Compact.
