(* ===== verification/Admin.v ===== *)
(** The administration commands of bepository-cli (main.rs): the lock around a
    command, the session it opens, and the bodies of the commands.

    The lock and the storage use different objects of one store (the directory
    [_lock] and the rest), so a command works on a pair of views: [lock_store]
    answers the requests of the lock, [storage] those of the repository. What
    the program prints is left out. *)

From Stdlib Require Import ZArith Lia.
From stdpp Require Import base gmap list sorting strings.
From S2P Require Import Prelude BepTypes Base32 Codec Conflict DeviceId EnvFile Kv GcState Store StoreTape ReadOnly Fsck Folder.
From S2P Require Import Credentials Meta ObjectStore Activation ActivationSafety MetaTape Registry Takeover Checkpoints.
From S2P Require Import Lock LockRun LockSafety LockMem LockExclusion LockLive StorageUri Tls Compact.

Local Open Scope Z_scope.
Local Open Scope bep_scope.

Module Admin.
Import Base32 Kv Store Meta ObjectStore Activation Checkpoints Compact.

(** ** Errors *)

(** [anyhow::Error]: the cause and the fixed part of the message. *)
Inductive AdminError :=
| InstanceFailed
| AnotherInstance
| OpenFailed (e : StorageUri.Error)
| AcquireFailed (e : Lock.Error)
| NotAcquired
| ReleaseFailed (e : Lock.Error)
| LockFailed (e : Lock.Error)
| TooNew (found supported : Z)
| StorageFailed (f : Failure)
| CompactFailed (e : CompactError)
| GenerateFailed (e : Tls.TlsError)
| NoIdentity
| NotRegistered (folder : bytes)
| CheckFailed (f : Failure)
| CorruptionFound
| TooShort (d : Z)
| NoStorageUri
| NoMasterDevice
| NoPassword.

(** A failure that is the panic of the task, not an error value. *)
Definition is_panic (e : AdminError) : bool :=
  match e with
  | StorageFailed Panicked | CheckFailed Panicked | CompactFailed (Compact.StorageFailed Panicked) => true
  | _ => false
  end.

Definition into_activation_error (f : Failure) : AdminError :=
  match f with
  | Failed (StorageError.UnsupportedVersion found supported) => TooNew found supported
  | f => StorageFailed f
  end.

Section Admin.
Context {OS Db : Type} `{!ObjectStore OS} `{!SlateDb Db} `{!OpenDb OS Db} `{!CheckpointDb OS Db}.
Context `{!WriterDb Db} `{!Compactor OS} {SC : StoreCodecs}.
Context {HF SF : Type} `{!Bloom bytes HF} `{!Bloom Z SF}.
Context {HT : HumanTime} {TM : Toml} {B64 : Base64} (sha256 : bytes -> bytes).
Abbreviation Storage := (SlateStorage (OS := OS) (Db := Db) (HF := HF) (SF := SF)).
Abbreviation AM := (SE Storage AdminError).

Definition on_storage {A : Type} (m : SE Storage Failure A) : AM A := fun s =>
  let '(s', r) := m s in (s', map_err StorageFailed r).

(** ** The bodies of the commands *)

(** Printing a device id. *)
Definition id_text (i : Identity) : AM bytes :=
  se_lift (ok_or (ok (DeviceId.fmt (device_id i))) (StorageFailed Panicked)).

Definition require_identity (locked : bool) : AM Identity :=
  do! i <- on_storage (if locked then get_identity sha256 else get_identity_unlocked sha256);
  se_lift (ok_or i NoIdentity).

Definition store_identity (i : Identity) : AM unit :=
  on_storage (put_identity (id_cert i) (id_key i)).

(** [run_init]; [generated] is the result of [Identity::generate]. *)
Definition run_init (generated : result Tls.TlsError Identity) : AM bytes :=
  do! found <- on_storage (get_identity sha256);
  do! identity <- match found with
                  | Some i => se_ret i
                  | None =>
                      do! i <- se_lift (map_err GenerateFailed generated);
                      run! store_identity i;
                      se_ret i
                  end;
  run! on_storage set_default_checkpoints;
  id_text identity.

Definition run_get_id : AM bytes :=
  do! i <- require_identity false; id_text i.

Definition fsck_regenerate_id (generated : result Tls.TlsError Identity) : AM bytes :=
  do! i <- se_lift (map_err GenerateFailed generated);
  run! store_identity i;
  id_text i.

(** The loop of [fsck_check] over the items of the stream. *)
Fixpoint check_items (items : list (result Failure FsckEvent)) (all_passed : bool) : result AdminError unit :=
  match items with
  | [] => if all_passed then Ok tt else Err CorruptionFound
  | Ok (FolderStarted _) :: items' => check_items items' all_passed
  | Ok (FolderError _ _) :: items' => check_items items' all_passed
  | Ok (FolderFinished _ errors_found) :: items' =>
      check_items items' (if Nat.eqb errors_found 0 then all_passed else false)
  | Err e :: _ => Err (CheckFailed e)
  end.

Definition fsck_check (level : Fsck.FsckLevel) : AM unit := fun s =>
  let '(s', items) := check_integrity sha256 level s in (s', check_items items true).

(** [fsck_compact]; [jobs] bounds the compactions of a folder. *)
Definition admin_compact (jobs : nat) : AM unit := fun s =>
  let '(s', r) := fsck_compact sha256 jobs s in (s', map_err CompactFailed r).

(** The closure of [cmd_fsck]. *)
Definition fsck_body (generated : result Tls.TlsError Identity) (jobs : nat)
  (check : option Fsck.FsckLevel) (regenerate_id compact : bool) : AM unit :=
  run! (if regenerate_id then run! fsck_regenerate_id generated; se_ret tt else se_ret tt);
  run! match check with Some level => fsck_check level | None => se_ret tt end;
  if compact then admin_compact jobs else se_ret tt.

(** The closure of [cmd_remove_folder]. *)
Definition remove_folder_body (folder : bytes) : AM unit :=
  do! folders <- on_storage list_folders;
  if negb (existsb (fun f => bool_decide (fst (fst f) = folder)) folders) then se_err (NotRegistered folder)
  else on_storage (remove_folder folder).

(** The closures of [checkpoint_set_ttl] and [checkpoint_remove]. *)
Definition set_ttl_body (interval ttl : Z) : AM unit :=
  run! on_storage (update_checkpoint_schedule interval (Some (mkSchedule ttl)));
  on_storage (refresh_checkpoints interval ttl).

Definition remove_schedule_body (interval : Z) : AM unit :=
  on_storage (update_checkpoint_schedule interval None).

(** ** The lock around a command *)

(** The session of [with_admin_lock]: activate, run, close. A panic leaves it at
    once. *)
Definition admin_session {A : Type} (e : Epoch) (f : AM A) : AM A := fun s =>
  match activate e s with
  | (s1, Err er) => (s1, Err (into_activation_error er))
  | (s1, Ok _) =>
      match f s1 with
      | (s2, r) =>
          if match r with Err er => is_panic er | Ok _ => false end then (s2, r)
          else
            match close s2 with
            | (s3, Err er) => (s3, Err (StorageFailed er))
            | (s3, Ok _) => (s3, r)
            end
      end
  end.

Context {Path St : Type} `{Countable Path} `{OP : Lock.ObjectPath Path} {ST : LockRun.Store Path St}.
Context {CH : Lock.Chrono} {SE0 : Lock.SerdeEpoch}.

Record World := mkWorld { lock_store : St; storage : Storage }.

(** [with_admin_lock]; [fuel] bounds the attempts to create an epoch file, and
    [during] is what the other processes do to the lock directory while the
    session runs. *)
Definition with_admin_lock {A : Type} (fuel : nat) (l : Lock.Lock Path) (during : St -> St) (f : AM A) (w : World) :
  World * Lock.outcome (result AdminError A) :=
  match Lock.run LockRun.handle (Lock.acquire fuel l) (lock_store w) with
  | (s1, Lock.Done (Ok (Lock.Owner e))) =>
      let '(st, r) := admin_session e f (storage w) in
      if match r with Err er => is_panic er | Ok _ => false end
      then (mkWorld (during s1) st, Lock.Panicked)
      else
        match Lock.run LockRun.handle (Lock.release l) (during s1) with
        | (s2, Lock.Done (Ok _)) => (mkWorld s2 st, Lock.Done r)
        | (s2, Lock.Done (Err er)) => (mkWorld s2 st, Lock.Done (Err (ReleaseFailed er)))
        | (s2, Lock.Panicked) => (mkWorld s2 st, Lock.Panicked)
        | (s2, Lock.Exhausted) => (mkWorld s2 st, Lock.Exhausted)
        end
  | (s1, Lock.Done (Ok _)) => (mkWorld s1 (storage w), Lock.Done (Err NotAcquired))
  | (s1, Lock.Done (Err er)) => (mkWorld s1 (storage w), Lock.Done (Err (AcquireFailed er)))
  | (s1, Lock.Panicked) => (mkWorld s1 (storage w), Lock.Panicked)
  | (s1, Lock.Exhausted) => (mkWorld s1 (storage w), Lock.Exhausted)
  end.

(** ** The commands *)

(** A command over the two views. *)
Abbreviation CMD A := (World -> World * Lock.outcome (result AdminError A)).

Definition cmd_bind {A B : Type} (m : CMD A) (k : A -> CMD B) : CMD B := fun w =>
  match m w with
  | (w', Lock.Done (Ok a)) => k a w'
  | (w', Lock.Done (Err e)) => (w', Lock.Done (Err e))
  | (w', Lock.Panicked) => (w', Lock.Panicked)
  | (w', Lock.Exhausted) => (w', Lock.Exhausted)
  end.

Definition cmd_storage {A : Type} (m : AM A) : CMD A := fun w =>
  let '(st, r) := m (storage w) in
  (mkWorld (lock_store w) st,
   if match r with Err er => is_panic er | Ok _ => false end then Lock.Panicked else Lock.Done r).

Definition cmd_lock {A : Type} (p : Lock.prog Path (result Lock.Error A)) : CMD A := fun w =>
  let '(s, o) := Lock.run LockRun.handle p (lock_store w) in
  (mkWorld s (storage w),
   match o with
   | Lock.Done r => Lock.Done (map_err LockFailed r)
   | Lock.Panicked => Lock.Panicked
   | Lock.Exhausted => Lock.Exhausted
   end).

(** The status that [report_lock_status] prints: the owner, and when its lease
    ended or how many seconds are left. *)
Inductive LockStatus :=
| Unlocked
| Stale (owner : Lock.EpochEntry Path) (expired : Z)
| Active (owner : Lock.EpochEntry Path) (remaining : Z).

Definition report_lock_status (l : Lock.Lock Path) : Lock.prog Path (result Lock.Error LockStatus) :=
  Lock.ptry (Lock.current_owner l) (fun owner =>
  match owner with
  | None => Lock.Ret (Ok Unlocked)
  | Some entry =>
      Lock.pbind (Lock.perform Lock.NOW) (fun now =>
      Lock.or_panic (Lock.expires_at entry) (fun expiry =>
      Lock.Ret (Ok (if expiry <=? now then Stale entry expiry
                    else Active entry (Z.quot (expiry - now) SECOND)))))
  end).

Definition clear_lock (fuel : nat) (l : Lock.Lock Path) : CMD unit := cmd_lock (Lock.unsafe_break_locks fuel l).

(** [acquire_single_instance]; the library says whether the name could be taken
    and whether this is the only instance. *)
Definition acquire_single_instance (instance : option bool) : result AdminError unit :=
  match instance with
  | None => Err InstanceFailed
  | Some false => Err AnotherInstance
  | Some true => Ok tt
  end.

Context {U W : Type} `{!Credentials.Url U} `{!StorageUri.UrlParts U} `{!StorageUri.Backends U (St * OS) W}.
Context (to_lowercase : bytes -> bytes) (LOCK_PATH : Path).

(** The arguments and the surroundings of a command. *)
Record Env := mkEnv {
  storage_uri : bytes;
  cache : StorageUri.CacheArgs;
  vars : StorageUri.opts;
  project_dir : option bytes;
  holder : bytes;
  instance : option bool;
  generated : result Tls.TlsError Identity;
  attempts : nat;
  during : St -> St
}.

Definition open_storage (env : Env) (create : bool) : SE W StorageUri.Error World :=
  do! (ls, os) <- StorageUri.parse_storage_uri to_lowercase (storage_uri env) create (vars env);
  se_ret (mkWorld ls (new os (Some (StorageUri.cache_dir_for (cache env) (vars env) (project_dir env))))).

Abbreviation Result A := (W * option World * Lock.outcome (result AdminError A))%type.

(** A command that opens the storage, alone on this machine if it says so. *)
Definition opening {A : Type} (env : Env) (alone create : bool) (body : CMD A) (fs : W) : Result A :=
  match (if alone then acquire_single_instance (instance env) else Ok tt) with
  | Err e => (fs, None, Lock.Done (Err e))
  | Ok _ =>
      match open_storage env create fs with
      | (fs', Err e) => (fs', None, Lock.Done (Err (OpenFailed e)))
      | (fs', Ok w) => let '(w', o) := body w in (fs', Some w', o)
      end
  end.

(** The lock of an administration command. *)
Definition admin_lock (env : Env) (lease_secs : Z) : Lock.Lock Path :=
  Lock.new LOCK_PATH (holder env) 0 lease_secs.
Definition locked {A : Type} (env : Env) (lease_secs : Z) (f : AM A) : CMD A :=
  with_admin_lock (attempts env) (admin_lock env lease_secs) (during env) f.

Definition cmd_init (env : Env) : W -> Result bytes :=
  opening env true true (locked env 60 (run_init (generated env))).

Definition cmd_remove_folder (env : Env) (folder : bytes) : W -> Result unit :=
  opening env true false (locked env 60 (remove_folder_body folder)).

(** The rows that [cmd_list_folders] prints. *)
Definition cmd_list_folders (env : Env) : W -> Result (list (bytes * bytes * bytes)) :=
  opening env false false (cmd_storage (
    do! folders <- on_storage list_folders_unlocked;
    run! on_storage close;
    se_ret folders)).

Definition cmd_get_id (env : Env) : W -> Result bytes :=
  opening env false false (cmd_storage (
    do! id <- run_get_id;
    run! on_storage close;
    se_ret id)).

(** [cmd_fsck]; the status is what it prints first. *)
Definition cmd_fsck (env : Env) (jobs : nat) (check : option Fsck.FsckLevel)
  (regenerate_id clear_lock_flag compact : bool) : W -> Result LockStatus :=
  opening env true false (
    let needs_lock := compact || regenerate_id || match check with Some _ => true | None => false end in
    let l := admin_lock env 300 in
    cmd_bind (cmd_lock (report_lock_status l)) (fun status =>
    cmd_bind (if clear_lock_flag then clear_lock (attempts env) l else fun w => (w, Lock.Done (Ok tt))) (fun _ =>
    cmd_bind (if needs_lock then locked env 300 (fsck_body (generated env) jobs check regenerate_id compact)
              else cmd_storage (on_storage close)) (fun _ =>
    fun w => (w, Lock.Done (Ok status)))))).

Definition checkpoint_set_ttl (env : Env) (interval value : Z) : W -> Result unit := fun fs =>
  match validate_checkpoint_duration interval with
  | None => (fs, None, Lock.Done (Err (TooShort interval)))
  | Some interval_dur =>
      match validate_checkpoint_duration value with
      | None => (fs, None, Lock.Done (Err (TooShort value)))
      | Some ttl => opening env true false (locked env 60 (set_ttl_body interval_dur ttl)) fs
      end
  end.

Definition checkpoint_remove (env : Env) (interval : Z) : W -> Result unit := fun fs =>
  match validate_checkpoint_duration interval with
  | None => (fs, None, Lock.Done (Err (TooShort interval)))
  | Some interval_dur => opening env true false (locked env 60 (remove_schedule_body interval_dur)) fs
  end.

(** What [checkpoint_list] prints: the schedules and, of every folder that has
    any, the checkpoints. *)
Definition checkpoint_list (env : Env) : W -> Result (list (Z * CheckpointSchedule) * list (bytes * list Checkpoint)) :=
  opening env false false (cmd_storage (
    do! (schedules, folder_checkpoints) <- on_storage list_checkpoints_unlocked;
    se_ret (iter_durations schedules,
            List.filter (fun x => match snd x with [] => false | _ => true end)
              (map (fun x => (fst x, snd (snd x))) folder_checkpoints)))).

End Admin.

(** ** The lock around a command *)

Section Locked.
Import LockRun LockExclusion LockLive.
Context {OS Db : Type} `{!ObjectStore OS} `{!SlateDb Db} `{!OpenDb OS Db} {SC : StoreCodecs}.
Context {HF SF : Type} `{!Bloom bytes HF} `{!Bloom Z SF}.
Context {HT : HumanTime} {TM : Toml} {B64 : Base64}.
Context {Path St : Type} `{Countable Path} `{OP : Lock.ObjectPath Path} {ST : LockRun.Store Path St}
  `{!ObjectPathLaws Path} `{!StoreLaws Path St} {CH : Lock.Chrono} {SE0 : Lock.SerdeEpoch} `{!SerdeEpochLaws}.
Abbreviation Storage := (SlateStorage (OS := OS) (Db := Db) (HF := HF) (SF := SF)).
Abbreviation AM := (SE Storage AdminError).
Abbreviation TheWorld := (World (OS := OS) (Db := Db) (HF := HF) (SF := SF) (St := St)).

Definition panics {A : Type} (r : result AdminError A) : bool :=
  match r with Err er => is_panic er | Ok _ => false end.

(** The caller's files are gone and nothing else has changed. *)
Definition own_removed (l : Lock.Lock Path) (m m' : gmap Path (bytes * Z)) : Prop :=
  forall p, (own_at l m p -> m' !! p = None) /\ (~ own_at l m p -> m' !! p = m !! p).

Lemma release_removes (l : Lock.Lock Path) (s : St) :
  healthy -> readable l (objects s) ->
  exists s', Lock.run handle (Lock.release l) s = (s', Lock.Done (Ok tt)) /\ own_removed l (objects s) (objects s').
Proof.
  intros Hh Hread. pose proof (release_reads l s Hh Hread) as Hok.
  destruct (Lock.run handle (Lock.release l) s) as [s' o] eqn:Hrun. cbn in Hok. subst o. exists s'. split; [done|].
  assert (wpp (Lock.release l) (fun s' o => released l (objects s) (objects s') /\
    (o = Lock.Done (Ok tt) -> forall p, own_at l (objects s) p -> objects s' !! p = None)) s) as Hwp
    by (apply wpp_release; auto).
  destruct (wpp_run _ _ _ _ _ Hwp Hrun) as [Hrel Hgone]. intros p. split; [by apply Hgone|].
  intros Hno. by destruct (Hrel p) as [|[_ ?]].
Qed.

(** After a command that was alone, no epoch file is left. *)
Lemma alone_leaves_none (l : Lock.Lock Path) m m1 m2 e ts :
  sole_owner l m m1 e ts -> own_removed l m1 m2 -> forall mt e', ~ epoch_meta l m2 mt e'.
Proof.
  intros Hs Hrm mt e' (Hp & He & b & Hb). destruct (Hrm (Lock.location mt)) as [Hown Hother].
  assert (~ own_at l m1 (Lock.location mt)) as Hno by (intros Ho; by rewrite Hown in Hb).
  rewrite (Hother Hno) in Hb. apply Hno.
  assert (epoch_meta l m1 mt e') as Hmt by (split; [done|]; split; [done|]; by exists b).
  pose proof (sole_epoch_file _ _ _ _ _ _ _ Hs Hmt) as Hloc. destruct Hs as [(b0 & Hb0 & Hfile) _].
  exists (Lock.mkEntry mt (Lock.own_file l) e'). split; [|by split; [|intros []]].
  split; [done|]. split; [done|]. exists b. split; [done|]. cbn.
  rewrite Hloc, Hfile in Hb. injection Hb as <- _. by apply from_slice_to_vec.
Qed.


End Locked.

(** ** The identity of a repository *)

Section Identity.
Import ActivationSafety Takeover.
Context {OS Db : Type} `{!ObjectStore OS} `{!ObjectStoreLaws OS} `{!SlateDb Db} `{!OpenDb OS Db} {SC : StoreCodecs}.
Context {HF SF : Type} `{!Bloom bytes HF} `{!Bloom Z SF}.
Context {HT : HumanTime} {HTL : HumanTimeLaws} {TM : Toml} {TML : TomlLaws} {B64 : Base64} {B64L : Base64Laws}.
Context (sha256 : bytes -> bytes).
Abbreviation Storage := (SlateStorage (OS := OS) (Db := Db) (HF := HF) (SF := SF)).
Abbreviation Act := (Activated (Db := Db) (HF := HF) (SF := SF)).
Abbreviation AM := (SE Storage AdminError).

(** The session [a] has written what it holds under its own epoch. *)
Record synced (o : OS) (a : Act) : Prop := mkSynced {
  synced_epoch : good_epoch (epoch a);
  synced_only : only o (epoch a);
  synced_meta : meta_ok (st_meta (state a));
  synced_names : epoch_names o;
  synced_disk : holds_meta o (current_format (st_meta (state a)))
}.

(** A successful activation takes over the meta that is there. *)
Lemma wp_activate_synced (s : Storage) (e : Epoch) (n : Z) :
  disk_ok (object_store s) n -> act s = None -> good_epoch e ->
  wp (activate e) (fun s' r => r = Ok tt -> exists a,
    act s' = Some a /\ synced (object_store s') a /\ holds_meta (object_store s) (st_meta (state a))) s.
Proof.
  intros Hd Hact He. unfold activate. apply wp_bind.
  eapply wp_mono; [|by apply wp_activate_write; [by apply (disk_names _ n)|]].
  intros s1 r [(o & -> & _ & Hr & _)|(m & o & -> & Hm & _ & Hw)]; [by destruct r|].
  destruct (disk_ok_read _ _ m Hd Hm) as [_ Hok]. fold (current_format m) in Hw.
  destruct r as [[]|er]; [|done]. destruct (print_meta (current_format m)) as [b|] eqn:Hp; [|by destruct Hw].
  destruct Hw as [[Ho|[_ ?]] _]; [|done].
  eapply wp_mono; [|by eapply wp_clean_meta]. cbn [started set_os set_act object_store act epoch].
  intros s' r (o4 & -> & Hf & Hkeep & Hgone & _) ->. specialize (Hgone eq_refl).
  eexists. split; [done|]. cbn [started set_os set_act object_store act state epoch st_meta from_meta].
  assert (os_objects o4 !! meta_path e = Some b) as Hb by (rewrite Hkeep, Ho, lookup_insert_eq by (by left); done).
  assert (only o4 e) as Hon.
  { intros e' He' Hp'. apply meta_path_inj; [done|done|]. apply Hgone; [by apply meta_path_root|by apply meta_path_name|done]. }
  split; [|done]. destruct (printed_takes_over m b Hok Hp) as (_ & Hu & Hparse). split; cbn; [done|done|done| |].
  - intros l Hr Hn Hs. exists e. split; [done|]. by apply Hgone.
  - left. exists e, b. split; [|done]. apply only_newest; [done|by eexists|done].
Qed.

(** A successful change of the meta is on disk. *)
Lemma wp_modify_synced {A : Type} (f : Meta -> result Failure (Meta * A)) (s : Storage) (a : Act) :
  grows f -> act s = Some a -> synced (object_store s) a ->
  wp (modify_meta f) (fun s' r => forall x, r = Ok x -> exists m',
    f (st_meta (state a)) = Ok (m', x) /\ act s' = Some (set_state a (from_meta m')) /\
    synced (object_store s') (set_state a (from_meta m'))) s.
Proof.
  intros Hf Hact [He Hon Hok Hnames Hdisk]. unfold modify_meta. apply wp_bind, wp_activated; [|congruence].
  rewrite Hact. intros ? [= <-]. apply wp_bind, wp_lift. destruct (f (st_meta (state a))) as [[m' x]|] eqn:Ef; [|done].
  destruct (Hf _ _ _ Hok Ef) as [Hok' _]. apply wp_bind. unfold write_meta_to_disk. fold (current_format m').
  destruct (print_meta (current_format m')) as [b|] eqn:Hp; [|by apply wp_err].
  unfold wp at 1, on_os. pose proof (put_law (meta_path (epoch a)) b (object_store s)) as Hput.
  destruct (os_put _ b (object_store s)) as [o r]. destruct Hput as [Hput _]. cbn [fst snd].
  destruct r as [[]|er]; cbn [map_err]; [|done]. destruct Hput as [Ho|[_ ?]]; [|done].
  apply wp_bind, wp_modify, wp_ret. cbn [set_os set_act act object_store]. rewrite Hact. intros y [= <-].
  exists m'. split; [done|]. split; [done|].
  assert (only o (epoch a)) as Hon'.
  { intros e' He' [b' Hb']. rewrite Ho in Hb'. apply lookup_insert_Some in Hb' as [[E _]|[_ Hb']];
      [by apply meta_path_inj in E|]. apply Hon; [done|by eexists]. }
  split; cbn; [done|done|done|by eapply names_put|].
  eapply written_holds; [done| |by apply Hok'|done|by rewrite Ho, lookup_insert_eq|by right].
  intros e' He' Hp'. rewrite (Hon e' He' Hp'). lia.
Qed.

(** The device id that the meta [m] gives, as it is printed. *)
Definition names_device (m : Meta) (id : bytes) : Prop :=
  exists i, extract_identity sha256 m = Ok (Some i) /\ DeviceId.fmt (device_id i) = Ok id.

Lemma names_device_unique (m : Meta) (id1 id2 : bytes) : names_device m id1 -> names_device m id2 -> id1 = id2.
Proof. intros (i & Hi & H1) (j & Hj & H2). congruence. Qed.

Definition with_defaults (m : Meta) : Meta :=
  if bool_decide (checkpoint m = ∅) then set_checkpoint m default_checkpoints else m.

Lemma with_defaults_schedules (m : Meta) : checkpoint (with_defaults m) <> ∅.
Proof. unfold with_defaults. case_bool_decide; [|done]. cbn. by apply insert_non_empty. Qed.

Lemma names_defaults (m : Meta) (id : bytes) : names_device (with_defaults m) id <-> names_device m id.
Proof. unfold names_device, with_defaults. by case_bool_decide. Qed.

(** [Identity::generate] names the device after its certificate. *)
Definition well_generated (g : result Tls.TlsError Identity) : Prop :=
  forall i, g = Ok i -> i = identity_from_der sha256 (id_cert i) (id_key i).

Lemma generate_well `{Tls.Rustls Tcp Stream} : well_generated (Tls.generate sha256).
Proof.
  unfold Tls.generate. intros i. destruct (Tls.generate_self_signed _) as [[cert key]|]; [|done]. by intros [= <-].
Qed.

Lemma wp_admin {A : Type} (m : SE Storage Failure A) (Q : Storage -> result AdminError A -> Prop) s :
  wp m (fun s' r => Q s' (map_err StorageFailed r)) s -> wp (on_storage m) Q s.
Proof. unfold wp, on_storage. by destruct (m s). Qed.

(** What [run_init] leaves: the identity that was there, or the new one, and at
    least one schedule. *)
Lemma wp_run_init (g : result Tls.TlsError Identity) (s : Storage) (a : Act) :
  well_generated g -> act s = Some a -> synced (object_store s) a ->
  wp (run_init sha256 g) (fun s' r => forall id, r = Ok id -> exists a' m,
    act s' = Some a' /\ synced (object_store s') a' /\ st_meta (state a') = with_defaults m /\ names_device m id /\
    (identity (st_meta (state a)) <> None -> m = st_meta (state a))) s.
Proof.
  intros Hg Hact Hs. unfold run_init. apply wp_bind, wp_admin. unfold get_identity.
  apply wp_bind, wp_activated; [|congruence]. rewrite Hact. intros ? [= <-]. unfold lift. apply wp_lift.
  assert (forall i s1 a1, act s1 = Some a1 -> synced (object_store s1) a1 ->
    extract_identity sha256 (st_meta (state a1)) = Ok (Some i) ->
    wp (run! on_storage set_default_checkpoints; id_text i) (fun s' r => forall id, r = Ok id -> exists a',
      act s' = Some a' /\ synced (object_store s') a' /\
      st_meta (state a') = with_defaults (st_meta (state a1)) /\ names_device (st_meta (state a1)) id) s1) as Hrest.
  { intros i s1 a1 Ha1 Hs1 Hi. apply wp_bind, wp_admin. unfold set_default_checkpoints.
    eapply wp_mono; [|by apply (wp_modify_synced _ _ a1); [apply default_checkpoints_grows|..]].
    intros s2 [[]|er] H2; [|done]. destruct (H2 tt eq_refl) as (m' & Hm' & Ha2 & Hs2). cbn [map_err].
    apply wp_lift. intros id Hid. exists (set_state a1 (from_meta m')). split; [done|]. split; [done|].
    injection Hm' as <-. split; [done|]. exists i. split; [done|].
    destruct (DeviceId.fmt (device_id i)); [by injection Hid as ->|done]. }
  destruct (extract_identity sha256 (st_meta (state a))) as [[i|]|er] eqn:Ei; cbn [map_err]; [| |done].
  - apply wp_bind, wp_ret. eapply wp_mono; [|by eapply Hrest]. cbn. intros s' r Hr id Hid.
    destruct (Hr id Hid) as (a' & ? & ? & ? & ?). by exists a', (st_meta (state a)).
  - apply wp_bind, wp_bind, wp_lift. destruct g as [i|]; cbn [map_err]; [|done]. specialize (Hg i eq_refl).
    apply wp_bind. unfold store_identity, put_identity. apply wp_admin.
    eapply wp_mono; [|by apply (wp_modify_synced _ _ a); [apply identity_grows|..]].
    intros s1 [[]|er] H1; [|done]. destruct (H1 tt eq_refl) as (m' & Hm' & Ha1 & Hs1). cbn [map_err]. apply wp_ret.
    injection Hm' as <-. eapply wp_mono; [|eapply Hrest; [done|done|]].
    + cbn. intros s' r Hr id Hid. destruct (Hr id Hid) as (a' & ? & ? & ? & ?). eexists a', _. split_and!; [done..|].
      intros Hn. destruct Hn. unfold extract_identity in Ei.
      destruct (identity (st_meta (state a))) as [j|]; [|done].
      by destruct (cert_der_bytes j), (key_der_bytes j).
    + unfold extract_identity, cert_der_bytes, key_der_bytes. cbn. rewrite !base64_decode_encode. cbn. by rewrite <- Hg.
Qed.

(** A session that succeeds. *)
Lemma session_Ok {A : Type} (e : Epoch) (f : AM A) (s s' : Storage) (x : A) : admin_session e f s = (s', Ok x) ->
  exists s1 s2, activate e s = (s1, Ok tt) /\ f s1 = (s2, Ok x) /\ object_store s' = object_store s2.
Proof.
  unfold admin_session. destruct (activate e s) as [s1 [[]|er]]; [|done]. destruct (f s1) as [s2 r] eqn:Ef.
  destruct r as [y|er]; [|destruct (is_panic er); [done|]; by destruct (close s2) as [s3 [|]]].
  unfold close. destruct (act s2) as [a|].
  - destruct (omap _ _); [|done]. intros [= <- <-]. by exists s1, s2.
  - intros [= <- <-]. by exists s1, s2.
Qed.

Lemma wp_run_get_id (s : Storage) (m : Meta) (id : bytes) :
  epoch_names (object_store s) -> holds_meta (object_store s) m -> names_device m id -> os_healthy (object_store s) ->
  wp (run_get_id sha256) (fun _ r => r = Ok id) s.
Proof.
  intros Hn Hm (i & Hi & Hf) Hh. unfold run_get_id, require_identity. apply wp_bind, wp_bind, wp_admin.
  unfold get_identity_unlocked. apply wp_bind. eapply wp_mono; [|by apply wp_read_meta].
  intros s' r (o & _ & _ & _ & H). destruct (H Hh) as [_ Hr]. rewrite (Hr m Hm). unfold lift. apply wp_lift.
  rewrite Hi. cbn. apply wp_lift. cbn. unfold id_text. apply wp_lift. by rewrite Hf.
Qed.

(** What a session holds can be taken over. *)
Lemma synced_disk_ok (o : OS) (a : Act) : synced o a -> disk_ok o (next_folder_key (st_meta (state a))).
Proof.
  intros [He Hon Hok Hnames Hdisk]. destruct Hdisk as [(e & b & (He' & Hp & _) & Hb & Hu & Hparse)|[Hno Hm]].
  - split; [done| |intros m Hm; by apply (only_agree o (epoch a))|intros Hno; by destruct (Hno e)].
    intros e' b' He2 Hb'. assert (present o e') as Hp2 by by eexists.
    rewrite (Hon e' He2 Hp2), <- (Hon e He' Hp), Hb in Hb'. injection Hb' as <-. split; [done|].
    exists (current_format (st_meta (state a))). split; [done|]. split; [by destruct Hok|]. by split.
  - split; [done| |intros m Hm'; by apply (only_agree o (epoch a))|].
    + intros e' b' He2 Hb'. destruct (Hno e' He2). by eexists.
    + intros _. change (next_folder_key (current_format (st_meta (state a))) <= 0). by rewrite Hm.
Qed.

Lemma names_identity (m : Meta) (id : bytes) : names_device m id -> identity m <> None.
Proof. intros (i & Hi & _) Hn. unfold extract_identity in Hi. by rewrite Hn in Hi. Qed.

Lemma with_defaults_again (m : Meta) :
  current_format (with_defaults (current_format (with_defaults m))) = current_format (with_defaults m).
Proof.
  unfold with_defaults at 1. rewrite bool_decide_eq_false_2; [by destruct (with_defaults m)|].
  apply (with_defaults_schedules m).
Qed.

(** A process that runs [init] with success. *)
Lemma init_Ok (s s' : Storage) (n : Z) (e : Epoch) (g : result Tls.TlsError Identity) (id : bytes) :
  disk_ok (object_store s) n -> act s = None -> good_epoch e -> well_generated g ->
  admin_session e (run_init sha256 g) s = (s', Ok id) ->
  exists a m0 m, synced (object_store s') a /\ st_meta (state a) = with_defaults m /\ holds_meta (object_store s) m0 /\
    names_device m id /\ (identity m0 <> None -> m = m0).
Proof.
  intros Hd Hact He Hg (s1 & s2 & H1 & H2 & Ho)%session_Ok.
  pose proof (wp_activate_synced s e n Hd Hact He) as Hw. unfold wp in Hw. rewrite H1 in Hw.
  destruct (Hw eq_refl) as (a & Ha & Hs & Hm). cbn [fst] in *.
  pose proof (wp_run_init g s1 a Hg Ha Hs) as Hw2. unfold wp in Hw2. rewrite H2 in Hw2.
  destruct (Hw2 id eq_refl) as (a' & m & _ & Hs' & Em & Hid & Hsame). cbn [fst] in *.
  exists a', (st_meta (state a)), m. by rewrite Ho.
Qed.

(** C24: [init] gives a repository one identity. After an [init] that succeeded,
    on any repository and whatever the store answered on the way, [get-id] of a
    later process prints the id that [init] printed, and a second [init] under
    any epoch, even if its key generator would give another key, prints that id
    again and leaves the metadata as they were. *)
Theorem init_keeps_identity (s s1 : Storage) (n : Z) (e1 : Epoch) (g1 : result Tls.TlsError Identity) (id : bytes)
  (provider : option (bytes -> option bytes))
  (Hdisk : disk_ok (object_store s) n) (Hact : act s = None) (He : good_epoch e1) (Hg : well_generated g1)
  (Hinit : admin_session e1 (run_init sha256 g1) s = (s1, Ok id)) :
  let later := new (object_store s1) provider in
  exists m, holds_meta (object_store s1) m /\
  (os_healthy (object_store s1) -> snd (run_get_id sha256 (later : Storage)) = Ok id) /\
  (forall e2 g2 s2 id2, good_epoch e2 -> well_generated g2 ->
     admin_session e2 (run_init sha256 g2) (later : Storage) = (s2, Ok id2) ->
     id2 = id /\ holds_meta (object_store s2) m).
Proof.
  intros later. destruct (init_Ok _ _ _ _ _ _ Hdisk Hact He Hg Hinit) as (a & m0 & m & Hs & Em & Hm0 & Hid & _).
  pose proof Hs as [_ _ _ Hnames Hm]. rewrite Em in Hm. exists (current_format (with_defaults m)). split; [done|].
  apply (names_defaults m id) in Hid. assert (names_device (current_format (with_defaults m)) id) as Hid' by exact Hid.
  split.
  - intros Hh. change (wp (run_get_id sha256) (fun _ r => r = Ok id) later). by eapply wp_run_get_id.
  - intros e2 g2 s2 id2 He2 Hg2 H2. pose proof (synced_disk_ok _ _ Hs) as Hd.
    destruct (init_Ok later _ _ _ _ _ Hd eq_refl He2 Hg2 H2) as (a2 & m2 & m2' & Hs2 & Em2 & Hm2 & Hid2 & Hsame).
    pose proof (holds_meta_unique _ _ _ Hm Hm2) as E. rewrite <- E in Hsame. 
    rewrite Hsame in Hid2, Em2 by by eapply names_identity.
    split; [by eapply names_device_unique|]. pose proof (synced_disk _ _ Hs2) as Hfin.
    rewrite Em2 in Hfin. by rewrite with_defaults_again in Hfin.
Qed.

End Identity.

(** ** Examples *)

Import MetaTape Registry LockMem.
#[local] Existing Instance StoreTape.codecs.

Abbreviation MemWorld := (World (OS := MemStore) (Db := MapDb) (HF := StoreTape.HFilter) (SF := StoreTape.SFilter) (St := LockMem.mem)).

(** A new repository, and an administration command of the machine m. *)
Definition fresh_world : MemWorld := mkWorld LockMem.empty_store (new blank_store None).
Definition admin : Lock.Lock LockMem.path := Lock.new LockMem.dir (lit "m") 0 60.
Definition first_key : result Tls.TlsError Identity := Ok (identity_from_der toy_sha (repeat 7 32) (lit "key")).
Definition other_key : result Tls.TlsError Identity := Ok (identity_from_der toy_sha (repeat 9 32) (lit "other")).
Definition first_id : bytes := default [] (ok (DeviceId.fmt (repeat 7 32))).
Definition init_alone : MemWorld * Lock.outcome (result AdminError bytes) :=
  with_admin_lock 1 admin (fun s => s) (run_init toy_sha first_key) fresh_world.


Definition initialised : MemStorage := fst (admin_session epoch1 (run_init toy_sha first_key) (new blank_store None)).

Lemma init_keeps_identity_witness :
  snd (run_get_id toy_sha (new (object_store initialised) None : MemStorage)) = Ok first_id /\
  exists s2 m, admin_session epoch0 (run_init toy_sha other_key) (new (object_store initialised) None : MemStorage) = (s2, Ok first_id) /\
    ActivationSafety.holds_meta (object_store initialised) m /\ ActivationSafety.holds_meta (object_store s2) m.
Proof.
  assert (exists n, ActivationSafety.disk_ok blank_store n) as [n Hd].
  { assert (ActivationSafety.Inv (new blank_store None : MemStorage)) as (n & Hd & _)
      by apply ActivationSafety.blank_Inv, blank_store_blank. by exists n. }
  assert (forall b k, well_generated toy_sha (Ok (identity_from_der toy_sha b k))) as Hg by by intros b k i [= <-].
  destruct (init_keeps_identity toy_sha (new blank_store None : MemStorage) initialised n epoch1 first_key first_id None)
    as (m & Hm & Hget & Hagain).
  - done.
  - done.
  - apply good_epoch1.
  - apply Hg.
  - unfold initialised. rewrite (surjective_pairing (admin_session _ _ _)) at 1. f_equal.
  - split; [apply Hget; vm_compute; reflexivity|].
    assert (snd (admin_session epoch0 (run_init toy_sha other_key) (new (object_store initialised) None : MemStorage)) = Ok first_id) as Er
      by (vm_compute; reflexivity).
    destruct (admin_session _ _ _) as [s2 r] eqn:E. cbn [snd] in Er. subst r.
    destruct (Hagain epoch0 other_key s2 first_id) as [_ Hm2]; [apply good_epoch0|apply Hg|exact E|].
    exists s2, m. exact (conj eq_refl (conj Hm Hm2)).
Defined.

(** *** The lease of a command *)

(** What bob does to the lock directory a minute later: he takes the lock. *)
Definition later (secs : Z) (s : mem) : mem := mkMem (mem_objects s) (mem_clock s + secs * SECOND).
Definition bob_takes (s : mem) : mem := fst (Lock.run LockRun.handle (Lock.acquire 1 bob) (later 61 s)).
Definition acquired_by_admin : mem := fst (Lock.run LockRun.handle (Lock.acquire 1 admin) empty_store).
Definition init_slow : MemWorld * Lock.outcome (result AdminError bytes) :=
  with_admin_lock 1 admin bob_takes (run_init toy_sha first_key) fresh_world.

(** The lock of a command is not renewed. While the session of a command
    lasts longer than its lease (60 seconds, or 300 for [fsck], whose
    compactions may take an hour each), another process becomes owner under the
    next epoch; the command goes on under its own epoch, releases what it still
    finds and reports success. *)
Theorem admin_lease_runs_out :
  snd (Lock.run LockRun.handle (Lock.acquire 1 admin) empty_store) = Lock.Done (Ok (Lock.Owner epoch0)) /\
  snd (Lock.run LockRun.handle (Lock.acquire 1 bob) (later 59 acquired_by_admin)) = Lock.Done (Ok Lock.Queued) /\
  snd (Lock.run LockRun.handle (Lock.acquire 1 bob) (later 61 acquired_by_admin)) = Lock.Done (Ok (Lock.Owner epoch1)) /\
  snd init_slow = Lock.Done (Ok first_id).
Proof. do 3 (split; [vm_compute; reflexivity|]). vm_compute; reflexivity. Qed.

(** *** Breaking a lock *)

(** Bob's file was stamped in the future, and bob is gone. *)
Definition from_the_future : mem := mkMem {[ bob_path := (bob_bytes, 3600 * SECOND) ]} 1000.
Definition stuck_world : MemWorld := mkWorld from_the_future (new blank_store None).
Definition after_stuck : MemWorld := fst (with_admin_lock 1 admin (fun s => s) (run_init toy_sha first_key) stuck_world).
Definition after_break : MemWorld := fst (clear_lock 1 admin after_stuck).

Definition second_try : MemWorld * Lock.outcome (result AdminError bytes) :=
  with_admin_lock 1 admin (fun s => s) (run_init toy_sha first_key) after_break.
Definition files_of (w : MemWorld) : list path := map fst (map_to_list (mem_objects (lock_store w))).
Definition own_path : path := dir ++ [lit "00000006.json"].

(** [fsck --clear-lock] does not resolve a clock regression. An epoch file
    stamped in the future by a process that is gone: a command is not given the
    lock, and leaves its own claim in the directory although the lock is said to
    be released on every exit. Breaking the lock removes that claim but keeps
    the first file that has not expired, which is the one of the future: the
    next attempts, of the command and of the daemon, end as the first one. *)
Theorem broken_lock_still_stuck :
  snd (with_admin_lock 1 admin (fun s => s) (run_init toy_sha first_key) stuck_world) = Lock.Done (Err NotAcquired) /\
  files_of after_stuck = [bob_path; own_path] /\
  snd (clear_lock 1 admin after_stuck) = Lock.Done (Ok tt) /\
  files_of after_break = [bob_path] /\
  snd second_try = Lock.Done (Err NotAcquired) /\
  snd (Lock.run LockRun.handle (Lock.acquire 1 alice) (lock_store after_break)) = Lock.Done (Ok Lock.QueuedBackwardClock).
Proof. do 5 (split; [vm_compute; reflexivity|]). vm_compute; reflexivity. Qed.

End Admin.
