(* ===== verification/Serve.v ===== *)
(** The daemon of bepository-cli (main.rs): what [serve] does between taking and
    giving back the lock, and who is served.

    The part of [serve_locked] up to the listening socket and its end are
    functions; in between, the accept loop with its TLS handshakes, the listener
    of engine events and the engine interleave as a step relation. What the
    program prints is left out. *)

From Stdlib Require Import ZArith Lia.
From stdpp Require Import base gmap list relations strings.
From S2P Require Import Prelude BepTypes Base32 Codec DeviceId Kv GcState Store StoreTape Connection Engine Admission.
From S2P Require Import Meta ObjectStore Activation ActivationSafety MetaTape Registry Takeover Checkpoints.
From S2P Require Import Lock LockRun LockSafety LockMem LockExclusion LockLive Guard Credentials StorageUri Tls Compact Admin.

Local Open Scope Z_scope.
Local Open Scope bep_scope.

Module Serve.
Import Base32 Kv Store Meta ObjectStore Activation Checkpoints.

(** ** The end of a session *)

Inductive ServeError :=
| AdminFailed (e : Admin.AdminError)
| BindFailed
| AcceptFailed
| Regression
| HoldFailed (e : Lock.Error).

Inductive ServeOutcome :=
| Done
| Lost (reason : Guard.LockLost)
| Fatal (e : ServeError)
| Panic.

(** What ends the [select!] of [serve_locked]. *)
Inductive Wake := AcceptEnds | LockLost (reason : Guard.LockLost) | CtrlC.

(** A checkpoint task: interval, time to live, and when it fires next. *)
Record Task := mkTask { interval : Z; task_ttl : Z; due : Z }.

Section Serve.
Context {OS Db : Type} `{!ObjectStore OS} `{!SlateDb Db} `{!OpenDb OS Db} `{!CheckpointDb OS Db} {SC : StoreCodecs}.
Context {HF SF : Type} `{!Bloom bytes HF} `{!Bloom Z SF}.
Context {HT : HumanTime} {TM : Toml} {B64 : Base64} (sha256 : bytes -> bytes).
Context {Tcp Stream : Type} `{!Tls.Rustls Tcp Stream}.
Abbreviation Storage := (SlateStorage (OS := OS) (Db := Db) (HF := HF) (SF := SF)).

(** The daemon while it serves: the storage, its checkpoint tasks that have not
    been aborted, the engine. *)
Record Server := mkServer { storage : Storage; tasks : list Task; engine : Engine.Engine }.

Definition fatal (e : Admin.AdminError) : ServeOutcome :=
  if Admin.is_panic e then Panic else Fatal (AdminFailed e).

Definition on_engine (f : Engine.Engine -> Engine.Engine) (sv : Server) : Server :=
  mkServer (storage sv) (tasks sv) (f (engine sv)).

(** [spawn_checkpoint_tasks]. *)
Definition spawn_checkpoint_tasks (m : Meta) (now : Z) (s : Storage) : Storage * list Task :=
  (fst (list_all_checkpoint_ages now s),
   map (fun t => let '(i, ttl, delay) := t in mkTask i ttl (now + delay)) (checkpoint_tasks m now s)).

(** An iteration of the loop of a checkpoint task that wakes at [now] and is
    done at [later]. *)
Definition fire (i : nat) (later : Z) (sv : Server) : Server :=
  match tasks sv !! i with
  | None => sv
  | Some t =>
      mkServer (fst (create_checkpoints sha256 (interval t) (task_ttl t) (storage sv)))
        (<[ i := mkTask (interval t) (task_ttl t) (later + interval t) ]> (tasks sv)) (engine sv)
  end.

(** ** Up to the listening socket *)

(** [Stopped] is an early return; the tasks are those it leaves running. *)
Inductive Start := Stopped (o : ServeOutcome) (remaining : list Task) | Ready (identity : Identity) (sv : Server).

(** [auto-init]: an identity, made if there is none. *)
Definition ensure_identity (generated : result Tls.TlsError Identity) : SE Storage Admin.AdminError Identity :=
  do! found <- Admin.on_storage (get_identity sha256);
  run! match found with
       | None => run! Admin.run_init sha256 generated; se_ret tt
       | Some _ => se_ret tt
       end;
  Admin.require_identity sha256 true.

(** [build_engine] and [take_event_receiver]. *)
Definition build_engine : Engine.Engine := Engine.new true.

Definition serve_start (e : Epoch) (generated : result Tls.TlsError Identity) (now : Z) (bindable : bool) (s : Storage) :
  Storage * Start :=
  match activate e s with
  | (s1, Err er) => (s1, Stopped (fatal (Admin.into_activation_error er)) [])
  | (s1, Ok _) =>
      match gc_inbox sha256 s1 with
      | (s2, Err er) => (s2, Stopped (fatal (Admin.StorageFailed er)) [])
      | (s2, Ok _) =>
          match ensure_identity generated s2 with
          | (s3, Err er) => (s3, Stopped (fatal er) [])
          | (s3, Ok identity) =>
              match read_meta s3 with
              | (s4, Err er) => (s4, Stopped (fatal (Admin.StorageFailed er)) [])
              | (s4, Ok m) =>
                  let '(s5, ts) := spawn_checkpoint_tasks m now s4 in
                  match list_folders s5 with
                  | (s6, Err _) => (s6, Stopped Panic ts)
                  | (s6, Ok _) =>
                      if bindable then (s6, Ready identity (mkServer s6 ts build_engine))
                      else (s6, Stopped (Fatal BindFailed) ts)
                  end
              end
          end
      end
  end.

(** ** While it serves *)

(** An iteration of [accept_loop]: the TLS handshake, then the engine is asked. *)
Definition handle_connection (identity : Identity) (tcp : Tcp) (g : Engine.Engine) : Engine.Engine :=
  match Tls.accept sha256 tcp identity with
  | Ok b => fst (Engine.ask (Tls.stream_peer b) g)
  | Err _ => g
  end.

(** An iteration of [spawn_engine_events]. *)
Definition handle_event (allowed_device : bytes) (g : Engine.Engine) : Engine.Engine :=
  match Engine.events g with
  | [] => g
  | Engine.DeviceConnecting device :: _ =>
      if decide (device ∈ Engine.waiting g)
      then fst (Engine.answer device (bool_decide (device = allowed_device)) (Engine.receive g))
      else Engine.receive g
  | Engine.DeviceDisconnected _ _ :: _ => Engine.receive g
  end.

(** The steps of the tasks while [serve_locked] waits. *)
Inductive serving (identity : Identity) (allowed_device : bytes) (g : Engine.Engine) : Engine.Engine -> Prop :=
| sv_accept tcp : serving identity allowed_device g (handle_connection identity tcp g)
| sv_event : serving identity allowed_device g (handle_event allowed_device g)
| sv_timeout device : device ∈ Engine.waiting g -> serving identity allowed_device g (fst (Engine.answer device false g))
| sv_register device : device ∈ Engine.accepted g -> serving identity allowed_device g (Engine.register device g)
| sv_hand_over id device : Engine.starting g !! id = Some device ->
    serving identity allowed_device g (fst (Engine.hand_over id device g))
| sv_spawn : serving identity allowed_device g (Engine.spawn g)
| sv_finish id device reason : Engine.running g !! id = Some device ->
    serving identity allowed_device g (Engine.finish id device reason g)
| sv_reap id device : Engine.ended g !! id = Some device -> serving identity allowed_device g (Engine.reap id device g)
| sv_forward i : serving identity allowed_device g (Engine.forward i g)
| sv_cancel id : serving identity allowed_device g (Engine.cancel {[ id ]} g).

(** The end of [serve_locked]. *)
Definition serve_finish (w : Wake) (sv : Server) : Server * ServeOutcome :=
  let '(g, o) := match w with
                 | AcceptEnds => (engine sv, Fatal AcceptFailed)
                 | LockLost reason => (Engine.shutdown_all (engine sv), Lost reason)
                 | CtrlC => (Engine.shutdown_all (engine sv), Done)
                 end in
  (mkServer (storage sv) [] g, o).

(** [serve_locked], given what happens while it serves: the tasks that are left
    running, and the outcome. *)
Definition serve_locked (e : Epoch) (generated : result Tls.TlsError Identity) (now : Z) (bindable : bool)
  (serve : Identity -> Server -> Server) (w : Wake) (s : Storage) : Storage * list Task * ServeOutcome :=
  match serve_start e generated now bindable s with
  | (s1, Stopped o remaining) => (s1, remaining, o)
  | (_, Ready identity sv) =>
      let '(sv', o) := serve_finish w (serve identity sv) in (storage sv', tasks sv', o)
  end.

(** ** The loop of [run_serve] *)

Context {Path St : Type} `{Countable Path} `{OP : Lock.ObjectPath Path} {ST : LockRun.Store Path St}.
Context {CH : Lock.Chrono} {SE0 : Lock.SerdeEpoch}.

(** What the surroundings do in one cycle: the rounds of [hold], the key that
    would be generated, the time, whether the address is free, what is served,
    what ends it, what happens to the lock directory meanwhile, and whether
    closing the storage takes less than ten seconds. *)
Record Cycle := mkCycle {
  cancels : list bool;
  generated : result Tls.TlsError Identity;
  start_time : Z;
  bindable : bool;
  serve : Identity -> Server -> Server;
  wake : Wake;
  meanwhile : St -> St;
  closes : bool
}.

Inductive Exit := ExitOk | ExitErr (e : ServeError) | ExitPanic | StillRunning.

(** The lock directory and the objects of the repository. *)
Record Daemon := mkDaemon { lock_store : St; objects_of : OS }.

Fixpoint run_serve (attempts : nat) (l : Lock.Lock Path) (cache : option (bytes -> option bytes))
  (script : list Cycle) (d : Daemon) : Daemon * Exit :=
  match script with
  | [] => (d, StillRunning)
  | c :: script' =>
      let '(ls, held) := Lock.run LockRun.handle (Guard.hold attempts (cancels c) l) (lock_store d) in
      match held with
      | Lock.Done (Err Lock.Cancelled) => (mkDaemon ls (objects_of d), ExitOk)
      | Lock.Done (Err Lock.ClockRegression) => (mkDaemon ls (objects_of d), ExitErr Regression)
      | Lock.Done (Err er) => (mkDaemon ls (objects_of d), ExitErr (HoldFailed er))
      | Lock.Panicked => (mkDaemon ls (objects_of d), ExitPanic)
      | Lock.Exhausted => (mkDaemon ls (objects_of d), StillRunning)
      | Lock.Done (Ok e) =>
          let '(s1, _, o) := serve_locked e (generated c) (start_time c) (bindable c) (serve c) (wake c)
                               (new (objects_of d) cache) in
          let s2 := if closes c then fst (close s1) else s1 in
          let ls' := fst (Lock.run LockRun.handle (Lock.release l) (meanwhile c ls)) in
          let d' := mkDaemon ls' (object_store s2) in
          match o with
          | Done => (d', ExitOk)
          | Fatal er => (d', ExitErr er)
          | Panic => (mkDaemon (meanwhile c ls) (object_store s1), ExitPanic)
          | Lost _ => run_serve attempts l cache script' d'
          end
      end
  end.

(** ** The command *)

Context {U W : Type} `{!Credentials.Url U} `{!StorageUri.UrlParts U} `{!StorageUri.Backends U (St * OS) W}.
Context (to_lowercase : bytes -> bytes) (LOCK_PATH : Path).

Inductive CommandExit :=
| Refused (e : Admin.AdminError)
| InvalidPeer
| Ran (d : Daemon) (e : Exit).

(** [cmd_serve]; [script] is what happens once the device that is allowed is
    known. *)
Definition cmd_serve (env : Admin.Env (St := St)) (master_device_id : bytes) (priority lease : Z)
  (script : bytes -> list Cycle) (w : W) : W * CommandExit :=
  match Admin.acquire_single_instance (Admin.instance env) with
  | Err e => (w, Refused e)
  | Ok _ =>
      match DeviceId.parse master_device_id with
      | None => (w, InvalidPeer)
      | Some allowed_device =>
          match Admin.open_storage (OS := OS) (Db := Db) (HF := HF) (SF := SF) to_lowercase env false w with
          | (w', Err e) => (w', Refused (Admin.OpenFailed e))
          | (w', Ok world) =>
              let l := Lock.new LOCK_PATH (Admin.holder env) priority lease in
              let '(d, e) := run_serve (Admin.attempts env) l (cache_provider (Admin.storage world)) (script allowed_device)
                               (mkDaemon (Admin.lock_store world) (object_store (Admin.storage world))) in
              (w', Ran d e)
          end
      end
  end.

(** The device that is let in is the one whose printed id was configured; another
    instance, or a text that is no id, ends the command before the storage is
    opened. *)
Lemma cmd_serve_gates (env : Admin.Env (St := St)) (master : bytes) (priority lease : Z) (script : bytes -> list Cycle) (w w' : W)
  (x : CommandExit) : cmd_serve env master priority lease script w = (w', x) ->
  match x with
  | Ran d e => Admin.instance env = Some true /\ exists device, DeviceId.parse master = Some device /\
      (forall id, DeviceId.id_ok id -> DeviceId.fmt id = Ok master -> device = id) /\
      exists ls cache os, (d, e) = run_serve (Admin.attempts env) (Lock.new LOCK_PATH (Admin.holder env) priority lease)
                                     cache (script device) (mkDaemon ls os)
  | InvalidPeer => w' = w /\ DeviceId.parse master = None
  | Refused (Admin.OpenFailed _) => Admin.instance env = Some true /\ is_Some (DeviceId.parse master)
  | Refused _ => w' = w /\ Admin.instance env <> Some true
  end.
Proof.
  unfold cmd_serve, Admin.acquire_single_instance. destruct (Admin.instance env) as [[]|]; [|by intros [= <- <-]..].
  destruct (DeviceId.parse master) as [device|] eqn:Ep; [|by intros [= <- <-]].
  destruct (Admin.open_storage _ _ _ w) as [w1 [world|e]]; [|by intros [= <- <-]].
  destruct (run_serve _ _ _ _ _) as [d e] eqn:Er. intros [= <- <-]. split; [done|]. exists device. split; [done|].
  split; [|by eauto]. intros id Hid Hf. destruct (DeviceId.device_id_roundtrip id Hid) as (s & Hs & _ & Hback).
  rewrite Hf in Hs. injection Hs as ->. unfold DeviceId.parse in Ep. rewrite Hback in Ep. by injection Ep.
Qed.

End Serve.

(** ** Who is served *)

Section Master.
Context (sha256 : bytes -> bytes) {Tcp Stream : Type} `{!Tls.Rustls Tcp Stream} `{!Tls.RustlsLaws Tcp Stream}.
Context (identity : Identity) (master : bytes).
Abbreviation step := (serving sha256 identity master).

(** A device whose certificate a peer has shown. *)
Definition came (d : bytes) : Prop :=
  exists tcp b, Tls.accept sha256 tcp identity = Ok b /\ Tls.stream_peer b = d.

Lemma serving_admitted (g g' : Engine.Engine) :
  step g g' -> Admission.admitted came (eq master) g -> Admission.admitted came (eq master) g'.
Proof.
  intros Hstep Hg. destruct Hstep; try (eapply Admission.task_admitted; [by eauto|done]).
  - unfold handle_connection. destruct (Tls.accept sha256 tcp identity) as [b|] eqn:Ea; [|done].
    apply Admission.ask_admitted; [done|]. by exists tcp, b.
  - unfold handle_event. destruct (Engine.events g) as [|[device|device reason] evs]; [done| |by apply Admission.receive_admitted].
    destruct (decide (device ∈ Engine.waiting g)) as [Hin|]; [|by apply Admission.receive_admitted].
    apply Admission.answer_admitted; [by apply Admission.receive_admitted|done|]. by intros ->%bool_decide_eq_true.
  - by apply Admission.answer_admitted.
Qed.


(** The engine after a peer of the device [d] was let in. *)
Definition let_in (d : bytes) : Engine.Engine :=
  Engine.spawn (fst (Engine.hand_over 0 d (Engine.register d (fst (Engine.answer d true (Engine.receive
    (fst (Engine.ask d build_engine)))))))).

Lemma let_in_reached (tcp : Tcp) (s : Stream) :
  Tls.accept sha256 tcp identity = Ok (Tls.mkBepStream s master) -> rtc step build_engine (let_in master).
Proof.
  intros Ha. unfold let_in.
  eapply rtc_l; [apply (sv_accept _ _ _ _ tcp)|]. unfold handle_connection. rewrite Ha. cbn [Tls.stream_peer].
  assert (handle_event master (fst (Engine.ask master build_engine)) =
    fst (Engine.answer master true (Engine.receive (fst (Engine.ask master build_engine))))) as Hev.
  { unfold handle_event. change (Engine.events (fst (Engine.ask master build_engine))) with [Engine.DeviceConnecting master].
    change (Engine.waiting (fst (Engine.ask master build_engine))) with [master]. cbv iota.
    rewrite decide_True by apply list_elem_of_here. by rewrite bool_decide_eq_true_2. }
  eapply rtc_l; [apply sv_event|]. rewrite Hev.
  eapply rtc_l; [apply (sv_register _ _ _ _ master); cbn; apply list_elem_of_here|].
  eapply rtc_l; [apply (sv_hand_over _ _ _ _ 0 master); cbn; apply lookup_insert_eq|].
  eapply rtc_l; [apply sv_spawn|]. apply rtc_refl.
Qed.

(** C30: an impostor is served. Whoever has the certificate of the master, which
    every peer of the master is shown, and not its key, can follow the protocol
    with a signature that is not valid: the handshake succeeds, the listener of
    the daemon takes the impostor for the master, and the engine runs a
    connection with all the rights of the master. *)
Theorem impostor_is_served (tcp : Tcp) (leaf : bytes) (rest : list bytes)
  (Hkey : Tls.usable_key (id_cert identity) (id_key identity) = true) (Hneg : Tls.negotiates tcp Tls.ALPN)
  (Hcert : Tls.chain (Tls.offer tcp) = leaf :: rest) (Hmaster : sha256 leaf = master)
  (Hforged : Tls.valid_signature (Tls.transcript (Tls.offer tcp)) leaf (Tls.dss (Tls.offer tcp)) = false) :
  exists g, rtc step build_engine g /\ Engine.connections g !! master = Some 0 /\ Engine.running g !! 0 = Some master.
Proof.
  destruct (Tls.accept_any_signature sha256 identity tcp leaf rest Hkey Hneg Hcert) as [s Hs]. rewrite Hmaster in Hs.
  exists (let_in master). split; [by eapply let_in_reached|]. split; cbn; apply lookup_insert_eq.
Qed.

End Master.

(** ** A cycle *)

Section Cycle.
Import LockRun LockLive.
Context {OS Db : Type} `{!ObjectStore OS} `{!SlateDb Db} `{!OpenDb OS Db} `{!CheckpointDb OS Db} {SC : StoreCodecs}.
Context {HF SF : Type} `{!Bloom bytes HF} `{!Bloom Z SF}.
Context {HT : HumanTime} {TM : Toml} {B64 : Base64} (sha256 : bytes -> bytes).
Context {Path St : Type} `{Countable Path} `{OP : Lock.ObjectPath Path} {ST : LockRun.Store Path St}
  `{!ObjectPathLaws Path} `{!StoreLaws Path St} {CH : Lock.Chrono} {SE0 : Lock.SerdeEpoch} `{!SerdeEpochLaws}.

(** A cycle of the daemon on a lock directory whose other leases have run
    out. The first round of [hold] takes the lock; the session starts from a
    fresh storage on the objects of the repository; however it ends, except by
    a panic, the epoch files of the daemon are removed and those of the others
    left as they are. The program ends when the session is over or has failed,
    and starts the next cycle, on what this one left, exactly when the lock was
    lost. *)
Theorem serve_gives_back (n : nat) (l : Lock.Lock Path) (cache : option (bytes -> option bytes))
  (c : Cycle (OS := OS) (Db := Db) (HF := HF) (SF := SF) (St := St)) (script : list Cycle) (d : Daemon)
  (Hhealthy : healthy) (Hmono : monotone)
  (Hclean : clean_dir l (objects (lock_store d))) (Hfree : free_at l (objects (lock_store d)) (clock (lock_store d)))
  (Hnow : forall s1 s2 now, handle _ Lock.NOW s1 = (s2, now) -> clock s1 <= now)
  (Hcancel : head (cancels c) = Some false)
  (Hmeanwhile : forall s, readable l (objects s) -> readable l (objects (meanwhile c s))) :
  exists ls e ts,
    Lock.run handle (Guard.hold (S n) (cancels c) l) (lock_store d) = (ls, Lock.Done (Ok e)) /\
    sole_owner l (objects (lock_store d)) (objects ls) e ts /\
    let '(s1, _, o) := serve_locked sha256 e (generated c) (start_time c) (bindable c) (serve c) (wake c)
                         (new (objects_of d) cache) in
    exists ls', Admin.own_removed l (objects (meanwhile c ls)) (objects ls') /\
    let d' := mkDaemon ls' (object_store s1) in
    match o with
    | Done => run_serve sha256 (S n) l cache (c :: script) d = (d', ExitOk)
    | Fatal er => run_serve sha256 (S n) l cache (c :: script) d = (d', ExitErr er)
    | Lost _ => run_serve sha256 (S n) l cache (c :: script) d = run_serve sha256 (S n) l cache script d'
    | Panic => snd (run_serve sha256 (S n) l cache (c :: script) d) = ExitPanic
    end.
Proof.
  pose proof (wpp_acquire_alone n l (lock_store d) Hhealthy Hmono Hclean Hfree Hnow) as Hwp.
  destruct (cancels c) as [|b cs] eqn:Ec; [done|]. cbn in Hcancel. injection Hcancel as ->.
  assert (wpp (Guard.hold (S n) (false :: cs) l) (fun s' o => exists e ts, o = Lock.Done (Ok e) /\
    sole_owner l (objects (lock_store d)) (objects s') e ts) (lock_store d)) as Hhold.
  { cbn [Guard.hold]. apply wpp_try. eapply wpp_mono; [|exact Hwp].
    intros s' o (e & ts & -> & _ & Hs & _). apply wpp_ret. by exists e, ts. }
  destruct (Lock.run handle (Guard.hold (S n) (false :: cs) l) (lock_store d)) as [ls o] eqn:Hrun.
  destruct (wpp_run _ _ _ _ _ Hhold Hrun) as (e & ts & -> & Hs). exists ls, e, ts. split; [done|]. split; [done|].
  cbn [run_serve]. rewrite Ec, Hrun. destruct (serve_locked _ _ _ _ _ _ _ _) as [[s1 ts1] o].
  destruct (Admin.release_removes l (meanwhile c ls) Hhealthy) as (ls' & -> & Hrm); [by eapply Hmeanwhile, sole_readable|].
  exists ls'. split; [done|]. cbn [fst].
  assert (object_store (if closes c then fst (close s1) else s1) = object_store s1) as ->.
  { destruct (closes c); [|done]. unfold close. by destruct (act s1). }
  by destruct o.
Qed.

End Cycle.

(** ** Examples *)

Import MetaTape Registry.
#[local] Existing Instance StoreTape.codecs.
#[local] Existing Instance Tls.ToyRustls.
#[local] Existing Instance Tls.ToyRustlsLaws.

Definition server_identity : Identity := mkIdentity (lit "cert") (lit "key") (lit "id").


Lemma impostor_is_served_witness :
  exists g, rtc (serving toy_sha server_identity (lit "victim") (Tcp := Tls.Offer)) build_engine g /\
    Engine.connections g !! lit "victim" = Some 0 /\ Engine.running g !! 0 = Some (lit "victim").
Proof.
  apply (impostor_is_served toy_sha server_identity (lit "victim") Tls.thief (lit "victim") []);
    [reflexivity|exact I|reflexivity|reflexivity|vm_compute; reflexivity].
Defined.


(** *** Cycles of a daemon *)

Import LockMem.

Abbreviation MemCycle := (Cycle (OS := MemStore) (Db := MapDb) (HF := StoreTape.HFilter) (SF := StoreTape.SFilter) (St := mem)).

Definition some_key : result Tls.TlsError Identity := Ok (identity_from_der toy_sha (repeat 7 32) (lit "key")).
Definition one_cycle (cancels : list bool) (bindable : bool) (w : Wake) : MemCycle :=
  mkCycle cancels some_key 0 bindable (fun _ sv => sv) w (fun s => s) true.
Definition fresh : Daemon := mkDaemon empty_store blank_store.

(** A session that is interrupted. *)
Lemma serve_gives_back_witness :
  snd (run_serve toy_sha 1 alice None [one_cycle [false] true CtrlC] fresh) = ExitOk /\
  exists ls', mem_objects (lock_store (fst (run_serve toy_sha 1 alice None [one_cycle [false] true CtrlC] fresh))) = ls' /\
    exists m, Admin.own_removed alice m ls'.
Proof.
  pose proof (serve_gives_back toy_sha 0 alice None (one_cycle [false] true CtrlC) [] fresh) as H.
  destruct H as (ls & e & ts & Hrun & _ & H); [exact I|exact I|..].
  - split; intros mt e (_ & _ & b & Hb); cbn in Hb; by rewrite lookup_empty in Hb.
  - intros en (_ & _ & b & Hb & _). cbn in Hb. by rewrite lookup_empty in Hb.
  - intros s1 s2 now [= <- <-]. cbn. lia.
  - reflexivity.
  - done.
  - assert (snd (Lock.run LockRun.handle (Guard.hold 1 [false] alice) empty_store) = Lock.Done (Ok epoch0)) as E
      by (vm_compute; reflexivity).
    change (lock_store fresh) with empty_store in Hrun. cbn [cancels one_cycle] in Hrun. rewrite Hrun in E.
    injection E as ->. clear Hrun.
    assert (snd (serve_locked toy_sha epoch0 some_key 0 true (fun _ sv => sv) CtrlC (new blank_store None : MemStorage)) = Done) as Eo
      by (vm_compute; reflexivity).
    cbn [generated start_time bindable serve wake one_cycle objects_of fresh] in H.
    destruct (serve_locked _ _ _ _ _ _ _ _) as [[s1 left] o]. cbn [snd] in Eo. subst o.
    destruct H as (ls' & Hrm & ->). split; [reflexivity|]. eexists. split; [reflexivity|]. eexists. exact Hrm.
Defined.

(** An owner of priority 0, and alice, of priority 1, who waits behind it. *)
Definition owner : Lock.Lock path := Lock.new dir (lit "owner") 0 300.
Definition owned : mem := fst (Lock.run LockRun.handle (Lock.acquire 1 owner) empty_store).
Definition interrupted : Daemon * Exit :=
  run_serve toy_sha 1 alice None [one_cycle [false; true] true CtrlC] (mkDaemon owned blank_store).

(** What an interrupted daemon leaves behind. A daemon that waits behind an
    owner of lower priority has its claim in the lock directory; when it is
    interrupted, it ends with success and leaves the claim. The owner, whose
    renewal would succeed otherwise, then finds the claim before its own and
    loses the lock to nobody. *)
Theorem cancelled_claim_preempts :
  snd interrupted = ExitOk /\
  snd (Lock.run LockRun.handle (Lock.acquire 1 owner) owned) = Lock.Done (Ok (Lock.Owner epoch1)) /\
  snd (Lock.run LockRun.handle (Lock.acquire 1 owner) (lock_store (fst interrupted))) = Lock.Done (Ok Lock.Failed).
Proof. do 2 (split; [vm_compute; reflexivity|]). vm_compute; reflexivity. Qed.

(** An address that is taken: [serve_locked] returns with its checkpoint tasks
    running. *)
Theorem bind_failure_leaves_tasks :
  exists s ts, serve_locked toy_sha epoch0 some_key 0 false (fun _ sv => sv) CtrlC (new blank_store None : MemStorage) =
    (s, ts, Fatal BindFailed) /\ length ts = 2%nat.
Proof. eexists _, _. split; vm_compute; reflexivity. Qed.

End Serve.
