(* ===== verification/Service.v ===== *)
(** Installing the service ([bepository-cli/src/service.rs]): the unit files and
    the calls of systemctl around the environment file of [Credentials]. The
    texts of the units and of the example file are arguments, and so is what
    systemctl answers. *)

From Stdlib Require Import ZArith Lia.
From stdpp Require Import base gmap list strings.
From S2P Require Import Prelude EnvFile Credentials.

Local Open Scope Z_scope.
Local Open Scope bep_scope.

Module Service.
Import EnvFile Credentials.

Definition SYSTEMD_DIR : bytes := lit "/etc/systemd/system".
Definition UPGRADE_SERVICE_NAME : bytes := lit "bepository-upgrade.service".
Definition UPGRADE_TIMER_NAME : bytes := lit "bepository-upgrade.timer".

(** How running systemctl ends: no such program, another error, or a status. *)
Inductive Ran := NoSuchProgram | SpawnFailed | Exited (success : bool).

Inductive ServiceError :=
| FilesFailed (e : Credentials.Error)
| SystemctlError
| SystemctlStatus (args : list bytes)
| PackageManaged (hint : bytes).

(** The three unit files. *)
Record Units := mkUnits { main_unit : bytes; upgrade_unit : bytes; timer_unit : bytes }.

Definition unit_path (name : bytes) : bytes := join SYSTEMD_DIR name.

Section Service.
Context {U : Type} `{!Url U} {Sys : Type} (run_systemctl : list bytes -> Sys -> Sys * Ran).
Context (units : Units) (example : bytes).

Record Host := mkHost { fs : Fs; sys : Sys }.
Abbreviation HM := (SE Host ServiceError).

Definition on_files {A : Type} (m : SE Fs Credentials.Error A) : HM A := fun h =>
  let '(f, r) := m (fs h) in (mkHost f (sys h), map_err FilesFailed r).

Definition systemctl (args : list bytes) : HM unit := fun h =>
  let '(s, r) := run_systemctl args (sys h) in
  (mkHost (fs h) s, match r with
                    | NoSuchProgram => Ok tt
                    | SpawnFailed => Err SystemctlError
                    | Exited true => Ok tt
                    | Exited false => Err (SystemctlStatus args)
                    end).

Definition write_unit (name content : bytes) : HM unit := on_files (fs_write (unit_path name) content).

Definition ignore {A : Type} (m : HM A) : HM unit := fun h => (fst (m h), Ok tt).

Definition disable_and_remove_unit (name : bytes) : HM unit :=
  run! ignore (systemctl [lit "disable"; lit "--now"; name]);
  do! h <- se_get;
  if path_exists (unit_path name) (fs h) then on_files (remove_file (unit_path name)) else se_ret tt.

(** [install_service]; [listing] is the order in which the drop-in directory is
    listed. *)
Definition install_service (listing : list bytes) (no_auto_upgrade : bool) (storage_uri : option bytes) :
  HM (list (bytes * WiringOutcome)) :=
  do! outcomes <- on_files (install_env example listing storage_uri);
  run! write_unit SERVICE_NAME (main_unit units);
  run! (if no_auto_upgrade then
          run! ignore (disable_and_remove_unit UPGRADE_TIMER_NAME);
          ignore (disable_and_remove_unit UPGRADE_SERVICE_NAME)
        else
          run! write_unit UPGRADE_SERVICE_NAME (upgrade_unit units);
          write_unit UPGRADE_TIMER_NAME (timer_unit units));
  run! systemctl [lit "daemon-reload"];
  run! systemctl [lit "enable"; SERVICE_NAME];
  run! (if no_auto_upgrade then se_ret tt else systemctl [lit "enable"; lit "--now"; UPGRADE_TIMER_NAME]);
  se_ret outcomes.

Definition uninstall_service : HM unit :=
  run! on_files (unwire_credential_dropins ENV_PATH DROPIN_DIR);
  run! disable_and_remove_unit UPGRADE_TIMER_NAME;
  run! disable_and_remove_unit UPGRADE_SERVICE_NAME;
  run! disable_and_remove_unit SERVICE_NAME;
  systemctl [lit "daemon-reload"].

(** [package_managed_hint] and the guard of every self-manage command. *)
Definition package_managed_hint (vars : list (bytes * bytes)) : option bytes :=
  match value_of (lit "BEPOSITORY_PACKAGE_MANAGED") vars with
  | Some [] | None => None
  | Some hint => Some hint
  end.

Definition self_managed {A : Type} (vars : list (bytes * bytes)) (command : HM A) : HM A :=
  match package_managed_hint vars with
  | Some hint => se_err (PackageManaged hint)
  | None => command
  end.

(** ** Installing and uninstalling *)

(** systemctl is there and succeeds, or is not there. *)
Definition answers_well : Prop := forall args s, snd (run_systemctl args s) = NoSuchProgram \/ snd (run_systemctl args s) = Exited true.

Section Facts.
Context (Hsys : answers_well).

Lemma wp_systemctl args (Q : Host -> result ServiceError unit -> Prop) h :
  (forall s, Q (mkHost (fs h) s) (Ok tt)) -> wp (systemctl args) Q h.
Proof.
  intros HQ. unfold wp, systemctl. pose proof (Hsys args (sys h)) as H0.
  destruct (run_systemctl args (sys h)) as [s r]. cbn in *. destruct H0 as [-> | ->]; apply HQ.
Qed.

Lemma wp_on_files {A : Type} (m : SE Fs Credentials.Error A) (Q : Host -> result ServiceError A -> Prop) h :
  wp m (fun f r => Q (mkHost f (sys h)) (map_err FilesFailed r)) (fs h) -> wp (on_files m) Q h.
Proof. unfold wp, on_files. by destruct (m (fs h)). Qed.

Lemma wp_write_unit name content (Q : Host -> result ServiceError unit -> Prop) h :
  clean (fs h) -> Q (mkHost (set_files (fs h) (<[ unit_path name := content ]> (files (fs h)))) (sys h)) (Ok tt) ->
  wp (write_unit name content) Q h.
Proof.
  intros [_ Hro] HQ. unfold write_unit. apply wp_on_files. unfold wp, fs_write. rewrite Hro.
  rewrite decide_False by set_solver. exact HQ.
Qed.

Lemma wp_ignore {A : Type} (m : HM A) (Q : Host -> result ServiceError unit -> Prop) h :
  wp m (fun h' _ => Q h' (Ok tt)) h -> wp (ignore m) Q h.
Proof. done. Qed.

Lemma wp_disable name (Q : Host -> result ServiceError unit -> Prop) h :
  clean (fs h) ->
  (forall s, Q (mkHost (set_files (fs h) (delete (unit_path name) (files (fs h)))) s) (Ok tt)) ->
  wp (disable_and_remove_unit name) Q h.
Proof.
  intros [Hun Hro] HQ. unfold disable_and_remove_unit. apply wp_bind, wp_ignore, wp_systemctl. intros s.
  apply wp_bind, wp_get. cbn [fs]. destruct (path_exists (unit_path name) (fs h)) eqn:Hp.
  - apply wp_on_files. unfold wp, remove_file. cbn [fs sys]. rewrite Hro, Hp. rewrite decide_False by set_solver. apply HQ.
  - apply wp_ret. unfold path_exists in Hp. apply bool_decide_eq_false, eq_None_not_Some in Hp.
    specialize (HQ s). rewrite delete_id in HQ by done. by destruct (fs h).
Qed.

Abbreviation MAIN := (unit_path SERVICE_NAME).
Abbreviation UPGRADE := (unit_path UPGRADE_SERVICE_NAME).
Abbreviation TIMER := (unit_path UPGRADE_TIMER_NAME).

Lemma units_elsewhere q : q ∈ [ENV_PATH; SFTP_CONF (U := U); GCS_CONF] -> q <> MAIN /\ q <> UPGRADE /\ q <> TIMER.
Proof.
  rewrite !elem_of_cons. intros [->|[->|[->|[]%not_elem_of_nil]]]; split_and!; apply (bool_decide_unpack _); by vm_compute.
Qed.

(** The units that are installed. *)
Definition installed (no_auto_upgrade : bool) (m : gmap bytes bytes) : Prop :=
  m !! MAIN = Some (main_unit units) /\
  m !! UPGRADE = (if no_auto_upgrade then None else Some (upgrade_unit units)) /\
  m !! TIMER = (if no_auto_upgrade then None else Some (timer_unit units)).

(** Everything but the units is as in [m0]. *)
Definition apart_from_units (m0 m : gmap bytes bytes) : Prop :=
  forall q, q <> MAIN -> q <> UPGRADE -> q <> TIMER -> m !! q = m0 !! q.

Lemma units_distinct : MAIN <> UPGRADE /\ MAIN <> TIMER /\ UPGRADE <> TIMER.
Proof. split_and!; apply (bool_decide_unpack _); by vm_compute. Qed.

Lemma wp_install_units (listing : list bytes) (no_auto_upgrade : bool) (h : Host) (P : Fs -> Prop) :
  wp (install_env example listing None) (fun f r => is_ok r = true /\ clean f /\ P f) (fs h) ->
  wp (install_service listing no_auto_upgrade None) (fun h' r => is_ok r = true /\ clean (fs h') /\
    exists f, P f /\ apart_from_units (files f) (files (fs h')) /\ installed no_auto_upgrade (files (fs h'))) h.
Proof.
  intros Hi. destruct units_distinct as (D1 & D2 & D3). unfold install_service. apply wp_bind, wp_on_files.
  eapply wp_mono; [|exact Hi]. intros f [o|e] (Hok & Hc & HP); [|done]. cbn [map_err].
  assert (forall f', clean f -> clean (set_files f f')) as Hset by done.
  apply wp_bind, wp_write_unit; [done|]. cbn [fs sys]. destruct no_auto_upgrade.
  - apply wp_bind, wp_bind, wp_ignore, wp_disable; [by apply Hset|]. intros s1.
    apply wp_ignore, wp_disable; [by apply Hset|]. intros s2. cbn [fs set_files files].
    apply wp_bind, wp_systemctl. intros s3. apply wp_bind, wp_systemctl. intros s4. apply wp_bind, wp_ret, wp_ret.
    cbn [fs set_files files]. split; [done|]. split; [by apply Hset|]. exists f. split; [done|]. split.
    + intros q Q1 Q2 Q3. by rewrite !lookup_delete_ne, lookup_insert_ne by done.
    + split_and!; [by rewrite !lookup_delete_ne, lookup_insert_eq by done|by rewrite lookup_delete_eq|].
      by rewrite lookup_delete_ne, lookup_delete_eq by done.
  - apply wp_bind, wp_bind, wp_write_unit; [by apply Hset|]. apply wp_write_unit; [by apply Hset|]. cbn [fs set_files files].
    apply wp_bind, wp_systemctl. intros s3. apply wp_bind, wp_systemctl. intros s4. apply wp_bind, wp_systemctl. intros s5.
    apply wp_ret. cbn [fs set_files files]. split; [done|]. split; [by apply Hset|]. exists f. split; [done|]. split.
    + intros q Q1 Q2 Q3. by rewrite !lookup_insert_ne by done.
    + split_and!; [by rewrite !lookup_insert_ne, lookup_insert_eq by done|by rewrite lookup_insert_ne, lookup_insert_eq by done|].
      by rewrite lookup_insert_eq.
Qed.

Lemma wp_uninstall_units (h : Host) (P : Fs -> Prop) :
  wp (unwire_credential_dropins ENV_PATH DROPIN_DIR) (fun f r => r = Ok tt /\ clean f /\ P f) (fs h) ->
  wp uninstall_service (fun h' r => r = Ok tt /\ exists f, P f /\ apart_from_units (files f) (files (fs h')) /\
    files (fs h') !! MAIN = None /\ files (fs h') !! UPGRADE = None /\ files (fs h') !! TIMER = None) h.
Proof.
  intros Hu. destruct units_distinct as (D1 & D2 & D3). unfold uninstall_service. apply wp_bind, wp_on_files.
  eapply wp_mono; [|exact Hu]. intros f r (-> & Hc & HP). cbn [map_err].
  apply wp_bind, wp_disable; [done|]. intros s1. apply wp_bind, wp_disable; [done|]. intros s2.
  apply wp_bind, wp_disable; [done|]. intros s3. apply wp_systemctl. intros s4. cbn [fs set_files files].
  split; [done|]. exists f. split; [done|]. split_and!.
  - intros q Q1 Q2 Q3. by rewrite !lookup_delete_ne by done.
  - by rewrite lookup_delete_eq.
  - by rewrite lookup_delete_ne, lookup_delete_eq by done.
  - by rewrite !lookup_delete_ne, lookup_delete_eq by done.
Qed.

Context `{!UrlLaws U}.


End Facts.
End Service.

(** ** Example *)

(** A host without systemctl, where an earlier version had left its timer; the
    file of a credential and a drop-in of the administrator stay. *)
Definition toy_units : Units := mkUnits (lit "[Service]") (lit "[Upgrade]") (lit "[Timer]").
Definition toy_host : Host (Sys := unit) :=
  mkHost (set_files toy_fs (<[ unit_path UPGRADE_TIMER_NAME := lit "old" ]> (files toy_fs))) tt.
Definition no_systemctl (args : list bytes) (s : unit) : unit * Ran := (s, NoSuchProgram).


End Service.
