(* ===== verification/Fault.v ===== *)
(** Fault injection ([bepository-bep/src/fault.rs],
    [bepository-storage/src/fault.rs]): layers around a storage, a stream and an
    object store that make the next calls of a method fail. A layer shares its
    rules with the test that configures it; here the rules are a component of
    the state beside the state of the wrapped object. *)

From Stdlib Require Import ZArith Lia.
From stdpp Require Import base countable gmap list strings.
From S2P Require Import Prelude BepTypes Messages Retry ObjectStore Lock LockRun.

Local Open Scope Z_scope.
Local Open Scope bep_scope.

Module Fault.

(** ** Rules *)

(** [NonZeroU32]. *)
Definition NonZeroU32 : Type := { n : Z | 1 <= n <= U32_MAX }.
Definition nz_get (n : NonZeroU32) : Z := proj1_sig n.

Section Rules.
Context {M E : Type} `{Countable M}.

(** [FaultState]: per method, how many calls still fail, and how. *)
Abbreviation FaultState := (gmap M (Z * E)).

Definition new : FaultState := ∅.

Definition set (method : M) (count : NonZeroU32) (error : E) (rules : FaultState) : FaultState :=
  <[ method := (nz_get count, error) ]> rules.

Definition clear (method : M) (rules : FaultState) : FaultState := delete method rules.

(** The counter is a [u32]. *)
Definition check (method : M) : SE FaultState E unit := fun rules =>
  match rules !! method with
  | Some (count, error) =>
      let count' := (count - 1) mod 2 ^ 32 in
      (if count' =? 0 then delete method rules else <[ method := (count', error) ]> rules, Err error)
  | None => (rules, Ok tt)
  end.

(** A call of a wrapped object, after a check and without one. *)
Definition guarded {Sto F A : Type} (into : E -> F) (method : M) (call : SE Sto F A) :
  SE (Sto * FaultState) F A := fun '(s, rules) =>
  match check method rules with
  | (rules', Err e) => ((s, rules'), Err (into e))
  | (rules', Ok _) => let '(s', r) := call s in ((s', rules'), r)
  end.

Definition delegated {Sto F A : Type} (call : SE Sto F A) : SE (Sto * FaultState) F A := fun '(s, rules) =>
  let '(s', r) := call s in ((s', rules), r).

End Rules.

(** ** Storage *)

Inductive StorageMethod :=
| MFolder | MIndex | MApplyUpdate | MReadBlock | MStoreBlock | MCompleteFile | MReuseBlock
| MResolveConflict | MLocalSequence | MRemoteState | MSetRemoteState.

#[global] Instance StorageMethod_eq_dec : EqDecision StorageMethod.
Proof. solve_decision. Defined.

Definition storage_methods : list StorageMethod :=
  [MFolder; MIndex; MApplyUpdate; MReadBlock; MStoreBlock; MCompleteFile; MReuseBlock;
   MResolveConflict; MLocalSequence; MRemoteState; MSetRemoteState].

(** Methods are numbered as the enumeration has them. *)
Definition number_of {A : Type} `{EqDecision A} (l : list A) (a : A) : nat :=
  default O (fst <$> list_find (eq a) l).

#[global] Program Instance StorageMethod_countable : Countable StorageMethod :=
  inj_countable (number_of storage_methods) (fun n => storage_methods !! n) _.
Next Obligation. by intros []. Qed.

Abbreviation FaultConfig := (gmap StorageMethod (Z * StorageError.t)).

(** [FaultFolder]; the configuration it shares is in the state. *)
Record FaultFolder (F : Type) := mkFaultFolder { inner : F }.
Arguments mkFaultFolder {F} _.
Arguments inner {F} _.

Section Storage.
Context {Sto F : Type} `{!Storage Sto F}.
Abbreviation FaultStorage := (Sto * FaultConfig)%type.

(** A call of a storage method. *)
Definition guard {A : Type} (m : StorageMethod) (call : SE Sto StorageError.t A) :
  SE FaultStorage StorageError.t A := guarded (fun e => e) m call.

#[global] Instance fault_folder : StorageFolder FaultStorage (FaultFolder F) := {
  sf_id f := sf_id (inner f);
  sf_label f := sf_label (inner f);
  sf_index f since := guard MIndex (sf_index (inner f) since);
  sf_read_block f name offset size hash := guard MReadBlock (sf_read_block (inner f) name offset size hash);
  sf_apply_update f file device := guard MApplyUpdate (sf_apply_update (inner f) file device);
  sf_local_sequence f := guard MLocalSequence (sf_local_sequence (inner f));
  sf_remote_state f device := guard MRemoteState (sf_remote_state (inner f) device);
  sf_set_remote_state f device st := guard MSetRemoteState (sf_set_remote_state (inner f) device st);
  sf_resolve_conflict f winner loser path := guard MResolveConflict (sf_resolve_conflict (inner f) winner loser path);
  sf_store_block f name offset hash data := guard MStoreBlock (sf_store_block (inner f) name offset hash data);
  sf_complete_file f name version := guard MCompleteFile (sf_complete_file (inner f) name version);
  sf_reuse_block f name offset hash size := guard MReuseBlock (sf_reuse_block (inner f) name offset hash size)
}.

#[global] Instance fault_storage : Storage FaultStorage (FaultFolder F) := {
  st_folder id := guard MFolder (do! f <- st_folder id; se_ret (mkFaultFolder f));
  st_list_folders := delegated st_list_folders;
  st_ensure_folders l := delegated (st_ensure_folders l)
}.

(** [impl StorageInspectorForTests for FaultFolder]. *)
#[global] Instance fault_inspector {Ep : Type} `{!StorageInspector Sto F Ep} :
  StorageInspector FaultStorage (FaultFolder F) Ep := {
  si_insert_file f file := delegated (si_insert_file (inner f) file);
  si_insert_block f name offset data := delegated (si_insert_block (inner f) name offset data);
  si_get_file f name := delegated (si_get_file (inner f) name);
  si_get_inbox_file f epoch name := delegated (si_get_inbox_file (inner f) epoch name);
  si_get_block f name offset := delegated (si_get_block (inner f) name offset);
  si_has_block f file offset hash size := delegated (si_has_block (inner f) file offset hash size)
}.

End Storage.

(** ** Streams *)

Inductive StreamMethod := Read | Write.

#[global] Instance StreamMethod_eq_dec : EqDecision StreamMethod.
Proof. solve_decision. Defined.
#[global] Program Instance StreamMethod_countable : Countable StreamMethod :=
  inj_countable (number_of [Read; Write]) (fun n => [Read; Write] !! n) _.
Next Obligation. by intros []. Qed.

(** The polls of a stream: [None] is pending. *)
Class Polled (T Kind : Type) := {
  poll_read : Z -> SE T Kind (option bytes);
  poll_write : bytes -> SE T Kind (option Z);
  poll_flush : SE T Kind (option unit);
  poll_shutdown : SE T Kind (option unit)
}.

#[global] Instance fault_stream {T Kind : Type} `{!Polled T Kind} :
  Polled (T * gmap StreamMethod (Z * Kind)) Kind := {
  poll_read n := guarded (fun e => e) Read (poll_read n);
  poll_write buf := guarded (fun e => e) Write (poll_write buf);
  poll_flush := delegated poll_flush;
  poll_shutdown := delegated poll_shutdown
}.

(** ** Object stores *)

Inductive ObjectStoreMethod := OGet | OPut | OPutOpts | ODelete | OHead | OList | OListWithDelimiter.

#[global] Instance ObjectStoreMethod_eq_dec : EqDecision ObjectStoreMethod.
Proof. solve_decision. Defined.
Definition object_store_methods : list ObjectStoreMethod :=
  [OGet; OPut; OPutOpts; ODelete; OHead; OList; OListWithDelimiter].
#[global] Program Instance ObjectStoreMethod_countable : Countable ObjectStoreMethod :=
  inj_countable (number_of object_store_methods) (fun n => object_store_methods !! n) _.
Next Obligation. by intros []. Qed.

(** A factory of errors, called once per injected failure. *)
Class ErrorFactory (Factory Err : Type) := make_error : Factory -> Err.

Abbreviation ObjectStoreFaults Factory := (gmap ObjectStoreMethod (Z * Factory)).

(** The requests of the storage. A store is healthy when it has no rule. *)
#[global] Instance fault_object_store {OS Factory : Type} `{!ObjectStore.ObjectStore OS}
  `{!ErrorFactory Factory ObjectStore.OsError} : ObjectStore.ObjectStore (OS * ObjectStoreFaults Factory) := {
  ObjectStore.path_from := ObjectStore.path_from (OS := OS);
  ObjectStore.os_list_root := guarded make_error OListWithDelimiter ObjectStore.os_list_root;
  ObjectStore.os_list prefix := fun '(o, rules) =>
    match check OList rules with
    | (rules', Err e) => ((o, rules'), [Err (make_error e)])
    | (rules', Ok _) => let '(o', items) := ObjectStore.os_list prefix o in ((o', rules'), items)
    end;
  ObjectStore.os_get l := guarded make_error OGet (ObjectStore.os_get l);
  ObjectStore.os_put l b := guarded make_error OPut (ObjectStore.os_put l b);
  ObjectStore.os_delete l := guarded make_error ODelete (ObjectStore.os_delete l);
  ObjectStore.os_objects '(o, _) := ObjectStore.os_objects o;
  ObjectStore.os_healthy '(o, rules) := ObjectStore.os_healthy o /\ rules = ∅
}.

(** The requests of the lock: creating is a put with options, [NOW] is no
    request. *)
Definition fault_handle {Path St Factory : Type} `{Countable Path} {ST : LockRun.Store Path St}
  `{!ErrorFactory Factory Lock.StoreError} (R : Type) (o : Lock.op Path R) :
  St * ObjectStoreFaults Factory -> St * ObjectStoreFaults Factory * R :=
  match o in Lock.op _ R0 return (St * ObjectStoreFaults Factory -> St * ObjectStoreFaults Factory * R0) with
  | Lock.LIST p => guarded make_error OList (LockRun.handle _ (Lock.LIST p))
  | Lock.GET p => guarded make_error OGet (LockRun.handle _ (Lock.GET p))
  | Lock.PUT_CREATE p b => guarded make_error OPutOpts (LockRun.handle _ (Lock.PUT_CREATE p b))
  | Lock.HEAD p => guarded make_error OHead (LockRun.handle _ (Lock.HEAD p))
  | Lock.DELETE p => guarded make_error ODelete (LockRun.handle _ (Lock.DELETE p))
  | Lock.NOW => fun '(s, rules) => let '(s', t) := LockRun.handle _ Lock.NOW s in ((s', rules), t)
  end.

(** ** What a rule does *)

Section Counting.
Context {M E : Type} `{Countable M}.
Implicit Types (rules : gmap M (Z * E)) (before : list M).

(** The counters are those of [NonZeroU32]. *)
Definition well_formed rules : Prop :=
  map_Forall (fun _ '(n, _) => 1 <= n <= U32_MAX) rules.

(** How often a method was called. *)
Definition called (m : M) before : Z := Z.of_nat (length (filter (eq m) before)).

(** The error that a call of [m] is due after the calls [before], when the rules
    were [rules] at their start. *)
Definition due rules before (m : M) : option E :=
  match rules !! m with
  | Some (n, e) => if called m before <? n then Some e else None
  | None => None
  end.

(** The rules that the calls [before] leave of [rules]. *)
Definition leaves rules before (rules' : gmap M (Z * E)) : Prop :=
  forall m, rules' !! m = match rules !! m with
                          | Some (n, e) => if called m before <? n then Some (n - called m before, e) else None
                          | None => None
                          end.

Lemma well_formed_new : well_formed new.
Proof. apply map_Forall_empty. Qed.

Lemma well_formed_set m n e rules : well_formed rules -> well_formed (set m n e rules).
Proof. intros Hr. apply map_Forall_insert_2; [|done]. by destruct n. Qed.

Lemma well_formed_clear m rules : well_formed rules -> well_formed (clear m rules).
Proof. intros Hr. by apply map_Forall_delete. Qed.

Lemma called_nonneg m before : 0 <= called m before.
Proof. unfold called. lia. Qed.

Lemma called_snoc m m' before :
  called m (before ++ [m']) = called m before + (if decide (m = m') then 1 else 0).
Proof. unfold called. rewrite filter_app, length_app, filter_cons, filter_nil. destruct (decide (m = m')); cbn; lia. Qed.

Lemma leaves_nil rules : well_formed rules -> leaves rules [] rules.
Proof.
  intros Hw m. destruct (rules !! m) as [[n e]|] eqn:E1; [|done]. specialize (Hw _ _ E1) as Hn. cbn in Hn.
  change (called m []) with 0. destruct (Z.ltb_spec 0 n); [by rewrite Z.sub_0_r|lia].
Qed.

Lemma leaves_well_formed rules before rules' : well_formed rules -> leaves rules before rules' -> well_formed rules'.
Proof.
  intros Hw Hl m [n e] Hm. rewrite (Hl m) in Hm. destruct (rules !! m) as [[n0 e0]|] eqn:E1; [|done].
  specialize (Hw _ _ E1) as Hn. cbn in Hn. pose proof (called_nonneg m before).
  destruct (Z.ltb_spec (called m before) n0); [|done]. injection Hm as <- <-. lia.
Qed.

(** A check answers what is due. *)
Lemma check_due m rules before rules1 : well_formed rules -> leaves rules before rules1 ->
  exists rules2, leaves rules (before ++ [m]) rules2 /\
    check m rules1 = (rules2, match due rules before m with Some e => Err e | None => Ok tt end).
Proof.
  intros Hw Hl. pose proof (leaves_well_formed _ _ _ Hw Hl) as Hw1. unfold check, due. pose proof (Hl m) as Hm.
  destruct (rules !! m) as [[n e]|] eqn:E1; [destruct (Z.ltb_spec (called m before) n) as [Hlt|Hge]|].
  - rewrite Hm. specialize (Hw1 _ _ Hm) as Hn. cbn in Hn. unfold U32_MAX in Hn.
    rewrite Z.mod_small by lia. eexists. split; [|reflexivity].
    intros m'. rewrite called_snoc. destruct (Z.eqb_spec (n - called m before - 1) 0) as [Hz|Hz].
    + destruct (decide (m' = m)) as [->|Hne]; [|by rewrite lookup_delete_ne, Hl, Z.add_0_r].
      rewrite lookup_delete_eq, E1. by destruct (Z.ltb_spec (called m before + 1) n); [lia|].
    + destruct (decide (m' = m)) as [->|Hne]; [|by rewrite lookup_insert_ne, Hl, Z.add_0_r].
      rewrite lookup_insert_eq, E1. destruct (Z.ltb_spec (called m before + 1) n); [|lia]. do 2 f_equal. lia.
  - rewrite Hm. exists rules1. split; [|done]. intros m'. rewrite called_snoc. destruct (decide (m' = m)) as [->|Hne].
    + rewrite Hm, E1. by destruct (Z.ltb_spec (called m before + 1) n); [lia|].
    + by rewrite Hl, Z.add_0_r.
  - rewrite Hm. exists rules1. split; [|done]. intros m'. rewrite called_snoc. destruct (decide (m' = m)) as [->|Hne].
    + by rewrite Hm, E1.
    + by rewrite Hl, Z.add_0_r.
Qed.

End Counting.
(** ** The contract of an object store *)

Section ObjectStores.
Context {OS Factory : Type} `{!ObjectStore.ObjectStore OS} `{!ObjectStore.ObjectStoreLaws OS}.
Context `{!ErrorFactory Factory ObjectStore.OsError}.
Context (Hfactory : forall e : Factory, make_error e <> ObjectStore.NotFound).
Implicit Types (rules : ObjectStoreFaults Factory).

(** A request of the layer fails as the factory has it, on the same store, or is
    a request of the store; without rules it is the latter. *)
Lemma guarded_cases {A : Type} m (call : SE OS ObjectStore.OsError A) (o : OS) rules
  (Q : OS * ObjectStoreFaults Factory -> result ObjectStore.OsError A -> Prop) :
  (forall rules' e, rules <> ∅ -> e <> ObjectStore.NotFound -> Q (o, rules') (Err e)) ->
  (let '(o', r) := call o in Q (o', rules) r) ->
  let '(s', r) := guarded make_error m call (o, rules) in Q s' r.
Proof.
  intros He Hc. unfold guarded, check. destruct (rules !! m) as [[n e]|] eqn:E1.
  - apply He; [|by apply Hfactory]. intros ->. by rewrite lookup_empty in E1.
  - by destruct (call o).
Qed.

(** A store with injected faults is an object store that may fail: whatever is
    proved of the storage over every object store holds when faults are
    injected below it. *)
#[global] Instance fault_object_store_laws : ObjectStore.ObjectStoreLaws (OS * ObjectStoreFaults Factory).
Proof.
  split.
  - apply (ObjectStore.path_from_plain (OS := OS)).
  - intros [o rules]. apply guarded_cases.
    + intros rules' e Hne _. cbn. split; [done|]. split; [by intros [_ ?]|done].
    + pose proof (ObjectStore.list_root_law o) as Hlaw. destruct (ObjectStore.os_list_root o) as [o' r].
      destruct Hlaw as (H1 & H2 & H3). cbn. split; [done|]. split; [|done]. intros [Ho ->]. by destruct (H2 Ho).
  - intros dir [o rules]. cbn. unfold check. destruct (rules !! OList) as [[n e]|] eqn:E1.
    + split; [done|]. split; [intros l Hl; by apply list_elem_of_singleton in Hl|].
      intros [_ ->]. by rewrite lookup_empty in E1.
    + pose proof (ObjectStore.list_law dir o) as Hlaw. destruct (ObjectStore.os_list dir o) as [o' items].
      destruct Hlaw as (H1 & H2 & H3). split; [done|]. split; [done|]. intros [Ho ->]. by destruct (H3 Ho) as (? & ? & ?).
  - intros l [o rules]. apply guarded_cases.
    + intros rules' e Hne Hnf. cbn. split; [done|]. split; [done|]. split; [congruence|]. by intros [_ ?].
    + pose proof (ObjectStore.get_law l o) as Hlaw. destruct (ObjectStore.os_get l o) as [o' r].
      destruct Hlaw as (H1 & H2 & H3 & H4). cbn. split_and!; [done..|]. intros [Ho ->]. by destruct (H4 Ho).
  - intros l b [o rules]. apply guarded_cases.
    + intros rules' e Hne _. cbn. split; [by right|]. by intros [_ ?].
    + pose proof (ObjectStore.put_law l b o) as Hlaw. destruct (ObjectStore.os_put l b o) as [o' r].
      destruct Hlaw as (H1 & H2). cbn. split; [done|]. intros [Ho ->]. by destruct (H2 Ho).
  - intros l [o rules]. apply guarded_cases.
    + intros rules' e Hne _. cbn. split; [by right|]. by intros [_ ?].
    + pose proof (ObjectStore.delete_law l o) as Hlaw. destruct (ObjectStore.os_delete l o) as [o' r].
      destruct Hlaw as (H1 & H2). cbn. split; [done|]. intros [Ho ->] Hl. by destruct (H2 Ho Hl).
Qed.

End ObjectStores.

(** ** Calls of a folder *)

(** The calls of the trait [StorageFolder], and their answers. *)
Inductive Call :=
| CallIndex (since : Z)
| CallReadBlock (name : bytes) (offset size : Z) (hash : bytes)
| CallApplyUpdate (file : bep.FileInfo) (device : bytes)
| CallLocalSequence
| CallRemoteState (device : bytes)
| CallSetRemoteState (device : bytes) (st : RemoteIndexState)
| CallResolveConflict (winner loser : bep.FileInfo) (path : option bytes)
| CallStoreBlock (name : bytes) (offset : Z) (hash data : bytes)
| CallCompleteFile (name : bytes) (version : option bep.Vector)
| CallReuseBlock (name : bytes) (offset : Z) (hash : bytes) (size : Z).

Inductive Answer :=
| AFiles (l : list (result StorageError.t bep.FileInfo))
| ABytes (b : bytes)
| AUpdate (u : UpdateResult)
| ASequence (n : Z)
| AState (st : RemoteIndexState)
| AUnit
| AFile (f : option bep.FileInfo)
| ABool (b : bool).

Definition method_of (c : Call) : StorageMethod :=
  match c with
  | CallIndex _ => MIndex
  | CallReadBlock _ _ _ _ => MReadBlock
  | CallApplyUpdate _ _ => MApplyUpdate
  | CallLocalSequence => MLocalSequence
  | CallRemoteState _ => MRemoteState
  | CallSetRemoteState _ _ => MSetRemoteState
  | CallResolveConflict _ _ _ => MResolveConflict
  | CallStoreBlock _ _ _ _ => MStoreBlock
  | CallCompleteFile _ _ => MCompleteFile
  | CallReuseBlock _ _ _ _ => MReuseBlock
  end.

Definition answer {Sto A : Type} (m : SE Sto StorageError.t A) (into : A -> Answer) : SE Sto StorageError.t Answer :=
  do! a <- m; se_ret (into a).

Definition exec {Sto F : Type} `{!StorageFolder Sto F} (f : F) (c : Call) : SE Sto StorageError.t Answer :=
  match c with
  | CallIndex since => answer (sf_index f since) AFiles
  | CallReadBlock name offset size hash => answer (sf_read_block f name offset size hash) ABytes
  | CallApplyUpdate file device => answer (sf_apply_update f file device) AUpdate
  | CallLocalSequence => answer (sf_local_sequence f) ASequence
  | CallRemoteState device => answer (sf_remote_state f device) AState
  | CallSetRemoteState device st => answer (sf_set_remote_state f device st) (fun _ => AUnit)
  | CallResolveConflict winner loser path => answer (sf_resolve_conflict f winner loser path) (fun _ => AUnit)
  | CallStoreBlock name offset hash data => answer (sf_store_block f name offset hash data) (fun _ => AUnit)
  | CallCompleteFile name version => answer (sf_complete_file f name version) AFile
  | CallReuseBlock name offset hash size => answer (sf_reuse_block f name offset hash size) ABool
  end.

(** The calls one after the other, with all their answers. *)
Fixpoint run {Sto F : Type} `{!StorageFolder Sto F} (f : F) (cs : list Call) (s : Sto) :
  Sto * list (result StorageError.t Answer) :=
  match cs with
  | [] => (s, [])
  | c :: cs' => let '(s1, r) := exec f c s in let '(s2, rs) := run f cs' s1 in (s2, r :: rs)
  end.

Section Layer.
Context {Sto F : Type} `{!Storage Sto F}.
Implicit Types (rules : FaultConfig) (f : F) (c : Call).

(** What the layer is for: a call that is due an error gets it and does not
    reach the storage, every other call is answered by the storage. *)
Fixpoint run_injected rules (before : list StorageMethod) f (cs : list Call) (s : Sto) :
  Sto * list (result StorageError.t Answer) :=
  match cs with
  | [] => (s, [])
  | c :: cs' =>
      let '(s1, r) := match due rules before (method_of c) with
                      | Some e => (s, Err e)
                      | None => exec f c s
                      end in
      let '(s2, rs) := run_injected rules (before ++ [method_of c]) f cs' s1 in (s2, r :: rs)
  end.

Lemma exec_fault f c (s : Sto) rules :
  exec (mkFaultFolder f) c (s, rules) = guard (method_of c) (exec f c) (s, rules).
Proof.
  destruct c; cbn; unfold answer, guard, guarded, se_bind, se_ret;
    match goal with |- context [check ?m rules] => destruct (check m rules) as [rules' [[]|e]]; [|done] end;
    match goal with |- context [?m s] => destruct (m s) as [s' [a|e]] end; done.
Qed.

Lemma run_injected_from rules before f cs (s : Sto) rules1 :
  well_formed rules -> leaves rules before rules1 ->
  exists rules2, leaves rules (before ++ map method_of cs) rules2 /\
    run (mkFaultFolder f) cs (s, rules1) =
      (let '(s', rs) := run_injected rules before f cs s in ((s', rules2), rs)).
Proof.
  intros Hw. revert before s rules1. induction cs as [|c cs IH]; intros before s rules1 Hl.
  - exists rules1. rewrite app_nil_r. done.
  - destruct (check_due (method_of c) _ _ _ Hw Hl) as (rules2 & Hl2 & Hc). cbn [run run_injected map].
    rewrite exec_fault. unfold guard, guarded. rewrite Hc.
    destruct (match due rules before (method_of c) with Some e => (s, Err e) | None => exec f c s end) as [s1 r] eqn:Er.
    destruct (IH _ s1 _ Hl2) as (rules3 & Hl3 & Hrun). exists rules3. split; [by rewrite <- app_assoc in Hl3|].
    destruct (due rules before (method_of c)) as [e|].
    + injection Er as <- <-. rewrite Hrun. by destruct (run_injected _ _ _ _ _).
    + rewrite Er, Hrun. by destruct (run_injected _ _ _ _ _).
Qed.

(** A fault layer injects exactly the errors that were asked for. Over any
    storage, for any rules with valid counters and any sequence of calls of a
    folder: the answers and the storage are those of a run in which the first
    calls of each method, as many as its rule says, get the error of the rule
    without reaching the storage, and every other call is answered by the
    storage; a rule is gone once it is used up, and the counters never
    underflow. *)
Theorem faults_exact rules f cs (s : Sto) (Hw : well_formed rules) :
  let '((s', rules'), answers) := run (mkFaultFolder f) cs (s, rules) in
  (s', answers) = run_injected rules [] f cs s /\
  leaves rules (map method_of cs) rules' /\ well_formed rules'.
Proof.
  destruct (run_injected_from rules [] f cs s rules Hw (leaves_nil _ Hw)) as (rules2 & Hl & ->).
  destruct (run_injected rules [] f cs s) as [s' rs]. cbn [app] in Hl. eauto using leaves_well_formed.
Qed.

(** *** Faults and retries *)

Lemma check_set m (n : NonZeroU32) e rules :
  check m (set m n e rules) =
    (if nz_get n =? 1 then delete m rules else <[ m := (nz_get n - 1, e) ]> rules, Err e).
Proof.
  unfold check, set. rewrite lookup_insert_eq, insert_insert_eq, delete_insert_eq.
  destruct n as [n Hn]. cbn [nz_get proj1_sig]. unfold U32_MAX in Hn. rewrite Z.mod_small by lia.
  destruct (Z.eqb_spec (n - 1) 0), (Z.eqb_spec n 1); (lia || done).
Qed.

(** [k] of the [n] failures. *)
Lemma fails_injected f c (s : Sto) rules msg (k : nat) (n : Z) :
  Z.of_nat k <= n <= U32_MAX ->
  let m := method_of c in
  let rule n := if n =? 0 then delete m rules else <[ m := (n, StorageError.TransientIo msg) ]> rules in
  Retry.fails_transiently (exec (mkFaultFolder f) c) k (s, rule n) (s, rule (n - Z.of_nat k)).
Proof.
  intros Hk m rule. revert n Hk. induction k as [|k IH]; intros n Hk.
  - cbn. by rewrite Z.sub_0_r.
  - cbn [Retry.fails_transiently]. assert (1 <= n <= U32_MAX) as Hn by lia.
    exists (s, rule (n - 1)), msg. split.
    + rewrite exec_fault. unfold guard, guarded, rule. destruct (Z.eqb_spec n 0) as [|Hz]; [lia|].
      pose proof (check_set m (exist _ n Hn) (StorageError.TransientIo msg) rules) as Hc.
      unfold set in Hc. cbn [nz_get proj1_sig] in Hc. fold m. rewrite Hc. cbn. do 2 f_equal.
      destruct (Z.eqb_spec n 1), (Z.eqb_spec (n - 1) 0); (lia || done).
    + replace (n - Z.of_nat (S k)) with (n - 1 - Z.of_nat k) by lia. apply IH. lia.
Qed.

(** The call that follows the [n] failures. *)
Lemma exec_cleared f c (s : Sto) rules :
  exec (mkFaultFolder f) c (s, clear (method_of c) rules) =
    (let '(s', r) := exec f c s in ((s', clear (method_of c) rules), r)).
Proof. rewrite exec_fault. unfold guard, guarded, check, clear. by rewrite lookup_delete_eq. Qed.

(** C39: injected transient faults are masked by retrying up to the number of
    retries, and no further. When the next [n] calls of a method are made to
    fail transiently and the policy retries the first [max] transient failures
    (no shutdown meanwhile): if [n] is at most [max], retrying the call gives
    what one undisturbed call of the storage gives (its value, or its error
    when that is not transient), and the rule is used up; if [n] is larger, the
    storage is never reached, the caller gets the injected error as the policy
    maps it, and [n - max - 1] failures are left. *)
Theorem transient_faults_masked (policy : Retry.RetryPolicy) (max : Z) (cancelled : Z -> bool)
  f c (s s' : Sto) (r : result StorageError.t Answer) rules (n : NonZeroU32) (msg : string)
  (Hp : Retry.retries_transient policy max)
  (Hc : forall i, 0 <= i < Z.min (nz_get n) max -> cancelled i = false)
  (Hcall : exec f c s = (s', r)) (Hr : forall e, r = Err e -> Retry.matches_transient e = false) :
  let error := StorageError.TransientIo msg in
  let start := (s, set (method_of c) n error rules) in
  Retry.retry_storage_op max policy cancelled (exec (mkFaultFolder f) c) start =
    Some (if nz_get n <=? max
          then ((s', clear (method_of c) rules), match r with Ok v => Ok v | Err e => Err (Retry.map_error policy e) end)
          else ((s, if nz_get n - max - 1 =? 0 then clear (method_of c) rules
                    else <[ method_of c := (nz_get n - max - 1, error) ]> rules),
                Err (Retry.map_error policy error))).
Proof.
  intros error start. destruct n as [n Hn]. cbn [nz_get proj1_sig] in *. pose proof (proj1 Hp) as Hmax.
  assert (start = (s, if n =? 0 then delete (method_of c) rules else <[ method_of c := (n, error) ]> rules)) as ->.
  { unfold start, set. cbn. destruct (Z.eqb_spec n 0); [lia|done]. }
  destruct (Z.leb_spec n max) as [Hle|Hgt].
  - eapply (Retry.retry_result policy max cancelled _ (Z.to_nat n)); [done|lia|apply fails_injected; lia| | |].
    + rewrite Z2Nat.id, Z.sub_diag by lia. etrans; [apply exec_cleared|]. by rewrite Hcall.
    + intros i Hi. apply Hc. lia.
    + intros e He. right. by apply Hr.
  - eapply (Retry.retry_result policy max cancelled _ (Z.to_nat max) _ _ _ (Err error));
      [done|lia|apply fails_injected; lia| | |].
    + rewrite exec_fault. unfold guard, guarded. destruct (Z.eqb_spec (n - Z.of_nat (Z.to_nat max)) 0); [lia|].
      assert (1 <= n - Z.of_nat (Z.to_nat max) <= U32_MAX) as Hn2 by lia.
      pose proof (check_set (method_of c) (exist _ _ Hn2) error rules) as Hk. unfold set in Hk.
      cbn [nz_get proj1_sig] in Hk. unfold error in Hk. rewrite Hk. cbn. do 2 f_equal.
      replace (n - Z.of_nat (Z.to_nat max)) with (n - max) by lia.
      destruct (Z.eqb_spec (n - max) 1), (Z.eqb_spec (n - max - 1) 0); (lia || done).
    + intros i Hi. apply Hc. lia.
    + intros e He. left. lia.
Qed.

End Layer.
End Fault.
