(* ===== verification/MemStorage.v ===== *)
(** The in-memory storage that the tests of the protocol use
    ([bepository-bep/src/test_utils.rs]): [MemoryStorage] and its folder handles
    as instances of the storage traits. Clones share their maps, so the maps are
    the state. The order of a hash map is arbitrary; here it is that of
    [map_to_list]. *)

From Stdlib Require Import ZArith Lia.
From stdpp Require Import base gmap list sorting strings.
From S2P Require Import Prelude BepTypes Codec StoreKeys Conflict DeviceId Messages Retry Kv Activation Fault.

Local Open Scope Z_scope.
Local Open Scope bep_scope.

Module MemStorage.

(** ** Data *)

Record MemoryStorage := mkMemory {
  index : gmap (bytes * bytes) bep.FileInfo;
  inbox : gmap (bytes * bytes) bep.FileInfo;
  blocks : gmap bytes bytes;
  sequences : gmap bytes Z;
  remote_states : gmap (bytes * bytes) RemoteIndexState;
  labels : gmap bytes bytes
}.

Definition new : MemoryStorage := mkMemory ∅ ∅ ∅ ∅ ∅ ∅.

Definition set_index (m : MemoryStorage) x := mkMemory x (inbox m) (blocks m) (sequences m) (remote_states m) (labels m).
Definition set_inbox (m : MemoryStorage) x := mkMemory (index m) x (blocks m) (sequences m) (remote_states m) (labels m).
Definition set_blocks (m : MemoryStorage) x := mkMemory (index m) (inbox m) x (sequences m) (remote_states m) (labels m).
Definition set_sequences (m : MemoryStorage) x := mkMemory (index m) (inbox m) (blocks m) x (remote_states m) (labels m).
Definition set_states (m : MemoryStorage) x := mkMemory (index m) (inbox m) (blocks m) (sequences m) x (labels m).
Definition set_labels (m : MemoryStorage) x := mkMemory (index m) (inbox m) (blocks m) (sequences m) (remote_states m) x.

Record MemoryFolder := mkMemFolder { folder : bytes; label : bytes }.

Abbreviation MM := (SE MemoryStorage StorageError.t).

(** ** Folders *)

Definition LABEL_FOR : bytes := lit "LabelFor".

Definition mem_folder (id : bytes) : MM MemoryFolder :=
  do! m <- se_get;
  se_ret (mkMemFolder id (default (LABEL_FOR ++ id) (labels m !! id))).

Definition list_folders : MM (list (bytes * bytes * bytes)) :=
  do! m <- se_get;
  se_ret (merge_sort Activation.triple_le (map (fun '(id, label) => (id, label, id)) (map_to_list (labels m)))).

Fixpoint ensure_folders (folders : list (bytes * bytes)) : MM (list bool) :=
  match folders with
  | [] => se_ret []
  | (id, label) :: folders' =>
      do! m <- se_get;
      let is_new := bool_decide (labels m !! id = None) in
      run! se_modify (fun m => set_labels m (<[ id := label ]> (labels m)));
      do! created <- ensure_folders folders';
      se_ret (is_new :: created)
  end.

(** ** Folder operations *)

(** [seqs.entry(folder).or_insert(0)], one more, and the file in the index under
    its name. *)
Definition commit (f : MemoryFolder) (file : bep.FileInfo) : MM bep.FileInfo :=
  do! m <- se_get;
  let seq := default 0 (sequences m !! folder f) + 1 in
  let stored := bep_set_sequence file seq in
  run! se_modify (fun m => set_index (set_sequences m (<[ folder f := seq ]> (sequences m)))
                             (<[ (folder f, bep.name file) := stored ]> (index m)));
  se_ret stored.

Definition stage (f : MemoryFolder) (file : bep.FileInfo) : MM UpdateResult :=
  run! se_modify (fun m => set_inbox m (<[ (folder f, bep.name file) := file ]> (inbox m)));
  se_ret (NeedBlocks file).

(** [<[u8; 32]>::try_from]. *)
Definition is_hash (h : bytes) : bool := Nat.eqb (length h) 32.

Definition block_present (hash : bytes) : MM bool :=
  do! m <- se_get;
  se_ret (is_hash hash && bool_decide (is_Some (blocks m !! hash))).

Definition mem_index (f : MemoryFolder) (since : Z) : MM (list (result StorageError.t bep.FileInfo)) :=
  do! m <- se_get;
  se_ret (map (fun e => Ok (snd e))
    (filter (fun e : (bytes * bytes) * bep.FileInfo => fst (fst e) = folder f /\ since < bep.sequence (snd e))
       (map_to_list (index m)))).

Definition check_hash (hash : bytes) : MM unit :=
  if is_hash hash then se_ret tt else se_err (StorageError.InvalidInput "block hash must be 32 bytes").

Definition mem_read_block (hash : bytes) : MM bytes :=
  run! check_hash hash;
  do! m <- se_get;
  se_lift (ok_or (blocks m !! hash) (StorageError.NotFound "block not found")).

Definition mem_apply_update (f : MemoryFolder) (remote_file : bep.FileInfo) : MM UpdateResult :=
  do! m <- se_get;
  match index m !! (folder f, bep.name remote_file) with
  | None => stage f remote_file
  | Some local =>
      match bep.version local, bep.version remote_file with
      | Some lv, Some rv =>
          do! o <- se_lift (map_err (fun _ => StorageError.Corruption "version vector") (Conflict.compare lv rv));
          match o with
          | Conflict.Less =>
              if blocks_equal local remote_file then
                do! stored <- commit f remote_file; se_ret (Applied stored)
              else stage f remote_file
          | Conflict.Greater | Conflict.Equal => se_ret NoAction
          | Conflict.Concurrent => se_ret (UpdateConcurrent local remote_file)
          end
      | _, _ => stage f remote_file
      end
  end.

Definition mem_complete_file (f : MemoryFolder) (name : bytes) (expected_version : option bep.Vector) :
  MM (option bep.FileInfo) :=
  do! m <- se_get;
  let key := (folder f, name) in
  match inbox m !! key with
  | Some file =>
      if bool_decide (bep.version file <> expected_version) then se_ret None
      else
        run! se_modify (fun m => set_inbox m (delete key (inbox m)));
        do! m <- se_get;
        let seq := default 0 (sequences m !! folder f) + 1 in
        let stored := bep_set_sequence file seq in
        run! se_modify (fun m => set_index (set_sequences m (<[ folder f := seq ]> (sequences m)))
                                   (<[ key := stored ]> (index m)));
        se_ret (Some stored)
  | None => se_ret None
  end.

Definition mem_local_sequence (f : MemoryFolder) : MM Z :=
  do! m <- se_get; se_ret (default 0 (sequences m !! folder f)).

(** [DeviceId::to_string]; ids are 32 bytes, which it prints. *)
Definition device_text (device : bytes) : bytes :=
  match DeviceId.fmt device with Ok t => t | Err _ => [] end.

Definition mem_remote_state (f : MemoryFolder) (device : bytes) : MM RemoteIndexState :=
  do! m <- se_get;
  se_ret (default (mkRemoteState 0 0) (remote_states m !! (folder f, device_text device))).

Definition mem_set_remote_state (f : MemoryFolder) (device : bytes) (st : RemoteIndexState) : MM unit :=
  se_modify (fun m => set_states m (<[ (folder f, device_text device) := st ]> (remote_states m))).

Definition mem_resolve_conflict (f : MemoryFolder) (winner loser : bep.FileInfo) (loser_path : option bytes) : MM unit :=
  do! _ <- commit f winner;
  match loser_path with
  | Some path => do! _ <- commit f (bep_set_name loser path); se_ret tt
  | None => se_ret tt
  end.

Definition mem_store_block (hash data : bytes) : MM unit :=
  run! check_hash hash;
  se_modify (fun m => set_blocks m (<[ hash := data ]> (blocks m))).

(** [impl StorageFolder for MemoryFolder]. *)
#[global] Instance memory_folder : StorageFolder MemoryStorage MemoryFolder := {
  sf_id := folder;
  sf_label := label;
  sf_index := mem_index;
  sf_read_block _ _ _ _ hash := mem_read_block hash;
  sf_apply_update f file _ := mem_apply_update f file;
  sf_local_sequence := mem_local_sequence;
  sf_remote_state := mem_remote_state;
  sf_set_remote_state := mem_set_remote_state;
  sf_resolve_conflict := mem_resolve_conflict;
  sf_store_block _ _ _ hash data := mem_store_block hash data;
  sf_complete_file := mem_complete_file;
  sf_reuse_block _ _ _ hash _ := block_present hash
}.

(** [impl Storage for MemoryStorage]. *)
#[global] Instance memory_storage : Storage MemoryStorage MemoryFolder := {
  st_folder := mem_folder;
  st_list_folders := list_folders;
  st_ensure_folders := ensure_folders
}.

(** ** Inspection by tests *)

Definition on_state {E A : Type} (g : MemoryStorage -> A) : SE MemoryStorage E A := fun m => (m, Ok (g m)).

(** [block_hash]; it panics where there is no such block. *)
Definition block_hash (f : MemoryFolder) (name : bytes) (offset : Z) : SE MemoryStorage Panic bytes := fun m =>
  (m, try file <- ok_or (index m !! (folder f, name)) panicked;
      try b <- ok_or (snd <$> list_find (fun b => bep.offset b = offset) (bep.blocks file)) panicked;
      if is_hash (bep.hash b) then Ok (bep.hash b) else Err panicked).

Definition insert_file (f : MemoryFolder) (file : bep.FileInfo) : SE MemoryStorage Panic unit := fun m =>
  let seq := default 0 (sequences m !! folder f) + 1 in
  (set_index (set_sequences m (<[ folder f := seq ]> (sequences m)))
     (<[ (folder f, bep.name file) := bep_set_sequence file seq ]> (index m)), Ok tt).

Definition insert_block (f : MemoryFolder) (name : bytes) (offset : Z) (data : bytes) : SE MemoryStorage Panic unit :=
  do! hash <- block_hash f name offset;
  se_modify (fun m => set_blocks m (<[ hash := data ]> (blocks m))).

Definition get_block (f : MemoryFolder) (name : bytes) (offset : Z) : SE MemoryStorage Panic (option bytes) :=
  do! hash <- block_hash f name offset;
  on_state (fun m => blocks m !! hash).

#[global] Instance memory_inspector : StorageInspector MemoryStorage MemoryFolder unit := {
  si_insert_file := insert_file;
  si_insert_block := insert_block;
  si_get_file f name := on_state (fun m => index m !! (folder f, name));
  si_get_inbox_file f _ name := on_state (fun m => inbox m !! (folder f, name));
  si_get_block := get_block;
  si_has_block _ _ _ hash _ := block_present hash
}.

(** *** Values for tests *)

Definition make_device (byte : Z) : bytes := repeat byte 32.
Definition LOCAL_DEV : bytes := repeat 1 32.
Definition REMOTE_DEV : bytes := repeat 255 32.
Definition TEST_BLOCK_SIZE : Z := 1024.

(** [FileInfo::default] with these fields. *)
Definition file_with (name : bytes) (size : Z) (version : option bep.Vector) (blocks : list bep.BlockInfo)
  (block_size : Z) (deleted : bool) : bep.FileInfo :=
  bep.mkFileInfo name size 0 0 version 0 blocks [] [] [] [] 0 0 0 block_size None 0 [] 0 0 deleted false false.

Definition vector_of (counters : list (Z * Z)) : bep.Vector :=
  bep.mkVector (map (fun '(id, value) => bep.mkCounter id value) counters).

Definition make_file (name : bytes) (counters : list (Z * Z)) (deleted : bool) : bep.FileInfo :=
  file_with name 0 (Some (vector_of counters)) [] 0 deleted.

Definition make_file_with_blocks (name : bytes) (counters : list (Z * Z)) (block_hashes : list bytes) : bep.FileInfo :=
  file_with name (Z.of_nat (length block_hashes) * TEST_BLOCK_SIZE) (Some (vector_of counters))
    (imap (fun i hash => bep.mkBlockInfo hash (Z.of_nat i * TEST_BLOCK_SIZE) TEST_BLOCK_SIZE) block_hashes)
    TEST_BLOCK_SIZE false.

(** ** Faults over the in-memory storage *)

Definition toy_folder : MemoryFolder := mkMemFolder (lit "f") (lit "F").
Definition toy_error : StorageError.t := StorageError.TransientIo "flaky".
Program Definition two : Fault.NonZeroU32 := exist _ 2 _.
Next Obligation. by vm_compute. Qed.
Definition toy_rules : gmap Fault.StorageMethod (Z * StorageError.t) := Fault.set Fault.MStoreBlock two toy_error ∅.
Definition toy_hash : bytes := repeat 9 32.
Definition toy_store : Fault.Call := Fault.CallStoreBlock (lit "n") 0 toy_hash [1; 2; 3].
Definition toy_read : Fault.Call := Fault.CallReadBlock (lit "n") 0 3 toy_hash.

(** Two calls fail; the third reaches the storage, and so do the others. *)
Lemma faults_exact_witness :
  snd (Fault.run (Fault.mkFaultFolder toy_folder) [toy_store; toy_read; toy_store; toy_store; toy_read] (new, toy_rules)) =
    [Err toy_error; Err (StorageError.NotFound "block not found"); Err toy_error; Ok Fault.AUnit; Ok (Fault.ABytes [1; 2; 3])].
Proof.
  pose proof (Fault.faults_exact toy_rules toy_folder [toy_store; toy_read; toy_store; toy_store; toy_read] new
    (Fault.well_formed_set _ _ _ _ Fault.well_formed_new)) as H.
  destruct (Fault.run (Fault.mkFaultFolder toy_folder) _ _) as [[s rules] answers].
  destruct H as [H _]. cbn [snd]. apply (f_equal snd) in H. cbn [snd] in H. rewrite H. vm_compute. reflexivity.
Defined.

(** The default backoff rides out two failures. *)
Lemma transient_faults_masked_witness :
  Retry.retry_storage_op 10 (Retry.exponential Retry.default_backoff) (fun _ => false)
    (Fault.exec (Fault.mkFaultFolder toy_folder) toy_store) (new, toy_rules) =
  Some ((fst (mem_store_block toy_hash [1; 2; 3] new), Fault.clear Fault.MStoreBlock ∅), Ok Fault.AUnit).
Proof.
  pose proof (Fault.transient_faults_masked (Retry.exponential Retry.default_backoff) 10 (fun _ => false)
    toy_folder toy_store new (fst (mem_store_block toy_hash [1; 2; 3] new)) (Ok Fault.AUnit) ∅ two "flaky"
    (Retry.exponential_retries_transient Retry.default_backoff ltac:(by vm_compute))) as H.
  apply H; [done|reflexivity|done].
Defined.

End MemStorage.
