(* ===== verification/MemAgree.v ===== *)
(** The in-memory storage of the tests against the folder store: what a test of
    the protocol over [MemoryStorage] says about the protocol over
    [SlateStorage]. The two are related when they hold the same index, the same
    last sequence number and the same staged files; related storages answer the
    calls that concern the index alike. *)

From Stdlib Require Import ZArith Lia Sorting.Sorted.
From stdpp Require Import base gmap list strings.
From S2P Require Import Prelude BepTypes Base32 StoreKeys Codec Conflict Validate.
From S2P Require Import ProtoConv Kv GcState Store StoreTape StoreWp StoreIndex Folder.
From S2P Require Import Messages ConnectionFolder Fault MemStorage.

Local Open Scope Z_scope.
Local Open Scope bep_scope.

Module MemAgree.
Import StoreKeys Kv Store StoreWp StoreIndex Folder ConnectionFolder Fault MemStorage.

Section Agree.
Context {Db : Type} `{!SlateDb Db} {SC : StoreCodecs}.
Context {HF SF : Type} `{!GcState.Bloom bytes HF} `{!GcState.Bloom Z SF}.
Context `{!SlateDbLaws Db} {SL : StoreCodecLaws}.
Abbreviation FS := (FolderStore Db HF SF).
Implicit Types (idx : gmap bytes storage.FileInfo) (c : contents) (m : MemoryStorage) (mf : MemoryFolder).

(** ** Files *)

(** The kinds of files that are stored as they are. *)
Definition plain_type (f : bep.FileInfo) : Prop := ProtoConv.normal_type (bep.type_ f) = bep.type_ f.

Lemma wire_storage (f : bep.FileInfo) : plain_type f -> wire (ProtoConv.file_to_storage f) = f.
Proof. intros Hp. unfold wire. rewrite ProtoConv.file_conv, Hp. by destruct f. Qed.

Lemma map_block_carry (old new : list storage.BlockInfo) :
  map ProtoConv.block_to_bep (map (carry_block old) new) = map ProtoConv.block_to_bep new.
Proof.
  rewrite map_map. apply map_ext. intros b. unfold carry_block. repeat case_match; done.
Qed.

Lemma wire_commit (st : storage.FileInfo) (prior : option storage.FileInfo) (max : Z) :
  is_ok (ProtoConv.file_to_bep st) = true ->
  wire (commit_file st prior max) = bep_set_sequence (wire st) (max + 1).
Proof.
  unfold wire, commit_file, carried, ProtoConv.file_to_bep. destruct prior as [old|]; cbn;
    destruct (ProtoConv.storage_type_to_bep (storage.type_ st)); cbn; [|done| |done]; intros _;
    by rewrite ?map_block_carry.
Qed.

Lemma wire_Ok (st : storage.FileInfo) : is_ok (ProtoConv.file_to_bep st) = true ->
  bep.version (wire st) = ProtoConv.vector_to_bep <$> storage.version st /\ bep.name (wire st) = storage.name st /\
  bep.sequence (wire st) = storage.sequence st.
Proof. intros Hw%wire_ok%ProtoConv.file_to_bep_Ok. naive_solver. Qed.

(** ** Related storages *)

Definition staged_ok (n : bytes) (staged : option storage.FileInfo) : Prop :=
  forall st, staged = Some st -> storage.name st = n /\ is_ok (ProtoConv.file_to_bep st) = true.

Record agree (mf : MemoryFolder) (ep : Base32.Epoch) (m : MemoryStorage) (c : contents) (max : Z)
  (idx : gmap bytes storage.FileInfo) : Prop := mkAgree {
  ag_index : Index c max idx;
  ag_max : default 0 (sequences m !! folder mf) = max;
  ag_files : forall n, index m !! (folder mf, n) = wire <$> idx !! n;
  ag_inbox : forall n, name_ok n -> exists staged, staged_ok n staged /\
    c !! inbox_key ep n = inbox_bytes <$> staged /\ inbox m !! (folder mf, n) = wire <$> staged
}.

(** The other folders of a memory storage play no part. *)
Lemma agree_new mf ep : agree mf ep new ∅ 0 ∅.
Proof. split; [apply Index_empty|done|by intros n; rewrite !lookup_empty|]. intros n _. by exists None. Qed.

Lemma agree_staged mf ep m c max idx file :
  epoch_ok ep -> name_ok (bep.name file) -> plain_type file -> agree mf ep m c max idx ->
  agree mf ep (set_inbox m (<[ (folder mf, bep.name file) := file ]> (inbox m))) (staged_in ep file c) max idx.
Proof.
  intros He Hn Hp [Hi Hx Hf Hb]. split; [by apply Index_staged|done|done|]. intros n Hn'. cbn.
  unfold staged_in. destruct (decide (n = bep.name file)) as [->|Hne].
  - exists (Some (ProtoConv.file_to_storage file)). rewrite !lookup_insert_eq. cbn. rewrite wire_storage by done.
    split; [|done]. intros st [= <-]. split; [done|apply file_to_storage_type].
  - destruct (Hb n Hn') as (staged & Hs & Hr & Hm). exists staged. split; [done|].
    rewrite !lookup_insert_ne; [done|congruence|].
    change (encode_key (KInbox ep (bep.name file)) <> encode_key (KInbox ep n)).
    intros E%encode_key_inj; [congruence|done..].
Qed.

(** The rows of the inbox that a commit leaves. *)
Lemma commit_other_inbox ep c max idx n n' st b :
  Index c max idx -> name_ok n -> name_ok n' -> epoch_ok ep -> max < I64_MAX ->
  apply_batch b c !! inbox_key ep n' = c !! inbox_key ep n' ->
  apply_batch (commit_batch n st b c idx max) c !! inbox_key ep n' = c !! inbox_key ep n'.
Proof.
  intros Hi Hn Hn' He Hmax Hb. unfold commit_batch. rewrite apply_batch_app.
  change (inbox_key ep n') with (encode_key (KInbox ep n')) in *.
  rewrite (ops_on_other (fun K => ~ foreign K)); [done| |done|by intros Hf; apply Hf].
  pose proof (ix_max _ _ _ Hi) as Hm. apply commit_rows_keys; [done| |].
  - unfold commit_file, u64_ok, I64_MAX in *. simpl. lia.
  - intros old Hold. destruct (ix_idx _ _ _ Hi n old Hold) as (_ & _ & Hq & _). eapply seq_u64; [exact Hq|apply Hm].
Qed.

(** The memory storage after a commit. *)
Definition committed mf (n : bytes) (stored : bep.FileInfo) (seq : Z) (m : MemoryStorage) : MemoryStorage :=
  set_index (set_sequences m (<[ folder mf := seq ]> (sequences m))) (<[ (folder mf, n) := stored ]> (index m)).

Lemma committed_files mf m n idx st max :
  (forall n, index m !! (folder mf, n) = wire <$> idx !! n) -> is_ok (ProtoConv.file_to_bep st) = true ->
  forall n', index (committed mf n (bep_set_sequence (wire st) (max + 1)) (max + 1) m) !! (folder mf, n') =
             wire <$> <[n := commit_file st (idx !! n) max]> idx !! n'.
Proof.
  intros Hf Ht n'. cbn. destruct (decide (n' = n)) as [->|Hne].
  - rewrite !lookup_insert_eq. cbn. by rewrite wire_commit.
  - rewrite !lookup_insert_ne by congruence. apply Hf.
Qed.

Lemma agree_put mf ep m c max idx file :
  epoch_ok ep -> name_ok (bep.name file) -> plain_type file -> max < I64_MAX -> agree mf ep m c max idx ->
  agree mf ep (committed mf (bep.name file) (bep_set_sequence file (max + 1)) (max + 1) m)
    (apply_batch (commit_batch (bep.name file) (ProtoConv.file_to_storage file) [] c idx max) c) (max + 1)
    (<[bep.name file := commit_file (ProtoConv.file_to_storage file) (idx !! bep.name file) max]> idx).
Proof.
  intros He Hn Hp Hmax [Hi Hx Hf Hb]. split.
  - by apply put_rows_Index.
  - cbn. by rewrite lookup_insert_eq.
  - pose proof (committed_files mf m (bep.name file) idx _ max Hf (file_to_storage_type file)) as Hc.
    by rewrite wire_storage in Hc.
  - intros n' Hn'. destruct (Hb n' Hn') as (staged & Hs & Hr & Hm). exists staged.
    by rewrite commit_other_inbox.
Qed.

Lemma agree_completed mf ep m c max idx n st :
  epoch_ok ep -> name_ok n -> max < I64_MAX -> storage.name st = n -> is_ok (ProtoConv.file_to_bep st) = true ->
  agree mf ep m c max idx ->
  agree mf ep (committed mf n (bep_set_sequence (wire st) (max + 1)) (max + 1)
                 (set_inbox m (delete (folder mf, n) (inbox m))))
    (apply_batch (commit_batch n st [BDelete (inbox_key ep n)] c idx max) c) (max + 1)
    (<[n := commit_file st (idx !! n) max]> idx).
Proof.
  intros He Hn Hmax Hname Ht [Hi Hx Hf Hb]. split.
  - by apply complete_rows_Index.
  - cbn. by rewrite lookup_insert_eq.
  - by apply committed_files.
  - intros n' Hn'. cbn [committed inbox set_index set_sequences set_inbox]. destruct (decide (n' = n)) as [->|Hne].
    + exists None. split; [done|]. rewrite lookup_delete_eq. split; [|done]. by apply commit_batch_inbox.
    + destruct (Hb n' Hn') as (staged & Hs & Hr & Hm). exists staged. split; [done|].
      rewrite lookup_delete_ne by congruence. split; [|done]. rewrite commit_other_inbox; try done.
      cbn. rewrite lookup_delete_ne; [done|]. change (encode_key (KInbox ep n) <> encode_key (KInbox ep n')).
      intros E%encode_key_inj; [congruence|done..].
Qed.

(** ** Calls *)

(** The memory storage goes by the same verdict. *)
Lemma mem_apply_update_verdict mf file m :
  mem_apply_update mf file m =
    let n := bep.name file in
    let seq := default 0 (sequences m !! folder mf) + 1 in
    match verdict (index m !! (folder mf, n)) file with
    | Request => (set_inbox m (<[ (folder mf, n) := file ]> (inbox m)), Ok (NeedBlocks file))
    | Ignore => (m, Ok NoAction)
    | Conflicts local => (m, Ok (UpdateConcurrent local file))
    | Commit => (committed mf n (bep_set_sequence file seq) seq m, Ok (Applied (bep_set_sequence file seq)))
    | Malformed => (m, Err (StorageError.Corruption "version vector"))
    end.
Proof.
  unfold mem_apply_update, verdict, se_bind, se_get. destruct (index m !! _) as [local|]; [|done].
  destruct (bep.version local); [|done]. destruct (bep.version file); [|done]. unfold se_lift.
  destruct (Conflict.compare _ _) as [[]|]; cbn; try done. by destruct (blocks_equal local file).
Qed.

Lemma mem_complete_file_staged mf n v m :
  mem_complete_file mf n v m =
    let seq := default 0 (sequences m !! folder mf) + 1 in
    match inbox m !! (folder mf, n) with
    | Some file =>
        if bool_decide (bep.version file = v)
        then (committed mf n (bep_set_sequence file seq) seq (set_inbox m (delete (folder mf, n) (inbox m))),
              Ok (Some (bep_set_sequence file seq)))
        else (m, Ok None)
    | None => (m, Ok None)
    end.
Proof.
  unfold mem_complete_file, se_bind, se_get. destruct (inbox m !! _) as [file|]; [|done]. cbn.
  destruct (decide (bep.version file = v)) as [Hv|Hv].
  - rewrite bool_decide_false by tauto. by rewrite bool_decide_true by done.
  - rewrite bool_decide_true by done. by rewrite bool_decide_false by done.
Qed.

(** What the index of the memory storage lists. *)
Lemma mem_index_elem mf ep m c max idx since :
  agree mf ep m c max idx ->
  exists l, mem_index mf since m = (m, Ok (map Ok l)) /\ NoDup l /\
    forall f, f ∈ l <-> exists n st, idx !! n = Some st /\ f = wire st /\ since < storage.sequence st.
Proof.
  intros [Hi _ Hf _]. set (rows := filter (fun e : (bytes * bytes) * bep.FileInfo =>
    fst (fst e) = folder mf /\ since < bep.sequence (snd e)) (map_to_list (index m))).
  assert (forall e, e ∈ rows <-> exists n st, idx !! n = Some st /\ e = ((folder mf, n), wire st) /\
            since < storage.sequence st) as Hrows.
  { intros [[fd n] f]. unfold rows. rewrite list_elem_of_filter, elem_of_map_to_list. cbn. split.
    - intros [[-> Hs] Hl]. rewrite Hf in Hl. destruct (idx !! n) as [st|] eqn:En; [|done]. injection Hl as <-.
      exists n, st. split; [done|]. split; [done|].
      destruct (ix_idx _ _ _ Hi n st En) as (_ & _ & _ & Ht). by destruct (wire_Ok st Ht) as (_ & _ & <-).
    - intros (n' & st & En & [= -> -> ->] & Hs). rewrite Hf, En. split; [|done]. split; [done|].
      destruct (ix_idx _ _ _ Hi n' st En) as (_ & _ & _ & Ht). by destruct (wire_Ok st Ht) as (_ & _ & ->). }
  exists (map snd rows). split; [|split].
  - unfold mem_index, se_bind, se_get, se_ret. by rewrite map_map.
  - apply NoDup_fmap_2_strong; [|by apply NoDup_filter, NoDup_map_to_list].
    intros e1 e2 (n1 & s1 & E1 & -> & _)%Hrows (n2 & s2 & E2 & -> & _)%Hrows. cbn. intros Ew.
    destruct (ix_idx _ _ _ Hi n1 s1 E1) as (_ & N1 & _ & T1), (ix_idx _ _ _ Hi n2 s2 E2) as (_ & N2 & _ & T2).
    destruct (wire_Ok s1 T1) as (_ & W1 & _), (wire_Ok s2 T2) as (_ & W2 & _). congruence.
  - intros f. rewrite list_elem_of_fmap. split.
    + intros (e & -> & (n & st & En & -> & Hs)%Hrows). by exists n, st.
    + intros (n & st & En & -> & Hs). exists ((folder mf, n), wire st). split; [done|]. apply Hrows. by exists n, st.
Qed.

(** The index of the store lists the same files. *)
Lemma slate_index_elem (s : FS) (max : Z) idx since :
  Index (cts s) max idx -> 0 <= since < I64_MAX ->
  exists l, NoDup (map wire l) /\
    (forall st, st ∈ l <-> idx !! storage.name st = Some st /\ since < storage.sequence st) /\
    wp (Folder.index since) (fun s' r =>
      cts s' = cts s /\ (r = Ok (map wire l) \/ (~ healthy s /\ is_ok r = false))) s.
Proof.
  intros Hi Hs. unfold Folder.index.
  assert (forall l, NoDup l -> (forall st, st ∈ l -> idx !! storage.name st = Some st) -> NoDup (map wire l)) as Hnd.
  { intros l Hl Hel. apply NoDup_fmap_2_strong; [|done]. intros s1 s2 E1%Hel E2%Hel Ew.
    destruct (ix_idx _ _ _ Hi _ _ E1) as (_ & _ & _ & T1), (ix_idx _ _ _ Hi _ _ E2) as (_ & _ & _ & T2).
    destruct (wire_Ok s1 T1) as (_ & W1 & _), (wire_Ok s2 T2) as (_ & W2 & _). congruence. }
  destruct (Z.eqb_spec since 0) as [->|Hne].
  - destruct (all_files_exact s max idx Hi) as (l & Hn & Hl & Hr). exists l. split; [|split].
    + apply Hnd; [|by intros st Hst; apply Hl]. by apply NoDup_fmap_1 in Hn.
    + intros st. rewrite Hl. split; [|tauto]. intros E. split; [done|]. by destruct (ix_idx _ _ _ Hi _ _ E) as (_ & _ & [? _] & _).
    + unfold wp. by destruct (all_files s).
  - destruct (wp_files_since since s max idx Hi Hs) as (l & Hsort & Hl & Hr). exists l. split; [|split; [done|done]].
    apply Hnd; [|by intros st Hst; apply Hl]. clear -Hsort.
    induction Hsort as [|st l _ IH Hall]; constructor; [|done]. intros Hin.
    rewrite Forall_forall in Hall. specialize (Hall _ Hin). lia.
Qed.

(** The calls on the index, and the announcements and completions that both
    storages take: valid names and block lists, kinds of files that are stored
    as they are, and every block of a completed file has arrived. *)
Definition comparable (ep : Base32.Epoch) c idx (call : Call) : Prop :=
  match call with
  | CallApplyUpdate file _ =>
      utf8_valid (bep.name file) = true /\ Validate.validate_file_name (bep.name file) = Ok tt /\
      Validate.validate_file_info file = Ok tt /\ plain_type file
  | CallCompleteFile n _ =>
      name_ok n /\ forall st, c !! inbox_key ep n = Some (inbox_bytes st) ->
        forallb has_pointer (storage.blocks (carried st (idx !! n))) = true
  | CallIndex since => 0 <= since < I64_MAX
  | CallLocalSequence => True
  | _ => False
  end.

(** Answers that a client cannot tell apart: listings are in any order, and
    errors are errors. *)
Definition alike (a b : result StorageError.t Answer) : Prop :=
  match a, b with
  | Ok (AFiles l), Ok (AFiles l') => l ≡ₚ l'
  | Ok x, Ok y => x = y
  | Err _, Err _ => True
  | _, _ => False
  end.

(** What a call of the store gives, beside that of the memory storage. *)
Definition follows mf ep (after : MemoryStorage * result StorageError.t Answer) (s s' : FS)
  (r : result StorageError.t Answer) : Prop :=
  (~ healthy s /\ is_ok r = false) \/
  (alike (snd after) r /\ exists max idx, agree mf ep (fst after) (cts s') max idx).

Lemma wp_answer {St A : Type} (call : SE St StorageError.t A) (into : A -> Answer)
  (Q : St -> result StorageError.t Answer -> Prop) (s : St) :
  wp call (fun s' r => Q s' (match r with Ok a => Ok (into a) | Err e => Err e end)) s -> wp (answer call into) Q s.
Proof. unfold wp, answer, se_bind, se_ret. by destruct (call s) as [s' []]. Qed.

Lemma agree_apply_update mf sf ep file dev m (s : FS) max idx :
  agree mf ep m (cts s) max idx -> max < I64_MAX -> epoch sf = Some ep -> epoch_ok ep ->
  comparable ep (cts s) idx (CallApplyUpdate file dev) ->
  wp (exec sf (CallApplyUpdate file dev)) (follows mf ep (exec mf (CallApplyUpdate file dev) m) s) s.
Proof.
  intros Ha Hmax Hep He (Hu & Hvn & Hvi & Hp). pose proof (valid_name_ok _ Hu Hvn) as Hn. apply wp_answer.
  eapply wp_mono; [|apply (wp_apply_update sf ep file dev s max idx (ag_index _ _ _ _ _ _ Ha)); done].
  intros s' r Heff. unfold follows. cbn [exec sf_apply_update memory_folder]. unfold answer, se_bind.
  rewrite mem_apply_update_verdict. cbv zeta. rewrite (ag_max _ _ _ _ _ _ Ha), (ag_files _ _ _ _ _ _ Ha).
  unfold update_effect in Heff. cbv zeta in Heff. destruct r as [out|e].
  - right. destruct (verdict _ _).
    + destruct Heff as [-> ->]. split; [done|]. exists max, idx. by apply agree_staged.
    + destruct Heff as [-> ->]. split; [done|]. by exists max, idx.
    + destruct Heff as [-> ->]. split; [done|]. by exists max, idx.
    + destruct Heff as (-> & _ & ->). split; [done|]. eexists (max + 1), _. by apply agree_put.
    + done.
  - destruct Heff as [[-> ->]|[Hh _]]; [right|by left]. split; [done|]. by exists max, idx.
Qed.

Lemma agree_complete_file mf sf ep n v m (s : FS) max idx :
  agree mf ep m (cts s) max idx -> max < I64_MAX -> epoch sf = Some ep -> epoch_ok ep ->
  comparable ep (cts s) idx (CallCompleteFile n v) ->
  wp (exec sf (CallCompleteFile n v)) (follows mf ep (exec mf (CallCompleteFile n v) m) s) s.
Proof.
  intros Ha Hmax Hep He [Hn Hblocks]. apply wp_answer. cbn [sf_complete_file slate_folder]. unfold folder_complete_file.
  apply wp_bind, wp_lift. unfold require_epoch. rewrite Hep. cbn [ok_or].
  destruct (ag_inbox _ _ _ _ _ _ Ha n Hn) as (staged & Hok & Hrow & Hin).
  eapply wp_mono; [|by apply (wp_complete_file_rows ep n v staged s max idx (ag_index _ _ _ _ _ _ Ha))].
  intros s' r Heff. unfold follows. cbn [exec sf_complete_file memory_folder]. unfold answer, se_bind. rewrite mem_complete_file_staged.
  cbv zeta. rewrite (ag_max _ _ _ _ _ _ Ha), Hin. destruct staged as [st|]; cbn [fmap option_fmap option_map].
  2: { destruct Heff as [-> [->|[Hh Hr]]]; [right|left; split; [done|by destruct r]]. split; [done|]. by exists max, idx. }
  destruct (Hok st eq_refl) as [Hname Ht]. destruct (wire_Ok st Ht) as (Hv & _ & _). rewrite Hv.
  rewrite Hrow in Hblocks. specialize (Hblocks st eq_refl). cbv zeta in Heff.
  change (storage.blocks (commit_file st (idx !! n) max)) with (storage.blocks (carried st (idx !! n))) in Heff.
  rewrite Hblocks in Heff. destruct r as [[fb|]|e].
  - destruct Heff as (Hsame & -> & _ & ->). right. rewrite bool_decide_true by done. split.
    + cbn. by rewrite wire_commit.
    + eexists (max + 1), _. by apply agree_completed.
  - destruct Heff as [Hsame ->]. right. rewrite bool_decide_false by done. split; [done|]. by exists max, idx.
  - destruct Heff as [(_ & ? & _)|[Hh _]]; [done|by left].
Qed.

Lemma agree_index mf sf ep since m (s : FS) max idx :
  agree mf ep m (cts s) max idx -> comparable ep (cts s) idx (CallIndex since) ->
  wp (exec sf (CallIndex since)) (follows mf ep (exec mf (CallIndex since) m) s) s.
Proof.
  intros Ha Hs. destruct (mem_index_elem mf ep m _ max idx since Ha) as (lm & Hm & Hnd & Hlm).
  destruct (slate_index_elem s max idx since (ag_index _ _ _ _ _ _ Ha) Hs) as (l & Hnl & Hl & Hwp).
  apply wp_answer. cbn [sf_index slate_folder]. unfold slate_index. apply wp_bind. eapply wp_mono; [|exact Hwp].
  intros s' r [Hc [->|[Hh Hr]]]; unfold follows; [|destruct r; [done|]; by left]. apply wp_ret. right.
  cbn [exec sf_index memory_folder]. unfold answer, se_bind. rewrite Hm. cbn. split; [|exists max, idx; by rewrite Hc].
  apply Permutation_map, NoDup_Permutation; [done|done|]. intros f. rewrite Hlm, list_elem_of_fmap. split.
  - intros (n & st & En & -> & Hst). exists st. split; [done|]. apply Hl. split; [|done].
    by destruct (ix_idx _ _ _ (ag_index _ _ _ _ _ _ Ha) _ _ En) as (_ & -> & _).
  - intros (st & -> & [En Hst]%Hl). by exists (storage.name st), st.
Qed.

Lemma agree_local_sequence mf sf ep m (s : FS) max idx :
  agree mf ep m (cts s) max idx ->
  wp (exec sf CallLocalSequence) (follows mf ep (exec mf CallLocalSequence m) s) s.
Proof.
  intros Ha. apply wp_answer. cbn [sf_local_sequence slate_folder]. unfold local_sequence.
  eapply wp_reads_bind; [apply get_index_meta_reads| |by left].
  intros s1 Hs1. cbv beta. rewrite (pure_meta_Index _ max idx (ag_index _ _ _ _ _ _ Ha)). apply wp_ret. right.
  unfold follows. cbn. split; [|exists max, idx; by rewrite (sim_cts _ _ Hs1)].
  by rewrite (proj2 (ix_meta _ _ _ (ag_index _ _ _ _ _ _ Ha))), (ag_max _ _ _ _ _ _ Ha).
Qed.


(** Where it does not stand for it. A staged file of the expected version
    with a block that has not arrived is refused by the folder store, which
    stays as it is; the in-memory storage commits it under the next sequence
    number. *)
Theorem memory_completes_incomplete mf (sf : SlateFolder) (ep : Base32.Epoch) (n : bytes)
  (st : storage.FileInfo) m (s : FS) (max : Z) idx
  (Ha : agree mf ep m (cts s) max idx) (Hmax : max < I64_MAX) (Hep : epoch sf = Some ep) (He : epoch_ok ep)
  (Hn : name_ok n) (Hst : cts s !! inbox_key ep n = Some (inbox_bytes st))
  (Hmissing : forallb has_pointer (storage.blocks (carried st (idx !! n))) = false) :
  let v := ProtoConv.vector_to_bep <$> storage.version st in
  let '(m', rm) := mem_complete_file mf n v m in
  let '(s', rs) := folder_complete_file sf n v s in
  is_ok rs = false /\ (healthy s -> cts s' = cts s) /\
  rm = Ok (Some (bep_set_sequence (wire st) (max + 1))) /\
  index m' !! (folder mf, n) = Some (bep_set_sequence (wire st) (max + 1)).
Proof.
  intros v. destruct (ag_inbox _ _ _ _ _ _ Ha n Hn) as (staged & Hok & Hrow & Hin).
  rewrite Hst in Hrow. destruct staged as [st'|]; [|done]. cbn in Hrow. injection Hrow as Hrow.
  assert (st' = st) as ->.
  { apply (f_equal (decode : bytes -> option storage.Inbox)) in Hrow. unfold inbox_bytes in Hrow. rewrite !decode_encode in Hrow. by injection Hrow as <-. }
  destruct (Hok st eq_refl) as [Hname Ht]. destruct (wire_Ok st Ht) as (Hv & _ & _).
  rewrite mem_complete_file_staged. cbv zeta. rewrite (ag_max _ _ _ _ _ _ Ha), Hin. cbn [fmap option_fmap option_map].
  rewrite bool_decide_true by done. apply wp_let. unfold folder_complete_file. apply wp_bind, wp_lift.
  unfold require_epoch. rewrite Hep. cbn [ok_or].
  eapply wp_mono; [|apply (wp_complete_file_rows ep n v (Some st) s max idx (ag_index _ _ _ _ _ _ Ha)); try done].
  cbv zeta. change (storage.blocks (commit_file st (idx !! n) max)) with (storage.blocks (carried st (idx !! n))).
  rewrite Hmissing. cbn. rewrite lookup_insert_eq. intros s' [[fb|]|e]; [naive_solver|naive_solver|].
  intros [(_ & _ & ->)|[Hh _]]; split_and!; done.
Qed.

End Agree.

(** ** Examples *)

#[local] Existing Instance StoreTape.codecs.
#[local] Existing Instance StoreTape.laws.
Abbreviation TapeStore := (Store.FolderStore Kv.MapDb StoreTape.HFilter StoreTape.SFilter).

(** A file of one large block in an empty folder. *)
Definition mem_photos : MemoryFolder := mkMemFolder (lit "photos") (lit "Photos").
Definition block7 : bytes := repeat 7 32.
Definition announced_file : bep.FileInfo := make_file_with_blocks (lit "a/b.jpg") [(2, 1)] [block7].
Definition announce : Call := CallApplyUpdate announced_file REMOTE_DEV.
Definition mem_staged : MemoryStorage := fst (exec mem_photos announce new).
Definition slate_staged : TapeStore := fst (exec photos announce StoreTape.empty_store).

Lemma agree_staged_example :
  agree mem_photos StoreIndex.epoch5 mem_staged (StoreWp.cts slate_staged) 0 ∅.
Proof.
  assert (StoreWp.cts slate_staged = Folder.staged_in StoreIndex.epoch5 announced_file ∅) as -> by (vm_compute; reflexivity).
  apply agree_staged; [by vm_compute|split; by vm_compute|by vm_compute|apply agree_new].
Qed.


(** The memory storage commits the file without its block. *)
Lemma memory_completes_incomplete_witness :
  let v := Some (vector_of [(2, 1)]) in
  snd (mem_complete_file mem_photos (lit "a/b.jpg") v mem_staged) = Ok (Some (bep_set_sequence announced_file 1)) /\
  is_ok (snd (Folder.folder_complete_file photos (lit "a/b.jpg") v slate_staged)) = false.
Proof.
  intros v. pose proof (memory_completes_incomplete mem_photos photos StoreIndex.epoch5 (lit "a/b.jpg")
    (ProtoConv.file_to_storage announced_file) mem_staged slate_staged 0 ∅ agree_staged_example) as H.
  assert (ProtoConv.vector_to_bep <$> storage.version (ProtoConv.file_to_storage announced_file) = v) as Hv
    by (vm_compute; reflexivity).
  cbv zeta in H. rewrite Hv in H. clearbody v.
  destruct (mem_complete_file mem_photos (lit "a/b.jpg") v mem_staged) as [m' rm].
  destruct (Folder.folder_complete_file photos (lit "a/b.jpg") v slate_staged) as [s' rs].
  destruct H as (H1 & _ & H2 & _); [done|done|by vm_compute|split; by vm_compute|vm_compute; reflexivity|by vm_compute|].
  split; [|done]. cbn [snd]. rewrite H2. vm_compute. reflexivity.
Defined.

End MemAgree.
