(* ===== verification/Inspect.v ===== *)
(** The inspection of a folder store by tests (the [StorageInspectorForTests]
    implementation of [SlateFolder] in [bepository-storage/src/api.rs], and
    [get_inbox_file] of [store.rs]): how a test puts files and blocks into the
    store and looks at them. SHA-256 is an argument. *)

From Stdlib Require Import ZArith Lia.
From stdpp Require Import base gmap list strings.
From S2P Require Import Prelude BepTypes Base32 StoreKeys Codec Conflict.
From S2P Require Import ProtoConv Kv GcState Store StoreTape StoreWp StoreIndex Folder.
From S2P Require Import Messages ConnectionFolder MemStorage MemAgree.

Local Open Scope Z_scope.
Local Open Scope bep_scope.

Module Inspect.
Import StoreKeys Kv Store StoreWp StoreIndex Folder.

Section Inspect.
Context {Db : Type} `{!SlateDb Db} {SC : StoreCodecs}.
Context {HF SF : Type} `{!GcState.Bloom bytes HF} `{!GcState.Bloom Z SF}.
Context (sha256 : bytes -> bytes).
Abbreviation FS := (FolderStore Db HF SF).
Abbreviation FM := (SE (FolderStore Db HF SF) StorageError.t).
Abbreviation PM := (SE (FolderStore Db HF SF) Panic).

(** [expect], [ok] and [ok().flatten()]. *)
Definition expect {A : Type} (m : FM A) : PM A := fun s => let '(s', r) := m s in (s', map_err (fun _ => panicked) r).
Definition okay {A : Type} (m : FM A) : PM (option A) := fun s => let '(s', r) := m s in (s', Ok (ok r)).
Definition flattened {A : Type} (m : FM (option A)) : PM (option A) :=
  do! r <- okay m; se_ret (match r with Some o => o | None => None end).

(** [FolderStore::get_inbox_file]. *)
Definition get_inbox_file (ep : Base32.Epoch) (name : bytes) : FM (option bep.FileInfo) :=
  do! v <- get (inbox_key ep name);
  match v with
  | Some b =>
      do! inbox <- corrupt "decode Inbox" (decode b);
      do! fi <- corrupt "missing file_info in Inbox" (storage.inbox_file_info inbox);
      do! fi <- se_lift (ProtoConv.file_to_bep fi);
      se_ret (Some fi)
  | None => se_ret None
  end.

Definition insert_file (file : bep.FileInfo) : PM unit := do! _ <- expect (put_file file); se_ret tt.

(** The first block at an offset, with a hash of the right length. *)
Definition block_at (offset : Z) (fi : bep.FileInfo) : option bep.BlockInfo :=
  snd <$> list_find (fun b => bep.offset b = offset /\ length (bep.hash b) = 32%nat) (bep.blocks fi).

Definition insert_block (f : SlateFolder) (name : bytes) (offset : Z) (data : bytes) : PM unit :=
  do! file_info <- match epoch f with
                   | Some ep => flattened (get_inbox_file ep name)
                   | None => se_ret None
                   end;
  do! file_info <- match file_info with
                   | None => flattened (get_file name)
                   | Some fi => se_ret (Some fi)
                   end;
  match file_info ≫= block_at offset with
  | Some b => expect (store_block (epoch f) name (bep.hash b) data)
  | None => expect (store_block (epoch f) name (sha256 data) data)
  end.

Definition get_block (name : bytes) (offset : Z) : PM (option bytes) :=
  do! file <- flattened (get_file name);
  match file with
  | Some fi =>
      match snd <$> list_find (fun b => bep.offset b = offset) (bep.blocks fi) with
      | Some b => okay (read_block name (bep.hash b))
      | None => se_ret None
      end
  | None => se_ret None
  end.

Definition is_not_found (e : StorageError.t) : bool := match e with StorageError.NotFound _ => true | _ => false end.

Definition slate_has_block (f : SlateFolder) (file : bytes) (offset : Z) (hash : bytes) (size : Z) : FM bool :=
  if is_inline_block size then
    fun s => match find_file_entry (epoch f) file s with
             | (s', Ok (file_info, _, _)) =>
                 (s', Ok (match list_find (fun b => storage.offset b = offset /\ storage.hash b = hash)
                                  (storage.blocks file_info) with
                          | Some (_, b) => bool_decide (is_Some (storage.inline_data b))
                          | None => false
                          end))
             | (s', Err e) => (s', if is_not_found e then Ok false else Err e)
             end
  else has_block hash.

(** [impl StorageInspectorForTests for SlateFolder]. *)
#[global] Instance slate_inspector : StorageInspector FS SlateFolder Base32.Epoch := {
  si_insert_file _ := insert_file;
  si_insert_block := insert_block;
  si_get_file _ name := flattened (get_file name);
  si_get_inbox_file _ ep name := flattened (get_inbox_file ep name);
  si_get_block _ := get_block;
  si_has_block := slate_has_block
}.

(** [put_raw] and [get_raw]. *)
Definition put_raw (key value : bytes) : PM unit := expect (put_non_durable key value).
Definition get_raw (key : bytes) : PM (option bytes) := expect (get key).

(** ** Setting up a test *)

Context `{!SlateDbLaws Db} {SL : StoreCodecLaws}.
Import MemStorage MemAgree.

(** A file that a test inserts into both storages leaves them related, and reads
    back under the next sequence number. *)
Lemma inserted_alike (mf : MemoryFolder) (sf : SlateFolder) (ep : Base32.Epoch) (file : bep.FileInfo)
  (m : MemoryStorage) (s : FS) (max : Z) (idx : gmap bytes storage.FileInfo) :
  agree mf ep m (cts s) max idx -> max < I64_MAX -> epoch_ok ep -> name_ok (bep.name file) -> plain_type file ->
  healthy s ->
  let '(m', rm) := si_insert_file (Ep := unit) mf file m in
  let '(s', rs) := si_insert_file sf file s in
  rm = Ok tt /\ rs = Ok tt /\
  (exists idx', agree mf ep m' (cts s') (max + 1) idx') /\
  snd (si_get_file (Ep := unit) mf (bep.name file) m') = Ok (Some (bep_set_sequence file (max + 1))) /\
  pure_file (bep.name file) (cts s') = Ok (Some (bep_set_sequence file (max + 1))).
Proof.
  intros Ha Hmax He Hn Hp Hh. cbn [si_insert_file memory_inspector slate_inspector].
  unfold MemStorage.insert_file. rewrite (ag_max _ _ _ _ _ _ Ha). apply wp_let. unfold insert_file.
  apply wp_bind. unfold expect, wp. pose proof (wp_put_file_rows file s max idx (ag_index _ _ _ _ _ _ Ha) Hn Hmax) as Hwp.
  unfold wp in Hwp. destruct (put_file file s) as [s' r]. cbn [fst snd] in *. destruct r as [seq|e]; cbn.
  2: { by destruct Hwp as [Hnh _]. }
  destruct Hwp as [-> ->]. pose proof (agree_put mf ep m (cts s) max idx file He Hn Hp Hmax Ha) as Hag.
  split; [done|]. split; [done|]. split; [eexists; exact Hag|]. split.
  - by rewrite lookup_insert_eq.
  - rewrite (pure_file_Index _ _ _ _ (ag_index _ _ _ _ _ _ Hag) Hn). rewrite lookup_insert_eq. cbn.
    rewrite wire_commit by apply file_to_storage_type. by rewrite wire_storage.
Qed.

End Inspect.
End Inspect.
