(* ===== verification/TestServer.v ===== *)
(** The server that the interoperability tests run
    ([bepository-testserver/src/lib.rs]): an engine with a listener that accepts
    the devices a test has allowed. The test, the listener and the engine run
    concurrently, so the server is a step relation; its storage plays no part in
    who is accepted. *)

From Stdlib Require Import ZArith Lia.
From stdpp Require Import base gmap list relations strings.
From S2P Require Import Prelude BepTypes Connection Engine Admission Meta Tls.

Local Open Scope Z_scope.

Module TestServer.

(** [TestServer]: its engine, the devices that [run_event_handler] allows, and
    the channel of [allow_device]. *)
Record TestServer := mkTestServer {
  engine : Engine.Engine;
  allowed : gset bytes;
  allow_rx : list bytes
}.

(** [TestServer::with_storage]: the engine, and its listener taken. *)
Definition with_storage : TestServer := mkTestServer (Engine.new true) ∅ [].

Definition set_engine (s : TestServer) (g : Engine.Engine) : TestServer := mkTestServer g (allowed s) (allow_rx s).

Definition allow_device (device : bytes) (s : TestServer) : TestServer :=
  mkTestServer (engine s) (allowed s) (allow_rx s ++ [device]).

(** The two arms of [run_event_handler]. *)
Definition on_allow (s : TestServer) : TestServer :=
  match allow_rx s with
  | [] => s
  | device :: rest => mkTestServer (engine s) ({[ device ]} ∪ allowed s) rest
  end.

Definition on_event (s : TestServer) : TestServer :=
  let g := engine s in
  set_engine s
    match Engine.events g with
    | [] => g
    | Engine.DeviceConnecting device :: _ =>
        if decide (device ∈ Engine.waiting g)
        then fst (Engine.answer device (bool_decide (device ∈ allowed s)) (Engine.receive g))
        else Engine.receive g
    | Engine.DeviceDisconnected _ _ :: _ => Engine.receive g
    end.

Section Server.
Context (sha256 : bytes -> bytes) {Tcp Stream : Type} `{!Tls.Rustls Tcp Stream}.
Context (identity : Meta.Identity).

Definition connect_to (addr : bytes) (s : TestServer) : TestServer :=
  match Tls.connect sha256 addr identity with
  | Ok b => set_engine s (fst (Engine.ask (Tls.stream_peer b) (engine s)))
  | Err _ => s
  end.

(** [accept_stream], of a stream that [accept] of the TLS layer gave. *)
Definition accept_stream (tcp : Tcp) (s : TestServer) : TestServer :=
  match Tls.accept sha256 tcp identity with
  | Ok b => set_engine s (fst (Engine.ask (Tls.stream_peer b) (engine s)))
  | Err _ => s
  end.

Definition peers (s : TestServer) : list bytes := Engine.peers (engine s).

Inductive step (s : TestServer) : TestServer -> Prop :=
| st_allow device : step s (allow_device device s)
| st_take : step s (on_allow s)
| st_event : step s (on_event s)
| st_connect addr : step s (connect_to addr s)
| st_accept tcp : step s (accept_stream tcp s)
| st_timeout device : device ∈ Engine.waiting (engine s) -> step s (set_engine s (fst (Engine.answer device false (engine s))))
| st_task g : Admission.task_step (engine s) g -> step s (set_engine s g).

(** A device whose certificate a peer has shown. *)
Definition came (d : bytes) : Prop :=
  exists b : Tls.BepStream (Stream := Stream),
    Tls.stream_peer b = d /\
    ((exists addr, Tls.connect sha256 addr identity = Ok b) \/ (exists tcp, Tls.accept sha256 tcp identity = Ok b)).

Definition inv (s : TestServer) : Prop := Admission.admitted came (fun d => d ∈ allowed s) (engine s).

Lemma step_inv (s s' : TestServer) : step s s' -> inv s -> inv s'.
Proof.
  unfold inv. intros Hstep Hi. destruct Hstep as [device| | |addr|tcp|device Hin|g Hg]; [done| | | | | |].
  - unfold on_allow. destruct (allow_rx s) as [|device rest]; [done|]. cbn.
    eapply Admission.admitted_mono; [|exact Hi]. set_solver.
  - unfold on_event. cbn [engine allowed set_engine].
    destruct (Engine.events (engine s)) as [|[device|device reason] evs]; [done| |by apply Admission.receive_admitted].
    destruct (decide (device ∈ Engine.waiting (engine s))) as [Hin|]; [|by apply Admission.receive_admitted].
    apply Admission.answer_admitted; [by apply Admission.receive_admitted|done|]. apply bool_decide_eq_true.
  - unfold connect_to. destruct (Tls.connect sha256 addr identity) as [b|] eqn:Eb; [|done].
    apply Admission.ask_admitted; [done|]. exists b. eauto.
  - unfold accept_stream. destruct (Tls.accept sha256 tcp identity) as [b|] eqn:Eb; [|done].
    apply Admission.ask_admitted; [done|]. exists b. eauto.
  - by apply Admission.answer_admitted.
  - by eapply Admission.task_admitted.
Qed.

(** Only allowed devices connect: in every interleaving of the test, the
    listener and the engine, a device with a connection has been allowed by the
    test and a peer has shown its certificate. *)
Theorem only_allowed_served (s : TestServer) (d : bytes) (Hrun : rtc step with_storage s) (Hd : d ∈ peers s) :
  d ∈ allowed s /\ came d.
Proof.
  assert (inv s) as Hi.
  { revert Hrun. apply (rtc_ind_r inv); [apply Admission.new_admitted|]. intros s1 s2 _ Hs Hi. by eapply step_inv. }
  unfold peers, Engine.peers in Hd. apply list_elem_of_fmap in Hd as ([d' id] & -> & Hin%elem_of_map_to_list).
  apply (Admission.admitted_served came (fun d => d ∈ allowed s) (engine s) d' id Hi). by left.
Qed.

(** Allowing a device does not wait for the listener: when both are ready, the
    listener may answer the device before it takes the permission, and the
    device that the test has allowed before it called is turned away. *)
Theorem allowed_device_turned_away (tcp : Tcp) (b : Tls.BepStream (Stream := Stream))
  (Haccept : Tls.accept sha256 tcp identity = Ok b) :
  let d := Tls.stream_peer b in
  exists s, rtc step with_storage s /\ d ∈ allow_rx s /\ d ∉ Engine.waiting (engine s) /\ d ∉ Engine.accepted (engine s).
Proof.
  intros d. exists (on_event (accept_stream tcp (allow_device d with_storage))). split.
  - eapply rtc_l; [apply (st_allow _ d)|]. eapply rtc_l; [apply (st_accept _ tcp)|]. eapply rtc_l; [apply st_event|]. done.
  - unfold accept_stream. rewrite Haccept. fold d.
    assert (engine (on_event (set_engine (allow_device d with_storage) (fst (Engine.ask d (Engine.new true))))) =
            Engine.new true) as He.
    { unfold on_event, Engine.ask, Engine.try_send_event, Engine.answer, Engine.receive. cbn.
      rewrite decide_True by (unfold Engine.EVENT_CHANNEL_CAPACITY; lia). cbn.
      rewrite decide_True by (by left). cbn. by rewrite decide_True by done. }
    change (engine (allow_device d with_storage)) with (Engine.new true). rewrite He.
    split; [by left|]. split; apply not_elem_of_nil.
Qed.

End Server.

#[local] Existing Instance Tls.ToyRustls.

(** A peer with the certificate of the device it claims to be. *)
Lemma allowed_device_turned_away_witness :
  exists s, rtc (step (fun b => b) (Meta.mkIdentity [] [] []) (Tcp := Tls.Offer)) with_storage s /\
    lit "victim" ∈ allow_rx s /\ lit "victim" ∉ Engine.accepted (engine s).
Proof.
  destruct (allowed_device_turned_away (fun b => b) (Meta.mkIdentity [] [] []) Tls.thief
    (Tls.mkBepStream Tls.thief (lit "victim"))) as (s & H1 & H2 & _ & H3); [vm_compute; reflexivity|]. by exists s.
Defined.

End TestServer.
