(* ===== verification/Cli.v ===== *)
(** The command line ([bepository-cli/src/main.rs]): where settings come from, and
    which command runs with which of them.

    clap is an interface: parsing reads the arguments and the environment, and
    the laws are its documented precedence (a flag before its variable). A
    command that runs is an [Invocation], the function that is called with its
    arguments ([CliRun] runs it on a storage). What [main] sets up besides (the
    TLS provider, the runtimes) does not depend on the settings. *)

From Stdlib Require Import ZArith Lia.
From stdpp Require Import base gmap list strings.
From S2P Require Import Prelude EnvFile Credentials StorageUri Fsck Service.

Local Open Scope Z_scope.
Local Open Scope bep_scope.

Module Cli.
Import EnvFile Credentials.

(** ** Commands *)

Inductive EveryOp := Ttl (value : Z) | Remove.

Inductive CheckpointAction :=
| Every (interval : Z) (op : EveryOp)
| ListCheckpoints
| ServeDav (addr : bytes) (webdav_password : option bytes).

Inductive Commands :=
| Init
| RemoveFolder (folder : bytes)
| ListFolders
| GetId
| Serve (master_device_id : option bytes) (listen : bytes) (priority lease : Z)
| Checkpoint (action : CheckpointAction)
| Fsck (check : option Fsck.FsckLevel) (regenerate_id clear_lock compact : bool)
| PrintService
| InstallService (no_auto_upgrade : bool)
| UninstallService
| Upgrade (restart_unit : option bytes) (dry_run : bool).

Record Cli := mkCli {
  machine_id : option bytes;
  trace : option bytes;
  storage_uri : option bytes;
  cache : StorageUri.CacheArgs;
  command : Commands
}.

Inductive CliError := NoStorage | NoMaster | NoPassword | PackageManaged (hint : bytes).

(** [is_self_manage]; the commands exist in builds with the feature. *)
Definition is_self_manage (c : Commands) : bool :=
  match c with PrintService | InstallService _ | UninstallService | Upgrade _ _ => true | _ => false end.

Definition require_storage_uri (cli : Cli) : result CliError bytes := ok_or (storage_uri cli) NoStorage.

(** ** Dispatch *)

(** The storage that a command opens, and the name under which it takes locks. *)
Record Place := mkPlace { uri : bytes; place_cache : StorageUri.CacheArgs; holder : bytes }.

Inductive Invocation :=
| RunInit (p : Place)
| RunRemoveFolder (p : Place) (folder : bytes)
| RunListFolders (p : Place)
| RunGetId (p : Place)
| RunServe (p : Place) (master_device_id listen : bytes) (priority lease : Z)
| RunFsck (p : Place) (check : option Fsck.FsckLevel) (regenerate_id clear_lock compact : bool)
| RunSetTtl (p : Place) (interval value : Z)
| RunRemoveSchedule (p : Place) (interval : Z)
| RunListCheckpoints (p : Place)
| RunServeDav (p : Place) (addr password : bytes)
| RunPrintService
| RunInstall (no_auto_upgrade : bool) (storage_uri : option bytes)
| RunUninstall
| RunUpgrade (restart_unit : option bytes) (dry_run : bool).

Definition cmd_checkpoint (p : Place) (action : CheckpointAction) : result CliError Invocation :=
  match action with
  | Every interval (Ttl value) => Ok (RunSetTtl p interval value)
  | Every interval Remove => Ok (RunRemoveSchedule p interval)
  | ListCheckpoints => Ok (RunListCheckpoints p)
  | ServeDav addr webdav_password =>
      try password <- ok_or webdav_password NoPassword;
      Ok (RunServeDav p addr password)
  end.

(** The refusal of a packaged installation. *)
Definition self_managed (vars : list (bytes * bytes)) (inv : Invocation) : result CliError Invocation :=
  match Service.package_managed_hint vars with
  | Some hint => Err (PackageManaged hint)
  | None => Ok inv
  end.

(** [async_main]; [machine] is the id of the machine, or a fresh one. *)
Definition async_main (machine : bytes) (vars : list (bytes * bytes)) (cli : Cli) (cli_storage_uri : option bytes) :
  result CliError Invocation :=
  let machine_id := default machine (machine_id cli) in
  let is_self_manage := is_self_manage (command cli) in
  try storage_uri <- (if is_self_manage then Ok [] else require_storage_uri cli);
  let p := mkPlace storage_uri (cache cli) (StorageUri.holder_name machine_id is_self_manage storage_uri) in
  match command cli with
  | Init => Ok (RunInit p)
  | RemoveFolder folder => Ok (RunRemoveFolder p folder)
  | ListFolders => Ok (RunListFolders p)
  | GetId => Ok (RunGetId p)
  | Serve master_device_id listen priority lease =>
      try master <- ok_or master_device_id NoMaster;
      Ok (RunServe p master listen priority lease)
  | Fsck check regenerate_id clear_lock compact => Ok (RunFsck p check regenerate_id clear_lock compact)
  | Checkpoint action => cmd_checkpoint p action
  | PrintService => self_managed vars RunPrintService
  | InstallService no_auto_upgrade => self_managed vars (RunInstall no_auto_upgrade cli_storage_uri)
  | UninstallService => self_managed vars RunUninstall
  | Upgrade restart_unit dry_run => self_managed vars (RunUpgrade restart_unit dry_run)
  end.

(** ** Parsing *)

Inductive ValueSource := DefaultValue | EnvVariable | CommandLine.

#[global] Instance ValueSource_eq_dec : EqDecision ValueSource.
Proof. solve_decision. Defined.

(** [clap::ArgMatches], as far as the storage URI goes: its value and source at
    one level, and the matches of the subcommand. *)
Inductive Matches := mkMatches (value : option bytes) (source : option ValueSource) (subcommand : option Matches).

(** [command_line_storage_uri]: the first level whose value comes from the
    command line. *)
Fixpoint command_line_storage_uri (m : Matches) : option bytes :=
  match m with
  | mkMatches value source subcommand =>
      if decide (source = Some CommandLine) then value
      else match subcommand with Some sub => command_line_storage_uri sub | None => None end
  end.

Definition STORAGE_URI_VAR : bytes := lit "BEPOSITORY_STORAGE_URI".
Definition DAV_PASSWORD_VAR : bytes := lit "BEPOSITORY_DAV_PASSWORD".
Definition ENV_FILE_VAR : bytes := lit "BEPOSITORY_ENV_FILE".
Definition DEFAULT_ENV_FILE : bytes := lit "/etc/bepository/env".

Definition or_else {A : Type} (a b : option A) : option A := match a with Some _ => a | None => b end.

Class Clap (Argv : Type) := {
  (** [None]: clap prints help or an error and exits. *)
  parse : Argv -> gmap bytes bytes -> option (Cli * Matches);
  (** What the arguments themselves give. *)
  uri_flag : Argv -> option bytes;
  password_flag : Argv -> option bytes
}.

Class ClapLaws (Argv : Type) `{Clap Argv} : Prop := {
  parse_uri a env cli m : parse a env = Some (cli, m) ->
    storage_uri cli = or_else (uri_flag a) (env !! STORAGE_URI_VAR);
  parse_source a env cli m : parse a env = Some (cli, m) -> command_line_storage_uri m = uri_flag a;
  parse_password a env cli m addr pw : parse a env = Some (cli, m) -> command cli = Checkpoint (ServeDav addr pw) ->
    pw = or_else (password_flag a) (env !! DAV_PASSWORD_VAR)
}.

(** ** Startup *)

(** The environment of the process and the files; [None] is a file that cannot be
    read as text. *)
Record Process := mkProcess { env : gmap bytes bytes; config : gmap bytes (option bytes) }.

(** What the file of settings holds, if it can be read. *)
Definition env_file (p : Process) : bytes :=
  let path := default DEFAULT_ENV_FILE (env p !! ENV_FILE_VAR) in
  match config p !! path with Some (Some contents) => contents | _ => [] end.

Inductive Outcome :=
| Panics
| ClapExits
| TracingFailed
| Refused (e : CliError)
| Runs (inv : Invocation).

(** [main]; [self_manage] is the feature, [levels] says which trace levels can be
    parsed, [machine] is the id of the machine. *)
Definition main {Argv : Type} `{!Clap Argv} (self_manage : bool) (levels : option bytes -> bool) (machine : bytes)
  (argv : Argv) (p : Process) : Process * Outcome :=
  match load_env_file (env_file p) (env p) with
  | None => (p, Panics)
  | Some env1 =>
      match parse argv env1 with
      | None => (mkProcess env1 (config p), ClapExits)
      | Some (cli, matches) =>
          let cli_storage_uri := if self_manage then command_line_storage_uri matches else None in
          let env2 := delete DAV_PASSWORD_VAR env1 in
          (mkProcess env2 (config p),
           if levels (trace cli) then
             match async_main machine (map_to_list env2) cli cli_storage_uri with
             | Ok inv => Runs inv
             | Err e => Refused e
             end
           else TracingFailed)
      end
  end.

(** ** Where settings come from *)

(** A variable after the file was loaded: the environment, or else the first
    assignment of the file. *)
Definition setting (p : Process) (key : bytes) : option bytes :=
  or_else (env p !! key) (lookup_env (env_file p) key).

Definition place_of (inv : Invocation) : option Place :=
  match inv with
  | RunInit p | RunRemoveFolder p _ | RunListFolders p | RunGetId p | RunServe p _ _ _ _ | RunFsck p _ _ _ _
  | RunSetTtl p _ _ | RunRemoveSchedule p _ | RunListCheckpoints p | RunServeDav p _ _ => Some p
  | _ => None
  end.

Lemma load_panicked (l : list (bytes * bytes)) :
  foldl (fun (env : option (gmap bytes bytes)) kv =>
           match env with
           | Some env => match env !! fst kv with Some _ => Some env | None => set_var (fst kv) (snd kv) env end
           | None => None
           end) None l = None.
Proof. by induction l. Qed.

Lemma load_setting (contents : bytes) (env0 env1 : gmap bytes bytes) (key : bytes) :
  load_env_file contents env0 = Some env1 -> env1 !! key = or_else (env0 !! key) (lookup_env contents key).
Proof.
  unfold load_env_file, lookup_env. generalize (parse_env_lines contents). intros l. revert env0.
  induction l as [|[k v] l IH]; intros env0; cbn.
  - intros [= <-]. by destruct (env0 !! key).
  - unfold value_of. cbn [find fst]. destruct (env0 !! k) as [v0|] eqn:Ek.
    + intros H%IH. rewrite H. case_bool_decide as Hk; [|done]. subst. by rewrite Ek.
    + unfold set_var. case_bool_decide; [by rewrite load_panicked|]. intros H1%IH. rewrite H1.
      destruct (decide (k = key)) as [->|Hne].
      * rewrite lookup_insert_eq, Ek. by rewrite bool_decide_true by done.
      * rewrite lookup_insert_ne by done. by rewrite bool_decide_false by done.
Qed.

Section Settings.
Context {Argv : Type} `{!Clap Argv} `{!ClapLaws Argv}.


(** Without a storage a command that needs one is refused before anything is
    opened, and nothing else is refused for that reason. *)
Lemma refused_without_storage (levels : option bytes -> bool) (machine : bytes) (argv : Argv) (p p' : Process)
  (env1 : gmap bytes bytes) (cli : Cli) (ms : Matches) (self_manage : bool) :
  load_env_file (env_file p) (env p) = Some env1 -> parse argv env1 = Some (cli, ms) -> levels (trace cli) = true ->
  snd (main self_manage levels machine argv p) = Refused NoStorage <->
  is_self_manage (command cli) = false /\ or_else (uri_flag argv) (setting p STORAGE_URI_VAR) = None.
Proof.
  intros Eload Eparse El. unfold main. rewrite Eload, Eparse. cbn [snd]. rewrite El.
  pose proof (parse_uri _ _ _ _ Eparse) as Huri. rewrite (load_setting _ _ _ _ Eload) in Huri. fold (setting p STORAGE_URI_VAR) in Huri.
  unfold async_main, require_storage_uri. rewrite Huri.
  destruct (is_self_manage (command cli)) eqn:Es; cbn [rbind].
  - split; [|by intros [? _]]. destruct (command cli); try discriminate; cbn; unfold self_managed;
      by destruct (Service.package_managed_hint _).
  - destruct (or_else _ _) as [u|]; cbn [ok_or rbind]; [|done]. split; [|by intros [_ ?]].
    by destruct (command cli) as [| | | |[m|] l pr le|[iv [vl|]| |ad [pw|]]| | | | |].
Qed.

(** An assignment without a name stops every command. When the settings file
    has a line that starts with an equals sign, setting the variable panics:
    whatever the arguments are, no command runs, not even help. *)
Theorem nameless_assignment_panics (self_manage : bool) (levels : option bytes -> bool) (machine : bytes) (argv : Argv)
  (p : Process) (value : bytes)
  (Hline : ([], value) ∈ parse_env_lines (env_file p)) (Henv : env p !! [] = None) :
  main self_manage levels machine argv p = (p, Panics).
Proof.
  unfold main. assert (load_env_file (env_file p) (env p) = None) as ->; [|done].
  unfold load_env_file. revert Hline. generalize (parse_env_lines (env_file p)). intros l. revert Henv.
  generalize (env p). induction l as [|[k v] l IH]; intros env0 Henv; [by intros ?%not_elem_of_nil|].
  cbn. intros [[= <- <-]|Hin]%elem_of_cons.
  - rewrite Henv. unfold set_var. rewrite bool_decide_true by tauto. apply load_panicked.
  - destruct (env0 !! k) eqn:Ek; [by apply IH|]. unfold set_var. case_bool_decide as Hk; [apply load_panicked|].
    apply IH; [|done]. rewrite lookup_insert_ne; [done|]. intros ->. tauto.
Qed.

End Settings.

(** ** Examples *)

(** Arguments: the flags and the command. *)
Record ToyArgv := mkArgv { toy_uri_flag : option bytes; toy_password_flag : option bytes; toy_command : Commands }.

Definition toy_fill (a : ToyArgv) (env : gmap bytes bytes) : Commands :=
  match toy_command a with
  | Checkpoint (ServeDav addr _) => Checkpoint (ServeDav addr (or_else (toy_password_flag a) (env !! DAV_PASSWORD_VAR)))
  | c => c
  end.

#[export] Instance ToyClap : Clap ToyArgv := {
  parse a env := Some (mkCli None None (or_else (toy_uri_flag a) (env !! STORAGE_URI_VAR)) (StorageUri.mkCache None false)
                         (toy_fill a env),
                       mkMatches (env !! STORAGE_URI_VAR) (Some EnvVariable)
                         (Some (mkMatches (toy_uri_flag a) (if toy_uri_flag a then Some CommandLine else None) None)));
  uri_flag := toy_uri_flag;
  password_flag := toy_password_flag
}.

#[export] Instance ToyClapLaws : ClapLaws ToyArgv.
Proof.
  split.
  - by intros a e cli m [= <- <-].
  - intros a e cli m [= <- <-]. cbn. by destruct (toy_uri_flag a).
  - intros a e cli m addr pw [= <- <-]. cbn. unfold toy_fill. destruct (toy_command a) as [| | | | |[? ?| |ad pw0]| | | | |]; try done.
    by intros [= <- <-].
Qed.

Definition toy_process (file : bytes) : Process := mkProcess {[ lit "HOME" := lit "/root" ]} {[ DEFAULT_ENV_FILE := Some file ]}.
Definition toy_settings : bytes :=
  STORAGE_URI_VAR ++ lit "=s3://b" ++ [NL] ++ DAV_PASSWORD_VAR ++ lit "=secret" ++ [NL].
Definition toy_args : ToyArgv := mkArgv None None (Checkpoint (ServeDav (lit "localhost:80") None)).


Lemma nameless_assignment_panics_witness :
  snd (main true (fun _ => true) (lit "m") (mkArgv None None GetId) (toy_process (toy_settings ++ lit "= oops"))) = Panics.
Proof.
  rewrite (nameless_assignment_panics true (fun _ => true) (lit "m") (mkArgv None None GetId)
    (toy_process (toy_settings ++ lit "= oops")) (lit " oops")).
  - reflexivity.
  - apply (bool_decide_unpack _). by vm_compute.
  - by vm_compute.
Defined.

End Cli.
