(* ===== verification/Harness.v ===== *)
(** The test harness ([bepository-harness/src/lib.rs]): instances of Syncthing
    driven over their REST interface, and the guard of the process environment
    ([bepository-cli/src/test_env.rs]).

    A request is answered by the network, a type class; the JSON documents are
    the values of serde_json. Calls of [add_peer] run concurrently: their steps
    (a request, taking the mutex) are those of a relation. *)

From Stdlib Require Import ZArith Lia.
From stdpp Require Import base gmap list strings relations.
From S2P Require Import Prelude EnvFile Upgrade StorageUri.

Local Open Scope Z_scope.
Local Open Scope bep_scope.

Module Harness.

(** ** Documents *)

(** [serde_json::Value]; an object is the list of its members. *)
Inductive Value :=
| Null
| Bool (b : bool)
| Number (n : Z)
| Text (s : bytes)
| Array (l : list Value)
| Object (members : list (bytes * Value)).

Fixpoint member (key : bytes) (members : list (bytes * Value)) : option Value :=
  match members with
  | [] => None
  | (k, v) :: rest => if bool_decide (k = key) then Some v else member key rest
  end.

(** [value[key]] *)
Definition index (key : bytes) (v : Value) : Value :=
  match v with Object members => default Null (member key members) | _ => Null end.

Definition as_str (v : Value) : option bytes := match v with Text s => Some s | _ => None end.

Fixpoint set_member (key : bytes) (v : Value) (members : list (bytes * Value)) : list (bytes * Value) :=
  match members with
  | [] => [(key, v)]
  | (k, v0) :: rest => if bool_decide (k = key) then (k, v) :: rest else (k, v0) :: set_member key v rest
  end.

Inductive HarnessError :=
| BinaryNotFound
| Io
| StartupTimeout
| ApiError (status : Z) (body : bytes)
| CertGen
| Reqwest
| Panicked.

(** [config[key].as_array_mut()] and a push: indexing a value for writing panics
    unless it is an object or null. *)
Definition push_to (key : bytes) (item : Value) (config : Value) : result HarnessError Value :=
  let missing := ApiError 0 (lit "missing devices array") in
  match config with
  | Object members =>
      match member key members with
      | Some (Array l) => Ok (Object (set_member key (Array (l ++ [item])) members))
      | _ => Err missing
      end
  | Null => Err missing
  | _ => Err Panicked
  end.

(** ** Requests *)

Inductive Method := GET | POST | PUT | DELETE.

Record Request := mkRequest { method : Method; url : bytes; api_key_header : bytes; json : option Value }.

(** A response: its text and the document it parses as; reading the body may
    fail. *)
Record Response := mkResponse { status : Z; text : result bytes bytes; parsed : option Value }.

Class Network (S : Type) := send : Request -> SE S unit Response.

Record RestClient := mkClient { api_base : bytes; api_key : bytes }.

Section Client.
Context {S : Type} `{!Network S}.
Abbreviation HM := (SE S HarnessError).

Fixpoint digits (fuel : nat) (n : Z) : bytes :=
  match fuel with
  | O => []
  | Datatypes.S fuel' => (if n <? 10 then [] else digits fuel' (n / 10)) ++ [48 + n mod 10]
  end.
(** A [u16] in decimal. *)
Definition port_text (port : Z) : bytes := digits 5 port.

Definition new_client (api_port : Z) (api_key : bytes) : RestClient :=
  mkClient (lit "http://127.0.0.1:" ++ port_text api_port) api_key.

Definition is_success (status : Z) : bool := (200 <=? status) && (status <? 300).

Definition check_status (resp : Response) : result HarnessError Response :=
  if negb (is_success (status resp)) then
    Err (ApiError (status resp) (match text resp with Ok t => t | Err e => lit "failed to read body: " ++ e end))
  else Ok resp.

Definition request (c : RestClient) (m : Method) (path : bytes) (body : option Value) : HM Response := fun s =>
  match send (mkRequest m (api_base c ++ path) (api_key c) body) s with
  | (s', Ok resp) => (s', check_status resp)
  | (s', Err _) => (s', Err Reqwest)
  end.

Definition get (c : RestClient) (path : bytes) : HM Response := request c GET path None.
Definition post_json (c : RestClient) (path : bytes) (body : Value) : HM unit :=
  run! request c POST path (Some body); se_ret tt.
Definition delete (c : RestClient) (path : bytes) : HM unit := run! request c DELETE path None; se_ret tt.

Definition ping (c : RestClient) : HM unit := run! get c (lit "/rest/system/ping"); se_ret tt.

Definition body_json (resp : Response) : HM Value := se_lift (ok_or (parsed resp) Reqwest).

Definition get_my_id (c : RestClient) : HM bytes :=
  do! resp <- get c (lit "/rest/system/status");
  do! body <- body_json resp;
  se_lift (ok_or (as_str (index (lit "myID") body)) (ApiError 0 (lit "missing myID"))).

Definition folder_path (folder_id : bytes) : bytes := lit "/rest/config/folders/" ++ folder_id.

Definition delete_folder (c : RestClient) (folder_id : bytes) : HM unit := delete c (folder_path folder_id).
Definition get_folder (c : RestClient) (folder_id : bytes) : HM Value :=
  do! resp <- get c (folder_path folder_id); body_json resp.
Definition put_folder (c : RestClient) (folder_id : bytes) (config : Value) : HM unit :=
  run! request c PUT (folder_path folder_id) (Some config); se_ret tt.

Definition device_json (device_id addr : bytes) : Value :=
  Object [(lit "deviceID", Text device_id); (lit "name", Text []); (lit "addresses", Array [Text addr]);
          (lit "compression", Text (lit "metadata")); (lit "introducer", Bool false);
          (lit "skipIntroductionRemovals", Bool false)].

Definition add_device (c : RestClient) (device_id addr : bytes) : HM unit :=
  post_json c (lit "/rest/config/devices") (device_json device_id addr).

(** ** Folders *)

Definition folder_json (local_path folder_id : bytes) : Value :=
  Object [(lit "id", Text folder_id); (lit "label", Text []); (lit "path", Text local_path);
          (lit "type", Text (lit "sendreceive")); (lit "devices", Array []); (lit "rescanIntervalS", Number 5);
          (lit "fsWatcherEnabled", Bool true); (lit "fsWatcherDelayS", Number 1)].

(** A handle; [mu] names its mutex. *)
Record FolderHandle := mkHandle { folder_id : bytes; owner_id : bytes; client : RestClient; mu : nat }.

(** [share_named]; [fresh] is the mutex that the handle gets. *)
Definition share_named (c : RestClient) (device_id local_path id : bytes) (fresh : nat) : HM FolderHandle :=
  run! post_json c (lit "/rest/config/folders") (folder_json local_path id);
  se_ret (mkHandle id device_id c fresh).

Definition hex32 (n : Z) : bytes :=
  Upgrade.hex_encode [Z.shiftr n 24 mod 256; Z.shiftr n 16 mod 256; Z.shiftr n 8 mod 256; n mod 256].

(** [share]; [r1] and [r2] are random. *)
Definition share (c : RestClient) (device_id local_path : bytes) (r1 r2 : Z) (fresh : nat) : HM FolderHandle :=
  share_named c device_id local_path (hex32 r1 ++ lit "-" ++ hex32 r2) fresh.

(** Dropping a handle: the failure of the request is only printed. *)
Definition drop_handle (h : FolderHandle) (s : S) : S := fst (delete_folder (client h) (folder_id h) s).

(** *** Concurrent calls of [add_peer] *)

Definition peer_json (peer : bytes) : Value :=
  Object [(lit "deviceID", Text peer); (lit "introducedBy", Text []); (lit "encryptionPassword", Text [])].

(** Where a call is: before the registration of the device, waiting for the mutex,
    holding it, holding it with the extended document, or finished. *)
Inductive Phase :=
| Starting
| Waiting
| Holding
| Fetched (config : Value)
| Finished (r : result HarnessError unit).

Record Caller := mkCaller { on : FolderHandle; peer : bytes; addr : bytes; phase : Phase }.

Record World := mkWorld { network : S; held : gmap nat nat; callers : gmap nat Caller }.

Definition set_phase (c : nat) (call : Caller) (p : Phase) (s : S) (held : gmap nat nat) (w : World) : World :=
  mkWorld s held (<[ c := mkCaller (on call) (peer call) (addr call) p ]> (callers w)).

(** The next step of a call; the mutex is free again however the call ends. *)
Definition add_peer_step (c : nat) (w : World) : World :=
  match callers w !! c with
  | None => w
  | Some call =>
      let h := on call in
      let free := base.delete (mu h) (held w) in
      match phase call with
      | Starting =>
          let '(s', r) := add_device (client h) (peer call) (addr call) (network w) in
          set_phase c call (match r with Ok _ => Waiting | Err e => Finished (Err e) end) s' (held w) w
      | Waiting =>
          match held w !! mu h with
          | Some _ => w
          | None => set_phase c call Holding (network w) (<[ mu h := c ]> (held w)) w
          end
      | Holding =>
          let '(s', r) := get_folder (client h) (folder_id h) (network w) in
          match rbind r (push_to (lit "devices") (peer_json (peer call))) with
          | Ok config => set_phase c call (Fetched config) s' (held w) w
          | Err e => set_phase c call (Finished (Err e)) s' free w
          end
      | Fetched config =>
          let '(s', r) := put_folder (client h) (folder_id h) config (network w) in
          set_phase c call (Finished r) s' free w
      | Finished _ => w
      end
  end.

End Client.

(** ** Processes *)

(** What the harness uses of its machine: temporary directories, ports, files,
    child processes and the clock (milliseconds). *)
Class Host (S : Type) := {
  tempdir : SE S HarnessError bytes;
  remove_dir : bytes -> S -> S;
  find_free_port : SE S HarnessError Z;
  write_file : bytes -> bytes -> SE S HarnessError unit;
  exists_file : bytes -> S -> bool;
  spawn : bytes -> list bytes -> SE S HarnessError nat;
  kill : nat -> S -> S;
  now : S -> Z;
  sleep : Z -> S -> S
}.

Definition COLON : Z := 58.
Definition QUOTE : Z := 34.
Definition quoted (s : string) : bytes := QUOTE :: lit s ++ [QUOTE].

Record InstanceConfig := mkInstance {
  instance_key : bytes; cert_pem : bytes; key_pem : bytes; config_xml : bytes; api_port : Z; bep_port : Z
}.

Definition element (indent : string) (tag : string) (body : bytes) : bytes :=
  lit indent ++ lit "<" ++ lit tag ++ lit ">" ++ body ++ lit "</" ++ lit tag ++ lit ">" ++ [EnvFile.NL].
Definition line (s : string) : bytes := lit s ++ [EnvFile.NL].

Definition config_xml_str (key : bytes) (api bep : Z) : bytes :=
  lit "<configuration version=" ++ quoted "37" ++ lit ">" ++ [EnvFile.NL] ++
  lit "  <gui enabled=" ++ quoted "true" ++ lit " tls=" ++ quoted "false" ++ lit " debugging=" ++ quoted "false" ++
  lit ">" ++ [EnvFile.NL] ++
  element "    " "address" (lit "127.0.0.1:" ++ port_text api) ++
  element "    " "apikey" key ++
  line "  </gui>" ++
  line "  <options>" ++
  element "    " "listenAddress" (lit "tcp://127.0.0.1:" ++ port_text bep) ++
  element "    " "globalAnnounceEnabled" (lit "false") ++
  element "    " "localAnnounceEnabled" (lit "false") ++
  element "    " "relaysEnabled" (lit "false") ++
  element "    " "startBrowser" (lit "false") ++
  element "    " "reconnectionIntervalS" (lit "5") ++
  element "    " "autoUpgradeIntervalH" (lit "0") ++
  element "    " "urAccepted" (lit "-1") ++
  line "  </options>" ++
  line "</configuration>".

(** [generate_api_key] of 32 random bytes. *)
Definition generate_api_key (random : bytes) : bytes := Upgrade.hex_encode random.

(** [generate_config]; the certificate and its key, if they could be made. *)
Definition generate_config (cert : option (bytes * bytes)) (random : bytes) (api bep : Z) :
  result HarnessError InstanceConfig :=
  match cert with
  | None => Err CertGen
  | Some (pem, key) =>
      let k := generate_api_key random in
      Ok (mkInstance k pem key (config_xml_str k api bep) api bep)
  end.

Section Process.
Context {S : Type} `{!Network S} `{!Host S}.
Abbreviation HM := (SE S HarnessError).

(** [find_binary], with the variables that are text. *)
Definition find_binary (vars : gmap bytes bytes) : HM bytes := fun s =>
  (s, match vars !! lit "SYNCTHING_BIN" with
      | Some p => if exists_file p s then Ok p else Err BinaryNotFound
      | None =>
          let candidates := match vars !! lit "PATH" with
                            | Some paths => map (fun dir => StorageUri.path_join dir (lit "syncthing")) (split_char COLON paths)
                            | None => []
                            end in
          ok_or (find (fun p => exists_file p s) candidates) BinaryNotFound
      end).

Definition spawn_process (binary home_dir : bytes) : HM nat :=
  spawn binary [lit "--no-browser"; lit "--no-restart"; lit "--home=" ++ home_dir].

(** The loop of [wait_for_ready] until [deadline]; [None] is out of fuel. *)
Fixpoint wait_loop (fuel : nat) (c : RestClient) (deadline : Z) (s : S) : option (S * result HarnessError unit) :=
  match fuel with
  | O => None
  | Datatypes.S fuel' =>
      if deadline <=? now s then Some (s, Err StartupTimeout)
      else
        let '(s1, r) := ping c s in
        if is_ok r then Some (s1, Ok tt) else wait_loop fuel' c deadline (sleep 200 s1)
  end.

(** One more than the pauses that fit into the timeout. *)
Definition wait_for_ready (c : RestClient) (timeout : Z) : HM unit := fun s =>
  match wait_loop (Z.to_nat (timeout / 200 + 2)) c (now s + timeout) s with
  | Some out => out
  | None => (s, Err StartupTimeout)
  end.

(** The instance; it is removed when the value is dropped. *)
Record Harness := mkHarness {
  temp_dir : bytes; child : nat; rest : RestClient; device_id : bytes; listen_addr : bytes
}.

Definition drop_instance (h : Harness) (s : S) : S := remove_dir (temp_dir h) (kill (child h) s).

(** Values whose drop runs when a later step fails. *)
Definition or_undo {A : Type} (undo : S -> S) (m : HM A) : HM A := fun s =>
  match m s with (s', Ok a) => (s', Ok a) | (s', Err e) => (undo s', Err e) end.

(** [start]; the variables, the certificate and the random bytes of the run. *)
Definition start (vars : gmap bytes bytes) (cert : option (bytes * bytes)) (random : bytes) : HM Harness :=
  do! dir <- tempdir;
  or_undo (remove_dir dir) (
    do! api <- find_free_port;
    do! bep <- find_free_port;
    do! cfg <- se_lift (generate_config cert random api bep);
    run! write_file (StorageUri.path_join dir (lit "cert.pem")) (cert_pem cfg);
    run! write_file (StorageUri.path_join dir (lit "key.pem")) (key_pem cfg);
    run! write_file (StorageUri.path_join dir (lit "config.xml")) (config_xml cfg);
    do! binary <- find_binary vars;
    do! child <- spawn_process binary dir;
    or_undo (kill child) (
      let c := new_client (api_port cfg) (instance_key cfg) in
      run! wait_for_ready c 15000;
      do! id <- get_my_id c;
      se_ret (mkHarness dir child c id (lit "tcp://127.0.0.1:" ++ port_text (bep_port cfg))))).

End Process.

(** ** The environment of a test *)

(** [EnvGuard]: the variables and their values; a variable whose value is no text
    reads as unset. *)
Abbreviation Env := (gmap bytes bytes).

Definition acquire (readable : bytes -> bool) (vars : list bytes) (env : Env) : Env * list (bytes * option bytes) :=
  (foldl (fun env k => base.delete k env) env vars,
   map (fun k => (k, match env !! k with Some v => if readable v then Some v else None | None => None end)) vars).

Definition drop_guard (saved : list (bytes * option bytes)) (env : Env) : Env :=
  foldl (fun env '(k, orig) => match orig with Some v => <[ k := v ]> env | None => base.delete k env end) env saved.

(** ** Peers are not lost *)

(** The devices that the document of a folder lists. *)
Definition ids_of (config : Value) : list bytes :=
  match index (lit "devices") config with
  | Array l => omap (fun d => as_str (index (lit "deviceID") d)) l
  | _ => []
  end.

Definition succeeded (r : result unit Response) : Prop := exists resp, r = Ok resp /\ is_success (status resp) = true.

(** What the REST interface of Syncthing documents: [devices s u] are the devices
    of the folder whose document is at [u]. *)
Class Syncthing (S : Type) `{!Network S} := {
  devices : S -> bytes -> option (list bytes);
  get_law u key s : let '(s', r) := send (mkRequest GET u key None) s in
    devices s' = devices s /\
    forall resp v ids, r = Ok resp -> is_success (status resp) = true -> parsed resp = Some v ->
      devices s u = Some ids -> ids ⊆ ids_of v;
  put_law u key config s : let '(s', r) := send (mkRequest PUT u key (Some config)) s in
    (forall u', u' <> u -> devices s' u' = devices s u') /\
    ((exists ids, devices s' u = Some ids /\ ids_of config ⊆ ids) \/ (devices s' u = devices s u /\ ~ succeeded r));
  post_device_law base key body s :
    devices (fst (send (mkRequest POST (base ++ lit "/rest/config/devices") key body) s)) = devices s
}.

Section Peers.
Context {S : Type} `{!Network S} `{!Syncthing S}.
Implicit Types (w : World (S := S)) (s : S).

Definition folder_url (h : FolderHandle) : bytes := api_base (client h) ++ folder_path (folder_id h).

(** The calls run in any order, beside what leaves the devices of the folders. *)
Inductive step w : World (S := S) -> Prop :=
| step_call c : step w (add_peer_step c w)
| step_other s' : devices s' = devices (network w) -> step w (mkWorld s' (held w) (callers w)).

Definition grows s s' : Prop :=
  forall u ids, devices s u = Some ids -> exists ids', devices s' u = Some ids' /\ ids ⊆ ids'.

Lemma grows_same s s' : devices s' = devices s -> grows s s'.
Proof. intros E u ids Hu. exists ids. by rewrite E. Qed.

Lemma member_set key v l : is_Some (member key l) -> member key (set_member key v l) = Some v.
Proof.
  induction l as [|[k v0] l IH]; cbn; [by intros []|]. case_bool_decide as Ek; cbn.
  - by rewrite bool_decide_true.
  - rewrite bool_decide_false by done. exact IH.
Qed.

(** The extended document lists the devices of the old one and the peer. *)
Lemma push_ids p v config : push_to (lit "devices") (peer_json p) v = Ok config -> ids_of config = ids_of v ++ [p].
Proof.
  destruct v as [| | | | |l]; cbn [push_to]; try done. destruct (member (lit "devices") l) as [[| | | |d|]|] eqn:Em; try done.
  intros [= <-]. unfold ids_of, index. rewrite member_set, Em by done. cbn [from_option id]. by rewrite omap_app.
Qed.

Lemma request_sent c m path body s s' r : request c m path body s = (s', r) ->
  exists r0, send (mkRequest m (api_base c ++ path) (api_key c) body) s = (s', r0) /\
    forall resp, r = Ok resp -> r0 = Ok resp /\ is_success (status resp) = true.
Proof.
  unfold request. destruct (send _ s) as [s1 r0]. intros E. exists r0.
  destruct r0 as [resp0|e]; injection E as <- <-; (split; [done|]); [|done].
  unfold check_status. destruct (is_success (status resp0)) eqn:Es; [|done]. by intros resp [= <-].
Qed.

Lemma add_device_same c d a s : devices (fst (add_device c d a s)) = devices s.
Proof.
  unfold add_device, post_json, se_bind. destruct (request c POST _ _ s) as [s1 r] eqn:E.
  destruct (request_sent _ _ _ _ _ _ _ E) as (r0 & Hs & _).
  pose proof (post_device_law (api_base c) (api_key c) (Some (device_json d a)) s) as Hl. rewrite Hs in Hl. by destruct r.
Qed.

Lemma get_folder_lists c f s s' r : get_folder c f s = (s', r) -> devices s' = devices s /\
  forall v ids, r = Ok v -> devices s (api_base c ++ folder_path f) = Some ids -> ids ⊆ ids_of v.
Proof.
  unfold get_folder, get, se_bind. destruct (request c GET _ _ s) as [s1 r1] eqn:E.
  destruct (request_sent _ _ _ _ _ _ _ E) as (r0 & Hs & Hok).
  pose proof (get_law (api_base c ++ folder_path f) (api_key c) s) as Hl. rewrite Hs in Hl. destruct Hl as [Hd Hv].
  destruct r1 as [resp|e]; intros [= <- <-]; (split; [done|]); [|done].
  destruct (Hok resp eq_refl) as [-> Hsucc]. intros v ids Hp. unfold ok_or in Hp.
  destruct (parsed resp) as [v0|] eqn:Ep; [|done]. injection Hp as ->. by apply (Hv resp).
Qed.

Lemma put_folder_lists c f config s s' r u : u = api_base c ++ folder_path f -> put_folder c f config s = (s', r) ->
  (forall u', u' <> u -> devices s' u' = devices s u') /\
  ((exists ids, devices s' u = Some ids /\ ids_of config ⊆ ids) \/ (devices s' u = devices s u /\ r <> Ok tt)).
Proof.
  intros ->. unfold put_folder, se_bind. destruct (request c PUT _ _ s) as [s1 r1] eqn:E.
  destruct (request_sent _ _ _ _ _ _ _ E) as (r0 & Hs & Hok).
  pose proof (put_law (api_base c ++ folder_path f) (api_key c) config s) as Hl. rewrite Hs in Hl. destruct Hl as [Ho Hc].
  destruct r1 as [resp|e]; intros [= <- <-]; (split; [done|]); destruct Hc as [Hc|[Hc Hn]]; try (by left).
  - destruct Hn. exists resp. by apply Hok.
  - by right.
Qed.

(** What holds of a call: it has the mutex while it works on the document, the
    document it is about to write lists the devices of the folder, and a call
    that succeeded has its peer among them. *)
Definition good_call s (held : gmap nat nat) (c : nat) (call : Caller) : Prop :=
  (match phase call with Holding | Fetched _ => held !! mu (on call) = Some c | _ => True end) /\
  exists ids, devices s (folder_url (on call)) = Some ids /\
    match phase call with
    | Fetched config => ids ⊆ ids_of config /\ peer call ∈ ids_of config
    | Finished (Ok _) => peer call ∈ ids
    | _ => True
    end.

Lemma good_call_frame s s' held held' c call :
  (held !! mu (on call) = Some c ->
     held' !! mu (on call) = Some c /\ devices s' (folder_url (on call)) = devices s (folder_url (on call))) ->
  grows s s' -> good_call s held c call -> good_call s' held' c call.
Proof.
  intros Hmine Hg [Hh (ids & Hd & Hp)]. unfold good_call.
  assert (exists ids', devices s' (folder_url (on call)) = Some ids' /\ ids ⊆ ids') as (ids' & Hd' & Hsub) by by apply Hg.
  destruct (phase call) as [| | |config|[u|e]]; (split; [by try apply Hmine|]); try (by exists ids').
  - destruct (Hmine Hh) as [_ E]. exists ids. by rewrite E.
  - exists ids'. split; [done|]. by apply Hsub.
Qed.

(** Handles of one folder share their mutex (they are the same handle). *)
Definition one_mutex w : Prop := forall c c' call call', callers w !! c = Some call -> callers w !! c' = Some call' ->
  folder_url (on call) = folder_url (on call') -> mu (on call) = mu (on call').

Definition all_good w : Prop := forall c call, callers w !! c = Some call -> good_call (network w) (held w) c call.

(** A step of the call [c] keeps the others, when it keeps the mutexes they hold
    and what it writes is its own folder, under its mutex. *)
Lemma set_phase_good w c call p s' held' :
  all_good w -> one_mutex w -> callers w !! c = Some call -> grows (network w) s' ->
  (forall m c', c' <> c -> held w !! m = Some c' -> held' !! m = Some c') ->
  (devices s' = devices (network w) \/ (held w !! mu (on call) = Some c /\
     forall u, u <> folder_url (on call) -> devices s' u = devices (network w) u)) ->
  good_call s' held' c (mkCaller (on call) (peer call) (addr call) p) ->
  all_good (set_phase c call p s' held' w) /\ one_mutex (set_phase c call p s' held' w).
Proof.
  intros Hall Hone Hc Hg Hheld Hdev Hnew. split.
  - intros c' call' Hc'. cbn [set_phase callers network held] in *.
    destruct (decide (c' = c)) as [->|Hne]; [rewrite lookup_insert_eq in Hc'; by injection Hc' as <-|].
    rewrite lookup_insert_ne in Hc' by done. eapply good_call_frame; [|done|by apply Hall].
    intros Hh. split; [by apply Hheld|]. destruct Hdev as [->|[Hm Hu]]; [done|]. apply Hu. intros E.
    rewrite (Hone _ _ _ _ Hc' Hc E), Hm in Hh. by injection Hh.
  - intros c1 c2 call1 call2. cbn [set_phase callers].
    destruct (decide (c1 = c)) as [->|H1], (decide (c2 = c)) as [->|H2];
      rewrite ?lookup_insert_eq, ?lookup_insert_ne by done; intros E1 E2; simplify_eq; cbn [on]; eauto.
Qed.

Lemma free_keeps w c call : callers w !! c = Some call -> held w !! mu (on call) = Some c ->
  forall m c', c' <> c -> held w !! m = Some c' -> base.delete (mu (on call)) (held w) !! m = Some c'.
Proof. intros Hc Hm m c' Hne Hl. rewrite lookup_delete_ne; [done|]. intros <-. rewrite Hm in Hl. by injection Hl. Qed.

Lemma add_peer_step_good c w : all_good w -> one_mutex w ->
  (all_good (add_peer_step c w) /\ one_mutex (add_peer_step c w)) /\ grows (network w) (network (add_peer_step c w)).
Proof.
  intros Hall Hone. assert (grows (network w) (network w)) as Hrefl by by apply grows_same.
  unfold add_peer_step. destruct (callers w !! c) as [call|] eqn:Hc; [|done].
  destruct (Hall _ _ Hc) as [Hh (ids & Hd & Hp)]. destruct (phase call) as [| | |config|r] eqn:Ephase; [| | | |done].
  - destruct (add_device _ _ _ (network w)) as [s' r] eqn:E.
    pose proof (add_device_same (client (on call)) (peer call) (addr call) (network w)) as Hs. rewrite E in Hs. cbn in Hs.
    pose proof (grows_same _ _ Hs) as Hg. split; [|done]. apply set_phase_good; eauto.
    split; [by destruct r|]. exists ids. rewrite Hs. by destruct r.
  - destruct (held w !! mu (on call)) eqn:Em; [done|]. split; [|done]. apply set_phase_good; eauto.
    + intros m c' _ Hm. rewrite lookup_insert_ne; [done|]. intros <-. by rewrite Em in Hm.
    + split; [apply lookup_insert_eq|by exists ids].
  - destruct (get_folder _ _ (network w)) as [s' r] eqn:E. destruct (get_folder_lists _ _ _ _ _ E) as [Hs Hv].
    pose proof (grows_same _ _ Hs) as Hg. destruct (rbind r _) as [config|e] eqn:Er.
    + split; [|done]. apply set_phase_good; eauto. destruct r as [v|]; [|done]. cbn [rbind] in Er.
      split; [done|]. exists ids. rewrite Hs. split; [done|].
      cbn [phase peer]. rewrite (push_ids _ _ _ Er).
      split; [|by apply elem_of_app; right; left]. pose proof (Hv v ids eq_refl Hd). set_solver.
    + split; [|done]. apply set_phase_good; eauto using free_keeps. split; [done|]. exists ids. by rewrite Hs.
  - destruct (put_folder _ _ _ (network w)) as [s' r] eqn:E.
    destruct (put_folder_lists _ _ _ _ _ _ (folder_url (on call)) eq_refl E) as [Ho Hc'].
    assert (exists ids', devices s' (folder_url (on call)) = Some ids' /\ ids ⊆ ids' /\ (r = Ok tt -> peer call ∈ ids'))
      as (ids' & Hd' & Hsub & Hok).
    { destruct Hp as [Hp1 Hp2]. destruct Hc' as [(ids' & Hi & Hsub)|[Hsame Hr]].
      - exists ids'. split_and!; [done|set_solver|set_solver].
      - exists ids. by rewrite Hsame. }
    assert (grows (network w) s') as Hg.
    { intros u i Hu. destruct (decide (u = folder_url (on call))) as [->|Hne]; [|exists i; by rewrite Ho].
      exists ids'. rewrite Hd in Hu. by injection Hu as <-. }
    split; [|done]. apply set_phase_good; eauto using free_keeps. split; [done|]. exists ids'. split; [done|]. cbn.
    destruct r as [[]|]; [by apply Hok|done].
Qed.

(** Concurrent calls of [add_peer] through one handle do not lose each other's
    peers: from a network in which the folders exist, in every order of the
    steps of any number of calls, requests that fail included (and applied or
    not), the devices of a folder only grow, and every call that returned
    without an error has its peer among them. *)
Theorem peers_not_lost w0 w (Hfree : forall c call, callers w0 !! c = Some call ->
    phase call = Starting /\ is_Some (devices (network w0) (folder_url (on call))))
  (Hone : one_mutex w0) (Hrun : rtc step w0 w) :
  grows (network w0) (network w) /\
  forall c call, callers w !! c = Some call -> phase call = Finished (Ok tt) ->
    exists ids, devices (network w) (folder_url (on call)) = Some ids /\ peer call ∈ ids.
Proof.
  assert (all_good w0) as Hall0.
  { intros c call Hc. destruct (Hfree _ _ Hc) as [Hp [ids Hd]]. unfold good_call. rewrite Hp. split; [done|by exists ids]. }
  assert ((all_good w /\ one_mutex w) /\ grows (network w0) (network w)) as [[Hall _] Hg].
  { revert Hrun. apply (rtc_ind_r (fun w => (all_good w /\ one_mutex w) /\ grows (network w0) (network w))).
    - split; [done|]. by apply grows_same.
    - intros w1 w2 _ Hs [[Ha Ho] Hg]. destruct Hs as [c|s' Hs].
      + destruct (add_peer_step_good c w1 Ha Ho) as [Hgood Hg2]. split; [done|].
        intros u i Hu. destruct (Hg u i Hu) as (i1 & H1 & Hsub1). destruct (Hg2 u i1 H1) as (i2 & H2 & Hsub2).
        exists i2. split; [done|]. by etrans.
      + split; [split; [|done]|intros u i Hu; cbn; rewrite Hs; by apply Hg].
        intros c call Hc. eapply good_call_frame; [|by apply grows_same|by apply Ha]. cbn. by rewrite Hs. }
  split; [done|]. intros c call Hc Hp. destruct (Hall _ _ Hc) as [_ (ids & Hd & H)]. exists ids. by rewrite Hp in H.
Qed.

End Peers.

(** ** Starting an instance *)

Section Starting.
Context {S : Type} `{!Network S} `{!Host S}.
Abbreviation HM := (SE S HarnessError).

(** What is left on the machine: child processes and temporary directories. *)
Class HostLaws (running : S -> gset nat) (dirs : S -> gset bytes) : Prop := {
  send_keeps r s : running (fst (send r s)) = running s /\ dirs (fst (send r s)) = dirs s;
  port_keeps s : running (fst (find_free_port s)) = running s /\ dirs (fst (find_free_port s)) = dirs s;
  write_keeps p b s : running (fst (write_file p b s)) = running s /\ dirs (fst (write_file p b s)) = dirs s;
  sleep_keeps d s : running (sleep d s) = running s /\ dirs (sleep d s) = dirs s;
  tempdir_new s : let '(s', r) := tempdir s in running s' = running s /\
    match r with Ok d => d ∉ dirs s /\ dirs s' = {[ d ]} ∪ dirs s | Err _ => dirs s' = dirs s end;
  remove_dir_law d s : running (remove_dir d s) = running s /\ dirs (remove_dir d s) = dirs s ∖ {[ d ]};
  spawn_new b args s : let '(s', r) := spawn b args s in dirs s' = dirs s /\
    match r with Ok c => c ∉ running s /\ running s' = {[ c ]} ∪ running s | Err _ => running s' = running s end;
  kill_law c s : running (kill c s) = running s ∖ {[ c ]} /\ dirs (kill c s) = dirs s;
  send_time r s : now s <= now (fst (send r s));
  sleep_time d s : now s + d <= now (sleep d s)
}.

Context (running : S -> gset nat) (dirs : S -> gset bytes) `{!HostLaws running dirs}.

Definition same s s' : Prop := running s' = running s /\ dirs s' = dirs s.
Definition keeps {A : Type} (m : HM A) : Prop := forall s, same s (fst (m s)).

Lemma kept_bind {A B : Type} (m : HM A) (k : A -> HM B) : keeps m -> (forall a, keeps (k a)) -> keeps (se_bind m k).
Proof.
  intros Hm Hk s. unfold se_bind. specialize (Hm s). destruct (m s) as [s1 [a|e]]; [|done].
  destruct Hm as [H1 H2], (Hk a s1) as [H3 H4]. split; cbn in *; congruence.
Qed.

Lemma kept_ret {A : Type} (r : result HarnessError A) : keeps (se_lift r).
Proof. done. Qed.

Lemma keeps_request c m path body : keeps (request c m path body).
Proof. intros s. unfold request. pose proof (send_keeps (mkRequest m (api_base c ++ path) (api_key c) body) s) as H. by destruct (send _ s) as [s' []]. Qed.

Lemma keeps_ping c : keeps (ping c).
Proof. apply kept_bind; [apply keeps_request|done]. Qed.

Lemma keeps_get_my_id c : keeps (get_my_id c).
Proof. apply kept_bind; [apply keeps_request|]. intros resp. by apply kept_bind. Qed.

Lemma ping_time c s : now s <= now (fst (ping c s)).
Proof.
  unfold ping, get, request, se_bind.
  pose proof (send_time (mkRequest GET (api_base c ++ lit "/rest/system/ping") (api_key c) None) s) as Ht.
  destruct (send _ s) as [s1 [resp|]]; [|done]. by destruct (check_status resp).
Qed.

(** The wait for the interface of an instance ends: with an answer, or when the
    time is over. *)
Lemma wait_loop_ends fuel c deadline s : deadline - now s <= 200 * (Z.of_nat fuel - 1) -> (0 < fuel)%nat ->
  exists s' r, wait_loop fuel c deadline s = Some (s', r) /\ same s s' /\
    (r = Ok tt \/ (r = Err StartupTimeout /\ deadline <= now s')).
Proof.
  revert s. induction fuel as [|fuel IH]; intros s Hf Hpos; [lia|]. cbn [wait_loop].
  destruct (Z.leb_spec deadline (now s)) as [Hle|Hgt]; [exists s, (Err StartupTimeout); split_and!; auto; done|].
  pose proof (keeps_ping c s) as Hk. pose proof (ping_time c s) as Ht. destruct (ping c s) as [s1 r]. cbn [fst] in *.
  destruct (is_ok r); [exists s1, (Ok tt); auto|].
  pose proof (sleep_time 200 s1) as Hs. destruct (sleep_keeps 200 s1) as [Hk1 Hk2]. destruct Hk as [Hk3 Hk4].
  destruct (IH (sleep 200 s1)) as (s' & r' & E & [H1 H2] & Hr); [lia|lia|].
  exists s', r'. split; [done|]. split; [split; congruence|done].
Qed.

Lemma wait_for_ready_ends c timeout s : 0 <= timeout ->
  let '(s', r) := wait_for_ready c timeout s in
  same s s' /\ (r = Ok tt \/ (r = Err StartupTimeout /\ now s + timeout <= now s')).
Proof.
  intros Ht. unfold wait_for_ready.
  destruct (wait_loop_ends (Z.to_nat (timeout / 200 + 2)) c (now s + timeout) s) as (s' & r & -> & Hs & Hr); [| |done].
  - pose proof (Z.mod_pos_bound timeout 200 ltac:(lia)). pose proof (Z.div_mod timeout 200 ltac:(lia)).
    pose proof (Z.div_pos timeout 200 ltac:(lia) ltac:(lia)). lia.
  - pose proof (Z.div_pos timeout 200 ltac:(lia) ltac:(lia)). lia.
Qed.

Lemma add_remove {A : Type} `{Countable A} (a : A) (X Y : gset A) : a ∉ X -> Y = {[ a ]} ∪ X -> Y ∖ {[ a ]} = X.
Proof. intros Ha ->. set_solver. Qed.

(** What the steps after the creation of the directory leave. *)
Definition opened (dir : bytes) (s : S) (out : S * result HarnessError Harness) : Prop :=
  dirs (fst out) = dirs s /\
  match snd out with
  | Ok h => temp_dir h = dir /\ child h ∉ running s /\ running (fst out) = {[ child h ]} ∪ running s
  | Err _ => running (fst out) = running s
  end.

Lemma opened_bind {A : Type} dir (m : HM A) (k : A -> HM Harness) s :
  keeps m -> (forall a s', opened dir s' (k a s')) -> opened dir s (se_bind m k s).
Proof.
  intros Hm Hk. unfold se_bind. destruct (Hm s) as [H1 H2]. destruct (m s) as [s1 [a|e]]; cbn [fst] in *; [|done].
  specialize (Hk a s1). unfold opened in *. by rewrite H1, H2 in Hk.
Qed.

Lemma opened_spawn dir b args (k : nat -> HM Harness) s :
  (forall c, keeps (k c)) -> (forall c s' h, snd (k c s') = Ok h -> temp_dir h = dir /\ child h = c) ->
  opened dir s ((do! c <- spawn b args; or_undo (kill c) (k c)) s).
Proof.
  intros Hk Hh. unfold se_bind, or_undo. pose proof (spawn_new b args s) as Hs. destruct (spawn b args s) as [s1 [c|e]]; [|done].
  destruct Hs as (Hd & Hc & Hr). destruct (Hk c s1) as [H1 H2]. pose proof (Hh c s1) as Hh1.
  destruct (k c s1) as [s2 [h|e]]; unfold opened; cbn [fst snd] in *.
  - destruct (Hh1 h eq_refl) as [-> ->]. split; [congruence|]. split_and!; [done..|congruence].
  - destruct (kill_law c s2) as [Hk1 Hk2]. split; [congruence|]. rewrite Hk1. apply add_remove; congruence.
Qed.

(** [start] leaves nothing behind when it fails, whatever fails: the child is
    killed and the directory removed. When it succeeds, one child and one
    directory are there, and dropping the instance removes both. *)
Theorem start_leaves_nothing vars cert random s :
  let '(s', r) := start vars cert random s in
  match r with
  | Err _ => same s s'
  | Ok h => running s' = {[ child h ]} ∪ running s /\ dirs s' = {[ temp_dir h ]} ∪ dirs s /\ same s (drop_instance h s')
  end.
Proof.
  unfold start, se_bind at 1. pose proof (tempdir_new s) as Ht. destruct (tempdir s) as [s1 [dir|e]]; [|done].
  destruct Ht as (Hr1 & Hnew & Hd1). unfold or_undo at 1.
  match goal with |- context [match ?m s1 with _ => _ end] => assert (opened dir s1 (m s1)) as Ho end.
  { repeat (apply opened_bind; [first [intros ?; apply port_keeps|intros ?; apply write_keeps|done]|intros ? ?]).
    apply opened_spawn.
    - intros c. apply kept_bind; [|intros _; apply kept_bind; [apply keeps_get_my_id|done]].
      intros s2. pose proof (wait_for_ready_ends (new_client (api_port a1) (instance_key a1)) 15000 s2 ltac:(lia)) as Hw.
      destruct (wait_for_ready _ _ s2). by destruct Hw.
    - intros c s2 h. unfold se_bind. destruct (wait_for_ready _ _ s2) as [s3 []]; [|done].
      destruct (get_my_id _ s3) as [s4 []]; [|done]. by intros [= <-]. }
  match goal with |- context [match ?m s1 with _ => _ end] => destruct (m s1) as [s2 [h|e]] end;
    destruct Ho as [Hd Ho]; cbn [fst snd] in *.
  - destruct Ho as (<- & Hc & Hr). rewrite Hr1 in Hc, Hr. rewrite Hd1 in Hd. split; [congruence|]. split; [congruence|]. unfold drop_instance, same.
    destruct (remove_dir_law (temp_dir h) (kill (child h) s2)) as [-> ->], (kill_law (child h) s2) as [-> ->].
    split; by apply add_remove.
  - unfold same. destruct (remove_dir_law dir s2) as [-> ->]. rewrite Hd1 in Hd. split; [congruence|]. by apply add_remove.
Qed.

End Starting.

(** ** The environment of a test is restored *)

Lemma deleted_all (vars : list bytes) (env : Env) (k : bytes) :
  foldl (fun env k => base.delete k env) env vars !! k = if decide (k ∈ vars) then None else env !! k.
Proof.
  revert env. induction vars as [|x vars IH]; intros env; cbn [foldl]; [done|]. rewrite IH.
  destruct (decide (k ∈ vars)); [by rewrite decide_True by by right|].
  destruct (decide (k = x)) as [->|Hne].
  - rewrite lookup_delete_eq, decide_True by by left. done.
  - rewrite lookup_delete_ne by done. rewrite decide_False; [done|]. by intros [?|?]%elem_of_cons.
Qed.

Lemma restored_all (orig : bytes -> option bytes) (vars : list bytes) (env : Env) (k : bytes) :
  drop_guard (map (fun k => (k, orig k)) vars) env !! k = if decide (k ∈ vars) then orig k else env !! k.
Proof.
  unfold drop_guard. revert env. induction vars as [|x vars IH]; intros env; cbn [map foldl]; [done|]. rewrite IH.
  destruct (decide (k ∈ vars)); [by rewrite decide_True by by right|].
  destruct (decide (k = x)) as [->|Hne].
  - rewrite decide_True by by left. destruct (orig x); [apply lookup_insert_eq|apply lookup_delete_eq].
  - rewrite (decide_False (P := k ∈ x :: vars)) by by intros [?|?]%elem_of_cons.
    destruct (orig x); [by apply lookup_insert_ne|by apply lookup_delete_ne].
Qed.

(** A test starts with its variables unset, and whatever it does to the
    environment, its variables have their values again after it, except those
    whose value was no text, which are gone. *)
Theorem env_restored (readable : bytes -> bool) (vars : list bytes) (env : Env) (test : Env -> Env) :
  let '(env1, saved) := acquire readable vars env in
  forall k,
  env1 !! k = (if decide (k ∈ vars) then None else env !! k) /\
  drop_guard saved (test env1) !! k =
    if decide (k ∈ vars) then match env !! k with Some v => if readable v then Some v else None | None => None end
    else test env1 !! k.
Proof. intros k. split; [apply deleted_all|apply (restored_all (fun k => match env !! k with Some v => if readable v then Some v else None | None => None end))]. Qed.

(** ** Examples *)

(** A network that keeps the documents it is given, by their address. *)
Abbreviation Documents := (gmap bytes Value).

#[export] Instance documents_network : Network Documents := fun r s =>
  match method r with
  | GET => (s, Ok (match s !! url r with
                   | Some v => mkResponse 200 (Ok []) (Some v)
                   | None => mkResponse 404 (Ok (lit "no such folder")) None
                   end))
  | PUT => match json r with
           | Some v => (<[ url r := v ]> s, Ok (mkResponse 200 (Ok []) None))
           | None => (s, Ok (mkResponse 400 (Ok []) None))
           end
  | POST => (s, Ok (mkResponse 200 (Ok []) None))
  | DELETE => (base.delete (url r) s, Ok (mkResponse 200 (Ok []) None))
  end.

Definition documents_devices (s : Documents) (u : bytes) : option (list bytes) := ids_of <$> s !! u.

Lemma documents_get (u key : bytes) (s : Documents) : let '(s', r) := send (mkRequest GET u key None) s in
  documents_devices s' = documents_devices s /\
  forall resp v ids, r = Ok resp -> is_success (status resp) = true -> parsed resp = Some v ->
    documents_devices s u = Some ids -> ids ⊆ ids_of v.
Proof.
  unfold send, documents_network, documents_devices. cbn [method url]. split; [done|]. intros resp v ids [= <-].
  destruct (s !! u) as [v0|]; [|done]. cbn. by intros _ [= <-] [= <-].
Qed.

Lemma documents_put (u key : bytes) (config : Value) (s : Documents) : let '(s', r) := send (mkRequest PUT u key (Some config)) s in
  (forall u', u' <> u -> documents_devices s' u' = documents_devices s u') /\
  ((exists ids, documents_devices s' u = Some ids /\ ids_of config ⊆ ids) \/
   (documents_devices s' u = documents_devices s u /\ ~ succeeded r)).
Proof.
  unfold send, documents_network, documents_devices. cbn [method url json].
  split; [intros u' Hne; by rewrite lookup_insert_ne|]. left. rewrite lookup_insert_eq. by eexists.
Qed.

#[export] Instance documents_syncthing : Syncthing Documents := {
  devices := documents_devices;
  get_law := documents_get;
  put_law := documents_put;
  post_device_law base key body s := eq_refl
}.

Definition client0 : RestClient := new_client 8384 (lit "key").
Definition handle0 : FolderHandle := mkHandle (lit "f") (lit "A") client0 0.
Definition handle1 : FolderHandle := mkHandle (lit "f") (lit "A") client0 1.
Definition shared : Documents := {[ folder_url handle0 := folder_json (lit "/tmp/f") (lit "f") ]}.
Definition two_calls (h h' : FolderHandle) : World :=
  mkWorld shared ∅ {[ 0%nat := mkCaller h (lit "B") (lit "b") Starting; 1%nat := mkCaller h' (lit "C") (lit "c") Starting ]}.
(** The first call is overtaken by the second between its requests. *)
Definition play (h h' : FolderHandle) : World := foldl (fun w c => add_peer_step c w) (two_calls h h') [0; 0; 0; 1; 1; 1; 0; 1; 1; 1; 1]%nat.

Lemma schedule_reached (cs : list nat) (w : World (S := Documents)) : rtc step w (foldl (fun w c => add_peer_step c w) w cs).
Proof. revert w. induction cs as [|c cs IH]; intros w; cbn [foldl]; [done|]. eapply rtc_l; [apply (step_call w c)|apply IH]. Qed.

Lemma played h h' : rtc step (two_calls h h') (play h h').
Proof. apply schedule_reached. Qed.

Lemma peers_not_lost_witness :
  devices (network (play handle0 handle0)) (folder_url handle0) = Some [lit "B"; lit "C"] /\
  exists ids, devices (network (play handle0 handle0)) (folder_url handle0) = Some ids /\ lit "B" ∈ ids.
Proof.
  split; [vm_compute; reflexivity|].
  destruct (peers_not_lost (two_calls handle0 handle0) (play handle0 handle0)) as [_ H].
  - intros c call. cbn. intros [[<- <-]|[_ [<- <-]%lookup_singleton_Some]]%lookup_insert_Some;
      (split; [done|]); vm_compute; by eexists.
  - intros c c' call call' H1 H2 _. cbn in H1, H2.
    apply lookup_insert_Some in H1 as [[<- <-]|[_ [<- <-]%lookup_singleton_Some]];
      apply lookup_insert_Some in H2 as [[<- <-]|[_ [<- <-]%lookup_singleton_Some]]; done.
  - apply played.
  - assert (callers (play handle0 handle0) !! 0%nat = Some (mkCaller handle0 (lit "B") (lit "b") (Finished (Ok tt)))) as E
      by (vm_compute; reflexivity).
    exact (H 0%nat _ E eq_refl).
Defined.

(** The mutex is one of the handle, not of the folder: two handles of a folder
    ([share_named] twice) lose a peer, although both calls succeed. *)
Theorem two_handles_lose_a_peer :
  let w := play handle0 handle1 in
  rtc step (two_calls handle0 handle1) w /\
  (forall c, c = 0%nat \/ c = 1%nat -> phase <$> callers w !! c = Some (Finished (Ok tt))) /\
  devices (network w) (folder_url handle0) = Some [lit "C"].
Proof.
  split; [apply played|]. split; [|vm_compute; reflexivity]. intros c [->| ->]; vm_compute; reflexivity.
Qed.

(** A machine whose network never answers. *)
Record Machine := mkMachine { procs : gset nat; tmp : gset bytes; time : Z }.

#[export] Instance silent_network : Network Machine := fun _ m => (m, Err tt).
#[export] Instance machine_host : Host Machine := {
  tempdir m := let d := fresh (tmp m) in (mkMachine (procs m) ({[ d ]} ∪ tmp m) (time m), Ok d);
  remove_dir d m := mkMachine (procs m) (tmp m ∖ {[ d ]}) (time m);
  find_free_port m := (m, Ok 4000);
  write_file _ _ m := (m, Ok tt);
  exists_file _ _ := true;
  spawn _ _ m := let c := fresh (procs m) in (mkMachine ({[ c ]} ∪ procs m) (tmp m) (time m), Ok c);
  kill c m := mkMachine (procs m ∖ {[ c ]}) (tmp m) (time m);
  now := time;
  sleep d m := mkMachine (procs m) (tmp m) (time m + d)
}.

#[export] Instance machine_laws : HostLaws procs tmp.
Proof. split; intros; cbn; try done; try lia; split; try done; (split; [apply is_fresh|done]). Qed.

(** An instance that does not answer is given up after 15 seconds, and gone. *)
Example silent_instance :
  let m := mkMachine ∅ ∅ 0 in
  let '(m', r) := start {[ lit "SYNCTHING_BIN" := lit "/bin/syncthing" ]} (Some ([], [])) [] m in
  r = Err StartupTimeout /\ procs m' = ∅ /\ tmp m' = ∅ /\ time m' = 15000.
Proof. vm_compute. done. Qed.

End Harness.
