(* ===== verification/DavServe.v ===== *)
(** The WebDAV server as it runs ([serve] of [bepository-dav/src/lib.rs],
    [checkpoint_serve_dav] of [bepository-cli/src/main.rs]): connections, requests
    and the calls that the handler of the WebDAV library makes on the file
    system interleave as a step relation.

    The library turns an authorised request into a program over the operations of
    the file system, which it chooses; HTTP itself is hyper's. *)

From Stdlib Require Import ZArith Lia.
From stdpp Require Import base gmap list strings relations.
From S2P Require Import Prelude BepTypes Base32 Kv GcState Store Snapshot Meta ObjectStore Activation Checkpoints.
From S2P Require Import Credentials StorageUri Lock LockRun MetaTape Registry Dav DavSlate Admin.

Local Open Scope Z_scope.
Local Open Scope bep_scope.

Module DavServe.
Import Dav.
#[local] Arguments Handled {R} r.
#[local] Arguments Unauthorized {R}.

Section Server.
Context {Fs Ref Time : Type} `{!SnapshotFs Fs Ref Time} (format_time : Time -> bytes) (now : Time).
Context {B64 : Meta.Base64} (sha256 : bytes -> bytes) (header_to_str : bytes -> option bytes).

(** A call on the file system and what it returns; reading and seeking return the
    file with its position. *)
Inductive Call : Type -> Type :=
| CMetadata (path : option bytes) : Call (result FsError (EntryMeta Time))
| CReadDir (path : option bytes) : Call (result FsError (list (DirEntry Time)))
| COpen (path : option bytes) (options : OpenOptions) : Call (result FsError (DavSnapshotFile (Ref := Ref) (Time := Time)))
| CReadBytes (f : DavSnapshotFile (Ref := Ref) (Time := Time)) (count : Z) :
    Call (DavSnapshotFile (Ref := Ref) (Time := Time) * result FsError bytes)
| CSeek (f : DavSnapshotFile (Ref := Ref) (Time := Time)) (from : SeekFrom) :
    Call (DavSnapshotFile (Ref := Ref) (Time := Time) * result FsError Z).

Definition on_file {A : Type} (m : SE (DavSnapshotFile (Ref := Ref) (Time := Time) * Fs) FsError A)
  (f : DavSnapshotFile (Ref := Ref) (Time := Time)) (fs : Fs) :
  Fs * (DavSnapshotFile (Ref := Ref) (Time := Time) * result FsError A) :=
  let '((f', fs'), r) := m (f, fs) in (fs', (f', r)).

(** The file system [DavSfs]: the storage and the snapshots found at the start. *)
Definition perform (snapshots : list Ref) {A : Type} (c : Call A) : Fs -> Fs * A :=
  match c in Call A return Fs -> Fs * A with
  | CMetadata path => metadata format_time now snapshots path
  | CReadDir path => read_dir format_time now snapshots path
  | COpen path options => open format_time snapshots path options
  | CReadBytes f count => on_file (read_bytes count) f
  | CSeek f from => on_file (seek from) f
  end.

(** What the WebDAV library does with a request. *)
Inductive Prog (R : Type) : Type :=
| Respond (r : R)
| Ask {A : Type} (c : Call A) (k : A -> Prog R).
Arguments Respond {R} r.
Arguments Ask {R A} c k.

Context {Request R : Type} (authorization : Request -> option bytes) (handler : Request -> Prog R).

Inductive ServeError := ListFailed (e : Snapshot.SnapshotError) | BindFailed.

(** The server: the file system, whether the loop still accepts, the connections,
    the requests being handled, and the answers given, the last one first. *)
Record Server := mkServer {
  fs : Fs;
  snapshots : list Ref;
  listening : bool;
  connections : nat;
  active : gmap nat (Request * Prog R);
  answers : list (Request * Response R)
}.

(** [serve] up to its loop; [bindable] says whether the address can be bound. *)
Definition serve (bindable : bool) (s : Fs) : Fs * result ServeError Server :=
  match list_snapshots s with
  | (s', Err e) => (s', Err (ListFailed e))
  | (s', Ok snaps) => (s', if bindable then Ok (mkServer s' snaps true 0 ∅ []) else Err BindFailed)
  end.

Definition set_active (sv : Server) (fs : Fs) (active : gmap nat (Request * Prog R)) (answers : list (Request * Response R)) :
  Server := mkServer fs (snapshots sv) (listening sv) (connections sv) active answers.

(** A request on a connection: [handle_request] up to the handler. *)
Definition on_request (password : bytes) (id : nat) (req : Request) (sv : Server) : Server :=
  match check_basic_auth sha256 header_to_str (authorization req) password with
  | Ok _ => set_active sv (fs sv) (<[ id := (req, handler req) ]> (active sv)) (answers sv)
  | Err _ => set_active sv (fs sv) (active sv) ((req, Unauthorized) :: answers sv)
  end.

(** The handler of a request goes on. *)
Definition on_handler (id : nat) (sv : Server) : Server :=
  match active sv !! id with
  | Some (req, Respond r) => set_active sv (fs sv) (delete id (active sv)) ((req, Handled r) :: answers sv)
  | Some (req, Ask c k) =>
      let '(fs', a) := perform (snapshots sv) c (fs sv) in
      set_active sv fs' (<[ id := (req, k a) ]> (active sv)) (answers sv)
  | None => sv
  end.

(** Connections go on after the loop has ended. An error of [accept] is logged. *)
Inductive step (password : bytes) (sv : Server) : Server -> Prop :=
| step_accept : listening sv = true ->
    step password sv (mkServer (fs sv) (snapshots sv) true (S (connections sv)) (active sv) (answers sv))
| step_accept_error : listening sv = true -> step password sv sv
| step_request id req : connections sv <> 0%nat -> active sv !! id = None -> step password sv (on_request password id req sv)
| step_handler id : step password sv (on_handler id sv)
| step_cancel : step password sv (mkServer (fs sv) (snapshots sv) false (connections sv) (active sv) (answers sv)).

(** ** Nothing is read without the password *)

(** The request carries the password of the server. *)
Definition knows (password : bytes) (req : Request) : Prop :=
  exists auth b64 creds pw, authorised sha256 header_to_str (authorization req) password auth b64 creds pw.

Definition allowed_only (password : bytes) (sv : Server) : Prop :=
  map_Forall (fun _ x => knows password (fst x)) (active sv) /\
  Forall (fun x => match snd x with Handled _ => knows password (fst x) | Unauthorized => ~ knows password (fst x) end)
    (answers sv).

(** The file system is untouched as long as nobody knew the password. *)
Definition untouched (password : bytes) (start : Fs) (sv : Server) : Prop :=
  fs sv = start \/ exists req, knows password req /\ ((exists id p, active sv !! id = Some (req, p)) \/ exists r, (req, r) ∈ answers sv).

Definition inv (password : bytes) (start : Fs) (snaps : list Ref) (sv : Server) : Prop :=
  snapshots sv = snaps /\ allowed_only password sv /\ untouched password start sv.

Lemma request_inv password start snaps id req sv : active sv !! id = None ->
  inv password start snaps sv -> inv password start snaps (on_request password id req sv).
Proof.
  intros Hid (Hs & [Ha Hr] & Hu). unfold on_request.
  pose proof (check_authorised sha256 header_to_str (authorization req) password) as Hc.
  destruct (check_basic_auth _ _ _ _); cbn [is_ok] in Hc; (split; [done|]); (split; [split|]); cbn [active answers set_active]; try done.
  - apply map_Forall_insert_2; [by apply Hc|done].
  - destruct Hu as [Hu|(q & Hq & [(i & p & Hi)|Hans])]; [by left| |right; eauto]. right. exists q. split; [done|]. left.
    exists i, p. cbn. rewrite lookup_insert_ne; [done|]. intros ->. by rewrite Hid in Hi.
  - constructor; [|done]. cbn. by intros ?%Hc.
  - destruct Hu as [Hu|(q & Hq & [Hact|(r & Hans)])]; [by left|right; eauto|]. right. exists q. split; [done|]. right. exists r. by right.
Qed.

Lemma handler_inv password start snaps id sv :
  inv password start snaps sv -> inv password start snaps (on_handler id sv).
Proof.
  intros (Hs & [Ha Hr] & Hu). unfold on_handler. destruct (active sv !! id) as [[req [r|A c k]]|] eqn:Eid; [| |done].
  - split; [done|]. split; [split|]; cbn [active answers set_active].
    + by apply map_Forall_delete.
    + constructor; [|done]. by apply (Ha _ _ Eid).
    + right. exists req. split; [by apply (Ha _ _ Eid)|]. right. exists (Handled r). by left.
  - destruct (perform (snapshots sv) c (fs sv)) as [fs' a]. split; [done|]. split; [split|]; cbn [active answers set_active]; [|done|].
    + apply map_Forall_insert_2; [by apply (Ha _ _ Eid)|done].
    + right. exists req. split; [by apply (Ha _ _ Eid)|]. left. exists id, (k a). apply lookup_insert_eq.
Qed.

(** C33: The WebDAV server reads nothing for those who do not know the password, and
    shows the snapshots of its start. Whatever the library does for a request,
    whoever connects, in every interleaving of connections, requests and calls,
    also after the loop has ended: a request is handled exactly when it carries
    the password, and answered 401 otherwise; until the first such request the
    storage is as the start left it; the list of snapshots never changes. *)
Theorem dav_requires_password (bindable : bool) (password : bytes) (s : Fs) (sv0 sv : Server)
  (Hstart : snd (serve bindable s) = Ok sv0) (Hrun : rtc (step password) sv0 sv) :
  Ok (snapshots sv) = snd (list_snapshots s) /\ allowed_only password sv /\ untouched password (fst (list_snapshots s)) sv.
Proof.
  unfold serve in Hstart. destruct (list_snapshots s) as [s' [snaps|e]]; cbn [fst snd] in *; [|done].
  destruct bindable; [|done]. injection Hstart as <-. assert (inv password s' snaps sv) as (Hs & Ha & Hu).
  { revert Hrun. apply (rtc_ind_r (inv password s' snaps)).
    - split; [done|]. split; [|by left]. split; [apply map_Forall_empty|constructor].
    - intros sv1 sv2 _ Hstep Hi. destruct Hstep; [done|done|by apply request_inv|by apply handler_inv|done]. }
  by rewrite Hs.
Qed.

End Server.

(** ** [checkpoint_serve_dav] *)

Section Command.
Import Kv Store Meta ObjectStore Activation Checkpoints.
Context {OS Db : Type} `{!ObjectStore OS} `{!SlateDb Db} `{!OpenDb OS Db} `{!CheckpointDb OS Db} `{!DavSlate.OpenReader OS Db}.
Context {SC : StoreCodecs} {HF SF : Type} `{!Bloom bytes HF} `{!Bloom Z SF}.
Context {HT : HumanTime} {TM : Toml} {B64 : Base64} (sha256 : bytes -> bytes) (from_timestamp : Z -> Z -> option Z).
Context {St U W : Type} `{!Credentials.Url U} `{!StorageUri.UrlParts U} `{!StorageUri.Backends U (St * OS) W}.
Context (to_lowercase : bytes -> bytes) {Request R : Type}.

Inductive CommandError := OpenFailed (e : StorageUri.Error) | ServeFailed (e : ServeError).

(** The storage is opened without the lock and served until the interrupt. *)
Definition checkpoint_serve_dav (env : Admin.Env (St := St)) (bindable : bool) (w : W) :
  W * result CommandError (Server (Fs := DavSlate.SnapshotStorage (OS := OS) (Db := Db) (HF := HF) (SF := SF))
                             (Ref := Checkpoints.SnapshotRef) (Time := Z) (Request := Request) (R := R)) :=
  match Admin.open_storage (OS := OS) (Db := Db) (HF := HF) (SF := SF) to_lowercase env false w with
  | (w', Err e) => (w', Err (OpenFailed e))
  | (w', Ok world) =>
      let fs := DavSlate.mkSnapshots (Admin.storage world) ∅ in
      (w', map_err ServeFailed (snd (serve (SnapshotFs0 := DavSlate.slate_snapshots sha256 from_timestamp) bindable fs)))
  end.

End Command.
(** ** Example *)

(** Snapshots that count how often they are asked. *)
#[local] Instance counted : SnapshotFs nat bytes Z := {
  ref_label r := r;
  ref_time _ := 0;
  list_snapshots n := (n, Ok [lit "photos"]);
  fs_read_dir _ _ n := (S n, Ok []);
  fs_file_metadata _ _ n := (S n, Err Snapshot.NotFound);
  fs_read_bytes _ _ _ _ n := (S n, Err Snapshot.NotFound)
}.
#[local] Existing Instance MetaTape.plain64.

(** Every request lists the snapshot of the folder. *)
Definition toy_handler (header : option bytes) : Prog (Ref := bytes) (Time := Z) bool :=
  Ask _ (CReadDir (Some (lit "photos/m"))) (fun r => Respond _ (is_ok r)).
Definition toy_server : Server (Fs := nat) (Ref := bytes) (Time := Z) (Request := option bytes) (R := bool) :=
  mkServer 0%nat [lit "photos"] true 0 ∅ [].
Definition with_password : option bytes := Some (lit "Basic me:secret").
Definition without_password : option bytes := Some (lit "Basic me:guess").
Abbreviation toy_step := (step (fun _ : Z => lit "m") 0 Registry.toy_sha Some (fun h : option bytes => h) toy_handler (lit "secret")).

Lemma dav_requires_password_witness :
  exists sv, rtc toy_step toy_server sv /\
    answers sv = [(with_password, Handled true); (without_password, Unauthorized)] /\ fs sv = 1%nat /\
    snapshots sv = [lit "photos"] /\
    knows Registry.toy_sha Some (fun h => h) (lit "secret") with_password /\
    ~ knows Registry.toy_sha Some (fun h => h) (lit "secret") without_password.
Proof.
  assert (exists sv, rtc toy_step toy_server sv /\
    answers sv = [(with_password, Handled true); (without_password, Unauthorized)] /\ fs sv = 1%nat) as (sv & Hrun & Ha & Hf).
  { eexists. split.
    - eapply rtc_l; [by apply step_accept|].
      eapply rtc_l; [by apply (step_request _ _ _ _ _ _ _ _ 0%nat without_password)|].
      eapply rtc_l; [by apply (step_request _ _ _ _ _ _ _ _ 0%nat with_password)|].
      eapply rtc_l; [by apply (step_handler _ _ _ _ _ _ _ _ 0%nat)|].
      eapply rtc_l; [by apply (step_handler _ _ _ _ _ _ _ _ 0%nat)|]. apply rtc_refl.
    - split; vm_compute; reflexivity. }
  exists sv. split; [done|]. split; [done|]. split; [done|].
  assert (snd (serve true 0%nat) = Ok toy_server) as Hstart by reflexivity.
  destruct (dav_requires_password (fun _ : Z => lit "m") 0 Registry.toy_sha Some (fun h => h) toy_handler true (lit "secret")
    0%nat toy_server sv Hstart Hrun) as (Hs & [_ Hall] & _).
  split; [by injection Hs|]. rewrite Ha in Hall. apply Forall_cons in Hall as [H1 Hall]. apply Forall_cons in Hall as [H2 _].
  split; [exact H1|exact H2].
Defined.

End DavServe.
