(* ===== verification/CliRun.v ===== *)
(** The commands of the command line on a storage: what an [Invocation] of [Cli]
    runs ([async_main] and the [cmd_*] functions of
    [bepository-cli/src/main.rs]). The commands that manage the installation
    ([Service], [Upgrade]) open no storage. *)

From Stdlib Require Import ZArith Lia.
From stdpp Require Import base gmap list strings.
From S2P Require Import Prelude BepTypes Base32 Kv GcState Store Meta ObjectStore Activation Checkpoints Fsck.
From S2P Require Import Credentials StorageUri Lock LockRun Tls Compact Admin Serve Dav DavSlate DavServe Cli.

Local Open Scope Z_scope.

Module CliRun.
Import Kv Store Meta ObjectStore Activation Checkpoints Cli.

Section Run.
Context {OS Db : Type} `{!ObjectStore OS} `{!SlateDb Db} `{!OpenDb OS Db} `{!CheckpointDb OS Db} `{!DavSlate.OpenReader OS Db}.
Context `{!Compact.WriterDb Db} `{!Compact.Compactor OS} {SC : StoreCodecs}.
Context {HF SF : Type} `{!Bloom bytes HF} `{!Bloom Z SF}.
Context {HT : HumanTime} {TM : Toml} {B64 : Base64} (sha256 : bytes -> bytes) (from_timestamp : Z -> Z -> option Z).
Context {Path St : Type} `{Countable Path} `{OP : Lock.ObjectPath Path} {ST : LockRun.Store Path St}.
Context {CH : Lock.Chrono} {SE0 : Lock.SerdeEpoch}.
Context {U W : Type} `{!Credentials.Url U} `{!StorageUri.UrlParts U} `{!StorageUri.Backends U (St * OS) W}.
Context (to_lowercase : bytes -> bytes) (LOCK_PATH : Path) {Request R : Type}.

(** What a command prints, as far as it is data. *)
Inductive Printed :=
| PNothing
| PId (id : bytes)
| PFolders (rows : list (bytes * bytes * bytes))
| PStatus (status : Admin.LockStatus (Path := Path))
| PCheckpoints (schedules : list (Z * CheckpointSchedule)) (folders : list (bytes * list Checkpoints.Checkpoint)).

Abbreviation TheWorld := (Admin.World (OS := OS) (Db := Db) (HF := HF) (SF := SF) (St := St)).

Inductive Ended :=
| AdminEnded (world : option TheWorld) (o : Lock.outcome (result Admin.AdminError Printed))
| DaemonEnded (x : Serve.CommandExit (OS := OS) (St := St))
| DavStarted (r : result DavServe.CommandError
    (DavServe.Server (Fs := DavSlate.SnapshotStorage (OS := OS) (Db := Db) (HF := HF) (SF := SF)) (Ref := SnapshotRef) (Time := Z)
       (Request := Request) (R := R)))
| NoStorageOpened.

Definition printing {A : Type} (into : A -> Printed) (r : W * option TheWorld * Lock.outcome (result Admin.AdminError A)) : W * Ended :=
  let '(w, world, o) := r in
  (w, AdminEnded world match o with
                       | Lock.Done r => Lock.Done match r with Ok a => Ok (into a) | Err e => Err e end
                       | Lock.Panicked => Lock.Panicked
                       | Lock.Exhausted => Lock.Exhausted
                       end).

(** The surroundings of a run. *)
Record Surroundings := mkSurroundings {
  vars : StorageUri.opts;
  project_dir : option bytes;
  instance : option bool;
  generated : result Tls.TlsError Identity;
  attempts : nat;
  during : St -> St;
  jobs : nat;
  script : bytes -> list (Serve.Cycle (OS := OS) (Db := Db) (HF := HF) (SF := SF) (St := St));
  bindable : bool
}.

Definition env_of (su : Surroundings) (p : Place) : Admin.Env (St := St) :=
  Admin.mkEnv (uri p) (place_cache p) (vars su) (project_dir su) (holder p) (instance su) (generated su) (attempts su) (during su).

Definition perform (su : Surroundings) (inv : Invocation) (w : W) : W * Ended :=
  match inv with
  | RunInit p => printing PId (Admin.cmd_init sha256 to_lowercase LOCK_PATH (env_of su p) w)
  | RunRemoveFolder p folder =>
      printing (fun _ => PNothing) (Admin.cmd_remove_folder to_lowercase LOCK_PATH (env_of su p) folder w)
  | RunListFolders p => printing PFolders (Admin.cmd_list_folders to_lowercase (env_of su p) w)
  | RunGetId p => printing PId (Admin.cmd_get_id sha256 to_lowercase (env_of su p) w)
  | RunServe p master listen priority lease =>
      let '(w', x) := Serve.cmd_serve sha256 to_lowercase LOCK_PATH (env_of su p) master priority lease (script su) w in
      (w', DaemonEnded x)
  | RunFsck p check regenerate_id clear_lock compact =>
      printing PStatus (Admin.cmd_fsck sha256 to_lowercase LOCK_PATH (env_of su p) (jobs su) check regenerate_id clear_lock compact w)
  | RunSetTtl p interval value =>
      printing (fun _ => PNothing) (Admin.checkpoint_set_ttl to_lowercase LOCK_PATH (env_of su p) interval value w)
  | RunRemoveSchedule p interval =>
      printing (fun _ => PNothing) (Admin.checkpoint_remove to_lowercase LOCK_PATH (env_of su p) interval w)
  | RunListCheckpoints p => printing (fun '(s, f) => PCheckpoints s f) (Admin.checkpoint_list to_lowercase (env_of su p) w)
  | RunServeDav p addr password =>
      let '(w', r) := DavServe.checkpoint_serve_dav sha256 from_timestamp to_lowercase (env_of su p) (bindable su) w in
      (w', DavStarted r)
  | RunPrintService | RunInstall _ _ | RunUninstall | RunUpgrade _ _ => (w, NoStorageOpened)
  end.

(** The commands that need to be the only process of their storage on the
    machine. *)
Definition alone (inv : Invocation) : bool :=
  match inv with
  | RunInit _ | RunRemoveFolder _ _ | RunServe _ _ _ _ _ | RunFsck _ _ _ _ _ | RunSetTtl _ _ _ | RunRemoveSchedule _ _ => true
  | _ => false
  end.

(** The result of a command that was refused because of another process. *)
Definition turned_away (e : Ended) : Prop :=
  match e with
  | AdminEnded None (Lock.Done (Err e)) => match e with Admin.AnotherInstance | Admin.TooShort _ => True | _ => False end
  | DaemonEnded (Serve.Refused Admin.AnotherInstance) => True
  | _ => False
  end.

Lemma opening_refused {A : Type} env create (body : TheWorld -> TheWorld * Lock.outcome (result Admin.AdminError A)) (w : W) :
  Admin.instance env = Some false ->
  Admin.opening to_lowercase env true create body w = (w, None, Lock.Done (Err Admin.AnotherInstance)).
Proof. unfold Admin.opening, Admin.acquire_single_instance. by intros ->. Qed.

(** A command that writes does not run beside another one of the same machine and
    storage: while the name of the process is taken, it ends without opening the
    storage. *)
Lemma second_process_turned_away (su : Surroundings) (inv : Invocation) (w : W) :
  instance su = Some false -> alone inv = true ->
  let '(w', e) := perform su inv w in w' = w /\ turned_away e.
Proof.
  intros Hi Ha. assert (forall p, Admin.instance (env_of su p) = Some false) as Hp by done.
  destruct inv; cbn [alone] in Ha; try discriminate; cbn [perform].
  - unfold Admin.cmd_init. by rewrite opening_refused.
  - unfold Admin.cmd_remove_folder. by rewrite opening_refused.
  - unfold Serve.cmd_serve, Admin.acquire_single_instance. by rewrite Hp.
  - unfold Admin.cmd_fsck. by rewrite opening_refused.
  - unfold Admin.checkpoint_set_ttl. destruct (validate_checkpoint_duration interval); [|done].
    destruct (validate_checkpoint_duration value); [|done]. by rewrite opening_refused.
  - unfold Admin.checkpoint_remove. destruct (validate_checkpoint_duration interval); [|done]. by rewrite opening_refused.
Qed.

End Run.
End CliRun.
